(* ===== verification/_CoqProject ===== *)
-Q . S2P
Prelude.v
BitStream.v
LatencyCalibrator.v
ResolutionQueue.v
Endpoint.v
Actions.v
Transaction.v
JtagTap.v
JtagChain.v
TransactionBuffer.v
VSS.v
ActionLayout.v
Storage.v
Errors.v
Tunnel.v
TunnelTransfer.v
TunnelLoop.v
BucketArrayMap.v
FreeList.v
Driver.v
DriverPool.v
Asynchronicity.v
ExecutionGate.v
ByteStream.v
PullJtag.v
PullQueue.v
PullAPB.v
RVJtagDTM.v
AsyncGate.v
Sockets.v
Printing.v
Logger.v
ApiTransaction.v
ApiContext.v
ApiStreams.v
Generator.v
ResolutionMap.v
Frames.v
JtagStack.v
TunnelStack.v
ApiTunnel.v
Ownership.v
