(* ===== verification/Prelude.v ===== *)
(** * libedr: a verification development

    libedr connects a debugger to a target.  A client builds a transaction, a
    list of actions with room for their results, and schedules it on a driver;
    drivers stand on each other: [RVJtagDTM] accesses a RISC-V debug module
    through [JtagChain], which turns accesses to TAPs into JTAG bits for a [Jtag]
    driver such as [PullJtag]; [PullAPB] and [PullJtag] serve a simulator that
    pulls commands and pushes results, and hold it by an [ExecutionGate] while
    there is nothing to do; [DeferredByteStream] sends bytes over a stream, and a
    [ByteStreamTunnel] forwards the transactions of drivers in another process
    over such a stream.  Actions, results and errors are laid out in chunked
    buffers as variable-sized structures.  Below are the library's own containers,
    its memory pools and its coroutines; above, an interface for bindings that keeps
    drivers, streams and the names of transactions in a context.

    ** Conventions

    Definitions carry the names of the code.  Handlers that run under a mutex are
    single steps; a coroutine is cut at its waits.  Machine integers are [Z] with
    the conversion to their width written out by [wrap]; sizes and positions that
    the code never lets grow past an array are [nat].  A failed [assert], an
    access outside of an array and the use of a null or dangling pointer are
    [None]; failures that the code reports are values of its own error types.
    What lies outside of the library (the memory resource, a blocking stream, a
    simulator, a target) is a parameter or a list of answers, and a theorem names
    what it needs of it.  Loops run on fuel where they are not structural; each
    such function comes with a fuel that is proved to be enough, so theorems say
    that it returns: a loop over a transaction takes one more than its actions,
    [SizeOf] the bytes of the memory it measures (every nested variant uses up
    four of them), the loops of the tunnel one more than the bytes they are given.

    ** Files

    - [Prelude]: machine integers, bit lists, alignment, automation.
    - [BitStream] ([util/adt/BitStream.hpp]): streams of bits over words.  The
      theorems give reading, writing and copying as functions on bit lists that
      touch nothing else ([Read_delivers_next_bits], [Write_replaces_next_bits],
      [WriteStream_copies_bits], [Write_Read_roundtrip]), and what [Split] really
      cuts.
    - [LatencyCalibrator] ([util/miscellaneous/LatencyCalibrator.hpp]): the
      counters stay ordered, and the search settles at the need of a target
      ([calibration_converges]).
    - [ResolutionQueue] ([util/asynchronicity/ResolutionQueue.hpp]): the intrusive
      queue over a heap of items refines two lists ([queue_refines_fifo]) under a
      legality condition, which [queue_writes_to_dead_item] shows to be needed.
    - [Endpoint] ([driver/PushQueueEndpoint.hpp]): threads that serve, join and
      terminate such a queue, in all interleavings ([endpoint_serves_in_order],
      [endpoint_never_hangs]).  Writes to items that are gone are recorded: there are
      none while at most one item is scheduled, and [second_item_writes_to_dead] has
      one; [join_misses_wakeup] is a wait without an end.
    - [Actions] ([driver/*Action.hpp], [UniqueIDs.hpp], [AnyAction.hpp],
      [Error.hpp]): actions, causes and the dispatch by number.
    - [Transaction] ([driver/Driver.hpp], [DriverImpl.hpp]): transactions as
      drivers see them, lists of actions with their progress, failures and
      [Schedule].
    - [JtagTap] and [JtagChain] ([driver/jtag/JtagChain.cpp], [JtagChain.h]): the
      table of shortest TMS sequences, and the visitor that translates
      chain actions to JTAG actions and back.  The driver's belief about the state
      of the TAP follows a real port, a scan reads the selected TAP, and two
      instruction writes in one transaction can be lost ([two_ir_writes_lost]).  The
      counters of bits have their widths; empty scans and chains that end below the
      selected TAP are left out of the theorems, as the driver breaks on them
      ([excluded_plans_break]).  The port that the theorems compare with is the
      IEEE 1149.1 state graph and a shift register, defined beside them.
    - [TransactionBuffer] ([driver/TransactionBuffer.hpp]): chunked buffers; what
      is put in is read back ([buffer_roundtrip]), also in a cleared buffer with
      at most one chunk; with more chunks reuse goes wrong
      ([cleared_buffer_replays]), and so does [FromDistance] in a second chunk.
    - [VSS] ([util/vss/VSS.hpp], [VSSPayloads.hpp]): types of variable-sized
      structures (arrays and bits whose length is given elsewhere, strings,
      payloads with parts, variants), their alignment, their size in memory,
      emplacement by a counting and a writing pass, and what a reader sees.
      [SizeOf] of any memory never reads outside of it ([SizeOf_untrusted]); what
      is emplaced is read as it was given ([emplaced_is_read]).
    - [ActionLayout] ([driver/*Action.hpp], [Error.hpp]): the structures of all
      actions, results and causes as such types; bytes that the check of the
      tunnel can measure are seen as an action of their number, if there is one
      ([measured_action_typed]).
    - [Storage] ([driver/Driver.hpp], [VSS.hpp]): [Emplace] and [Extract] on
      buffers, [Add] and the iterator; what a client adds is what a driver finds
      ([transaction_roundtrip]).
    - [Errors] ([driver/Error.hpp], [Driver.hpp]): failing a transaction and
      reading the error ([error_roundtrip], with the cases in which it is lost,
      [error_lost]), and the class [Error] ([error_copy]).
    - [Driver] ([driver/Driver.hpp], [DriverImpl.hpp]): builders and statuses on
      buffers of the driver's pool; [driver_refines_tx] shows that they implement
      the lists of [Transaction], on which the drivers are verified.
    - [DriverPool]: any sequence of client operations, with memory running out at
      any point, leaves only cleared buffers in the pool ([pool_stays_clean]).
    - [Tunnel] ([tunnel/ByteStreamTunnel.cpp], [ByteStreamTunnel.h]): packets,
      handshake, requests, responses and the event loop.  How many bytes a read
      delivers is a parameter ([Delivery]), and the memory of a header that came in
      part holds what it held before; the drivers at the far end answer as
      parameters.  [TunnelTransfer] follows a transaction there and back over reads
      that deliver all they ask for ([WholeReads]; [request_reaches_driver]; a
      transaction of two chunks never ends, [long_transaction_unfinished]);
      [TunnelLoop] has, for any delivery, the handshake ([handshake_agrees]), the end
      of the event loop ([event_loop_resolves_all]) and the keys
      ([keys_never_shared]): both loops end or stop at the assertion on a packet ID or
      a header of which too little was delivered ([short_read_stops_tunnel]).
    - [BucketArrayMap] ([util/adt/BucketArrayMap.hpp], [BucketArrayStack.hpp]):
      refinement of a finite map, in which an insertion fails exactly if a bucket that
      it needs is refused, and of a list; allocations are answered call by call.
    - [FreeList] ([util/adt/FreeList.hpp], [util/memory/FreeListAllocator.hpp]):
      items are conserved, blocks in use are not handed out again.
    - [Asynchronicity] ([util/asynchronicity/Asynchronicity.hpp]): the atomic
      steps of tasks and of queued items; all interleavings are explored, and the
      explored set is closed under the steps ([task_protocol_safe],
      [item_protocol_safe]); [kept_task_used_after_free] shows what an owner must
      not do.
    - [ExecutionGate] ([driver/execution_gate/ExecutionGate.cpp]): no lost
      wake-up, modes of a transaction.
    - [ByteStream] ([driver/bytestream/ByteStream.hpp]): writes and their
      acknowledgement, completion.
    - [PullJtag] ([driver/jtag/PullJtag.cpp]) and [PullAPB]
      ([driver/apb/PullAPB.cpp]): the generators deliver all bits and commands in
      order whatever the size of the calls, and answers may come in any pieces.
      [PullQueue] has [PullJtag] on its intrusive queue with items that go when they
      are resolved: as long as a simulator answers no more clocks than it has pulled,
      no item is used after its end, every call returns and all transactions are
      accounted for ([transactions_accounted]); one that answers earlier makes the
      driver resolve what it has not started ([early_answer_starts_nothing]).
    - [RVJtagDTM] ([driver/riscv/RVJtagDTM.cpp]): against a target that may be
      busy at any scan, accesses are performed in order and none twice, and the
      loop of attempts ends because every retry raises the latency
      ([accesses_performed_once]); waiting behind an access fails.
    - [AsyncGate] ([util/asynchronicity/AsyncGate.hpp], [RVJtagDTM.cpp]): the gate
      that holds transactions during the discovery ([discovery_gate_safe]).
    - [ResolutionMap] ([util/asynchronicity/ResolutionMap.hpp]): items of a bucket
      map that coroutines await and others resolve, in all interleavings
      ([resolution_map_safe]); an item that is resolved before it is awaited is
      used after its end ([resolved_too_early]).
    - [Frames] ([Asynchronicity.hpp], [FreeListAllocator.hpp]): frames of coroutines
      go back to the owner that allocated them, and owners give all memory back
      ([frames_accounted]); tasks without a frame ([moved_task]).
    - [Generator] ([Asynchronicity.hpp]): a generator gives, call by call, what its
      body makes of the arguments ([generator_runs_body]).
    - [Sockets] ([driver/bytestream/TCPSocket.cpp], [NamedPipe.cpp],
      [util/miscellaneous/ScopeGuard.hpp]): clients and servers over system calls
      that answer anything; descriptors are closed once and have one owner
      ([descriptors_accounted], with the leak of [Accept]); [empty_read_fails].
    - [Printing] ([util/miscellaneous/Formatting.hpp] and the [Format] functions and
      formatters of actions, causes, errors, bits and dependent transactions):
      the texts; that of a bit stream shows its bits ([bits_printed]).
    - [Logger] ([driver/Logger.hpp], [util/miscellaneous/Spinlock.hpp]): threads that
      log over one buffer; lines come out whole ([log_lines_whole]) and every call
      ends ([logger_drains]), until an allocation throws while there is a buffer,
      which the logger then uses although it was given back ([freed_buffer_is_used]).
    - [ApiTransaction] ([src/api/*.h]): transactions of the bindings; what a client
      reads there is what the driver left ([api_sees_results], [bits_come_out]).
      [ApiContext] has the slots of their names ([names_kept]), [ApiStreams] the
      streams and servers of a context and its end ([context_cleans_up]), and
      [ApiTunnel] its tunnels and the drivers that they make known: a tunnel that
      has started finds the drivers of the far end ([started_tunnel_finds]), a
      failed start is reported, a second one ends the program.
    - [JtagStack] ([JtagChain.cpp], [PullJtag.cpp]): the chain over the pulling driver
      over a target that sees clock edges ([chain_drives_target],
      [scan_reads_target]).
    - [TunnelStack] ([ByteStreamTunnel.cpp], [Driver.hpp]): a driver behind a tunnel
      leaves in the client's status what it would leave when it were called
      directly ([tunnel_transparent]).
    - [Ownership] ([TransactionBuffer.hpp], [Driver.hpp], [FreeList.hpp]): buffers as
      chunks behind pointers, their moves, and the pool that they come from and
      return to ([buffers_accounted]); a buffer used after its content was moved
      away ([moved_buffer_used]).

    ** What the parts say about each other

    [VSS] gives what [Storage] and [Errors] need of a type, [Storage] and [Errors]
    what [Driver] needs of a transaction, and [driver_refines_tx] lets the proofs
    about [JtagChain], [RVJtagDTM], [PullJtag], [PullAPB] and [ByteStream] work on
    lists.  [ResolutionQueue] is used by [Endpoint], [AsyncGate] and [PullQueue] as it
    is, and by [PullJtag] and [PullAPB] as the two lists that it refines, which
    [PullQueue] justifies by a simulation; [Tunnel] is written
    over the finite map that [BucketArrayMap] refines, and [ResolutionMap] over the
    bucket map itself.  [Frames] takes its memory from the allocator of [FreeList],
    [ApiTransaction] works on the statuses of [Driver] and prints with [Printing],
    and [ApiStreams] holds the objects of [Sockets].

    Three files compose parts.  [JtagStack] runs the actions that [JtagChain] makes
    through the generator of [PullJtag], for any sizes of the calls of the simulator,
    and compares with the port of [JtagTap] clock by clock.  [TunnelStack] joins the
    request, the far driver and the response of [TunnelTransfer] to one call, on
    the statuses of [Driver].  [Ownership] states what the rest relies on when it
    treats buffers as values: no chunk has two owners, and the chunks behind a
    buffer hold what the lists of [TransactionBuffer] hold.

    ** Not modelled

    [Overload], the concepts and the compile-time checks of format strings are
    features of the language.  [DriverContext] and the methods of the interface for
    bindings that construct one driver over another, or forward pulled and pushed
    data, only hand references on.  The generated bindings, the SystemVerilog side,
    the examples and the tests are left out.  Items of [AsyncGate] stay in memory, and
    a scan of [JtagChain] always finds memory for its bits. *)
From stdpp Require Export base tactics list numbers option gmap.
From Stdlib Require Export ZArith Lia.

Declare Scope edr_scope.
Delimit Scope edr_scope with edr.
Open Scope edr_scope.
#[global] Set Default Goal Selector "!".

(** ** Machine integers *)

(** Conversion of a mathematical integer to an unsigned type of [w] bits. *)
Definition wrap (w : nat) (x : Z) : Z := (x mod 2 ^ Z.of_nat w)%Z.

Notation "'u8[' x ]" := (wrap 8 x) (x at level 200) : edr_scope.
Notation "'u32[' x ]" := (wrap 32 x) (x at level 200) : edr_scope.
Notation "'u64[' x ]" := (wrap 64 x) (x at level 200) : edr_scope.

(** [(n + (a - 1)) & ~(a - 1)], the rounding written in all the aligned
    streams of the library. *)
Definition align_up (a n : Z) : Z := Z.land (n + (a - 1)) (Z.lnot (a - 1)).

(** What a shift of a value by at least the width of its type yields: the
    language leaves it undefined, so the development fixes no value. *)
Class ShiftUB := shift_ub : Z → nat → Z.

(** [v >> n] on a value of a [w]-bit type. *)
Definition shr `{ShiftUB} (w : nat) (v : Z) (n : nat) : Z :=
  if (n <? w)%nat then Z.shiftr v (Z.of_nat n) else shift_ub v n.

(** ** Bits of integers *)

(** The low [n] bits of [z], least significant first. *)
Definition zbits (n : nat) (z : Z) : list bool :=
  (λ i : nat, Z.testbit z (Z.of_nat i)) <$> seq 0 n.

(** The integer whose binary digits are [l], least significant first. *)
Fixpoint bits_z (l : list bool) : Z :=
  match l with
  | [] => 0
  | b :: l => Z.b2z b + 2 * bits_z l
  end.

(** ** Automation *)

Create HintDb edr.

(** Boolean tests of the code turned into propositions, then [lia]. *)
Ltac bool_to_prop :=
  repeat match goal with
  | H : (_ && _)%bool = true |- _ => apply andb_true_iff in H as [? ?]
  | H : (_ || _)%bool = false |- _ => apply orb_false_iff in H as [? ?]
  | H : negb _ = true |- _ => apply negb_true_iff in H
  | H : negb _ = false |- _ => apply negb_false_iff in H
  | H : (_ <? _)%nat = true |- _ => apply Nat.ltb_lt in H
  | H : (_ <? _)%nat = false |- _ => apply Nat.ltb_ge in H
  | H : (_ <=? _)%nat = true |- _ => apply Nat.leb_le in H
  | H : (_ <=? _)%nat = false |- _ => apply Nat.leb_gt in H
  | H : (_ =? _)%nat = true |- _ => apply Nat.eqb_eq in H
  | H : (_ =? _)%nat = false |- _ => apply Nat.eqb_neq in H
  | H : (_ <? _)%Z = true |- _ => apply Z.ltb_lt in H
  | H : (_ <? _)%Z = false |- _ => apply Z.ltb_ge in H
  | H : (_ <=? _)%Z = true |- _ => apply Z.leb_le in H
  | H : (_ <=? _)%Z = false |- _ => apply Z.leb_gt in H
  | H : (_ =? _)%Z = true |- _ => apply Z.eqb_eq in H
  | H : (_ =? _)%Z = false |- _ => apply Z.eqb_neq in H
  end.

(** [lia] after expanding divisions and remainders. *)
Ltac dlia := Z.to_euclidean_division_equations; lia.

(** ** Lemmas on machine integers *)

Section wrap_lemmas.
Implicit Types x : Z.

Lemma wrap_range (w : nat) x : (0 ≤ wrap w x < 2 ^ Z.of_nat w)%Z.
Proof. unfold wrap. apply Z.mod_pos_bound. lia. Qed.

Lemma wrap_small (w : nat) x : (0 ≤ x < 2 ^ Z.of_nat w)%Z → wrap w x = x.
Proof. intros. by apply Z.mod_small. Qed.

Lemma wrap_testbit (w : nat) x (i : Z) :
  (0 ≤ i)%Z → Z.testbit (wrap w x) i = ((i <? Z.of_nat w)%Z && Z.testbit x i)%bool.
Proof.
  intros Hi. unfold wrap. destruct (Z.ltb_spec i (Z.of_nat w)); simpl.
  - apply Z.mod_pow2_bits_low. lia.
  - apply Z.mod_pow2_bits_high. lia.
Qed.

Lemma wrap_wrap (w : nat) x : wrap w (wrap w x) = wrap w x.
Proof. apply wrap_small, wrap_range. Qed.

Lemma wrap_add_l (w : nat) x y : wrap w (wrap w x + y) = wrap w (x + y).
Proof. apply Z.add_mod_idemp_l. apply Z.pow_nonzero; lia. Qed.

Lemma testbit_ge_false (n : nat) x (i : Z) :
  (0 ≤ x < 2 ^ Z.of_nat n)%Z → (Z.of_nat n ≤ i)%Z → Z.testbit x i = false.
Proof.
  intros Hx Hi. rewrite <-(Z.mod_small x (2 ^ Z.of_nat n)) by done.
  apply Z.mod_pow2_bits_high. lia.
Qed.
End wrap_lemmas.

#[export] Hint Resolve wrap_range wrap_small : edr.

(** For a power of two, [align_up] is the least multiple that is not below
    its argument. *)
Lemma align_up_spec (k n : Z) :
  (0 ≤ k)%Z →
  align_up (2 ^ k) n = ((n + (2 ^ k - 1)) / 2 ^ k * 2 ^ k)%Z.
Proof.
  intros Hk. unfold align_up.
  rewrite <-Z.shiftr_div_pow2, <-Z.shiftl_mul_pow2 by lia.
  apply Z.bits_inj'; intros i Hi. rewrite Z.land_spec.
  rewrite Z.lnot_spec by lia.
  replace (2 ^ k - 1)%Z with (Z.ones k) by (rewrite Z.ones_equiv; lia).
  destruct (Z.ltb_spec i k).
  - rewrite Z.ones_spec_low, Z.shiftl_spec_low by lia. by rewrite andb_false_r.
  - rewrite Z.ones_spec_high, Z.shiftl_spec, Z.shiftr_spec by lia.
    rewrite andb_true_r. f_equal. lia.
Qed.

Lemma align_up_ge (k n : Z) : (0 ≤ k)%Z → (n ≤ align_up (2 ^ k) n)%Z.
Proof.
  intros. rewrite align_up_spec by done.
  pose proof (Z.pow_pos_nonneg 2 k ltac:(lia) ltac:(lia)).
  pose proof (Z.div_mod (n + (2 ^ k - 1)) (2 ^ k) ltac:(lia)).
  pose proof (Z.mod_pos_bound (n + (2 ^ k - 1)) (2 ^ k) ltac:(lia)). nia.
Qed.

Lemma align_up_lt (k n : Z) : (0 ≤ k)%Z → (align_up (2 ^ k) n < n + 2 ^ k)%Z.
Proof.
  intros. rewrite align_up_spec by done.
  pose proof (Z.pow_pos_nonneg 2 k ltac:(lia) ltac:(lia)).
  pose proof (Z.div_mod (n + (2 ^ k - 1)) (2 ^ k) ltac:(lia)).
  pose proof (Z.mod_pos_bound (n + (2 ^ k - 1)) (2 ^ k) ltac:(lia)). nia.
Qed.

Lemma align_up_mult (k n : Z) : (0 ≤ k)%Z → (align_up (2 ^ k) n mod 2 ^ k = 0)%Z.
Proof. intros. rewrite align_up_spec by done. apply Z.mod_mul. lia. Qed.

Lemma align_up_id (k n : Z) :
  (0 ≤ k)%Z → (n mod 2 ^ k = 0)%Z → align_up (2 ^ k) n = n.
Proof.
  intros Hk Hn. rewrite align_up_spec by done.
  pose proof (Z.pow_pos_nonneg 2 k ltac:(lia) ltac:(lia)).
  pose proof (Z.div_mod n (2 ^ k) ltac:(lia)) as Hd. rewrite Hn, Z.add_0_r in Hd.
  rewrite Hd at 1. rewrite (Z.mul_comm (2 ^ k)), Z.div_add_l by lia.
  rewrite (Z.div_small (2 ^ k - 1)) by lia. lia.
Qed.

(** ** Lemmas on bit lists *)

Lemma length_zbits n z : length (zbits n z) = n.
Proof. unfold zbits. by rewrite length_fmap, length_seq. Qed.

Lemma lookup_zbits n z i :
  zbits n z !! i = if (i <? n)%nat then Some (Z.testbit z (Z.of_nat i)) else None.
Proof.
  unfold zbits. rewrite list_lookup_fmap.
  destruct (Nat.ltb_spec i n).
  - by rewrite lookup_seq_lt.
  - by rewrite lookup_seq_ge.
Qed.

Lemma bits_z_range l : (0 ≤ bits_z l < 2 ^ Z.of_nat (length l))%Z.
Proof.
  induction l as [|b l IH]; [simpl; lia|].
  cbn [bits_z length]. rewrite Nat2Z.inj_succ, Z.pow_succ_r by lia.
  destruct b; simpl; lia.
Qed.

Lemma testbit_bits_z l (i : nat) :
  Z.testbit (bits_z l) (Z.of_nat i) = default false (l !! i).
Proof.
  revert i; induction l as [|b l IH]; intros i; [apply Z.testbit_0_l|].
  cbn [bits_z]. destruct i as [|i]; cbn [lookup list_lookup].
  - rewrite Z.add_comm. destruct b; simpl Z.b2z.
    + apply Z.testbit_odd_0.
    + rewrite Z.add_0_r. apply Z.testbit_even_0.
  - rewrite Nat2Z.inj_succ, Z.add_comm.
    destruct b; simpl Z.b2z.
    + rewrite Z.testbit_odd_succ by lia. apply IH.
    + rewrite Z.add_0_r, Z.testbit_even_succ by lia. apply IH.
Qed.

Lemma bits_z_zbits n z : bits_z (zbits n z) = wrap n z.
Proof.
  apply Z.bits_inj'; intros i Hi. rewrite wrap_testbit by done.
  rewrite <-(Z2Nat.id i) by done. rewrite testbit_bits_z, lookup_zbits.
  destruct (Nat.ltb_spec (Z.to_nat i) n), (Z.ltb_spec (Z.of_nat (Z.to_nat i)) (Z.of_nat n));
    simpl; done || lia.
Qed.

Lemma zbits_bits_z l : zbits (length l) (bits_z l) = l.
Proof.
  apply list_eq; intros i. rewrite lookup_zbits.
  destruct (Nat.ltb_spec i (length l)) as [Hi|Hi].
  - rewrite testbit_bits_z. apply lookup_lt_is_Some in Hi as [b Hb]. by rewrite Hb.
  - symmetry. by apply lookup_ge_None.
Qed.

Lemma zbits_app n m z :
  zbits (n + m) z = zbits n z ++ zbits m (Z.shiftr z (Z.of_nat n)).
Proof.
  apply list_eq; intros i. rewrite lookup_zbits.
  destruct (Nat.ltb_spec i n) as [Hi|Hi].
  - rewrite lookup_app_l, lookup_zbits by (by rewrite length_zbits).
    destruct (Nat.ltb_spec i n), (Nat.ltb_spec i (n + m)); done || lia.
  - rewrite lookup_app_r, lookup_zbits by (by rewrite length_zbits).
    rewrite length_zbits, Z.shiftr_spec by lia.
    destruct (Nat.ltb_spec i (n + m)), (Nat.ltb_spec (i - n) m); try (done || lia).
    do 2 f_equal. lia.
Qed.

Lemma zbits_S n z : zbits (S n) z = zbits n z ++ [Z.testbit z (Z.of_nat n)].
Proof. unfold zbits. by rewrite seq_S, fmap_app. Qed.

(** ** Options as faults *)

(** A failed [assert] or an access outside of an array is [None]. *)
Definition check (b : bool) : option () := if b then Some () else None.

Lemma check_Some b : check b = Some () ↔ b = true.
Proof. destruct b; simpl; split; congruence. Qed.

(** ** Words in memory, least significant byte first *)

Fixpoint le_bytes (n : nat) (z : Z) : list Z :=
  match n with
  | O => []
  | S n => u8[z] :: le_bytes n (z / 256)
  end.

Fixpoint le_z (bytes : list Z) : Z :=
  match bytes with
  | [] => 0
  | b :: bytes => b + 256 * le_z bytes
  end.

Definition is_byte (b : Z) : Prop := (0 ≤ b < 256)%Z.

Lemma length_le_bytes n z : length (le_bytes n z) = n.
Proof. revert z. induction n as [|n IH]; intros z; simpl; by rewrite ?IH. Qed.

Lemma le_bytes_byte n z : Forall is_byte (le_bytes n z).
Proof.
  revert z. induction n as [|n IH]; intros z; simpl; constructor; [|done].
  apply (wrap_range 8).
Qed.

Lemma le_z_le_bytes n z : le_z (le_bytes n z) = wrap (8 * n) z.
Proof.
  revert z. induction n as [|n IH]; intros z.
  { by rewrite Nat.mul_0_r; cbn; unfold wrap; rewrite Z.mod_1_r. }
  cbn [le_bytes le_z]. rewrite IH. unfold wrap.
  replace (Z.of_nat (8 * S n)) with (8 + Z.of_nat (8 * n))%Z by lia.
  rewrite Z.pow_add_r by lia. change (2 ^ Z.of_nat 8)%Z with 256%Z. change (2 ^ 8)%Z with 256%Z.
  rewrite Z.rem_mul_r by lia. done.
Qed.

Lemma le_z_range bytes :
  Forall is_byte bytes → (0 ≤ le_z bytes < 2 ^ Z.of_nat (8 * length bytes))%Z.
Proof.
  induction 1 as [|b bytes Hb _ IH]; [done|]. cbn [le_z length].
  replace (Z.of_nat (8 * S (length bytes))) with (8 + Z.of_nat (8 * length bytes))%Z by lia.
  rewrite Z.pow_add_r by lia. change (2 ^ 8)%Z with 256%Z. unfold is_byte in Hb.
  set (m := (2 ^ Z.of_nat (8 * length bytes))%Z) in *. lia.
Qed.

Lemma le_bytes_le_z bytes : Forall is_byte bytes → le_bytes (length bytes) (le_z bytes) = bytes.
Proof.
  induction 1 as [|b bytes Hb _ IH]; [done|]. cbn [le_z length le_bytes]. unfold is_byte in Hb.
  f_equal.
  - unfold wrap. change (2 ^ Z.of_nat 8)%Z with 256%Z. rewrite Z.mul_comm, Z.mod_add by lia.
    rewrite Z.mod_small; lia.
  - rewrite (Z.mul_comm 256), Z.div_add, Z.div_small by lia. done.
Qed.

Lemma le_z_word (z : Z) : (0 ≤ z < 2 ^ 32)%Z → le_z (le_bytes 4 z) = z.
Proof. intros. rewrite le_z_le_bytes. by apply wrap_small. Qed.

Create Rewrite HintDb edr_len.
#[export] Hint Rewrite length_le_bytes : edr_len.

(** [memcpy] over the bytes at [o]. *)
Definition splice (o : nat) (bytes mem : list Z) : list Z :=
  take o mem ++ bytes ++ drop (o + length bytes) mem.

Lemma length_splice o bytes mem :
  o + length bytes ≤ length mem → length (splice o bytes mem) = length mem.
Proof. intros. unfold splice. rewrite !length_app, length_take, length_drop. lia. Qed.

(** Writing over bytes that were read from the same place. *)
Lemma length_splice_within n o bytes mem :
  length bytes = length (take n (drop o mem)) → length (splice o bytes mem) = length mem.
Proof.
  rewrite length_take, length_drop. intros Hl. unfold splice.
  rewrite !length_app, length_take, length_drop. lia.
Qed.

Lemma take_splice o bytes mem :
  o ≤ length mem → take (o + length bytes) (splice o bytes mem) = take o mem ++ bytes.
Proof.
  intros. unfold splice. rewrite app_assoc, take_app_length'; [done|].
  rewrite length_app, length_take. lia.
Qed.

Lemma take_prefix {A} (l l' : list A) (n k : nat) :
  take k l = take k l' → n ≤ k → take n l = take n l'.
Proof.
  intros Ht Hn. rewrite <-(Nat.min_l n k), <-!take_take, Ht by done. done.
Qed.

Lemma take_of_prefix {A} (l new : list A) (n : nat) :
  take (length new) l = new → n ≤ length new → take n l = take n new.
Proof. intros Hl Hn. apply (take_prefix _ _ _ (length new)); [|done]. by rewrite Hl, firstn_all. Qed.

(** *** Powers of two *)

Definition po2 (a : Z) : Prop := ∃ k, (0 ≤ k)%Z ∧ a = (2 ^ k)%Z.

Lemma po2_pos a : po2 a → (0 < a)%Z.
Proof. intros (k & ? & ->). apply Z.pow_pos_nonneg; lia. Qed.

Lemma align_up_div a n : po2 a → (a | align_up a n)%Z.
Proof.
  intros Ha. pose proof (po2_pos a Ha). destruct Ha as (k & ? & ->).
  apply Z.mod_divide; [lia|]. by apply align_up_mult.
Qed.

Lemma align_up_fix a n : po2 a → (a | n)%Z → align_up a n = n.
Proof.
  intros Ha Hn. pose proof (po2_pos a Ha). destruct Ha as (k & ? & ->).
  apply align_up_id; [done|]. apply Z.mod_divide; [lia|done].
Qed.

Lemma align_up_shift a m n : po2 a → (a | m)%Z → align_up a (m + n) = (m + align_up a n)%Z.
Proof.
  intros Ha [q ->]. pose proof (po2_pos a Ha). destruct Ha as (k & ? & ->).
  rewrite !align_up_spec by done.
  replace (q * 2 ^ k + n + (2 ^ k - 1))%Z with (n + (2 ^ k - 1) + q * 2 ^ k)%Z by lia.
  rewrite Z.div_add by lia. lia.
Qed.

Lemma align_up_bounds a n : po2 a → (n ≤ align_up a n < n + a)%Z.
Proof. intros (k & ? & ->). split; [by apply align_up_ge|by apply align_up_lt]. Qed.

Lemma align_up_one n : align_up 1 n = n.
Proof. apply align_up_fix; [by exists 0%Z|apply Z.divide_1_l]. Qed.
