(* ===== verification/BitStream.v ===== *)
(** * BitStream: bit-granular streams over arrays of unsigned words
    ([src/src/libedr/util/adt/BitStream.hpp]).

    A stream over an array of [T] is its word index, its bit offset in that
    word and the number of bits left; the array itself is passed next to it.
    [wT] is [8 * sizeof(T)].  [None] is a fault: a failed [assert] or an access
    outside of the array. *)
From S2P Require Import Prelude.

Record BitStream := mkBitStream {
  m_storage : nat;
  m_offset : nat;
  m_remaining : nat;
}.

#[export] Instance BitStream_eq_dec : EqDecision BitStream.
Proof. solve_decision. Defined.

Section operations.
Context `{ShiftUB}.

(** The constructor [BitStreamBase(data, num_bits, offset)]. *)
Definition make (wT data num_bits offset : nat) : option BitStream :=
  check (offset <=? num_bits)%nat;;
  Some {| m_storage := data + offset / wT;
          m_offset := offset mod wT;
          m_remaining := num_bits - offset |}.

(** The step over [this_time] bits at the end of both loops. *)
Definition advance (wT : nat) (s : BitStream) (this_time : nat) : BitStream :=
  let offset := (m_offset s + this_time)%nat in
  if (offset =? wT)%nat
  then {| m_storage := m_storage s + 1; m_offset := 0; m_remaining := m_remaining s |}
  else {| m_storage := m_storage s; m_offset := offset; m_remaining := m_remaining s |}.

Fixpoint ReadLoop (fuel wT wU : nat) (mem : list Z) (result : Z)
    (out_offset num_bits : nat) (s : BitStream) : option (Z * BitStream) :=
  match fuel with
  | O => None
  | S fuel =>
      if (num_bits =? 0)%nat then Some (result, s) else
      let left_ahead := (wT - m_offset s)%nat in
      let this_time := Nat.min left_ahead num_bits in
      word ← mem !! m_storage s;
      let in_piece := wrap wT (Z.shiftr word (Z.of_nat (m_offset s))) in
      let in_piece :=
        if (this_time =? wT)%nat then in_piece
        else Z.land in_piece (wrap wT (Z.shiftl 1 (Z.of_nat this_time) - 1)) in
      let out_piece :=
        wrap wU (Z.shiftl (wrap wU in_piece) (Z.of_nat out_offset)) in
      ReadLoop fuel wT wU mem (Z.lor result out_piece) (out_offset + this_time)
        (num_bits - this_time) (advance wT s this_time)
  end.

Definition ReadUnsafe (wT wU : nat) (mem : list Z) (s : BitStream) (num_bits : nat)
    : option (Z * BitStream) :=
  ReadLoop (S num_bits) wT wU mem 0 0 num_bits
    {| m_storage := m_storage s; m_offset := m_offset s;
       m_remaining := m_remaining s - num_bits |}.

Definition Read (wT wU : nat) (mem : list Z) (s : BitStream) (num_bits : nat)
    : option (Z * BitStream) :=
  check (num_bits <=? wU)%nat;;
  ReadUnsafe wT wU mem s (Nat.min num_bits (m_remaining s)).

Definition Skip (wT : nat) (s : BitStream) (num_bits : nat) : nat * BitStream :=
  let num_bits := Nat.min num_bits (m_remaining s) in
  let offset := (m_offset s + num_bits)%nat in
  (num_bits, {| m_storage := m_storage s + offset / wT;
                m_offset := offset mod wT;
                m_remaining := m_remaining s - num_bits |}).

Definition Crop (s : BitStream) (num_bits : nat) : BitStream :=
  {| m_storage := m_storage s; m_offset := m_offset s;
     m_remaining := Nat.min (m_remaining s) num_bits |}.

(** Both halves are rebuilt with the constructor, which subtracts the offset
    from the number of bits it is given. *)
Definition Split (wT : nat) (s : BitStream) (num_bits : nat)
    : option (BitStream * BitStream) :=
  left ← make wT (m_storage s) (m_remaining s) (m_offset s);
  right ← make wT (m_storage s) (m_remaining s) (m_offset s);
  Some (Crop left num_bits, (Skip wT right num_bits).2).

(** [BitStream<const T>(const BitStream<T> &)]. *)
Definition to_const (wT : nat) (s : BitStream) : option BitStream :=
  make wT (m_storage s) (m_remaining s) (m_offset s).

Definition GetNumBits (s : BitStream) : nat := m_remaining s.

Fixpoint WriteLoop (fuel wT wU : nat) (mem : list Z) (value : Z) (num_bits : nat)
    (s : BitStream) : option (list Z * BitStream) :=
  match fuel with
  | O => None
  | S fuel =>
      if (num_bits =? 0)%nat then Some (mem, s) else
      let left_ahead := (wT - m_offset s)%nat in
      let this_time := Nat.min left_ahead num_bits in
      let mask :=
        if (this_time =? wT)%nat then wrap wT (Z.lnot 0)
        else wrap wT (Z.shiftl 1 (Z.of_nat this_time) - 1) in
      let mask := wrap wT (Z.shiftl mask (Z.of_nat (m_offset s))) in
      let piece := wrap wT (Z.shiftl (wrap wT value) (Z.of_nat (m_offset s))) in
      word ← mem !! m_storage s;
      let word' := wrap wT (Z.lor (Z.land word (Z.lnot mask)) (Z.land piece mask)) in
      WriteLoop fuel wT wU (<[m_storage s := word']> mem) (shr wU value this_time)
        (num_bits - this_time) (advance wT s this_time)
  end.

Definition WriteUnsafe (wT wU : nat) (mem : list Z) (s : BitStream) (value : Z)
    (num_bits : nat) : option (list Z * BitStream) :=
  WriteLoop (S num_bits) wT wU mem value num_bits
    {| m_storage := m_storage s; m_offset := m_offset s;
       m_remaining := m_remaining s - num_bits |}.

(** [Write(U value, size_t num_bits)]. *)
Definition Write (wT wU : nat) (mem : list Z) (s : BitStream) (value : Z)
    (num_bits : nat) : option (nat * list Z * BitStream) :=
  check (num_bits <=? wU)%nat;;
  let num_bits := Nat.min num_bits (m_remaining s) in
  '(mem, s) ← WriteUnsafe wT wU mem s value num_bits;
  Some (num_bits, mem, s).

Fixpoint CopyLoop (fuel wT wU : nat) (dst : list Z) (d : BitStream)
    (src : list Z) (s : BitStream) (num_bits : nat)
    : option (list Z * BitStream * BitStream) :=
  match fuel with
  | O => None
  | S fuel =>
      if (num_bits =? 0)%nat then Some (dst, d, s) else
      let wV := Nat.max wT wU in
      let this_time := Nat.min wV num_bits in
      '(vessel, s) ← ReadUnsafe wU wV src s this_time;
      '(dst, d) ← WriteUnsafe wT wV dst d vessel this_time;
      CopyLoop fuel wT wU dst d src s (num_bits - this_time)
  end.

(** [Write(BitStream<U> &src, size_t num_bits)]; the two arrays are distinct
    objects. *)
Definition WriteStream (wT wU : nat) (dst : list Z) (d : BitStream)
    (src : list Z) (s : BitStream) (num_bits : nat)
    : option (nat * list Z * BitStream * BitStream) :=
  let num_bits := Nat.min (Nat.min num_bits (m_remaining d)) (m_remaining s) in
  '(dst, d, s) ← CopyLoop (S num_bits) wT wU dst d src s num_bits;
  Some (num_bits, dst, d, s).
End operations.

(** ** Abstraction: an array of words as a sequence of bits *)

(** The bit [p] of an array of [w]-bit words. *)
Definition bit_at (w : nat) (mem : list Z) (p : nat) : bool :=
  match mem !! (p / w)%nat with
  | Some x => Z.testbit x (Z.of_nat (p mod w))
  | None => false
  end.

(** The absolute bit position of a stream. *)
Definition pos (w : nat) (s : BitStream) : nat := m_storage s * w + m_offset s.

(** The bits a stream has still to deliver. *)
Definition contents (w : nat) (mem : list Z) (s : BitStream) : list bool :=
  (λ i, bit_at w mem (pos w s + i)) <$> seq 0 (m_remaining s).

(** A stream stays inside of its array. *)
Record wf (w : nat) (mem : list Z) (s : BitStream) : Prop := {
  wf_width : 0 < w;
  wf_offset : m_offset s < w;
  wf_bounds : pos w s + m_remaining s ≤ w * length mem;
}.

(** ** Positions and single words *)

Section word_lemmas.
Context (w : nat).
Implicit Types (mem : list Z) (s : BitStream).

Lemma advance_spec s t :
  m_offset s < w → m_offset s + t ≤ w →
  pos w (advance w s t) = pos w s + t
  ∧ m_offset (advance w s t) < w
  ∧ m_remaining (advance w s t) = m_remaining s.
Proof.
  intros. unfold advance, pos. destruct (Nat.eqb_spec (m_offset s + t) w); simpl; lia.
Qed.

Lemma pos_div_mod s j :
  m_offset s + j < w →
  (pos w s + j) / w = m_storage s ∧ (pos w s + j) mod w = m_offset s + j.
Proof.
  intros. unfold pos.
  replace (m_storage s * w + m_offset s + j) with ((m_offset s + j) + m_storage s * w) by lia.
  rewrite Nat.div_add, Nat.Div0.mod_add, Nat.div_small, Nat.mod_small by lia. done.
Qed.

Lemma bit_at_word mem s x j :
  mem !! m_storage s = Some x → m_offset s + j < w →
  bit_at w mem (pos w s + j) = Z.testbit x (Z.of_nat (m_offset s + j)).
Proof.
  intros Hx Hj. unfold bit_at. destruct (pos_div_mod s j Hj) as [-> ->]. by rewrite Hx.
Qed.

Lemma word_in_bounds mem s :
  m_offset s < w → pos w s < w * length mem → is_Some (mem !! m_storage s).
Proof. intros. apply lookup_lt_is_Some. unfold pos in *. nia. Qed.

(** Replacing the word under the stream changes only the bits of that word. *)
Lemma bit_at_insert mem s x y p :
  0 < w → mem !! m_storage s = Some x →
  bit_at w (<[m_storage s := y]> mem) p =
  if (p / w =? m_storage s)%nat then Z.testbit y (Z.of_nat (p mod w)) else bit_at w mem p.
Proof.
  intros Hw Hx. unfold bit_at.
  destruct (Nat.eqb_spec (p / w) (m_storage s)) as [->|Hne].
  - rewrite list_lookup_insert_eq; [done|]. by eapply lookup_lt_Some.
  - by rewrite list_lookup_insert_ne.
Qed.

Lemma length_contents mem s : length (contents w mem s) = m_remaining s.
Proof. unfold contents. by rewrite length_fmap, length_seq. Qed.

Lemma lookup_contents mem s i :
  contents w mem s !! i =
  if (i <? m_remaining s)%nat then Some (bit_at w mem (pos w s + i)) else None.
Proof.
  unfold contents. rewrite list_lookup_fmap.
  destruct (Nat.ltb_spec i (m_remaining s)).
  - by rewrite lookup_seq_lt.
  - by rewrite lookup_seq_ge.
Qed.
End word_lemmas.

(** The low [t] ones that both loops use as a mask. *)
Lemma mask_testbit (w t : nat) (i : Z) :
  t ≤ w → (0 ≤ i)%Z →
  Z.testbit (wrap w (Z.shiftl 1 (Z.of_nat t) - 1)) i = (i <? Z.of_nat t)%Z.
Proof.
  intros Ht Hi. rewrite wrap_testbit by done.
  replace (Z.shiftl 1 (Z.of_nat t) - 1)%Z with (Z.ones (Z.of_nat t))
    by (rewrite Z.shiftl_1_l, Z.ones_equiv; lia).
  rewrite Z.testbit_ones_nonneg by lia.
  destruct (Z.ltb_spec i (Z.of_nat t)), (Z.ltb_spec i (Z.of_nat w)); simpl; done || lia.
Qed.

(** ** Reading *)

Section reading.
Context (wT wU : nat).
Implicit Types (mem : list Z) (s : BitStream).

(** The piece taken from one word. *)
Lemma in_piece_testbit x off t (i : Z) :
  (0 ≤ i)%Z → t ≤ wT - off → off < wT →
  Z.testbit (let p := wrap wT (Z.shiftr x (Z.of_nat off)) in
             if (t =? wT)%nat then p
             else Z.land p (wrap wT (Z.shiftl 1 (Z.of_nat t) - 1))) i
  = ((i <? Z.of_nat t)%Z && Z.testbit x (Z.of_nat off + i))%bool.
Proof.
  intros Hi Ht Hoff. cbv zeta.
  destruct (Nat.eqb_spec t wT) as [->|Hne].
  - rewrite wrap_testbit, Z.shiftr_spec by lia. by rewrite (Z.add_comm i).
  - rewrite Z.land_spec, wrap_testbit, mask_testbit, Z.shiftr_spec by lia.
    rewrite (Z.add_comm i).
    destruct (Z.ltb_spec i (Z.of_nat t)), (Z.ltb_spec i (Z.of_nat wT)); simpl;
      rewrite ?andb_true_r, ?andb_false_r; done || lia.
Qed.

Lemma ReadLoop_spec fuel mem r o n s :
  n < fuel → m_offset s < wT → pos wT s + n ≤ wT * length mem → o + n ≤ wU →
  ∃ r' s', ReadLoop fuel wT wU mem r o n s = Some (r', s')
    ∧ pos wT s' = pos wT s + n ∧ m_offset s' < wT ∧ m_remaining s' = m_remaining s
    ∧ ∀ i : nat, Z.testbit r' (Z.of_nat i) =
        (Z.testbit r (Z.of_nat i)
         || ((o <=? i)%nat && (i <? o + n)%nat && bit_at wT mem (pos wT s + (i - o))))%bool.
Proof.
  revert r o n s. induction fuel as [|fuel IH]; intros r o n s Hf Ho Hb HU; [lia|].
  cbn [ReadLoop]. destruct (Nat.eqb_spec n 0) as [->|Hn].
  { eexists _, _; split_and!; [done|lia|done|done|]. intros i.
    destruct (Nat.leb_spec o i), (Nat.ltb_spec i (o + 0)); simpl;
      rewrite ?orb_false_r; done || lia. }
  destruct (word_in_bounds wT mem s) as [x Hx]; [done|lia|]. rewrite Hx. cbn [mbind option_bind].
  set (t := (wT - m_offset s) `min` n).
  destruct (advance_spec wT s t) as (Hp & Hoff & Hr); [done|lia|].
  edestruct (IH (Z.lor r (wrap wU (Z.shiftl (wrap wU
      (if (t =? wT)%nat then wrap wT (Z.shiftr x (Z.of_nat (m_offset s)))
       else Z.land (wrap wT (Z.shiftr x (Z.of_nat (m_offset s))))
              (wrap wT (Z.shiftl 1 (Z.of_nat t) - 1)))) (Z.of_nat o))))
    (o + t) (n - t) (advance wT s t)) as (r' & s' & -> & Hp' & Ho' & Hr' & Hbits); [lia..|].
  eexists _, _; split_and!; [done|lia|done|congruence|].
  intros i. rewrite Hbits, Z.lor_spec, wrap_testbit by lia.
  rewrite Hp, <-orb_assoc. f_equal.
  destruct (Nat.ltb_spec i o) as [Hio|Hio].
  { rewrite Z.shiftl_spec_low by lia. rewrite andb_false_r.
    destruct (Nat.leb_spec (o + t) i), (Nat.leb_spec o i); simpl; done || lia. }
  rewrite Z.shiftl_spec, wrap_testbit, in_piece_testbit by lia.
  destruct (Nat.ltb_spec i (o + t)) as [Hit|Hit].
  - replace (pos wT s + (i - o)) with (pos wT s + (i - o)) by done.
    rewrite (bit_at_word wT mem s x (i - o)) by (done || lia).
    replace (Z.of_nat (m_offset s) + (Z.of_nat i - Z.of_nat o))%Z
      with (Z.of_nat (m_offset s + (i - o))) by lia.
    destruct (Z.ltb_spec (Z.of_nat i) (Z.of_nat wU)); [|lia].
    destruct (Z.ltb_spec (Z.of_nat i - Z.of_nat o) (Z.of_nat wU)); [|lia].
    destruct (Z.ltb_spec (Z.of_nat i - Z.of_nat o) (Z.of_nat t)); [|lia].
    destruct (Nat.leb_spec (o + t) i); [lia|].
    destruct (Nat.leb_spec o i); [|lia].
    destruct (Nat.ltb_spec i (o + n)); [|lia]. simpl. by rewrite orb_false_r.
  - destruct (Z.ltb_spec (Z.of_nat i - Z.of_nat o) (Z.of_nat t)); [lia|].
    rewrite !andb_false_l, !andb_false_r. simpl.
    destruct (Nat.leb_spec (o + t) i); [|lia].
    destruct (Nat.leb_spec o i); [|lia].
    replace (o + t + (n - t)) with (o + n) by lia.
    by replace (pos wT s + t + (i - (o + t))) with (pos wT s + (i - o)) by lia.
Qed.

Lemma ReadUnsafe_spec mem s n :
  wf wT mem s → n ≤ m_remaining s → n ≤ wU →
  ∃ s', ReadUnsafe wT wU mem s n = Some (bits_z (take n (contents wT mem s)), s')
    ∧ wf wT mem s' ∧ pos wT s' = pos wT s + n
    ∧ contents wT mem s' = drop n (contents wT mem s).
Proof.
  intros [Hw Ho Hb] Hn HU. unfold ReadUnsafe.
  edestruct (ReadLoop_spec (S n) mem 0%Z 0 n
    {| m_storage := m_storage s; m_offset := m_offset s; m_remaining := m_remaining s - n |})
    as (r & s' & -> & Hp & Ho' & Hr & Hbits); [lia|done|cbn in *; unfold pos in *; simpl; lia|lia|].
  change (pos wT {| m_storage := _; m_offset := _; m_remaining := _ |}) with (pos wT s) in Hp, Hbits.
  simpl in Hr. exists s'. split_and!.
  - do 2 f_equal. apply Z.bits_inj'; intros i Hi.
    rewrite <-(Z2Nat.id i) by done. rewrite Hbits, testbit_bits_z, Z.testbit_0_l.
    rewrite lookup_take, lookup_contents. case_decide; simpl.
    + destruct (Nat.ltb_spec (Z.to_nat i) n), (Nat.ltb_spec (Z.to_nat i) (m_remaining s));
        try lia. simpl. do 2 f_equal. lia.
    + destruct (Nat.ltb_spec (Z.to_nat i) n); done || lia.
  - split; [done..|lia].
  - done.
  - apply list_eq; intros i. rewrite lookup_drop, !lookup_contents, Hr, Hp.
    destruct (Nat.ltb_spec i (m_remaining s - n)), (Nat.ltb_spec (n + i) (m_remaining s));
      try (done || lia). do 2 f_equal. lia.
Qed.
End reading.

(** ** Writing *)

Section writing.
Context `{ShiftUB} (wT wU : nat).
Implicit Types (mem : list Z) (s : BitStream).

Lemma write_mask_testbit t off (i : Z) :
  (0 ≤ i)%Z → t ≤ wT →
  Z.testbit (wrap wT (Z.shiftl (if (t =? wT)%nat then wrap wT (Z.lnot 0)
      else wrap wT (Z.shiftl 1 (Z.of_nat t) - 1)) (Z.of_nat off))) i
  = ((i <? Z.of_nat wT)%Z && (Z.of_nat off <=? i)%Z && (i - Z.of_nat off <? Z.of_nat t)%Z)%bool.
Proof.
  intros Hi Ht. rewrite wrap_testbit by done. rewrite <-andb_assoc. f_equal.
  destruct (Z.leb_spec (Z.of_nat off) i).
  - rewrite Z.shiftl_spec by lia. destruct (Nat.eqb_spec t wT) as [->|].
    + rewrite wrap_testbit, Z.lnot_spec, Z.testbit_0_l by lia. simpl. by rewrite andb_true_r.
    + by rewrite mask_testbit by lia.
  - by rewrite Z.shiftl_spec_low by lia.
Qed.

(** The word after one iteration of the loop. *)
Lemma written_word_testbit x value off t (i : nat) :
  i < wT → off + t ≤ wT →
  let mask := wrap wT (Z.shiftl (if (t =? wT)%nat then wrap wT (Z.lnot 0)
      else wrap wT (Z.shiftl 1 (Z.of_nat t) - 1)) (Z.of_nat off)) in
  let piece := wrap wT (Z.shiftl (wrap wT value) (Z.of_nat off)) in
  Z.testbit (wrap wT (Z.lor (Z.land x (Z.lnot mask)) (Z.land piece mask))) (Z.of_nat i)
  = if ((off <=? i)%nat && (i <? off + t)%nat)%bool then Z.testbit value (Z.of_nat (i - off))
    else Z.testbit x (Z.of_nat i).
Proof.
  intros Hi Ht mask piece. rewrite wrap_testbit, Z.lor_spec, !Z.land_spec, Z.lnot_spec by lia.
  unfold mask, piece. rewrite !write_mask_testbit by lia.
  destruct (Z.ltb_spec (Z.of_nat i) (Z.of_nat wT)); [|lia]. simpl.
  destruct (Nat.leb_spec off i), (Z.leb_spec (Z.of_nat off) (Z.of_nat i)); try lia; simpl.
  - destruct (Nat.ltb_spec i (off + t)),
      (Z.ltb_spec (Z.of_nat i - Z.of_nat off) (Z.of_nat t)); try lia; simpl.
    + rewrite andb_false_r, andb_true_r. simpl.
      rewrite wrap_testbit, Z.shiftl_spec, wrap_testbit by lia.
      destruct (Z.ltb_spec (Z.of_nat i) (Z.of_nat wT)); [|lia].
      destruct (Z.ltb_spec (Z.of_nat i - Z.of_nat off) (Z.of_nat wT)); [|lia]. simpl.
      f_equal. lia.
    + by rewrite andb_true_r, andb_false_r, orb_false_r.
  - by rewrite andb_true_r, andb_false_r, orb_false_r.
Qed.

Lemma WriteLoop_spec fuel mem v n s :
  n < fuel → m_offset s < wT → pos wT s + n ≤ wT * length mem → n ≤ wU →
  ∃ mem' s', WriteLoop fuel wT wU mem v n s = Some (mem', s')
    ∧ pos wT s' = pos wT s + n ∧ m_offset s' < wT ∧ m_remaining s' = m_remaining s
    ∧ length mem' = length mem
    ∧ ∀ p, bit_at wT mem' p =
        if ((pos wT s <=? p)%nat && (p <? pos wT s + n)%nat)%bool
        then Z.testbit v (Z.of_nat (p - pos wT s)) else bit_at wT mem p.
Proof.
  revert mem v n s. induction fuel as [|fuel IH]; intros mem v n s Hf Ho Hb HU; [lia|].
  cbn [WriteLoop]. destruct (Nat.eqb_spec n 0) as [->|Hn].
  { eexists _, _; split_and!; [done|lia|done..|]. intros p.
    destruct (Nat.leb_spec (pos wT s) p), (Nat.ltb_spec p (pos wT s + 0)); simpl; done || lia. }
  destruct (word_in_bounds wT mem s) as [x Hx]; [done|lia|]. rewrite Hx. cbn [mbind option_bind].
  set (t := (wT - m_offset s) `min` n).
  destruct (advance_spec wT s t) as (Hp & Hoff & Hr); [done|lia|].
  match goal with |- context [<[m_storage s := ?y]> mem] => set (y' := y) end.
  edestruct (IH (<[m_storage s := y']> mem) (shr wU v t) (n - t) (advance wT s t))
    as (mem' & s' & -> & Hp' & Ho' & Hr' & Hl & Hbits); [lia|done| |lia|].
  { rewrite length_insert. lia. }
  rewrite length_insert in Hl.
  eexists _, _; split_and!; [done|lia|done|congruence|done|].
  intros p. rewrite Hbits, Hp, (bit_at_insert wT mem s x y') by (done || lia).
  destruct (Nat.leb_spec (pos wT s + t) p) as [Hpt|Hpt];
    destruct (Nat.ltb_spec p (pos wT s + t + (n - t))) as [Hpn|Hpn]; simpl.
  - (* bits of the remaining iterations *)
    destruct (Nat.leb_spec (pos wT s) p), (Nat.ltb_spec p (pos wT s + n)); try lia. simpl.
    unfold shr. destruct (Nat.ltb_spec t wU); [|lia].
    rewrite Z.shiftr_spec by lia. f_equal. lia.
  - (* past the written range *)
    destruct (Nat.ltb_spec p (pos wT s + n)); [lia|]. rewrite andb_false_r.
    destruct (Nat.eqb_spec (p / wT) (m_storage s)) as [Hd|]; [|done].
    pose proof (Nat.div_mod_eq p wT). pose proof (Nat.mod_upper_bound p wT ltac:(lia)).
    unfold y'. rewrite written_word_testbit by lia. unfold pos in *.
    destruct (Nat.leb_spec (m_offset s) (p mod wT)), (Nat.ltb_spec (p mod wT) (m_offset s + t));
      simpl; try (unfold bit_at; rewrite Hd, Hx; done). nia.
  - (* bits of this iteration and before it *)
    destruct (Nat.leb_spec (pos wT s) p) as [Hlo|Hlo]; simpl.
    + destruct (Nat.ltb_spec p (pos wT s + n)); [|lia].
      destruct (pos_div_mod wT s (p - pos wT s)) as [Hd Hm]; [lia|].
      replace (pos wT s + (p - pos wT s)) with p in Hd, Hm by lia. rewrite Hd, Hm.
      rewrite Nat.eqb_refl. unfold y'. rewrite written_word_testbit by lia.
      destruct (Nat.leb_spec (m_offset s) (m_offset s + (p - pos wT s))); [|lia].
      destruct (Nat.ltb_spec (m_offset s + (p - pos wT s)) (m_offset s + t)); [|lia].
      simpl. do 2 f_equal. lia.
    + destruct (Nat.eqb_spec (p / wT) (m_storage s)) as [Hd|]; [|done].
      pose proof (Nat.div_mod_eq p wT). pose proof (Nat.mod_upper_bound p wT ltac:(lia)).
      unfold y'. rewrite written_word_testbit by lia. unfold pos in *.
      destruct (Nat.leb_spec (m_offset s) (p mod wT)); simpl; [nia|].
      unfold bit_at. by rewrite Hd, Hx.
  - lia.
Qed.
End writing.

Section write_specs.
Context `{ShiftUB} (wT wU : nat).
Implicit Types (mem : list Z) (s : BitStream).

Lemma WriteUnsafe_spec mem s v n :
  wf wT mem s → n ≤ m_remaining s → n ≤ wU →
  ∃ mem' s', WriteUnsafe wT wU mem s v n = Some (mem', s')
    ∧ wf wT mem' s' ∧ pos wT s' = pos wT s + n ∧ m_remaining s' = m_remaining s - n
    ∧ length mem' = length mem
    ∧ contents wT mem' s = zbits n v ++ drop n (contents wT mem s)
    ∧ ∀ p, p < pos wT s ∨ pos wT s + n ≤ p → bit_at wT mem' p = bit_at wT mem p.
Proof.
  intros [Hw Ho Hb] Hn HU. unfold WriteUnsafe.
  edestruct (WriteLoop_spec wT wU (S n) mem v n
    {| m_storage := m_storage s; m_offset := m_offset s; m_remaining := m_remaining s - n |})
    as (mem' & s' & -> & Hp & Ho' & Hr & Hl & Hbits);
    [lia|done|unfold pos in *; simpl; lia|lia|].
  change (pos wT {| m_storage := _; m_offset := _; m_remaining := _ |}) with (pos wT s) in Hp, Hbits.
  simpl in Hr. exists mem', s'. split_and!; [done| |done|done|done| |].
  - split; [done..|]. rewrite Hl. lia.
  - apply list_eq; intros i. rewrite lookup_contents, Hbits.
    destruct (Nat.ltb_spec i n) as [Hi|Hi].
    + rewrite lookup_app_l, lookup_zbits by (by rewrite length_zbits).
      destruct (Nat.ltb_spec i (m_remaining s)), (Nat.ltb_spec i n),
        (Nat.leb_spec (pos wT s) (pos wT s + i)), (Nat.ltb_spec (pos wT s + i) (pos wT s + n));
        try lia. simpl. do 3 f_equal. lia.
    + rewrite lookup_app_r, length_zbits by (by rewrite length_zbits).
      rewrite lookup_drop, lookup_contents.
      replace (n + (i - n)) with i by lia.
      destruct (Nat.ltb_spec (pos wT s + i) (pos wT s + n)); [lia|]. by rewrite andb_false_r.
  - intros p Hp'. rewrite Hbits.
    destruct (Nat.leb_spec (pos wT s) p), (Nat.ltb_spec p (pos wT s + n)); simpl; done || lia.
Qed.
End write_specs.

(** ** Moving a stream without touching its bits *)

Section moving.
Context (w : nat).
Implicit Types (mem : list Z) (s : BitStream).

Lemma pos_norm b o n :
  0 < w → (b + o / w) * w + o mod w + n = b * w + o + n.
Proof. intros. pose proof (Nat.div_mod_eq o w). nia. Qed.

Lemma Skip_wf mem s n :
  wf w mem s → wf w mem (Skip w s n).2 ∧ pos w (Skip w s n).2 = pos w s + (Skip w s n).1.
Proof.
  intros [Hw Ho Hb]. unfold Skip; simpl.
  set (k := n `min` m_remaining s).
  assert (Hp : pos w {| m_storage := m_storage s + (m_offset s + k) / w;
                        m_offset := (m_offset s + k) mod w;
                        m_remaining := m_remaining s - k |} = pos w s + k).
  { unfold pos; simpl. pose proof (pos_norm (m_storage s) (m_offset s + k) 0 Hw). lia. }
  split; [|done]. split; [done|apply Nat.mod_upper_bound; lia|].
  rewrite Hp. simpl. lia.
Qed.

Lemma Skip_contents mem s n :
  wf w mem s →
  contents w mem (Skip w s n).2 = drop n (contents w mem s).
Proof.
  intros Hwf. destruct (Skip_wf mem s n Hwf) as [_ Hp].
  apply list_eq; intros i. rewrite lookup_drop, !lookup_contents, Hp. unfold Skip; simpl.
  destruct (Nat.ltb_spec i (m_remaining s - n `min` m_remaining s)),
    (Nat.ltb_spec (n + i) (m_remaining s)); try (done || lia).
  do 2 f_equal. lia.
Qed.

Lemma Crop_contents mem s n :
  contents w mem (Crop s n) = take n (contents w mem s).
Proof.
  apply list_eq; intros i. rewrite lookup_take, !lookup_contents. unfold Crop; simpl.
  change (pos w {| m_storage := _; m_offset := _; m_remaining := _ |}) with (pos w s).
  case_decide; destruct (Nat.ltb_spec i (m_remaining s `min` n)),
    (Nat.ltb_spec i (m_remaining s)); done || lia.
Qed.

Lemma make_wf mem data n o s :
  0 < w → make w data n o = Some s → data * w + n ≤ w * length mem →
  wf w mem s ∧ pos w s = data * w + o ∧ m_remaining s = n - o.
Proof.
  intros Hw Hm Hb. unfold make in Hm. destruct (Nat.leb_spec o n); [|done]. simplify_eq/=.
  pose proof (pos_norm data o 0 Hw) as Hp. unfold pos; simpl.
  split_and!; [|lia|done]. split; simpl; [done|apply Nat.mod_upper_bound; lia|].
  unfold pos; simpl. lia.
Qed.
End moving.

(** ** Copying between streams *)

Lemma contents_frame w mem mem' s :
  (∀ p, pos w s ≤ p → bit_at w mem' p = bit_at w mem p) →
  contents w mem' s = contents w mem s.
Proof.
  intros Hf. apply list_eq; intros i. rewrite !lookup_contents. by rewrite Hf by lia.
Qed.

(** The bits behind a stream that has moved from [s] to [s']. *)
Lemma contents_advanced w mem s s' n :
  pos w s' = pos w s + n → m_remaining s' = m_remaining s - n →
  contents w mem s' = drop n (contents w mem s).
Proof.
  intros Hp Hr. apply list_eq; intros i. rewrite lookup_drop, !lookup_contents, Hr, Hp.
  destruct (Nat.ltb_spec i (m_remaining s - n)), (Nat.ltb_spec (n + i) (m_remaining s));
    try (done || lia). do 2 f_equal. lia.
Qed.

Section copying.
Context `{ShiftUB} (wT wU : nat).

Lemma CopyLoop_spec fuel dst d src s n :
  n < fuel → wf wT dst d → wf wU src s → n ≤ m_remaining d → n ≤ m_remaining s →
  ∃ dst' d' s', CopyLoop fuel wT wU dst d src s n = Some (dst', d', s')
    ∧ wf wT dst' d' ∧ wf wU src s' ∧ length dst' = length dst
    ∧ pos wT d' = pos wT d + n ∧ m_remaining d' = m_remaining d - n
    ∧ contents wU src s' = drop n (contents wU src s)
    ∧ (∀ p, bit_at wT dst' p =
         if ((pos wT d <=? p)%nat && (p <? pos wT d + n)%nat)%bool
         then bit_at wU src (pos wU s + (p - pos wT d)) else bit_at wT dst p).
Proof.
  revert dst d s n. induction fuel as [|fuel IH]; intros dst d s n Hf Hd Hs Hn1 Hn2; [lia|].
  cbn [CopyLoop]. destruct (Nat.eqb_spec n 0) as [->|Hn].
  { eexists _, _, _; split_and!; try (done || lia). intros p.
    destruct (Nat.leb_spec (pos wT d) p), (Nat.ltb_spec p (pos wT d + 0)); simpl; done || lia. }
  pose proof (wf_width _ _ _ Hd). set (t := (wT `max` wU) `min` n).
  destruct (ReadUnsafe_spec wU (wT `max` wU) src s t) as (s1 & -> & Hs1 & Hps1 & Hcs1);
    [done|lia|lia|]. cbn [mbind option_bind].
  assert (Hrs1 : m_remaining s1 = m_remaining s - t).
  { rewrite <-(length_contents wU src s1), Hcs1, length_drop, length_contents. done. }
  set (vessel := bits_z (take t (contents wU src s))).
  destruct (WriteUnsafe_spec wT (wT `max` wU) dst d vessel t)
    as (dst1 & d1 & -> & Hd1 & Hpd1 & Hrd1 & Hl1 & Hc1 & Hfr1); [done|lia|lia|].
  cbn [mbind option_bind].
  destruct (IH dst1 d1 s1 (n - t)) as (dst' & d' & s' & -> & ? & ? & Hl & Hp & Hr & Hc & Hb);
    [lia|done|done|lia|lia|].
  eexists _, _, _; split_and!; try (done || lia).
  { rewrite Hc, Hcs1, drop_drop. f_equal. lia. }
  intros p. rewrite Hb, Hpd1.
  destruct (Nat.leb_spec (pos wT d + t) p) as [Hpt|Hpt];
    destruct (Nat.ltb_spec p (pos wT d + t + (n - t))) as [Hpn|Hpn]; simpl; try lia.
  - destruct (Nat.leb_spec (pos wT d) p), (Nat.ltb_spec p (pos wT d + n)); try lia; simpl.
    f_equal. lia.
  - destruct (Nat.ltb_spec p (pos wT d + n)); [lia|]. rewrite andb_false_r.
    apply Hfr1. lia.
  - destruct (Nat.leb_spec (pos wT d) p), (Nat.ltb_spec p (pos wT d + n)); try lia; simpl.
    + assert (Hi : contents wT dst1 d !! (p - pos wT d) = Some (bit_at wT dst1 p)).
      { rewrite lookup_contents. destruct (Nat.ltb_spec (p - pos wT d) (m_remaining d)); [|lia].
        do 2 f_equal. lia. }
      rewrite Hc1, lookup_app_l, lookup_zbits in Hi by (rewrite length_zbits; lia).
      destruct (Nat.ltb_spec (p - pos wT d) t); [|lia]. injection Hi as Hi. rewrite <-Hi.
      unfold vessel. rewrite testbit_bits_z, lookup_take_lt, lookup_contents by lia.
      by destruct (Nat.ltb_spec (p - pos wT d) (m_remaining s)); [|lia].
    + apply Hfr1. lia.
Qed.
End copying.

(** ** Properties *)

Section properties.
Context `{ShiftUB}.

(** C34: [Read] of a well-formed stream never leaves its array and delivers
    the next bits of the stream, least significant first, as many as are
    asked for and left; the stream then holds exactly the bits after them. *)
Theorem Read_delivers_next_bits (wT wU : nat) (mem : list Z) (s : BitStream) (n : nat)
    (Hwf : wf wT mem s) (Hn : n ≤ wU) :
  ∃ s', Read wT wU mem s n = Some (bits_z (take n (contents wT mem s)), s')
    ∧ wf wT mem s' ∧ contents wT mem s' = drop n (contents wT mem s).
Proof.
  unfold Read. destruct (Nat.leb_spec n wU); [|lia]. simpl.
  destruct (ReadUnsafe_spec wT wU mem s (n `min` m_remaining s))
    as (s' & -> & Hwf' & _ & Hc); [done|lia|lia|].
  exists s'. rewrite <-(length_contents wT mem s) in Hc |- *.
  split_and!; [|done|].
  - do 2 f_equal. destruct (Nat.min_spec n (length (contents wT mem s))) as [[? ->]|[? ->]];
      [done|]. by rewrite !take_ge by lia.
  - rewrite Hc. destruct (Nat.min_spec n (length (contents wT mem s))) as [[? ->]|[? ->]];
      [done|]. by rewrite !drop_ge by lia.
Qed.

(** C33: [Write] of a value into a well-formed stream never leaves the array,
    replaces exactly the next [min n remaining] bits by the low bits of the
    value, leaves every other bit of the array alone, returns how many bits
    it wrote and keeps the stream well formed; the shift by the full width of
    the value's type in the last iteration has no effect. *)
Theorem Write_replaces_next_bits (wT wU : nat) (mem : list Z) (s : BitStream) (v : Z) (n : nat)
    (Hwf : wf wT mem s) (Hn : n ≤ wU) :
  let k := n `min` m_remaining s in
  ∃ mem' s', Write wT wU mem s v n = Some (k, mem', s')
    ∧ wf wT mem' s' ∧ length mem' = length mem
    ∧ contents wT mem' s = zbits k v ++ drop k (contents wT mem s)
    ∧ contents wT mem' s' = drop k (contents wT mem s)
    ∧ ∀ p, p < pos wT s ∨ pos wT s + k ≤ p → bit_at wT mem' p = bit_at wT mem p.
Proof.
  intros k. unfold Write. destruct (Nat.leb_spec n wU); [|lia]. cbn [mbind option_bind check].
  destruct (WriteUnsafe_spec wT wU mem s v k)
    as (mem' & s' & Heq & Hwf' & Hp & Hr & Hl & Hc & Hf); [done|lia|lia|].
  unfold k in *. rewrite Heq. cbn [mbind option_bind].
  eexists _, _; split_and!; try done.
  rewrite <-(contents_advanced wT mem s s') by done.
  apply contents_frame. intros p Hp'. apply Hf. lia.
Qed.

(** Copying between two streams over words of any two widths moves the
    next [min n] of what both can hold from the source to the destination,
    bit for bit, and touches nothing else of the destination. *)
Theorem WriteStream_copies_bits (wT wU : nat) (dst : list Z) (d : BitStream)
    (src : list Z) (s : BitStream) (n : nat) (Hd : wf wT dst d) (Hs : wf wU src s) :
  let k := (n `min` m_remaining d) `min` m_remaining s in
  ∃ dst' d' s', WriteStream wT wU dst d src s n = Some (k, dst', d', s')
    ∧ wf wT dst' d' ∧ wf wU src s' ∧ length dst' = length dst
    ∧ contents wT dst' d = take k (contents wU src s) ++ drop k (contents wT dst d)
    ∧ contents wT dst' d' = drop k (contents wT dst d)
    ∧ contents wU src s' = drop k (contents wU src s)
    ∧ ∀ p, p < pos wT d ∨ pos wT d + k ≤ p → bit_at wT dst' p = bit_at wT dst p.
Proof.
  intros k. unfold WriteStream. fold k.
  destruct (CopyLoop_spec wT wU (S k) dst d src s k)
    as (dst' & d' & s' & -> & ? & ? & Hl & Hp & Hr & Hc & Hb); [lia|done|done|lia|lia|].
  cbn [mbind option_bind].
  assert (Hfr : ∀ p, p < pos wT d ∨ pos wT d + k ≤ p → bit_at wT dst' p = bit_at wT dst p).
  { intros p Hp'. rewrite Hb.
    destruct (Nat.leb_spec (pos wT d) p), (Nat.ltb_spec p (pos wT d + k)); simpl; done || lia. }
  eexists _, _, _; split_and!; try done.
  - apply list_eq; intros i. rewrite lookup_contents, Hb.
    assert (Hlt : length (take k (contents wU src s)) = k)
      by (rewrite length_take, length_contents; lia).
    destruct (Nat.ltb_spec i k) as [Hi|Hi].
    + rewrite lookup_app_l, lookup_take_lt, lookup_contents by lia.
      destruct (Nat.ltb_spec i (m_remaining d)), (Nat.ltb_spec i (m_remaining s)),
        (Nat.leb_spec (pos wT d) (pos wT d + i)), (Nat.ltb_spec (pos wT d + i) (pos wT d + k));
        try lia. simpl. do 2 f_equal. lia.
    + rewrite lookup_app_r, Hlt, lookup_drop, lookup_contents by lia.
      replace (k + (i - k)) with i by lia.
      destruct (Nat.ltb_spec (pos wT d + i) (pos wT d + k)); [lia|]. by rewrite andb_false_r.
  - rewrite <-(contents_advanced wT dst d d') by done.
    apply contents_frame. intros p Hp'. apply Hfr. lia.
Qed.

(** What [Write] stores, [Read] from the same place returns: the value
    reduced to the number of bits written. *)
Theorem Write_Read_roundtrip (wT wU : nat) (mem : list Z) (s : BitStream) (v : Z) (n : nat)
    (Hwf : wf wT mem s) (Hn : n ≤ wU) (Hr : n ≤ m_remaining s) :
  ∃ mem' s' s'', Write wT wU mem s v n = Some (n, mem', s')
    ∧ Read wT wU mem' s n = Some (wrap n v, s'')
    ∧ contents wT mem' s'' = contents wT mem' s'.
Proof.
  unfold Write, Read. destruct (Nat.leb_spec n wU); [|lia]. cbn [mbind option_bind check].
  replace (n `min` m_remaining s) with n by lia.
  destruct (WriteUnsafe_spec wT wU mem s v n)
    as (mem' & s' & -> & Hwf' & Hp & Hrem & Hl & Hc & Hf); [done|lia|lia|].
  cbn [mbind option_bind].
  destruct (ReadUnsafe_spec wT wU mem' s n) as (s'' & Hread & _ & Hp'' & Hc''); [|lia|lia|].
  { destruct Hwf. split; [done..|]. lia. }
  exists mem', s', s''; split_and!; [done| |].
  - rewrite Hread, Hc, take_app_length'; [by rewrite bits_z_zbits|by rewrite length_zbits].
  - by rewrite Hc'', (contents_advanced wT mem' s s' n).
Qed.

(** [Split] cuts the stream in two, except that both halves are measured
    from [remaining - offset] bits: a stream that stands inside of a word
    loses as many bits as its offset, one that stands at the start of a word
    loses none. *)
Theorem Split_cuts_stream (wT : nat) (mem : list Z) (s : BitStream) (n : nat)
    (Hwf : wf wT mem s) (Ho : m_offset s ≤ m_remaining s) :
  ∃ left right, Split wT s n = Some (left, right)
    ∧ contents wT mem left = take n (take (m_remaining s - m_offset s) (contents wT mem s))
    ∧ contents wT mem right = drop n (take (m_remaining s - m_offset s) (contents wT mem s)).
Proof.
  unfold Split, make. destruct (Nat.leb_spec (m_offset s) (m_remaining s)); [|lia].
  cbn [mbind option_bind check].
  pose proof Hwf as [Hw Hof Hb].
  rewrite Nat.div_small, Nat.mod_small, Nat.add_0_r by done.
  set (h := {| m_storage := m_storage s; m_offset := m_offset s;
               m_remaining := m_remaining s - m_offset s |}).
  assert (Hwfh : wf wT mem h).
  { split; [done..|]. unfold pos in *; simpl in *. lia. }
  assert (Hch : contents wT mem h = take (m_remaining s - m_offset s) (contents wT mem s)).
  { rewrite <-Crop_contents. unfold Crop, h, contents, pos; simpl. do 2 f_equal. lia. }
  eexists _, _; split_and!; [done| |].
  - by rewrite Crop_contents, Hch.
  - by rewrite (Skip_contents _ _ _ _ Hwfh), Hch.
Qed.
End properties.

(** ** Witnesses *)

(** A shift by the full width that yields a value with every bit set. *)
Definition ub_ones : ShiftUB := λ _ _, (-1)%Z.

(** Two bytes, read from the third bit on. *)
Definition demo_mem : list Z := [0xA5; 0x3C]%Z.
Definition demo_stream : BitStream :=
  {| m_storage := 0; m_offset := 3; m_remaining := 13 |}.

Lemma demo_wf : wf 8 demo_mem demo_stream.
Proof. split; vm_compute; lia. Qed.

Lemma Read_delivers_next_bits_witness :
  contents 8 demo_mem demo_stream =
    [false; false; true; false; true; false; false; true; true; true; true; false; false]
  ∧ ∃ s', Read 8 32 demo_mem demo_stream 7 = Some (bits_z (take 7 (contents 8 demo_mem demo_stream)), s')
      ∧ wf 8 demo_mem s' ∧ contents 8 demo_mem s' = drop 7 (contents 8 demo_mem demo_stream).
Proof.
  split; [reflexivity|].
  apply (Read_delivers_next_bits 8 32 demo_mem demo_stream 7); [apply demo_wf|lia].
Defined.

Lemma Write_replaces_next_bits_witness :
  ∃ mem' s', @Write ub_ones 8 8 demo_mem demo_stream 0xFF 8 = Some (8, mem', s')
    ∧ wf 8 mem' s' ∧ length mem' = 2
    ∧ contents 8 mem' demo_stream = zbits 8 0xFF ++ drop 8 (contents 8 demo_mem demo_stream)
    ∧ contents 8 mem' s' = drop 8 (contents 8 demo_mem demo_stream)
    ∧ ∀ p, p < 3 ∨ 3 + 8 ≤ p → bit_at 8 mem' p = bit_at 8 demo_mem p.
Proof.
  apply (@Write_replaces_next_bits ub_ones 8 8 demo_mem demo_stream 0xFF 8);
    [apply demo_wf|lia].
Defined.

Lemma WriteStream_copies_bits_witness :
  ∃ dst' d' s',
    @WriteStream ub_ones 32 8 [0; 0]%Z {| m_storage := 0; m_offset := 30; m_remaining := 34 |}
      demo_mem demo_stream 9 = Some (9, dst', d', s')
    ∧ wf 32 dst' d' ∧ wf 8 demo_mem s' ∧ length dst' = 2
    ∧ contents 32 dst' {| m_storage := 0; m_offset := 30; m_remaining := 34 |} =
        take 9 (contents 8 demo_mem demo_stream)
        ++ drop 9 (contents 32 [0; 0]%Z {| m_storage := 0; m_offset := 30; m_remaining := 34 |})
    ∧ contents 32 dst' d' =
        drop 9 (contents 32 [0; 0]%Z {| m_storage := 0; m_offset := 30; m_remaining := 34 |})
    ∧ contents 8 demo_mem s' = drop 9 (contents 8 demo_mem demo_stream)
    ∧ ∀ p, p < 30 ∨ 30 + 9 ≤ p → bit_at 32 dst' p = bit_at 32 [0; 0]%Z p.
Proof.
  apply (@WriteStream_copies_bits ub_ones 32 8 [0; 0]%Z
    {| m_storage := 0; m_offset := 30; m_remaining := 34 |} demo_mem demo_stream 9).
  - split; vm_compute; lia.
  - apply demo_wf.
Defined.

Lemma Write_Read_roundtrip_witness :
  ∃ mem' s' s'', @Write ub_ones 8 16 demo_mem demo_stream 0x1234 10 = Some (10, mem', s')
    ∧ Read 8 16 mem' demo_stream 10 = Some (0x234%Z, s'')
    ∧ contents 8 mem' s'' = contents 8 mem' s'.
Proof.
  apply (@Write_Read_roundtrip ub_ones 8 16 demo_mem demo_stream 0x1234 10);
    [apply demo_wf|lia|vm_compute; lia].
Defined.

Lemma Split_cuts_stream_witness :
  ∃ left right, Split 8 demo_stream 4 = Some (left, right)
    ∧ contents 8 demo_mem left = take 4 (take 10 (contents 8 demo_mem demo_stream))
    ∧ contents 8 demo_mem right = drop 4 (take 10 (contents 8 demo_mem demo_stream)).
Proof.
  apply (Split_cuts_stream 8 demo_mem demo_stream 4); [apply demo_wf|vm_compute; lia].
Defined.
