(* ===== verification/LatencyCalibrator.v ===== *)
(** * LatencyCalibrator: search for the lowest sufficient latency
    ([src/src/libedr/util/miscellaneous/LatencyCalibrator.hpp]).

    The three counters are [uint32_t]; every operation wraps. *)
From S2P Require Import Prelude.
Local Open Scope Z_scope.

Record LatencyCalibrator := mkLatencyCalibrator {
  m_min_latency : Z;
  m_max_latency : Z;
  m_current_latency : Z;
}.

Definition make_calibrator (min_latency max_latency : Z) : LatencyCalibrator :=
  {| m_min_latency := Z.min min_latency max_latency;
     m_max_latency := Z.max min_latency max_latency;
     m_current_latency := min_latency |}.

Definition BumpMin (c : LatencyCalibrator) (min_min : Z) : LatencyCalibrator :=
  {| m_min_latency := Z.max min_min (m_min_latency c);
     m_current_latency := Z.max min_min (m_current_latency c);
     m_max_latency := Z.max min_min (m_max_latency c) |}.

Definition TooLow (c : LatencyCalibrator) : LatencyCalibrator :=
  let min' := u32[m_current_latency c + 1] in
  let room := u32[m_max_latency c - m_current_latency c] in
  {| m_min_latency := min';
     m_max_latency := m_max_latency c;
     m_current_latency :=
       if room <=? m_current_latency c then m_max_latency c
       else u32[u32[m_current_latency c * 2] + 1] |}.

Definition Enough (c : LatencyCalibrator) : LatencyCalibrator :=
  let step := u32[u32[m_current_latency c - m_min_latency c] + 1] / 2 in
  {| m_min_latency := m_min_latency c;
     m_max_latency := m_max_latency c;
     m_current_latency := u32[m_current_latency c - step] |}.

Definition Get (c : LatencyCalibrator) : Z := m_current_latency c.

Definition IsMax (c : LatencyCalibrator) : bool :=
  m_current_latency c =? m_max_latency c.

(** ** Invariant *)

Record inv (c : LatencyCalibrator) : Prop := {
  inv_min : 0 ≤ m_min_latency c;
  inv_lo : m_min_latency c ≤ m_current_latency c;
  inv_hi : m_current_latency c ≤ m_max_latency c;
  inv_max : m_max_latency c < 2 ^ 32;
}.

(** One round of a client whose target needs a latency of [need]: an attempt
    that is too fast is answered with [TooLow], any other with [Enough]. *)
Definition round (need : Z) (c : LatencyCalibrator) : LatencyCalibrator :=
  if m_current_latency c <? need then TooLow c else Enough c.

Ltac u32_small :=
  repeat match goal with
  | |- context [wrap 32 ?x] => rewrite (wrap_small 32 x) by (simpl; lia)
  end.

Lemma make_calibrator_inv a b :
  0 ≤ a < 2 ^ 32 → 0 ≤ b < 2 ^ 32 → inv (make_calibrator a b).
Proof. intros. split; simpl; lia. Qed.

Lemma TooLow_spec c :
  inv c → IsMax c = false →
  inv (TooLow c) ∧ m_max_latency (TooLow c) = m_max_latency c
  ∧ m_min_latency (TooLow c) = m_current_latency c + 1
  ∧ m_current_latency (TooLow c) = Z.min (m_max_latency c) (2 * m_current_latency c + 1).
Proof.
  intros [H0 H1 H2 H3] Hm. unfold IsMax in Hm. bool_to_prop.
  unfold TooLow; simpl. rewrite (wrap_small 32 (_ + 1)), (wrap_small 32 (_ - _)) by (simpl; lia).
  destruct (Z.leb_spec (m_max_latency c - m_current_latency c) (m_current_latency c));
    u32_small; (split_and!; [split; simpl; lia|lia|lia|lia]).
Qed.

Lemma Enough_spec c :
  inv c → m_max_latency c < 2 ^ 32 - 1 →
  inv (Enough c) ∧ m_max_latency (Enough c) = m_max_latency c
  ∧ m_min_latency (Enough c) = m_min_latency c
  ∧ m_current_latency (Enough c) =
      m_current_latency c - (m_current_latency c - m_min_latency c + 1) / 2.
Proof.
  intros [H0 H1 H2 H3] Hm. unfold Enough; simpl.
  rewrite (wrap_small 32 (m_current_latency c - m_min_latency c)) by (simpl; lia).
  rewrite (wrap_small 32 (_ + 1)) by (simpl; lia).
  pose proof (Z.div_mod (m_current_latency c - m_min_latency c + 1) 2 ltac:(lia)).
  pose proof (Z.mod_pos_bound (m_current_latency c - m_min_latency c + 1) 2 ltac:(lia)).
  u32_small. split_and!; [split; simpl; lia|lia|lia|lia].
Qed.

(** Every operation keeps minimum, current and maximum latency ordered and
    in range, as long as [TooLow] is not called at the maximum (its caller
    tests [IsMax] first). *)
Theorem calibrator_invariant (c : LatencyCalibrator) (bump : Z)
    (Hinv : inv c) (Hbump : 0 ≤ bump < 2 ^ 32) :
  inv (BumpMin c bump)
  ∧ (IsMax c = false → inv (TooLow c))
  ∧ (m_max_latency c < 2 ^ 32 - 1 → inv (Enough c))
  ∧ bump ≤ Get (BumpMin c bump).
Proof.
  split_and!.
  - destruct Hinv. split; simpl; lia.
  - intros. by apply TooLow_spec.
  - intros. by apply Enough_spec.
  - unfold Get; simpl. lia.
Qed.

(** The search is over. *)
Record settled (need : Z) (c : LatencyCalibrator) : Prop := {
  settled_inv : inv c;
  settled_max : m_max_latency c < 2 ^ 32 - 1;
  settled_min : m_min_latency c = need;
  settled_current : m_current_latency c = need;
}.

Lemma round_settled need c : settled need c → settled need (round need c).
Proof.
  intros [Hi Hm Hmin Hcur]. unfold round. destruct (Z.ltb_spec (m_current_latency c) need); [lia|].
  destruct (Enough_spec c Hi Hm) as (? & He1 & He2 & He3).
  split; [done|lia|lia|]. rewrite He3, Hcur, Hmin.
  replace ((need - need + 1) / 2) with 0 by (rewrite Z.sub_diag; reflexivity). lia.
Qed.

Lemma iter_settled need c k : settled need c → settled need (Nat.iter k (round need) c).
Proof. intros. induction k; [done|]. by apply round_settled. Qed.

(** A round either raises the minimum, or lowers the current latency with the
    minimum unchanged, or has nothing left to do. *)
Lemma round_progress need c :
  inv c → m_max_latency c < 2 ^ 32 - 1 → m_min_latency c ≤ need ≤ m_max_latency c →
  settled need c
  ∨ (inv (round need c) ∧ m_max_latency (round need c) = m_max_latency c
     ∧ m_min_latency (round need c) ≤ need
     ∧ (m_min_latency c < m_min_latency (round need c)
        ∨ m_min_latency (round need c) = m_min_latency c
          ∧ m_current_latency (round need c) < m_current_latency c)).
Proof.
  intros Hinv Hmax Hneed. pose proof Hinv as [H0 H1 H2 H3]. unfold round.
  destruct (Z.ltb_spec (m_current_latency c) need) as [Hlow|Hlow].
  - right. destruct (TooLow_spec c Hinv) as (Hi & Hm & Hmn & Hcr).
    { unfold IsMax. apply Z.eqb_neq. lia. }
    split_and!; [done|lia|lia|left; lia].
  - destruct (decide (m_current_latency c = m_min_latency c)) as [He|He].
    { left. split; [done|lia|lia|lia]. }
    right. destruct (Enough_spec c Hinv Hmax) as (Hi & Hm & Hmn & Hcr).
    pose proof (Z.div_mod (m_current_latency c - m_min_latency c + 1) 2 ltac:(lia)).
    pose proof (Z.mod_pos_bound (m_current_latency c - m_min_latency c + 1) 2 ltac:(lia)).
    split_and!; [done|lia|lia|right; lia].
Qed.

Lemma rounds_settle need c :
  inv c → m_max_latency c < 2 ^ 32 - 1 → m_min_latency c ≤ need ≤ m_max_latency c →
  ∃ n, settled need (Nat.iter n (round need) c).
Proof.
  remember (Z.to_nat (need - m_min_latency c)) as a eqn:Ha. revert c Ha.
  induction (lt_wf a) as [a _ IHa]; intros c Ha.
  remember (Z.to_nat (m_current_latency c)) as b eqn:Hb. revert c Ha Hb.
  induction (lt_wf b) as [b _ IHb]; intros c Ha Hb Hinv Hmax Hneed.
  destruct (round_progress need c Hinv Hmax Hneed) as [Hs|(Hi & Hm & Hmn & Hdec)].
  { by exists 0%nat. }
  pose proof Hinv as [H0 H1 H2 H3].
  destruct Hdec as [Hlt|[Heq Hlt]].
  - destruct (IHa (Z.to_nat (need - m_min_latency (round need c))) ltac:(lia)
      (round need c) eq_refl Hi ltac:(lia) ltac:(lia)) as [n Hn].
    exists (S n). by rewrite Nat.iter_succ_r.
  - pose proof (inv_lo _ Hi). pose proof (inv_min _ Hi).
    destruct (IHb (Z.to_nat (m_current_latency (round need c))) ltac:(lia)
      (round need c) ltac:(lia) eq_refl Hi ltac:(lia) ltac:(lia)) as [n Hn].
    exists (S n). by rewrite Nat.iter_succ_r.
Qed.

(** C40: against a target that needs a fixed latency within the bounds, the
    calibration converges: some number of rounds brings the current latency
    exactly to the need, and every further round leaves it there.  The highest
    latency is below the largest number that the counters hold: the distance of
    the bounds plus one, which [Enough] halves, must not wrap. *)
Theorem calibration_converges (need : Z) (c : LatencyCalibrator)
    (Hinv : inv c) (Hmax : m_max_latency c < 2 ^ 32 - 1)
    (Hneed : m_min_latency c ≤ need ≤ m_max_latency c) :
  ∃ n, ∀ k, Get (Nat.iter (k + n) (round need) c) = need.
Proof.
  destruct (rounds_settle need c Hinv Hmax Hneed) as [n Hn].
  exists n. intros k. rewrite Nat.iter_add. by apply settled_current, iter_settled.
Qed.

Lemma calibrator_invariant_witness :
  inv (BumpMin (make_calibrator 0 1000) 6)
  ∧ (IsMax (make_calibrator 0 1000) = false → inv (TooLow (make_calibrator 0 1000)))
  ∧ (1000 < 2 ^ 32 - 1 → inv (Enough (make_calibrator 0 1000)))
  ∧ 6 ≤ Get (BumpMin (make_calibrator 0 1000) 6).
Proof.
  apply (calibrator_invariant (make_calibrator 0 1000) 6);
    [apply make_calibrator_inv; lia|lia].
Defined.

Lemma calibration_converges_witness :
  ∃ n, ∀ k, Get (Nat.iter (k + n) (round 11) (make_calibrator 0 1000)) = 11.
Proof.
  apply (calibration_converges 11 (make_calibrator 0 1000));
    [apply make_calibrator_inv; lia|reflexivity|vm_compute; split; discriminate].
Defined.
