(* ===== verification/ResolutionQueue.v ===== *)
(** * ResolutionQueue: the intrusive queue of scheduled and started items
    ([src/src/libedr/util/asynchronicity/ResolutionQueue.hpp]).

    Items live in the frames of the coroutines that wait for them, so the queue
    only links them.  The store maps the address of every live item to its
    [m_next] field; dereferencing an address that is not in the store is a
    fault ([None]).  The payload of an item is irrelevant to the queue and is
    identified with the address.  When a resolved item's coroutine runs to its
    end the item leaves the store: [free_on_resolve] says whether it does. *)
From S2P Require Import Prelude.

Abbreviation addr := nat.
Abbreviation store := (gmap addr (option addr)).

Record ResolutionQueue := mkQueue {
  m_scheduled_head : option addr;
  m_scheduled_last : option addr;
  m_in_progress_head : option addr;
  m_in_progress_last : option addr;
}.

Definition empty_queue : ResolutionQueue := mkQueue None None None None.

(** [p->m_next = v], with [p] possibly null or dangling. *)
Definition set_next (h : store) (p : option addr) (v : option addr) : option store :=
  a ← p;
  _ ← h !! a;
  Some (<[a := v]> h).

Definition Enqueue (h : store) (q : ResolutionQueue) (item : addr)
    : option (store * ResolutionQueue) :=
  match m_scheduled_head q with
  | None =>
      Some (h, mkQueue (Some item) (Some item) (m_in_progress_head q) (m_in_progress_last q))
  | Some _ =>
      h ← set_next h (m_scheduled_last q) (Some item);
      Some (h, mkQueue (m_scheduled_head q) (Some item)
                 (m_in_progress_head q) (m_in_progress_last q))
  end.

Definition NoScheduled (q : ResolutionQueue) : bool :=
  bool_decide (m_scheduled_head q = None).

Definition NoInProgress (q : ResolutionQueue) : bool :=
  bool_decide (m_in_progress_head q = None).

Definition StartNextScheduled (h : store) (q : ResolutionQueue)
    : option (addr * store * ResolutionQueue) :=
  item ← m_scheduled_head q;
  next ← h !! item;
  match m_in_progress_head q with
  | None =>
      Some (item, h, mkQueue next (m_scheduled_last q) (Some item) (Some item))
  | Some _ =>
      h ← set_next h (m_in_progress_last q) (Some item);
      Some (item, h, mkQueue next (m_scheduled_last q) (m_in_progress_head q) (Some item))
  end.

Definition GetNextScheduled (q : ResolutionQueue) : option addr := m_scheduled_head q.

Definition GetCurrentInProgress (q : ResolutionQueue) : option addr := m_in_progress_head q.

Definition PrepareToResolve (h : store) (q : ResolutionQueue)
    : option (addr * ResolutionQueue) :=
  item ← m_in_progress_head q;
  next ← h !! item;
  Some (item, mkQueue (m_scheduled_head q) (m_scheduled_last q) next (m_in_progress_last q)).

(** ** Clients *)

(** What a driver does with its queue: a coroutine creates an item and
    enqueues it, a generator starts the next scheduled item, another resolves
    the current one, whose coroutine then runs to its end. *)
Inductive op :=
| OpEnqueue (item : addr)
| OpStart
| OpResolve.

#[export] Instance op_eq_dec : EqDecision op.
Proof. solve_decision. Defined.

(** One operation: the item it hands out, the new store and queue. *)
Definition exec (free_on_resolve : bool) (h : store) (q : ResolutionQueue) (o : op)
    : option (option addr * store * ResolutionQueue) :=
  match o with
  | OpEnqueue item =>
      '(h, q) ← Enqueue (<[item := None]> h) q item;
      Some (None, h, q)
  | OpStart =>
      '(item, h, q) ← StartNextScheduled h q;
      Some (Some item, h, q)
  | OpResolve =>
      '(item, q) ← PrepareToResolve h q;
      Some (Some item, if free_on_resolve then delete item h else h, q)
  end.

Fixpoint exec_all (free_on_resolve : bool) (h : store) (q : ResolutionQueue) (ops : list op)
    : option (list (option addr) * store * ResolutionQueue) :=
  match ops with
  | [] => Some ([], h, q)
  | o :: ops =>
      '(out, h, q) ← exec free_on_resolve h q o;
      '(outs, h, q) ← exec_all free_on_resolve h q ops;
      Some (out :: outs, h, q)
  end.

(** ** Specification: two first-in first-out lists *)

Record spec := mkSpec { scheduled : list addr; in_progress : list addr }.

Definition spec_exec (s : spec) (o : op) : option (option addr * spec) :=
  match o with
  | OpEnqueue item => Some (None, mkSpec (scheduled s ++ [item]) (in_progress s))
  | OpStart =>
      match scheduled s with
      | [] => None
      | x :: rest => Some (Some x, mkSpec rest (in_progress s ++ [x]))
      end
  | OpResolve =>
      match in_progress s with
      | [] => None
      | x :: rest => Some (Some x, mkSpec (scheduled s) rest)
      end
  end.

Fixpoint spec_exec_all (s : spec) (ops : list op) : option (list (option addr) * spec) :=
  match ops with
  | [] => Some ([], s)
  | o :: ops =>
      '(out, s) ← spec_exec s o;
      '(outs, s) ← spec_exec_all s ops;
      Some (out :: outs, s)
  end.

(** Whether an operation may be issued: items are fresh, nothing is taken from
    an empty list and, if resolved items are freed, the last started item is
    not resolved while others still wait to be started. *)
Definition legal (free_on_resolve : bool) (seen : list addr) (s : spec) (o : op) : bool :=
  match o with
  | OpEnqueue item => bool_decide (item ∉ seen)
  | OpStart => bool_decide (scheduled s ≠ [])
  | OpResolve =>
      bool_decide (in_progress s ≠ [])
      && (negb free_on_resolve
          || bool_decide (scheduled s = [])
          || (2 <=? length (in_progress s))%nat)
  end.

Definition created (o : op) : list addr :=
  match o with OpEnqueue item => [item] | _ => [] end.

Fixpoint legal_all (free_on_resolve : bool) (seen : list addr) (s : spec) (ops : list op) : bool :=
  match ops with
  | [] => true
  | o :: ops =>
      legal free_on_resolve seen s o
      && match spec_exec s o with
         | Some (_, s') => legal_all free_on_resolve (created o ++ seen) s' ops
         | None => false
         end
  end.

(** ** Representation *)

(** The items of [l] are live and linked in this order, the last one to [t]. *)
Fixpoint chain (h : store) (l : list addr) (t : option addr) : Prop :=
  match l with
  | [] => True
  | x :: l' => h !! x = Some (match l' with [] => t | y :: _ => Some y end) ∧ chain h l' t
  end.

(** The queue holds [scheduled s] and [in_progress s].  When everything that
    was started is resolved the in-progress head may be left pointing to the
    first scheduled item; the last pointer is then some resolved item. *)
Record repr (free_on_resolve : bool) (seen : list addr) (h : store)
    (q : ResolutionQueue) (s : spec) : Prop := {
  repr_seen : ∀ x, x ∈ dom h → x ∈ seen;
  repr_nodup : NoDup (in_progress s ++ scheduled s);
  repr_sched : chain h (scheduled s) None;
  repr_sched_head : m_scheduled_head q = head (scheduled s);
  repr_sched_last : scheduled s ≠ [] → m_scheduled_last q = last (scheduled s);
  repr_progress : in_progress s ≠ [] →
    m_in_progress_head q = head (in_progress s)
    ∧ m_in_progress_last q = last (in_progress s)
    ∧ ∃ t, chain h (in_progress s) t ∧ (t = None ∨ t = head (scheduled s));
  repr_idle : in_progress s = [] →
    m_in_progress_head q = None
    ∨ free_on_resolve = false ∧ scheduled s ≠ []
      ∧ m_in_progress_head q = head (scheduled s)
      ∧ ∃ z, m_in_progress_last q = Some z ∧ z ∈ dom h ∧ z ∉ scheduled s;
}.

(** ** Chains *)

Lemma chain_insert h l t x v : x ∉ l → chain h l t → chain (<[x := v]> h) l t.
Proof.
  induction l as [|y l IH]; [done|]. intros Hx [Hy Hl]. apply not_elem_of_cons in Hx as [??].
  split; [by rewrite lookup_insert_ne|]. by apply IH.
Qed.

Lemma chain_delete h l t x : x ∉ l → chain h l t → chain (delete x h) l t.
Proof.
  induction l as [|y l IH]; [done|]. intros Hx [Hy Hl]. apply not_elem_of_cons in Hx as [??].
  split; [by rewrite lookup_delete_ne|]. by apply IH.
Qed.

Lemma chain_dom h l t x : chain h l t → x ∈ l → x ∈ dom h.
Proof.
  induction l as [|y l IH]; intros Hc Hx; [by apply elem_of_nil in Hx|].
  destruct Hc as [Hy Hl]. apply elem_of_cons in Hx as [->|Hx]; [|by apply IH].
  apply elem_of_dom. eauto.
Qed.

(** Linking the last item of a chain to a live item extends the chain. *)
Lemma chain_snoc h l t z x t' :
  NoDup (l ++ [x]) → chain h l t → last l = Some z → h !! x = Some t' →
  chain (<[z := Some x]> h) (l ++ [x]) t'.
Proof.
  intros Hnd Hc Hz Hx. apply last_Some in Hz as [l0 ->].
  rewrite <-app_assoc in Hnd |- *. simpl in Hnd |- *.
  induction l0 as [|y l0 IH]; cbn [app chain] in *.
  - rewrite lookup_insert_eq. split; [done|]. split; [|done].
    apply NoDup_cons in Hnd as [Hnd _]. rewrite lookup_insert_ne; [done|]. set_solver.
  - apply NoDup_cons in Hnd as [Hy Hnd]. destruct Hc as [Hy' Hc]. split.
    + rewrite lookup_insert_ne by set_solver. rewrite Hy'. by destruct l0.
    + by apply IH.
Qed.

Lemma chain_next h l t x y : chain h (x :: l) t → head l = Some y → h !! x = Some (Some y).
Proof. destruct l; simpl; intros [? _] [= ->]. done. Qed.

(** ** Refinement of the single operations *)

Section refinement.
Context (f : bool).
Implicit Types (h : store) (q : ResolutionQueue) (s : spec) (seen : list addr).

Lemma enqueue_refines seen h q s x :
  repr f seen h q s → x ∉ seen →
  ∃ h' q', exec f h q (OpEnqueue x) = Some (None, h', q')
    ∧ repr f (x :: seen) h' q' (mkSpec (scheduled s ++ [x]) (in_progress s)).
Proof.
  intros [Hseen Hnd Hs Hsh Hsl Hp Hi] Hx.
  assert (Hxd : x ∉ dom h) by (intros ?; by apply Hx, Hseen).
  assert (HxS : x ∉ scheduled s) by (intros ?; by eapply Hxd, chain_dom).
  assert (HxP : x ∉ in_progress s).
  { intros HP. destruct Hp as (_ & _ & t & Ht & _); [intros He; rewrite He in HP; by apply elem_of_nil in HP|].
    by eapply Hxd, chain_dom. }
  assert (Hnd' : NoDup (in_progress s ++ scheduled s ++ [x])).
  { rewrite app_assoc. apply NoDup_app. split_and!; [done|set_solver|apply NoDup_singleton]. }
  cbn [exec]. unfold Enqueue. rewrite Hsh.
  destruct (scheduled s) as [|y S0] eqn:HS; cbn [head].
  - eexists _, _; split; [done|]. split; cbn [scheduled in_progress]; try done.
    + intros z. rewrite dom_insert. set_solver.
    + cbn. by rewrite lookup_insert_eq.
    + intros HP. destruct (Hp HP) as (? & ? & t & Ht & [->| ->]); simpl;
        (split_and!; [done..|]); exists None; (split; [by apply chain_insert|by left]).
    + intros HP. left. destruct (Hi HP) as [?|(_ & ? & _)]; done.
  - assert (Hlast : ∃ z, m_scheduled_last q = Some z ∧ last (y :: S0) = Some z).
    { rewrite Hsl by done. destruct (last (y :: S0)) eqn:E; [by eexists|].
      by apply last_None in E. }
    destruct Hlast as (z & Hz & Hz'). rewrite Hz. unfold set_next. cbn [mbind option_bind].
    assert (Hzin : z ∈ y :: S0) by (apply last_Some in Hz' as [? ->]; set_solver).
    assert (Hzd : z ∈ dom h) by (by eapply chain_dom).
    rewrite lookup_insert_ne by set_solver. apply elem_of_dom in Hzd as [vz Hvz]. rewrite Hvz.
    cbn [mbind option_bind]. eexists _, _; split; [done|].
    split; cbn [scheduled in_progress m_scheduled_head m_scheduled_last
                m_in_progress_head m_in_progress_last]; try done.
    + intros a. rewrite !dom_insert.
      assert (z ∈ dom h) by (apply elem_of_dom; eauto). set_solver.
    + eapply chain_snoc; [|by apply chain_insert|done|by rewrite lookup_insert_eq].
      apply NoDup_app in Hnd' as (_ & _ & Hnd'). done.
    + intros _. change (y :: S0 ++ [x]) with ((y :: S0) ++ [x]). by rewrite last_snoc.
    + intros HP. destruct (Hp HP) as (? & ? & t & Ht & Htt). split_and!; [done..|].
      exists t. split; [|done]. apply chain_insert; [|by apply chain_insert].
      intros Hin. apply NoDup_app in Hnd as (_ & Hdisj & _). set_solver.
    + intros HP. destruct (Hi HP) as [?|(-> & _ & Hh & a & Ha & Had & HaS)]; [by left|].
      right. split_and!; [done..|]. exists a. rewrite !dom_insert.
      split_and!; [done|set_solver|]. assert (a ≠ x) by set_solver. set_solver.
Qed.

Lemma start_refines seen h q s x rest :
  repr f seen h q s → scheduled s = x :: rest →
  ∃ h' q', exec f h q OpStart = Some (Some x, h', q')
    ∧ repr f seen h' q' (mkSpec rest (in_progress s ++ [x])).
Proof.
  intros [Hseen Hnd Hs Hsh Hsl Hp Hi] HS. rewrite HS in *.
  assert (HxP : x ∉ in_progress s).
  { apply NoDup_app in Hnd as (_ & Hdisj & _). intros Hin. apply (Hdisj _ Hin). set_solver. }
  assert (HxR : x ∉ rest).
  { apply NoDup_app in Hnd as (_ & _ & Hnd). by apply NoDup_cons in Hnd as [? _]. }
  assert (Hnd' : NoDup ((in_progress s ++ [x]) ++ rest)) by (by rewrite <-app_assoc).
  destruct Hs as [Hx Hrest]. cbn [exec]. unfold StartNextScheduled. rewrite Hsh.
  cbn [head mbind option_bind]. rewrite Hx. cbn [mbind option_bind].
  assert (Hxn : ∃ t, h !! x = Some t ∧ (t = head rest)) by (destruct rest; eauto).
  assert (Hlast : rest ≠ [] → m_scheduled_last q = last rest).
  { intros Hr. rewrite Hsl by done. destruct rest; [done|]. by rewrite last_cons_cons. }
  destruct (in_progress s) as [|y P0] eqn:HP.
  - destruct (Hi eq_refl) as [Hn|(Hf & _ & Hh & z & Hz & Hzd & HzS)].
    + rewrite Hn. eexists _, _; split; [done|].
      split; cbn [scheduled in_progress m_scheduled_head m_scheduled_last
                  m_in_progress_head m_in_progress_last]; try done.
      * intros _. split_and!; [done..|]. destruct Hxn as (t & Ht & ->).
        exists (head rest). split; [|by right]. split; [by rewrite Ht|done].
    + rewrite Hh. cbn [head]. rewrite Hz. unfold set_next. cbn [mbind option_bind].
      apply elem_of_dom in Hzd as [vz Hvz]. rewrite Hvz. cbn [mbind option_bind].
      eexists _, _; split; [done|].
      split; cbn [scheduled in_progress m_scheduled_head m_scheduled_last
                  m_in_progress_head m_in_progress_last]; try done.
      * intros a. rewrite dom_insert.
        assert (z ∈ dom h) by (apply elem_of_dom; eauto). set_solver.
      * apply chain_insert; [set_solver|done].
      * intros _. split_and!; [done..|]. destruct Hxn as (t & Ht & ->).
        exists (head rest). split; [|by right]. split; [|done].
        rewrite lookup_insert_ne by set_solver. by rewrite Ht.
  - destruct Hp as (Hh & Hl & t & Ht & Htt); [done|]. rewrite Hh. cbn [head].
    destruct (last (y :: P0)) as [z|] eqn:Hz; [|by apply last_None in Hz].
    rewrite Hl. unfold set_next. cbn [mbind option_bind].
    assert (Hzin : z ∈ y :: P0) by (apply last_Some in Hz as [? ->]; set_solver).
    assert (Hzd : z ∈ dom h) by (by eapply chain_dom).
    pose proof Hzd as Hzd'. apply elem_of_dom in Hzd' as [vz Hvz]. rewrite Hvz.
    cbn [mbind option_bind]. eexists _, _; split; [done|].
    split; cbn [scheduled in_progress m_scheduled_head m_scheduled_last
                m_in_progress_head m_in_progress_last]; try done.
    + intros a. rewrite dom_insert. set_solver.
    + apply chain_insert; [|done]. apply NoDup_app in Hnd as (_ & Hdisj & _).
      intros Hin. apply (Hdisj _ Hzin). set_solver.
    + intros _. split_and!; [done| |].
      * change (y :: P0 ++ [x]) with ((y :: P0) ++ [x]). by rewrite last_snoc.
      * destruct Hxn as (t' & Ht' & ->). exists (head rest). split; [|by right].
        eapply chain_snoc; [|done|done|done].
        apply NoDup_app in Hnd' as (Hnd' & _ & _). done.
Qed.

(** The last started item may be resolved, and be gone, while others are scheduled if
    it is not linked to them. *)
Lemma resolve_repr seen h q s x rest :
  repr f seen h q s → in_progress s = x :: rest →
  (f = true → rest = [] → scheduled s ≠ [] → h !! x = Some None) →
  ∃ q', PrepareToResolve h q = Some (x, q')
    ∧ repr f seen (if f then delete x h else h) q' (mkSpec (scheduled s) rest).
Proof.
  intros [Hseen Hnd Hs Hsh Hsl Hp Hi] HP Hlink. rewrite HP in *.
  destruct Hp as (Hh & Hl & t & Ht & Htt); [done|].
  assert (HxR : x ∉ rest ++ scheduled s) by (by apply NoDup_cons in Hnd as [? _]).
  assert (Hnd' : NoDup (rest ++ scheduled s)) by (by apply NoDup_cons in Hnd as [_ ?]).
  pose proof Ht as [Hx Hrest]. unfold PrepareToResolve. rewrite Hh.
  cbn [head mbind option_bind]. rewrite Hx. cbn [mbind option_bind].
  eexists; split; [done|].
  assert (Hch : ∀ l t0, x ∉ l → chain h l t0 → chain (if f then delete x h else h) l t0).
  { intros l t0 ? ?. destruct f; [by apply chain_delete|done]. }
  split; cbn [scheduled in_progress m_scheduled_head m_scheduled_last
              m_in_progress_head m_in_progress_last]; try done.
  - intros a. destruct f; [|apply Hseen]. rewrite dom_delete. set_solver.
  - apply Hch; [set_solver|done].
  - intros Hr. destruct rest as [|y rest]; [done|]. split_and!; [done|by rewrite Hl|].
    exists t. split; [apply Hch; [set_solver|done]|done].
  - intros ->. destruct Htt as [->| ->]; [by left|].
    destruct (scheduled s) as [|y S0] eqn:HS; [by left|].
    destruct f eqn:Hf.
    { left. rewrite Hlink in Hx by done. congruence. }
    right. split_and!; [done..|]. exists x. split_and!; [by rewrite Hl| |set_solver].
    apply elem_of_dom. eauto.
Qed.

Lemma resolve_refines seen h q s x rest :
  repr f seen h q s → in_progress s = x :: rest →
  legal f seen s OpResolve = true →
  ∃ h' q', exec f h q OpResolve = Some (Some x, h', q')
    ∧ repr f seen h' q' (mkSpec (scheduled s) rest).
Proof.
  intros Hr HP Hlegal. destruct (resolve_repr seen h q s x rest Hr HP) as (q' & Hp & Hr').
  { intros -> -> HS. unfold legal in Hlegal. rewrite HP in Hlegal. simpl in Hlegal.
    by destruct (scheduled s). }
  cbn [exec]. rewrite Hp. by eexists _, q'.
Qed.
End refinement.

Lemma queue_exec_refines f seen h q s o out s' :
  repr f seen h q s → legal f seen s o = true → spec_exec s o = Some (out, s') →
  ∃ h' q', exec f h q o = Some (out, h', q') ∧ repr f (created o ++ seen) h' q' s'.
Proof.
  intros Hr Hl Hs. destruct o as [x| |]; cbn [spec_exec created app] in *.
  - simplify_eq. apply enqueue_refines; [done|]. cbn in Hl. by apply bool_decide_eq_true in Hl.
  - destruct (scheduled s) eqn:HS; simplify_eq. by apply start_refines.
  - destruct (in_progress s) eqn:HP; simplify_eq. by eapply resolve_refines.
Qed.

Lemma empty_repr f : repr f [] ∅ empty_queue (mkSpec [] []).
Proof.
  split; cbn [scheduled in_progress app]; try done; [constructor|by left].
Qed.

Lemma queue_exec_all_refines f seen h q s ops :
  repr f seen h q s → legal_all f seen s ops = true →
  ∃ outs s' h' q' seen', spec_exec_all s ops = Some (outs, s')
    ∧ exec_all f h q ops = Some (outs, h', q') ∧ repr f seen' h' q' s'.
Proof.
  revert seen h q s. induction ops as [|o ops IH]; intros seen h q s Hr Hl.
  { by eexists _, _, _, _, _. }
  cbn [legal_all] in Hl. apply andb_true_iff in Hl as [Hl1 Hl2].
  destruct (spec_exec s o) as [[out s1]|] eqn:Hs; [|done].
  destruct (queue_exec_refines f seen h q s o out s1) as (h1 & q1 & He & Hr1); [done..|].
  destruct (IH _ _ _ _ Hr1 Hl2) as (outs & s' & h' & q' & seen' & Hsa & Hea & Hr').
  eexists (out :: outs), _, _, _, _. cbn [spec_exec_all exec_all].
  rewrite Hs, He. cbn [mbind option_bind]. rewrite Hsa, Hea. done.
Qed.

(** ** Clients that resolve what they start *)

(** The items of [enq] were enqueued, those of [sched] are left and nothing is in
    progress; resolved items stay in memory. *)
Definition idle (h : store) (q : ResolutionQueue) (enq sched : list addr) : Prop :=
  ∃ seen, (∀ x, x ∈ seen ↔ x ∈ enq) ∧ repr false seen h q (mkSpec sched []).

Lemma empty_idle : idle ∅ empty_queue [] [].
Proof. exists []. split; [done|]. apply empty_repr. Qed.

Lemma idle_NoScheduled h q enq sched : idle h q enq sched → NoScheduled q = bool_decide (sched = []).
Proof.
  intros (seen & _ & Hr). unfold NoScheduled. rewrite (repr_sched_head _ _ _ _ _ Hr). cbn [scheduled].
  apply bool_decide_ext. by destruct sched.
Qed.

Lemma idle_enqueue h q enq sched item :
  idle h q enq sched → item ∉ enq →
  ∃ h' q', Enqueue (<[item := None]> h) q item = Some (h', q') ∧ idle h' q' (enq ++ [item]) (sched ++ [item]).
Proof.
  intros (seen & Hseen & Hr) Hi.
  destruct (enqueue_refines false seen _ _ _ item Hr) as (h' & q' & He & Hr'); [by rewrite Hseen|].
  cbn [exec] in He. destruct (Enqueue _ _ _) as [[h1 q1]|]; [|done].
  injection He as -> ->. exists h', q'. split; [done|]. exists (item :: seen). split; [|done].
  intros x. rewrite elem_of_cons, Hseen, elem_of_app, list_elem_of_singleton. tauto.
Qed.

Lemma idle_serve h q enq x sched :
  idle h q enq (x :: sched) →
  ∃ y h' q' q'', StartNextScheduled h q = Some (y, h', q') ∧ PrepareToResolve h' q' = Some (x, q'')
    ∧ idle h' q'' enq sched.
Proof.
  intros (seen & Hseen & Hr).
  destruct (start_refines false seen _ _ _ x sched Hr eq_refl) as (h' & q' & Hs & Hr1).
  destruct (resolve_refines false seen _ _ _ x [] Hr1) as (h1 & q'' & Hp & Hr2);
    [done|by apply andb_true_iff; split; [apply bool_decide_eq_true_2|]|].
  cbn [exec] in Hs, Hp. destruct (StartNextScheduled h q) as [[[y h2] q2]|]; [|done].
  injection Hs as _ -> ->. destruct (PrepareToResolve h' q') as [[y' q3]|] eqn:E; [|done].
  injection Hp as -> -> ->. eexists _, _, _, _. split_and!; [done|exact E|]. by exists seen.
Qed.

(** ** Properties *)

(** C15: the intrusive queue refines two first-in first-out lists.  Whatever
    legal sequence of enqueue, start and resolve operations its clients issue,
    no operation touches a dead item, items are started in the order in which
    they were enqueued and resolved in the order in which they were started;
    at the end the queue reports nothing scheduled exactly if nothing is. *)
Theorem queue_refines_fifo (free_on_resolve : bool) (ops : list op)
    (Hlegal : legal_all free_on_resolve [] (mkSpec [] []) ops = true) :
  ∃ outs s h q,
    spec_exec_all (mkSpec [] []) ops = Some (outs, s)
    ∧ exec_all free_on_resolve ∅ empty_queue ops = Some (outs, h, q)
    ∧ (NoScheduled q = true ↔ scheduled s = [])
    ∧ GetNextScheduled q = head (scheduled s)
    ∧ (in_progress s ≠ [] → NoInProgress q = false ∧ GetCurrentInProgress q = head (in_progress s)).
Proof.
  destruct (queue_exec_all_refines free_on_resolve [] ∅ empty_queue (mkSpec [] []) ops)
    as (outs & s & h & q & seen & Hs & He & Hr); [apply empty_repr|done|].
  exists outs, s, h, q. destruct Hr as [_ _ _ Hsh _ Hp _].
  split_and!; [done|done| |done|].
  - unfold NoScheduled. rewrite bool_decide_eq_true, Hsh. by destruct (scheduled s).
  - intros HP. destruct (Hp HP) as (Hh & _). split; [|done].
    unfold NoInProgress. rewrite bool_decide_eq_false, Hh. by destruct (in_progress s).
Qed.

(** Resolving the only started item while another is still scheduled leaves
    the queue claiming that something is in progress and, once the resolved
    item is gone with its coroutine, makes the next start write into it. *)
Theorem queue_writes_to_dead_item (x y : addr) (Hne : x ≠ y) :
  ∃ h q, exec_all true ∅ empty_queue [OpEnqueue x; OpEnqueue y; OpStart; OpResolve]
           = Some ([None; None; Some x; Some x], h, q)
    ∧ h !! x = None
    ∧ NoInProgress q = false ∧ GetCurrentInProgress q = Some y
    ∧ exec true h q OpStart = None.
Proof.
  unfold exec_all, exec, Enqueue, StartNextScheduled, PrepareToResolve, set_next, empty_queue.
  cbn [m_scheduled_head m_scheduled_last m_in_progress_head m_in_progress_last mbind option_bind].
  repeat first
    [ rewrite lookup_insert_eq | rewrite lookup_insert_ne by done
    | progress cbn [m_scheduled_head m_scheduled_last m_in_progress_head m_in_progress_last
                    mbind option_bind] ].
  eexists _, _; split; [done|]. split_and!; [by rewrite lookup_delete_eq|done|done|].
  cbn [m_scheduled_head m_in_progress_head m_in_progress_last mbind option_bind].
  rewrite (lookup_delete_ne _ x y), (lookup_insert_ne _ x y), lookup_insert_eq by done.
  cbn [mbind option_bind]. by rewrite lookup_delete_eq.
Qed.

Lemma queue_refines_fifo_witness :
  ∃ outs s h q,
    spec_exec_all (mkSpec [] []) [OpEnqueue 1; OpEnqueue 2; OpStart; OpStart; OpResolve; OpEnqueue 3]
      = Some (outs, s)
    ∧ exec_all true ∅ empty_queue
        [OpEnqueue 1; OpEnqueue 2; OpStart; OpStart; OpResolve; OpEnqueue 3] = Some (outs, h, q)
    ∧ (NoScheduled q = true ↔ scheduled s = [])
    ∧ GetNextScheduled q = head (scheduled s)
    ∧ (in_progress s ≠ [] → NoInProgress q = false ∧ GetCurrentInProgress q = head (in_progress s)).
Proof.
  apply (queue_refines_fifo true
    [OpEnqueue 1; OpEnqueue 2; OpStart; OpStart; OpResolve; OpEnqueue 3]).
  reflexivity.
Defined.

Lemma queue_writes_to_dead_item_witness :
  ∃ h q, exec_all true ∅ empty_queue [OpEnqueue 1; OpEnqueue 2; OpStart; OpResolve]
           = Some ([None; None; Some 1; Some 1], h, q)
    ∧ h !! 1 = None
    ∧ NoInProgress q = false ∧ GetCurrentInProgress q = Some 2
    ∧ exec true h q OpStart = None.
Proof. apply (queue_writes_to_dead_item 1 2). lia. Defined.
