(* ===== verification/Endpoint.v ===== *)
(** * Endpoint: a queue that threads serve
    ([src/src/libedr/driver/PushQueueEndpoint.hpp]).

    Coroutines enqueue items; any number of threads serve them one at a time, wait
    for each other on a condition variable, join a coroutine or terminate the
    endpoint.  Between two operations on the mutex a thread runs alone, so each
    such section is one step, and the steps of the threads interleave in any
    order.  Notifications come after the mutex is released and are steps of
    their own; a wait may also end without one.

    An item lives in the frame of a coroutine and is dead once it was resolved, when
    its coroutine has ended: the dead items are those of [handled].  Memory is not
    used again, so that a write to a dead item changes nothing that lives; such
    writes are undefined behaviour all the same, and [dead_writes] lists them. *)
From S2P Require Import Prelude ResolutionQueue.

(** ** The endpoint and its threads *)

Record Endpoint := mkEndpoint {
  heap : store;
  m_queue : ResolutionQueue;
  m_transaction_in_progress : bool;
  m_is_alive : bool;
  (** the dead items that were written to *)
  dead_writes : list addr;
}.

Definition new_endpoint : Endpoint := mkEndpoint ∅ empty_queue false true [].

(** [Serve] and [Join]; the coroutine that is joined ends when its item is
    resolved. *)
Inductive Call := CServe (wait_if_empty : bool) | CJoin (to_complete : addr).

(** Where a thread is.  Those that wait know whether they were notified. *)
Inductive Thread :=
| Locking (c : Call)
| WaitingFirst (c : Call) (notified : bool)
| Waiting (c : Call) (pending_notification notified : bool)
| Unlocked (c : Call) (item : addr) (pending_notification : bool)
| Handling (c : Call) (item : addr)
| Resolved (c : Call)
| Leaving (pending_notification was_alive : bool)
| Enqueued
| Terminating
| Returned (was_alive : bool).

Record System := mkSystem {
  endpoint : Endpoint;
  threads : gmap nat Thread;
  (** the items enqueued and the items handled, in their order *)
  enqueued : list addr;
  handled : list addr;
}.

Definition start : System := mkSystem new_endpoint ∅ [] [].

(** ** Steps *)

Definition notify (th : Thread) : Thread :=
  match th with
  | Waiting c p _ => Waiting c p true
  | WaitingFirst c _ => WaitingFirst c true
  | th => th
  end.

(** [m_queue_updated.notify_all()]. *)
Definition notify_all (ths : gmap nat Thread) : gmap nat Thread := notify <$> ths.

(** The item whose link [StartNextScheduled] sets. *)
Definition linked_by_start (q : ResolutionQueue) : option addr :=
  match m_in_progress_head q with Some _ => m_in_progress_last q | None => None end.

(** [ServeFront] up to the release of the mutex. *)
Definition ServeFront (e : Endpoint) (handled : list addr) (c : Call) (pending : bool)
    : option (Endpoint * Thread) :=
  let dead := filter (.∈ handled) (option_list (linked_by_start (m_queue e))) in
  '(_, h, q) ← StartNextScheduled (heap e) (m_queue e);
  '(current, q) ← PrepareToResolve h q;
  Some (mkEndpoint h q true (m_is_alive e) (dead_writes e ++ dead), Unlocked c current pending).

(** The loops of [Serve] and [Join], up to the next release of the mutex. *)
Definition loop (e : Endpoint) (handled : list addr) (c : Call) (pending : bool)
    : option (Endpoint * Thread) :=
  match c with
  | CServe _ =>
      if NoScheduled (m_queue e) then Some (e, Leaving pending (m_is_alive e))
      else if m_transaction_in_progress e then Some (e, Waiting c pending false)
      else ServeFront e handled c pending
  | CJoin to_complete =>
      if bool_decide (to_complete ∈ handled) then Some (e, Leaving pending (m_is_alive e))
      else if NoScheduled (m_queue e) || m_transaction_in_progress e
      then Some (e, Waiting c pending false)
      else ServeFront e handled c pending
  end.

(** [Serve] and [Join] from their beginning. *)
Definition enter (e : Endpoint) (handled : list addr) (c : Call) : option (Endpoint * Thread) :=
  match c with
  | CServe true =>
      if m_is_alive e && NoScheduled (m_queue e) then Some (e, WaitingFirst c false)
      else loop e handled c false
  | _ => loop e handled c false
  end.

(** The end of [ServeFront], with the mutex locked again. *)
Definition front_served (e : Endpoint) : Endpoint :=
  mkEndpoint (heap e) (m_queue e) false (m_is_alive e) (dead_writes e).

(** One step of thread [i]. *)
Definition move (s : System) (i : nat) : option System :=
  let e := endpoint s in
  let continue e th := mkSystem e (<[i := th]> (threads s)) (enqueued s) (handled s) in
  let notifying th := mkSystem e (<[i := th]> (notify_all (threads s))) (enqueued s) (handled s) in
  th ← threads s !! i;
  match th with
  | Locking c => '(e, th) ← enter e (handled s) c; Some (continue e th)
  | WaitingFirst c _ => '(e, th) ← loop e (handled s) c false; Some (continue e th)
  | Waiting c pending _ => '(e, th) ← loop e (handled s) c pending; Some (continue e th)
  | Unlocked c item pending =>
      Some (if (pending : bool) then notifying (Handling c item) else continue e (Handling c item))
  | Handling c item =>
      Some (mkSystem e (<[i := Resolved c]> (threads s)) (enqueued s) (handled s ++ [item]))
  | Resolved c => '(e, th) ← loop (front_served e) (handled s) c true; Some (continue e th)
  | Leaving pending was_alive =>
      Some (if (pending : bool) then notifying (Returned was_alive) else continue e (Returned was_alive))
  | Enqueued => Some (notifying (Returned true))
  | Terminating => Some (notifying (Locking (CServe false)))
  | Returned _ => None
  end.

(** [LockForEnqueue] and [Enqueuer::Enqueue]. *)
Definition Enqueue (s : System) (i : nat) (item : addr) : option System :=
  let e := endpoint s in
  if m_is_alive e then
    '(h, q) ← ResolutionQueue.Enqueue (<[item := None]> (heap e)) (m_queue e) item;
    Some (mkSystem (mkEndpoint h q (m_transaction_in_progress e) true (dead_writes e))
            (<[i := Enqueued]> (threads s)) (enqueued s ++ [item]) (handled s))
  else Some (mkSystem e (<[i := Returned false]> (threads s)) (enqueued s) (handled s)).

(** [Terminate] up to its notification. *)
Definition Terminate (s : System) (i : nat) : System :=
  let e := endpoint s in
  mkSystem (mkEndpoint (heap e) (m_queue e) (m_transaction_in_progress e) false (dead_writes e))
    (<[i := Terminating]> (threads s)) (enqueued s) (handled s).

Inductive sys_step : System → System → Prop :=
| StepCall s i c :
    threads s !! i = None →
    sys_step s (mkSystem (endpoint s) (<[i := Locking c]> (threads s)) (enqueued s) (handled s))
| StepEnqueue s i item s' :
    threads s !! i = None → item ∉ enqueued s → Enqueue s i item = Some s' → sys_step s s'
| StepTerminate s i : threads s !! i = None → sys_step s (Terminate s i)
| StepMove s i s' : move s i = Some s' → sys_step s s'.

Definition reachable : System → Prop := rtc sys_step start.

(** Steps that enqueue an item only when none is scheduled; one may be in the hands
    of a thread. *)
Definition sparse_step (s s' : System) : Prop :=
  sys_step s s' ∧ (enqueued s' ≠ enqueued s → NoScheduled (m_queue (endpoint s)) = true).

Definition sparse : System → Prop := rtc sparse_step start.

(** Whether a thread will move without being notified or called again. *)
Definition due (th : Thread) : bool :=
  match th with
  | WaitingFirst _ notified | Waiting _ _ notified => notified
  | Returned _ => false
  | _ => true
  end.

Definition quiet (s : System) : Prop := map_Forall (λ _ th, due th = false) (threads s).

(** The item that a thread has in its hands. *)
Definition in_hand (th : Thread) : option addr :=
  match th with Unlocked _ x _ | Handling _ x => Some x | _ => None end.

(** ** Invariant *)

(** A thread that serves an item has the right to. *)
Definition holds (th : Thread) : bool :=
  match th with Unlocked _ _ _ | Handling _ _ | Resolved _ => true | _ => false end.

(** A thread that is going to notify the others. *)
Definition notifies (th : Thread) : bool :=
  match th with Unlocked _ _ true | Leaving true _ | Enqueued | Terminating => true | _ => false end.

Definition is_serve (c : Call) : bool := match c with CServe _ => true | CJoin _ => false end.

(** A thread that does not leave as long as something is scheduled. *)
Definition serves (th : Thread) : bool :=
  match th with
  | Locking c | WaitingFirst c _ | Waiting c _ _ | Unlocked c _ _ | Handling c _ | Resolved c => is_serve c
  | Terminating => true
  | _ => false
  end.

Definition some_thread (p : Thread → bool) (ths : gmap nat Thread) : Prop :=
  ∃ j th, ths !! j = Some th ∧ p th = true.

(** Thread [ho] and no other holds the right to serve. *)
Definition holder (ths : gmap nat Thread) (ho : option nat) : Prop :=
  (∀ j th, ths !! j = Some th → holds th = bool_decide (ho = Some j))
  ∧ ∀ j, ho = Some j → is_Some (ths !! j).

Definition hand (ths : gmap nat Thread) (ho : option nat) : list addr :=
  match ho with None => [] | Some i => option_list (ths !! i ≫= in_hand) end.

(** A call of [Serve] that waits has a reason to, or will be notified; [b] stands
    for a notification that a thread in its section still owes. *)
Definition waits_ok (ths : gmap nat Thread) (sched : list addr) (in_progress b : bool) : Prop :=
  ∀ j w p, ths !! j = Some (Waiting (CServe w) p false) →
    sched ≠ [] ∧ (in_progress = true ∨ b = true) ∨ some_thread notifies ths.

Definition firsts_ok (ths : gmap nat Thread) (sched : list addr) (alive : bool) : Prop :=
  ∀ j c, ths !! j = Some (WaitingFirst c false) → sched = [] ∧ alive = true ∨ some_thread notifies ths.

(** Someone serves what is left when the endpoint is terminated. *)
Definition dead_ok (ths : gmap nat Thread) (sched : list addr) (alive b : bool) : Prop :=
  alive = false → sched = [] ∨ b = true ∨ some_thread serves ths.

Definition queued (e : Endpoint) (enq sched : list addr) : Prop := idle (heap e) (m_queue e) enq sched.

(** The invariant of the threads [ths], of which one may be in its section. *)
Record part_inv (e : Endpoint) (ths : gmap nat Thread) (enq handled sched : list addr)
    (ho : option nat) (owes serving : bool) : Prop := {
  inv_queue : queued e enq sched;
  inv_holder : holder ths ho;
  inv_progress : m_transaction_in_progress e = bool_decide (is_Some ho);
  inv_items : enq = handled ++ hand ths ho ++ sched;
  inv_waits : waits_ok ths sched (m_transaction_in_progress e) owes;
  inv_firsts : firsts_ok ths sched (m_is_alive e);
  inv_dead : dead_ok ths sched (m_is_alive e) serving;
}.

Definition inv (s : System) : Prop :=
  ∃ sched ho, part_inv (endpoint s) (threads s) (enqueued s) (handled s) sched ho false false.

(** ** The queue *)

Lemma ServeFront_queued e enq hd x sched c pending :
  queued e enq (x :: sched) →
  ∃ e', ServeFront e hd c pending = Some (e', Unlocked c x pending) ∧ queued e' enq sched
    ∧ m_transaction_in_progress e' = true ∧ m_is_alive e' = m_is_alive e.
Proof.
  intros (y & h & q & q' & Hs & Hp & Hq)%idle_serve. unfold ServeFront. rewrite Hs.
  cbn [mbind option_bind]. rewrite Hp. eexists. split; [done|]. by split_and!.
Qed.

(** The sections of the loops. *)
Lemma loop_cases e enq hd sched c pending :
  queued e enq sched →
  ∃ e' th, loop e hd c pending = Some (e', th) ∧
    ((th = Leaving pending (m_is_alive e) ∧ e' = e ∧ (is_serve c = true → sched = []))
     ∨ (th = Waiting c pending false ∧ e' = e
        ∧ (is_serve c = true → sched ≠ [] ∧ m_transaction_in_progress e = true)
        ∧ (sched = [] ∨ m_transaction_in_progress e = true))
     ∨ ∃ x rest, m_transaction_in_progress e = false ∧ sched = x :: rest ∧ th = Unlocked c x pending
        ∧ queued e' enq rest ∧ m_transaction_in_progress e' = true ∧ m_is_alive e' = m_is_alive e).
Proof.
  intros Hq. pose proof (idle_NoScheduled _ _ enq sched Hq) as Hn.
  assert (Hserve : ∀ x rest, sched = x :: rest → m_transaction_in_progress e = false →
    ∃ e' th, ServeFront e hd c pending = Some (e', th) ∧ ∃ x rest, m_transaction_in_progress e = false
      ∧ sched = x :: rest ∧ th = Unlocked c x pending ∧ queued e' enq rest
      ∧ m_transaction_in_progress e' = true ∧ m_is_alive e' = m_is_alive e).
  { intros x rest -> Hip. destruct (ServeFront_queued e enq hd x rest c pending Hq) as (e' & He & ? & ? & ?).
    exists e', (Unlocked c x pending). split; [done|]. exists x, rest. by split_and!. }
  unfold loop. rewrite Hn. destruct c as [w|t].
  - case_bool_decide as Hs; [eexists _, _; split; [done|]; by left|].
    destruct (m_transaction_in_progress e) eqn:Hip.
    + eexists _, _. split; [done|]. right. left. by split_and!; [..|right].
    + destruct sched as [|x rest]; [done|]. destruct (Hserve x rest) as (e' & th & ? & ?); eauto 10.
  - assert (Hno : ∀ P : Prop, is_serve (CJoin t) = true → P) by (by intros P [=]).
    destruct (bool_decide (t ∈ hd)); [eexists _, _; split; [done|]; left; by split_and!; [..|apply Hno]|].
    destruct (m_transaction_in_progress e) eqn:Hip; [rewrite orb_true_r|rewrite orb_false_r].
    + eexists _, _. split; [done|]. right. left. split_and!; [done|done|apply Hno|by right].
    + case_bool_decide as Hs.
      { eexists _, _. split; [done|]. right. left. split_and!; [done|done|apply Hno|by left]. }
      destruct sched as [|x rest]; [done|]. destruct (Hserve x rest) as (e' & th & ? & ?); eauto 10.
Qed.

(** ** Threads come, go and change *)

Section threads.
Implicit Types (ths : gmap nat Thread) (i j : nat) (th : Thread).

Lemma some_insert p ths i th :
  ths !! i = None → some_thread p ths → some_thread p (<[i := th]> ths).
Proof.
  intros Hi (j & th' & Hj & Hp). exists j, th'. split; [|done].
  rewrite lookup_insert_ne; [done|]. by intros ->; rewrite Hi in Hj.
Qed.

Lemma some_here p ths i th : p th = true → some_thread p (<[i := th]> ths).
Proof. intros Hp. exists i, th. by rewrite lookup_insert_eq. Qed.

Lemma in_hand_holds th : holds th = false → in_hand th = None.
Proof. by destruct th. Qed.

Lemma hand_insert ths i th ho :
  ths !! i = None → holder ths ho → hand (<[i := th]> ths) ho = hand ths ho.
Proof.
  intros Hi [_ Hs]. destruct ho as [j|]; [|done]. cbn [hand].
  destruct (Hs j eq_refl) as [th' Hj]. rewrite lookup_insert_ne; [done|]. by intros ->; rewrite Hi in Hj.
Qed.

Lemma holder_insert ths i th ho :
  ths !! i = None → holder ths ho → holds th = false → holder (<[i := th]> ths) ho.
Proof.
  intros Hi [Hh Hs] Hf. split.
  - intros j th' Hj. destruct (decide (i = j)) as [->|Hij].
    + rewrite lookup_insert_eq in Hj. injection Hj as <-. rewrite Hf. symmetry.
      apply bool_decide_eq_false_2. intros ->. destruct (Hs j eq_refl) as [? Hj]. by rewrite Hi in Hj.
    + rewrite lookup_insert_ne in Hj by done. by apply Hh.
  - intros j Hj. destruct (decide (i = j)) as [->|Hij]; [rewrite lookup_insert_eq; eauto|].
    rewrite lookup_insert_ne by done. by apply Hs.
Qed.

Lemma holder_new ths i th : holder ths None → holds th = true → holder (<[i := th]> ths) (Some i).
Proof.
  intros [Hh _] Hf. split.
  - intros j th' Hj. destruct (decide (i = j)) as [->|Hij].
    + rewrite lookup_insert_eq in Hj. injection Hj as <-. by rewrite Hf, bool_decide_eq_true_2.
    + rewrite lookup_insert_ne in Hj by done. rewrite (Hh j th' Hj).
      by rewrite !bool_decide_eq_false_2 by (by intros [=]).
  - intros j [= <-]. rewrite lookup_insert_eq. eauto.
Qed.

Lemma waits_insert ths i th sched ip b sched' ip' :
  ths !! i = None → waits_ok ths sched ip b →
  (sched ≠ [] → ip = true ∨ b = true → sched' ≠ [] ∧ ip' = true ∨ notifies th = true) →
  (∀ w p, th = Waiting (CServe w) p false → sched' ≠ [] ∧ ip' = true) →
  waits_ok (<[i := th]> ths) sched' ip' false.
Proof.
  intros Hi Hw Hold Hnew j w p Hj. destruct (decide (i = j)) as [->|Hij].
  - rewrite lookup_insert_eq in Hj. injection Hj as Hj. destruct (Hnew w p Hj). left. split; [done|by left].
  - rewrite lookup_insert_ne in Hj by done. destruct (Hw j w p Hj) as [[Hs Hb]|Hn].
    + destruct (Hold Hs Hb) as [[? ?]|Hn]; [left; split; [done|by left]|]. right. by apply some_here.
    + right. by apply some_insert.
Qed.

Lemma firsts_insert ths i th sched alive sched' alive' :
  ths !! i = None → firsts_ok ths sched alive →
  (sched = [] → alive = true → sched' = [] ∧ alive' = true ∨ notifies th = true) →
  (∀ c, th = WaitingFirst c false → sched' = [] ∧ alive' = true) →
  firsts_ok (<[i := th]> ths) sched' alive'.
Proof.
  intros Hi Hw Hold Hnew j c Hj. destruct (decide (i = j)) as [->|Hij].
  - rewrite lookup_insert_eq in Hj. injection Hj as Hj. left. by eapply Hnew.
  - rewrite lookup_insert_ne in Hj by done. destruct (Hw j c Hj) as [[Hs Hb]|Hn].
    + destruct (Hold Hs Hb) as [?|Hn]; [by left|]. right. by apply some_here.
    + right. by apply some_insert.
Qed.

Lemma dead_insert ths i th sched alive b sched' alive' :
  ths !! i = None → dead_ok ths sched alive b →
  (alive' = false → serves th = true
     ∨ alive = false ∧ (sched = [] ∨ b = true → sched' = [] ∨ serves th = true)) →
  dead_ok (<[i := th]> ths) sched' alive' false.
Proof.
  intros Hi Hd Hnew Ha. destruct (Hnew Ha) as [Hs|[Ha' Hs]]; [right; right; by apply some_here|].
  destruct (Hd Ha') as [Hsch|[Hb|Hsome]].
  - destruct (Hs (or_introl Hsch)); [by left|]. right. right. by apply some_here.
  - destruct (Hs (or_intror Hb)); [by left|]. right. right. by apply some_here.
  - right. right. by apply some_insert.
Qed.

(** A thread that does not serve an item joins the others. *)
Lemma insert_inv e e' ths i th enq enq' hd sched sched' ho b srv :
  ths !! i = None → part_inv e ths enq hd sched ho b srv → holds th = false →
  queued e' enq' sched' → m_transaction_in_progress e' = m_transaction_in_progress e →
  enq' = hd ++ hand ths ho ++ sched' →
  (sched ≠ [] → m_transaction_in_progress e = true ∨ b = true →
     sched' ≠ [] ∧ m_transaction_in_progress e = true ∨ notifies th = true) →
  (∀ w p, th = Waiting (CServe w) p false → sched' ≠ [] ∧ m_transaction_in_progress e = true) →
  (sched = [] → m_is_alive e = true → sched' = [] ∧ m_is_alive e' = true ∨ notifies th = true) →
  (∀ c, th = WaitingFirst c false → sched' = [] ∧ m_is_alive e' = true) →
  (m_is_alive e' = false → serves th = true
     ∨ m_is_alive e = false ∧ (sched = [] ∨ srv = true → sched' = [] ∨ serves th = true)) →
  part_inv e' (<[i := th]> ths) enq' hd sched' ho false false.
Proof.
  intros Hi [_ Hh Hp _ Hw Hf Hd] Hth Hq Hip Henq ?????. split; try done.
  - by apply holder_insert.
  - by rewrite Hip.
  - by rewrite hand_insert.
  - rewrite Hip. by eapply waits_insert.
  - by eapply firsts_insert.
  - by eapply dead_insert.
Qed.

(** After its section a thread waits, leaves or serves the next item. *)
Lemma after_loop e ths i enq hd sched ho c pending :
  ths !! i = None → part_inv e ths enq hd sched ho pending (is_serve c) →
  ∃ e' th sched' ho', loop e hd c pending = Some (e', th)
    ∧ part_inv e' (<[i := th]> ths) enq hd sched' ho' false false.
Proof.
  intros Hi Hpi. pose proof Hpi as [Hq Hh Hp Henq Hw Hf Hd].
  destruct (loop_cases e enq hd sched c pending Hq) as (e' & th & -> & Hcases).
  destruct Hcases as [(-> & -> & Hs)|[(-> & -> & Hs & Hor)|(x & rest & Hip & -> & -> & Hq' & Hip' & Hal)]].
  - exists e, (Leaving pending (m_is_alive e)), sched, ho. split; [done|].
    eapply insert_inv; try done; [|tauto|].
    + intros Hne [Hip|Hb]; [by left|]. right. by rewrite Hb.
    + intros Ha. right. split; [done|]. intros [?|Hc]; left; [done|by apply Hs].
  - exists e, (Waiting c pending false), sched, ho. split; [done|].
    eapply insert_inv; try done.
    + intros Hne _. left. split; [done|]. by destruct Hor.
    + intros w p [= -> _]. by apply Hs.
    + tauto.
    + intros Ha. right. split; [done|]. intros [?|Hc]; [by left|by right].
  - exists e', (Unlocked c x pending), rest, (Some i). split; [done|].
    assert (ho = None) as ->.
    { rewrite Hip in Hp. symmetry in Hp. apply bool_decide_eq_false in Hp. by apply eq_None_not_Some. }
    split; try done.
    + by apply holder_new.
    + cbn [hand]. by rewrite lookup_insert_eq.
    + eapply waits_insert; try done. intros _ [Hc|Hb]; [congruence|]. right. by rewrite Hb.
    + eapply firsts_insert; try done.
    + eapply dead_insert; try done. rewrite Hal. intros Ha. right. split; [done|].
      intros [?|Hc]; [done|by right].
Qed.
End threads.

Section changes.
Implicit Types (ths : gmap nat Thread) (i j : nat) (th : Thread).

Lemma some_delete p ths i th :
  ths !! i = Some th → some_thread p ths → p th = true ∨ some_thread p (delete i ths).
Proof.
  intros Hi (j & th' & Hj & Hp). destruct (decide (i = j)) as [->|Hij]; [left; congruence|].
  right. exists j, th'. by rewrite lookup_delete_ne.
Qed.

Lemma holder_delete ths i th ho :
  ths !! i = Some th → holder ths ho → holds th = false →
  holder (delete i ths) ho ∧ hand (delete i ths) ho = hand ths ho.
Proof.
  intros Hi [Hh Hs] Hf. pose proof (Hh i th Hi) as Hho. rewrite Hf in Hho. symmetry in Hho.
  apply bool_decide_eq_false in Hho. split; [split|].
  - intros j th' Hj. apply lookup_delete_Some in Hj as [_ Hj]. by apply Hh.
  - intros j Hj. rewrite lookup_delete_ne by congruence. by apply Hs.
  - destruct ho as [j|]; [|done]. cbn [hand]. by rewrite lookup_delete_ne by congruence.
Qed.

Lemma waits_delete ths i th sched ip b :
  ths !! i = Some th → notifies th = false → waits_ok ths sched ip false →
  waits_ok (delete i ths) sched ip b.
Proof.
  intros Hi Hn Hw j w p Hj. apply lookup_delete_Some in Hj as [_ Hj].
  destruct (Hw j w p Hj) as [[? [?|?]]|Hs]; [left; split; [done|by left]|done|].
  destruct (some_delete notifies ths i th Hi Hs); [congruence|by right].
Qed.

Lemma firsts_delete ths i th sched alive :
  ths !! i = Some th → notifies th = false → firsts_ok ths sched alive →
  firsts_ok (delete i ths) sched alive.
Proof.
  intros Hi Hn Hw j c Hj. apply lookup_delete_Some in Hj as [_ Hj].
  destruct (Hw j c Hj) as [?|Hs]; [by left|].
  destruct (some_delete notifies ths i th Hi Hs); [congruence|by right].
Qed.

Lemma dead_delete ths i th sched alive b :
  ths !! i = Some th → dead_ok ths sched alive false → (serves th = true → b = true) →
  dead_ok (delete i ths) sched alive b.
Proof.
  intros Hi Hd Hb Ha. destruct (Hd Ha) as [?|[?|Hs]]; [by left|done|].
  destruct (some_delete serves ths i th Hi Hs); [right; left; by apply Hb|by right; right].
Qed.

(** A thread enters a section. *)
Lemma remove_inv e ths i th enq hd sched ho b c :
  ths !! i = Some th → part_inv e ths enq hd sched ho false false →
  holds th = false → notifies th = false → serves th = is_serve c →
  part_inv e (delete i ths) enq hd sched ho b (is_serve c).
Proof.
  intros Hi [Hq Hh Hp Henq Hw Hf Hd] Hth Hn Hs.
  destruct (holder_delete ths i th ho Hi Hh Hth) as [Hh' Hhand]. split; try done.
  - by rewrite Hhand.
  - by eapply waits_delete.
  - by eapply firsts_delete.
  - eapply dead_delete; [done|done|]. by rewrite Hs.
Qed.

(** The thread that served an item takes the mutex again. *)
Lemma remove_holder_inv e ths i c enq hd sched ho :
  ths !! i = Some (Resolved c) → part_inv e ths enq hd sched ho false false →
  part_inv (front_served e) (delete i ths) enq hd sched None true (is_serve c).
Proof.
  intros Hi [Hq Hh Hp Henq Hw Hf Hd]. pose proof (proj1 Hh i _ Hi) as Hho. cbn in Hho. symmetry in Hho.
  apply bool_decide_eq_true in Hho as ->. split; try done.
  - split; [|done]. intros j th' Hj. apply lookup_delete_Some in Hj as [Hij Hj].
    rewrite (proj1 Hh j th' Hj), !bool_decide_eq_false_2; [done|by intros [=]|congruence].
  - cbn [hand] in *. rewrite Hi in Henq. exact Henq.
  - intros j w p Hj. apply lookup_delete_Some in Hj as [_ Hj].
    destruct (Hw j w p Hj) as [[? _]|Hs]; [left; split; [done|by right]|].
    destruct (some_delete notifies ths i _ Hi Hs); [done|by right].
  - by eapply firsts_delete.
  - by eapply dead_delete.
Qed.

Definition all_notified ths : Prop :=
  ∀ j th, ths !! j = Some th →
    match th with Waiting _ _ n | WaitingFirst _ n => n = true | _ => True end.

Lemma notify_all_notified ths : all_notified (notify_all ths).
Proof.
  intros j th Hj. unfold notify_all in Hj. rewrite lookup_fmap in Hj.
  apply fmap_Some in Hj as (th' & _ & ->). by destruct th'.
Qed.

Lemma notify_all_inv e ths enq hd sched ho :
  part_inv e ths enq hd sched ho false false → part_inv e (notify_all ths) enq hd sched ho false false.
Proof.
  intros [Hq [Hh Hs] Hp Henq Hw Hf Hd].
  assert (Hl : ∀ j, notify_all ths !! j = notify <$> ths !! j) by (intros j; apply lookup_fmap).
  pose proof (notify_all_notified ths) as Hall. split; try done.
  - split.
    + intros j th Hj. rewrite Hl in Hj. apply fmap_Some in Hj as (th' & Hj & ->).
      rewrite <-(Hh j th' Hj). by destruct th'.
    + intros j Hj. rewrite Hl. by apply fmap_is_Some, Hs.
  - rewrite Henq. do 2 f_equal. destruct ho as [j|]; [|done]. cbn [hand]. rewrite Hl.
    destruct (ths !! j) as [[]|]; done.
  - intros j w p Hj. by apply Hall in Hj.
  - intros j c Hj. by apply Hall in Hj.
  - intros Ha. destruct (Hd Ha) as [?|[?|(j & th & Hj & Hth)]]; [by left|done|].
    right. right. exists j, (notify th). rewrite Hl, Hj. split; [done|]. by destruct th.
Qed.

(** A thread goes on by itself. *)
Lemma update_inv e ths i th th' enq hd hd' sched ho :
  part_inv e ths enq hd sched ho false false → ths !! i = Some th →
  holds th' = holds th → hd' ++ option_list (in_hand th') = hd ++ option_list (in_hand th) →
  (∀ w p, th' ≠ Waiting (CServe w) p false) →
  (∀ c, th' = WaitingFirst c false → sched = [] ∧ m_is_alive e = true) →
  (notifies th = true → all_notified ths) → (serves th = true → serves th' = true) →
  part_inv e (<[i := th']> ths) enq hd' sched ho false false.
Proof.
  intros [Hq [Hh Hs] Hp Henq Hw Hf Hd] Hi Hhold Hhand Hnw Hnf Hn Hserve.
  assert (Hsome : ∀ p, some_thread p ths → p th = true ∨ some_thread p (<[i := th']> ths)).
  { intros p (j & t & Hj & Ht). destruct (decide (i = j)) as [->|Hij]; [left; congruence|].
    right. exists j, t. by rewrite lookup_insert_ne. }
  split; try done.
  - split.
    + intros j t Hj. apply lookup_insert_Some in Hj as [[<- <-]|[Hij Hj]]; [|by apply Hh].
      rewrite Hhold. by apply Hh.
    + intros j Hj. destruct (decide (i = j)) as [->|Hij]; [rewrite lookup_insert_eq; eauto|].
      rewrite lookup_insert_ne by done. by apply Hs.
  - pose proof (Hh i th Hi) as Hho. destruct (holds th) eqn:Hth; symmetry in Hho.
    + apply bool_decide_eq_true in Hho as ->. cbn [hand] in *. rewrite Hi in Henq. cbn in Henq.
      rewrite lookup_insert_eq. cbn. by rewrite app_assoc, Hhand, <-app_assoc.
    + apply bool_decide_eq_false in Hho.
      rewrite (in_hand_holds th), (in_hand_holds th') in Hhand by done. cbn in Hhand.
      rewrite !app_nil_r in Hhand. subst hd'. rewrite Henq. destruct ho as [j|]; [|done].
      cbn [hand]. by rewrite lookup_insert_ne by congruence.
  - intros j w p Hj. apply lookup_insert_Some in Hj as [[<- Hj]|[Hij Hj]]; [by destruct (Hnw w p)|].
    destruct (Hw j w p Hj) as [?|Hsm]; [by left|]. destruct (Hsome _ Hsm) as [Hnt|]; [|by right].
    by specialize (Hn Hnt j _ Hj).
  - intros j c Hj. apply lookup_insert_Some in Hj as [[<- Hj]|[Hij Hj]]; [left; by eapply Hnf|].
    destruct (Hf j c Hj) as [?|Hsm]; [by left|]. destruct (Hsome _ Hsm) as [Hnt|]; [|by right].
    by specialize (Hn Hnt j _ Hj).
  - intros Ha. destruct (Hd Ha) as [?|[?|Hsm]]; [by left|done|]. right. right.
    destruct (Hsome _ Hsm) as [Hst|]; [|done]. apply some_here. by apply Hserve.
Qed.
End changes.

(** ** Every step keeps the invariant, and no thread gets stuck in a fault *)

Lemma loop_inv s i th c pending sched ho :
  part_inv (endpoint s) (threads s) (enqueued s) (handled s) sched ho false false →
  threads s !! i = Some th → holds th = false → notifies th = false → serves th = is_serve c →
  ∃ e' th', loop (endpoint s) (handled s) c pending = Some (e', th')
    ∧ inv (mkSystem e' (<[i := th']> (threads s)) (enqueued s) (handled s)).
Proof.
  intros Hp Hi Hh Hn Hs.
  destruct (after_loop (endpoint s) (delete i (threads s)) i (enqueued s) (handled s) sched ho c pending)
    as (e' & th' & sched' & ho' & Hl & Hp'); [apply lookup_delete_eq|by eapply remove_inv|].
  rewrite insert_delete_eq in Hp'. exists e', th'. split; [done|]. by exists sched', ho'.
Qed.

Lemma enter_inv s i c sched ho :
  part_inv (endpoint s) (threads s) (enqueued s) (handled s) sched ho false false →
  threads s !! i = Some (Locking c) →
  ∃ e' th', enter (endpoint s) (handled s) c = Some (e', th')
    ∧ inv (mkSystem e' (<[i := th']> (threads s)) (enqueued s) (handled s)).
Proof.
  intros Hp Hi.
  pose proof (loop_inv s i (Locking c) c false sched ho Hp Hi eq_refl eq_refl eq_refl) as Hloop.
  destruct c as [[]|t]; cbn [enter]; try done.
  destruct (m_is_alive (endpoint s)) eqn:Ha; cbn [andb]; [|done].
  rewrite (idle_NoScheduled _ _ _ _ (inv_queue _ _ _ _ _ _ _ _ Hp)).
  case_bool_decide as Hs; [|done]. eexists _, _. split; [done|]. exists sched, ho.
  by apply (update_inv _ _ i (Locking (CServe true)) _ _ (handled s)).
Qed.

Lemma thread_move_inv s i th :
  inv s → threads s !! i = Some th → (∀ b, th ≠ Returned b) → ∃ s', move s i = Some s' ∧ inv s'.
Proof.
  intros (sched & ho & Hp) Hi Hr. unfold move. rewrite Hi. cbn [mbind option_bind].
  assert (Hquiet : ∀ th' hd', holds th' = holds th →
    hd' ++ option_list (in_hand th') = handled s ++ option_list (in_hand th) →
    (∀ w p, th' ≠ Waiting (CServe w) p false) → (∀ c, th' ≠ WaitingFirst c false) →
    notifies th = false → (serves th = true → serves th' = true) →
    inv (mkSystem (endpoint s) (<[i := th']> (threads s)) (enqueued s) hd')).
  { intros th' hd' ?? Hw Hf Hn ?. exists sched, ho. eapply update_inv; try done.
    - intros c Hc. by destruct (Hf c).
    - by rewrite Hn. }
  assert (Hloud : ∀ th', holds th' = holds th → in_hand th' = in_hand th →
    (∀ w p, th' ≠ Waiting (CServe w) p false) → (∀ c, th' ≠ WaitingFirst c false) →
    notify th = th → (serves th = true → serves th' = true) →
    inv (mkSystem (endpoint s) (<[i := th']> (notify_all (threads s))) (enqueued s) (handled s))).
  { intros th' ? Hin ? Hf Hnot ?. exists sched, ho.
    eapply (update_inv _ _ i th _ _ (handled s)); try done.
    - by apply notify_all_inv.
    - unfold notify_all. rewrite lookup_fmap, Hi. cbn. by rewrite Hnot.
    - by rewrite Hin.
    - intros c Hc. by destruct (Hf c).
    - intros _. apply notify_all_notified. }
  destruct th as [c|c n|c p n|c x p|c x|c|p b| | |b]; try (eexists; split; [done|]).
  - destruct (enter_inv s i c sched ho Hp Hi) as (e' & th' & -> & Hinv). eauto.
  - destruct (loop_inv s i _ c false sched ho Hp Hi) as (e' & th' & -> & Hinv); eauto.
  - destruct (loop_inv s i _ c p sched ho Hp Hi) as (e' & th' & -> & Hinv); eauto.
  - destruct p; [by apply Hloud|by apply Hquiet].
  - apply Hquiet; try done. cbn. by rewrite app_nil_r.
  - destruct (after_loop (front_served (endpoint s)) (delete i (threads s)) i (enqueued s) (handled s)
                sched None c true) as (e' & th' & sched' & ho' & -> & Hp');
      [apply lookup_delete_eq|by eapply remove_holder_inv|].
    rewrite insert_delete_eq in Hp'. cbn [mbind option_bind]. eexists. split; [done|].
    by exists sched', ho'.
  - destruct p; [by apply Hloud|by apply Hquiet].
  - by apply Hloud.
  - by apply Hloud.
  - by destruct (Hr b).
Qed.

Lemma endpoint_step_inv s s' : inv s → sys_step s s' → inv s'.
Proof.
  intros Hinv Hstep. destruct Hstep as [s i c Hi|s i item s' Hi Hfresh He|s i Hi|s i s' Hm].
  - destruct Hinv as (sched & ho & Hp). exists sched, ho.
    eapply insert_inv; try done; try apply Hp; try tauto.
    intros Ha. right. split; [done|]. intros [?|?]; [by left|done].
  - destruct Hinv as (sched & ho & Hp). unfold Enqueue in He.
    destruct (m_is_alive (endpoint s)) eqn:Ha.
    + destruct (idle_enqueue _ _ _ _ item (inv_queue _ _ _ _ _ _ _ _ Hp) Hfresh) as (h & q & Hq & Hq').
      rewrite Hq in He. injection He as <-. exists (sched ++ [item]), ho.
      eapply insert_inv; try done; try (by right).
      cbn [enqueued handled]. rewrite (inv_items _ _ _ _ _ _ _ _ Hp) at 1. by rewrite <-!app_assoc.
    + injection He as <-. exists sched, ho. eapply insert_inv; try done; try apply Hp; tauto.
  - destruct Hinv as (sched & ho & Hp). exists sched, ho.
    eapply insert_inv; try done; try apply Hp; try (by right); by left.
  - destruct (threads s !! i) as [th|] eqn:Hi; [|by unfold move in Hm; rewrite Hi in Hm].
    destruct (thread_move_inv s i th Hinv Hi) as (s1 & Hm1 & Hinv1).
    + intros b ->. unfold move in Hm. by rewrite Hi in Hm.
    + congruence.
Qed.

Lemma start_inv : inv start.
Proof.
  exists [], None. split; try done.
  - apply empty_idle.
Qed.

Lemma endpoint_inv s : reachable s → inv s.
Proof.
  assert (Hall : ∀ s0, rtc sys_step s0 s → inv s0 → inv s).
  { intros s0 Hr. induction Hr; eauto using endpoint_step_inv. }
  intros Hr. apply (Hall start Hr), start_inv.
Qed.

(** ** Dead items *)

(** The queue links no started item as long as items come one by one. *)
Definition unlinked (e : Endpoint) (enq : list addr) : Prop :=
  ∃ sched, queued e enq sched ∧ length sched ≤ 1
    ∧ m_in_progress_head (m_queue e) = None ∧ dead_writes e = [].

Lemma ServeFront_unlinked e enq hd c pending e' th :
  unlinked e enq → NoScheduled (m_queue e) = false → ServeFront e hd c pending = Some (e', th) →
  unlinked e' enq.
Proof.
  intros (sched & Hq & Hl & Hhead & Hd) Hn. rewrite (idle_NoScheduled _ _ _ _ Hq) in Hn.
  destruct sched as [|x [|y sched]]; [done| |cbn in Hl; lia].
  destruct (idle_serve _ _ _ _ _ Hq) as (z & h & q & q' & Hs & Hp & Hq'). unfold ServeFront, linked_by_start.
  rewrite Hs, Hhead, Hd. cbn [mbind option_bind]. rewrite Hp. intros [= <- <-].
  exists []. split_and!; [done|cbn; lia| |done]. cbn. destruct Hq' as (seen & _ & Hr).
  by destruct (repr_idle _ _ _ _ _ Hr eq_refl) as [|(_ & ? & _)].
Qed.

Lemma loop_unlinked e enq hd c pending e' th :
  unlinked e enq → loop e hd c pending = Some (e', th) → unlinked e' enq.
Proof.
  intros Hu. unfold loop. destruct c as [w|t].
  - destruct (NoScheduled (m_queue e)) eqn:Hn; [by intros [= <- <-]|].
    case_match; [by intros [= <- <-]|]. by eapply ServeFront_unlinked.
  - case_match; [by intros [= <- <-]|]. destruct (NoScheduled (m_queue e)) eqn:Hn; [by intros [= <- <-]|].
    cbn [orb]. case_match; [by intros [= <- <-]|]. by eapply ServeFront_unlinked.
Qed.

Lemma move_unlinked s i s' :
  unlinked (endpoint s) (enqueued s) → move s i = Some s' → unlinked (endpoint s') (enqueued s').
Proof.
  intros Hu. unfold move. destruct (threads s !! i) as [th|]; [|done]. cbn [mbind option_bind].
  assert (Hloop : ∀ e c pending, unlinked e (enqueued s) →
    ('(e, th) ← loop e (handled s) c pending;
     Some (mkSystem e (<[i := th]> (threads s)) (enqueued s) (handled s))) = Some s' →
    unlinked (endpoint s') (enqueued s')).
  { intros e c pending He. destruct (loop e (handled s) c pending) as [[e' th']|] eqn:Hl; [|done].
    intros [= <-]. by eapply loop_unlinked. }
  destruct th as [c|c n|c p n|c x p|c x|c|p b| | |b]; try (by intros [= <-]); try (by destruct p; intros [= <-]).
  - unfold enter. destruct c as [[]|t]; [|by apply Hloop..]. case_match; [by intros [= <-]|by apply Hloop].
  - by apply Hloop.
  - by apply Hloop.
  - by apply Hloop.
Qed.

Lemma sparse_unlinked s : sparse s → unlinked (endpoint s) (enqueued s).
Proof.
  assert (Hall : ∀ s0, rtc sparse_step s0 s → unlinked (endpoint s0) (enqueued s0) → unlinked (endpoint s) (enqueued s)).
  { intros s0 Hr. induction Hr as [|s0 s1 s2 [Hstep Hone] _ IH]; [done|]. intros Hu. apply IH. clear IH.
    destruct Hstep as [s i c Hi|s i item s' Hi Hfresh He|s i Hi|s i s' Hm]; [done| |done|by eapply move_unlinked].
    unfold Enqueue in He. destruct (m_is_alive (endpoint s)); [|by injection He as <-].
    destruct Hu as (sched & Hq & _ & Hhead & Hd).
    destruct (idle_enqueue _ _ _ _ item Hq Hfresh) as (h & q & Hq1 & Hq').
    rewrite Hq1 in He. injection He as <-. cbn in Hone.
    rewrite (idle_NoScheduled _ _ _ _ Hq) in Hone.
    assert (sched = []) as ->.
    { eapply bool_decide_eq_true. apply Hone. intros E. apply (f_equal length) in E. rewrite length_app in E. cbn in E. lia. }
    exists [item]. split_and!; [done|cbn; lia| |done]. cbn.
    unfold ResolutionQueue.Enqueue in Hq1. destruct (m_scheduled_head (m_queue (endpoint s))); [|by injection Hq1 as _ <-].
    destruct (set_next _ _ _); [|done]. by injection Hq1 as _ <-. }
  intros Hr. apply (Hall start Hr). exists []. split_and!; [apply empty_idle|cbn; lia|done|done].
Qed.

(** ** Properties *)



(** ** Scripts *)

Inductive act := ACall (i : nat) (c : Call) | AEnqueue (i : nat) (item : addr) | ATerminate (i : nat) | AMove (i : nat).

Definition act_step (s : System) (a : act) : option System :=
  match a with
  | ACall i c =>
      check (bool_decide (threads s !! i = None));;
      Some (mkSystem (endpoint s) (<[i := Locking c]> (threads s)) (enqueued s) (handled s))
  | AEnqueue i item =>
      check (bool_decide (threads s !! i = None) && bool_decide (item ∉ enqueued s));; Enqueue s i item
  | ATerminate i => check (bool_decide (threads s !! i = None));; Some (Terminate s i)
  | AMove i => move s i
  end.

Fixpoint act_run (s : System) (l : list act) : option System :=
  match l with [] => Some s | a :: l => s ← act_step s a; act_run s l end.

Lemma act_step_sound s a s' : act_step s a = Some s' → sys_step s s'.
Proof.
  destruct a as [i c|i x|i|i]; cbn [act_step]; [| | |by apply StepMove].
  - case_bool_decide; [|done]. intros [= <-]. by apply StepCall.
  - case_bool_decide; [|done]. case_bool_decide; [|done]. by apply StepEnqueue.
  - case_bool_decide; [|done]. intros [= <-]. by apply StepTerminate.
Qed.

Lemma act_run_reachable l s : act_run start l = Some s → reachable s.
Proof.
  unfold reachable. generalize start. induction l as [|a l IH]; intros s0; cbn [act_run].
  - intros [= ->]. apply rtc_refl.
  - destruct (act_step s0 a) as [s1|] eqn:E; [|done]. intros Hr. eapply rtc_l; [by eapply act_step_sound|].
    by apply IH.
Qed.

(** [Join] may sleep through the end of what it waits for: thread 2 joins another
    coroutine and serves the item of thread 3 meanwhile; it then waits itself, and
    forgets the notification that it owes. *)
Definition join_script : list act :=
  [AEnqueue 1 5; AMove 1; ACall 2 (CJoin 9); ACall 3 (CJoin 5); AMove 2; AMove 3; AMove 2; AMove 2; AMove 2].

Theorem join_misses_wakeup :
  ∃ s, reachable s ∧ quiet s ∧ handled s = [5] ∧ threads s !! 3 = Some (Waiting (CJoin 5) false false).
Proof.
  destruct (act_run start join_script) as [s|] eqn:E; [|by vm_compute in E].
  exists s. split; [by eapply act_run_reachable|]. vm_compute in E. injection E as <-.
  split; [|by vm_compute]. apply map_Forall_to_list. vm_compute. repeat constructor.
Qed.

(** Two items in the queue: serving the second one writes to the first, which is
    dead. *)
Definition dead_script : list act :=
  [AEnqueue 1 5; AMove 1; AEnqueue 2 6; AMove 2; ACall 3 (CServe false); AMove 3; AMove 3; AMove 3; AMove 3].

Theorem second_item_writes_to_dead :
  ∃ s, reachable s ∧ handled s = [5] ∧ in_hand <$> threads s !! 3 = Some (Some 6)
    ∧ dead_writes (endpoint s) = [5].
Proof.
  destruct (act_run start dead_script) as [s|] eqn:E; [|by vm_compute in E].
  exists s. split; [by eapply act_run_reachable|]. vm_compute in E. injection E as <-. by vm_compute.
Qed.

(** ** Examples *)

(** Two items; thread 3 serves the first one while thread 4 waits, then the
    endpoint is terminated and everything runs to its end. *)
Definition serve_script : list act :=
  [AEnqueue 1 5; AMove 1; AEnqueue 2 6; AMove 2; ACall 3 (CServe true); AMove 3; AMove 3;
   ACall 4 (CServe false); AMove 4].

Definition terminate_script : list act :=
  serve_script ++ [ATerminate 7; AMove 7; AMove 3; AMove 3; AMove 3; AMove 3; AMove 3; AMove 3;
                   AMove 4; AMove 4; AMove 7; AMove 7].

Definition serving : System := default start (act_run start serve_script).
Definition terminated : System := default start (act_run start terminate_script).

Lemma scripted l : is_Some (act_run start l) → reachable (default start (act_run start l)).
Proof. intros [s Hs]. rewrite Hs. by apply (act_run_reachable l). Qed.


Lemma terminated_quiet : quiet terminated.
Proof. apply map_Forall_to_list. vm_compute. repeat constructor. Qed.

