(* ===== verification/Actions.v ===== *)
(** * Actions: identifiers, actions, their results and the causes of failures
    ([src/src/libedr/driver/UniqueIDs.hpp], [.../*Action.hpp], [.../Error.hpp],
    [.../AnyAction.hpp]).

    An action is its fields; a payload of bits or bytes is the list of them.
    Enumerations keep the numeric values that travel through the tunnel. *)
From S2P Require Import Prelude.
From stdpp Require Import strings.
Local Open Scope Z_scope.

(** ** Identifiers *)

Inductive DriverID := IDByteStream | IDJtag | IDExecutionGate | IDAPB | IDJtagChain | IDRVDTM.

#[export] Instance DriverID_eq_dec : EqDecision DriverID.
Proof. solve_decision. Defined.

(** [ALL_EDR_DRIVERS], in the order of the macro. *)
Definition ALL_EDR_DRIVERS : list DriverID :=
  [IDByteStream; IDJtag; IDExecutionGate; IDAPB; IDJtagChain; IDRVDTM].

Definition ActionOffset (d : DriverID) : Z :=
  match d with
  | IDByteStream => 0
  | IDJtag => 1000
  | IDExecutionGate => 2000
  | IDAPB => 3000
  | IDJtagChain => 4000
  | IDRVDTM => 5000
  end.

Inductive ActionID :=
| InvalidActionID | SkipCyclesID
| WriteBytesID | ReadBytesID
| PutTMSID | PutTDIID | PutTDIGetTDOID
| SetExecutionGateModeID
| APBWriteID | APBReadID | APBSetPSELID
| JCForgetChainStructureID | JCSetIRLengthID | JCGoToStateID | JCSelectTAPID
| JCWriteIRID | JCWriteDRID | JCShiftDRID
| RVWriteDMIID | RVReadDMIID.

#[export] Instance ActionID_eq_dec : EqDecision ActionID.
Proof. solve_decision. Defined.

Definition ActionIDValue (a : ActionID) : Z :=
  match a with
  | InvalidActionID => 0
  | SkipCyclesID => 1
  | WriteBytesID => 1 + ActionOffset IDByteStream
  | ReadBytesID => 2 + ActionOffset IDByteStream
  | PutTMSID => 1 + ActionOffset IDJtag
  | PutTDIID => 2 + ActionOffset IDJtag
  | PutTDIGetTDOID => 3 + ActionOffset IDJtag
  | SetExecutionGateModeID => 1 + ActionOffset IDExecutionGate
  | APBWriteID => 1 + ActionOffset IDAPB
  | APBReadID => 2 + ActionOffset IDAPB
  | APBSetPSELID => 3 + ActionOffset IDAPB
  | JCForgetChainStructureID => 1 + ActionOffset IDJtagChain
  | JCSetIRLengthID => 2 + ActionOffset IDJtagChain
  | JCGoToStateID => 3 + ActionOffset IDJtagChain
  | JCSelectTAPID => 4 + ActionOffset IDJtagChain
  | JCWriteIRID => 5 + ActionOffset IDJtagChain
  | JCWriteDRID => 6 + ActionOffset IDJtagChain
  | JCShiftDRID => 7 + ActionOffset IDJtagChain
  | RVWriteDMIID => 1 + ActionOffset IDRVDTM
  | RVReadDMIID => 2 + ActionOffset IDRVDTM
  end.

(** The options of the [Action<...>] alias of each driver, in its order. *)
Definition driver_actions (d : DriverID) : list ActionID :=
  match d with
  | IDByteStream => [WriteBytesID; ReadBytesID]
  | IDJtag => [PutTMSID; PutTDIID; PutTDIGetTDOID]
  | IDExecutionGate => [SetExecutionGateModeID]
  | IDAPB => [SkipCyclesID; APBWriteID; APBReadID; APBSetPSELID]
  | IDJtagChain =>
      [JCForgetChainStructureID; JCSetIRLengthID; JCGoToStateID; JCSelectTAPID;
       JCWriteIRID; JCWriteDRID; JCShiftDRID]
  | IDRVDTM => [RVWriteDMIID; RVReadDMIID; SkipCyclesID]
  end.

(** [AnyAction]: [JoinActions] appends the options of all the drivers. *)
Definition any_actions : list ActionID := ALL_EDR_DRIVERS ≫= driver_actions.

(** [VariantBase::Visit] runs the visitor for the first option whose
    discriminant is that of the object, [ForOption]. *)
Definition dispatch (options : list ActionID) (discriminant : Z) : option ActionID :=
  find (λ o, ActionIDValue o =? discriminant) options.

(** [ActionByDriver::ForID]. *)
Definition driver_of_value (id : Z) : option DriverID :=
  find (λ d, ActionOffset d =? id) ALL_EDR_DRIVERS.

(** ** Actions *)

Inductive ByteStreamAction :=
| WriteBytes (data : list Z)
| ReadBytes (size : nat).

Inductive JtagAction :=
| PutTMS (bits : list bool)
| PutTDI (bits : list bool) (last_tms : bool)
| PutTDIGetTDO (bits : list bool) (last_tms : bool).

(** The stall modes of the execution gate are given by number: any [uint32_t]
    may arrive from a client. *)
Inductive ExecutionGateAction :=
| SetExecutionGateMode (mode : Z).

Inductive APBAction :=
| APBSkipCycles (num_cycles : Z)
| APBWrite (address data : Z)
| APBRead (address : Z)
| APBSetPSEL (psel : Z).

(** The state of [JCGoToState] is given by number, as it may arrive from a
    client. *)
Inductive JtagChainAction :=
| JCForgetChainStructure
| JCSetIRLength (tap_id length : nat)
| JCGoToState (state : nat) (wait_there_cycles : nat)
| JCSelectTAP (tap_id : nat)
| JCWriteIR (value : Z)
| JCWriteDR (bits : list bool)
| JCShiftDR (bits : list bool).

Inductive RVDTMAction :=
| RVWriteDMI (address data : Z)
| RVReadDMI (address : Z)
| RVSkipCycles (num_cycles : Z).

Inductive AnyAction :=
| AnyByteStream (a : ByteStreamAction)
| AnyJtag (a : JtagAction)
| AnyExecutionGate (a : ExecutionGateAction)
| AnyAPB (a : APBAction)
| AnyJtagChain (a : JtagChainAction)
| AnyRVDTM (a : RVDTMAction).

(** ** Causes of failures *)

Inductive Cause :=
| CauseUnsupportedAction
| CauseAllocationFailure
| CauseStringMessage (message : string)
| CauseNestedError (error : option ActionError)
| CauseTerminated (entity : string)
| CauseErrno (function : string) (return_value errno_value : Z)
| CauseInvalidArgument (argument_name : string)
| CauseTimeoutInCycles (num_cycles : Z)
| CauseTargetError
| CauseInvalidJtagTapID (requested_id max_id : nat)
| CauseInvalidJtagState (state_id : nat)
| CauseUnstableJtagState (state : nat)
| CauseIRLengthTooBig (requested max_length : nat)
| CauseFailedToClearErrorFlag (flag_name : string) (stuck_value : Z)
| CauseInvalidVersion (component_name : string) (version : Z)
| CauseValueOutOfRange (value_name : string) (value min_value max_value : Z)
| CauseMaxLatencyReached (max_latency : Z)
with ActionError :=
| mkActionError (failed_action : option AnyAction) (cause : Cause).

Definition GetCause (e : ActionError) : Cause :=
  match e with mkActionError _ c => c end.

Definition FailedAction (e : ActionError) : option AnyAction :=
  match e with mkActionError a _ => a end.

(** [CauseID]: the discriminants of the causes. *)
Definition CauseIDValue (c : Cause) : Z :=
  match c with
  | CauseUnsupportedAction => 0
  | CauseAllocationFailure => 1
  | CauseStringMessage _ => 2
  | CauseNestedError _ => 3
  | CauseTerminated _ => 5
  | CauseErrno _ _ _ => 6
  | CauseInvalidArgument _ => 7
  | CauseTimeoutInCycles _ => 8
  | CauseTargetError => 9
  | CauseInvalidJtagTapID _ _ => 10
  | CauseInvalidJtagState _ => 11
  | CauseUnstableJtagState _ => 12
  | CauseIRLengthTooBig _ _ => 13
  | CauseFailedToClearErrorFlag _ _ => 14
  | CauseInvalidVersion _ _ => 15
  | CauseValueOutOfRange _ _ _ _ => 16
  | CauseMaxLatencyReached _ => 17
  end.

(** ** Characters as bytes *)

Definition string_bytes (s : string) : list Z :=
  (λ a, Z.of_nat (Ascii.nat_of_ascii a)) <$> String.list_ascii_of_string s.

Definition string_of_bytes (bytes : list Z) : string :=
  String.string_of_list_ascii ((λ b, Ascii.ascii_of_nat (Z.to_nat b)) <$> bytes).

Lemma string_of_string_bytes s : string_of_bytes (string_bytes s) = s.
Proof.
  unfold string_of_bytes, string_bytes. rewrite <-list_fmap_compose.
  rewrite (list_fmap_ext _ id), list_fmap_id; [apply String.string_of_list_ascii_of_string|].
  intros i a _. cbn. by rewrite Nat2Z.id, Ascii.ascii_nat_embedding.
Qed.

(** ** Properties *)

(** Inside of one driver every action is dispatched to its own handler;
    among all the actions together, as errors carry them, this holds for every
    action but [SkipCycles], whose number is also that of [WriteBytes]: a
    failed [SkipCycles] is taken for a [WriteBytes]. *)
Theorem dispatch_by_discriminant :
  (∀ d a, a ∈ driver_actions d → dispatch (driver_actions d) (ActionIDValue a) = Some a)
  ∧ (∀ a, a ∈ any_actions → a ≠ SkipCyclesID → dispatch any_actions (ActionIDValue a) = Some a)
  ∧ SkipCyclesID ∈ any_actions
  ∧ dispatch any_actions (ActionIDValue SkipCyclesID) = Some WriteBytesID.
Proof.
  split_and!.
  - intros d a Ha. destruct d; cbn in Ha; repeat (apply elem_of_cons in Ha as [->|Ha]; [reflexivity|]);
      by apply elem_of_nil in Ha.
  - intros a Ha Hs. vm_compute in Ha.
    repeat (apply elem_of_cons in Ha as [->|Ha]; [done || reflexivity|]). by apply elem_of_nil in Ha.
  - vm_compute. repeat constructor.
  - reflexivity.
Qed.
