(* ===== verification/Transaction.v ===== *)
(** * Transaction: builders, transactions in progress and their status
    ([src/src/libedr/driver/Driver.hpp], [DriverImpl.hpp]).

    The buffers of a transaction hold one entry per action; a position in them
    is the index of an action, the position of the end their number.  The
    errors of the library are built in buffers of their own; the model keeps
    the error itself. *)
From S2P Require Import Prelude Actions.

Section transaction.
Context {A O : Type}.

(** [TransactionStatus], of which [TransactionInProgress] is a view. *)
Record Tx := mkTx {
  ins : list A;
  outs : list O;
  had_allocation_failure : bool;
  m_first_incomplete : nat;
  m_error_buffer : option ActionError;
}.

(** [TransactionBuilder]: [Add] appends the action and its result. *)
Definition Add (b : list A * list O) (a : A) (o : O) : list A * list O :=
  (b.1 ++ [a], b.2 ++ [o]).

(** [TransactionStatus(TransactionBuilder &&)]. *)
Definition begin_tx (b : list A * list O) (had_failure : bool) : Tx :=
  {| ins := b.1; outs := b.2; had_allocation_failure := had_failure;
     m_first_incomplete := 0; m_error_buffer := None |}.

Definition End (tx : Tx) : nat := length (ins tx).

(** [TransactionStatus::operator bool]. *)
Definition status_ok (tx : Tx) : bool :=
  negb (had_allocation_failure tx) && (m_first_incomplete tx =? End tx)%nat.

(** [Iterator::operator++]. *)
Definition next_pos (tx : Tx) (pos : nat) : nat :=
  if (pos <? End tx)%nat then S pos else End tx.

Definition with_first_incomplete (tx : Tx) (pos : nat) : Tx :=
  {| ins := ins tx; outs := outs tx; had_allocation_failure := had_allocation_failure tx;
     m_first_incomplete := pos; m_error_buffer := m_error_buffer tx |}.

Definition Done (tx : Tx) (pos : nat) : Tx := with_first_incomplete tx (next_pos tx pos).

Definition Undo (tx : Tx) (pos : nat) : Tx := with_first_incomplete tx pos.

(** Writing the result of the action at [pos]. *)
Definition set_out (tx : Tx) (pos : nat) (o : O) : Tx :=
  {| ins := ins tx; outs := <[pos := o]> (outs tx);
     had_allocation_failure := had_allocation_failure tx;
     m_first_incomplete := m_first_incomplete tx; m_error_buffer := m_error_buffer tx |}.

(** [Incomplete()] and [Complete()]: the positions they range over. *)
Definition Incomplete (tx : Tx) : list nat :=
  seq (m_first_incomplete tx) (End tx - m_first_incomplete tx).

Definition Complete (tx : Tx) : list nat := seq 0 (m_first_incomplete tx).

Context (to_any : A → AnyAction).

(** A position past the last action has no action to blame. *)
Definition FailImpl (tx : Tx) (pos : nat) (cause : Cause) : Tx :=
  {| ins := ins tx; outs := outs tx; had_allocation_failure := had_allocation_failure tx;
     m_first_incomplete := m_first_incomplete tx;
     m_error_buffer := Some (mkActionError (to_any <$> ins tx !! pos) cause) |}.

Definition FailAt (tx : Tx) (pos : nat) (cause : Cause) : Tx := FailImpl tx pos cause.

Definition Fail (tx : Tx) (cause : Cause) : Tx :=
  if status_ok tx then tx else FailImpl tx (m_first_incomplete tx) cause.

(** [Fail] with a pointer to a cause: a lost cause leaves the transaction without an error. *)
Definition FailCause (tx : Tx) (cause : option Cause) : Tx :=
  match cause with
  | None => tx
  | Some c => Fail tx c
  end.

(** [Driver::Schedule] and [ScheduleAsync]: [decodable] says whether an action
    and its result can be extracted from the buffers, [execute] is the
    driver's [Execute].  A frame that cannot be allocated drops the
    transaction. *)
Fixpoint first_undecodable (decodable : A → bool) (l : list A) (pos : nat) : option nat :=
  match l with
  | [] => None
  | a :: l => if decodable a then first_undecodable decodable l (S pos) else Some pos
  end.

Definition Schedule {W : Type} (decodable : A → bool) (frame_allocated : bool)
    (execute : Tx → W → Tx * W) (tx : Tx) (w : W) : Tx * W :=
  if had_allocation_failure tx then (tx, w) else
  if status_ok tx then (tx, w) else
  match first_undecodable decodable (ins tx) 0 with
  | Some pos => (FailAt tx pos CauseUnsupportedAction, w)
  | None => if frame_allocated then execute tx w else (tx, w)
  end.
End transaction.

Arguments Tx : clear implicits.
Arguments mkTx {A O}.

(** ** Invariant *)

Section lemmas.
Context {A O : Type}.
Implicit Types (tx : Tx A O) (pos : nat).

(** The boundary lies in the transaction. *)
Definition tx_wf tx : Prop := m_first_incomplete tx ≤ End tx.

Lemma Done_wf tx pos : tx_wf (Done tx pos).
Proof. unfold tx_wf, Done, next_pos, End; simpl. destruct (Nat.ltb_spec pos (length (ins tx))); lia. Qed.

Lemma Done_here tx pos a :
  ins tx !! pos = Some a → m_first_incomplete (Done tx pos) = S pos.
Proof.
  intros Ha. apply lookup_lt_Some in Ha. unfold Done, next_pos, End. cbn [m_first_incomplete with_first_incomplete].
  destruct (Nat.ltb_spec pos (length (ins tx))); [done|lia].
Qed.

Lemma Done_ins tx pos : ins (Done tx pos) = ins tx.
Proof. done. Qed.

Lemma Fail_keeps to_any tx c :
  m_first_incomplete (Fail to_any tx c) = m_first_incomplete tx
  ∧ ins (Fail to_any tx c) = ins tx ∧ outs (Fail to_any tx c) = outs tx
  ∧ status_ok (Fail to_any tx c) = status_ok tx.
Proof. unfold Fail. by destruct (status_ok tx) eqn:E. Qed.

Lemma Fail_records to_any tx c :
  status_ok tx = false →
  ∃ a, m_error_buffer (Fail to_any tx c) = Some (mkActionError a c).
Proof. intros E. unfold Fail. rewrite E. by eexists. Qed.

Lemma first_undecodable_spec (d : A → bool) l pos :
  match first_undecodable d l pos with
  | None => Forall (λ a, d a = true) l
  | Some p => ∃ a, l !! (p - pos) = Some a ∧ d a = false ∧ pos ≤ p < pos + length l
      ∧ Forall (λ a, d a = true) (take (p - pos) l)
  end.
Proof.
  revert pos. induction l as [|a l IH]; intros pos; cbn [first_undecodable]; [constructor|].
  destruct (d a) eqn:Hd.
  - specialize (IH (S pos)). destruct (first_undecodable d l (S pos)) as [p|].
    + destruct IH as (b & Hb & Hdb & Hr & Hall). exists b.
      replace (p - pos) with (S (p - S pos)) by lia. cbn [lookup list_lookup take length].
      split_and!; [done|done|lia|lia|by constructor].
    + by constructor.
  - exists a. rewrite Nat.sub_diag. simpl. split_and!; [done|done|lia|lia|constructor].
Qed.
End lemmas.

#[export] Hint Resolve Done_wf : edr.

(** [Schedule] hands a transaction to the driver only if every action can
    be decoded; an empty one succeeds at once, and one with an action that
    cannot be decoded fails with the first such action to blame and nothing
    executed. *)
Theorem Schedule_outcome {A O W : Type} (to_any : A → AnyAction) (decodable : A → bool)
    (execute : Tx A O → W → Tx A O * W) (b : list A * list O) (w : W) :
  let tx := begin_tx b false in
  (b.1 = [] → Schedule to_any decodable true execute tx w = (tx, w) ∧ status_ok tx = true)
  ∧ (b.1 ≠ [] → Forall (λ a, decodable a = true) b.1 →
       Schedule to_any decodable true execute tx w = execute tx w)
  ∧ (∀ pre a post, b.1 = pre ++ a :: post → Forall (λ a, decodable a = true) pre →
       decodable a = false →
       ∃ tx', Schedule to_any decodable true execute tx w = (tx', w)
         ∧ status_ok tx' = false ∧ Complete tx' = []
         ∧ m_error_buffer tx' = Some (mkActionError (Some (to_any a)) CauseUnsupportedAction)).
Proof.
  intros tx. destruct b as [i o]. simpl in *.
  assert (Hok : status_ok tx = bool_decide (i = [])).
  { unfold status_ok, End; simpl. destruct i; [done|]. symmetry. by apply bool_decide_eq_false_2. }
  split_and!.
  - intros ->. unfold Schedule; simpl. done.
  - intros Hne Hall. unfold Schedule. rewrite Hok, bool_decide_eq_false_2 by done. simpl.
    pose proof (first_undecodable_spec decodable i 0) as Hs.
    destruct (first_undecodable decodable i 0) as [p|]; [|done].
    destruct Hs as (a & Ha & Hd & _). rewrite Forall_lookup in Hall.
    apply Hall in Ha. congruence.
  - intros pre a post -> Hpre Ha. unfold Schedule.
    rewrite Hok, bool_decide_eq_false_2 by (by destruct pre). simpl.
    assert (Hf : first_undecodable decodable (pre ++ a :: post) 0 = Some (length pre)).
    { clear -Hpre Ha. change (Some (length pre)) with (Some (0 + length pre)).
      generalize 0. induction Hpre as [|x pre Hx Hpre IH]; intros n; cbn.
      - rewrite Ha. f_equal. lia.
      - rewrite Hx, IH. f_equal. lia. }
    rewrite Hf. eexists; split; [done|]. split_and!; [|done|].
    + unfold status_ok, FailAt, FailImpl, End; simpl. by destruct pre.
    + simpl. rewrite lookup_app_r, Nat.sub_diag by done. done.
Qed.
