(* ===== verification/JtagTap.v ===== *)
(** * JtagTap: the state machine of a test access port and the table of TMS
    sequences ([src/src/libedr/driver/jtag/JtagChain.cpp], first part, and the
    states of [JtagChainAction.hpp]). *)
From S2P Require Import Prelude.

Inductive JCState :=
| TestLogicReset | RunTestIdle
| SelectDR | CaptureDR | ShiftDR | Exit1DR | PauseDR | Exit2DR | UpdateDR
| SelectIR | CaptureIR | ShiftIR | Exit1IR | PauseIR | Exit2IR | UpdateIR
| Unknown.

#[export] Instance JCState_eq_dec : EqDecision JCState.
Proof. solve_decision. Defined.

Definition JCStateID (s : JCState) : nat :=
  match s with
  | TestLogicReset => 0 | RunTestIdle => 1
  | SelectDR => 2 | CaptureDR => 3 | ShiftDR => 4 | Exit1DR => 5
  | PauseDR => 6 | Exit2DR => 7 | UpdateDR => 8
  | SelectIR => 9 | CaptureIR => 10 | ShiftIR => 11 | Exit1IR => 12
  | PauseIR => 13 | Exit2IR => 14 | UpdateIR => 15
  | Unknown => 16
  end.

(** The states with a number below that of [Unknown], by number. *)
Definition tap_states : list JCState :=
  [TestLogicReset; RunTestIdle;
   SelectDR; CaptureDR; ShiftDR; Exit1DR; PauseDR; Exit2DR; UpdateDR;
   SelectIR; CaptureIR; ShiftIR; Exit1IR; PauseIR; Exit2IR; UpdateIR].

(** The successors on TMS = 0 and on TMS = 1. *)
Definition g_jc_steps : list (JCState * JCState) :=
  [ (RunTestIdle, TestLogicReset);
    (RunTestIdle, SelectDR);
    (CaptureDR, SelectIR);
    (ShiftDR, Exit1DR);
    (ShiftDR, Exit1DR);
    (PauseDR, UpdateDR);
    (PauseDR, Exit2DR);
    (ShiftDR, UpdateDR);
    (RunTestIdle, SelectDR);
    (CaptureIR, TestLogicReset);
    (ShiftIR, Exit1IR);
    (ShiftIR, Exit1IR);
    (PauseIR, UpdateIR);
    (PauseIR, Exit2IR);
    (ShiftIR, UpdateIR);
    (RunTestIdle, SelectDR) ].

Definition g_zeros : Z := 0.
Definition g_ones : Z := 0xFFFFFFFFFFFFFFFF.
Definition g_unstable : Z := 0xCCCCCCCC.

Definition g_waiting_sequences : list Z :=
  [ g_ones; g_zeros;
    g_unstable; g_unstable; g_zeros; g_unstable; g_zeros; g_unstable; g_unstable;
    g_unstable; g_unstable; g_zeros; g_unstable; g_zeros; g_unstable; g_unstable ].

Record JCTransition := mkTransition { tr_bits : Z; tr_num_bits : Z }.

(** [JCTransition{}]. *)
Definition no_transition : JCTransition := mkTransition 0 (2 ^ 32 - 1).

Abbreviation JCTransitions := (list (list JCTransition)).

(** [transitions[origin][current] = t]. *)
Definition set_transition (tr : JCTransitions) (origin current : JCState) (t : JCTransition)
    : JCTransitions :=
  alter (λ row, <[JCStateID current := t]> row) (JCStateID origin) tr.

(** The recursion of the code, cut off after [fuel] nested calls. *)
Fixpoint ComputeTransitionsImpl (fuel : nat) (tr : JCTransitions) (origin current : JCState)
    (bits num_bits : Z) : option JCTransitions :=
  match fuel with
  | O => None
  | S fuel =>
      row ← tr !! JCStateID origin;
      transition ← row !! JCStateID current;
      if (tr_num_bits transition <? num_bits)%Z then Some tr else
      let tr := set_transition tr origin current (mkTransition bits num_bits) in
      '(on0, on1) ← g_jc_steps !! JCStateID current;
      tr ← ComputeTransitionsImpl fuel tr origin on0 bits u32[num_bits + 1];
      ComputeTransitionsImpl fuel tr origin on1
        (Z.lor bits u32[Z.shiftl 1 num_bits]) u32[num_bits + 1]
  end.

(** Depth of the recursion: a path visits a state again only to return, and
    there are sixteen states. *)
Definition transition_fuel : nat := 18.

Definition ComputeTransitions : option JCTransitions :=
  foldl (λ acc s, tr ← acc; ComputeTransitionsImpl transition_fuel tr s s 0 0)
    (Some (replicate 16 (replicate 16 no_transition))) tap_states.

Definition g_jc_transitions : JCTransitions := default [] ComputeTransitions.

(** [g_jc_transitions[from][to]]; indexing with [Unknown] is out of range. *)
Definition get_transition (from to : JCState) : option JCTransition :=
  row ← g_jc_transitions !! JCStateID from;
  row !! JCStateID to.

(** ** Semantics: a port driven by TMS *)

Definition tap_step (s : JCState) (tms : bool) : JCState :=
  match g_jc_steps !! JCStateID s with
  | Some (on0, on1) => if tms then on1 else on0
  | None => Unknown
  end.

Definition tap_run (s : JCState) (tms : list bool) : JCState := foldl tap_step s tms.

(** The TMS bits of a table entry. *)
Definition tms_of (t : JCTransition) : list bool := zbits (Z.to_nat (tr_num_bits t)) (tr_bits t).

(** ** Properties of the table *)

Lemma tap_states_complete s : s ≠ Unknown → s ∈ tap_states.
Proof. intros. destruct s; first [done|vm_compute; repeat constructor]. Qed.

Lemma tap_step_known s b : s ≠ Unknown → tap_step s b ≠ Unknown.
Proof. by destruct s, b. Qed.

Lemma tap_run_app s l1 l2 : tap_run s (l1 ++ l2) = tap_run (tap_run s l1) l2.
Proof. apply foldl_app. Qed.

(** A finite check over pairs of states. *)
Definition check_pairs (P : JCState → JCState → bool) : bool :=
  forallb (λ s, forallb (P s) tap_states) tap_states.

Lemma check_pairs_spec P s t :
  check_pairs P = true → s ≠ Unknown → t ≠ Unknown → P s t = true.
Proof.
  unfold check_pairs. rewrite forallb_forall. intros Hc Hs Ht.
  specialize (Hc s). rewrite forallb_forall in Hc. apply Hc.
  - apply list_elem_of_In. by apply tap_states_complete.
  - apply list_elem_of_In. by apply tap_states_complete.
Qed.

(** The length of the table's sequence. *)
Definition distance (s t : JCState) : nat :=
  match get_transition s t with
  | Some tr => Z.to_nat (tr_num_bits tr)
  | None => 0
  end.

#[global] Arguments distance : simpl never.
#[global] Arguments get_transition : simpl never.
#[global] Arguments g_jc_transitions : simpl never.
#[global] Arguments tap_step : simpl never.

Lemma distance_step s t b :
  s ≠ Unknown → t ≠ Unknown → distance s t ≤ S (distance (tap_step s b) t).
Proof.
  intros Hs Ht.
  assert (Hc : check_pairs (λ s t,
    forallb (λ b, (distance s t <=? S (distance (tap_step s b) t))%nat) [true; false]) = true)
    by (vm_compute; reflexivity).
  pose proof (check_pairs_spec _ s t Hc Hs Ht) as Hb. rewrite forallb_forall in Hb.
  apply Nat.leb_le, Hb. destruct b; simpl; auto.
Qed.

Lemma distance_refl s : s ≠ Unknown → distance s s = 0.
Proof. intros. destruct s; first [done|vm_compute; reflexivity]. Qed.

Lemma get_transition_run s t :
  s ≠ Unknown → t ≠ Unknown →
  ∃ tr, get_transition s t = Some tr
    ∧ tap_run s (tms_of tr) = t ∧ length (tms_of tr) = distance s t ∧ distance s t ≤ 8.
Proof.
  intros Hs Ht.
  assert (Hc : check_pairs (λ s t, match get_transition s t with
      | Some tr => bool_decide (tap_run s (tms_of tr) = t) && (distance s t <=? 8)%nat
      | None => false end) = true) by (vm_compute; reflexivity).
  pose proof (check_pairs_spec _ s t Hc Hs Ht) as Hb. cbv beta in Hb.
  destruct (get_transition s t) as [tr|] eqn:E; [|done].
  apply andb_true_iff in Hb as [Hr Hd]. apply bool_decide_eq_true in Hr. bool_to_prop.
  exists tr. split_and!; [done|done| |done].
  unfold tms_of, distance. by rewrite length_zbits, E.
Qed.

(** C39: the recursion that fills the table terminates within the given depth,
    and every entry is a shortest TMS sequence from its row to its column, of
    at most eight bits. *)
Theorem transitions_shortest (s t : JCState) (Hs : s ≠ Unknown) (Ht : t ≠ Unknown) :
  is_Some ComputeTransitions
  ∧ ∃ tr, get_transition s t = Some tr
      ∧ tap_run s (tms_of tr) = t
      ∧ length (tms_of tr) ≤ 8
      ∧ ∀ tms, tap_run s tms = t → length (tms_of tr) ≤ length tms.
Proof.
  split; [by vm_compute; eexists|].
  destruct (get_transition_run s t Hs Ht) as (tr & Hg & Hr & Hl & Hd).
  exists tr. rewrite Hl. split_and!; [done..|].
  intros tms. clear tr Hg Hr Hl Hd. revert s Hs. induction tms as [|b tms IH]; intros s Hs Hrun.
  - cbn in Hrun. subst. rewrite distance_refl by done. done.
  - cbn in Hrun. pose proof (distance_step s t b Hs Ht).
    specialize (IH (tap_step s b) (tap_step_known s b Hs) Hrun). simpl. lia.
Qed.

Lemma waiting_sequence_sound s :
  s ≠ Unknown →
  ∃ w, g_waiting_sequences !! JCStateID s = Some w
    ∧ (w = g_unstable ↔ ∀ b, tap_step s b ≠ s)
    ∧ (w ≠ g_unstable → ∀ n, n ≤ 64 → tap_run s (zbits n w) = s).
Proof.
  intros Hs.
  assert (Hhold : ∀ b w, (∀ i, i < 64 → Z.testbit w (Z.of_nat i) = b) → tap_step s b = s →
    ∀ n, n ≤ 64 → tap_run s (zbits n w) = s).
  { intros b w Hw Hb n. induction n as [|n IH]; intros Hn; [done|].
    rewrite zbits_S, tap_run_app, IH, Hw by lia. done. }
  assert (Hones : ∀ i, i < 64 → Z.testbit g_ones (Z.of_nat i) = true).
  { intros i Hi. change g_ones with (Z.ones 64). apply Z.ones_spec_low. lia. }
  assert (Hzeros : ∀ i, i < 64 → Z.testbit g_zeros (Z.of_nat i) = false).
  { intros i _. apply Z.testbit_0_l. }
  destruct s; try done; (eexists; split; [reflexivity|]);
    (split; [split; [intros H; try discriminate H; by intros []
                    | intros H; first [reflexivity
                        | exfalso; apply (H true); reflexivity
                        | exfalso; apply (H false); reflexivity]]
            | intros H; first [done
                | apply (Hhold false); [exact Hzeros|reflexivity]
                | apply (Hhold true); [exact Hones|reflexivity]]]).
Qed.

Lemma reset_reaches s : s ≠ Unknown → tap_run s (replicate 5 true) = TestLogicReset.
Proof. intros Hs. destruct s; first [done|reflexivity]. Qed.

(** Waiting is sound: a state has a waiting sequence exactly if TMS can
    hold it, and any part of the sequence holds it; five ones reach
    [TestLogicReset] from anywhere. *)
Theorem waiting_and_reset_sound (s : JCState) (Hs : s ≠ Unknown) :
  (∃ w, g_waiting_sequences !! JCStateID s = Some w
     ∧ (w = g_unstable ↔ ∀ b, tap_step s b ≠ s)
     ∧ (w ≠ g_unstable → ∀ n, n ≤ 64 → tap_run s (zbits n w) = s))
  ∧ tap_run s (replicate 5 true) = TestLogicReset.
Proof. split; [by apply waiting_sequence_sound|by apply reset_reaches]. Qed.

Lemma transitions_shortest_witness :
  is_Some ComputeTransitions
  ∧ ∃ tr, get_transition TestLogicReset ShiftIR = Some tr
      ∧ tap_run TestLogicReset (tms_of tr) = ShiftIR
      ∧ length (tms_of tr) ≤ 8
      ∧ ∀ tms, tap_run TestLogicReset tms = ShiftIR → length (tms_of tr) ≤ length tms.
Proof. apply (transitions_shortest TestLogicReset ShiftIR); discriminate. Defined.

Lemma waiting_and_reset_sound_witness :
  (∃ w, g_waiting_sequences !! JCStateID PauseDR = Some w
     ∧ (w = g_unstable ↔ ∀ b, tap_step PauseDR b ≠ PauseDR)
     ∧ (w ≠ g_unstable → ∀ n, n ≤ 64 → tap_run PauseDR (zbits n w) = PauseDR))
  ∧ tap_run PauseDR (replicate 5 true) = TestLogicReset.
Proof. apply (waiting_and_reset_sound PauseDR). discriminate. Defined.
