(* ===== verification/JtagChain.v ===== *)
(** * JtagChain: scans through a chain of test access ports
    ([src/src/libedr/driver/jtag/JtagChain.cpp], second part, [JtagChain.h]).

    [Execute] runs a [Visitor] twice over the actions of a transaction: first it
    translates them to actions of the underlying JTAG driver, then, when that
    driver is done, it walks over its results to complete them.  Both runs are
    the same code with a builder or a status to work on, [mode].

    The 64-bit buffer of pending TMS bits is the list of the bits written to it,
    and the reserved space of a [PutTDI] is filled through the write position
    [dest]; both are the abstraction that [BitStream] justifies.  [m_total_tdi]
    wraps at 32 bits and the [num_bits] of a scan at 31.  [None] is a failed
    [assert], an index out of range or a null dereference.  The builder has memory
    for the actions: the missing [dest] of a scan that could not be allocated, which
    the code does not look for, is left out. *)
From S2P Require Import Prelude Actions Transaction JtagTap.

(** ** State *)

Definition g_max_num_taps : nat := 256.
Definition g_max_ir_length : nat := 32.
Definition g_max_tms_bits : nat := 64.

Record SingleIR := mkSingleIR { si_tap_id : nat; si_ir_value : Z }.

#[export] Instance SingleIR_eq_dec : EqDecision SingleIR.
Proof. solve_decision. Defined.

Record ChainState := mkChainState {
  cs_state : JCState;
  cs_selected_tap : nat;
  cs_last_written_single_ir : option SingleIR;
}.

(** The members of [JtagChainImpl]. *)
Record Chain := mkChain {
  m_state : ChainState;
  m_ir_lengths : list nat;
  m_num_taps : nat;
}.

Definition initial_chain : Chain :=
  {| m_state := mkChainState Unknown 0 None;
     m_ir_lengths := 1 :: replicate 255 0;
     m_num_taps := 1 |}.

(** Results of the actions of both drivers. *)
Inductive JtagOut :=
| PutOut (num_put : nat)
| PutGetOut (num_put : nat) (tdo : list bool).

Inductive JCOut :=
| JCDone
| JCShiftOut (num_bits : nat) (bits : list bool).

Abbreviation JCTx := (Tx JtagChainAction JCOut).

(** What the visitor works on: the builder of the JTAG transaction, or the
    completed JTAG actions that it has not consumed yet and the error of the
    JTAG transaction. *)
Inductive mode :=
| Building (jbuilder : list JtagAction)
| Completing (jcomplete : list (JtagAction * JtagOut)) (jerror : option ActionError).

Record Visitor := mkVisitor {
  m_chain : Chain;
  m_ctx : JCTx;
  m_mode : mode;
  v_state : ChainState;
  m_tms : list bool;
  m_selected_tap_on_first_tdi_sit : nat;
  m_first_tdi_sit : option nat;
  m_current_tdi_operation : ActionID;
  m_last_tdied_tap : nat;
  m_total_tdi : nat;
  m_maybe_single_ir : option SingleIR;
}.

Definition new_visitor (chain : Chain) (ctx : JCTx) (md : mode) (st : ChainState) : Visitor :=
  {| m_chain := chain; m_ctx := ctx; m_mode := md; v_state := st; m_tms := [];
     m_selected_tap_on_first_tdi_sit := 0; m_first_tdi_sit := None;
     m_current_tdi_operation := InvalidActionID; m_last_tdied_tap := 0; m_total_tdi := 0;
     m_maybe_single_ir := None |}.

(** Updates of single members. *)
Section updates.
Context (v : Visitor).

Definition set_chain c := mkVisitor c (m_ctx v) (m_mode v) (v_state v) (m_tms v)
  (m_selected_tap_on_first_tdi_sit v) (m_first_tdi_sit v) (m_current_tdi_operation v)
  (m_last_tdied_tap v) (m_total_tdi v) (m_maybe_single_ir v).
Definition set_ctx c := mkVisitor (m_chain v) c (m_mode v) (v_state v) (m_tms v)
  (m_selected_tap_on_first_tdi_sit v) (m_first_tdi_sit v) (m_current_tdi_operation v)
  (m_last_tdied_tap v) (m_total_tdi v) (m_maybe_single_ir v).
Definition set_mode md tms := mkVisitor (m_chain v) (m_ctx v) md (v_state v) tms
  (m_selected_tap_on_first_tdi_sit v) (m_first_tdi_sit v) (m_current_tdi_operation v)
  (m_last_tdied_tap v) (m_total_tdi v) (m_maybe_single_ir v).
Definition set_state st tms := mkVisitor (m_chain v) (m_ctx v) (m_mode v) st tms
  (m_selected_tap_on_first_tdi_sit v) (m_first_tdi_sit v) (m_current_tdi_operation v)
  (m_last_tdied_tap v) (m_total_tdi v) (m_maybe_single_ir v).
Definition set_tdi sel first op last total single := mkVisitor (m_chain v) (m_ctx v)
  (m_mode v) (v_state v) (m_tms v) sel first op last total single.
Definition clear_tdi := set_tdi (m_selected_tap_on_first_tdi_sit v) None InvalidActionID
  (m_last_tdied_tap v) (m_total_tdi v) (m_maybe_single_ir v).
End updates.

(** [if (!r) return false;] before the rest of a handler. *)
Definition and_then (r : option (bool * Visitor)) (k : Visitor → option (bool * Visitor))
    : option (bool * Visitor) :=
  match r with
  | Some (true, v) => k v
  | _ => r
  end.

Notation "'let+' v := r 'in' k" := (and_then r (λ v, k))
  (at level 10, v name, r at level 100, k at level 200) : edr_scope.

Definition is_building (v : Visitor) : bool :=
  match m_mode v with Building _ => true | Completing _ _ => false end.

Definition to_any : JtagChainAction → AnyAction := AnyJtagChain.

(** [if (nullptr == m_jbuilder) m_ctx.Done(sit);] *)
Definition done_if_completing (v : Visitor) (sit : nat) : Visitor :=
  if is_building v then v else set_ctx v (Done (m_ctx v) sit).

(** ** TMS *)

Definition tms_room (v : Visitor) : nat := g_max_tms_bits - length (m_tms v).

Definition FlushTMS (v : Visitor) : option (bool * Visitor) :=
  if (length (m_tms v) =? 0)%nat then Some (true, v) else
  match m_mode v with
  | Building jb => Some (true, set_mode v (Building (jb ++ [PutTMS (m_tms v)])) [])
  | Completing [] err => Some (false, set_ctx v (Fail to_any (m_ctx v) (CauseNestedError err)))
  | Completing (_ :: js) err => Some (true, set_mode v (Completing js err) [])
  end.

Definition with_state (st : ChainState) (s : JCState) : ChainState :=
  mkChainState s (cs_selected_tap st) (cs_last_written_single_ir st).

Definition GoToState (v : Visitor) (s : JCState) : option (bool * Visitor) :=
  transition ← get_transition (cs_state (v_state v)) s;
  let num_bits := Z.to_nat (tr_num_bits transition) in
  let+ v := if (tms_room v <? num_bits)%nat then FlushTMS v else Some (true, v) in
  check (num_bits <=? tms_room v)%nat;;
  Some (true, set_state v (with_state (v_state v) s) (m_tms v ++ tms_of transition)).

Fixpoint WaitLoop (fuel : nat) (v : Visitor) (waiting_sequence : Z) (to_wait : nat)
    : option (bool * Visitor) :=
  match fuel with
  | O => None
  | S fuel =>
      if (to_wait =? 0)%nat then Some (true, v) else
      let+ v := if (tms_room v =? 0)%nat then FlushTMS v else Some (true, v) in
      let this_time := Nat.min to_wait (tms_room v) in
      WaitLoop fuel (set_state v (v_state v) (m_tms v ++ zbits this_time waiting_sequence))
        waiting_sequence (to_wait - this_time)
  end.

(** ** TDI *)

(** [uint32_t m_total_tdi], and the [num_bits : 31] of a scan. *)
Definition total32 (n : nat) : nat := Z.to_nat u32[Z.of_nat n].
Definition num_bits31 (n : nat) : nat := Z.to_nat (wrap 31 (Z.of_nat n)).

(** [dest->Write]: bits that do not fit the reserved space are dropped. *)
Definition dest_write (total : nat) (written bits : list bool) : list bool :=
  written ++ take (total - length written) bits.

(** [while (last != selected) { Write(g_ones, lengths[last]); last--; }] *)
Fixpoint write_ones_down (fuel total : nat) (lengths : list nat) (written : list bool)
    (last selected : nat) : option (list bool) :=
  if (last =? selected)%nat then Some written else
  match fuel with
  | O => None
  | S fuel =>
      len ← lengths !! last;
      write_ones_down fuel total lengths (dest_write total written (zbits len g_ones))
        (last - 1) selected
  end.

(** [while (last-- > 0) Write(g_ones, lengths[last]);] *)
Fixpoint write_ones_rest (total : nat) (lengths : list nat) (written : list bool) (last : nat)
    : option (list bool) :=
  match last with
  | O => Some written
  | S l =>
      len ← lengths !! l;
      write_ones_rest total lengths (dest_write total written (zbits len g_ones)) l
  end.

(** [last != selected ? last - 1 - selected : 0], on [unsigned]. *)
Definition zeros_before (last selected : nat) : Z :=
  if (last =? selected)%nat then 0 else u32[Z.of_nat last - 1 - Z.of_nat selected].

(** One action of the group that is being flushed: the selected TAP, the last
    TAP shifted and what is written so far. *)
Definition fill_one (op : ActionID) (total : nat) (lengths : list nat)
    (acc : nat * nat * list bool) (a : JtagChainAction) : option (nat * nat * list bool) :=
  let '(selected, last, written) := acc in
  match a with
  | JCSelectTAP t => Some (t, last, written)
  | _ =>
      if decide (op = JCWriteIRID) then
        match a with
        | JCWriteIR value =>
            check (0 <? last)%nat;;
            written ← write_ones_down last total lengths written (last - 1) selected;
            len ← lengths !! selected;
            check (len <=? 32)%nat;;
            Some (selected, selected, dest_write total written (zbits len value))
        | _ => None
        end
      else
        match a with
        | JCWriteDR source | JCShiftDR source =>
            let zeros := Z.to_nat (Z.min (zeros_before last selected) (Z.of_nat total)) in
            let written := dest_write total written (replicate zeros false) in
            Some (selected, selected, dest_write total written source)
        | _ => None
        end
  end.

Fixpoint fill_all (op : ActionID) (total : nat) (lengths : list nat)
    (acc : nat * nat * list bool) (group : list JtagChainAction)
    : option (nat * nat * list bool) :=
  match group with
  | [] => Some acc
  | a :: group =>
      acc ← fill_one op total lengths acc a;
      fill_all op total lengths acc group
  end.

(** The actions from the first one of the group up to [send]. *)
Definition group_of (tx : JCTx) (first send : nat) : list JtagChainAction :=
  take (send - first) (drop first (ins tx)).

(** What is in reserved memory that has not been written. *)
Class Uninit := uninit_bits : nat → list bool.

Section visitor.
Context `{Uninit}.

Definition FlushBuild (v : Visitor) (jb : list JtagAction) (first send : nat)
    : option (bool * Visitor) :=
  let op := m_current_tdi_operation v in
  let total := num_bits31 (m_total_tdi v) in
  let lengths := m_ir_lengths (m_chain v) in
  '(_, last, written) ← fill_all op total lengths
    (m_selected_tap_on_first_tdi_sit v, m_num_taps (m_chain v), [])
    (group_of (m_ctx v) first send);
  written ← (if decide (op = JCWriteIRID)
             then write_ones_rest total lengths written last
             else Some (dest_write total written (replicate last false)));
  let bits := written ++ drop (length written) (uninit_bits total) in
  let action := if decide (op = JCShiftDRID) then PutTDIGetTDO bits true
                else PutTDI bits true in
  Some (true, set_mode v (Building (jb ++ [action])) (m_tms v)).

(** One action of the group while completing: the results of a [JCShiftDR]
    are taken from the TDO bits. *)
Definition complete_one (acc : nat * nat * option (list bool) * JCTx) (sit : nat)
    : option (nat * nat * option (list bool) * JCTx) :=
  let '(selected, last, tdo, tx) := acc in
  a ← ins tx !! sit;
  match a with
  | JCSelectTAP t => Some (t, last, tdo, Done tx sit)
  | JCShiftDR bits =>
      bits_out ← tdo;
      let to_skip := Z.to_nat
        (Z.min (zeros_before last selected) (Z.of_nat (length bits_out))) in
      let rest := drop to_skip bits_out in
      let n := length bits in
      let old := match outs tx !! sit with Some (JCShiftOut _ o) => o | _ => [] end in
      let tx := set_out tx sit (JCShiftOut n (take n rest ++ drop (length (take n rest)) old)) in
      Some (selected, selected, Some (drop n rest), Done tx sit)
  | _ => Some (selected, selected, tdo, Done tx sit)
  end.

Fixpoint complete_all (acc : nat * nat * option (list bool) * JCTx) (sits : list nat)
    : option (nat * nat * option (list bool) * JCTx) :=
  match sits with
  | [] => Some acc
  | sit :: sits => acc ← complete_one acc sit; complete_all acc sits
  end.

Definition FlushComplete (v : Visitor) (js : list (JtagAction * JtagOut))
    (err : option ActionError) (first send : nat) : option (bool * Visitor) :=
  match js with
  | [] =>
      let ctx := Undo (m_ctx v) first in
      Some (false, set_ctx v (Fail to_any ctx (CauseNestedError err)))
  | (_, jout) :: js =>
      let tdo := match jout with PutGetOut num_put bits => Some (take num_put bits)
                 | PutOut _ => None end in
      '(_, _, _, tx) ← complete_all
        (m_selected_tap_on_first_tdi_sit v, m_num_taps (m_chain v), tdo, m_ctx v)
        (seq first (send - first));
      Some (true, set_ctx (set_mode v (Completing js err) (m_tms v)) tx)
  end.

Definition FlushTDI (v : Visitor) (send : nat) : option (bool * Visitor) :=
  if decide (m_current_tdi_operation v = InvalidActionID) then Some (true, v) else
  first ← m_first_tdi_sit v;
  let writing_ir := bool_decide (m_current_tdi_operation v = JCWriteIRID) in
  if writing_ir
     && bool_decide (m_maybe_single_ir v = cs_last_written_single_ir (v_state v))
  then
    let ctx := if is_building v then m_ctx v
               else foldl Done (m_ctx v) (seq first (send - first)) in
    Some (true, clear_tdi (set_ctx v ctx))
  else
    let+ v := GoToState v (if writing_ir then ShiftIR else ShiftDR) in
    let+ v := FlushTMS v in
    let+ v := (match m_mode v with
               | Building jb => FlushBuild v jb first send
               | Completing js err => FlushComplete v js err first send
               end) in
    let st := v_state v in
    let st := mkChainState
      (if decide (cs_state st = ShiftIR) then Exit1IR else Exit1DR)
      (cs_selected_tap st) (m_maybe_single_ir v) in
    Some (true, clear_tdi (set_state v st (m_tms v))).

(** ** The handlers of the actions *)

Definition VisitForget (v : Visitor) (sit : nat) : option (bool * Visitor) :=
  let+ v := FlushTDI v sit in
  let c := m_chain v in
  let v := if is_building v
    then set_chain v
           {| m_state := mkChainState (cs_state (m_state c)) 0
                           (cs_last_written_single_ir (m_state c));
              m_ir_lengths := <[0 := 1]> (m_ir_lengths c);
              m_num_taps := 1 |}
    else v in
  let st := v_state v in
  let v := set_state v (mkChainState (cs_state st) 0 (cs_last_written_single_ir st)) (m_tms v) in
  Some (true, done_if_completing v sit).

(** [for (i = num_taps; i < tap_id; i++) lengths[i] = 1;] *)
Definition fill_lengths (lengths : list nat) (num_taps tap_id : nat) : list nat :=
  foldl (λ l i, <[i := 1]> l) lengths (seq num_taps (tap_id - num_taps)).

Definition VisitSetIRLength (v : Visitor) (tap_id len sit : nat) : option (bool * Visitor) :=
  if (g_max_ir_length <? len)%nat
  then Some (false, set_ctx v (FailAt to_any (m_ctx v) sit
                                 (CauseIRLengthTooBig len g_max_ir_length)))
  else
    let+ v := FlushTDI v sit in
    if (g_max_num_taps <=? tap_id)%nat
    then Some (false, set_ctx v (FailAt to_any (m_ctx v) sit
                                   (CauseInvalidJtagTapID tap_id (g_max_num_taps - 1))))
    else
      let c := m_chain v in
      let v := if is_building v
        then set_chain v
               {| m_state := m_state c;
                  m_ir_lengths :=
                    <[tap_id := len]> (fill_lengths (m_ir_lengths c) (m_num_taps c) tap_id);
                  m_num_taps := tap_id + 1 |}
        else v in
      Some (true, done_if_completing v sit).

Definition VisitGoToState (v : Visitor) (state wait sit : nat) : option (bool * Visitor) :=
  let+ v := FlushTDI v sit in
  check (bool_decide (cs_state (v_state v) ≠ Unknown));;
  match tap_states !! state with
  | None => Some (false, set_ctx v (FailAt to_any (m_ctx v) sit (CauseInvalidJtagState state)))
  | Some s =>
      let+ v := GoToState v s in
      waiting_sequence ← g_waiting_sequences !! JCStateID (cs_state (v_state v));
      if negb (wait =? 0)%nat && bool_decide (waiting_sequence = g_unstable)
      then Some (false, set_ctx v (FailAt to_any (m_ctx v) sit (CauseUnstableJtagState state)))
      else
        let+ v := WaitLoop (S wait) v waiting_sequence wait in
        Some (true, done_if_completing v sit)
  end.

Definition VisitSelectTAP (v : Visitor) (tap_id sit : nat) : option (bool * Visitor) :=
  if (m_num_taps (m_chain v) <=? tap_id)%nat
  then Some (false, set_ctx v (FailAt to_any (m_ctx v) sit
                                 (CauseInvalidJtagTapID tap_id (m_num_taps (m_chain v)))))
  else
    let st := v_state v in
    let v := set_state v (mkChainState (cs_state st) tap_id (cs_last_written_single_ir st))
               (m_tms v) in
    Some (true, done_if_completing v sit).

(** [while (last != selected) { last--; total += lengths[last]; }] *)
Fixpoint count_ir (fuel : nat) (lengths : list nat) (last selected total : nat) : option nat :=
  if (last =? selected)%nat then Some total else
  match fuel with
  | O => None
  | S fuel =>
      len ← lengths !! (last - 1);
      count_ir fuel lengths (last - 1) selected (total32 (total + len))
  end.

Definition VisitWriteIR (v : Visitor) (value : Z) (sit : nat) : option (bool * Visitor) :=
  let op := m_current_tdi_operation v in
  let selected := cs_selected_tap (v_state v) in
  let need_to_flush_tdi :=
    bool_decide (op ≠ InvalidActionID) && bool_decide (op ≠ JCWriteIRID)
    || bool_decide (op = JCWriteIRID) && (m_last_tdied_tap v <=? selected)%nat in
  let+ v := if need_to_flush_tdi then FlushTDI v sit else Some (true, v) in
  check (selected <? m_num_taps (m_chain v))%nat;;
  let v := if decide (m_current_tdi_operation v = InvalidActionID)
    then set_tdi v selected (Some sit) JCWriteIRID (m_num_taps (m_chain v)) 0
           (Some (mkSingleIR selected value))
    else set_tdi v (m_selected_tap_on_first_tdi_sit v) (m_first_tdi_sit v)
           (m_current_tdi_operation v) (m_last_tdied_tap v) (m_total_tdi v) None in
  total ← count_ir (m_last_tdied_tap v) (m_ir_lengths (m_chain v))
    (m_last_tdied_tap v) selected (m_total_tdi v);
  Some (true, set_tdi v (m_selected_tap_on_first_tdi_sit v) (m_first_tdi_sit v)
                (m_current_tdi_operation v) selected total (m_maybe_single_ir v)).

(** [JCWriteDR] and [JCShiftDR], which share one template. *)
Definition VisitDR (v : Visitor) (id : ActionID) (bits : list bool) (sit : nat)
    : option (bool * Visitor) :=
  let op := m_current_tdi_operation v in
  let selected := cs_selected_tap (v_state v) in
  let need_to_flush_tdi :=
    bool_decide (op ≠ InvalidActionID) && bool_decide (op ≠ id)
    || bool_decide (op = id) && (m_last_tdied_tap v <? selected)%nat in
  let+ v := if need_to_flush_tdi then FlushTDI v sit else Some (true, v) in
  check (selected <? m_num_taps (m_chain v))%nat;;
  let v := if decide (m_current_tdi_operation v = InvalidActionID)
    then set_tdi v selected (Some sit) id (m_num_taps (m_chain v)) 0 (m_maybe_single_ir v)
    else v in
  let bypassed := if (m_last_tdied_tap v =? selected)%nat then 0
                  else m_last_tdied_tap v - 1 - selected in
  let total := total32 (m_total_tdi v + bypassed + length bits) in
  Some (true, set_tdi v (m_selected_tap_on_first_tdi_sit v) (m_first_tdi_sit v)
                (m_current_tdi_operation v) selected total (m_maybe_single_ir v)).

Definition Visit (v : Visitor) (sit : nat) (a : JtagChainAction) : option (bool * Visitor) :=
  match a with
  | JCForgetChainStructure => VisitForget v sit
  | JCSetIRLength tap_id len => VisitSetIRLength v tap_id len sit
  | JCGoToState state wait => VisitGoToState v state wait sit
  | JCSelectTAP tap_id => VisitSelectTAP v tap_id sit
  | JCWriteIR value => VisitWriteIR v value sit
  | JCWriteDR bits => VisitDR v JCWriteDRID bits sit
  | JCShiftDR bits => VisitDR v JCShiftDRID bits sit
  end.

(** The loop over the actions and the final flushes. *)
Fixpoint VisitAll (v : Visitor) (sit : nat) (actions : list JtagChainAction)
    : option (bool * Visitor) :=
  match actions with
  | [] => let+ v := FlushTDI v sit in FlushTMS v
  | a :: actions => let+ v := Visit v sit a in VisitAll v (S sit) actions
  end.

(** ** [Execute], up to and after the wait for the JTAG driver *)

Inductive begun :=
| Rejected (tx : JCTx) (chain : Chain)
| Scheduled (tx : JCTx) (chain : Chain) (old_state : ChainState) (jtag : list JtagAction).

Definition reset_sequence : list JtagAction := [PutTMS (zbits 5 31)].

Definition ExecuteBegin (chain : Chain) (tx : JCTx) : option begun :=
  let old_state := m_state chain in
  let '(jb, new_state) :=
    if decide (cs_state old_state = Unknown)
    then (reset_sequence, with_state old_state TestLogicReset)
    else ([], old_state) in
  '(ok, v) ← VisitAll (new_visitor chain tx (Building jb) new_state)
    (m_first_incomplete tx) (drop (m_first_incomplete tx) (ins tx));
  if (ok : bool) then
    jb ← (match m_mode v with Building jb => Some jb | Completing _ _ => None end);
    let c := m_chain v in
    Some (Scheduled (m_ctx v)
            {| m_state := v_state v; m_ir_lengths := m_ir_lengths c; m_num_taps := m_num_taps c |}
            old_state jb)
  else Some (Rejected (m_ctx v) (m_chain v)).

(** [first] is where the incomplete actions began before the transaction was
    scheduled; [chain] is the state of the driver when the wait is over. *)
Definition ExecuteEnd (chain : Chain) (tx : JCTx) (first : nat) (old_state : ChainState)
    (jcomplete : list (JtagAction * JtagOut)) (jerror : option ActionError)
    : option (JCTx * Chain) :=
  let lost c := {| m_state := with_state (m_state c) Unknown;
                   m_ir_lengths := m_ir_lengths c; m_num_taps := m_num_taps c |} in
  let run jcomplete old_state :=
    '(ok, v) ← VisitAll (new_visitor chain tx (Completing jcomplete jerror) old_state)
      first (drop first (ins tx));
    Some (m_ctx v, if (ok : bool) then m_chain v else lost (m_chain v)) in
  if decide (cs_state old_state = Unknown) then
    match jcomplete with
    | [] => Some (Fail to_any tx (CauseNestedError jerror), lost chain)
    | _ :: jcomplete => run jcomplete (with_state old_state TestLogicReset)
    end
  else run jcomplete old_state.
End visitor.

(** ** Semantics of the JTAG actions *)

(** The TMS bits an action clocks out: TDI bits go with TMS low, except for the
    last one when [last_tms] is set. *)
Definition tms_sequence (a : JtagAction) : list bool :=
  match a with
  | PutTMS bits => bits
  | PutTDI bits last_tms | PutTDIGetTDO bits last_tms =>
      match length bits with
      | O => []
      | S n => replicate n false ++ [last_tms]
      end
  end.

Definition tms_sequences (l : list JtagAction) : list bool := l ≫= tms_sequence.

Lemma tms_sequences_app l1 l2 :
  tms_sequences (l1 ++ l2) = tms_sequences l1 ++ tms_sequences l2.
Proof. apply bind_app. Qed.

(** ** The bits of a scan *)

(** Ones for the TAPs from [selected + 1] up to [last], the highest first. *)
Definition ones_img (lens : list nat) (last selected : nat) : list bool :=
  concat (reverse ((λ len, zbits len g_ones) <$> take (last - selected) (drop (S selected) lens))).

Lemma sum_list_take_S (l : list nat) n x :
  l !! n = Some x → sum_list (take (S n) l) = sum_list (take n l) + x.
Proof.
  intros Hx. rewrite (take_S_r _ _ x) by done.
  rewrite sum_list_with_app. simpl. unfold id. lia.
Qed.

Lemma length_concat_reverse_zbits (l : list nat) :
  length (concat (reverse ((λ len, zbits len g_ones) <$> l))) = sum_list l.
Proof.
  induction l as [|x l IH]; [done|]. rewrite fmap_cons, reverse_cons, concat_app, length_app, IH.
  simpl. rewrite app_nil_r, length_zbits. unfold id. lia.
Qed.

Lemma length_ones_img lens last selected :
  length (ones_img lens last selected) = sum_list (take (last - selected) (drop (S selected) lens)).
Proof. apply length_concat_reverse_zbits. Qed.

Lemma ones_img_S lens last selected len :
  selected ≤ last → lens !! S last = Some len →
  ones_img lens (S last) selected = zbits len g_ones ++ ones_img lens last selected.
Proof.
  intros Hle Hl. unfold ones_img. replace (S last - selected) with (S (last - selected)) by lia.
  rewrite (take_S_r _ _ len), fmap_app, reverse_app.
  - simpl. done.
  - rewrite lookup_drop. by replace (S selected + (last - selected)) with (S last) by lia.
Qed.

Lemma dest_write_fits total w bits :
  length w + length bits ≤ total → dest_write total w bits = w ++ bits.
Proof. intros. unfold dest_write. by rewrite take_ge by lia. Qed.

Lemma dest_write_full total w bits :
  length w = total → dest_write total w bits = w.
Proof. intros <-. unfold dest_write. by rewrite Nat.sub_diag, take_0, app_nil_r. Qed.

Lemma write_ones_down_spec fuel total lens w last selected :
  selected ≤ last → last - selected ≤ fuel → last < length lens →
  length w + length (ones_img lens last selected) ≤ total →
  write_ones_down fuel total lens w last selected = Some (w ++ ones_img lens last selected).
Proof.
  revert w last. induction fuel as [|fuel IH]; intros w last Hle Hf Hlen Ht; cbn [write_ones_down];
    destruct (Nat.eqb_spec last selected) as [->|Hne];
    try (unfold ones_img; rewrite Nat.sub_diag; simpl; by rewrite app_nil_r); [lia|].
  destruct last as [|last]; [lia|].
  destruct (lookup_lt_is_Some_2 lens (S last)) as [len Hl]; [done|].
  rewrite (ones_img_S lens last selected len) in Ht |- * by (done || lia).
  rewrite length_app, length_zbits in Ht. rewrite Hl. cbn [mbind option_bind].
  rewrite dest_write_fits by (rewrite length_zbits; lia).
  replace (S last - 1) with last by lia.
  rewrite IH by (rewrite ?length_app, ?length_zbits; lia). by rewrite app_assoc.
Qed.

Lemma total32_small n : (Z.of_nat n < 2 ^ 32)%Z → total32 n = n.
Proof. intros Hn. unfold total32. rewrite wrap_small by (simpl; lia). apply Nat2Z.id. Qed.

Lemma num_bits31_small n : (Z.of_nat n < 2 ^ 31)%Z → num_bits31 n = n.
Proof. intros Hn. unfold num_bits31. rewrite wrap_small by (simpl; lia). apply Nat2Z.id. Qed.

Lemma count_ir_total fuel lens last selected total :
  selected ≤ last → last - selected ≤ fuel → last ≤ length lens →
  is_Some (count_ir fuel lens last selected total).
Proof.
  revert last total. induction fuel as [|fuel IH]; intros last total Hle Hf Hlen;
    cbn [count_ir]; destruct (Nat.eqb_spec last selected) as [->|Hne]; try (by eexists); [lia|].
  destruct (lookup_lt_is_Some_2 lens (last - 1)) as [len ->]; [lia|]. cbn [mbind option_bind]. apply IH; lia.
Qed.

Lemma count_ir_spec fuel lens last selected total :
  selected ≤ last → last - selected ≤ fuel → last ≤ length lens →
  (Z.of_nat (total + sum_list (take (last - selected) (drop selected lens))) < 2 ^ 32)%Z →
  count_ir fuel lens last selected total =
    Some (total + sum_list (take (last - selected) (drop selected lens))).
Proof.
  revert last total. induction fuel as [|fuel IH]; intros last total Hle Hf Hlen Hb;
    cbn [count_ir]; destruct (Nat.eqb_spec last selected) as [->|Hne];
    try (rewrite Nat.sub_diag; simpl; f_equal; lia); [lia|].
  destruct last as [|last]; [lia|]. replace (S last - 1) with last by lia.
  destruct (lookup_lt_is_Some_2 lens last) as [len Hl]; [lia|]. rewrite Hl.
  replace (S last - selected) with (S (last - selected)) in * by lia.
  rewrite (sum_list_take_S (drop selected lens) (last - selected) len) in *
    by (rewrite lookup_drop; by replace (selected + (last - selected)) with last by lia).
  cbn [mbind option_bind]. rewrite total32_small by lia. rewrite IH by lia. f_equal. lia.
Qed.

Lemma write_ones_rest_full total lens w last :
  length w = total → last ≤ length lens → write_ones_rest total lens w last = Some w.
Proof.
  intros Hw. induction last as [|last IH]; intros Hl; [done|]. cbn [write_ones_rest].
  destruct (lookup_lt_is_Some_2 lens last) as [len ->]; [lia|]. cbn [mbind option_bind].
  rewrite dest_write_full by done. apply IH. lia.
Qed.

Lemma fill_all_app op total lens acc g1 g2 :
  fill_all op total lens acc (g1 ++ g2) =
  (acc ← fill_all op total lens acc g1; fill_all op total lens acc g2).
Proof.
  revert acc. induction g1 as [|a g1 IH]; intros acc; cbn [fill_all app]; [done|].
  destruct (fill_one op total lens acc a) as [acc'|]; cbn [mbind option_bind]; [apply IH|done].
Qed.

Lemma zeros_before_small last selected :
  selected ≤ last → last ≤ 256 →
  zeros_before last selected =
    Z.of_nat (if (last =? selected)%nat then 0 else last - 1 - selected).
Proof.
  intros. unfold zeros_before. destruct (Nat.eqb_spec last selected); [done|].
  rewrite wrap_small by (simpl; lia). lia.
Qed.

(** What a [JCWriteIR] and a scan of a data register add to the image. *)
Definition ir_img (lens : list nat) (last selected len : nat) (value : Z) : list bool :=
  ones_img lens (last - 1) selected ++ zbits len value.

Lemma length_ir_img lens last selected len value :
  selected < last → lens !! selected = Some len →
  length (ir_img lens last selected len value)
    = sum_list (take (last - selected) (drop selected lens)).
Proof.
  intros Hlt Hlen. unfold ir_img. rewrite length_app, length_ones_img, length_zbits.
  rewrite (drop_S lens len selected) by done.
  replace (last - selected) with (S (last - 1 - selected)) by lia. simpl. unfold id. lia.
Qed.

Lemma fill_one_ir total lens last selected w value len :
  selected < last → last ≤ length lens → lens !! selected = Some len → len ≤ 32 →
  length w + length (ir_img lens last selected len value) ≤ total →
  fill_one JCWriteIRID total lens (selected, last, w) (JCWriteIR value) =
    Some (selected, selected, w ++ ir_img lens last selected len value).
Proof.
  intros Hlt Hll Hlen H32. unfold ir_img. rewrite length_app, length_zbits. intros Ht. unfold fill_one.
  rewrite decide_True by done. destruct (Nat.ltb_spec 0 last); [|lia]. cbn [check mbind option_bind].
  rewrite write_ones_down_spec by lia. cbn [mbind option_bind]. rewrite Hlen. cbn [mbind option_bind].
  destruct (Nat.leb_spec len 32); [|lia]. cbn [check mbind option_bind].
  rewrite dest_write_fits by (rewrite length_app, length_zbits; lia). by rewrite app_assoc.
Qed.

Lemma fill_one_dr op total lens last selected w bits a :
  op ≠ JCWriteIRID → a = JCWriteDR bits ∨ a = JCShiftDR bits →
  selected ≤ last → last ≤ 256 →
  let bypassed := if (last =? selected)%nat then 0 else last - 1 - selected in
  length w + bypassed + length bits ≤ total →
  fill_one op total lens (selected, last, w) a =
    Some (selected, selected, w ++ replicate bypassed false ++ bits).
Proof.
  intros Hop Ha Hle H256 bypassed Ht. unfold fill_one. rewrite decide_False by done.
  rewrite zeros_before_small by done. fold bypassed.
  replace (Z.to_nat (Z.of_nat bypassed `min` Z.of_nat total)) with bypassed by lia.
  rewrite (dest_write_fits total w) by (rewrite length_replicate; lia).
  destruct Ha as [->| ->]; rewrite dest_write_fits
    by (rewrite length_app, length_replicate; lia); by rewrite app_assoc.
Qed.

(** Reading the members of an updated visitor. *)
Ltac vcbn := cbn [new_visitor set_tdi set_state set_mode set_ctx set_chain clear_tdi
  m_chain m_ctx m_mode v_state m_tms m_selected_tap_on_first_tdi_sit m_first_tdi_sit
  m_current_tdi_operation m_last_tdied_tap m_total_tdi m_maybe_single_ir
  cs_state cs_selected_tap cs_last_written_single_ir and_then check mbind option_bind].

(** ** Soundness of the translation *)

(** The lengths of the registered TAPs are usable. *)
Record chain_ok (c : Chain) : Prop := {
  chain_ok_array : length (m_ir_lengths c) = g_max_num_taps;
  chain_ok_taps : m_num_taps c ≤ g_max_num_taps;
  chain_ok_lengths : ∀ i, i < m_num_taps c →
    ∃ len, m_ir_lengths c !! i = Some len ∧ 0 < len ≤ g_max_ir_length;
}.

(** No action of the list scans an empty register or drops the selected TAP. *)
Fixpoint plan_ok (selected num_taps : nat) (actions : list JtagChainAction) : bool :=
  match actions with
  | [] => true
  | JCForgetChainStructure :: rest => plan_ok 0 1 rest
  | JCSetIRLength t len :: rest =>
      (g_max_ir_length <? len)%nat || (g_max_num_taps <=? t)%nat
      || (0 <? len)%nat && (selected <=? t)%nat && plan_ok selected (t + 1) rest
  | JCGoToState _ _ :: rest | JCWriteIR _ :: rest => plan_ok selected num_taps rest
  | JCSelectTAP t :: rest => (num_taps <=? t)%nat || plan_ok t num_taps rest
  | JCWriteDR bits :: rest | JCShiftDR bits :: rest =>
      negb (length bits =? 0)%nat && plan_ok selected num_taps rest
  end.

(** The bits of the data register scans of a list of actions. *)
Definition dr_bits (actions : list JtagChainAction) : nat :=
  sum_list_with (λ a, match a with JCWriteDR bits | JCShiftDR bits => length bits | _ => 0 end) actions.

(** ... which together with a register of 32 bits in each of 256 TAPs fit one scan. *)
Definition bits_ok (actions : list JtagChainAction) : Prop := 
  (Z.of_nat (dr_bits actions + g_max_ir_length * g_max_num_taps) < 2 ^ 31)%Z.

Lemma dr_bits_drop n l : dr_bits (drop n l) ≤ dr_bits l.
Proof.
  unfold dr_bits. rewrite <-(take_drop n l) at 2. rewrite sum_list_with_app. lia.
Qed.

Lemma dr_bits_at l n a : l !! n = Some a → dr_bits (drop n l) = dr_bits [a] + dr_bits (drop (S n) l).
Proof. intros Ha. rewrite (drop_S _ a) by done. unfold dr_bits. cbn. lia. Qed.

Lemma sum_lengths c n k :
  chain_ok c → n + k ≤ m_num_taps c → sum_list (take k (drop n (m_ir_lengths c))) ≤ g_max_ir_length * k.
Proof.
  intros [Harr Htaps Hlens]. revert n. induction k as [|k IH]; intros n Hn; [rewrite take_0; simpl; lia|].
  destruct (Hlens n) as (len & Hl & _ & H32); [lia|]. rewrite (drop_S _ len) by done. cbn [take sum_list_with].
  specialize (IH (S n) ltac:(lia)). unfold g_max_ir_length, sum_list, id in *. lia.
Qed.

Section soundness.
Context `{Uninit} (uninit_length : ∀ n, length (uninit_bits n) = n).
(** The state the port is really in when the transaction starts. *)
Context (s0 : JCState).

(** The group of scans that is being collected: replaying it fills exactly
    the counted bits and ends with the selected and the last TAP. *)
Definition tdi_open (v : Visitor) (sit : nat) : Prop :=
  ∃ first img,
    m_first_tdi_sit v = Some first ∧ first ≤ sit
    ∧ (m_current_tdi_operation v = JCWriteIRID ∨ m_current_tdi_operation v = JCWriteDRID
       ∨ m_current_tdi_operation v = JCShiftDRID)
    ∧ length img = m_total_tdi v
    ∧ m_last_tdied_tap v ≤ m_num_taps (m_chain v)
    ∧ ∀ T, m_total_tdi v ≤ T →
        fill_all (m_current_tdi_operation v) T (m_ir_lengths (m_chain v))
          (m_selected_tap_on_first_tdi_sit v, m_num_taps (m_chain v), [])
          (group_of (m_ctx v) first sit)
        = Some (cs_selected_tap (v_state v), m_last_tdied_tap v, img).

(** The counted bits, those that the rest of the actions can add, and ones for the
    TAPs that are left. *)
Definition tdi_room (v : Visitor) (sit : nat) : Prop :=
  m_total_tdi v + g_max_ir_length * m_last_tdied_tap v + dr_bits (drop sit (ins (m_ctx v)))
  ≤ dr_bits (ins (m_ctx v)) + g_max_ir_length * g_max_num_taps.

Definition tdi_ok (v : Visitor) (sit : nat) : Prop :=
  m_current_tdi_operation v = InvalidActionID ∨ 0 < m_total_tdi v ∧ tdi_room v sit ∧ tdi_open v sit.

(** What is emitted so far brings the port to the tracked state. *)
Record inv (v : Visitor) (sit : nat) : Prop := {
  inv_mode : ∃ jb, m_mode v = Building jb
    ∧ tap_run s0 (tms_sequences jb ++ m_tms v) = cs_state (v_state v);
  inv_known : cs_state (v_state v) ≠ Unknown;
  inv_tms : length (m_tms v) ≤ g_max_tms_bits;
  inv_chain : chain_ok (m_chain v);
  inv_selected : cs_selected_tap (v_state v) < m_num_taps (m_chain v);
  inv_tdi : tdi_ok v sit;
  inv_bits : bits_ok (ins (m_ctx v));
}.

Lemma FlushTMS_build v jb :
  m_mode v = Building jb →
  ∃ jb', FlushTMS v = Some (true, set_mode v (Building jb') [])
    ∧ tms_sequences jb' = tms_sequences jb ++ m_tms v.
Proof.
  intros Hm. unfold FlushTMS. rewrite Hm. destruct (Nat.eqb_spec (length (m_tms v)) 0) as [Hl|Hl].
  - apply length_zero_iff_nil in Hl. exists jb. rewrite Hl, app_nil_r. split; [|done].
    rewrite <-Hm, <-Hl. by destruct v.
  - eexists; split; [done|]. rewrite tms_sequences_app. f_equal.
    unfold tms_sequences. cbn. by rewrite app_nil_r.
Qed.

(** A visitor with other output, pending TMS bits and state. *)
Definition upd (v : Visitor) (jb : list JtagAction) (tms : list bool) (st : ChainState) : Visitor :=
  set_state (set_mode v (Building jb) tms) st tms.

Lemma upd_id v jb : m_mode v = Building jb → upd v jb (m_tms v) (v_state v) = v.
Proof. intros Hm. unfold upd, set_state, set_mode; simpl. rewrite <-Hm. by destruct v. Qed.

(** Making room for [n] pending bits. *)
Lemma make_room_build v jb (b : bool) :
  m_mode v = Building jb →
  ∃ jb' tms', (if b then FlushTMS v else Some (true, v))
      = Some (true, upd v jb' tms' (v_state v))
    ∧ tms_sequences jb' ++ tms' = tms_sequences jb ++ m_tms v
    ∧ tms' = (if b then [] else m_tms v).
Proof.
  intros Hm. destruct b.
  - destruct (FlushTMS_build v jb Hm) as (jb' & -> & Hs).
    exists jb', []. split_and!; [done| |done]. by rewrite app_nil_r.
  - exists jb, (m_tms v). rewrite upd_id by done. done.
Qed.

Lemma GoToState_build v jb s :
  m_mode v = Building jb →
  tap_run s0 (tms_sequences jb ++ m_tms v) = cs_state (v_state v) →
  cs_state (v_state v) ≠ Unknown → s ≠ Unknown → length (m_tms v) ≤ g_max_tms_bits →
  ∃ jb' tms', GoToState v s = Some (true, upd v jb' tms' (with_state (v_state v) s))
    ∧ tap_run s0 (tms_sequences jb' ++ tms') = s ∧ length tms' ≤ g_max_tms_bits.
Proof.
  intros Hm Hrun Hk Hs Hl. unfold GoToState.
  destruct (get_transition_run _ _ Hk Hs) as (tr & -> & Htr & Hlen & H8).
  cbn [mbind option_bind]. unfold tms_of in Hlen. rewrite length_zbits in Hlen. rewrite Hlen.
  destruct (make_room_build v jb (tms_room v <? distance (cs_state (v_state v)) s)%nat Hm)
    as (jb1 & tms1 & -> & Hseq & Htms). cbn [and_then].
  assert (Hroom : distance (cs_state (v_state v)) s ≤ tms_room (upd v jb1 tms1 (v_state v))).
  { unfold tms_room in *; simpl. rewrite Htms. unfold g_max_tms_bits in *.
    destruct (Nat.ltb_spec (64 - length (m_tms v)) (distance (cs_state (v_state v)) s)); simpl; lia. }
  destruct (Nat.leb_spec (distance (cs_state (v_state v)) s)
    (tms_room (upd v jb1 tms1 (v_state v)))); [|lia].
  cbn [check mbind option_bind].
  exists jb1, (tms1 ++ tms_of tr). split_and!.
  - unfold upd, set_state, set_mode. simpl. reflexivity.
  - by rewrite app_assoc, tap_run_app, Hseq, Hrun.
  - rewrite length_app. unfold tms_of. rewrite length_zbits, Hlen.
    assert (length tms1 ≤ g_max_tms_bits).
    { rewrite Htms. destruct (tms_room v <? _)%nat; [simpl; lia|done]. }
    unfold tms_room in Hroom. change (m_tms (upd v jb1 tms1 (v_state v))) with tms1 in Hroom. lia.
Qed.

Lemma WaitLoop_build fuel v jb w n :
  n < fuel → m_mode v = Building jb →
  tap_run s0 (tms_sequences jb ++ m_tms v) = cs_state (v_state v) →
  length (m_tms v) ≤ g_max_tms_bits →
  (n ≠ 0 → ∀ k, k ≤ 64 → tap_run (cs_state (v_state v)) (zbits k w) = cs_state (v_state v)) →
  ∃ jb' tms', WaitLoop fuel v w n = Some (true, upd v jb' tms' (v_state v))
    ∧ tap_run s0 (tms_sequences jb' ++ tms') = cs_state (v_state v)
    ∧ length tms' ≤ g_max_tms_bits.
Proof.
  revert v jb n. induction fuel as [|fuel IH]; intros v jb n Hf Hm Hrun Hl Hhold; [lia|].
  cbn [WaitLoop]. destruct (Nat.eqb_spec n 0) as [->|Hn].
  { exists jb, (m_tms v). rewrite upd_id by done. done. }
  destruct (make_room_build v jb (tms_room v =? 0)%nat Hm) as (jb1 & tms1 & -> & Hseq & Htms).
  cbn [and_then]. set (t := n `min` tms_room (upd v jb1 tms1 (v_state v))).
  assert (Hroom : 0 < tms_room (upd v jb1 tms1 (v_state v)) ≤ 64).
  { unfold tms_room, g_max_tms_bits in *; simpl. rewrite Htms.
    destruct (Nat.eqb_spec (64 - length (m_tms v)) 0); simpl; lia. }
  set (v1 := set_state _ _ _).
  destruct (IH v1 jb1 (n - t)) as (jb' & tms' & -> & Hrun' & Hl'); [lia|done| | | |].
  - unfold v1, upd; simpl. rewrite app_assoc, tap_run_app, Hseq, Hrun.
    apply Hhold; [done|lia].
  - unfold v1, upd; simpl. rewrite length_app, length_zbits.
    unfold tms_room in Hroom, t; simpl in Hroom, t. unfold t, g_max_tms_bits in *. simpl. lia.
  - intros _. apply Hhold. done.
  - by exists jb', tms'.
Qed.

Lemma FlushBuild_spec v jb first sit :
  tdi_ok v sit → m_current_tdi_operation v ≠ InvalidActionID → m_first_tdi_sit v = Some first →
  chain_ok (m_chain v) → bits_ok (ins (m_ctx v)) →
  ∃ action, FlushBuild v jb first sit
      = Some (true, set_mode v (Building (jb ++ [action])) (m_tms v))
    ∧ tms_sequence action = replicate (m_total_tdi v - 1) false ++ [true].
Proof.
  intros [?|(Htot & Hroom & f & img & Hf & Hle & Hop & Himg & Hlast & Hfill)] Hne Hfirst [Harr Htaps _] Hbits;
    [done|]. simplify_eq.
  unfold FlushBuild. rewrite num_bits31_small by (unfold tdi_room, bits_ok in *; lia). rewrite Hfill by done. cbn [mbind option_bind].
  assert (Hrest : (if decide (m_current_tdi_operation v = JCWriteIRID)
      then write_ones_rest (m_total_tdi v) (m_ir_lengths (m_chain v)) img (m_last_tdied_tap v)
      else Some (dest_write (m_total_tdi v) img (replicate (m_last_tdied_tap v) false)))
      = Some img).
  { case_decide.
    - apply write_ones_rest_full; [done|lia].
    - by rewrite dest_write_full. }
  rewrite Hrest. cbn [mbind option_bind]. eexists; split; [done|].
  rewrite Himg, drop_ge, app_nil_r by (rewrite uninit_length; lia).
  clear Hrest. destruct (decide (_ = JCShiftDRID)); cbn [tms_sequence]; rewrite Himg;
    (destruct (m_total_tdi v) as [|k] eqn:Ek; [lia|]); by rewrite Nat.sub_succ, Nat.sub_0_r.
Qed.

(** Clocking a scan leaves the shift state at its last bit. *)
Lemma scan_leaves_shift (s : JCState) (n : nat) :
  s = ShiftIR ∨ s = ShiftDR →
  tap_run s (replicate n false ++ [true]) = if decide (s = ShiftIR) then Exit1IR else Exit1DR.
Proof.
  intros Hs. rewrite tap_run_app.
  assert (tap_run s (replicate n false) = s) as ->.
  { induction n as [|n IH]; [done|]. cbn [replicate]. unfold tap_run in *. simpl.
    by replace (tap_step s false) with s by (by destruct Hs as [->| ->]). }
  by destruct Hs as [->| ->].
Qed.

Lemma FlushTDI_build v sit sit' :
  inv v sit →
  ∃ v', FlushTDI v sit = Some (true, v') ∧ inv v' sit'
    ∧ m_current_tdi_operation v' = InvalidActionID ∧ m_chain v' = m_chain v
    ∧ m_ctx v' = m_ctx v ∧ cs_selected_tap (v_state v') = cs_selected_tap (v_state v).
Proof.
  intros [[jb [Hm Hrun]] Hk Htms Hch Hsel Htdi Hbits]. unfold FlushTDI.
  destruct (decide (m_current_tdi_operation v = InvalidActionID)) as [Hop|Hop].
  { exists v. split_and!; try done. split; try done; [by exists jb|by left]. }
  destruct Htdi as [?|(Htot & Hroom & Hopen)]; [done|].
  pose proof Hopen as (first & img & Hfirst & _). rewrite Hfirst. cbn [mbind option_bind].
  destruct (_ && _).
  { eexists; split; [done|]. unfold is_building. rewrite Hm. split_and!; try done.
    split; try done; [by exists jb|by left]. }
  set (target := if bool_decide _ then ShiftIR else ShiftDR).
  assert (Htarget : target = ShiftIR ∨ target = ShiftDR)
    by (unfold target; case_bool_decide; auto).
  destruct (GoToState_build v jb target Hm Hrun Hk) as (jb1 & tms1 & -> & Hrun1 & _);
    [by destruct Htarget as [->| ->]|done|]. cbn [and_then].
  destruct (FlushTMS_build (upd v jb1 tms1 (with_state (v_state v) target)) jb1)
    as (jb2 & -> & Hseq2); [done|]. cbn [and_then m_mode set_mode].
  set (v2 := set_mode _ (Building jb2) []).
  destruct (FlushBuild_spec v2 jb2 first sit) as (action & -> & Hact);
    [by right|done|done|done|done|]. cbn [and_then].
  eexists; split; [done|]. split_and!; try done.
  split; try done; [| |simpl; lia|by left].
  - eexists; split; [done|]. cbn -[tms_sequences tap_run].
    rewrite app_nil_r, tms_sequences_app. unfold tms_sequences at 2. cbn [mbind list_bind].
    rewrite app_nil_r, Hact, tap_run_app, Hseq2. cbn -[tms_sequences tap_run replicate].
    rewrite Hrun1. by apply scan_leaves_shift.
  - simpl. by case_decide.
Qed.

Lemma group_of_S (tx : JCTx) first sit a :
  first ≤ sit → ins tx !! sit = Some a →
  group_of tx first (S sit) = group_of tx first sit ++ [a].
Proof.
  intros Hle Ha. unfold group_of. replace (S sit - first) with (S (sit - first)) by lia.
  apply take_S_r. rewrite lookup_drop. by replace (first + (sit - first)) with sit by lia.
Qed.

(** An empty group starts at the current action. *)
Lemma tdi_open_start v sit id :
  id = JCWriteIRID ∨ id = JCWriteDRID ∨ id = JCShiftDRID →
  ∀ single, tdi_open (set_tdi v (cs_selected_tap (v_state v)) (Some sit) id
    (m_num_taps (m_chain v)) 0 single) sit.
Proof.
  intros Hid single. exists sit, []. split_and!; try done. intros T _. cbn.
  unfold group_of. by rewrite Nat.sub_diag, take_0.
Qed.

Lemma tdi_room_start v sit id single :
  chain_ok (m_chain v) →
  tdi_room (set_tdi v (cs_selected_tap (v_state v)) (Some sit) id (m_num_taps (m_chain v)) 0 single) sit.
Proof.
  intros [_ Htaps _]. unfold tdi_room. cbn [set_tdi m_total_tdi m_last_tdied_tap m_ctx].
  pose proof (dr_bits_drop sit (ins (m_ctx v))). unfold g_max_ir_length, g_max_num_taps in *. lia.
Qed.

(** The group grows by an action that adds [add] to its image. *)
Lemma tdi_open_step v sit a sel last single (add : list bool) :
  tdi_open v sit → ins (m_ctx v) !! sit = Some a → last ≤ m_num_taps (m_chain v) →
  (∀ img T, length img = m_total_tdi v → m_total_tdi v + length add ≤ T →
     fill_one (m_current_tdi_operation v) T (m_ir_lengths (m_chain v))
       (cs_selected_tap (v_state v), m_last_tdied_tap v, img) a = Some (sel, last, img ++ add)) →
  tdi_open (set_tdi (set_state v (mkChainState (cs_state (v_state v)) sel
      (cs_last_written_single_ir (v_state v))) (m_tms v))
    (m_selected_tap_on_first_tdi_sit v) (m_first_tdi_sit v) (m_current_tdi_operation v)
    last (m_total_tdi v + length add) single) (S sit).
Proof.
  intros (first & img & Hf & Hle & Hop & Himg & Hl & Hfill) Ha Hlast Hone.
  exists first, (img ++ add). split_and!; try done; [cbn; lia|by rewrite length_app, Himg|].
  intros T HT. cbn in HT |- *. rewrite (group_of_S _ _ _ a) by done. rewrite fill_all_app.
  rewrite Hfill by lia. cbn [mbind option_bind fill_all]. by rewrite Hone.
Qed.

(** The parts of the invariant that a change of the collected group keeps. *)
Lemma inv_regroup v sit sel first op last total single sit' :
  inv v sit → tdi_ok (set_tdi v sel first op last total single) sit' →
  inv (set_tdi v sel first op last total single) sit'.
Proof. by intros [] ?. Qed.

(** What one handler achieves: it goes on in a state that satisfies the
    invariant, or records an error. *)
Definition handled (r : option (bool * Visitor)) (v : Visitor) (sit : nat)
    (rest : list JtagChainAction) : Prop :=
  ∃ ok v', r = Some (ok, v') ∧
    if (ok : bool)
    then inv v' (S sit) ∧ m_ctx v' = m_ctx v
      ∧ plan_ok (cs_selected_tap (v_state v')) (m_num_taps (m_chain v')) rest = true
    else is_Some (m_error_buffer (m_ctx v')) ∧ m_first_incomplete (m_ctx v') = m_first_incomplete (m_ctx v).

(** Before a scan is collected, the group is closed or can take it. *)
Lemma ready_build v sit id (late : bool) :
  inv v sit →
  ∃ v1, (if bool_decide (m_current_tdi_operation v ≠ InvalidActionID)
             && bool_decide (m_current_tdi_operation v ≠ id)
           || bool_decide (m_current_tdi_operation v = id) && late
         then FlushTDI v sit else Some (true, v)) = Some (true, v1)
    ∧ inv v1 sit ∧ m_chain v1 = m_chain v ∧ m_ctx v1 = m_ctx v
    ∧ cs_selected_tap (v_state v1) = cs_selected_tap (v_state v)
    ∧ (m_current_tdi_operation v1 = InvalidActionID
       ∨ v1 = v ∧ m_current_tdi_operation v1 = id ∧ late = false).
Proof.
  intros Hinv. destruct (_ || _) eqn:Hfl.
  - destruct (FlushTDI_build v sit sit Hinv) as (v' & -> & ? & ? & ? & ? & ?). exists v'; auto 10.
  - exists v. split_and!; try done. apply orb_false_iff in Hfl as [H1 H2].
    destruct (decide (m_current_tdi_operation v = InvalidActionID)); [by left|right].
    rewrite bool_decide_eq_true_2 in H1 by done. simpl in H1.
    apply bool_decide_eq_false_1, dec_stable in H1. split_and!; [done..|].
    by rewrite bool_decide_eq_true_2 in H2 by done.
Qed.

(** Collecting one more scan. *)
Lemma collect_build v v1 v2 sit a rest total single (add : list bool) :
  inv v1 sit → m_chain v1 = m_chain v → m_ctx v1 = m_ctx v →
  cs_selected_tap (v_state v1) = cs_selected_tap (v_state v) →
  (∃ s f o l t i, v2 = set_tdi v1 s f o l t i) → tdi_open v2 sit →
  ins (m_ctx v) !! sit = Some a → 0 < length add → total = m_total_tdi v2 + length add →
  let sel := cs_selected_tap (v_state v1) in
  (∀ img T, length img = m_total_tdi v2 → m_total_tdi v2 + length add ≤ T →
     fill_one (m_current_tdi_operation v2) T (m_ir_lengths (m_chain v1))
       (sel, m_last_tdied_tap v2, img) a = Some (sel, sel, img ++ add)) →
  m_total_tdi v2 + length add + g_max_ir_length * sel + dr_bits (drop (S sit) (ins (m_ctx v)))
    ≤ dr_bits (ins (m_ctx v)) + g_max_ir_length * g_max_num_taps →
  plan_ok (cs_selected_tap (v_state v)) (m_num_taps (m_chain v)) rest = true →
  handled (Some (true, set_tdi v2 (m_selected_tap_on_first_tdi_sit v2) (m_first_tdi_sit v2)
    (m_current_tdi_operation v2) sel total single)) v sit rest.
Proof.
  intros Hinv Hc Hx Hs (s & f & o & l & t & i & ->) Hopen Ha Hadd -> sel Hfill Hroom Hplan.
  eexists true, _. split; [done|]. split_and!; [|done|].
  - apply (inv_regroup v1 sit); [done|]. right. split; [simpl; lia|]. split; [unfold tdi_room; cbn; by rewrite Hx|].
    eapply (tdi_open_step _ sit a sel sel single add) in Hopen; [exact Hopen|..].
    + by rewrite <-Hx in Ha.
    + apply Nat.lt_le_incl, Hinv.
    + exact Hfill.
  - cbn. by rewrite Hs, Hc.
Qed.

Lemma VisitWriteIR_build v value sit rest :
  inv v sit → ins (m_ctx v) !! sit = Some (JCWriteIR value) →
  plan_ok (cs_selected_tap (v_state v)) (m_num_taps (m_chain v)) (JCWriteIR value :: rest) = true →
  handled (VisitWriteIR v value sit) v sit rest.
Proof.
  intros Hinv Ha Hplan. unfold VisitWriteIR. cbn zeta.
  destruct (ready_build v sit JCWriteIRID
    (m_last_tdied_tap v <=? cs_selected_tap (v_state v))%nat Hinv)
    as (v1 & -> & Hinv1 & Hc & Hx & Hs & Hop). cbn [and_then].
  pose proof (inv_selected _ _ Hinv1) as Hsel. rewrite <-Hs.
  destruct (Nat.ltb_spec (cs_selected_tap (v_state v1)) (m_num_taps (m_chain v1))); [|lia].
  cbn [check mbind option_bind]. set (v2 := if decide _ then _ else _).
  assert (tdi_room v2 sit ∧ tdi_open v2 sit ∧ m_current_tdi_operation v2 = JCWriteIRID
    ∧ cs_selected_tap (v_state v1) < m_last_tdied_tap v2 ≤ m_num_taps (m_chain v1)
    ∧ ∃ s f o l t i, v2 = set_tdi v1 s f o l t i) as (Hroom & Hopen & Hop2 & Hlast & Hv2).
  { unfold v2. destruct Hop as [Hop|(-> & Hop & Hlate)].
    - rewrite decide_True by done. split_and!; [apply tdi_room_start, (inv_chain _ _ Hinv1)|by apply tdi_open_start; left|done|simpl; lia..|].
      by repeat eexists.
    - rewrite decide_False by (by rewrite Hop). apply Nat.leb_gt in Hlate.
      destruct (inv_tdi _ _ Hinv) as [?|(_ & Hroom & Hopen)]; [congruence|].
      pose proof Hopen as (? & ? & _ & _ & _ & _ & ? & _).
      split_and!; [done|done|done|simpl; lia..|]. by repeat eexists. }
  destruct Hv2 as (?&?&?&?&?&?&Hv2).
  assert (m_chain v2 = m_chain v1 ∧ m_ctx v2 = m_ctx v1 ∧ v_state v2 = v_state v1)
    as (Hc2 & Hx2 & Hs2) by (by rewrite Hv2).
  pose proof (inv_chain _ _ Hinv1) as Hch. pose proof Hch as [Harr Htaps Hlens].
  pose proof (sum_lengths _ (cs_selected_tap (v_state v1)) (m_last_tdied_tap v2 - cs_selected_tap (v_state v1)) Hch
    ltac:(lia)) as Hsum. pose proof (inv_bits _ _ Hinv1) as Hbits. unfold tdi_room in Hroom. rewrite Hx2 in Hroom.
  pose proof (dr_bits_drop (S sit) (drop 0 (ins (m_ctx v1)))) as Hdrop.
  rewrite Hx in Hroom, Hbits. rewrite (dr_bits_at _ _ _ Ha) in Hroom. unfold bits_ok, g_max_ir_length, g_max_num_taps in *.
  rewrite count_ir_spec by (rewrite ?Hc2; lia). cbn [mbind option_bind].
  destruct (Hlens (cs_selected_tap (v_state v1))) as (len & Hlen & Hpos & H32); [lia|].
  eapply (collect_build v v1 v2 sit (JCWriteIR value) rest _ _
    (ir_img (m_ir_lengths (m_chain v1)) (m_last_tdied_tap v2)
       (cs_selected_tap (v_state v1)) len value)); try done.
  - by repeat eexists.
  - unfold ir_img. rewrite length_app, length_zbits. lia.
  - rewrite length_ir_img by (done || lia). by rewrite Hc2.
  - intros img T Himg HT. rewrite Hop2. apply fill_one_ir; try done; lia.
  - rewrite length_ir_img by (done || lia). unfold g_max_ir_length, g_max_num_taps. lia.
Qed.

Lemma VisitDR_build v id bits sit rest a :
  id = JCWriteDRID ∧ a = JCWriteDR bits ∨ id = JCShiftDRID ∧ a = JCShiftDR bits →
  inv v sit → ins (m_ctx v) !! sit = Some a →
  plan_ok (cs_selected_tap (v_state v)) (m_num_taps (m_chain v)) (a :: rest) = true →
  handled (VisitDR v id bits sit) v sit rest.
Proof.
  intros Hid Hinv Ha Hplan. unfold VisitDR. cbn zeta.
  assert (0 < length bits ∧
    plan_ok (cs_selected_tap (v_state v)) (m_num_taps (m_chain v)) rest = true) as [Hbits Hrest].
  { destruct Hid as [[_ ->]|[_ ->]]; cbn [plan_ok] in Hplan;
      apply andb_true_iff in Hplan as [H1 H2]; destruct bits; simpl in *; split; (done || lia). }
  destruct (ready_build v sit id
    (m_last_tdied_tap v <? cs_selected_tap (v_state v))%nat Hinv)
    as (v1 & -> & Hinv1 & Hc & Hx & Hs & Hop). cbn [and_then].
  pose proof (inv_selected _ _ Hinv1) as Hsel. rewrite <-Hs.
  destruct (Nat.ltb_spec (cs_selected_tap (v_state v1)) (m_num_taps (m_chain v1))); [|lia].
  cbn [check mbind option_bind]. set (v2 := if decide _ then _ else _).
  assert (tdi_room v2 sit ∧ tdi_open v2 sit ∧ m_current_tdi_operation v2 = id
    ∧ cs_selected_tap (v_state v1) ≤ m_last_tdied_tap v2 ≤ m_num_taps (m_chain v1)
    ∧ ∃ s f o l t i, v2 = set_tdi v1 s f o l t i) as (Hroom & Hopen & Hop2 & Hlast & Hv2).
  { unfold v2. destruct Hop as [Hop|(-> & Hop & Hlate)].
    - rewrite decide_True by done.
      split_and!; [apply tdi_room_start, (inv_chain _ _ Hinv1)|apply tdi_open_start; naive_solver|done|simpl; lia..|]. by repeat eexists.
    - rewrite decide_False by (rewrite Hop; by destruct Hid as [[-> _]|[-> _]]). apply Nat.ltb_ge in Hlate.
      destruct (inv_tdi _ _ Hinv) as [?|(_ & Hroom & Hopen)]; [destruct Hid as [[-> _]|[-> _]]; congruence|].
      pose proof Hopen as (? & ? & _ & _ & _ & _ & ? & _).
      split_and!; [done|done|done|simpl; lia..|]. exists (m_selected_tap_on_first_tdi_sit v),
        (m_first_tdi_sit v), (m_current_tdi_operation v), (m_last_tdied_tap v), (m_total_tdi v),
        (m_maybe_single_ir v). by destruct v. }
  pose proof (chain_ok_taps _ (inv_chain _ _ Hinv1)) as Htaps. unfold g_max_num_taps in Htaps.
  set (bypassed := if (m_last_tdied_tap v2 =? _)%nat then _ else _).
  assert (Hd : dr_bits [a] = length bits) by (destruct Hid as [[_ ->]|[_ ->]]; cbn; lia).
  assert (Hby : bypassed ≤ m_last_tdied_tap v2 - cs_selected_tap (v_state v1))
    by (unfold bypassed; destruct (_ =? _)%nat; lia).
  assert (Hfit : m_total_tdi v2 + bypassed + length bits + g_max_ir_length * cs_selected_tap (v_state v1)
      + dr_bits (drop (S sit) (ins (m_ctx v))) ≤ dr_bits (ins (m_ctx v)) + g_max_ir_length * g_max_num_taps).
  { unfold tdi_room in Hroom. destruct Hv2 as (?&?&?&?&?&?&Hv2). replace (m_ctx v2) with (m_ctx v1) in Hroom by (by rewrite Hv2).
    rewrite Hx, (dr_bits_at _ _ _ Ha), Hd in Hroom. unfold g_max_ir_length in *. lia. }
  pose proof (inv_bits _ _ Hinv) as Hbits31. rewrite total32_small by (unfold bits_ok in Hbits31; lia).
  eapply (collect_build v v1 v2 sit a rest _ _ (replicate bypassed false ++ bits)); try done.
  - rewrite length_app. lia.
  - rewrite length_app, length_replicate. lia.
  - intros img T Himg HT. rewrite length_app, length_replicate in HT.
    rewrite Hop2. clear Hfit Hbits31 Hby Hd Hroom. apply fill_one_dr; try (naive_solver || lia).
  - rewrite length_app, length_replicate. lia.
Qed.

Lemma VisitSelectTAP_build v tap_id sit rest :
  inv v sit → ins (m_ctx v) !! sit = Some (JCSelectTAP tap_id) →
  plan_ok (cs_selected_tap (v_state v)) (m_num_taps (m_chain v)) (JCSelectTAP tap_id :: rest) = true →
  handled (VisitSelectTAP v tap_id sit) v sit rest.
Proof.
  intros Hinv Ha Hplan. unfold VisitSelectTAP. cbn [plan_ok] in Hplan.
  destruct (Nat.leb_spec (m_num_taps (m_chain v)) tap_id) as [Hle|Hlt].
  { eexists false, _; split; [done|]. by split; [eexists|]. }
  simpl in Hplan. destruct Hinv as [[jb [Hm Hrun]] Hk Htms Hch Hsel Htdi Hbits].
  unfold done_if_completing, is_building. cbn [m_mode set_state]. rewrite Hm.
  eexists true, _; split; [done|]. split_and!; [|done|done].
  split; try done; [by exists jb|].
  destruct Htdi as [Hop|(Htot & Hroom & Hopen)]; [by left|right; split; [done|]].
  split; [by unfold tdi_room in *; cbn in *; rewrite (dr_bits_at _ _ _ Ha) in Hroom|].
  eapply (tdi_open_step v sit _ tap_id (m_last_tdied_tap v) (m_maybe_single_ir v) []) in Hopen;
    [|done|..].
  - rewrite Nat.add_0_r in Hopen. exact Hopen.
  - by destruct Hopen as (?&?&?&?&?&?&?&?).
  - intros img T _ _. cbn. by rewrite app_nil_r.
Qed.

(** The invariant does not depend on the chain while no group is open. *)
Lemma inv_rechain v sit c sel sit' :
  inv v sit → m_current_tdi_operation v = InvalidActionID → chain_ok c → sel < m_num_taps c →
  inv (set_state (set_chain v c) (mkChainState (cs_state (v_state v)) sel
    (cs_last_written_single_ir (v_state v))) (m_tms v)) sit'.
Proof. intros [[jb [Hm Hrun]] Hk Htms Hch Hsel Htdi Hbits] Hop Hc Hs. split; try done; [by exists jb|by left]. Qed.

Lemma VisitForget_build v sit rest :
  inv v sit → plan_ok 0 1 rest = true → handled (VisitForget v sit) v sit rest.
Proof.
  intros Hinv Hplan. unfold VisitForget.
  destruct (FlushTDI_build v sit (S sit) Hinv) as (v' & -> & Hinv' & Hop & Hc & Hx & Hs).
  cbn [and_then]. pose proof Hinv' as [[jb [Hm Hrun]] Hk Htms [Harr Htaps Hlens] Hsel Htdi Hbits].
  unfold done_if_completing, is_building. rewrite Hm. cbn [m_mode set_chain set_state]. rewrite Hm.
  eexists true, _; split; [done|]. split_and!; [|done|done].
  apply (inv_rechain v' (S sit)); [done|done| |simpl; lia]. split; simpl.
  - by rewrite length_insert.
  - unfold g_max_num_taps. lia.
  - intros i Hi. exists 1. replace i with 0 by lia.
    rewrite list_lookup_insert_eq by (rewrite Harr; unfold g_max_num_taps; lia).
    unfold g_max_ir_length. split; [done|lia].
Qed.

Lemma length_fill_lengths lens n t : length (fill_lengths lens n t) = length lens.
Proof.
  unfold fill_lengths. generalize (seq n (t - n)). intros l. revert lens.
  induction l as [|i l IH]; intros lens; [done|]. cbn [foldl]. by rewrite IH, length_insert.
Qed.

Lemma lookup_fill_lengths lens n t i :
  i < length lens →
  fill_lengths lens n t !! i =
    (if decide (n ≤ i < t) then Some 1 else lens !! i).
Proof.
  unfold fill_lengths. remember (t - n) as k eqn:Ek. revert lens n Ek.
  induction k as [|k IH]; intros lens n Ek Hi; cbn [seq foldl].
  { by rewrite decide_False by lia. }
  rewrite (IH (<[n:=1]> lens) (S n)) by (rewrite ?length_insert; lia).
  destruct (decide (S n ≤ i < t)); [by rewrite decide_True by lia|].
  destruct (decide (i = n)) as [->|Hne].
  - rewrite decide_True by lia. by apply list_lookup_insert_eq.
  - rewrite decide_False by lia. by rewrite list_lookup_insert_ne.
Qed.

Lemma chain_ok_set c t len :
  chain_ok c → t < g_max_num_taps → 0 < len ≤ g_max_ir_length →
  chain_ok {| m_state := m_state c;
              m_ir_lengths := <[t := len]> (fill_lengths (m_ir_lengths c) (m_num_taps c) t);
              m_num_taps := t + 1 |}.
Proof.
  intros [Harr Htaps Hlens] Ht Hlen. split; cbn [m_ir_lengths m_num_taps].
  - by rewrite length_insert, length_fill_lengths.
  - lia.
  - intros i Hi. destruct (decide (i = t)) as [->|Hne].
    { exists len. rewrite list_lookup_insert_eq; [done|]. by rewrite length_fill_lengths, Harr. }
    rewrite list_lookup_insert_ne, lookup_fill_lengths by (done || lia).
    case_decide; [|apply Hlens; lia]. exists 1. unfold g_max_ir_length. split; [done|lia].
Qed.

Lemma VisitSetIRLength_build v t len sit rest :
  inv v sit →
  plan_ok (cs_selected_tap (v_state v)) (m_num_taps (m_chain v)) (JCSetIRLength t len :: rest) = true →
  handled (VisitSetIRLength v t len sit) v sit rest.
Proof.
  intros Hinv Hplan. unfold VisitSetIRLength. cbn [plan_ok] in Hplan.
  destruct (Nat.ltb_spec g_max_ir_length len) as [Hbig|Hlen].
  { eexists false, _; split; [done|]. by split; [eexists|]. }
  destruct (FlushTDI_build v sit (S sit) Hinv) as (v' & -> & Hinv' & Hop & Hc & Hx & Hs).
  cbn [and_then]. destruct (Nat.leb_spec g_max_num_taps t) as [Hbig|Ht].
  { eexists false, _; split; [done|]. split; [by eexists|]. cbn. by rewrite Hx. }
  simpl in Hplan. bool_to_prop.
  pose proof Hinv' as [[jb [Hm Hrun]] Hk Htms [Harr Htaps Hlens] Hsel Htdi Hbits].
  unfold done_if_completing, is_building. rewrite Hm. cbn [m_mode set_chain]. rewrite Hm.
  eexists true, _; split; [done|]. split_and!; [|done|by rewrite <-Hs in *].
  split; try done; [by exists jb|by apply chain_ok_set|simpl; lia|by left].
Qed.

Lemma tap_states_known n s : tap_states !! n = Some s → s ≠ Unknown.
Proof. do 16 (destruct n as [|n]; [intros [= <-]; done|]). done. Qed.

Lemma inv_upd v jb' tms' s sit sit' :
  inv v sit → m_current_tdi_operation v = InvalidActionID → s ≠ Unknown →
  tap_run s0 (tms_sequences jb' ++ tms') = s → length tms' ≤ g_max_tms_bits →
  inv (upd v jb' tms' (with_state (v_state v) s)) sit'.
Proof. intros [] Hop Hs Hrun Hl. split; try done; [by exists jb'|by left]. Qed.

Lemma VisitGoToState_build v state wait sit rest :
  inv v sit → 
  plan_ok (cs_selected_tap (v_state v)) (m_num_taps (m_chain v)) rest = true →
  handled (VisitGoToState v state wait sit) v sit rest.
Proof.
  intros Hinv Hplan. unfold VisitGoToState.
  destruct (FlushTDI_build v sit (S sit) Hinv) as (v' & -> & Hinv' & Hop & Hc & Hx & Hs).
  cbn [and_then]. pose proof Hinv' as [[jb [Hm Hrun]] Hk Htms Hch Hsel Htdi Hbits].
  rewrite bool_decide_eq_true_2 by done. cbn [check mbind option_bind].
  destruct (tap_states !! state) as [s|] eqn:Hst.
  2: { eexists false, _; split; [done|]. split; [by eexists|]. cbn. by rewrite Hx. }
  apply tap_states_known in Hst.
  destruct (GoToState_build v' jb s Hm Hrun Hk Hst Htms) as (jb1 & tms1 & -> & Hrun1 & Hl1).
  cbn [and_then]. set (v1 := upd v' jb1 tms1 _).
  assert (Hs1 : cs_state (v_state v1) = s) by done. rewrite Hs1.
  destruct (waiting_sequence_sound s Hst) as (w & -> & _ & Hhold).
  cbn [mbind option_bind]. destruct (_ && _) eqn:Hunstable.
  { eexists false, _; split; [done|]. split; [by eexists|]. cbn. by rewrite Hx. }
  destruct (WaitLoop_build (S wait) v1 jb1 w wait) as (jb2 & tms2 & -> & Hrun2 & Hl2);
    [lia|done|done|done| |].
  { intros Hw. rewrite Hs1. apply Hhold. intros ->.
    rewrite bool_decide_eq_true_2 in Hunstable by done. by destruct wait. }
  cbn [and_then]. unfold done_if_completing, is_building; cbn [m_mode upd set_state set_mode].
  eexists true, _; split; [done|]. split_and!; [|done|].
  - apply (inv_upd v1 jb2 tms2 s (S sit)); [|done..]. by apply (inv_upd v' _ _ _ (S sit)).
  - cbn. by rewrite Hs, Hc.
Qed.

Lemma Visit_build v a sit rest :
  inv v sit → ins (m_ctx v) !! sit = Some a →
  plan_ok (cs_selected_tap (v_state v)) (m_num_taps (m_chain v)) (a :: rest) = true →
  handled (Visit v sit a) v sit rest.
Proof.
  intros Hinv Ha Hplan. destruct a; cbn [Visit].
  - by apply VisitForget_build.
  - by apply VisitSetIRLength_build.
  - by apply VisitGoToState_build.
  - by apply VisitSelectTAP_build.
  - by apply VisitWriteIR_build.
  - eapply VisitDR_build; eauto.
  - eapply VisitDR_build; eauto.
Qed.

Lemma VisitAll_build v sit actions :
  inv v sit → drop sit (ins (m_ctx v)) = actions →
  plan_ok (cs_selected_tap (v_state v)) (m_num_taps (m_chain v)) actions = true →
  ∃ ok v', VisitAll v sit actions = Some (ok, v') ∧
    m_first_incomplete (m_ctx v') = m_first_incomplete (m_ctx v) ∧
    if (ok : bool)
    then m_ctx v' = m_ctx v ∧ chain_ok (m_chain v')
      ∧ cs_selected_tap (v_state v') < m_num_taps (m_chain v')
      ∧ cs_state (v_state v') ≠ Unknown
      ∧ ∃ jb, m_mode v' = Building jb ∧ tap_run s0 (tms_sequences jb) = cs_state (v_state v')
    else is_Some (m_error_buffer (m_ctx v')).
Proof.
  revert v sit. induction actions as [|a actions IH]; intros v sit Hinv Hd Hplan; cbn [VisitAll].
  - destruct (FlushTDI_build v sit sit Hinv) as (v' & -> & Hinv' & _ & _ & Hx & _).
    cbn [and_then]. destruct Hinv' as [[jb [Hm Hrun]] Hk Htms Hch Hsel _ _].
    destruct (FlushTMS_build v' jb Hm) as (jb' & -> & Hseq).
    eexists true, _; split; [done|]. split; [cbn; by rewrite Hx|]. split_and!; try done.
    exists jb'. split; [done|]. cbn. by rewrite Hseq.
  - assert (Ha : ins (m_ctx v) !! sit = Some a).
    { rewrite <-(Nat.add_0_r sit), <-lookup_drop, Hd. done. }
    destruct (Visit_build v a sit actions Hinv Ha Hplan) as (ok & v' & -> & Hv').
    destruct ok; cbn [and_then].
    + destruct Hv' as (Hinv' & Hx & Hplan'). rewrite <-Hx. apply IH; [done| |done].
      rewrite Hx. rewrite (drop_S _ a) in Hd by done. by simplify_eq.
    + exists false, v'. naive_solver.
Qed.
End soundness.

(** ** Properties *)

(** Where a port that was in state [s0] is after the actions of a transaction. *)
Definition begun_ok (chain : Chain) (tx : JCTx) (s0 : JCState) (b : begun) : Prop :=
  match b with
  | Rejected tx' _ =>
      is_Some (m_error_buffer tx') ∧ m_first_incomplete tx' = m_first_incomplete tx
  | Scheduled tx' chain' old_state jtag =>
      tx' = tx ∧ old_state = m_state chain
      ∧ tap_run s0 (tms_sequences jtag) = cs_state (m_state chain')
      ∧ cs_state (m_state chain') ≠ Unknown
      ∧ chain_ok chain' ∧ cs_selected_tap (m_state chain') < m_num_taps chain'
  end.

Lemma ExecuteBegin_built `{Uninit} (chain : Chain) (tx : JCTx) (s0 : JCState) :
  (∀ n, length (uninit_bits n) = n) → chain_ok chain →
  cs_selected_tap (m_state chain) < m_num_taps chain →
  plan_ok (cs_selected_tap (m_state chain)) (m_num_taps chain)
    (drop (m_first_incomplete tx) (ins tx)) = true → bits_ok (ins tx) →
  s0 ≠ Unknown → (cs_state (m_state chain) ≠ Unknown → s0 = cs_state (m_state chain)) →
  ∃ b, ExecuteBegin chain tx = Some b ∧ begun_ok chain tx s0 b.
Proof.
  intros Huninit Hchain Hsel Hplan Hbits Hs0 Htrack. unfold ExecuteBegin.
  set (start := if decide _ then _ else _).
  assert (Hstart : ∃ jb st, start = (jb, st) ∧ tap_run s0 (tms_sequences jb) = cs_state st
    ∧ cs_state st ≠ Unknown ∧ cs_selected_tap st = cs_selected_tap (m_state chain)).
  { unfold start. case_decide as Hk.
    - do 2 eexists; split; [done|]. split_and!; [|done|done]. by apply reset_reaches.
    - do 2 eexists; split; [done|]. split_and!; [|done|done]. by apply Htrack. }
  destruct Hstart as (jb & st & -> & Hrun & Hk & Hst).
  destruct (VisitAll_build Huninit s0 (new_visitor chain tx (Building jb) st)
    (m_first_incomplete tx) (drop (m_first_incomplete tx) (ins tx))) as (ok & v' & -> & Hfi & Hv').
  - split; try done; [|simpl; lia|by cbn; rewrite Hst|by left].
    exists jb. split; [done|]. cbn. by rewrite app_nil_r.
  - done.
  - cbn. by rewrite Hst.
  - cbn [mbind option_bind]. destruct ok; [|by eexists].
    destruct Hv' as (Hx & Hc & Hsel' & Hk' & jb' & Hm & Hrun'). rewrite Hm.
    cbn [mbind option_bind]. rewrite Hx. destruct Hc. by eexists.
Qed.

(** Translating a transaction whose scans are not empty and fit the counters, and that
    does not drop the selected TAP, never trips an assertion, and it either
    records an error or emits JTAG actions whose TMS bits bring a port from the
    state it really is in to the state the driver then believes it is in,
    whatever that state was if it is unknown to the driver; the structure of
    the chain stays usable. *)
Theorem ExecuteBegin_tracks_tap `{Uninit} (chain : Chain) (tx : JCTx) (s0 : JCState)
    (Huninit : ∀ n, length (uninit_bits n) = n)
    (Hchain : chain_ok chain)
    (Hsel : cs_selected_tap (m_state chain) < m_num_taps chain)
    (Hplan : plan_ok (cs_selected_tap (m_state chain)) (m_num_taps chain)
               (drop (m_first_incomplete tx) (ins tx)) = true)
    (Hbits : bits_ok (ins tx)) (Hs0 : s0 ≠ Unknown)
    (Htrack : cs_state (m_state chain) ≠ Unknown → s0 = cs_state (m_state chain)) :
  (∃ tx' chain', ExecuteBegin chain tx = Some (Rejected tx' chain')
     ∧ is_Some (m_error_buffer tx') ∧ m_first_incomplete tx' = m_first_incomplete tx)
  ∨ (∃ chain' jtag, ExecuteBegin chain tx = Some (Scheduled tx chain' (m_state chain) jtag)
     ∧ tap_run s0 (tms_sequences jtag) = cs_state (m_state chain')
     ∧ cs_state (m_state chain') ≠ Unknown
     ∧ chain_ok chain' ∧ cs_selected_tap (m_state chain') < m_num_taps chain').
Proof.
  destruct (ExecuteBegin_built chain tx s0 Huninit Hchain Hsel Hplan Hbits Hs0 Htrack)
    as ([tx' chain'|tx' chain' old jtag] & -> & Hb).
  - left. by exists tx', chain'.
  - right. destruct Hb as (-> & -> & Hb). by exists chain', jtag.
Qed.

(** ** The scanned registers *)

(** The registers of a chain between TDI and TDO are one shift register; the
    bit next to TDI is the first. *)
Definition shift_in (r bits : list bool) : list bool := foldl (λ r b, take (length r) (b :: r)) r bits.

Definition shift_out (r bits : list bool) : list bool := take (length bits) (reverse r ++ bits).

(** What a port that scans [r] answers to the actions of a transaction. *)
Fixpoint port (r : list bool) (l : list JtagAction) : list (JtagAction * JtagOut) * list bool :=
  match l with
  | [] => ([], r)
  | a :: l =>
      let '(o, r) := match a with
        | PutTMS bits => (PutOut (length bits), r)
        | PutTDI bits _ => (PutOut (length bits), shift_in r bits)
        | PutTDIGetTDO bits _ => (PutGetOut (length bits) (shift_out r bits), shift_in r bits)
        end in
      let '(os, r) := port r l in ((a, o) :: os, r)
  end.

(** The register of TAP [k] when the TAPs below it are bypassed. *)
Definition tap_register (k len : nat) (r : list bool) : list bool := take len (drop k r).

Lemma shift_in_spec r bits :
  length bits ≤ length r → shift_in r bits = reverse bits ++ take (length r - length bits) r.
Proof.
  induction bits as [|b bits IH] using rev_ind; intros Hl.
  { simpl. by rewrite Nat.sub_0_r, firstn_all. }
  rewrite length_app in Hl |- *. cbn [length] in Hl |- *. unfold shift_in in *.
  rewrite foldl_app. cbn [foldl]. rewrite IH by lia.
  rewrite reverse_app. simpl. rewrite length_app, length_reverse, length_take.
  replace (length bits + (length r - length bits) `min` length r) with (S (length r - 1)) by lia.
  cbn [take]. f_equal. rewrite take_app, length_reverse, take_take, take_ge by (rewrite length_reverse; lia).
  f_equal. f_equal. lia.
Qed.

Section roundtrip.
Context `{Uninit} (uninit_length : ∀ n, length (uninit_bits n) = n).
Context (chain : Chain) (Hchain : chain_ok chain) (st : ChainState).
Context (Hsel : cs_selected_tap st < m_num_taps chain).
Context (Hknown : cs_state st ≠ Unknown).

Let k := cs_selected_tap st.
Let above := m_num_taps chain - 1 - k.

(** The visitor after it collected one scan. *)
Definition collected (md : mode) (tx : JCTx) (bits : list bool) : Visitor :=
  set_tdi (new_visitor chain tx md st) k (Some 0) JCShiftDRID k
    (above + length bits) None.

Local Ltac vcbn' := unfold collected; vcbn.

Lemma VisitDR_first md tx bits :
  (Z.of_nat (above + length bits) < 2 ^ 31)%Z →
  VisitDR (new_visitor chain tx md st) JCShiftDRID bits 0
    = Some (true, collected md tx bits).
Proof.
  intros Hfits. unfold VisitDR. vcbn'. change (bool_decide _ && _ || _) with false. vcbn. fold k.
  destruct (Nat.ltb_spec k (m_num_taps chain)); [|lia]. vcbn.
  rewrite decide_True by done. vcbn.
  destruct (Nat.eqb_spec (m_num_taps chain) k); [lia|]. fold above. cbn [Nat.add].
  by rewrite total32_small by lia.
Qed.

Definition to_shift_dr : list bool :=
  match get_transition (cs_state st) ShiftDR with
  | Some tr => tms_of tr
  | None => []
  end.

Definition puts : list JtagAction :=
  if (length to_shift_dr =? 0)%nat then [] else [PutTMS to_shift_dr].

Lemma GoToState_first md tx bits :
  GoToState (collected md tx bits) ShiftDR
    = Some (true, set_state (collected md tx bits) (with_state st ShiftDR) to_shift_dr).
Proof.
  unfold GoToState. vcbn'. unfold to_shift_dr.
  destruct (get_transition_run _ ShiftDR Hknown) as (tr & -> & _ & Hlen & H8); [done|].
  vcbn. unfold tms_of in Hlen. rewrite length_zbits in Hlen. rewrite Hlen. unfold tms_room. vcbn.
  cbn [length]. unfold g_max_tms_bits.
  destruct (Nat.ltb_spec (64 - 0) (distance (cs_state st) ShiftDR)); [lia|]. vcbn. cbn [length].
  destruct (Nat.leb_spec (distance (cs_state st) ShiftDR) (64 - 0)); [|lia]. reflexivity.
Qed.

Lemma Build_first bits o :
  bits ≠ [] → (Z.of_nat (above + length bits) < 2 ^ 31)%Z →
  let tx := begin_tx ([JCShiftDR bits], [o]) false in
  ∃ v', FlushTDI (collected (Building []) tx bits) 1 = Some (true, v')
    ∧ m_mode v' = Building (puts ++ [PutTDIGetTDO (replicate above false ++ bits) true])
    ∧ m_tms v' = [] ∧ m_chain v' = chain ∧ m_ctx v' = tx
    ∧ v_state v' = mkChainState Exit1DR k None.
Proof.
  intros Hbits Hfits tx. unfold FlushTDI.
  change (m_current_tdi_operation (collected (Building []) tx bits)) with JCShiftDRID.
  rewrite decide_False by done. change (m_first_tdi_sit (collected (Building []) tx bits)) with (Some 0).
  cbn [mbind option_bind].
  change (bool_decide (JCShiftDRID = JCWriteIRID)) with false. cbn [andb].
  rewrite GoToState_first. cbn [and_then].
  assert (FlushTMS (set_state (collected (Building []) tx bits) (with_state st ShiftDR) to_shift_dr)
    = Some (true, set_mode (set_state (collected (Building []) tx bits)
        (with_state st ShiftDR) []) (Building puts) [])) as ->.
  { unfold FlushTMS, puts. vcbn. destruct (Nat.eqb_spec (length to_shift_dr) 0) as [Hl|Hl]; [|done].
    apply length_zero_iff_nil in Hl. by rewrite Hl. }
  cbn [and_then]. unfold FlushBuild. vcbn'. rewrite num_bits31_small by done.
  change (group_of tx 0 1) with [JCShiftDR bits]. cbn [fill_all].
  pose proof (chain_ok_taps _ Hchain) as Htaps. unfold g_max_num_taps in Htaps.
  rewrite (fill_one_dr _ _ _ _ _ _ bits) by
    (first [done | lia | by right | (destruct (Nat.eqb_spec (m_num_taps chain) k); simpl; lia)]).
  vcbn. rewrite decide_False, dest_write_full by
    (first [done | destruct (Nat.eqb_spec (m_num_taps chain) k);
       [lia|by rewrite !length_app, length_replicate]]).
  vcbn. rewrite decide_True by done. eexists; split; [done|].
  destruct (Nat.eqb_spec (m_num_taps chain) k); [lia|]. split_and!; try done.
  cbn [m_mode clear_tdi set_tdi set_state set_mode]. rewrite drop_ge, app_nil_r; [done|].
  rewrite uninit_length. cbn [app]. by rewrite length_app, length_replicate.
Qed.

Lemma Complete_first bits old answers n tdo err :
  let tx := begin_tx ([JCShiftDR bits], [JCShiftOut 0 old]) false in
  fst <$> answers = puts ++ [PutTDIGetTDO (replicate above false ++ bits) true] →
  last answers = Some (PutTDIGetTDO (replicate above false ++ bits) true, PutGetOut n tdo) →
  length old = length bits → above + length bits ≤ length (take n tdo) →
  ∃ v', FlushTDI (collected (Completing answers err) tx bits) 1 = Some (true, v')
    ∧ m_tms v' = [] ∧ m_chain v' = chain
    ∧ m_ctx v' = Done (set_out tx 0 (JCShiftOut (length bits)
        (take (length bits) (drop above (take n tdo))))) 0.
Proof.
  intros tx Hans Hlast Hold Hn. unfold FlushTDI.
  change (m_current_tdi_operation (collected (Completing answers err) tx bits)) with JCShiftDRID.
  rewrite decide_False by done.
  change (m_first_tdi_sit (collected (Completing answers err) tx bits)) with (Some 0).
  cbn [mbind option_bind].
  change (bool_decide (JCShiftDRID = JCWriteIRID)) with false. cbn [andb].
  rewrite GoToState_first. cbn [and_then].
  set (scan := PutTDIGetTDO _ true) in *.
  assert (FlushTMS (set_state (collected (Completing answers err) tx bits)
      (with_state st ShiftDR) to_shift_dr)
    = Some (true, set_mode (set_state (collected (Completing answers err) tx bits)
        (with_state st ShiftDR) []) (Completing [(scan, PutGetOut n tdo)] err) [])) as ->.
  { unfold FlushTMS. vcbn'. unfold puts in Hans.
    apply last_Some in Hlast as [l ->]. apply (f_equal length) in Hans.
    rewrite length_fmap, !length_app in Hans.
    destruct (Nat.eqb_spec (length to_shift_dr) 0) as [Hl|Hl].
    - apply length_zero_iff_nil in Hl. rewrite Hl.
      destruct l; [reflexivity|cbn [length] in Hans; lia].
    - destruct l as [|a [|]]; [cbn [length] in Hans; lia|reflexivity|cbn [length] in Hans; lia]. }
  cbn [and_then]. unfold FlushComplete. vcbn'. cbn [seq Nat.sub complete_all complete_one].
  change (ins tx !! 0) with (Some (JCShiftDR bits)). vcbn.
  pose proof (chain_ok_taps _ Hchain) as Htaps. unfold g_max_num_taps in Htaps.
  rewrite zeros_before_small by lia.
  destruct (Nat.eqb_spec (m_num_taps chain) k); [lia|]. fold above.
  replace (Z.to_nat (Z.of_nat above `min` Z.of_nat (length (take n tdo)))) with above by lia.
  eexists; split; [reflexivity|]. split; [reflexivity|]. split; [reflexivity|].
  cbn [m_ctx clear_tdi set_tdi set_state set_mode set_ctx].
  change (outs tx !! 0) with (Some (JCShiftOut 0 old)). cbv beta iota.
  rewrite (drop_ge old), app_nil_r; [reflexivity|]. rewrite length_take, length_drop. lia.
Qed.

(** What the port answers to the scan. *)
Lemma port_puts r scan :
  ∃ os, (port r (puts ++ [scan])).1 = os ++ (port r [scan]).1
    ∧ (port r (puts ++ [scan])).2 = (port r [scan]).2 ∧ fst <$> os = puts.
Proof.
  unfold puts. destruct (_ =? 0)%nat; [by exists []|].
  exists [(PutTMS to_shift_dr, PutOut (length to_shift_dr))]. cbn [app port].
  by destruct (match scan with PutTMS _ => _ | _ => _ end).
Qed.
End roundtrip.

Lemma length_shift_out r bits : length (shift_out r bits) = length bits.
Proof. unfold shift_out. rewrite length_take, length_app. lia. Qed.

Lemma shift_out_spec r k above len bits :
  length r = k + len + above → length bits = above + len →
  take len (drop above (shift_out r bits)) = reverse (tap_register k len r).
Proof.
  intros Hr Hb. unfold shift_out, tap_register. rewrite Hb.
  rewrite take_app_le by (rewrite length_reverse; lia).
  rewrite skipn_firstn_comm, take_take. replace (len `min` (above + len - above)) with len by lia.
  rewrite <-(take_drop k r) at 1. rewrite <-(take_drop len (drop k r)) at 1.
  rewrite !reverse_app, <-!app_assoc, drop_app_length', take_app_length'; [done|..];
    rewrite length_reverse, ?length_take, ?length_drop; lia.
Qed.

Lemma chain_ok_state chain st :
  chain_ok chain → chain_ok (mkChain st (m_ir_lengths chain) (m_num_taps chain)).
Proof. by intros []. Qed.

(** A scan is scheduled behind the way to the shift state ... *)
Lemma ShiftDR_begin `{Uninit} (chain : Chain) (bits : list bool) (o : JCOut) :
  (∀ n, length (uninit_bits n) = n) → chain_ok chain →
  cs_selected_tap (m_state chain) < m_num_taps chain → cs_state (m_state chain) ≠ Unknown →
  bits ≠ [] →
  let k := cs_selected_tap (m_state chain) in
  let above := m_num_taps chain - 1 - k in
  (Z.of_nat (above + length bits) < 2 ^ 31)%Z →
  let tx := begin_tx ([JCShiftDR bits], [o]) false in
  ExecuteBegin chain tx
  = Some (Scheduled tx
      (mkChain (mkChainState Exit1DR k None) (m_ir_lengths chain) (m_num_taps chain)) (m_state chain)
      (puts (m_state chain) ++ [PutTDIGetTDO (replicate above false ++ bits) true])).
Proof.
  intros Huninit Hchain Hsel Hknown Hbits k above Hfits tx. set (st := m_state chain) in *.
  unfold ExecuteBegin. rewrite decide_False by done. cbn [m_first_incomplete tx begin_tx drop ins fst].
  cbn [VisitAll Visit]. fold st. rewrite VisitDR_first by done. cbn [and_then].
  destruct (Build_first Huninit chain Hchain st Hsel Hknown bits o Hbits Hfits)
    as (v & Hb & Hmode & Htms & Hc & Hx & Hst).
  unfold tx. rewrite Hb. cbn [and_then]. unfold FlushTMS. rewrite Htms. cbn [length Nat.eqb mbind option_bind].
  rewrite Hmode. cbn [mbind option_bind]. rewrite Hx, Hc, Hst. reflexivity.
Qed.

(** ... and its answer completes the action with the bits behind those of the TAPs
    above. *)
Lemma ShiftDR_end `{Uninit} (chain : Chain) (st : ChainState) (bits old tdo : list bool)
    (answers : list (JtagAction * JtagOut)) (n : nat) :
  let above := m_num_taps chain - 1 - cs_selected_tap st in
  let scan := PutTDIGetTDO (replicate above false ++ bits) true in
  let tx := begin_tx ([JCShiftDR bits], [JCShiftOut 0 old]) false in
  chain_ok chain → cs_selected_tap st < m_num_taps chain → cs_state st ≠ Unknown →
  fst <$> answers = puts st ++ [scan] → last answers = Some (scan, PutGetOut n tdo) →
  length old = length bits → above + length bits ≤ length (take n tdo) →
  (Z.of_nat (above + length bits) < 2 ^ 31)%Z →
  ∃ tx', ExecuteEnd chain tx 0 st answers None = Some (tx', chain) ∧ status_ok tx' = true
    ∧ outs tx' = [JCShiftOut (length bits) (take (length bits) (drop above (take n tdo)))].
Proof.
  intros above scan tx Hchain Hsel Hknown Hans Hlast Hold Hn Hfits.
  destruct (Complete_first chain Hchain st Hsel Hknown bits old answers n tdo None)
    as (v & Hend & Htms & Hc & Hx); [done..|].
  eexists. split_and!.
  - unfold ExecuteEnd. rewrite decide_False by done. cbn [drop ins tx begin_tx fst VisitAll Visit].
    fold tx. rewrite VisitDR_first by done. cbn [and_then]. unfold tx. rewrite Hend. cbn [and_then].
    unfold FlushTMS. rewrite Htms. cbn [length Nat.eqb mbind option_bind]. rewrite Hx, Hc. reflexivity.
  - reflexivity.
  - reflexivity.
Qed.

(** A scan of the data register of a TAP: the driver schedules it, the
    port's answer completes the transaction, and the action's result is exactly
    what the register of the selected TAP held, whatever its position in the
    chain.  The bits shifted in end up next to TDI, which is the register of the
    selected TAP if that is TAP 0, and [k] positions away from it for TAP [k]. *)
Theorem ShiftDR_reads_selected_tap `{Uninit} (chain : Chain) (bits old r : list bool)
    (Huninit : ∀ n, length (uninit_bits n) = n)
    (Hchain : chain_ok chain)
    (Hsel : cs_selected_tap (m_state chain) < m_num_taps chain)
    (Hknown : cs_state (m_state chain) ≠ Unknown)
    (Hbits : bits ≠ []) (Hold : length old = length bits) :
  let k := cs_selected_tap (m_state chain) in
  let above := m_num_taps chain - 1 - k in
  let tx := begin_tx ([JCShiftDR bits], [JCShiftOut 0 old]) false in
  length r = k + length bits + above → (Z.of_nat (above + length bits) < 2 ^ 31)%Z →
  ∃ chain' jtag tx',
    ExecuteBegin chain tx = Some (Scheduled tx chain' (m_state chain) jtag)
    ∧ ExecuteEnd chain' tx 0 (m_state chain) (port r jtag).1 None = Some (tx', chain')
    ∧ status_ok tx' = true
    ∧ outs tx' = [JCShiftOut (length bits) (reverse (tap_register k (length bits) r))]
    ∧ (port r jtag).2 = reverse bits ++ replicate above false ++ take k r.
Proof.
  intros k above tx Hr Hfits. set (st := m_state chain) in *.
  set (scan := PutTDIGetTDO (replicate above false ++ bits) true). set (jtag := puts st ++ [scan]).
  set (chain' := mkChain (mkChainState Exit1DR k None) (m_ir_lengths chain) (m_num_taps chain)).
  assert (Hchain' : chain_ok chain') by (by apply chain_ok_state).
  assert (Hscan : length (replicate above false ++ bits) = above + length bits)
    by (by rewrite length_app, length_replicate).
  destruct (port_puts st r scan) as (os & Hos & Hr' & Hfst).
  destruct (ShiftDR_end chain' st bits old (shift_out r (replicate above false ++ bits))
    (port r jtag).1 (above + length bits)) as (tx' & Hend & Hok & Hout).
  { exact Hchain'. }
  { exact Hsel. }
  { exact Hknown. }
  { unfold jtag. rewrite Hos, fmap_app, Hfst. reflexivity. }
  { unfold jtag. rewrite Hos, last_app. cbn. by rewrite <-Hscan. }
  { exact Hold. }
  { rewrite length_take, length_shift_out, Hscan.
    change (m_num_taps chain' - 1 - cs_selected_tap st) with above. lia. }
  { exact Hfits. }
  exists chain', jtag, tx'. split_and!; [by apply ShiftDR_begin|exact Hend|exact Hok| |].
  - rewrite Hout. change (m_num_taps chain' - 1 - cs_selected_tap st) with above.
    rewrite (take_ge (shift_out _ _)) by (by rewrite length_shift_out, Hscan).
    by rewrite (shift_out_spec r k).
  - unfold jtag. rewrite Hr'. cbn [port scan snd]. rewrite shift_in_spec by (rewrite Hscan; lia).
    rewrite Hscan, reverse_app, reverse_replicate, <-app_assoc. do 3 f_equal. lia.
Qed.

Section lost_writes.
Context `{Uninit}.

Lemma done_if_completing_ctx v sit :
  done_if_completing v sit
    = set_ctx v (if is_building v then m_ctx v else Done (m_ctx v) sit).
Proof. unfold done_if_completing. destruct (is_building v); by destruct v. Qed.

Lemma VisitSelectTAP_ok v t sit :
  t < m_num_taps (m_chain v) →
  VisitSelectTAP v t sit = Some (true, set_ctx (set_state v (mkChainState (cs_state (v_state v)) t
      (cs_last_written_single_ir (v_state v))) (m_tms v))
    (if is_building v then m_ctx v else Done (m_ctx v) sit)).
Proof.
  intros Ht. unfold VisitSelectTAP. destruct (Nat.leb_spec (m_num_taps (m_chain v)) t); [lia|].
  by rewrite done_if_completing_ctx.
Qed.

Lemma VisitWriteIR_start v x sit :
  m_current_tdi_operation v = InvalidActionID →
  cs_selected_tap (v_state v) < m_num_taps (m_chain v) ≤ length (m_ir_lengths (m_chain v)) →
  ∃ total, VisitWriteIR v x sit = Some (true, set_tdi v (cs_selected_tap (v_state v)) (Some sit)
    JCWriteIRID (cs_selected_tap (v_state v)) total (Some (mkSingleIR (cs_selected_tap (v_state v)) x))).
Proof.
  intros Hop Hsel. unfold VisitWriteIR. rewrite Hop. change (bool_decide _ && _ || _) with false. vcbn.
  destruct (Nat.ltb_spec (cs_selected_tap (v_state v)) (m_num_taps (m_chain v))); [|lia]. vcbn.
  rewrite Hop, decide_True by done. vcbn.
  destruct (count_ir_total (m_num_taps (m_chain v)) (m_ir_lengths (m_chain v)) (m_num_taps (m_chain v))
    (cs_selected_tap (v_state v)) 0) as [total ->]; [lia..|]. by eexists.
Qed.

Lemma VisitWriteIR_more v x sit :
  m_current_tdi_operation v = JCWriteIRID →
  cs_selected_tap (v_state v) < m_last_tdied_tap v ≤ m_num_taps (m_chain v) →
  m_num_taps (m_chain v) ≤ length (m_ir_lengths (m_chain v)) →
  ∃ total, VisitWriteIR v x sit = Some (true, set_tdi v (m_selected_tap_on_first_tdi_sit v)
    (m_first_tdi_sit v) JCWriteIRID (cs_selected_tap (v_state v)) total None).
Proof.
  intros Hop Hsel Hl. unfold VisitWriteIR. rewrite Hop.
  rewrite (proj2 (Nat.leb_gt (m_last_tdied_tap v) (cs_selected_tap (v_state v)))) by lia.
  change (bool_decide (JCWriteIRID ≠ InvalidActionID) && _ || _ && false) with false. vcbn.
  destruct (Nat.ltb_spec (cs_selected_tap (v_state v)) (m_num_taps (m_chain v))); [|lia]. vcbn.
  rewrite Hop, decide_False by done. vcbn.
  destruct (count_ir_total (m_last_tdied_tap v) (m_ir_lengths (m_chain v)) (m_last_tdied_tap v)
    (cs_selected_tap (v_state v)) (m_total_tdi v)) as [total ->]; [lia..|]. vcbn. by eexists.
Qed.

Lemma FlushTDI_skip v first send :
  m_current_tdi_operation v = JCWriteIRID → m_first_tdi_sit v = Some first →
  m_maybe_single_ir v = cs_last_written_single_ir (v_state v) →
  FlushTDI v send = Some (true, clear_tdi (set_ctx v
    (if is_building v then m_ctx v else foldl Done (m_ctx v) (seq first (send - first))))).
Proof.
  intros Hop Hf Hsame. unfold FlushTDI. rewrite Hop, Hf, decide_False by done. cbn [mbind option_bind].
  rewrite !bool_decide_eq_true_2 by done. done.
Qed.

(** The whole run over two writes to different TAPs. *)
Lemma VisitAll_two_writes c st md tx a b x y :
  cs_last_written_single_ir st = None → b < a → a < m_num_taps c →
  m_num_taps c ≤ length (m_ir_lengths c) →
  ∃ v, VisitAll (new_visitor c tx md st) 0 [JCSelectTAP a; JCWriteIR x; JCSelectTAP b; JCWriteIR y]
      = Some (true, v)
    ∧ m_mode v = md ∧ m_chain v = c ∧ v_state v = mkChainState (cs_state st) b None
    ∧ m_ctx v = match md with
        | Building _ => tx
        | _ => foldl Done tx [0; 2; 1; 2; 3]
        end.
Proof.
  intros Hnone Hb Ha Hl. cbn [VisitAll Visit].
  rewrite VisitSelectTAP_ok by done. cbn [and_then].
  match goal with |- context [VisitWriteIR ?v x 1] =>
    destruct (VisitWriteIR_start v x 1) as [t1 ->]; [done|vcbn; lia|] end. cbn [and_then].
  rewrite VisitSelectTAP_ok by (vcbn; lia). cbn [and_then].
  match goal with |- context [VisitWriteIR ?v y 3] =>
    destruct (VisitWriteIR_more v y 3) as [t2 ->]; [done|vcbn; lia|done|] end. cbn [and_then].
  rewrite (FlushTDI_skip _ 1) by (done || (vcbn; done)). cbn [and_then].
  eexists. split; [reflexivity|]. split_and!; try done; [vcbn; by rewrite Hnone|].
  by destruct md.
Qed.
End lost_writes.

(** While the driver remembers no single instruction, writing the
    instruction registers of two TAPs in one transaction schedules no JTAG
    action at all, and the transaction is reported as complete: the two missing
    values compare equal. *)
Theorem two_ir_writes_lost `{Uninit} (chain : Chain) (a b : nat) (x y : Z) (o : list JCOut)
    (Hchain : chain_ok chain) (Ha : a < m_num_taps chain) (Hb : b < a)
    (Hknown : cs_state (m_state chain) ≠ Unknown)
    (Hnone : cs_last_written_single_ir (m_state chain) = None) :
  let tx := begin_tx ([JCSelectTAP a; JCWriteIR x; JCSelectTAP b; JCWriteIR y], o) false in
  ∃ chain' tx', ExecuteBegin chain tx = Some (Scheduled tx chain' (m_state chain) [])
    ∧ ExecuteEnd chain' tx 0 (m_state chain) [] None = Some (tx', chain')
    ∧ status_ok tx' = true.
Proof.
  intros tx. pose proof Hchain as [Harr Htaps _].
  set (chain' := mkChain (mkChainState (cs_state (m_state chain)) b None) (m_ir_lengths chain)
    (m_num_taps chain)).
  exists chain', (with_first_incomplete tx 4).
  assert (m_num_taps chain ≤ length (m_ir_lengths chain)) by lia.
  destruct (VisitAll_two_writes chain (m_state chain) (Building []) tx a b x y)
    as (v & Hv & Hm & Hc & Hst & Hx); [done..|].
  destruct (VisitAll_two_writes chain' (m_state chain) (Completing [] None) tx a b x y)
    as (v' & Hv' & Hm' & Hc' & Hst' & Hx'); [done..|].
  split_and!; [| |done].
  - unfold ExecuteBegin. rewrite decide_False by done.
    change (drop (m_first_incomplete tx) (ins tx)) with
      [JCSelectTAP a; JCWriteIR x; JCSelectTAP b; JCWriteIR y].
    change (m_first_incomplete tx) with 0. rewrite Hv. cbn [mbind option_bind].
    rewrite Hm. cbn [mbind option_bind]. by rewrite Hx, Hc, Hst.
  - unfold ExecuteEnd. rewrite decide_False by done.
    change (drop 0 (ins tx)) with [JCSelectTAP a; JCWriteIR x; JCSelectTAP b; JCWriteIR y].
    rewrite Hv'. cbn [mbind option_bind]. by rewrite Hx', Hc'.
Qed.

(** ** Witnesses *)

Definition zero_memory : Uninit := λ n, replicate n false.

Lemma zero_memory_length n : length (@uninit_bits zero_memory n) = n.
Proof. apply length_replicate. Qed.

(** Two TAPs with IR lengths 4 and 5. *)
Definition two_taps (s : JCState) (selected : nat) : Chain :=
  {| m_state := mkChainState s selected None; m_ir_lengths := 4 :: 5 :: replicate 254 0;
     m_num_taps := 2 |}.

Lemma two_taps_ok s selected : chain_ok (two_taps s selected).
Proof.
  split; [done|vm_compute; lia|]. unfold g_max_ir_length.
  intros [|[|i]] Hi; cbn in Hi; [exists 4|exists 5|lia]; (split; [done|lia]).
Qed.

(** Why [plan_ok] asks for what it does.  An empty scan, of a data register or of an
    instruction register of no bits, has no clock that could leave the shift state:
    the driver then believes that the port has left it.  A chain that ends below the
    selected TAP fails the assertion of the next scan. *)
Definition tracked (b : option begun) (s0 : JCState) : option bool :=
  match b with
  | Some (Scheduled _ chain _ jtag) =>
      Some (bool_decide (tap_run s0 (tms_sequences jtag) = cs_state (m_state chain)))
  | _ => None
  end.

Definition one_tap (s : JCState) : Chain := mkChain (mkChainState s 0 None) (4 :: replicate 255 0) 1.

Theorem excluded_plans_break :
  let begins chain actions := @ExecuteBegin zero_memory chain (begin_tx (actions, []) false) in
  tracked (begins (one_tap RunTestIdle) [JCShiftDR []]) RunTestIdle = Some false
  ∧ tracked (begins (one_tap RunTestIdle) [JCSetIRLength 0 0; JCWriteIR 5]) RunTestIdle = Some false
  ∧ begins (two_taps RunTestIdle 0) [JCSelectTAP 1; JCSetIRLength 0 4; JCWriteIR 1] = None.
Proof. vm_compute. split_and!; reflexivity. Qed.

Definition demo_tx : JCTx :=
  begin_tx ([JCSelectTAP 1; JCWriteIR 3; JCSelectTAP 0; JCWriteIR 1; JCGoToState 1 100;
             JCShiftDR [true; false; true]],
            [JCDone; JCDone; JCDone; JCDone; JCDone; JCShiftOut 0 [false; false; false]]) false.

Lemma ExecuteBegin_tracks_tap_witness :
  (∃ tx' chain', @ExecuteBegin zero_memory (two_taps Unknown 0) demo_tx = Some (Rejected tx' chain')
     ∧ is_Some (m_error_buffer tx') ∧ m_first_incomplete tx' = m_first_incomplete demo_tx)
  ∨ (∃ chain' jtag, @ExecuteBegin zero_memory (two_taps Unknown 0) demo_tx
       = Some (Scheduled demo_tx chain' (m_state (two_taps Unknown 0)) jtag)
     ∧ tap_run PauseIR (tms_sequences jtag) = cs_state (m_state chain')
     ∧ cs_state (m_state chain') ≠ Unknown
     ∧ chain_ok chain' ∧ cs_selected_tap (m_state chain') < m_num_taps chain').
Proof.
  apply (@ExecuteBegin_tracks_tap zero_memory (two_taps Unknown 0) demo_tx PauseIR).
  - exact zero_memory_length.
  - apply two_taps_ok.
  - vm_compute. lia.
  - vm_compute. reflexivity.
  - vm_compute. reflexivity.
  - discriminate.
  - intros Hk. by destruct Hk.
Defined.

Lemma ShiftDR_reads_selected_tap_witness :
  ∃ chain' jtag tx',
    @ExecuteBegin zero_memory (two_taps PauseDR 1)
      (begin_tx ([JCShiftDR [true; true; false]], [JCShiftOut 0 [false; false; false]]) false)
      = Some (Scheduled (begin_tx ([JCShiftDR [true; true; false]],
                          [JCShiftOut 0 [false; false; false]]) false)
                chain' (m_state (two_taps PauseDR 1)) jtag)
    ∧ @ExecuteEnd zero_memory chain'
        (begin_tx ([JCShiftDR [true; true; false]], [JCShiftOut 0 [false; false; false]]) false)
        0 (m_state (two_taps PauseDR 1)) (port [false; true; false; true] jtag).1 None
      = Some (tx', chain')
    ∧ status_ok tx' = true
    ∧ outs tx' = [JCShiftOut 3 (reverse (tap_register 1 3 [false; true; false; true]))]
    ∧ (port [false; true; false; true] jtag).2
      = reverse [true; true; false] ++ replicate 0 false ++ take 1 [false; true; false; true].
Proof.
  apply (@ShiftDR_reads_selected_tap zero_memory (two_taps PauseDR 1) [true; true; false]
    [false; false; false] [false; true; false; true]).
  - exact zero_memory_length.
  - apply two_taps_ok.
  - vm_compute. lia.
  - discriminate.
  - discriminate.
  - reflexivity.
  - reflexivity.
  - reflexivity.
Defined.

Lemma two_ir_writes_lost_witness :
  ∃ chain' tx', @ExecuteBegin zero_memory (two_taps TestLogicReset 0)
      (begin_tx ([JCSelectTAP 1; JCWriteIR 3; JCSelectTAP 0; JCWriteIR 1],
         [JCDone; JCDone; JCDone; JCDone]) false)
      = Some (Scheduled (begin_tx ([JCSelectTAP 1; JCWriteIR 3; JCSelectTAP 0; JCWriteIR 1],
         [JCDone; JCDone; JCDone; JCDone]) false) chain' (m_state (two_taps TestLogicReset 0)) [])
    ∧ @ExecuteEnd zero_memory chain'
        (begin_tx ([JCSelectTAP 1; JCWriteIR 3; JCSelectTAP 0; JCWriteIR 1],
         [JCDone; JCDone; JCDone; JCDone]) false)
        0 (m_state (two_taps TestLogicReset 0)) [] None = Some (tx', chain')
    ∧ status_ok tx' = true.
Proof.
  apply (@two_ir_writes_lost zero_memory (two_taps TestLogicReset 0) 1 0 3 1
    [JCDone; JCDone; JCDone; JCDone]).
  - apply two_taps_ok.
  - vm_compute. lia.
  - lia.
  - discriminate.
  - reflexivity.
Defined.
