(* ===== verification/TransactionBuffer.v ===== *)
(** * TransactionBuffer: the memory of a transaction
    ([src/src/libedr/driver/TransactionBuffer.hpp]).

    A buffer is a linked list of chunks; objects are allocated in the last used
    one, the tail, and read back in order through an [InputStream].  The list is
    the list of its chunks and a pointer to a chunk its index.  [alloc] says
    whether the memory resource can provide that many bytes, [fresh_bytes] what
    is in them.  Sizes and offsets are natural numbers; the difference in
    [NumContiguousAhead] is 0 for a position beyond the allocated memory, where the
    [size_t] of the code wraps; no position that a buffer hands out is there. *)
From S2P Require Import Prelude.

(** [sizeof(Header)]: three words, aligned like [std::max_align_t]. *)
Definition g_initial_offset : nat := 32.

Record Chunk := mkChunk {
  total_size : nat;
  allocated : nat;
  (** the bytes after the header *)
  data : list Z;
}.

Record Buffer := mkBuffer {
  chunks : list Chunk;
  m_tail : option nat;
  m_offset : nat;
  m_had_allocation_failure : bool;
}.

Definition empty_buffer : Buffer := mkBuffer [] None g_initial_offset false.

Definition Position : Type := option nat * nat.

Class FreshBytes := fresh_bytes : nat → list Z.

Section buffer.
Context `{FreshBytes} (t_min_chunk_size : nat) (alloc : nat → bool).

Definition set_allocated (c : Chunk) (n : nat) : Chunk := mkChunk (total_size c) n (data c).

Definition make_chunk (total : nat) : option Chunk :=
  if alloc total
  then Some (mkChunk total g_initial_offset (fresh_bytes (total - g_initial_offset)))
  else None.

(** The lists that start at chunk [i] are deleted by cutting the list there. *)
Definition DeleteFrom (b : Buffer) (i : nat) : Buffer :=
  mkBuffer (take i (chunks b)) (m_tail b) (m_offset b) (m_had_allocation_failure b).

(** The chunk after [i] chunks becomes the tail: it is reused if it is big
    enough, and replaced otherwise. *)
Definition next_chunk (b : Buffer) (i total : nat) : bool * Buffer :=
  let fresh b :=
    match make_chunk total with
    | Some c => (true, mkBuffer (chunks b ++ [c]) (Some i) g_initial_offset
                         (m_had_allocation_failure b))
    | None => (false, mkBuffer (chunks b) (m_tail b) (m_offset b) true)
    end in
  match chunks b !! i with
  | Some c =>
      if (total <=? total_size c)%nat
      then (true, mkBuffer (<[i := set_allocated c g_initial_offset]> (chunks b)) (Some i)
                    g_initial_offset (m_had_allocation_failure b))
      else fresh (DeleteFrom b i)
  | None => fresh b
  end.

Definition GoToNextChunk (b : Buffer) (min_data_size : nat) : bool * Buffer :=
  let total := Nat.max (g_initial_offset + min_data_size) t_min_chunk_size in
  next_chunk b (match m_tail b with None => 0 | Some t => S t end) total.

(** The rest of [Allocate], when the tail has room. *)
Definition place (b : Buffer) (size : nat) : option (Position * bool * Buffer) :=
  t ← m_tail b;
  c ← chunks b !! t;
  let new_offset := m_offset b + size in
  Some ((Some t, m_offset b), true,
        mkBuffer (<[t := set_allocated c new_offset]> (chunks b)) (Some t) new_offset
          (m_had_allocation_failure b)).

(** [None] is a dangling tail; a failed allocation gives no pointer. *)
Definition Allocate (b : Buffer) (size : nat) : option (Position * bool * Buffer) :=
  full ← (match m_tail b with
          | None => Some true
          | Some t => c ← chunks b !! t; Some (total_size c <? m_offset b + size)%nat
          end);
  if (full : bool) then
    let '(ok, b) := GoToNextChunk b size in
    if (ok : bool) then place b size else Some ((None, g_initial_offset), false, b)
  else place b size.

(** The [assert] of [Align] is a [None]. *)
Definition Align (b : Buffer) (alignment : nat) : option Buffer :=
  let o := Z.to_nat (align_up (Z.of_nat alignment) (Z.of_nat (m_offset b))) in
  match m_tail b with
  | None => Some (mkBuffer (chunks b) None o (m_had_allocation_failure b))
  | Some t =>
      c ← chunks b !! t;
      check (o <=? total_size c)%nat;;
      Some (mkBuffer (<[t := set_allocated c o]> (chunks b)) (Some t) o
              (m_had_allocation_failure b))
  end.

Definition Clear (b : Buffer) : Buffer :=
  mkBuffer (chunks b) None g_initial_offset (m_had_allocation_failure b).

Definition Begin (b : Buffer) : Position :=
  (match m_tail b with None => None | Some _ => Some 0 end, g_initial_offset).

Definition End (b : Buffer) : Position := (m_tail b, m_offset b).

(** Bytes in front of a position, on [size_t]. *)
Definition Distance (b : Buffer) (pos : Position) : Z :=
  let before := match pos.1 with Some i => take i (chunks b) | None => chunks b end in
  u64[foldr (λ c acc, Z.of_nat (allocated c) - Z.of_nat g_initial_offset + acc)%Z 0%Z before
      + Z.of_nat pos.2 - Z.of_nat g_initial_offset]%Z.

Fixpoint FromDistanceLoop (cs : list Chunk) (i : nat) (tail : option nat) (distance : Z)
    : option (nat * Z) :=
  match cs with
  | [] => None
  | c :: cs =>
      if bool_decide (Some i ≠ tail)
         && (Z.of_nat (allocated c) - Z.of_nat g_initial_offset <=? distance)%Z
      then FromDistanceLoop cs (S i) tail u64[distance - Z.of_nat (allocated c)]%Z
      else Some (i, distance)
  end.

Definition FromDistance (b : Buffer) (distance : Z) : option (option nat * Z) :=
  match chunks b with
  | [] => Some (None, Z.of_nat g_initial_offset)
  | cs =>
      '(i, d) ← FromDistanceLoop cs 0 (m_tail b) distance;
      Some (Some i, u64[d + Z.of_nat g_initial_offset]%Z)
  end.

(** [ForEachChunk]: the spans it passes to its argument. *)
Definition ForEachChunk (b : Buffer) : list (list Z) :=
  match m_tail b with
  | None => []
  | Some t => (λ c, take (allocated c - g_initial_offset) (data c)) <$> take (S t) (chunks b)
  end.

(** ** Reading *)

Definition NumContiguousAhead (b : Buffer) (pos : Position) : option nat :=
  i ← pos.1; c ← chunks b !! i; Some (allocated c - pos.2).

Definition Advance (b : Buffer) (pos : Position) (size : nat) : option Position :=
  i ← pos.1;
  c ← chunks b !! i;
  let o := pos.2 + size in
  if (allocated c <=? o)%nat && bool_decide (is_Some (chunks b !! S i))
  then Some (Some (S i), g_initial_offset)
  else Some (Some i, o).

(** ** Objects *)

(** Construct an object in the memory at a position. *)
Definition store (b : Buffer) (pos : Position) (bytes : list Z) : Buffer :=
  match pos.1 with
  | None => b
  | Some i =>
      mkBuffer (alter (λ c, mkChunk (total_size c) (allocated c)
                               (splice (pos.2 - g_initial_offset) bytes (data c)))
                  i (chunks b))
        (m_tail b) (m_offset b) (m_had_allocation_failure b)
  end.

Definition emplace (b : Buffer) (bytes : list Z) : option (Position * Buffer) :=
  '(pos, ok, b) ← Allocate b (length bytes);
  Some (pos, if (ok : bool) then store b pos bytes else b).

Fixpoint emplace_all (b : Buffer) (objs : list (list Z)) : option (list Position * Buffer) :=
  match objs with
  | [] => Some ([], b)
  | o :: objs =>
      '(p, b) ← emplace b o;
      '(ps, b) ← emplace_all b objs;
      Some (p :: ps, b)
  end.

(** The object of [size] bytes at a position, if it fits the chunk, and the
    position after it. *)
Definition extract (b : Buffer) (pos : Position) (size : nat) : option (list Z * Position) :=
  i ← pos.1;
  c ← chunks b !! i;
  ahead ← NumContiguousAhead b pos;
  check (size <=? ahead)%nat;;
  next ← Advance b pos size;
  Some (take size (drop (pos.2 - g_initial_offset) (data c)), next).

Fixpoint extract_all (b : Buffer) (pos : Position) (sizes : list nat)
    : option (list (Position * list Z) * Position) :=
  match sizes with
  | [] => Some ([], pos)
  | n :: sizes =>
      '(o, next) ← extract b pos n;
      '(os, last) ← extract_all b next sizes;
      Some ((pos, o) :: os, last)
  end.
End buffer.

(** ** Layout *)

(** A chunk that holds the objects of [g], and a buffer that holds the objects
    of [gs], a group of them per chunk. *)
Record chunk_holds (c : Chunk) (g : list (list Z)) : Prop := {
  holds_allocated : allocated c = g_initial_offset + length (concat g);
  holds_fits : allocated c ≤ total_size c;
  holds_data : length (data c) = total_size c - g_initial_offset;
  holds_bytes : take (length (concat g)) (data c) = concat g;
}.

Record stores (b : Buffer) (gs : list (list (list Z))) : Prop := {
  holds_chunks : Forall2 chunk_holds (chunks b) gs;
  holds_some : Forall (λ g, g ≠ []) gs;
  holds_tail : m_tail b = match gs with [] => None | _ => Some (length gs - 1) end;
  holds_offset : m_offset b = g_initial_offset + length (concat (default [] (last gs)));
  holds_failure : m_had_allocation_failure b = false;
}.

(** Objects without bytes do not move the stream: where the order of reading is
    to be seen in the positions, there are none. *)
Definition holds (b : Buffer) (gs : list (list (list Z))) : Prop :=
  stores b gs ∧ Forall (Forall (λ o, o ≠ [])) gs.

Fixpoint group_positions (i o : nat) (g : list (list Z)) : list Position :=
  match g with
  | [] => []
  | x :: g => (Some i, o) :: group_positions i (o + length x) g
  end.

Fixpoint positions_from (i : nat) (gs : list (list (list Z))) : list Position :=
  match gs with
  | [] => []
  | g :: gs => group_positions i g_initial_offset g ++ positions_from (S i) gs
  end.

Lemma group_positions_app i o g1 g2 :
  group_positions i o (g1 ++ g2) = group_positions i o g1 ++ group_positions i (o + length (concat g1)) g2.
Proof.
  revert o. induction g1 as [|x g1 IH]; intros o; simpl; [by rewrite Nat.add_0_r|].
  by rewrite IH, length_app, Nat.add_assoc.
Qed.

Lemma positions_from_app i gs1 gs2 :
  positions_from i (gs1 ++ gs2) = positions_from i gs1 ++ positions_from (i + length gs1) gs2.
Proof.
  revert i. induction gs1 as [|g gs1 IH]; intros i; simpl; [by rewrite Nat.add_0_r|].
  rewrite IH, app_assoc. by replace (i + S (length gs1)) with (S i + length gs1) by lia.
Qed.

Lemma length_group_positions i o g : length (group_positions i o g) = length g.
Proof. revert o. induction g as [|x g IH]; intros o; simpl; [done|]. by rewrite IH. Qed.

Lemma length_positions_from i gs : length (positions_from i gs) = length (concat gs).
Proof.
  revert i. induction gs as [|g gs IH]; intros i; simpl; [done|].
  by rewrite !length_app, length_group_positions, IH.
Qed.

(** The object behind a position. *)
Lemma group_positions_lookup i o g n p :
  group_positions i o g !! n = Some p →
  p = (Some i, o + length (concat (take n g))) ∧ n < length g.
Proof.
  revert o n. induction g as [|x g IH]; intros o [|n] Hp; cbn in Hp; simplify_eq.
  - simpl. split; [f_equal; lia|lia].
  - apply IH in Hp as [-> Hn]. cbn [take concat length]. rewrite length_app, Nat.add_assoc.
    split; [done|lia].
Qed.

Lemma positions_from_lookup k gs n p :
  positions_from k gs !! n = Some p →
  ∃ gs1 g gs2 m, gs = gs1 ++ g :: gs2 ∧ n = length (concat gs1) + m ∧ m < length g
    ∧ p = (Some (k + length gs1), g_initial_offset + length (concat (take m g))).
Proof.
  revert k n. induction gs as [|g gs IH]; intros k n Hp; cbn [positions_from] in Hp; [done|].
  apply lookup_app_Some in Hp as [Hp|[Hge Hp]].
  - apply group_positions_lookup in Hp as [-> Hn]. exists [], g, gs, n.
    cbn [length concat app]. by rewrite Nat.add_0_r.
  - rewrite length_group_positions in Hge, Hp.
    apply IH in Hp as (gs1 & g' & gs2 & m & -> & Hn & Hm & ->).
    exists (g :: gs1), g', gs2, m. cbn [length concat app]. rewrite length_app. split_and!; try done.
    + lia.
    + do 2 f_equal. lia.
Qed.

Section proofs.
Context `{FreshBytes} (fresh_length : ∀ n, length (fresh_bytes n) = n).
Context (min_size : nat).

Lemma empty_stores : stores empty_buffer [].
Proof. split; done. Qed.

(** An object is appended to a chunk. *)
Definition append_chunk (c : Chunk) (bytes : list Z) : Chunk :=
  mkChunk (total_size c) (allocated c + length bytes)
    (splice (allocated c - g_initial_offset) bytes (data c)).

Lemma append_holds c g bytes :
  chunk_holds c g → allocated c + length bytes ≤ total_size c →
  chunk_holds (append_chunk c bytes) (g ++ [bytes]).
Proof.
  intros [Hall Hfit Hdata Hbytes] Hl.
  assert (length (concat (g ++ [bytes])) = length (concat g) + length bytes) as Hc.
  { rewrite concat_app, length_app. simpl. by rewrite app_nil_r. }
  replace (allocated c - g_initial_offset) with (length (concat g)) in * by lia.
  split; cbn [append_chunk allocated total_size data].
  - lia.
  - done.
  - rewrite length_splice by lia. done.
  - replace (allocated c - g_initial_offset) with (length (concat g)) by lia.
    rewrite Hc, take_splice, Hbytes, concat_app by lia. simpl. by rewrite app_nil_r.
Qed.

(** There is memory for [n] bytes at a position. *)
Definition room (b : Buffer) (p : Position) (n : nat) : Prop :=
  ∃ i c, p.1 = Some i ∧ chunks b !! i = Some c ∧ p.2 - g_initial_offset + n ≤ length (data c).

(** [place] and the construction of the object on the last chunk. *)
Lemma place_last cs c off fail bytes :
  off = allocated c → off - g_initial_offset + length bytes ≤ length (data c) →
  ∃ b', place (mkBuffer (cs ++ [c]) (Some (length cs)) off fail) (length bytes)
      = Some ((Some (length cs), off), true, b')
    ∧ room b' (Some (length cs), off) (length bytes)
    ∧ store b' (Some (length cs), off) bytes
      = mkBuffer (cs ++ [append_chunk c bytes]) (Some (length cs)) (off + length bytes) fail.
Proof.
  intros -> Hroom. unfold place. cbn [m_tail chunks mbind option_bind m_offset].
  rewrite lookup_app_r, Nat.sub_diag by lia. cbn [lookup list_lookup mbind option_bind].
  eexists; split; [done|]. rewrite insert_app_r_alt, Nat.sub_diag by lia. split.
  { exists (length cs), (set_allocated c (allocated c + length bytes)). split_and!; [done| |done].
    cbn [chunks]. rewrite lookup_app_r, Nat.sub_diag by lia. done. }
  unfold store. cbn [fst chunks m_tail]. rewrite alter_app_r_alt, Nat.sub_diag by lia.
  reflexivity.
Qed.

(** The object goes to a new chunk. *)
Lemma emplace_fresh b gs bytes :
  stores b gs →
  ∃ b1 b2, GoToNextChunk min_size (λ _, true) b (length bytes) = (true, b1)
    ∧ place b1 (length bytes) = Some ((Some (length gs), g_initial_offset), true, b2)
    ∧ room b2 (Some (length gs), g_initial_offset) (length bytes)
    ∧ stores (store b2 (Some (length gs), g_initial_offset) bytes) (gs ++ [[bytes]]).
Proof.
  intros [Hch Hsome Htail Hoff Hfail]. pose proof (Forall2_length _ _ _ Hch) as Hlen.
  unfold GoToNextChunk. set (total := _ `max` _).
  replace (match m_tail b with None => 0 | Some t => S t end) with (length gs).
  2: { rewrite Htail. destruct gs; simpl; lia. }
  unfold next_chunk. rewrite (lookup_ge_None_2 (chunks b)) by lia. cbn [make_chunk].
  set (c := mkChunk _ _ _).
  destruct (place_last (chunks b) c g_initial_offset (m_had_allocation_failure b) bytes)
    as (b2 & Hplace & Hroom & Hstore); [done|cbn [c data]; rewrite fresh_length; lia|].
  do 2 eexists; split; [done|]. rewrite <-Hlen at 1 2. split; [exact Hplace|].
  rewrite <-Hlen, Hstore. split; [done|]. split; cbn [chunks m_tail m_offset m_had_allocation_failure].
  - apply Forall2_app; [done|]. constructor; [|done].
    apply (append_holds c []).
    + split; cbn [c data allocated total_size concat length take]; [lia| |by apply fresh_length|done].
      subst total. lia.
    + cbn [c allocated total_size]. subst total. lia.
  - apply Forall_app. split; [done|]. by constructor.
  - rewrite length_app. destruct gs; simpl in *; f_equal; lia.
  - rewrite last_snoc. simpl. by rewrite app_nil_r.
  - done.
Qed.

(** A new chunk is taken only for an object that needs it. *)
Definition opened (gs : list (list (list Z))) : Prop :=
  Forall (λ g, ∃ o g', g = o :: g' ∧ o ≠ []) (tail gs).

Lemma opened_snoc gs g : opened gs → (gs ≠ [] → ∃ o g', g = o :: g' ∧ o ≠ []) → opened (gs ++ [g]).
Proof.
  intros Ho Hg. unfold opened in *. destruct gs as [|g0 gs]; [done|]. cbn [tail app] in *.
  apply Forall_app. split; [done|]. constructor; [|done]. by apply Hg.
Qed.

Lemma Allocate_stores b gs bytes :
  stores b gs → opened gs →
  ∃ p b1 gs', Allocate min_size (λ _, true) b (length bytes) = Some (p, true, b1)
    ∧ room b1 p (length bytes) ∧ stores (store b1 p bytes) gs' ∧ opened gs'
    ∧ concat gs' = concat gs ++ [bytes]
    ∧ positions_from 0 gs' = positions_from 0 gs ++ [p].
Proof.
  intros Hh Hop. destruct (emplace_fresh b gs bytes Hh) as (b1 & b2 & Hgo & Hplace & Hroom2 & Hh').
  assert (Hfresh : (gs ≠ [] → bytes ≠ []) → ∃ p b1 gs',
      Some ((Some (length gs), g_initial_offset), true, b2) = Some (p, true, b1)
      ∧ room b1 p (length bytes) ∧ stores (store b1 p bytes) gs' ∧ opened gs'
      ∧ concat gs' = concat gs ++ [bytes] ∧ positions_from 0 gs' = positions_from 0 gs ++ [p]).
  { intros Hb. do 3 eexists; split; [done|]. split_and!; [done|exact Hh'| | |].
    - apply opened_snoc; [done|]. intros Hne. exists bytes, []. split; [done|]. by apply Hb.
    - by rewrite concat_app.
    - by rewrite positions_from_app. }
  unfold Allocate.
  pose proof Hh as [Hch Hsome Htail Hoff Hfail].
  destruct gs as [|g gs _] using rev_ind.
  { rewrite Htail. cbn [mbind option_bind]. rewrite Hgo, Hplace. by apply Hfresh. }
  apply Forall2_app_inv_r in Hch as (cs & cl & Hcs & Hcl & Hchunks).
  apply Forall2_cons_inv_r in Hcl as (c & cl' & Hc & Hnil & ->).
  apply Forall2_nil_inv_r in Hnil as ->. pose proof (Forall2_length _ _ _ Hcs) as Hlen.
  assert (Htail' : m_tail b = Some (length cs)).
  { rewrite Htail, length_app. simpl. destruct gs; simpl in *; f_equal; lia. }
  rewrite last_snoc in Hoff. change (default [] (Some g)) with g in Hoff. pose proof (holds_allocated _ _ Hc) as Hall.
  rewrite Htail'. cbn [mbind option_bind]. rewrite Hchunks, lookup_app_r, Nat.sub_diag by lia.
  cbn [lookup list_lookup mbind option_bind].
  destruct (Nat.ltb_spec (total_size c) (m_offset b + length bytes)) as [Hfull|Hroom].
  { rewrite Hgo, Hplace. apply Hfresh. intros _ ->. pose proof (holds_fits _ _ Hc). simpl in Hfull. lia. }
  assert (Hb' : b = mkBuffer (cs ++ [c]) (Some (length cs)) (m_offset b) false)
    by (destruct b; simpl in *; congruence).
  destruct (place_last cs c (m_offset b) false bytes) as (b3 & Hp & Hrm & Hst);
    [lia|rewrite (holds_data _ _ Hc); lia|].
  rewrite <-Hb' in Hp. rewrite Hp.
  exists (Some (length cs), m_offset b), b3, (gs ++ [g ++ [bytes]]). rewrite Hst.
  split; [done|]. split; [done|]. split; [split; cbn [chunks m_tail m_offset m_had_allocation_failure]|split; [|split]].
  - apply Forall2_app; [done|]. constructor; [|done]. apply append_holds; [done|lia].
  - apply Forall_app in Hsome as [? _]. apply Forall_app. split; [done|].
    constructor; [by destruct g|done].
  - rewrite length_app. destruct gs; simpl in *; f_equal; lia.
  - rewrite last_snoc. change (default [] (Some (g ++ [bytes]))) with (g ++ [bytes]).
    rewrite concat_app, length_app. cbn [concat]. rewrite app_nil_r. lia.
  - done.
  - unfold opened in *. destruct gs as [|g0 gs]; [done|]. cbn [tail app] in *.
    apply Forall_app in Hop as [? Hg]. apply Forall_app. split; [done|].
    rewrite Forall_singleton in Hg |- *. destruct Hg as (o & g' & -> & Ho). by exists o, (g' ++ [bytes]).
  - rewrite !concat_app. simpl. by rewrite !app_nil_r, app_assoc.
  - rewrite !positions_from_app. cbn [positions_from]. rewrite group_positions_app. simpl.
    rewrite !app_nil_r, app_assoc, Hlen. do 3 f_equal. rewrite Hoff. done.
Qed.

Lemma emplace_stores b gs bytes :
  stores b gs → opened gs →
  ∃ p b' gs', emplace min_size (λ _, true) b bytes = Some (p, b') ∧ stores b' gs' ∧ opened gs'
    ∧ concat gs' = concat gs ++ [bytes]
    ∧ positions_from 0 gs' = positions_from 0 gs ++ [p].
Proof.
  intros Hh Hop.
  destruct (Allocate_stores b gs bytes Hh Hop) as (p & b1 & gs' & Ha & _ & Hs & Ho & Hc & Hp).
  exists p, (store b1 p bytes), gs'. unfold emplace. by rewrite Ha.
Qed.

Lemma emplace_all_stores b gs objs :
  stores b gs → opened gs →
  ∃ ps b' gs', emplace_all min_size (λ _, true) b objs = Some (ps, b') ∧ stores b' gs' ∧ opened gs'
    ∧ concat gs' = concat gs ++ objs ∧ positions_from 0 gs' = positions_from 0 gs ++ ps.
Proof.
  revert b gs. induction objs as [|o objs IH]; intros b gs Hh Hop; cbn [emplace_all].
  { exists [], b, gs. rewrite !app_nil_r. done. }
  destruct (emplace_stores b gs o Hh Hop) as (p & b1 & gs1 & -> & Hh1 & Ho1 & Hc1 & Hp1).
  cbn [mbind option_bind]. destruct (IH b1 gs1 Hh1 Ho1) as (ps & b2 & gs2 & -> & Hh2 & Ho2 & Hc2 & Hp2).
  cbn [mbind option_bind]. exists (p :: ps), b2, gs2. split_and!; [done|done|done| |].
  - by rewrite Hc2, Hc1, <-app_assoc.
  - by rewrite Hp2, Hp1, <-app_assoc.
Qed.
End proofs.

(** ** Reading back *)

Lemma extract_all_app b pos s1 s2 :
  extract_all b pos (s1 ++ s2) =
  ('(os1, p1) ← extract_all b pos s1;
   '(os2, p2) ← extract_all b p1 s2;
   Some (os1 ++ os2, p2)).
Proof.
  revert pos. induction s1 as [|n s1 IH]; intros pos; cbn [extract_all app].
  { cbn [mbind option_bind]. by destruct (extract_all b pos s2) as [[]|]. }
  destruct (extract b pos n) as [[o next]|]; cbn [mbind option_bind]; [|done].
  rewrite IH. destruct (extract_all b next s1) as [[os1 p1]|]; cbn [mbind option_bind]; [|done].
  by destruct (extract_all b p1 s2) as [[os2 p2]|].
Qed.

(** The position after the last object of chunk [i]. *)
Definition after_chunk (b : Buffer) (i o : nat) : Position :=
  if bool_decide (is_Some (chunks b !! S i)) then (Some (S i), g_initial_offset) else (Some i, o).

Lemma extract_bytes c g1 o g2 :
  chunk_holds c (g1 ++ o :: g2) →
  take (length o) (drop (g_initial_offset + length (concat g1) - g_initial_offset) (data c)) = o.
Proof.
  intros [Hall Hfit Hdata Hbytes].
  rewrite concat_app, length_app in Hall, Hbytes. cbn [concat] in Hall, Hbytes.
  rewrite length_app in Hall, Hbytes.
  replace (g_initial_offset + length (concat g1) - g_initial_offset) with (length (concat g1)) by lia.
  apply (f_equal (λ l, take (length o) (drop (length (concat g1)) l))) in Hbytes.
  rewrite skipn_firstn_comm, take_take, drop_app_length, take_app_length in Hbytes.
  rewrite <-Hbytes at 2. f_equal. lia.
Qed.

Lemma extract_one b i c g1 o g2 :
  chunks b !! i = Some c → chunk_holds c (g1 ++ o :: g2) → Forall (λ o, o ≠ []) g2 →
  let here := g_initial_offset + length (concat g1) in
  extract b (Some i, here) (length o) =
    Some (o, match g2 with [] => after_chunk b i (here + length o) | _ => (Some i, here + length o) end).
Proof.
  intros Hc Hh Hobj here. pose proof (holds_allocated _ _ Hh) as Hall.
  unfold extract, NumContiguousAhead, Advance.
  cbn [fst snd mbind option_bind]. rewrite Hc. cbn [mbind option_bind].
  rewrite concat_app, length_app in Hall. cbn [concat] in Hall. rewrite length_app in Hall.
  destruct (Nat.leb_spec (length o) (allocated c - here)); [|lia]. cbn [check mbind option_bind].
  pose proof (extract_bytes c g1 o g2 Hh) as Hx. fold here in Hx. rewrite Hx. clear Hx.
  destruct g2 as [|o2 g2]; [cbn [concat length] in Hall|].
  - destruct (Nat.leb_spec (allocated c) (here + length o)); [|lia]. unfold after_chunk. simpl.
    by case_bool_decide.
  - inversion_clear Hobj as [|?? Ho _]. cbn [concat] in Hall. rewrite length_app in Hall.
    destruct (Nat.leb_spec (allocated c) (here + length o)); [|done].
    destruct o2; [done|simpl in *; lia].
Qed.

Lemma extract_group b i c g1 g2 :
  chunks b !! i = Some c → chunk_holds c (g1 ++ g2) → Forall (λ o, o ≠ []) g2 → g2 ≠ [] →
  let here := g_initial_offset + length (concat g1) in
  extract_all b (Some i, here) (length <$> g2) =
    Some (zip (group_positions i here g2) g2, after_chunk b i (here + length (concat g2))).
Proof.
  intros Hc. revert g1. induction g2 as [|o g2 IH]; intros g1 Hh Hobj Hne here; [done|].
  apply Forall_cons in Hobj as [_ Hobj].
  cbn [fmap list_fmap extract_all group_positions zip zip_with].
  pose proof (extract_one b i c g1 o g2 Hc Hh Hobj) as Hone. cbv zeta in Hone. fold here in Hone.
  rewrite Hone. cbn [mbind option_bind].
  destruct g2 as [|o2 g2].
  { cbn. by rewrite app_nil_r. }
  specialize (IH (g1 ++ [o])). rewrite <-app_assoc in IH. specialize (IH Hh Hobj).
  rewrite concat_app, length_app in IH. cbn [concat] in IH. rewrite app_nil_r in IH.
  fold here. replace (here + length o) with (g_initial_offset + (length (concat g1) + length o)) by (subst here; lia).
  rewrite IH by done. cbn [mbind option_bind concat].
  replace (g_initial_offset + (length (concat g1) + length o) + length (o2 ++ concat g2))
    with (here + length (o ++ o2 ++ concat g2)); [done|].
  subst here. rewrite (length_app o). lia.
Qed.

Lemma extract_groups b cs1 cs2 gs2 :
  chunks b = cs1 ++ cs2 → Forall2 chunk_holds cs2 gs2 → Forall (λ g, g ≠ []) gs2 →
  Forall (Forall (λ o, o ≠ [])) gs2 → gs2 ≠ [] →
  extract_all b (Some (length cs1), g_initial_offset) (length <$> concat gs2) =
    Some (zip (positions_from (length cs1) gs2) (concat gs2),
          (Some (length cs1 + length gs2 - 1),
           g_initial_offset + length (concat (default [] (last gs2))))).
Proof.
  intros Hb Hh. revert cs1 Hb. induction Hh as [|c g cs2 gs2 Hc Hh IH]; intros cs1 Hb Hsome Hobj Hne; [done|].
  inversion_clear Hsome as [|?? Hg Hsome']. apply Forall_cons in Hobj as [Hog Hobj].
  assert (Hlk : chunks b !! length cs1 = Some c).
  { rewrite Hb, lookup_app_r, Nat.sub_diag by lia. done. }
  pose proof (extract_group b _ c [] g Hlk Hc Hog Hg) as Hgrp. cbn [concat length] in Hgrp.
  rewrite Nat.add_0_r in Hgrp. cbv zeta in Hgrp.
  cbn [concat positions_from]. rewrite fmap_app, extract_all_app, Hgrp. cbn [mbind option_bind].
  rewrite zip_with_app by (by rewrite length_group_positions).
  unfold after_chunk. rewrite Hb, lookup_app_r by lia. replace (S (length cs1) - length cs1) with 1 by lia.
  destruct Hh as [|c2 g2 cs2 gs2 Hc2 Hh].
  { rewrite bool_decide_eq_false_2 by (by intros []). cbn.
    rewrite !app_nil_r. do 4 f_equal. lia. }
  rewrite bool_decide_eq_true_2 by done.
  specialize (IH (cs1 ++ [c])). rewrite length_app, <-app_assoc, Nat.add_1_r in IH.
  rewrite IH by done. cbn [mbind option_bind]. rewrite last_cons_cons.
  replace (S (length cs1) + length (g2 :: gs2) - 1)
    with (length cs1 + length (g :: g2 :: gs2) - 1) by (simpl; lia). done.
Qed.

(** *** Objects without bytes *)

(** The position [p] stands in front of the objects [objs].  When the bytes of a
    chunk are used up the stream moves on to the next one, past objects without
    bytes that were placed behind them: these are [e]. *)
Record before (b : Buffer) (p : Position) (objs : list (list Z)) (i : nat) (c : Chunk)
    (e g1 g : list (list Z)) (gs : list (list (list Z))) : Prop := {
  before_pos : p = (Some i, g_initial_offset + length (concat g1));
  before_chunk : chunks b !! i = Some c;
  before_holds : chunk_holds c (g1 ++ g);
  before_rest : Forall2 chunk_holds (drop (S i) (chunks b)) gs;
  before_opened : Forall (λ g, ∃ o g', g = o :: g' ∧ o ≠ []) gs;
  before_empty : Forall (λ o, o = []) e;
  before_objs : objs = e ++ g ++ concat gs;
  before_moves : concat g = [] → gs ≠ [] → e ++ g ≠ [];
}.

Definition stands (b : Buffer) (p : Position) (objs : list (list Z)) : Prop :=
  ∃ i c e g1 g gs, before b p objs i c e g1 g gs.

Lemma begin_stands b gs : stores b gs → opened gs → gs ≠ [] → stands b (Begin b) (concat gs).
Proof.
  intros [Hch Hsome Htail _ _] Hop Hne. destruct gs as [|g gs]; [done|].
  unfold Begin. rewrite Htail. destruct (chunks b) as [|c cs] eqn:Hcs; [by inversion Hch|].
  apply Forall2_cons in Hch as [Hc Hch]. apply Forall_cons in Hsome as [Hg _].
  exists 0, c, [], [], g, gs. split; rewrite ?Hcs; done.
Qed.

Lemma rest_nil b i : Forall2 chunk_holds (drop (S i) (chunks b)) [] → chunks b !! S i = None.
Proof.
  intros Hg%Forall2_nil_inv_r. rewrite <-(Nat.add_0_r (S i)), <-lookup_drop, Hg. done.
Qed.

Lemma rest_cons b i g gs :
  Forall2 chunk_holds (drop (S i) (chunks b)) (g :: gs) →
  ∃ c, chunks b !! S i = Some c ∧ chunk_holds c g
    ∧ Forall2 chunk_holds (drop (S (S i)) (chunks b)) gs.
Proof.
  intros Hg. apply Forall2_cons_inv_r in Hg as (c & cs & Hc & Hcs & Hd). exists c.
  assert (Hlk : chunks b !! S i = Some c).
  { rewrite <-(Nat.add_0_r (S i)), <-lookup_drop, Hd. done. }
  split_and!; [done|done|]. rewrite (drop_S _ c) in Hd by done. by injection Hd as ->.
Qed.

Lemma concat_nil (g : list (list Z)) : length (concat g) = 0 → Forall (λ o, o = []) g.
Proof. intros Hl%nil_length_inv. by apply concat_nil_Forall. Qed.

(** The move at the end of [Advance], when [used] bytes of the chunk have been
    read and the objects [g] are left of it. *)
Lemma advance_stands b i c e g1 g gs :
  chunks b !! i = Some c → chunk_holds c (g1 ++ g) →
  Forall2 chunk_holds (drop (S i) (chunks b)) gs →
  Forall (λ g, ∃ o g', g = o :: g' ∧ o ≠ []) gs → Forall (λ o, o = []) e →
  let o := g_initial_offset + length (concat g1) in
  stands b (if (allocated c <=? o)%nat && bool_decide (is_Some (chunks b !! S i))
            then (Some (S i), g_initial_offset) else (Some i, o)) (e ++ g ++ concat gs).
Proof.
  intros Hc Hh Hgs Hop He o. pose proof (holds_allocated _ _ Hh) as Hall.
  rewrite concat_app, length_app in Hall.
  destruct gs as [|g2 gs].
  { rewrite (rest_nil b i Hgs), bool_decide_eq_false_2 by (by intros []). rewrite andb_false_r.
    exists i, c, e, g1, g, []. by split. }
  destruct (rest_cons b i g2 gs Hgs) as (c2 & Hc2 & Hh2 & Hgs2).
  rewrite Hc2, bool_decide_eq_true_2, andb_true_r by done.
  destruct (Nat.leb_spec (allocated c) o) as [Hle|Hlt].
  - assert (Hg : Forall (λ o, o = []) g) by (apply concat_nil; unfold o in Hle; lia).
    apply Forall_cons in Hop as [(x & g' & -> & Hx) Hop].
    exists (S i), c2, (e ++ g), [], (x :: g'), gs. split; try done.
    + apply Forall_app. by split.
    + cbn [concat]. by rewrite <-app_assoc.
    + cbn [concat]. by destruct x.
  - exists i, c, e, g1, g, (g2 :: gs). split; try done. intros Hg _.
    unfold o in Hlt. rewrite Hg in Hall. cbn [length] in Hall. lia.
Qed.

Lemma Advance_eq b i c o n : chunks b !! i = Some c →
  Advance b (Some i, o) n =
    Some (if (allocated c <=? o + n)%nat && bool_decide (is_Some (chunks b !! S i))
          then (Some (S i), g_initial_offset) else (Some i, o + n)).
Proof. intros Hc. unfold Advance. cbn [fst snd mbind option_bind]. rewrite Hc. cbn [mbind option_bind]. by destruct (_ && _). Qed.

(** One object is read and the stream stands in front of the rest. *)
Lemma extract_stands b p x objs :
  stands b p (x :: objs) → ∃ p', extract b p (length x) = Some (x, p') ∧ stands b p' objs.
Proof.
  intros (i & c & e & g1 & g & gs & [-> Hc Hh Hgs Hop He Hobjs Hmv]).
  pose proof (holds_allocated _ _ Hh) as Hall. rewrite concat_app, length_app in Hall.
  unfold extract, NumContiguousAhead. rewrite (Advance_eq b i c _ _ Hc).
  cbn [fst snd mbind option_bind]. rewrite Hc.
  cbn [mbind option_bind]. set (o := g_initial_offset + length (concat g1)) in *.
  destruct e as [|y e].
  - destruct g as [|y g]; [exfalso; cbn in Hobjs, Hmv; destruct gs; [done|by apply Hmv]|].
    cbn in Hobjs. injection Hobjs as <- ->. cbn [concat] in Hall. rewrite length_app in Hall.
    destruct (Nat.leb_spec (length x) (allocated c - o)); [|lia]. cbn [check mbind option_bind].
    pose proof (extract_bytes c g1 x g Hh) as Hx. fold o in Hx. rewrite Hx. eexists. split; [done|].
    replace (o + length x) with (g_initial_offset + length (concat (g1 ++ [x])))
      by (rewrite concat_app, length_app; cbn [concat]; rewrite app_nil_r; unfold o; lia).
    apply (advance_stands b i c [] (g1 ++ [x]) g gs); try done. by rewrite <-app_assoc.
  - cbn in Hobjs. injection Hobjs as <- ->. apply Forall_cons in He as [-> He]. cbn [length].
    destruct (Nat.leb_spec 0 (allocated c - o)); [|lia]. cbn [check mbind option_bind take].
    eexists. split; [done|]. rewrite Nat.add_0_r. by apply (advance_stands b i c e g1 g gs).
Qed.

(** The position an object was placed at stands in front of it. *)
Lemma positions_stand b gs k p :
  stores b gs → opened gs → positions_from 0 gs !! k = Some p → stands b p (drop k (concat gs)).
Proof.
  intros [Hch _ _ _ _] Hop Hp.
  apply positions_from_lookup in Hp as (gs1 & g & gs2 & m & -> & -> & Hm & ->).
  apply Forall2_app_inv_r in Hch as (cs1 & cs2 & Hcs1 & Hcs2 & Hb).
  apply Forall2_cons_inv_r in Hcs2 as (c & cs2' & Hc & Hcs2 & ->).
  pose proof (Forall2_length _ _ _ Hcs1) as Hlen.
  assert (Hop2 : Forall (λ g, ∃ o g', g = o :: g' ∧ o ≠ []) gs2).
  { unfold opened in Hop. destruct gs1 as [|g0 gs1]; cbn [app tail] in Hop; [done|].
    apply Forall_app in Hop as [_ Hop]. by apply Forall_cons in Hop as [_ ?]. }
  exists (length cs1), c, [], (take m g), (drop m g), gs2. split; try done.
  - by rewrite Hlen.
  - rewrite Hb, lookup_app_r, Nat.sub_diag by lia. done.
  - by rewrite take_drop.
  - rewrite Hb, drop_app_ge by lia. replace (S (length cs1) - length cs1) with 1 by lia. done.
  - rewrite concat_app, drop_app_ge by lia.
    replace (length (concat gs1) + m - length (concat gs1)) with m by lia. cbn [concat].
    rewrite drop_app_le by lia. done.
  - intros _ _ Hnil. apply (f_equal length) in Hnil. cbn [app] in Hnil.
    rewrite length_drop in Hnil. simpl in Hnil. lia.
Qed.

(** The bytes behind a position, which tell positions apart. *)
Definition remaining (b : Buffer) (p : Position) : nat :=
  match p.1 with
  | None => 0
  | Some i =>
      default 0 ((λ c, allocated c - p.2) <$> chunks b !! i)
      + sum_list ((λ c, allocated c - g_initial_offset) <$> drop (S i) (chunks b))
  end.

Lemma stands_remaining b p objs : stands b p objs → length (concat objs) = remaining b p.
Proof.
  intros (i & c & e & g1 & g & gs & [-> Hc Hh Hrest _ He -> _]). unfold remaining. cbn [fst snd].
  rewrite Hc. cbn [fmap option_fmap option_map default from_option id].
  assert (He' : concat e = []) by (by apply concat_nil_Forall).
  rewrite !concat_app, He', !length_app, (holds_allocated _ _ Hh), concat_app, length_app. cbn [length].
  assert (length (concat (concat gs))
    = sum_list ((λ c, allocated c - g_initial_offset) <$> drop (S i) (chunks b))) as ->; [|lia].
  induction Hrest as [|c' g' cs gs Hc' _ IH]; [done|]. cbn [concat fmap list_fmap].
  rewrite concat_app, length_app, IH, (holds_allocated _ _ Hc'). cbn [sum_list foldr]. unfold sum_list. simpl. lia.
Qed.

(** A position in front of an object with bytes is the only one there. *)
Lemma stands_unique b p q o objs :
  stands b p (o :: objs) → stands b q (o :: objs) → o ≠ [] → p = q.
Proof.
  assert (Hin : ∀ p, stands b p (o :: objs) → o ≠ [] → ∃ i c, p.1 = Some i ∧ chunks b !! i = Some c
    ∧ g_initial_offset ≤ p.2 < allocated c).
  { intros r (i & c & e & g1 & g & gs & [-> Hc Hh _ _ He Hobjs Hmv]) Ho. exists i, c. split_and!; [done|done|cbn [snd]; lia|].
    pose proof (holds_allocated _ _ Hh) as Hal. rewrite concat_app, length_app in Hal. cbn [snd].
    destruct e as [|y e]; [|by injection Hobjs as <- _; apply Forall_cons in He as [-> _]].
    destruct g as [|y g]; [exfalso; cbn in Hobjs, Hmv; destruct gs; [done|by apply Hmv]|].
    injection Hobjs as <- _. cbn [concat] in Hal. rewrite length_app in Hal. destruct o; [done|]. cbn [length] in Hal. lia. }
  intros Hp Hq Ho. pose proof (stands_remaining _ _ _ Hp) as Hrp. pose proof (stands_remaining _ _ _ Hq) as Hrq.
  rewrite Hrq in Hrp. clear Hrq. destruct (Hin p Hp Ho) as (i & c & Hi & Hc & Ho1).
  destruct (Hin q Hq Ho) as (j & c' & Hj & Hc' & Ho2). clear Hin Hp Hq.
  destruct p as [pi po], q as [qi qo]. cbn in *. subst. unfold remaining in Hrp. cbn in Hrp.
  rewrite Hc, Hc' in Hrp. cbn in Hrp.
  assert (Hlt : ∀ i j c, i < j → chunks b !! j = Some c →
    allocated c - g_initial_offset
    + sum_list ((λ c, allocated c - g_initial_offset) <$> drop (S j) (chunks b))
    ≤ sum_list ((λ c, allocated c - g_initial_offset) <$> drop (S i) (chunks b))).
  { clear. intros i j c Hij Hc. replace j with (S i + (j - S i)) in Hc by lia. rewrite <-lookup_drop in Hc.
    apply list_elem_of_split_length in Hc as (l1 & l2 & Hd & Hl).
    assert (drop (S j) (chunks b) = l2) as ->.
    { replace (S j) with (S i + S (length l1)) by lia. rewrite <-drop_drop, Hd, drop_app_ge by lia.
      by replace (S (length l1) - length l1) with 1 by lia. }
    rewrite Hd, fmap_app. clear. induction l1 as [|c1 l1 IH]; cbn -[Nat.sub g_initial_offset] in *; lia. }
  destruct (lt_eq_lt_dec i j) as [[Hij| ->]|Hij].
  - specialize (Hlt i j c' Hij Hc'). lia.
  - rewrite Hc in Hc'. injection Hc' as <-. f_equal. lia.
  - specialize (Hlt j i c Hij Hc). lia.
Qed.

(** *** Objects that are overwritten *)

Lemma store_nil b p : store b p [] = b.
Proof.
  destruct b as [cs tail off fail], p as [[i|] o]; [|done]. unfold store. cbn [fst snd chunks m_tail m_offset].
  f_equal. rewrite <-(list_alter_id (λ c, c) cs i) at 2 by done. apply list_alter_ext; [|done].
  intros [total al dat] _. f_equal. unfold splice. cbn [length app]. by rewrite Nat.add_0_r, take_drop.
Qed.

(** The positions of a stream depend on the sizes alone. *)
Lemma Advance_store b p bytes pos n : Advance (store b p bytes) pos n = Advance b pos n.
Proof.
  destruct p as [[i|] o]; [|done]. unfold Advance, store. destruct pos as [[j|] o']; [|done]. cbn [fst snd mbind option_bind chunks].
  assert (Hl : ∀ k, alter (λ c, mkChunk (total_size c) (allocated c)
      (splice (o - g_initial_offset) bytes (data c))) i (chunks b) !! k
    = (λ c, if decide (i = k) then mkChunk (total_size c) (allocated c)
        (splice (o - g_initial_offset) bytes (data c)) else c) <$> chunks b !! k).
  { intros k. destruct (decide (i = k)) as [->|Hik]; [by rewrite list_lookup_alter_eq|].
    rewrite list_lookup_alter_ne by done. by destruct (chunks b !! k). }
  rewrite !Hl. destruct (chunks b !! j) as [c|]; [|done]. cbn [fmap option_fmap option_map mbind option_bind].
  rewrite (bool_decide_ext (is_Some (_ <$> chunks b !! S j)) (is_Some (chunks b !! S j)))
    by (by rewrite fmap_is_Some).
  by destruct (decide (i = j)).
Qed.

Lemma overwrite_holds c g1 o g2 bytes :
  chunk_holds c (g1 ++ o :: g2) → length bytes = length o →
  chunk_holds (mkChunk (total_size c) (allocated c)
                 (splice (g_initial_offset + length (concat g1) - g_initial_offset) bytes (data c)))
    (g1 ++ bytes :: g2).
Proof.
  intros [Hal Hfit Hdata Hbytes] Hl. rewrite Nat.add_comm, Nat.add_sub.
  assert (Hlen : length (concat (g1 ++ bytes :: g2)) = length (concat (g1 ++ o :: g2))).
  { rewrite !concat_app, !length_app. cbn [concat]. rewrite !length_app. lia. }
  assert (Hfits : length (concat g1) + length bytes ≤ length (data c)).
  { rewrite Hdata. rewrite concat_app, length_app in Hal. cbn [concat] in Hal. rewrite length_app in Hal. lia. }
  split; cbn [allocated total_size data]; [lia|done|by rewrite length_splice|].
  rewrite Hlen. clear Hlen.
  assert (Hd : data c = concat g1 ++ o ++ concat g2 ++ drop (length (concat (g1 ++ o :: g2))) (data c)).
  { rewrite <-(take_drop (length (concat (g1 ++ o :: g2))) (data c)) at 1. rewrite Hbytes, concat_app.
    cbn [concat]. by rewrite <-!app_assoc. }
  rewrite Hd. unfold splice. rewrite take_app_length.
  rewrite drop_app_add, Hl, drop_app_length.
  rewrite !concat_app. cbn [concat]. rewrite !app_assoc.
  apply take_app_length'. rewrite !length_app. lia.
Qed.

(** Overwriting an object with one of the same size. *)
Lemma store_replaces b gs k p o bytes :
  stores b gs → opened gs → positions_from 0 gs !! k = Some p → concat gs !! k = Some o →
  length bytes = length o → o ≠ [] →
  ∃ gs', stores (store b p bytes) gs' ∧ opened gs' ∧ concat gs' = <[k := bytes]> (concat gs).
Proof.
  intros [Hch Hsome Htail Hoff Hfail] Hop Hp Hk Hl Ho.
  apply positions_from_lookup in Hp as (gs1 & g & gs2 & m & -> & -> & Hm & ->).
  rewrite concat_app, lookup_app_r, Nat.add_comm, Nat.add_sub in Hk by lia. cbn [concat] in Hk.
  rewrite lookup_app_l in Hk by done. apply list_elem_of_split_length in Hk as (g1 & g2 & -> & ->).
  rewrite take_app_length.
  apply Forall2_app_inv_r in Hch as (cs1 & cs2 & Hcs1 & Hcs2 & Hb).
  apply Forall2_cons_inv_r in Hcs2 as (c & cs2' & Hc & Hcs2 & ->).
  pose proof (Forall2_length _ _ _ Hcs1) as Hlen.
  exists (gs1 ++ (g1 ++ bytes :: g2) :: gs2). split; [|split].
  - unfold store. cbn [fst snd Nat.add]. rewrite Hb, <-Hlen, alter_app_r_alt, Nat.sub_diag by lia.
    split; cbn [chunks m_tail m_offset m_had_allocation_failure].
    + apply Forall2_app; [done|]. constructor; [|done]. by eapply overwrite_holds.
    + apply Forall_app in Hsome as [? Hs]. apply Forall_cons in Hs as [_ ?].
      apply Forall_app. split; [done|]. constructor; [by destruct g1|done].
    + rewrite Htail, !length_app. destruct gs1; done.
    + rewrite Hoff. rewrite !last_app. destruct gs2 as [|g3 gs2]; [|done]. cbn.
      rewrite !concat_app, !length_app. cbn [concat]. rewrite !length_app. lia.
    + done.
  - unfold opened in *. assert (Hg : (∃ o' g', g1 ++ o :: g2 = o' :: g' ∧ o' ≠ []) →
      ∃ o' g', g1 ++ bytes :: g2 = o' :: g' ∧ o' ≠ []).
    { intros (o' & g' & Heq & Hne). destruct g1 as [|x g1]; cbn in *.
      - exists bytes, g2. split; [done|]. intros ->. by destruct o.
      - injection Heq as -> <-. eauto. }
    destruct gs1 as [|g0 gs1]; cbn [app tail] in *; [done|].
    apply Forall_app in Hop as [? Hop]. apply Forall_cons in Hop as [? ?].
    apply Forall_app. split; [done|]. constructor; [by apply Hg|done].
  - rewrite !concat_app, insert_app_r. cbn [concat]. f_equal.
    rewrite <-!app_assoc. cbn [app]. by rewrite insert_app_r_alt, Nat.sub_diag by lia.
Qed.

(** The bytes in front of a position. *)
Lemma Distance_positions gs b i p :
  stores b gs → positions_from 0 gs !! i = Some p →
  (Z.of_nat (length (concat (concat gs))) < 2 ^ 64)%Z →
  Distance b p = Z.of_nat (length (concat (take i (concat gs)))).
Proof.
  intros [Hch _ _ _ _] Hp Hsmall. apply positions_from_lookup in Hp as (gs1 & g & gs2 & m & -> & -> & Hm & ->).
  apply Forall2_app_inv_r in Hch as (cs1 & cs2 & Hcs1 & _ & Hb).
  pose proof (Forall2_length _ _ _ Hcs1) as Hlen.
  assert (Htake : take (length (concat gs1) + m) (concat (gs1 ++ g :: gs2)) = concat gs1 ++ take m g).
  { rewrite concat_app, take_app_add. cbn [concat]. by rewrite take_app_le by lia. }
  rewrite Htake, concat_app, length_app.
  assert (Hle : length (concat (concat gs1)) + length (concat (take m g))
    ≤ length (concat (concat (gs1 ++ g :: gs2)))).
  { rewrite <-(take_drop (length (concat gs1) + m) (concat (gs1 ++ g :: gs2))), Htake.
    rewrite !concat_app, !length_app. lia. }
  unfold Distance. cbn [fst snd]. rewrite Hb, <-Hlen, Nat.add_0_l, take_app_length.
  assert (foldr (λ c acc, Z.of_nat (allocated c) - Z.of_nat g_initial_offset + acc)%Z 0%Z cs1
    = Z.of_nat (length (concat (concat gs1)))) as ->.
  { clear -Hcs1. induction Hcs1 as [|c g cs gs Hc Hcs IH]; [done|]. cbn [foldr concat].
    rewrite IH, (holds_allocated _ _ Hc), concat_app, length_app. lia. }
  rewrite wrap_small; lia.
Qed.

Lemma ForEachChunk_holds b gs : stores b gs → concat (ForEachChunk b) = concat (concat gs).
Proof.
  intros [Hch _ Htail _ _]. pose proof (Forall2_length _ _ _ Hch) as Hlen. unfold ForEachChunk.
  rewrite Htail. destruct gs as [|g gs]; [done|].
  rewrite take_ge by (simpl in *; lia). clear Htail Hlen.
  induction Hch as [|c g' cs gs' Hc Hch IH]; [done|]. cbn [fmap list_fmap concat].
  rewrite concat_app, <-(holds_bytes _ _ Hc), (holds_allocated _ _ Hc). f_equal; [f_equal; lia|exact IH].
Qed.

(** *** Buffers from a pool *)

(** A buffer that is new or was cleared: its chunks may be used again. *)
Record cleared (b : Buffer) : Prop := {
  cleared_tail : m_tail b = None;
  cleared_offset : m_offset b = g_initial_offset;
  cleared_failure : m_had_allocation_failure b = false;
  cleared_data : Forall (λ c, length (data c) = total_size c - g_initial_offset) (chunks b);
}.

Lemma empty_cleared : cleared empty_buffer.
Proof. by split. Qed.

Lemma Clear_cleared b gs : stores b gs → cleared (Clear b).
Proof.
  intros [Hch _ _ _ Hf]. split; [done|done|done|]. cbn [Clear chunks].
  eapply Forall2_Forall_l; [exact Hch|]. apply Forall_true. intros g c Hc. apply Hc.
Qed.

(** The first object of such a buffer is at its beginning. *)
Lemma Allocate_cleared `{FreshBytes} min_size b n :
  (∀ n, length (fresh_bytes n) = n) → cleared b →
  ∃ c cs, Allocate min_size (λ _, true) b n
      = Some ((Some 0, g_initial_offset), true,
              mkBuffer (c :: cs) (Some 0) (g_initial_offset + n) false)
    ∧ allocated c = g_initial_offset + n ∧ n ≤ length (data c).
Proof.
  intros Hfresh [Ht Ho Hf Hd]. unfold Allocate, GoToNextChunk. rewrite Ht. cbn [mbind option_bind].
  set (total := Nat.max (g_initial_offset + n) min_size). unfold next_chunk, make_chunk, place.
  destruct b as [[|c cs] tail off fail]; cbn in Ht, Ho, Hf, Hd |- *; subst.
  - eexists _, _. split_and!; [reflexivity|done|]. cbn. rewrite Hfresh. unfold total. lia.
  - apply Forall_cons in Hd as [Hc _].
    destruct (Nat.leb_spec total (total_size c)); cbn; eexists _, _; (split_and!; [reflexivity|done|]);
      cbn; rewrite ?Hfresh; unfold total in *; lia.
Qed.

(** A buffer of a pool that reads back what is put in it: [cleared_buffer_replays]
    below shows why there may be no second chunk. *)
Definition reusable (b : Buffer) : Prop := cleared b ∧ length (chunks b) ≤ 1.

(** The objects of [gs] are in the buffer, or there are none and it is such a
    buffer. *)
Definition holding (b : Buffer) (gs : list (list (list Z))) : Prop :=
  stores b gs ∨ gs = [] ∧ reusable b.

Lemma empty_reusable : reusable empty_buffer.
Proof. split; [apply empty_cleared|simpl; lia]. Qed.

Lemma holding_failure b gs : holding b gs → m_had_allocation_failure b = false.
Proof. intros [Hs|[_ [Hc _]]]; [apply Hs|apply Hc]. Qed.

Lemma holding_stores b gs : holding b gs → gs ≠ [] → stores b gs.
Proof. by intros [?|[-> _]]. Qed.

Lemma holding_chunks b gs : holding b gs → concat (ForEachChunk b) = concat (concat gs).
Proof.
  intros [Hs|[-> [[Ht _ _ _] _]]]; [by apply ForEachChunk_holds|]. unfold ForEachChunk. by rewrite Ht.
Qed.

Section reuse.
Context `{FreshBytes} (fresh_length : ∀ n, length (fresh_bytes n) = n) (min_size : nat).

Lemma Allocate_reusable b bytes :
  reusable b →
  ∃ b1, Allocate min_size (λ _, true) b (length bytes) = Some ((Some 0, g_initial_offset), true, b1)
    ∧ room b1 (Some 0, g_initial_offset) (length bytes)
    ∧ stores (store b1 (Some 0, g_initial_offset) bytes) [[bytes]].
Proof.
  intros [[Ht Ho Hf Hd] Hl]. unfold Allocate, GoToNextChunk. rewrite Ht. cbn [mbind option_bind].
  set (total := Nat.max (g_initial_offset + length bytes) min_size).
  assert (∃ c, next_chunk (λ _, true) b 0 total = (true, mkBuffer [c] (Some 0) g_initial_offset false)
    ∧ chunk_holds c [] ∧ total ≤ total_size c) as (c & -> & Hc & Htotal).
  { assert (Hn : chunk_holds (mkChunk total g_initial_offset (fresh_bytes (total - g_initial_offset))) []).
    { split; cbn [allocated total_size data concat length take];
        [lia|unfold total; lia|apply fresh_length|done]. }
    destruct b as [[|c [|]] tail off fail]; cbn in Ht, Ho, Hf, Hd, Hl; subst; [| |lia]; unfold next_chunk; cbn.
    - eexists. split_and!; [done|done|done].
    - apply Forall_cons in Hd as [Hd _]. destruct (Nat.leb_spec total (total_size c)); cbn.
      + eexists. split_and!; [done| |done].
        split; cbn [set_allocated allocated total_size data concat length take];
          [lia|unfold total in *; lia|done|done].
      + eexists. split_and!; [done|done|done]. }
  pose proof (holds_allocated _ _ Hc) as Hal. cbn [concat length] in Hal.
  destruct (place_last [] c g_initial_offset false bytes) as (b1 & Hp & Hr & Hs);
    [lia|rewrite (holds_data _ _ Hc); unfold total in *; lia|].
  exists b1. split; [exact Hp|]. split; [exact Hr|]. cbn [app length] in Hs. rewrite Hs.
  split; cbn; [|by repeat constructor|done|by rewrite app_nil_r|done].
  constructor; [|done]. apply (append_holds c []); [done|unfold total in *; lia].
Qed.

Lemma Allocate_holding b gs bytes :
  holding b gs → opened gs →
  ∃ p b1 gs', Allocate min_size (λ _, true) b (length bytes) = Some (p, true, b1)
    ∧ room b1 p (length bytes) ∧ stores (store b1 p bytes) gs' ∧ opened gs'
    ∧ concat gs' = concat gs ++ [bytes]
    ∧ positions_from 0 gs' = positions_from 0 gs ++ [p].
Proof.
  intros [Hs|[-> Hr]] Ho; [by apply Allocate_stores|].
  destruct (Allocate_reusable b bytes Hr) as (b1 & Ha & Hroom & Hs).
  exists (Some 0, g_initial_offset), b1, [[bytes]]. by split_and!.
Qed.
End reuse.

(** What is allocated in a new buffer can be read back: advancing from
    [Begin] by the sizes of the objects visits the positions they were placed
    at, finds their bytes and stops at [End]; the chunks together hold exactly
    the bytes of the objects, and the distance of an object is the number of
    bytes in front of it. *)
Theorem buffer_roundtrip `{FreshBytes} (min_size : nat) (objs : list (list Z))
    (Hfresh : ∀ n, length (fresh_bytes n) = n)
    (Hobjs : Forall (λ o, o ≠ []) objs)
    (Hsmall : (Z.of_nat (length (concat objs)) < 2 ^ 64)%Z) :
  ∃ ps b, emplace_all min_size (λ _, true) empty_buffer objs = Some (ps, b)
    ∧ length ps = length objs
    ∧ extract_all b (Begin b) (length <$> objs) = Some (zip ps objs, End b)
    ∧ concat (ForEachChunk b) = concat objs
    ∧ ∀ i p, ps !! i = Some p → Distance b p = Z.of_nat (length (concat (take i objs))).
Proof.
  destruct (emplace_all_stores Hfresh min_size empty_buffer [] objs empty_stores)
    as (ps & b & gs & Hall & Hh & _ & Hc & Hp); [constructor|]. simpl in Hc, Hp. subst ps objs.
  apply Forall_concat in Hobjs.
  exists (positions_from 0 gs), b. split; [done|]. pose proof Hh as [Hch Hsome Htail Hoff Hfail].
  split_and!.
  - apply length_positions_from.
  - unfold Begin, End. rewrite Htail, Hoff. destruct gs as [|g gs]; [done|].
    by apply (extract_groups b [] (chunks b) (g :: gs)).
  - by apply ForEachChunk_holds.
  - intros i p Hi. by apply Distance_positions.
Qed.

(** A buffer that is used again after [Clear] keeps its old chunks.  When
    the first new object fits the first chunk, reading past it does not stop at
    [End] but goes on to the old second chunk, where the object of the previous
    use is still found. *)
Theorem cleared_buffer_replays `{FreshBytes} (min_size : nat) (b : Buffer) (g0 : list (list Z))
    (o1 : list Z) (g1 : list (list Z)) (gs : list (list (list Z))) (bytes : list Z) (c0 : Chunk)
    (Hholds : holds b (g0 :: (o1 :: g1) :: gs)) (Hbytes : bytes ≠ [])
    (Hfirst : chunks b !! 0 = Some c0)
    (Hfits : Nat.max (g_initial_offset + length bytes) min_size ≤ total_size c0) :
  ∃ p b' next, emplace min_size (λ _, true) (Clear b) bytes = Some (p, b')
    ∧ extract b' (Begin b') (length bytes) = Some (bytes, (Some 1, g_initial_offset))
    ∧ End b' = (Some 0, g_initial_offset + length bytes)
    ∧ extract b' (Some 1, g_initial_offset) (length o1) = Some (o1, next).
Proof.
  destruct Hholds as [[Hch _ _ _ _] Hobj].
  destruct b as [cs tl off fl]. cbn [chunks] in *.
  inversion Hch as [|c0' ? cs' ? Hc0 Hch']; subst. inversion Hch' as [|c1 ? cs2 ? Hc1 Hch'']; subst.
  cbn in Hfirst. simplify_eq. clear Hch Hch' Hch''.
  set (r0 := set_allocated c0 g_initial_offset).
  assert (Hc : chunk_holds r0 []).
  { destruct Hc0. split; cbn [r0 set_allocated allocated total_size data concat length take];
      [lia|lia|done|done]. }
  pose proof (append_holds r0 [] bytes Hc) as Happ.
  cbn [r0 set_allocated allocated total_size] in Happ. specialize (Happ ltac:(lia)).
  set (b' := mkBuffer (append_chunk r0 bytes :: c1 :: cs2) (Some 0) (g_initial_offset + length bytes) fl).
  assert (Hemp : emplace min_size (λ _, true) (Clear (mkBuffer (c0 :: c1 :: cs2) tl off fl)) bytes
    = Some ((Some 0, g_initial_offset), b')).
  { unfold emplace, Allocate, Clear, GoToNextChunk, next_chunk.
    cbn [m_tail mbind option_bind chunks lookup list_lookup].
    destruct (Nat.leb_spec (Nat.max (g_initial_offset + length bytes) min_size) (total_size c0)); [|lia].
    reflexivity. }
  pose proof (extract_one b' 0 (append_chunk r0 bytes) [] bytes [] eq_refl Happ (Forall_nil_2 _)) as Hr.
  apply Forall_cons in Hobj as [_ Hobj]. apply Forall_cons in Hobj as [[_ Hg1]%Forall_cons _].
  pose proof (extract_one b' 1 c1 [] o1 g1 eq_refl Hc1 Hg1) as Hr1.
  cbn [concat length] in Hr, Hr1. rewrite Nat.add_0_r in Hr, Hr1.
  do 3 eexists. split; [exact Hemp|]. split_and!; [exact Hr|done|exact Hr1].
Qed.

(** [FromDistance] inverts [Distance] for the objects of the first chunk;
    for those of a second one it returns a position [sizeof(Header)] bytes too
    low, because it subtracts the header with each chunk it skips. *)
Theorem FromDistance_second_chunk (b : Buffer) (g0 g1 : list (list Z)) (n : nat) (p : Position)
    (Hholds : holds b [g0; g1])
    (Hsmall : (Z.of_nat (length (concat (concat [g0; g1]))) < 2 ^ 63)%Z)
    (Hp : positions_from 0 [g0; g1] !! n = Some p) :
  FromDistance b (Distance b p) =
    Some (p.1, Z.of_nat p.2 - (if decide (p.1 = Some 0%nat) then 0 else Z.of_nat g_initial_offset))%Z.
Proof.
  rewrite (Distance_positions _ b n p (proj1 Hholds) Hp) by lia.
  apply positions_from_lookup in Hp as (gs1 & g & gs2 & m & Hgs & -> & Hm & ->).
  destruct Hholds as [[Hch Hsome Htail _ _] Hobj]. destruct b as [cs tl off fl]. cbn [chunks m_tail] in *. subst tl.
  inversion Hch as [|c0 ? ? ? Hc0 Hch']; subst. inversion Hch' as [|c1 ? ? ? Hc1 Hnil]; subst.
  inversion Hnil; subst. clear Hch Hch' Hnil. pose proof (holds_allocated _ _ Hc0) as Ha0.
  unfold FromDistance. cbn [chunks m_tail FromDistanceLoop length Nat.sub fst snd].
  rewrite bool_decide_eq_true_2 by done. rewrite Ha0.
  assert (Hlt : ∀ (h : list (list Z)) k, Forall (λ o, o ≠ []) h → k < length h →
    length (concat (take k h)) < length (concat h)).
  { intros h k Hh Hk. destruct (lookup_lt_is_Some_2 h k Hk) as [o Ho].
    rewrite <-(take_drop k h) at 2. rewrite (drop_S h o k), concat_app, length_app by done.
    rewrite Forall_lookup in Hh. apply Hh in Ho. cbn [concat]. rewrite length_app. destruct o; simpl in *; [done|lia]. }
  cbn [concat] in Hsmall. rewrite app_nil_r, !concat_app, !length_app in Hsmall.
  destruct gs1 as [|g0' [|g1' gs1]]; cbn [app] in Hgs;
    [injection Hgs as -> <-|injection Hgs as -> -> <-|by destruct gs1];
    cbn [length concat app Nat.add].
  - rewrite decide_True by done. rewrite take_app_le by lia.
    pose proof (Hlt g m ltac:(by apply Forall_cons in Hobj as [? _]) Hm).
    destruct (Z.leb_spec (Z.of_nat (g_initial_offset + length (concat g)) - Z.of_nat g_initial_offset)
      (Z.of_nat (length (concat (take m g))))); [lia|]. cbn [andb mbind option_bind].
    unfold g_initial_offset in *. rewrite wrap_small by lia. do 2 f_equal. lia.
  - rewrite decide_False by done. rewrite app_nil_r, take_app_add, concat_app, length_app.
    rewrite app_nil_r. pose proof (Hlt g m ltac:(by apply Forall_cons in Hobj as [_ [? _]%Forall_cons]) Hm).
    destruct (Z.leb_spec (Z.of_nat (g_initial_offset + length (concat g0')) - Z.of_nat g_initial_offset)
      (Z.of_nat (length (concat g0') + length (concat (take m g))))); [|lia].
    cbn [andb FromDistanceLoop]. rewrite bool_decide_eq_false_2 by (intros Hx; by apply Hx).
    cbn [andb mbind option_bind]. do 2 f_equal. unfold g_initial_offset.
    unfold wrap. rewrite Zplus_mod_idemp_l, Z.mod_small by lia. lia.
Qed.

(** ** Witnesses *)

Definition zero_bytes : FreshBytes := λ n, replicate n 0%Z.

Lemma zero_bytes_length n : length (@fresh_bytes zero_bytes n) = n.
Proof. apply length_replicate. Qed.

(** Two objects in chunks of 40 bytes: each gets a chunk of its own. *)
Definition demo_objs : list (list Z) := [[1; 2; 3; 4; 5; 6]; [7; 8; 9; 10]]%Z.

Definition demo_buffer : Buffer :=
  mkBuffer [mkChunk 40 38 [1; 2; 3; 4; 5; 6; 0; 0]%Z; mkChunk 40 36 [7; 8; 9; 10; 0; 0; 0; 0]%Z]
    (Some 1) 36 false.

Lemma demo_buffer_holds : holds demo_buffer [[[1; 2; 3; 4; 5; 6]]; [[7; 8; 9; 10]]]%Z.
Proof.
  split; [|repeat constructor; done]. split; [|repeat constructor; done|done|done|done].
  repeat constructor; first [done | vm_compute; lia].
Qed.

Lemma buffer_roundtrip_witness :
  ∃ ps b, @emplace_all zero_bytes 40 (λ _, true) empty_buffer demo_objs = Some (ps, b)
    ∧ length ps = length demo_objs
    ∧ extract_all b (Begin b) (length <$> demo_objs) = Some (zip ps demo_objs, End b)
    ∧ concat (ForEachChunk b) = concat demo_objs
    ∧ ∀ i p, ps !! i = Some p → Distance b p = Z.of_nat (length (concat (take i demo_objs))).
Proof.
  apply (@buffer_roundtrip zero_bytes 40 demo_objs).
  - exact zero_bytes_length.
  - repeat constructor; done.
  - vm_compute. reflexivity.
Defined.

Lemma cleared_buffer_replays_witness :
  ∃ p b' next, @emplace zero_bytes 40 (λ _, true) (Clear demo_buffer) [9]%Z = Some (p, b')
    ∧ extract b' (Begin b') 1 = Some ([9]%Z, (Some 1, g_initial_offset))
    ∧ End b' = (Some 0, g_initial_offset + 1)
    ∧ extract b' (Some 1, g_initial_offset) 4 = Some ([7; 8; 9; 10]%Z, next).
Proof.
  apply (@cleared_buffer_replays zero_bytes 40 demo_buffer [[1; 2; 3; 4; 5; 6]]%Z [7; 8; 9; 10]%Z
    [] [] [9]%Z (mkChunk 40 38 [1; 2; 3; 4; 5; 6; 0; 0]%Z)).
  - apply demo_buffer_holds.
  - discriminate.
  - reflexivity.
  - vm_compute. lia.
Defined.

Lemma FromDistance_second_chunk_witness :
  FromDistance demo_buffer (Distance demo_buffer (Some 1, 32)) = Some (Some 1, 0%Z).
Proof.
  apply (FromDistance_second_chunk demo_buffer [[1; 2; 3; 4; 5; 6]]%Z [[7; 8; 9; 10]]%Z 1 (Some 1, 32)).
  - apply demo_buffer_holds.
  - vm_compute. reflexivity.
  - reflexivity.
Defined.
