(* ===== verification/VSS.v ===== *)
(** * VSS: structures of variable size in memory
    ([src/src/libedr/util/vss/VSS.hpp], [VSSPayloads.hpp]).

    A structure with a payload is followed in memory by its parts, whose sizes
    depend on what the structure holds.  A C++ type of this kind is a [ty]: what
    the templates compute from it is a function of its description.  Memory is a
    list of bytes.  [EmplaceImpl] runs over any output stream, as the code first
    runs it over a [CountingStream] and then over a [ContiguousOutputStream];
    [SizeOf] measures what is found in memory, which may come from the other end
    of a tunnel.

    In [SizeOf] and in what is built from it, [None] is a fault (an access
    outside of the memory), and [Some None] the [std::nullopt] of the code. *)
From S2P Require Import Prelude BitStream.
Local Open Scope Z_scope.
#[local] Set Warnings "-register-all".

(** ** Types *)

(** Where [SizeOfPayload] takes the number it passes on to a part from:
    nowhere, a field of the structure (the low [bits] of the word at [offset]),
    or its own argument. *)
Inductive ctxsrc := NoCtx | Field (offset bits : nat) | Arg.

(** A type by what the templates ask of it.  An empty class has size 0.  The
    options of a [Variant] are given by name, since causes of errors nest. *)
Inductive ty :=
| Plain (size align : Z)
| DependentArray (item : Z)
| DependentBits (word : Z)
| StringFormat
| Struct (size align : Z) (parts : list (ctxsrc * ty))
| Variant (name : nat)
| Option (discriminant : Z) (o : ty).

(** The options of the variants, with their discriminants. *)
Class Universe := variant_options : nat → list (Z * ty).

#[export] Instance ctxsrc_eq_dec : EqDecision ctxsrc.
Proof. solve_decision. Defined.

(** [std::numeric_limits<size_t>::max()]. *)
Definition SIZE_MAX : Z := 2 ^ 64 - 1.

Definition IsPo2 (value : Z) : bool := negb (0 =? value) && (0 =? Z.land value (value - 1)).

(** [sizeof(VariantBase)]: the discriminant is an [uint32_t]. *)
Definition sizeof_variant : Z := 4.

Definition sizeof (t : ty) : Z :=
  match t with
  | Plain size _ | Struct size _ _ => size
  | DependentArray _ | DependentBits _ => 0
  | StringFormat => 4
  | Variant _ | Option _ _ => sizeof_variant
  end.

Definition alignof (t : ty) : Z :=
  match t with
  | Plain _ align | Struct _ align _ => align
  | DependentArray item => item
  | DependentBits word => word
  | StringFormat => 4
  | Variant _ | Option _ _ => sizeof_variant
  end.

Definition HasPayload (t : ty) : bool := match t with Plain _ _ => false | _ => true end.

(** [ComputeMaxAlignmentImpl]: a variant has a payload without parts, so the
    branch for [HasCustomAlignment] is not reached by any type of the library. *)
Fixpoint ComputeMaxAlignment (t : ty) : Z :=
  match t with
  | Struct _ align parts =>
      foldl (λ a p, Z.max a (ComputeMaxAlignment p.2)) align parts
  | Option _ o => Z.max sizeof_variant (ComputeMaxAlignment o)
  | _ => alignof t
  end.

(** [GetPartAlignment<Payload, I, default>], given the parts from [I] on. *)
Definition GetPartAlignment (parts : list (ctxsrc * ty)) (default_alignment : Z) : Z :=
  match parts with
  | [] => default_alignment
  | (_, p) :: _ => ComputeMaxAlignment p
  end.

Definition GetPayloadAlignment (t : ty) (default_alignment : Z) : Z :=
  match t with
  | Plain _ _ => default_alignment
  | Struct _ _ parts => GetPartAlignment parts 1
  | Option _ o => ComputeMaxAlignment o
  | _ => 1
  end.

(** The bytes in front of the payload. *)
Definition self_size (t : ty) (post_alignment : Z) : Z :=
  if 0 =? sizeof t then 0 else align_up (GetPayloadAlignment t post_alignment) (sizeof t).

(** [DependentBits::GetNumBytes], on [size_t]. *)
Definition GetNumBytes (word num_bits : Z) : Z := u64[align_up (8 * word) num_bits] / 8.

(** The offset of the option behind a discriminant, [As] and [SizeOfPayload]. *)
Definition misalignment (o : ty) : Z :=
  if ComputeMaxAlignment o <=? sizeof_variant then 0
  else ComputeMaxAlignment o - sizeof_variant.

Definition find_option (options : list (Z * ty)) (discriminant : Z) : option ty :=
  snd <$> find (λ o, o.1 =? discriminant) options.

(** ** Measuring *)

Definition read_word (mem : list Z) (offset : nat) : option Z :=
  let bytes := take 4 (drop offset mem) in
  check (length bytes =? 4)%nat;; Some (le_z bytes).

Definition eval_ctx (mem : list Z) (ctx : list Z) (c : ctxsrc) : option (list Z) :=
  match c with
  | NoCtx => Some []
  | Field offset bits => w ← read_word mem offset; Some [wrap bits w]
  | Arg => Some ctx
  end.

Definition skip (n : Z) (mem : list Z) : list Z := drop (Z.to_nat n) mem.

Section sizing.
Context `{Universe}.

(** The loop of [Payload::Size]: with one part or without contexts the code has
    the same loop in other words. *)
Definition PayloadSize (part_size : ty → Z → list Z → Z → list Z → option (option Z))
    (self : list Z) (ctx : list Z)
    : list (ctxsrc * ty) → list Z → Z → Z → option (option Z) :=
  fix loop parts mem max_size total :=
    match parts with
    | [] => Some (Some total)
    | (c, p) :: parts =>
        pctx ← eval_ctx self ctx c;
        mb_size ← part_size p (GetPartAlignment parts 1) mem max_size pctx;
        match mb_size with
        | None => Some None
        | Some size => loop parts (skip size mem) (max_size - size) (total + size)
        end
    end.

(** [SizeOf<post_alignment>(obj, max_size, ctx...)]; [mem] is the memory from
    [obj] on.  Only a variant uses the fuel up: the rest is a recursion on
    types. *)
Fixpoint SizeOfF (fuel : nat) : ty → Z → list Z → Z → list Z → option (option Z) :=
  fix go (t : ty) (post_alignment : Z) (mem : list Z) (max_size : Z) (ctx : list Z)
      : option (option Z) :=
    let total := self_size t post_alignment in
    if max_size <? total then Some None else
    let max_size := max_size - total in
    let SizeOfPayload :=
      match t with
      | Plain _ _ => Some (Some 0)
      | DependentArray item =>
          match ctx with [n] => Some (Some u64[item * n]) | _ => None end
      | DependentBits word =>
          match ctx with [n] => Some (Some (GetNumBytes word n)) | _ => None end
      | Struct _ _ parts => PayloadSize go mem ctx parts (skip total mem) max_size 0
      | Variant name =>
          match fuel with
          | O => None
          | S fuel =>
              discriminant ← read_word mem 0;
              match find_option (variant_options name) discriminant with
              | None => Some (Some 0)
              | Some o =>
                  let m := misalignment o in
                  if max_size <? m then Some None else
                  mb_size ← SizeOfF fuel o 1 (skip (sizeof_variant + m) mem) (max_size - m) [];
                  Some (option_map (Z.add m) mb_size)
              end
          end
      | StringFormat | Option _ _ => None
      end in
    mb_payload_size ← SizeOfPayload;
    match mb_payload_size with
    | None => Some None
    | Some payload_size =>
        if negb (HasPayload t) then Some (Some total) else
        let aligned_size := u64[align_up post_alignment payload_size] in
        if max_size <? aligned_size then Some None else Some (Some (total + aligned_size))
    end.

(** Every variant takes 4 bytes of the memory, so this fuel does not run out. *)
Definition SizeOf (t : ty) (post_alignment : Z) (mem : list Z) (max_size : Z) (ctx : list Z)
    : option (option Z) :=
  SizeOfF (S (length mem)) t post_alignment mem max_size ctx.

#[global] Arguments SizeOf : simpl never.

(** [SizeOfTrusted]: the [assert] is a fault. *)
Definition SizeOfTrusted (t : ty) (mem : list Z) (ctx : list Z) : option Z :=
  mb_size ← SizeOf t 1 mem SIZE_MAX ctx; mb_size.

(** [Get<I>]: the offset of part [n] and its type. *)
Fixpoint GetLoop (n : nat) (parts : list (ctxsrc * ty)) (self : list Z) (total : Z)
    (ctx : list Z) : option (Z * ty) :=
  match n, parts with
  | O, (_, p) :: _ => Some (total, p)
  | S n, (c, p) :: parts =>
      pctx ← eval_ctx self ctx c;
      mb_size ← SizeOf p (GetPartAlignment parts 1) (skip total self) SIZE_MAX pctx;
      size ← mb_size;
      GetLoop n parts self (total + size) ctx
  | _, [] => None
  end.

Definition Get (n : nat) (t : ty) (mem : list Z) (ctx : list Z) : option (Z * ty) :=
  match t with
  | Struct _ _ parts => GetLoop n parts mem (self_size t 1) ctx
  | _ => None
  end.

(** [VariantBase::As] for the option with a discriminant: its offset. *)
Definition As (discriminant : Z) (o : ty) (mem : list Z) : option (option Z) :=
  d ← read_word mem 0;
  Some (if d =? discriminant
        then Some (Z.max (ComputeMaxAlignment o) sizeof_variant) else None).

(** [Visit]: the option that the visitor is called with, and where it is. *)
Definition Visit (name : nat) (mem : list Z) : option (option (Z * ty * Z)) :=
  d ← read_word mem 0;
  match find_option (variant_options name) d with
  | None => Some None
  | Some o => mb ← As d o mem; Some (option_map (λ offset, (d, o, offset)) mb)
  end.

Definition IsValid (name : nat) (mem : list Z) : option bool :=
  d ← read_word mem 0;
  Some (existsb (λ o, d =? o.1) (variant_options name)).
End sizing.

(** ** Emplacing *)

(** What an object is constructed from: the bytes of the object itself and the
    arguments of its parts.  [VReserve] leaves the memory as it is; [VCopy] is a
    [CopyAdapter] for a variant with the options [name], found at [mem]. *)
Inductive val :=
| VPlain (bytes : list Z)
| VReserve (num_items : Z)
| VBytes (bytes : list Z)
| VBits (wU : nat) (src : list Z) (s : BitStream)
| VStruct (bytes : list Z) (parts : list val)
| VOption (v : val)
| VCopy (name : nat) (mem : list Z).

(** An output stream allocates, and gives access to the memory at a position
    when it has one. *)
Class OutputStream (S : Type) := {
  os_Allocate : S → Z → Z * S;
  os_Update : S → Z → Z → (list Z → option (list Z)) → option S;
}.

(** [CountingStream]: the offset alone; its pointers are null. *)
#[export] Instance CountingStream : OutputStream Z := {
  os_Allocate offset size := (offset, offset + size);
  os_Update offset _ _ _ := Some offset;
}.

Record Contiguous := mkContiguous { m_start : list Z; m_offset : Z }.

(** [ContiguousOutputStream]: an access outside of the memory is a fault. *)
#[export] Instance ContiguousOutputStream : OutputStream Contiguous := {
  os_Allocate s size :=
    (m_offset s, mkContiguous (m_start s) (m_offset s + size));
  os_Update s pos size f :=
    let old := take (Z.to_nat size) (skip pos (m_start s)) in
    check (Z.of_nat (length old) =? size);;
    bytes ← f old;
    check (length bytes =? length old)%nat;;
    Some (mkContiguous (splice (Z.to_nat pos) bytes (m_start s)) (m_offset s));
}.

(** The words of an array of [word]-byte integers, and back. *)
Fixpoint to_words (num_words word : nat) (bytes : list Z) : list Z :=
  match num_words with
  | O => []
  | S n => le_z (take word bytes) :: to_words n word (drop word bytes)
  end.

Definition of_words (word : nat) (words : list Z) : list Z := words ≫= le_bytes word.

Section emplacing.
Context `{ShiftUB} `{Universe} {S : Type} `{OutputStream S}.

(** [AligningOutputStream::Allocate]: only the size is rounded.  The first
    [used] bytes are then filled by [f]. *)
Definition AllocateAligned (alignment size used : Z) (f : list Z → option (list Z)) (s : S)
    : option S :=
  let '(pos, s) := os_Allocate s (align_up alignment size) in
  os_Update s pos used f.

Definition construct (bytes : list Z) (size : Z) : list Z → option (list Z) :=
  λ _, check (Z.of_nat (length bytes) =? size);; Some bytes.

(** [new (ptr) T(args...)]. *)
Definition EmplaceSelf (t : ty) (post_alignment : Z) (bytes : list Z) (s : S) : option S :=
  if 0 =? sizeof t then Some s
  else AllocateAligned (GetPayloadAlignment t post_alignment) (sizeof t) (sizeof t)
         (construct bytes (sizeof t)) s.

(** [BitStream<T> writer(ptr, num_bits); writer.Write(src, num_bits)]. *)
Definition write_bits (word : nat) (wU : nat) (src : list Z) (b : BitStream) (old : list Z)
    : option (list Z) :=
  let words := to_words (length old / word) word old in
  writer ← BitStream.make (8 * word) 0 (GetNumBits b) 0;
  '(_, words, _, _) ← WriteStream (8 * word) wU words writer src b (GetNumBits b);
  Some (of_words word words).

(** [VariantBase::EmplacePayload(os, CopyAdapter)]: the option that is found is
    copied as it is. *)
Definition EmplaceCopy (post_alignment : Z) (name : nat) (mem : list Z) (s : S) : option S :=
  v ← Visit name mem;
  '(_, o, offset) ← v;
  size ← SizeOfTrusted o (skip offset mem) [];
  let m := misalignment o in
  AllocateAligned post_alignment (m + size) (m + size)
    (λ old, Some (take (Z.to_nat m) old ++ take (Z.to_nat size) (skip offset mem))) s.

(** The loop of [Payload::Emplace]. *)
Definition PayloadEmplace (emplace : ty → Z → val → S → option S) (post_alignment : Z)
    : list (ctxsrc * ty) → list val → S → option S :=
  fix loop parts args s :=
    match parts, args with
    | [], [] => Some s
    | (_, p) :: parts, v :: args =>
        s ← emplace p (GetPartAlignment parts post_alignment) v s;
        loop parts args s
    | _, _ => None
    end.

Fixpoint EmplaceImpl (t : ty) (post_alignment : Z) (v : val) (s : S) : option S :=
  match t, v with
  | Plain _ _, VPlain bytes => EmplaceSelf t post_alignment bytes s
  | DependentArray item, VReserve n =>
      AllocateAligned post_alignment (item * n) 0 Some s
  | DependentArray item, VBytes bytes =>
      let total_size := Z.of_nat (length bytes) in
      AllocateAligned post_alignment total_size total_size (construct bytes total_size) s
  | DependentBits word, VReserve n =>
      AllocateAligned post_alignment (GetNumBytes word n) 0 Some s
  | DependentBits word, VBits wU src b =>
      let size := GetNumBytes word (Z.of_nat (GetNumBits b)) in
      AllocateAligned post_alignment size size (write_bits (Z.to_nat word) wU src b) s
  | StringFormat, VBytes bytes =>
      let size := Z.of_nat (length bytes) in
      s ← EmplaceSelf t post_alignment (le_bytes 4 size) s;
      AllocateAligned post_alignment size size (construct bytes size) s
  | Struct _ _ parts, VStruct bytes args =>
      s ← EmplaceSelf t post_alignment bytes s;
      PayloadEmplace EmplaceImpl post_alignment parts args s
  | Option discriminant o, VOption v =>
      s ← EmplaceSelf t post_alignment (le_bytes 4 discriminant) s;
      EmplaceImpl o post_alignment v s
  | Variant _, VCopy name mem =>
      discriminant ← read_word mem 0;
      s ← EmplaceSelf t post_alignment (le_bytes 4 discriminant) s;
      EmplaceCopy post_alignment name mem s
  | _, _ => None
  end.
End emplacing.

(** ** Reading back *)

(** What a client sees of an object: its own bytes and its parts. *)
Inductive tree :=
| TPlain (bytes : list Z)
| TArray (bytes : list Z)
| TBits (bits : list bool)
| TStruct (bytes : list Z) (parts : list tree)
| TVariant (discriminant : Z) (o : option tree).

Definition read_bytes (n : Z) (mem : list Z) : option (list Z) :=
  let bytes := take (Z.to_nat n) mem in
  check (Z.of_nat (length bytes) =? n);; Some bytes.

Section viewing.
Context `{Universe}.

(** The bits of [DependentBits::Stream(num_bits)]. *)
Definition read_bits (word num_bits : Z) (mem : list Z) : option (list bool) :=
  bytes ← read_bytes (GetNumBytes word num_bits) mem;
  let w := Z.to_nat word in
  stream ← BitStream.make (8 * w) 0 (Z.to_nat num_bits) 0;
  Some (contents (8 * w) (to_words (length bytes / w) w bytes) stream).

(** Part by part, each where [Get] finds it. *)
Definition view_parts (view : ty → list Z → list Z → option tree) (self : list Z) (ctx : list Z)
    : list (ctxsrc * ty) → Z → option (list tree) :=
  fix loop parts total :=
    match parts with
    | [] => Some []
    | (c, p) :: parts =>
        pctx ← eval_ctx self ctx c;
        x ← view p (skip total self) pctx;
        mb_size ← SizeOf p (GetPartAlignment parts 1) (skip total self) SIZE_MAX pctx;
        size ← mb_size;
        xs ← loop parts (total + size);
        Some (x :: xs)
    end.

Fixpoint viewF (fuel : nat) : ty → list Z → list Z → option tree :=
  fix go (t : ty) (mem : list Z) (ctx : list Z) : option tree :=
    match t with
    | Plain size _ => TPlain <$> read_bytes size mem
    | DependentArray item =>
        match ctx with [n] => TArray <$> read_bytes (item * n) mem | _ => None end
    | DependentBits word =>
        match ctx with [n] => TBits <$> read_bits word n mem | _ => None end
    | Struct size _ parts =>
        bytes ← read_bytes size mem;
        TStruct bytes <$> view_parts go mem ctx parts (self_size t 1)
    | Variant name =>
        match fuel with
        | O => None
        | S fuel =>
            d ← read_word mem 0;
            v ← Visit name mem;
            match v with
            | None => Some (TVariant d None)
            | Some (d, o, offset) =>
                x ← viewF fuel o (skip offset mem) [];
                Some (TVariant d (Some x))
            end
        end
    | StringFormat | Option _ _ => None
    end.

Definition view (t : ty) (mem : list Z) (ctx : list Z) : option tree :=
  viewF (S (length mem)) t mem ctx.
#[global] Arguments view : simpl never.
End viewing.

(** ** Induction on types *)

Section ty_induction.
Context (P : ty → Prop).
Context (HPlain : ∀ size align, P (Plain size align)).
Context (HArray : ∀ item, P (DependentArray item)).
Context (HBits : ∀ word, P (DependentBits word)).
Context (HFormat : P StringFormat).
Context (HStruct : ∀ size align parts, Forall (λ p, P p.2) parts → P (Struct size align parts)).
Context (HVariant : ∀ name, P (Variant name)).
Context (HOption : ∀ d o, P o → P (Option d o)).

Fixpoint ty_ind' (t : ty) : P t :=
  match t with
  | Plain size align => HPlain size align
  | DependentArray item => HArray item
  | DependentBits word => HBits word
  | StringFormat => HFormat
  | Struct size align parts =>
      HStruct size align parts
        ((fix go parts : Forall (λ p, P p.2) parts :=
            match parts with
            | [] => Forall_nil_2 _
            | p :: parts => Forall_cons_2 _ _ _ (ty_ind' p.2) (go parts)
            end) parts)
  | Variant name => HVariant name
  | Option d o => HOption d o (ty_ind' o)
  end.
End ty_induction.

(** ** Fuel *)

Lemma length_skip n mem : length (skip n mem) = (length mem - Z.to_nat n)%nat.
Proof. apply length_drop. Qed.

Lemma read_word_Some mem o w :
  read_word mem o = Some w → (o + 4 ≤ length mem)%nat ∧ w = le_z (take 4 (drop o mem)).
Proof.
  unfold read_word. destruct (Nat.eqb_spec (length (take 4 (drop o mem))) 4) as [Hl|]; [|done].
  cbn. intros [= <-]. rewrite length_take, length_drop in Hl. split; [lia|done].
Qed.

Section fuel.
Context `{Universe}.

Lemma PayloadSize_ext f g self ctx parts mem max total :
  Forall (λ p, ∀ A mem' max' c, (length mem' ≤ length mem)%nat →
     f p.2 A mem' max' c = g p.2 A mem' max' c) parts →
  PayloadSize f self ctx parts mem max total = PayloadSize g self ctx parts mem max total.
Proof.
  intros Hp. revert mem max total Hp. induction parts as [|[c p] parts IH]; intros mem max total Hp;
    [done|]. apply Forall_cons in Hp as [Hp Hps]. cbn.
  destruct (eval_ctx self ctx c) as [pctx|]; [|done]. cbn. rewrite Hp by done.
  destruct (g _ _ _ _ _) as [[size|]|]; [|done..]. cbn. apply IH.
  eapply Forall_impl; [apply Hps|]. intros [c' p'] Hf A mem' max' c'' Hl. apply Hf.
  rewrite length_skip in Hl. lia.
Qed.

Lemma SizeOfF_enough f1 f2 t A mem max ctx :
  (length mem < f1)%nat → (length mem < f2)%nat →
  SizeOfF f1 t A mem max ctx = SizeOfF f2 t A mem max ctx.
Proof.
  revert f2 t A mem max ctx. induction f1 as [|f1 IHf]; [lia|]. intros [|f2] t; [lia|].
  induction t as [size align|item|word| |size align parts IH|name|d o IH] using ty_ind';
    intros A mem max ctx H1 H2; cbn [SizeOfF]; try done.
  - destruct (_ <? _); [done|]. f_equal. apply PayloadSize_ext.
    eapply Forall_impl; [apply IH|]. intros [c p] Hp A' mem' max' c' Hl.
    rewrite length_skip in Hl. cbn [snd] in Hp |- *. apply Hp; lia.
  - destruct (_ <? _); [done|]. destruct (read_word mem 0) as [w|] eqn:Hw; [|done].
    cbn [mbind option_bind]. destruct (find_option _ _) as [o|]; [|done].
    destruct (_ <? _); [done|]. f_equal. f_equal. apply read_word_Some in Hw as [Hl _].
    apply IHf; rewrite length_skip; unfold sizeof_variant, misalignment;
      destruct (Z.leb_spec (ComputeMaxAlignment o) sizeof_variant); unfold sizeof_variant in *; lia.
Qed.

Lemma SizeOfF_fuel f t A mem max ctx :
  (length mem < f)%nat → SizeOfF f t A mem max ctx = SizeOf t A mem max ctx.
Proof. intros. apply SizeOfF_enough; lia. Qed.

(** [T::SizeOfPayload], without the fuel. *)
Definition SizeOfPayload (t : ty) (mem : list Z) (max_size : Z) (ctx : list Z)
    : option (option Z) :=
  match t with
  | Plain _ _ => Some (Some 0)
  | DependentArray item =>
      match ctx with [n] => Some (Some u64[item * n]) | _ => None end
  | DependentBits word =>
      match ctx with [n] => Some (Some (GetNumBytes word n)) | _ => None end
  | Struct _ _ parts => PayloadSize SizeOf mem ctx parts (skip (self_size t 1) mem) max_size 0
  | Variant name =>
      discriminant ← read_word mem 0;
      match find_option (variant_options name) discriminant with
      | None => Some (Some 0)
      | Some o =>
          let m := misalignment o in
          if max_size <? m then Some None else
          mb_size ← SizeOf o 1 (skip (sizeof_variant + m) mem) (max_size - m) [];
          Some (option_map (Z.add m) mb_size)
      end
  | StringFormat | Option _ _ => None
  end.

Lemma self_size_payload t A B : HasPayload t = true → self_size t A = self_size t B.
Proof. by destruct t. Qed.

Lemma misalignment_nonneg o : 0 ≤ misalignment o.
Proof. unfold misalignment. destruct (Z.leb_spec (ComputeMaxAlignment o) sizeof_variant); lia. Qed.

Lemma SizeOf_eq t A mem max ctx :
  SizeOf t A mem max ctx =
    let total := self_size t A in
    if max <? total then Some None else
    mb ← SizeOfPayload t mem (max - total) ctx;
    match mb with
    | None => Some None
    | Some n =>
        if negb (HasPayload t) then Some (Some total) else
        if max - total <? u64[align_up A n] then Some None
        else Some (Some (total + u64[align_up A n]))
    end.
Proof.
  unfold SizeOf at 1. destruct t as [size align|item|word| |size align parts|name|d o];
    cbn [SizeOfF SizeOfPayload HasPayload negb]; try done.
  - rewrite (self_size_payload _ A 1) by done. destruct (_ <? _); [done|]. f_equal.
    apply PayloadSize_ext. apply Forall_forall. intros [c p] _ A' mem' max' c' Hl.
    rewrite length_skip in Hl. cbn [snd]. apply (SizeOfF_fuel (S (length mem))). lia.
  - destruct (_ <? _); [done|]. destruct (read_word mem 0) as [w|] eqn:Hw; [|done].
    cbn [mbind option_bind]. destruct (find_option _ _) as [o|]; [|done].
    destruct (_ <? _); [done|]. f_equal. f_equal. apply read_word_Some in Hw as [Hl _].
    apply SizeOfF_fuel. rewrite length_skip. pose proof (misalignment_nonneg o).
    unfold sizeof_variant. lia.
Qed.

Lemma view_parts_ext f g self ctx parts total :
  (∀ p, p ∈ parts → ∀ mem' c, (length mem' ≤ length self)%nat → f p.2 mem' c = g p.2 mem' c) →
  view_parts f self ctx parts total = view_parts g self ctx parts total.
Proof.
  revert total. induction parts as [|[c p] parts IH]; intros total Hp; [done|]. cbn.
  destruct (eval_ctx self ctx c) as [pctx|]; [|done]. cbn.
  assert (Hf : f p (skip total self) pctx = g p (skip total self) pctx).
  { apply (Hp (c, p)); [left|]. rewrite length_skip. lia. }
  rewrite Hf. destruct (g _ _ _) as [x|]; [|done]. cbn.
  destruct (SizeOf p (GetPartAlignment parts 1) (skip total self) SIZE_MAX pctx)
    as [[size|]|]; [|done..]. cbn. rewrite IH; [done|].
  intros q Hq. apply Hp. by right.
Qed.

Lemma Visit_Some name mem d o off :
  Visit name mem = Some (Some (d, o, off)) →
  read_word mem 0 = Some d ∧ find_option (variant_options name) d = Some o
  ∧ off = Z.max (ComputeMaxAlignment o) sizeof_variant ∧ off = sizeof_variant + misalignment o.
Proof.
  unfold Visit, As. destruct (read_word mem 0) as [w|]; [|done]. cbn.
  destruct (find_option _ w) as [o'|] eqn:Ho; [|done]. cbn. rewrite Z.eqb_refl. cbn.
  intros [= -> -> <-]. split_and!; try done. unfold misalignment.
  destruct (Z.leb_spec (ComputeMaxAlignment o) sizeof_variant); lia.
Qed.

Lemma viewF_enough f1 f2 t mem ctx :
  (length mem < f1)%nat → (length mem < f2)%nat → viewF f1 t mem ctx = viewF f2 t mem ctx.
Proof.
  revert f2 t mem ctx. induction f1 as [|f1 IHf]; [lia|]. intros [|f2] t; [lia|].
  induction t as [size align|item|word| |size align parts IH|name|d o IH] using ty_ind';
    intros mem ctx H1 H2; cbn [viewF]; try done.
  - destruct (read_bytes size mem); [|done]. cbn [mbind option_bind]. f_equal.
    apply view_parts_ext. intros p Hp mem' c Hl. rewrite Forall_forall in IH. apply IH; [done|lia..].
  - destruct (read_word mem 0) as [w|] eqn:Hw; [|done]. cbn [mbind option_bind].
    destruct (Visit name mem) as [[[[d o] off]|]|] eqn:Hv; [|done..]. cbn [mbind option_bind].
    apply Visit_Some in Hv as (_ & _ & _ & ->). apply read_word_Some in Hw as [Hl _].
    pose proof (misalignment_nonneg o). f_equal.
    apply IHf; rewrite length_skip; unfold sizeof_variant in *; lia.
Qed.

Lemma view_eq t mem ctx :
  view t mem ctx =
    match t with
    | Plain size _ => TPlain <$> read_bytes size mem
    | DependentArray item =>
        match ctx with [n] => TArray <$> read_bytes (item * n) mem | _ => None end
    | DependentBits word =>
        match ctx with [n] => TBits <$> read_bits word n mem | _ => None end
    | Struct size _ parts =>
        bytes ← read_bytes size mem;
        TStruct bytes <$> view_parts view mem ctx parts (self_size t 1)
    | Variant name =>
        d ← read_word mem 0;
        v ← Visit name mem;
        match v with
        | None => Some (TVariant d None)
        | Some (d, o, offset) => x ← view o (skip offset mem) []; Some (TVariant d (Some x))
        end
    | StringFormat | Option _ _ => None
    end.
Proof.
  unfold view at 1. destruct t as [size align|item|word| |size align parts|name|d o];
    cbn [viewF]; try done.
  - destruct (read_bytes size mem); [|done]. cbn [mbind option_bind]. f_equal.
    apply view_parts_ext. intros p Hp mem' c Hl. apply (viewF_enough (S (length mem))); lia.
  - destruct (read_word mem 0) as [w|] eqn:Hw; [|done]. cbn [mbind option_bind].
    destruct (Visit name mem) as [[[[d o] off]|]|] eqn:Hv; [|done..]. cbn [mbind option_bind].
    apply Visit_Some in Hv as (_ & _ & _ & ->). apply read_word_Some in Hw as [Hl _].
    pose proof (misalignment_nonneg o). f_equal.
    apply viewF_enough; rewrite length_skip; unfold sizeof_variant in *; lia.
Qed.
End fuel.

(** ** Well-formed types *)

(** Up to [alignof(std::max_align_t)]. *)
Definition is_alignment (a : Z) : bool := (0 <? a) && (a <=? 16) && IsPo2 a.

(** A type that is read from memory, with as many contexts: the compiler checks
    the number of contexts, alignments and that fields lie in their structure. *)
Fixpoint readable (num_ctx : nat) (t : ty) : bool :=
  match t with
  | Plain size align => (0 <=? size) && is_alignment align
  | DependentArray item | DependentBits item =>
      (num_ctx =? 1)%nat && is_alignment item
  | Struct size align parts =>
      (0 <=? size) && is_alignment align &&
      forallb (λ '(c, p),
        match c with
        | NoCtx => readable 0 p
        | Field offset bits =>
            (Z.of_nat offset + 4 <=? size) && (bits <=? 32)%nat && readable 1 p
        | Arg => readable num_ctx p
        end) parts
  | Variant _ => true
  | StringFormat | Option _ _ => false
  end.

Class ReadableUniverse `{Universe} : Prop :=
  options_readable name : Forall (λ o, readable 0 o.2) (variant_options name).

Definition small (n : Z) : Prop := 0 ≤ n < 2 ^ 32.

(** A power of two up to 16. *)
Definition algn (a : Z) : Prop := po2 a ∧ a ≤ 16.

Lemma is_alignment_algn a : is_alignment a = true → algn a.
Proof.
  intros [[Ha%Z.ltb_lt Ha'%Z.leb_le]%andb_true_iff Hp]%andb_true_iff. split; [|done].
  apply andb_true_iff in Hp as [H%negb_true_iff%Z.eqb_neq H0%Z.eqb_eq].
  exists (Z.log2 a). split; [apply Z.log2_nonneg|].
  destruct (Z.eq_dec a (2 ^ Z.log2 a)) as [|Hne]; [done|exfalso].
  pose proof (Z.log2_spec a ltac:(lia)) as [Hlo Hhi].
  assert (Hl : Z.log2 (a - 1) = Z.log2 a).
  { apply Z.log2_unique; [apply Z.log2_nonneg|]. lia. }
  assert (Hb : Z.testbit (Z.land a (a - 1)) (Z.log2 a) = true).
  { rewrite Z.land_spec, Z.bit_log2 by lia. rewrite <-Hl at 1. rewrite Z.bit_log2; [done|].
    destruct (Z.eq_dec a 1) as [->|]; [done|lia]. }
  rewrite <-H0, Z.bits_0 in Hb. done.
Qed.

Lemma find_option_In options d o :
  find_option options d = Some o → (d, o) ∈ options.
Proof.
  unfold find_option. destruct (find _ options) as [[d' o']|] eqn:Hf; [|done].
  intros [= <-]. apply find_some in Hf as [Hin Hd]. cbn in Hd. apply Z.eqb_eq in Hd as ->.
  by apply list_elem_of_In.
Qed.

Section safety.
Context `{U : Universe} `{!ReadableUniverse}.

Lemma find_option_readable name d o :
  find_option (variant_options name) d = Some o → readable 0 o = true.
Proof.
  intros Hf%find_option_In. pose proof (options_readable name) as Hr.
  rewrite Forall_forall in Hr. by apply Is_true_true, (Hr (d, o)).
Qed.

Lemma algn_max a b : algn a → algn b → algn (Z.max a b).
Proof. intros. destruct (Z.max_spec a b) as [[_ ->]|[_ ->]]; done. Qed.

Lemma algn_4 : algn 4.
Proof. split; [by exists 2|done]. Qed.

Lemma algn_1 : algn 1.
Proof. split; [by exists 0|done]. Qed.

#[local] Hint Resolve algn_max algn_4 algn_1 is_alignment_algn : edr.

Lemma part_readable n size align parts c p :
  readable n (Struct size align parts) = true → (c, p) ∈ parts →
  0 ≤ size ∧ algn align ∧
  match c with
  | NoCtx => readable 0 p = true
  | Field o b => Z.of_nat o + 4 ≤ size ∧ (b ≤ 32)%nat ∧ readable 1 p = true
  | Arg => readable n p = true
  end.
Proof.
  cbn. intros [[? ?]%andb_true_iff Hf]%andb_true_iff Hin. rewrite forallb_forall in Hf.
  split_and!; [lia|auto with edr|]. specialize (Hf (c, p)). rewrite <-list_elem_of_In in Hf.
  specialize (Hf Hin). destruct c; [done| |done]. bool_to_prop. split_and!; done || lia.
Qed.

Lemma alignment_algn n t : readable n t = true → algn (ComputeMaxAlignment t).
Proof.
  revert n. induction t as [size align|item|word| |size align parts IH|name|d o IH] using ty_ind';
    intros n Hr; try (cbn in Hr; bool_to_prop; by auto with edr).
  cbn. assert (Hp : ∀ c p, (c, p) ∈ parts → algn (ComputeMaxAlignment p)).
  { intros c p Hin. rewrite Forall_forall in IH. pose proof (IH _ Hin) as IHp. cbn in IHp.
    pose proof (part_readable _ _ _ _ _ _ Hr Hin) as (_ & _ & Hc).
    destruct c as [|o b|]; [|destruct Hc as (_ & _ & Hc)|]; eauto. }
  assert (Ha : algn align) by (cbn in Hr; bool_to_prop; auto with edr).
  clear Hr IH. revert align Ha.
  induction parts as [|[c p] parts IH]; intros a Ha; cbn [foldl snd]; [done|].
  apply IH; [|apply algn_max; [done|apply (Hp c); by left]].
  intros c' p' Hin. apply (Hp c'). by right.
Qed.

Lemma payload_alignment_algn n t A :
  readable n t = true → algn A → algn (GetPayloadAlignment t A).
Proof.
  intros Hr HA. destruct t as [| | | |size align [|[c p] parts]| |]; try (done || apply algn_1).
  cbn. destruct (part_readable _ _ _ _ c p Hr) as (_ & _ & Hc); [left|].
  destruct c as [|o b|]; [|destruct Hc as (_ & _ & Hc)|]; by eapply alignment_algn.
Qed.

Lemma self_size_ge n t A :
  readable n t = true → algn A → 0 ≤ sizeof t ≤ self_size t A.
Proof.
  intros Hr HA. assert (0 ≤ sizeof t) by (destruct t; cbn in *; bool_to_prop; done || lia).
  unfold self_size. destruct (Z.eqb_spec 0 (sizeof t)); [lia|].
  pose proof (align_up_bounds (GetPayloadAlignment t A) (sizeof t)
                (proj1 (payload_alignment_algn _ _ _ Hr HA))). lia.
Qed.

(** The contexts of a part exist and have the right number. *)
Lemma eval_ctx_total n size align parts c p mem ctx :
  readable n (Struct size align parts) = true → (c, p) ∈ parts → n = length ctx →
  size ≤ Z.of_nat (length mem) →
  ∃ pctx, eval_ctx mem ctx c = Some pctx ∧ readable (length pctx) p = true.
Proof.
  intros Hr Hin -> Hm. destruct (part_readable _ _ _ _ _ _ Hr Hin) as (_ & _ & Hc).
  destruct c as [|o b|]; cbn [eval_ctx]; [by eexists| |by eexists].
  destruct Hc as (Ho & _ & Hp). unfold read_word.
  rewrite length_take, length_drop. rewrite (proj2 (Nat.eqb_eq _ _)) by lia. by eexists.
Qed.

Definition sized_safely (t : ty) (mem : list Z) : Prop := ∀ A max ctx,
  readable (length ctx) t = true → algn A → 0 ≤ max ≤ Z.of_nat (length mem) →
  ∃ r, SizeOf t A mem max ctx = Some r ∧ ∀ n, r = Some n → 0 ≤ n ≤ max.

Lemma PayloadSize_safe self ctx parts mem max total :
  (∀ c p, (c, p) ∈ parts → algn (ComputeMaxAlignment p) ∧
     (∃ pctx, eval_ctx self ctx c = Some pctx ∧ readable (length pctx) p = true) ∧
     ∀ mem', (length mem' ≤ length mem)%nat → sized_safely p mem') →
  0 ≤ max ≤ Z.of_nat (length mem) → 0 ≤ total →
  ∃ r, PayloadSize SizeOf self ctx parts mem max total = Some r
    ∧ ∀ n, r = Some n → total ≤ n ≤ total + max.
Proof.
  revert mem max total. induction parts as [|[c p] parts IH]; intros mem max total Hp Hm Ht.
  { exists (Some total). split; [done|]. intros n [= <-]. lia. }
  destruct (Hp c p) as (_ & (pctx & Hctx & Hr) & Hs); [left|]. cbn. rewrite Hctx. cbn.
  assert (HA : algn (GetPartAlignment parts 1)).
  { destruct parts as [|[c' p'] parts]; [apply algn_1|]. apply (Hp c' p'). right; left. }
  destruct (Hs mem ltac:(lia) _ max pctx Hr HA Hm) as (r & -> & Hn). cbn.
  destruct r as [size|]; [|by eexists]. specialize (Hn _ eq_refl).
  destruct (IH (skip size mem) (max - size) (total + size)) as (r & -> & Hr').
  - intros c' p' Hin. destruct (Hp c' p') as (? & ? & Hs'); [by right|]. split_and!; [done..|].
    intros mem' Hl. apply Hs'. rewrite length_skip in Hl. lia.
  - rewrite length_skip. lia.
  - lia.
  - eexists. split; [done|]. intros n Hn'. specialize (Hr' _ Hn'). lia.
Qed.

Lemma SizeOf_safe k t mem : (length mem < k)%nat → sized_safely t mem.
Proof.
  revert t mem. induction k as [|k IHk]; [lia|]. intros t.
  induction t as [size align|item|word| |size align parts IH|name|d o IH] using ty_ind';
    intros mem Hk A max ctx Hr HA Hm;
    try discriminate Hr;
    pose proof (self_size_ge _ _ _ Hr HA) as Hself; rewrite SizeOf_eq; cbn zeta;
    match goal with |- context [max <? self_size ?t A] =>
      destruct (Z.ltb_spec max (self_size t A)) as [|Hge]; [by eexists|]
    end.
  - eexists. split; [done|]. intros n [= <-]. cbn in *. lia.
  - change (self_size (DependentArray item) A) with 0 in *.
    cbn in Hr. bool_to_prop. destruct ctx as [|n [|]]; try done.
    cbn [SizeOfPayload HasPayload negb mbind option_bind].
    destruct (Z.ltb_spec (max - 0) u64[align_up A u64[item * n]]);
      [by eexists|]. eexists. split; [done|]. intros m [= <-].
    pose proof (wrap_range 64 (align_up A u64[item * n])). lia.
  - change (self_size (DependentBits word) A) with 0 in *.
    cbn in Hr. bool_to_prop. destruct ctx as [|n [|]]; try done.
    cbn [SizeOfPayload HasPayload negb mbind option_bind].
    destruct (Z.ltb_spec (max - 0)
                u64[align_up A (GetNumBytes word n)]); [by eexists|].
    eexists. split; [done|]. intros m [= <-].
    pose proof (wrap_range 64 (align_up A (GetNumBytes word n))). lia.
  - cbn [SizeOfPayload HasPayload negb].
    rewrite (self_size_payload _ A 1) in * by done.
    destruct (PayloadSize_safe mem ctx parts
                (skip (self_size (Struct size align parts) 1) mem)
                (max - self_size (Struct size align parts) 1) 0) as (r & -> & Hn).
    + intros c p Hin. destruct (eval_ctx_total _ _ _ _ _ _ mem ctx Hr Hin) as (pctx & Hc & Hp);
        [done|cbn in Hself; lia|]. split_and!; [by eapply alignment_algn|by exists pctx|].
      intros mem' Hl. rewrite length_skip in Hl. rewrite Forall_forall in IH.
      apply (IH _ Hin). lia.
    + rewrite length_skip. lia.
    + lia.
    + cbn [mbind option_bind]. destruct r as [n|]; [|by eexists].
      destruct (Z.ltb_spec (max - self_size (Struct size align parts) 1) u64[align_up A n]);
        [by eexists|]. eexists. split; [done|]. intros m [= <-].
      pose proof (wrap_range 64 (align_up A n)). lia.
  - cbn [SizeOfPayload HasPayload negb]. change (self_size (Variant name) A) with 4 in *.
    unfold read_word. rewrite length_take, length_drop.
    rewrite (proj2 (Nat.eqb_eq _ _)) by lia. cbn [mbind option_bind check].
    destruct (find_option _ _) as [o|] eqn:Ho; cbn [mbind option_bind].
    + destruct (Z.ltb_spec (max - 4) (misalignment o)); [by eexists|].
      pose proof (misalignment_nonneg o).
      destruct (IHk o (skip (sizeof_variant + misalignment o) mem)
                  ltac:(rewrite length_skip; unfold sizeof_variant; lia)
                  1 (max - 4 - misalignment o) []) as (r & -> & Hn).
      * by eapply find_option_readable.
      * apply algn_1.
      * rewrite length_skip. unfold sizeof_variant. lia.
      * cbn [mbind option_bind]. destruct r as [n|]; cbn [option_map]; [|by eexists].
        destruct (Z.ltb_spec (max - 4) u64[align_up A (misalignment o + n)]); [by eexists|].
        eexists. split; [done|]. intros m [= <-].
        pose proof (wrap_range 64 (align_up A (misalignment o + n))). lia.
    + rewrite (align_up_fix A 0) by (apply HA || apply Z.divide_0_r). change u64[0] with 0.
      destruct (Z.ltb_spec (max - 4) 0); [by eexists|]. eexists. split; [done|].
      intros m [= <-]. lia.
Qed.

Lemma SizeOf_range t A mem max ctx n :
  SizeOf t A mem max ctx = Some (Some n) → self_size t A ≤ n ≤ max.
Proof.
  rewrite SizeOf_eq. cbn zeta. destruct (Z.ltb_spec max (self_size t A)); [done|].
  destruct (SizeOfPayload _ _ _ _) as [[m|]|]; [|done..]. cbn [mbind option_bind].
  destruct (negb (HasPayload t)); [intros [= <-]; lia|].
  pose proof (wrap_range 64 (align_up A m)).
  destruct (Z.ltb_spec (max - self_size t A) u64[align_up A m]); [done|]. intros [= <-]. lia.
Qed.

Lemma part_alignment n size align parts c p :
  readable n (Struct size align parts) = true → (c, p) ∈ parts →
  algn (ComputeMaxAlignment p) ∧ ∃ k, readable k p = true.
Proof.
  intros Hr Hin. destruct (part_readable _ _ _ _ _ _ Hr Hin) as (_ & _ & Hc).
  destruct c; [|destruct Hc as (_ & _ & Hc)|]; (split; [by eapply alignment_algn|by eexists]).
Qed.

Lemma PayloadSize_range self ctx parts mem max total n :
  (∀ c p, (c, p) ∈ parts → algn (ComputeMaxAlignment p) ∧ ∃ k, readable k p = true) →
  PayloadSize SizeOf self ctx parts mem max total = Some (Some n) → 0 ≤ max →
  total ≤ n ≤ total + max.
Proof.
  revert mem max total. induction parts as [|[c p] parts IH]; intros mem max total Hp Hs Hmax;
    cbn in Hs; [injection Hs as ->; lia|].
  destruct (eval_ctx self ctx c) as [pctx|]; [|done]. cbn in Hs.
  destruct (SizeOf p _ mem max pctx) as [[size|]|] eqn:Hsz; [|done..]. cbn in Hs.
  apply SizeOf_range in Hsz. destruct (Hp c p) as (_ & k & Hk); [left|].
  assert (HA : algn (GetPartAlignment parts 1)).
  { destruct parts as [|[c' p'] parts]; [apply algn_1|]. apply (Hp c'). right; left. }
  pose proof (self_size_ge k p _ Hk HA).
  apply IH in Hs; [lia|intros c0 ??; apply (Hp c0); by right|lia].
Qed.

Lemma read_word_local mem mem' o k w :
  take k mem' = take k mem → (o + 4 ≤ k)%nat →
  read_word mem o = Some w → read_word mem' o = Some w.
Proof.
  intros Ht Hk Hw. apply read_word_Some in Hw as [Hl ->]. unfold read_word.
  assert (Heq : take 4 (drop o mem') = take 4 (drop o mem)).
  { rewrite !take_drop_commute. f_equal. by apply (take_prefix _ _ _ k). }
  rewrite Heq, length_take, length_drop, (proj2 (Nat.eqb_eq _ _)) by lia. done.
Qed.

Lemma skip_local mem mem' n k :
  0 ≤ k ≤ n → take (Z.to_nat n) mem' = take (Z.to_nat n) mem →
  take (Z.to_nat (n - k)) (skip k mem') = take (Z.to_nat (n - k)) (skip k mem).
Proof.
  intros Hk Ht. unfold skip. rewrite !take_drop_commute.
  replace (Z.to_nat k + Z.to_nat (n - k))%nat with (Z.to_nat n) by lia. by rewrite Ht.
Qed.

Definition sized_locally (t : ty) (mem : list Z) : Prop := ∀ A max ctx n mem' max',
  SizeOf t A mem max ctx = Some (Some n) → readable (length ctx) t = true → algn A →
  max < 2 ^ 63 → take (Z.to_nat n) mem' = take (Z.to_nat n) mem → n ≤ max' →
  SizeOf t A mem' max' ctx = Some (Some n).

Lemma PayloadSize_local self self' ctx parts mem mem' max max' total n :
  (∀ c p, (c, p) ∈ parts → algn (ComputeMaxAlignment p) ∧
     (∀ pctx, eval_ctx self ctx c = Some pctx →
        eval_ctx self' ctx c = Some pctx ∧ readable (length pctx) p = true) ∧
     ∀ m, (length m ≤ length mem)%nat → sized_locally p m) →
  PayloadSize SizeOf self ctx parts mem max total = Some (Some n) → 0 ≤ max < 2 ^ 63 →
  take (Z.to_nat (n - total)) mem' = take (Z.to_nat (n - total)) mem → n - total ≤ max' →
  total ≤ n ≤ total + max ∧
  PayloadSize SizeOf self' ctx parts mem' max' total = Some (Some n).
Proof.
  revert mem mem' max max' total. induction parts as [|[c p] parts IH];
    intros mem mem' max max' total Hp Hs Hmax Ht Hm; cbn in Hs |- *.
  { injection Hs as ->. split; [lia|done]. }
  destruct (Hp c p) as (_ & Hctx & Hloc); [left|].
  destruct (eval_ctx self ctx c) as [pctx|]; [|done]. destruct (Hctx _ eq_refl) as [-> Hr].
  cbn in Hs |- *.
  assert (HA : algn (GetPartAlignment parts 1)).
  { destruct parts as [|[c' p'] parts]; [apply algn_1|]. apply (Hp c' p'). right; left. }
  destruct (SizeOf p _ mem max pctx) as [[size|]|] eqn:Hsz; [|done..]. cbn in Hs.
  pose proof (SizeOf_range _ _ _ _ _ _ Hsz). pose proof (self_size_ge _ _ _ Hr HA).
  assert (Hparts : ∀ mem2, take (Z.to_nat (n - (total + size))) mem2
      = take (Z.to_nat (n - (total + size))) (skip size mem) →
    n - (total + size) ≤ max' - size →
    total + size ≤ n ≤ total + size + (max - size) ∧
    PayloadSize SizeOf self' ctx parts mem2 (max' - size) (total + size) = Some (Some n)).
  { intros mem2 Ht2 Hm2. eapply (IH (skip size mem)); [|done|lia|done..].
    intros c' p' Hin. destruct (Hp c' p') as (? & ? & Hl); [by right|]. split_and!; [done..|].
    intros m Hm'. apply Hl. rewrite length_skip in Hm'. lia. }
  destruct (Hparts (skip size mem) eq_refl ltac:(lia)) as [Hle _].
  erewrite (Hloc mem ltac:(lia)); [|done|done|done|lia| |lia]; [cbn|].
  - destruct (Hparts (skip size mem')) as [_ Hpl]; [|lia|split; [lia|done]].
    replace (n - (total + size)) with (n - total - size) by lia. apply skip_local; [lia|done].
  - apply (take_prefix _ _ _ (Z.to_nat (n - total))); [done|lia].
Qed.

Lemma eval_ctx_local size align parts c p mem mem' ctx k pctx :
  readable (length ctx) (Struct size align parts) = true → (c, p) ∈ parts → size ≤ k →
  take (Z.to_nat k) mem' = take (Z.to_nat k) mem →
  eval_ctx mem ctx c = Some pctx →
  eval_ctx mem' ctx c = Some pctx ∧ readable (length pctx) p = true.
Proof.
  intros Hr Hin Hk Ht Hc. destruct (part_readable _ _ _ _ _ _ Hr Hin) as (_ & _ & Hf).
  destruct c as [|o b|]; cbn in *; [by injection Hc as <-| |by injection Hc as <-].
  destruct (read_word mem o) as [w|] eqn:Hw; [|done]. injection Hc as <-.
  rewrite (read_word_local mem mem' o (Z.to_nat k) w); [|done|lia|done]. split; [done|]. apply Hf.
Qed.

Lemma payload_no_wrap A n max : algn A → 0 ≤ n ≤ max → max < 2 ^ 63 →
  u64[align_up A n] = align_up A n ∧ n ≤ align_up A n.
Proof.
  intros [HA Hle] Hn Hmax. pose proof (align_up_bounds A n HA). split; [|lia].
  apply wrap_small. change (Z.of_nat 64) with 64. lia.
Qed.

Lemma SizeOf_local k t mem : (length mem < k)%nat → sized_locally t mem.
Proof.
  revert t mem. induction k as [|k IHk]; [lia|]. intros t.
  induction t as [size align|item|word| |size align parts IH|name|d o IH] using ty_ind';
    intros mem Hk A max ctx n mem' max' Hs Hr HA Hmax Ht Hm; try discriminate Hr;
    pose proof (SizeOf_range _ _ _ _ _ _ Hs) as Hrange;
    pose proof (self_size_ge _ _ _ Hr HA) as Hself; rewrite SizeOf_eq in Hs |- *; cbn zeta in *;
    match type of Hrange with self_size ?t A ≤ _ ≤ _ =>
      destruct (Z.ltb_spec max (self_size t A)) as [|Hge]; [lia|];
      destruct (Z.ltb_spec max' (self_size t A)) as [|Hge']; [lia|]
    end.
  - done.
  - change (self_size (DependentArray item) A) with 0 in *.
    cbn in Hr. bool_to_prop. destruct ctx as [|c [|]]; try done.
    cbn [SizeOfPayload HasPayload negb mbind option_bind] in *.
    destruct (Z.ltb_spec (max - 0) u64[align_up A u64[item * c]]); [done|].
    destruct (Z.ltb_spec (max' - 0) u64[align_up A u64[item * c]]); [|done].
    injection Hs as <-. lia.
  - change (self_size (DependentBits word) A) with 0 in *.
    cbn in Hr. bool_to_prop. destruct ctx as [|c [|]]; try done.
    cbn [SizeOfPayload HasPayload negb mbind option_bind] in *.
    destruct (Z.ltb_spec (max - 0) u64[align_up A (GetNumBytes word c)]); [done|].
    destruct (Z.ltb_spec (max' - 0) u64[align_up A (GetNumBytes word c)]); [|done].
    injection Hs as <-. lia.
  - cbn [SizeOfPayload HasPayload negb] in *. rewrite (self_size_payload _ A 1) in * by done.
    set (self := self_size (Struct size align parts) 1) in *. cbn [sizeof] in Hself.
    destruct (PayloadSize SizeOf mem _ _ _ _ _) as [[m|]|] eqn:Hp; [|done..].
    cbn [mbind option_bind] in Hs.
    pose proof (PayloadSize_range _ _ _ _ _ _ _
                  (λ c p, part_alignment _ _ _ _ c p Hr) Hp ltac:(lia)) as Hm0.
    destruct (payload_no_wrap A m (max - self)) as [Hw Hle]; [done|lia|lia|].
    rewrite Hw in Hs. destruct (Z.ltb_spec (max - self) (align_up A m)); [done|].
    injection Hs as <-.
    assert (Hp' : PayloadSize SizeOf mem' ctx parts (skip self mem') (max' - self) 0
                  = Some (Some m)).
    { eapply (PayloadSize_local mem mem' ctx parts (skip self mem) (skip self mem') (max - self));
        [|done|lia| |lia].
      - intros c p Hin. split_and!.
        + by apply (part_alignment _ _ _ _ _ _ Hr Hin).
        + intros pctx. eapply eval_ctx_local; [done..| |done]. lia.
        + intros mm Hl. rewrite length_skip in Hl. rewrite Forall_forall in IH.
          apply (IH _ Hin). lia.
      - eapply take_prefix; [eapply skip_local; [|done]; lia|lia]. }
    rewrite Hp'. cbn [mbind option_bind]. rewrite Hw.
    destruct (Z.ltb_spec (max' - self) (align_up A m)); [lia|done].
  - cbn [SizeOfPayload HasPayload negb] in *. change (self_size (Variant name) A) with 4 in *.
    destruct (read_word mem 0) as [w|] eqn:Hw; [|done].
    rewrite (read_word_local mem mem' 0 (Z.to_nat n) w) by (done || lia).
    cbn [mbind option_bind] in *. destruct (find_option _ w) as [o|] eqn:Ho.
    + pose proof (misalignment_nonneg o). apply read_word_Some in Hw as [Hl _].
      destruct (Z.ltb_spec (max - 4) (misalignment o)) as [|Hmis]; [done|].
      set (off := sizeof_variant + misalignment o) in *.
      destruct (SizeOf o 1 (skip off mem) _ _) as [[m|]|] eqn:Hp; [|done..].
      pose proof (find_option_readable _ _ _ Ho) as Hro.
      pose proof (SizeOf_range _ _ _ _ _ _ Hp). pose proof (self_size_ge _ _ _ Hro algn_1).
      cbn [mbind option_bind option_map] in Hs.
      destruct (payload_no_wrap A (misalignment o + m) (max - 4)) as [Hnw Hle]; [done|lia|lia|].
      rewrite Hnw in Hs. destruct (Z.ltb_spec (max - 4) (align_up A (misalignment o + m)));
        [done|]. injection Hs as <-.
      destruct (Z.ltb_spec (max' - 4) (misalignment o)); [lia|].
      erewrite (IHk o (skip off mem) ltac:(rewrite length_skip; unfold off, sizeof_variant; lia)
                  1 _ [] m); [|done|done|apply algn_1|lia| |lia].
      * cbn [mbind option_bind option_map]. rewrite Hnw.
        destruct (Z.ltb_spec (max' - 4) (align_up A (misalignment o + m))); [lia|done].
      * eapply take_prefix; [eapply skip_local; [|done]; unfold off, sizeof_variant; lia|].
        unfold off, sizeof_variant. lia.
    + cbn [mbind option_bind] in *. destruct (Z.ltb_spec (max - 4) u64[align_up A 0]); [done|]. injection Hs as <-.
      destruct (Z.ltb_spec (max' - 4) u64[align_up A 0]); [lia|done].
Qed.

(** *** Everything that is read lies in the measured bytes *)

Lemma skip_skip a b mem : 0 ≤ a → 0 ≤ b → skip a (skip b mem) = skip (b + a) mem.
Proof. intros. unfold skip. rewrite drop_drop. f_equal. lia. Qed.

Lemma read_bytes_local n k mem mem' :
  0 ≤ n ≤ k → k ≤ Z.of_nat (length mem) → take (Z.to_nat k) mem' = take (Z.to_nat k) mem →
  read_bytes n mem' = Some (take (Z.to_nat n) mem).
Proof.
  intros Hn Hk Ht. unfold read_bytes. rewrite (take_prefix mem' mem _ _ Ht) by lia.
  rewrite length_take, (proj2 (Z.eqb_eq _ _)) by lia. done.
Qed.

Lemma GetNumBytes_bounds word c :
  algn word → small c → 0 ≤ GetNumBytes word c < 2 ^ 33 ∧ c ≤ 8 * GetNumBytes word c
  ∧ (word | GetNumBytes word c).
Proof.
  intros [(k & Hk & ->) Hle] Hc. unfold GetNumBytes, small in *.
  assert (H8 : po2 (8 * 2 ^ k)).
  { exists (3 + k). split; [lia|]. rewrite Z.pow_add_r by lia. done. }
  pose proof (align_up_bounds _ c H8) as Hb. destruct (align_up_div _ c H8) as [q Hq].
  rewrite wrap_small by (change (Z.of_nat 64) with 64; lia). rewrite Hq in *.
  replace (q * (8 * 2 ^ k)) with (q * 2 ^ k * 8) in * by lia. rewrite Z.div_mul by lia.
  split_and!; [lia..|]. by exists q.
Qed.

Definition viewed_locally (t : ty) (mem : list Z) : Prop := ∀ A max ctx n,
  SizeOf t A mem max ctx = Some (Some n) → readable (length ctx) t = true → algn A →
  Forall small ctx → 0 ≤ max < 2 ^ 63 → n ≤ Z.of_nat (length mem) →
  ∃ x, ∀ mem', take (Z.to_nat n) mem' = take (Z.to_nat n) mem → view t mem' ctx = Some x.

Lemma view_parts_local S mem ctx parts max tot N :
  (∀ c p, (c, p) ∈ parts → algn (ComputeMaxAlignment p) ∧ ∃ k, readable k p = true) →
  (∀ c p pctx, (c, p) ∈ parts → eval_ctx mem ctx c = Some pctx →
     readable (length pctx) p = true ∧ Forall small pctx ∧
     ∀ mem', take (Z.to_nat (S + N)) mem' = take (Z.to_nat (S + N)) mem →
       eval_ctx mem' ctx c = Some pctx) →
  (∀ c p o, (c, p) ∈ parts → 0 ≤ o → viewed_locally p (skip (S + o) mem)) →
  PayloadSize SizeOf mem ctx parts (skip (S + tot) mem) max tot = Some (Some N) →
  0 ≤ S → 0 ≤ tot → 0 ≤ max < 2 ^ 63 → S + N ≤ Z.of_nat (length mem) →
  ∃ xs, ∀ mem', take (Z.to_nat (S + N)) mem' = take (Z.to_nat (S + N)) mem →
    view_parts view mem' ctx parts (S + tot) = Some xs.
Proof.
  revert max tot. induction parts as [|[c p] parts IH];
    intros max tot Hp Hc Hv Hs HS Htot Hmax Hlen; [by exists []|].
  cbn in Hs. destruct (eval_ctx mem ctx c) as [pctx|] eqn:Hctx; [|done]. cbn in Hs.
  destruct (SizeOf p _ _ max pctx) as [[size|]|] eqn:Hsz; [|done..]. cbn in Hs.
  destruct (Hc c p pctx) as (Hr & Hsm & Hctx'); [left|done|].
  assert (HA : algn (GetPartAlignment parts 1)).
  { destruct parts as [|[c' p'] parts]; [apply algn_1|]. apply (Hp c'). right; left. }
  pose proof (SizeOf_range _ _ _ _ _ _ Hsz). pose proof (self_size_ge _ _ _ Hr HA).
  rewrite skip_skip in Hs by lia. rewrite <-Z.add_assoc in Hs.
  assert (Hrange : tot + size ≤ N ≤ tot + size + (max - size)).
  { eapply PayloadSize_range; [|exact Hs|lia]. intros c' p' Hin. apply (Hp c'). by right. }
  destruct (IH (max - size) (tot + size)) as [xs Hxs]; [..|exact Hs|lia|lia|lia|lia|].
  { intros c' p' Hin. apply (Hp c'). by right. }
  { intros c' p' pctx' Hin. apply Hc. by right. }
  { intros c' p' o Hin. apply (Hv c'). by right. }
  destruct (Hv c p tot ltac:(left) Htot _ _ _ _ Hsz) as [x Hx];
    [done..|rewrite length_skip; lia|].
  exists (x :: xs). intros mem' Ht. cbn. rewrite (Hctx' _ Ht). cbn.
  assert (Ht' : take (Z.to_nat size) (skip (S + tot) mem')
                = take (Z.to_nat size) (skip (S + tot) mem)).
  { eapply take_prefix; [eapply skip_local; [|done]; lia|lia]. }
  rewrite (Hx _ Ht'). cbn.
  erewrite (SizeOf_local _ p (skip (S + tot) mem) (Nat.lt_succ_diag_r _));
    [|done|done|done|lia|done|unfold SIZE_MAX; lia].
  cbn. rewrite <-Z.add_assoc, (Hxs _ Ht). done.
Qed.

Lemma eval_ctx_small n size align parts c p mem ctx pctx :
  readable n (Struct size align parts) = true → (c, p) ∈ parts → Forall small ctx →
  eval_ctx mem ctx c = Some pctx → Forall small pctx.
Proof.
  intros Hr Hin Hs Hc. destruct (part_readable _ _ _ _ _ _ Hr Hin) as (_ & _ & Hf).
  destruct c as [|o b|]; cbn in Hc; [injection Hc as <-; done| |by injection Hc as <-].
  destruct (read_word mem o) as [w|]; [|done]. injection Hc as <-. constructor; [|done].
  pose proof (wrap_range b w). unfold small.
  pose proof (Z.pow_le_mono_r 2 (Z.of_nat b) 32 ltac:(lia) ltac:(lia)). lia.
Qed.

Lemma SizeOf_view k t mem : (length mem < k)%nat → viewed_locally t mem.
Proof.
  revert t mem. induction k as [|k IHk]; [lia|]. intros t.
  induction t as [size align|item|word| |size align parts IH|name|d o IH] using ty_ind';
    intros mem Hk A max ctx n Hs Hr HA Hsm Hmax Hlen; try discriminate Hr;
    pose proof (SizeOf_range _ _ _ _ _ _ Hs) as Hrange;
    pose proof (self_size_ge _ _ _ Hr HA) as Hself; rewrite SizeOf_eq in Hs; cbn zeta in *;
    match type of Hrange with self_size ?t A ≤ _ ≤ _ =>
      destruct (Z.ltb_spec max (self_size t A)) as [|Hge]; [lia|]
    end.
  - cbn [SizeOfPayload HasPayload negb mbind option_bind sizeof] in *. injection Hs as <-.
    eexists. intros mem' Ht. rewrite view_eq, (read_bytes_local size _ mem mem' Hself Hlen Ht).
    done.
  - change (self_size (DependentArray item) A) with 0 in *.
    cbn in Hr. bool_to_prop. destruct ctx as [|c [|]]; try done. rewrite Forall_singleton in Hsm.
    assert (Hi : algn item) by auto with edr. pose proof (po2_pos _ (proj1 Hi)).
    destruct Hi as [_ Hi]. unfold small in Hsm.
    assert (Hic : 0 ≤ item * c ≤ 16 * 2 ^ 32).
    { split; [apply Z.mul_nonneg_nonneg|apply Z.mul_le_mono_nonneg]; lia. }
    cbn [SizeOfPayload HasPayload negb mbind option_bind] in *.
    rewrite (wrap_small 64 (item * c)) in Hs by (change (Z.of_nat 64) with 64; lia).
    destruct (payload_no_wrap A (item * c) (16 * 2 ^ 32)) as [Hw Hle]; [done|lia|done|].
    rewrite Hw in Hs. destruct (Z.ltb_spec (max - 0) (align_up A (item * c))); [done|].
    injection Hs as <-. eexists. intros mem' Ht.
    rewrite view_eq, (read_bytes_local (item * c) (0 + align_up A (item * c)) mem mem' ltac:(lia) Hlen Ht). done.
  - change (self_size (DependentBits word) A) with 0 in *.
    cbn in Hr. bool_to_prop. destruct ctx as [|c [|]]; try done. rewrite Forall_singleton in Hsm.
    assert (Hi : algn word) by auto with edr.
    pose proof (GetNumBytes_bounds word c Hi Hsm) as (Hb & _).
    cbn [SizeOfPayload HasPayload negb mbind option_bind] in *.
    destruct (payload_no_wrap A (GetNumBytes word c) (2 ^ 33)) as [Hw Hle]; [done|lia|done|].
    rewrite Hw in Hs. destruct (Z.ltb_spec (max - 0) (align_up A (GetNumBytes word c))); [done|].
    injection Hs as <-. eexists. intros mem' Ht. rewrite view_eq. unfold read_bits.
    rewrite (read_bytes_local (GetNumBytes word c) (0 + align_up A (GetNumBytes word c)) mem mem' ltac:(lia) Hlen Ht). done.
  - cbn [SizeOfPayload HasPayload negb] in *. rewrite (self_size_payload _ A 1) in * by done.
    set (self := self_size (Struct size align parts) 1) in *. cbn [sizeof] in Hself.
    destruct (PayloadSize SizeOf mem _ _ _ _ _) as [[m|]|] eqn:Hp; [|done..].
    cbn [mbind option_bind] in Hs.
    pose proof (PayloadSize_range _ _ _ _ _ _ _
                  (λ c p, part_alignment _ _ _ _ c p Hr) Hp ltac:(lia)) as Hm0.
    destruct (payload_no_wrap A m (max - self)) as [Hw Hle]; [done|lia|lia|].
    rewrite Hw in Hs. destruct (Z.ltb_spec (max - self) (align_up A m)); [done|].
    injection Hs as <-.
    replace (skip self mem) with (skip (self + 0) mem) in Hp by (f_equal; lia).
    destruct (view_parts_local self mem ctx parts (max - self) 0 m) as [xs Hxs]; [..|exact Hp|lia|lia|lia|lia|].
    { intros c p Hin. by apply (part_alignment _ _ _ _ c p Hr). }
    { intros c p pctx Hin Hc. split_and!.
      - eapply (eval_ctx_local _ _ _ _ _ mem mem _ size); [done..|]. exact Hc.
      - by eapply eval_ctx_small.
      - intros mem' Ht. eapply eval_ctx_local; [done..| |done|done]. lia. }
    { intros c p o Hin Ho. rewrite Forall_forall in IH. apply (IH _ Hin). rewrite length_skip. lia. }
    exists (TStruct (take (Z.to_nat size) mem) xs). intros mem' Ht. rewrite view_eq.
    rewrite (read_bytes_local size (self + align_up A m) mem mem' ltac:(lia) Hlen Ht).
    cbn [mbind option_bind]. fold self. rewrite <-(Z.add_0_r self), Hxs; [done|].
    eapply take_prefix; [done|lia].
  - cbn [SizeOfPayload HasPayload negb] in *. change (self_size (Variant name) A) with 4 in *.
    destruct (read_word mem 0) as [w|] eqn:Hw; [|done]. cbn [mbind option_bind] in *.
    assert (Hword : ∀ mem', take (Z.to_nat n) mem' = take (Z.to_nat n) mem →
      read_word mem' 0 = Some w).
    { intros mem' Ht. apply (read_word_local mem mem' 0 (Z.to_nat n) w); [done|lia|done]. }
    destruct (find_option _ w) as [o|] eqn:Ho; cbn [mbind option_bind] in *.
    + pose proof (misalignment_nonneg o). apply read_word_Some in Hw as [Hl _].
      destruct (Z.ltb_spec (max - 4) (misalignment o)) as [|Hmis]; [done|].
      set (off := sizeof_variant + misalignment o) in *.
      destruct (SizeOf o 1 (skip off mem) _ _) as [[m|]|] eqn:Hp; [|done..].
      pose proof (find_option_readable _ _ _ Ho) as Hro.
      pose proof (SizeOf_range _ _ _ _ _ _ Hp). pose proof (self_size_ge _ _ _ Hro algn_1).
      cbn [mbind option_bind option_map] in Hs.
      destruct (payload_no_wrap A (misalignment o + m) (max - 4)) as [Hnw Hle]; [done|lia|lia|].
      rewrite Hnw in Hs. destruct (Z.ltb_spec (max - 4) (align_up A (misalignment o + m)));
        [done|]. injection Hs as <-.
      destruct (IHk o (skip off mem) ltac:(rewrite length_skip; unfold off, sizeof_variant; lia)
                  _ _ _ _ Hp) as [x Hx];
        [done|apply algn_1|done|lia|rewrite length_skip; unfold off, sizeof_variant; lia|].
      exists (TVariant w (Some x)). intros mem' Ht. rewrite view_eq, (Hword _ Ht).
      unfold Visit, As. rewrite (Hword _ Ht). cbn [mbind option_bind]. rewrite Ho, Z.eqb_refl.
      cbn [mbind option_bind option_map].
      replace (Z.max (ComputeMaxAlignment o) sizeof_variant) with off
        by (unfold off, misalignment; destruct (Z.leb_spec (ComputeMaxAlignment o) sizeof_variant); lia).
      rewrite Hx; [done|].
      eapply take_prefix; [eapply skip_local; [|done]; unfold off, sizeof_variant; lia|].
      unfold off, sizeof_variant. lia.
    + exists (TVariant w None). intros mem' Ht. rewrite view_eq, (Hword _ Ht). unfold Visit, As.
      rewrite (Hword _ Ht). cbn [mbind option_bind]. by rewrite Ho.
Qed.
End safety.

(** ** What is emplaced is read back *)

(** The size with some alignment is the rounded size without. *)
Definition fits (A : Z) (t : ty) : bool :=
  match t with
  | Struct _ _ _ => self_size t 1 mod A =? 0
  | Variant _ => sizeof_variant mod A =? 0
  | _ => true
  end.

Definition parts_lay (lays : Z → ty → ty → bool) (A : Z)
    : list (ctxsrc * ty) → list (ctxsrc * ty) → bool :=
  fix loop parts parts' :=
    match parts, parts' with
    | [], [] => true
    | (c, p) :: parts, (c', p') :: parts' =>
        bool_decide (c = c') && (ComputeMaxAlignment p =? ComputeMaxAlignment p')
        && (GetPartAlignment parts' A mod A =? 0)
        && lays (GetPartAlignment parts' A) p p' && fits (GetPartAlignment parts' A) p'
        && loop parts parts'
    | _, _ => false
    end.

Section laying.
Context `{Universe}.

(** Objects emplaced as [w] in a stream of alignment [A] can be read as [r]: an
    option is written and its variant is read.  The condition is on types alone. *)
Fixpoint lays (A : Z) (w r : ty) : bool :=
  match w, r with
  | Plain size align, Plain size' align' => (size =? size') && (align =? align')
  | DependentArray item, DependentArray item' => item =? item'
  | DependentBits word, DependentBits word' => word =? word'
  | StringFormat, Struct size align [(Field offset bits, DependentArray item)] =>
      (size =? 4) && (align =? 4) && (offset =? 0)%nat && (bits =? 32)%nat && (item =? 1)
  | Struct size align parts, Struct size' align' parts' =>
      (size =? size') && parts_lay lays A parts parts'
  | Variant name, Variant name' => (name =? name')%nat
  | Option d o, Variant name =>
      match find_option (variant_options name) d with
      | Some o' =>
          (0 <=? d) && (d <? 2 ^ 32) && lays A o o' && fits A o'
          && (ComputeMaxAlignment o =? ComputeMaxAlignment o') && (misalignment o' mod A =? 0)
      | None => false
      end
  | _, _ => false
  end.

(** The arguments of an object fit its type; [ctx] is what its payload will be
    measured with. *)
Definition parts_ok (ok : ty → list Z → val → Prop) (self ctx : list Z)
    : list (ctxsrc * ty) → list val → Prop :=
  fix loop parts args :=
    match parts, args with
    | [], [] => True
    | (c, p) :: parts, v :: args =>
        (∃ pctx, eval_ctx self ctx c = Some pctx ∧ ok p pctx v) ∧ loop parts args
    | _, _ => False
    end.

Fixpoint val_ok (t : ty) (ctx : list Z) (v : val) : Prop :=
  match t, v with
  | Plain size _, VPlain bytes => Z.of_nat (length bytes) = size
  | DependentArray item, VReserve n => ctx = [n]
  | DependentArray item, VBytes bytes => ∃ n, ctx = [n] ∧ Z.of_nat (length bytes) = item * n
  | DependentBits _, VReserve n => ctx = [n]
  | DependentBits _, VBits wU src s => ctx = [Z.of_nat (GetNumBits s)] ∧ BitStream.wf wU src s
  | StringFormat, VBytes bytes => small (Z.of_nat (length bytes))
  | Struct size _ parts, VStruct bytes args =>
      Z.of_nat (length bytes) = size ∧ parts_ok val_ok bytes ctx parts args
  | Option _ o, VOption v => val_ok o [] v
  | Variant name, VCopy name' mem =>
      ∃ d o max n, read_word mem 0 = Some d ∧ small d
        ∧ find_option (variant_options name') d = Some o
        ∧ find_option (variant_options name) d = Some o
        ∧ SizeOf o 1 (skip (sizeof_variant + misalignment o) mem) max [] = Some (Some n)
        ∧ 0 ≤ max < 2 ^ 63
        ∧ sizeof_variant + misalignment o + n ≤ Z.of_nat (length mem)
  | _, _ => False
  end.

(** What a reader sees of the arguments. *)
Definition parts_show (shows : ty → val → tree → Prop)
    : list (ctxsrc * ty) → list val → list tree → Prop :=
  fix loop parts args xs :=
    match parts, args, xs with
    | [], [], [] => True
    | (_, p) :: parts, v :: args, x :: xs => shows p v x ∧ loop parts args xs
    | _, _, _ => False
    end.

Fixpoint shows (t : ty) (v : val) (x : tree) : Prop :=
  match t, v, x with
  | Plain _ _, VPlain bytes, TPlain bytes' => bytes' = bytes
  | DependentArray item, VReserve n, TArray bytes => Z.of_nat (length bytes) = item * n
  | DependentArray _, VBytes bytes, TArray bytes' => bytes' = bytes
  | DependentBits _, VReserve n, TBits bits => Z.of_nat (length bits) = n
  | DependentBits _, VBits wU src s, TBits bits => bits = contents wU src s
  | StringFormat, VBytes bytes, TStruct len [TArray bytes'] =>
      len = le_bytes 4 (Z.of_nat (length bytes)) ∧ bytes' = bytes
  | Struct _ _ parts, VStruct bytes args, TStruct bytes' xs =>
      bytes' = bytes ∧ parts_show shows parts args xs
  | Option d o, VOption v, TVariant d' (Some x) => d' = d ∧ shows o v x
  | Variant _, VCopy name mem, x => view (Variant name) mem [] = Some x
  | _, _, _ => False
  end.
End laying.

(** *** Words *)

Lemma length_to_words n word bytes : length (to_words n word bytes) = n.
Proof. revert bytes. induction n; intros; cbn; by rewrite ?IHn. Qed.

Lemma length_of_words word words : length (of_words word words) = (length words * word)%nat.
Proof.
  unfold of_words. induction words as [|x words IH]; [done|]. cbn.
  rewrite length_app, length_le_bytes, IH. done.
Qed.

Lemma to_of_words word words :
  to_words (length words) word (of_words word words) = wrap (8 * word) <$> words.
Proof.
  unfold of_words. induction words as [|x words IH]; [done|]. cbn.
  rewrite take_app_length', drop_app_length' by (by rewrite length_le_bytes).
  rewrite le_z_le_bytes, IH. done.
Qed.

Lemma contents_wrap w words s : (0 < w)%nat →
  contents w (wrap w <$> words) s = contents w words s.
Proof.
  intros Hw. unfold contents. apply list_fmap_ext. intros i j Hj. unfold bit_at.
  rewrite list_lookup_fmap. destruct (words !! _) as [x|]; [|done]. cbn [fmap option_fmap option_map].
  rewrite wrap_testbit by lia.
  pose proof (Nat.mod_upper_bound (pos w s + j) w ltac:(lia)).
  destruct (Z.ltb_spec (Z.of_nat ((pos w s + j) mod w)) (Z.of_nat w)); [|lia].
  done.
Qed.

Lemma write_bits_spec `{ShiftUB} word wU src s old :
  algn word → small (Z.of_nat (GetNumBits s)) → BitStream.wf wU src s →
  Z.of_nat (length old) = GetNumBytes word (Z.of_nat (GetNumBits s)) →
  ∃ new, write_bits (Z.to_nat word) wU src s old = Some new ∧ length new = length old
    ∧ ∀ mem, take (length new) mem = new →
      read_bits word (Z.of_nat (GetNumBits s)) mem = Some (contents wU src s).
Proof.
  intros Hw Hs Hwf Hlen. destruct (GetNumBytes_bounds word _ Hw Hs) as (Hb & Hc & [q Hq]).
  pose proof (po2_pos _ (proj1 Hw)) as Hpos. set (w := Z.to_nat word) in *.
  assert (Hold : (length old = Z.to_nat q * w)%nat) by (unfold w; nia).
  assert (Hdiv : (length old / w = Z.to_nat q)%nat) by (rewrite Hold, Nat.div_mul; lia).
  set (n := GetNumBits s) in *. unfold write_bits. rewrite Hdiv. fold n.
  set (words := to_words (Z.to_nat q) w old).
  assert (Hlw : length words = Z.to_nat q) by apply length_to_words.
  unfold BitStream.make. cbn [mbind option_bind]. rewrite Nat.Div0.div_0_l, Nat.Div0.mod_0_l.
  cbn [check Nat.leb mbind option_bind Nat.add]. rewrite Nat.sub_0_r.
  set (d := mkBitStream 0 0 n). unfold WriteStream. change (m_remaining d) with n.
  change (m_remaining s) with n. rewrite !Nat.min_id.
  assert (Hd : BitStream.wf (8 * w) words d).
  { split; [lia|cbn; lia|]. unfold pos. cbn -[Nat.mul]. rewrite Hlw. nia. }
  destruct (CopyLoop_spec (8 * w) wU (S n) words d src s n)
    as (words' & d' & s' & -> & _ & _ & Hl' & _ & _ & _ & Hbits); [lia|done|done|done|done|].
  cbn [mbind option_bind]. eexists. split; [done|].
  assert (Hlen' : length (of_words w words') = length old)
    by (rewrite length_of_words, Hl', Hlw; done).
  split; [done|]. intros mem Ht. unfold read_bits, read_bytes.
  rewrite <-Hlen, !Nat2Z.id, <-Hlen', Ht, Z.eqb_refl. cbn [check mbind option_bind]. fold w.
  unfold BitStream.make. cbn [check Nat.leb mbind option_bind].
  rewrite Nat.Div0.div_0_l, Nat.Div0.mod_0_l, Nat.sub_0_r. f_equal.
  rewrite Hlen', Hdiv, <-Hlw, <-Hl', to_of_words, contents_wrap by lia.
  change (contents (8 * w) words' d = contents wU src s).
  unfold contents. cbn [m_remaining d]. apply list_fmap_ext. intros i j Hj.
  apply lookup_seq in Hj as [-> Hj]. rewrite Hbits. change (pos (8 * w) d) with 0%nat.
  cbn [Nat.add Nat.leb andb]. change (m_remaining s) with n in Hj.
  destruct (Nat.ltb_spec i n); [|lia]. f_equal. lia.
Qed.

(** *** Streams *)

(** A contiguous stream that stands between [pre] and [rest]. *)
Definition standing (pre rest : list Z) : Contiguous :=
  mkContiguous (pre ++ rest) (Z.of_nat (length pre)).

Section streams.
Context `{ShiftUB} `{U : Universe}.

Lemma AllocateAligned_standing a size used f pre old post bs :
  Z.of_nat (length old) = align_up a size → 0 ≤ used ≤ align_up a size →
  f (take (Z.to_nat used) old) = Some bs → Z.of_nat (length bs) = used →
  AllocateAligned a size used f (standing pre (old ++ post))
  = Some (standing (pre ++ bs ++ drop (Z.to_nat used) old) post).
Proof.
  intros Hold Hu Hf Hbs. unfold AllocateAligned, standing. cbn -[skip].
  unfold skip. rewrite Nat2Z.id, drop_app_length.
  rewrite take_app_le by lia. rewrite Hf, length_take.
  rewrite (proj2 (Z.eqb_eq _ _)) by lia. cbn [check mbind option_bind].
  rewrite (proj2 (Nat.eqb_eq _ _)) by lia. cbn [check mbind option_bind].
  f_equal. unfold splice. rewrite take_app_length.
  replace (length pre + length bs)%nat with (length (pre ++ take (length bs) old))
    by (rewrite length_app, length_take; lia).
  f_equal.
  - rewrite <-!app_assoc. do 2 f_equal. rewrite length_app, length_take.
    rewrite drop_app_ge by lia. replace (_ - length pre)%nat with (length bs) by lia.
    rewrite drop_app_le by lia. do 2 f_equal. lia.
  - rewrite !length_app, length_drop. lia.
Qed.

Lemma PayloadEmplace_shift A parts args o :
  Forall (λ p, ∀ A v o, EmplaceImpl (S := Z) p.2 A v o = Z.add o <$> EmplaceImpl p.2 A v 0) parts →
  PayloadEmplace (S := Z) EmplaceImpl A parts args o
  = Z.add o <$> PayloadEmplace EmplaceImpl A parts args 0.
Proof.
  intros Hp. revert args o. induction Hp as [|[c p] parts Hp Hps IH]; intros args o.
  { destruct args; cbn; f_equal; lia. }
  destruct args as [|v args]; [done|]. cbn. cbn in Hp. rewrite Hp.
  destruct (EmplaceImpl p _ v 0) as [n|]; [|done]. cbn. rewrite IH, (IH args n).
  destruct (PayloadEmplace _ _ _ _ _) as [m|]; [|done]. cbn. f_equal. lia.
Qed.

Lemma EmplaceSelf_counting t A bytes (o : Z) :
  EmplaceSelf t A bytes o = Some (o + self_size t A).
Proof. unfold EmplaceSelf, self_size. destruct (0 =? sizeof t); cbn; f_equal; lia. Qed.

(** Emplacement changes bytes, never the size of the memory. *)
Lemma AllocateAligned_length A size used f (s s' : Contiguous) :
  AllocateAligned A size used f s = Some s' → length (m_start s') = length (m_start s).
Proof.
  unfold AllocateAligned. cbn. set (old := take _ _).
  destruct (Z.of_nat (length old) =? used); [|done]. cbn [check mbind option_bind].
  destruct (f old) as [bytes|]; [|done]. cbn [mbind option_bind].
  destruct (Nat.eqb_spec (length bytes) (length old)) as [Hl|]; [|done]. intros [= <-].
  cbn [m_start]. apply (length_splice_within (Z.to_nat used)). by rewrite Hl.
Qed.

Lemma EmplaceSelf_length t A bytes (s s' : Contiguous) :
  EmplaceSelf t A bytes s = Some s' → length (m_start s') = length (m_start s).
Proof. unfold EmplaceSelf. case_match; [by intros [= ->]|apply AllocateAligned_length]. Qed.

Lemma EmplaceImpl_length t A v (s s' : Contiguous) :
  EmplaceImpl t A v s = Some s' → length (m_start s') = length (m_start s).
Proof.
  revert A v s s'.
  induction t as [size align|item|word| |size align parts IH|name|d t IH] using ty_ind';
    intros A v s s'; destruct v as [bytes|n|bytes|wU src b|bytes args|v|name' mem];
    cbn [EmplaceImpl]; try done; eauto using EmplaceSelf_length, AllocateAligned_length.
  - destruct (EmplaceSelf _ _ _ s) as [s1|] eqn:E; [|done]. cbn [mbind option_bind].
    intros H1%AllocateAligned_length. by rewrite H1, (EmplaceSelf_length _ _ _ _ _ E).
  - destruct (EmplaceSelf _ _ _ s) as [s1|] eqn:E; [|done]. cbn [mbind option_bind].
    rewrite <-(EmplaceSelf_length _ _ _ _ _ E). clear E s. revert args s1.
    induction IH as [|[c p] parts Hp _ IH]; intros [|v args] s1; cbn [PayloadEmplace]; try done.
    + by intros [= ->].
    + destruct (EmplaceImpl p _ v s1) as [s2|] eqn:E; [|done]. cbn [mbind option_bind].
      intros H1%IH. by rewrite H1, (Hp _ _ _ _ E).
  - destruct (read_word mem 0) as [w|]; [|done]. cbn [mbind option_bind].
    destruct (EmplaceSelf _ _ _ s) as [s1|] eqn:E; [|done]. cbn [mbind option_bind].
    rewrite <-(EmplaceSelf_length _ _ _ _ _ E). unfold EmplaceCopy.
    destruct (Visit name' mem) as [[[[? o'] off]|]|]; [|done..]. cbn [mbind option_bind].
    destruct (SizeOfTrusted _ _ _); [|done]. cbn [mbind option_bind]. apply AllocateAligned_length.
  - destruct (EmplaceSelf _ _ _ s) as [s1|] eqn:E; [|done]. cbn [mbind option_bind].
    intros H1%IH. by rewrite H1, (EmplaceSelf_length _ _ _ _ _ E).
Qed.

(** The counting pass adds the same number wherever it starts. *)
Lemma EmplaceImpl_shift t A v o :
  EmplaceImpl (S := Z) t A v o = Z.add o <$> EmplaceImpl t A v 0.
Proof.
  revert A v o.
  induction t as [size align|item|word| |size align parts IH|name|d t IH] using ty_ind';
    intros A v o; destruct v; cbn -[EmplaceSelf]; try done; try (f_equal; lia).
  - rewrite !EmplaceSelf_counting. cbn. f_equal; lia.
  - rewrite !EmplaceSelf_counting. cbn. f_equal; lia.
  - rewrite !EmplaceSelf_counting. cbn [mbind option_bind]. rewrite PayloadEmplace_shift by done.
    rewrite (PayloadEmplace_shift _ _ _ (0 + _)) by done.
    destruct (PayloadEmplace _ _ _ _ _) as [m|]; [|done]. cbn [fmap option_fmap option_map].
    f_equal. lia.
  - destruct (read_word mem 0) as [w|]; [|done]. cbn [mbind option_bind].
    rewrite !EmplaceSelf_counting. cbn [mbind option_bind]. unfold EmplaceCopy.
    destruct (Visit name0 mem) as [[[[d o'] off]|]|]; [|done..]. cbn [mbind option_bind].
    destruct (SizeOfTrusted _ _ _); [|done]. cbn. f_equal; lia.
  - rewrite !EmplaceSelf_counting. cbn [mbind option_bind]. rewrite IH, (IH _ _ (0 + _)).
    destruct (EmplaceImpl t A v 0) as [m|]; [|done]. cbn [fmap option_fmap option_map]. f_equal. lia.
Qed.

Lemma EmplaceImpl_option d o A v (n : Z) :
  EmplaceImpl (Option d o) A (VOption v) n
  = (λ m, n + self_size (Option d o) A + m) <$> EmplaceImpl (S := Z) o A v 0.
Proof.
  cbn [EmplaceImpl]. rewrite EmplaceSelf_counting. cbn [mbind option_bind].
  rewrite EmplaceImpl_shift. by destruct (EmplaceImpl o A v 0).
Qed.

Lemma EmplaceSelf_standing t A bytes pre old post :
  algn (GetPayloadAlignment t A) → Z.of_nat (length bytes) = sizeof t →
  Z.of_nat (length old) = self_size t A →
  ∃ new, EmplaceSelf t A bytes (standing pre (old ++ post)) = Some (standing (pre ++ new) post)
    ∧ length new = length old ∧ take (length bytes) new = bytes.
Proof.
  intros [HA _] Hb Hold. unfold EmplaceSelf, self_size in *.
  destruct (Z.eqb_spec 0 (sizeof t)) as [H0|H0].
  - destruct old; [|done]. destruct bytes; [|cbn in Hb; lia]. exists []. by rewrite app_nil_r.
  - pose proof (align_up_bounds _ (sizeof t) HA).
    erewrite AllocateAligned_standing; [|done|lia| |exact Hb].
    + eexists. split; [done|]. rewrite length_app, length_drop, take_app_length. split; [lia|done].
    + unfold construct. rewrite (proj2 (Z.eqb_eq _ _)) by lia. done.
Qed.
End streams.

Section reading_back.
Context `{ShiftUB} `{U : Universe} `{!ReadableUniverse}.

Lemma SizeOfPayload_range t mem max ctx m :
  SizeOfPayload t mem max ctx = Some (Some m) → readable (length ctx) t = true →
  Forall small ctx → 0 ≤ max < 2 ^ 63 → 0 ≤ m < 2 ^ 63.
Proof.
  intros Hs Hr Hsm Hmax. destruct t as [size align|item|word| |size align parts|name|d o];
    cbn [SizeOfPayload] in Hs; try discriminate Hr.
  - injection Hs as <-. lia.
  - cbn in Hr. bool_to_prop. destruct ctx as [|c [|]]; try done. injection Hs as <-.
    rewrite Forall_singleton in Hsm. destruct (is_alignment_algn item) as [Hp Hi]; [done|].
    pose proof (po2_pos _ Hp). unfold small in Hsm.
    assert (Hic : 0 ≤ item * c ≤ 16 * 2 ^ 32).
    { split; [apply Z.mul_nonneg_nonneg|apply Z.mul_le_mono_nonneg]; lia. }
    rewrite wrap_small by (change (Z.of_nat 64) with 64; lia). lia.
  - cbn in Hr. bool_to_prop. destruct ctx as [|c [|]]; try done. injection Hs as <-.
    rewrite Forall_singleton in Hsm.
    pose proof (GetNumBytes_bounds word c (is_alignment_algn _ ltac:(done)) Hsm). lia.
  - apply PayloadSize_range in Hs; [lia| |lia]. intros c p Hin. by eapply part_alignment.
  - destruct (read_word mem 0) as [w|]; [|done]. cbn in Hs.
    destruct (find_option _ w) as [o|] eqn:Ho; [|injection Hs as <-; lia].
    pose proof (misalignment_nonneg o).
    destruct (Z.ltb_spec max (misalignment o)); [done|].
    destruct (SizeOf o _ _ _ _) as [[n|]|] eqn:Hn; [|done..]. cbn in Hs. injection Hs as <-.
    apply SizeOf_range in Hn.
    pose proof (self_size_ge _ _ _ (find_option_readable _ _ _ Ho) algn_1). lia.
Qed.

Lemma SizeOf_post1 t A mem max ctx n :
  SizeOf t A mem max ctx = Some (Some n) → readable (length ctx) t = true → algn A →
  Forall small ctx → 0 ≤ max < 2 ^ 63 → fits A t = true →
  ∃ n1, SizeOf t 1 mem max ctx = Some (Some n1) ∧ align_up A n1 = n ∧ 0 ≤ n1 ≤ n.
Proof.
  intros Hs Hr HA Hsm Hmax Hf. pose proof (SizeOf_range _ _ _ _ _ _ Hs) as Hrange.
  pose proof (self_size_ge _ _ _ Hr HA) as Hself. pose proof (self_size_ge _ _ _ Hr algn_1) as Hself1.
  pose proof (po2_pos _ (proj1 HA)) as HApos.
  assert (Hle : self_size t 1 ≤ self_size t A).
  { destruct (HasPayload t) eqn:Hp; [rewrite (self_size_payload t 1 A) by done; lia|].
    destruct t; try done. unfold self_size in *. cbn [sizeof GetPayloadAlignment] in *.
    destruct (0 =? size); [lia|]. rewrite align_up_one. pose proof (align_up_bounds A size (proj1 HA)).
    lia. }
  rewrite SizeOf_eq in Hs |- *. cbn zeta in *.
  destruct (Z.ltb_spec max (self_size t A)); [lia|]. destruct (Z.ltb_spec max (self_size t 1)); [lia|].
  destruct (HasPayload t) eqn:Hp; cbn [negb] in *.
  - rewrite (self_size_payload t A 1) in * by done.
    destruct (SizeOfPayload t mem _ ctx) as [[m|]|] eqn:Hm; [|done..]. cbn [mbind option_bind] in *.
    apply SizeOfPayload_range in Hm; [|done|done|lia].
    destruct (payload_no_wrap A m m HA) as [HwA ?]; [lia|lia|].
    destruct (payload_no_wrap 1 m m algn_1) as [Hw1 ?]; [lia|lia|].
    rewrite HwA in Hs. rewrite Hw1, align_up_one.
    destruct (Z.ltb_spec (max - self_size t 1) (align_up A m)); [done|]. injection Hs as <-.
    destruct (Z.ltb_spec (max - self_size t 1) m); [lia|].
    eexists. split; [done|]. split; [|lia]. apply align_up_shift; [apply HA|].
    apply Z.mod_divide; [lia|]. destruct t; try done; cbn in Hf |- *;
      try (apply Z.mod_0_l; lia); try discriminate Hr; by apply Z.eqb_eq.
  - destruct t as [size align| | | | | |]; try done. cbn [SizeOfPayload mbind option_bind] in *.
    injection Hs as <-. eexists. split; [done|]. split; [|lia].
    unfold self_size. cbn [sizeof GetPayloadAlignment]. destruct (Z.eqb_spec 0 size) as [<-|].
    + apply align_up_fix; [apply HA|apply Z.divide_0_r].
    + by rewrite align_up_one.
Qed.

Lemma SizeOf_intro t A mem max ctx m :
  HasPayload t = true → SizeOfPayload t mem (max - self_size t A) ctx = Some (Some m) →
  algn A → 0 ≤ self_size t A → 0 ≤ m → self_size t A + align_up A m ≤ max < 2 ^ 63 →
  SizeOf t A mem max ctx = Some (Some (self_size t A + align_up A m)).
Proof.
  intros Hp Hs HA Hself Hm Hmax. rewrite SizeOf_eq. cbn zeta.
  destruct (payload_no_wrap A m m HA) as [Hw Hle]; [lia| |].
  { pose proof (align_up_bounds A m (proj1 HA)). lia. }
  destruct (Z.ltb_spec max (self_size t A)); [lia|]. rewrite Hs, Hp. cbn [mbind option_bind negb].
  rewrite Hw. destruct (Z.ltb_spec (max - self_size t A) (align_up A m)); [lia|done].
Qed.

(** An object of type [w] that is emplaced can be measured and read as [r], in
    any memory that goes on from its bytes. *)
Definition read_as (r : ty) (A : Z) (ctx : list Z) (new : list Z) (x : tree) : Prop :=
  ∀ mem max, take (length new) mem = new → Z.of_nat (length new) ≤ max < 2 ^ 63 →
    SizeOf r A mem max ctx = Some (Some (Z.of_nat (length new))) ∧ view r mem ctx = Some x.

Definition reads_back (w : ty) : Prop := ∀ r A ctx v,
  lays A w r = true → readable (length ctx) r = true → algn A → Forall small ctx →
  val_ok w ctx v →
  ∃ W, 0 ≤ W ∧ EmplaceImpl (S := Z) w A v 0 = Some W ∧
    (W < 2 ^ 62 → ∀ pre old post, Z.of_nat (length old) = W →
      ∃ new x, length new = length old
        ∧ EmplaceImpl w A v (standing pre (old ++ post)) = Some (standing (pre ++ new) post)
        ∧ shows w v x ∧ read_as r A ctx new x).

Lemma plain_reads_back size align : reads_back (Plain size align).
Proof.
  intros r A ctx v Hl Hr HA Hsm Hv. destruct r; try done. cbn in Hl.
  apply andb_true_iff in Hl as [<-%Z.eqb_eq <-%Z.eqb_eq]. destruct v; try done. cbn in Hv.
  pose proof (self_size_ge _ _ _ Hr HA) as Hself.
  exists (self_size (Plain size align) A). split; [lia|]. split; [apply EmplaceSelf_counting|].
  intros _ pre old post Hold.
  destruct (EmplaceSelf_standing (Plain size align) A bytes pre old post) as (new & He & Hn & Ht);
    [done|done|done|]. exists new, (TPlain bytes). split_and!; [done|done|done|].
  intros mem max Hm Hmax. split.
  - rewrite SizeOf_eq. cbn zeta. cbn [SizeOfPayload HasPayload negb mbind option_bind].
    destruct (Z.ltb_spec max (self_size (Plain size align) A)); [lia|]. do 2 f_equal. lia.
  - rewrite view_eq. unfold read_bytes. rewrite <-Hv, Nat2Z.id.
    assert (Hb : take (length bytes) mem = bytes).
    { rewrite (take_of_prefix mem new); [done|done|cbn in Hself; lia]. }
    rewrite Hb, Z.eqb_refl. done.
Qed.

(** A payload alone: [m] bytes of it are filled by [f]. *)
Lemma payload_reads_back r A ctx m used f (P : tree → Prop) :
  HasPayload r = true → self_size r A = 0 → algn A → 0 ≤ m → 0 ≤ used ≤ m →
  (∀ mem max, SizeOfPayload r mem max ctx = Some (Some m)) →
  (∀ old, Z.of_nat (length old) = m →
     ∃ bs x, f (take (Z.to_nat used) old) = Some bs ∧ Z.of_nat (length bs) = used ∧ P x
       ∧ ∀ mem, take (length old) mem = bs ++ drop (Z.to_nat used) old → view r mem ctx = Some x) →
  ∀ pre old post, Z.of_nat (length old) = align_up A m → align_up A m < 2 ^ 62 →
  ∃ new x, length new = length old
    ∧ AllocateAligned A m used f (standing pre (old ++ post)) = Some (standing (pre ++ new) post)
    ∧ P x ∧ read_as r A ctx new x.
Proof.
  intros Hp Hself HA Hm Hu Hs Hf pre old post Hold Hb.
  pose proof (align_up_bounds A m (proj1 HA)) as Hbounds.
  destruct (Hf (take (Z.to_nat m) old)) as (bs & x & Hbs & Hlbs & HP & Hview);
    [rewrite length_take; lia|]. rewrite take_take, Nat.min_l in Hbs by lia.
  exists (bs ++ drop (Z.to_nat used) old), x.
  assert (Hl : length (bs ++ drop (Z.to_nat used) old) = length old)
    by (rewrite length_app, length_drop; lia).
  split_and!; [done| |done|].
  { erewrite AllocateAligned_standing; [done|done|lia|done|done]. }
  intros mem max Ht Hmax. rewrite Hl in *. split.
  - rewrite (SizeOf_intro r A mem max ctx m); [|done|apply Hs|done|lia|done|lia]. do 2 f_equal. lia.
  - apply Hview. rewrite length_take, Nat.min_l by lia.
    assert (Hpre : take (Z.to_nat m) mem = take (Z.to_nat m) (bs ++ drop (Z.to_nat used) old)).
    { apply take_of_prefix; rewrite ?Hl; [done|lia]. }
    rewrite Hpre, take_app, take_ge by lia. f_equal.
    rewrite <-Nat2Z.id with (n := length bs), Hlbs, take_drop_commute. do 2 f_equal. lia.
Qed.

Lemma array_reads_back item : reads_back (DependentArray item).
Proof.
  intros r A ctx v Hl Hr HA Hsm Hv. destruct r as [|item'| | | | |]; try done. cbn in Hl.
  apply Z.eqb_eq in Hl as <-. assert (Hi : algn item) by (cbn in Hr; bool_to_prop; auto using is_alignment_algn).
  pose proof (po2_pos _ (proj1 Hi)).
  assert (Hpay : ∀ n, small n → 0 ≤ item * n ∧ u64[item * n] = item * n).
  { intros n Hn. destruct Hi as [_ Hi]. unfold small in Hn.
    assert (0 ≤ item * n ≤ 16 * 2 ^ 32).
    { split; [apply Z.mul_nonneg_nonneg|apply Z.mul_le_mono_nonneg]; lia. }
    split; [lia|]. apply wrap_small. change (Z.of_nat 64) with 64. lia. }
  destruct v as [|n|bytes| | | |]; try done; cbn in Hv.
  - subst ctx. rewrite Forall_singleton in Hsm. destruct (Hpay n Hsm) as [Hn Hw].
    pose proof (align_up_bounds A (item * n) (proj1 HA)).
    exists (align_up A (item * n)). split_and!; [lia|done|]. intros Hb pre old post Hold.
    apply (payload_reads_back (DependentArray item) A [n] (item * n) 0 Some); try done; try lia.
    { intros mem max. cbn. by rewrite Hw. }
    intros old' Hold'. exists [], (TArray old'). cbn [take]. split_and!; [done..|].
    cbn [app Z.to_nat drop]. intros mem Ht. rewrite view_eq. unfold read_bytes.
    rewrite <-Hold', Nat2Z.id, Ht, Z.eqb_refl. done.
  - destruct Hv as (n & -> & Hn). rewrite Forall_singleton in Hsm.
    destruct (Hpay n Hsm) as [Hnn Hw]. rewrite <-Hn in *.
    set (m := Z.of_nat (length bytes)) in *. pose proof (align_up_bounds A m (proj1 HA)).
    exists (align_up A m). split_and!; [lia|done|]. intros Hb pre old post Hold.
    apply (payload_reads_back (DependentArray item) A [n] m m _); try done; try lia.
    { intros mem max. cbn. by rewrite <-Hn, Hw. }
    intros old' Hold'. exists bytes, (TArray bytes). unfold construct. rewrite Z.eqb_refl.
    split_and!; [done..|]. rewrite drop_ge, app_nil_r by lia. intros mem Ht. rewrite view_eq.
    unfold read_bytes. rewrite <-Hn. unfold m. rewrite Nat2Z.id.
    replace (length bytes) with (length old') by lia. rewrite Ht, (proj2 (Z.eqb_eq _ _)) by lia. done.
Qed.

Lemma bits_reads_back word : reads_back (DependentBits word).
Proof.
  intros r A ctx v Hl Hr HA Hsm Hv. destruct r as [| |word'| | | |]; try done. cbn in Hl.
  apply Z.eqb_eq in Hl as <-. assert (Hi : algn word) by (cbn in Hr; bool_to_prop; auto using is_alignment_algn).
  destruct v as [|n| |wU src s| | |]; try done; cbn in Hv.
  - subst ctx. rewrite Forall_singleton in Hsm.
    destruct (GetNumBytes_bounds word n Hi Hsm) as (Hb & Hbits & _).
    set (m := GetNumBytes word n) in *. pose proof (align_up_bounds A m (proj1 HA)).
    exists (align_up A m). split_and!; [lia|done|]. intros Hb' pre old post Hold.
    apply (payload_reads_back (DependentBits word) A [n] m 0 Some); try done; try lia.
    intros old' Hold'. eexists [], (TBits _). cbn [take]. split_and!; [done..| |].
    2: { cbn [app Z.to_nat drop]. intros mem Ht. rewrite view_eq. unfold read_bits, read_bytes.
         fold m. rewrite <-Hold', Nat2Z.id, Ht, Z.eqb_refl. done. }
    cbn [shows]. rewrite length_contents. cbn. unfold small in Hsm. lia.
  - destruct Hv as [-> Hwf]. rewrite Forall_singleton in Hsm.
    destruct (GetNumBytes_bounds word _ Hi Hsm) as (Hb & _ & _).
    set (m := GetNumBytes word (Z.of_nat (GetNumBits s))) in *.
    pose proof (align_up_bounds A m (proj1 HA)).
    exists (align_up A m). split_and!; [lia|done|]. intros Hb' pre old post Hold.
    apply (payload_reads_back (DependentBits word) A _ m m _); try done; try lia.
    intros old' Hold'. rewrite take_ge, drop_ge by lia.
    destruct (write_bits_spec word wU src s old') as (new & Hn & Hl & Hread); [done..|].
    exists new, (TBits (contents wU src s)). split_and!; [done|lia|done|].
    rewrite app_nil_r. intros mem Ht. rewrite view_eq, Hread; [done|]. by rewrite Hl.
Qed.

(** The bytes of an object are its own, then those of its payload. *)
Lemma split_memory (s p mem : list Z) :
  take (length (s ++ p)) mem = s ++ p →
  take (length s) mem = s ∧ take (length p) (skip (Z.of_nat (length s)) mem) = p.
Proof.
  intros Ht. rewrite length_app in Ht. split.
  - apply (f_equal (take (length s))) in Ht. rewrite take_take, Nat.min_l, take_app_length in Ht; [done|lia].
  - unfold skip. rewrite Nat2Z.id, take_drop_commute, Ht, drop_app_length. done.
Qed.

Lemma parts_lay_alignment A B parts parts' :
  parts_lay lays A parts parts' = true → GetPartAlignment parts B = GetPartAlignment parts' B.
Proof.
  destruct parts as [|[c p] parts], parts' as [|[c' p'] parts']; cbn; try done.
  intros Hl. bool_to_prop. done.
Qed.

Lemma eval_ctx_prefix self mem ctx c pctx :
  take (length self) mem = self → eval_ctx self ctx c = Some pctx → eval_ctx mem ctx c = Some pctx.
Proof.
  intros Ht. destruct c as [|o b|]; cbn; [done| |done].
  destruct (read_word self o) as [w|] eqn:Hw; [|done].
  rewrite (read_word_local self mem o (length self) w);
    [done|by rewrite Ht, firstn_all|by apply (read_word_Some self o w)|done].
Qed.

Lemma PayloadSize_cons f self ctx c p parts mem max total :
  PayloadSize f self ctx ((c, p) :: parts) mem max total =
    pctx ← eval_ctx self ctx c;
    mb_size ← f p (GetPartAlignment parts 1) mem max pctx;
    match mb_size with
    | None => Some None
    | Some size =>
        PayloadSize f self ctx parts (skip size mem) (max - size) (total + size)
    end.
Proof. done. Qed.

Lemma view_parts_cons f self ctx c p parts total :
  view_parts f self ctx ((c, p) :: parts) total =
    pctx ← eval_ctx self ctx c;
    x ← f p (skip total self) pctx;
    mb_size ← SizeOf p (GetPartAlignment parts 1) (skip total self) SIZE_MAX pctx;
    size ← mb_size;
    xs ← view_parts f self ctx parts (total + size);
    Some (x :: xs).
Proof. done. Qed.

Lemma parts_read_back self0 ctx A parts parts' args :
  Forall (λ p, reads_back p.2) parts → parts_lay lays A parts parts' = true → algn A →
  (∀ c p, (c, p) ∈ parts' → algn (ComputeMaxAlignment p) ∧ ∃ k, readable k p = true) →
  (∀ c p pctx, (c, p) ∈ parts' → eval_ctx self0 ctx c = Some pctx →
     readable (length pctx) p = true ∧ Forall small pctx) →
  parts_ok val_ok self0 ctx parts args →
  ∃ W, 0 ≤ W ∧ PayloadEmplace (S := Z) EmplaceImpl A parts args 0 = Some W ∧
    (W < 2 ^ 62 → ∀ pre old post, Z.of_nat (length old) = W →
      ∃ new xs, length new = length old
        ∧ PayloadEmplace EmplaceImpl A parts args (standing pre (old ++ post))
          = Some (standing (pre ++ new) post)
        ∧ parts_show shows parts args xs
        ∧ ∀ self T max tot, 0 ≤ T → take (length new) (skip T self) = new →
            Z.of_nat (length new) ≤ max < 2 ^ 63 → take (length self0) self = self0 →
            ∃ m, PayloadSize SizeOf self ctx parts' (skip T self) max tot = Some (Some (tot + m))
              ∧ 0 ≤ m ∧ align_up A m = Z.of_nat (length new)
              ∧ view_parts view self ctx parts' T = Some xs).
Proof.
  intros HIH. revert parts' args.
  induction HIH as [|[c p] parts Hp Hps IH]; intros parts' args Hl HA Hal Hctx Hok.
  { destruct parts' as [|]; [|done]. destruct args; [|done]. exists 0. split_and!; [done..|].
    intros _ pre [|] post; [|done]. intros _. exists [], []. split_and!; [done|by rewrite app_nil_r|done|].
    intros self T max tot HT _ Hmax _. exists 0. split_and!; [cbn; do 2 f_equal; lia|done| |done].
    apply align_up_fix; [apply HA|apply Z.divide_0_r]. }
  destruct parts' as [|[c' p'] parts']; [done|]. destruct args as [|v args]; [done|].
  cbn [snd] in Hp. cbn in Hl. apply andb_true_iff in Hl as [[[[[<-%bool_decide_eq_true Halign%Z.eqb_eq]%andb_true_iff
    Hmul%Z.eqb_eq]%andb_true_iff Hlay]%andb_true_iff Hfit]%andb_true_iff Hrest].
  destruct Hok as [(pctx & Hpc & Hv) Hoks].
  destruct (Hctx c p' pctx) as [Hr Hsm]; [left|done|].
  set (a := GetPartAlignment parts' A) in *.
  assert (Ha : algn a).
  { unfold a. destruct parts' as [|[c2 p2] parts']; [done|]. apply (Hal c2). right; left. }
  destruct (Hp p' a pctx v) as (W1 & HW1 & Hc1 & Hs1); [done..|].
  destruct (IH parts' args) as (W2 & HW2 & Hc2 & Hs2); [done|done| | |done|].
  { intros c2 p2 Hin. apply (Hal c2). by right. }
  { intros c2 p2 pctx2 Hin. apply Hctx. by right. }
  assert (Hcount : PayloadEmplace (S := Z) EmplaceImpl A ((c, p) :: parts) (v :: args) 0
                   = Some (W1 + W2)).
  { cbn. rewrite (parts_lay_alignment _ A _ _ Hrest). fold a. rewrite Hc1.
    cbn [mbind option_bind]. rewrite PayloadEmplace_shift.
    - cbn in Hc2. rewrite Hc2. done.
    - apply Forall_forall. intros q _ B u o. apply EmplaceImpl_shift. }
  exists (W1 + W2). split_and!; [lia|done|]. intros Hb pre old post Hold.
  set (old1 := take (Z.to_nat W1) old). set (old2 := drop (Z.to_nat W1) old).
  assert (Hl1 : Z.of_nat (length old1) = W1) by (unfold old1; rewrite length_take; lia).
  assert (Hl2 : Z.of_nat (length old2) = W2) by (unfold old2; rewrite length_drop; lia).
  assert (Hsplit : old = old1 ++ old2) by (symmetry; apply take_drop).
  destruct (Hs1 ltac:(lia) pre old1 (old2 ++ post) Hl1) as (new1 & x & Hn1 & He1 & Hsh1 & Hread1).
  destruct (Hs2 ltac:(lia) (pre ++ new1) old2 post Hl2) as (new2 & xs & Hn2 & He2 & Hsh2 & Hread2).
  exists (new1 ++ new2), (x :: xs). split_and!.
  - rewrite Hsplit, !length_app. lia.
  - cbn. rewrite (parts_lay_alignment _ A _ _ Hrest). fold a.
    rewrite Hsplit, <-app_assoc, He1. cbn [mbind option_bind]. cbn in He2. rewrite He2.
    by rewrite app_assoc.
  - cbn. split; done.
  - intros self T max tot HT Ht Hmax Hself. apply split_memory in Ht as [Ht1 Ht2].
    rewrite skip_skip in Ht2 by lia. rewrite length_app in Hmax |- *.
    destruct (Hread1 (skip T self) max Ht1 ltac:(lia)) as [Hsz1 Hview1].
    destruct (SizeOf_post1 p' a _ _ _ _ Hsz1) as (n1 & Hn1' & Hal1 & Hr1); [done|done|done|lia|done|].
    assert (Htrust : ∀ B n, SizeOf p' B (skip T self) max pctx = Some (Some n) → algn B →
      SizeOf p' B (skip T self) SIZE_MAX pctx = Some (Some n)).
    { intros B n Hs HB. pose proof (SizeOf_range _ _ _ _ _ _ Hs).
      eapply (SizeOf_local _ p' (skip T self) (Nat.lt_succ_diag_r _));
        [done|done|done|lia|done|unfold SIZE_MAX; lia]. }
    pose proof (eval_ctx_prefix self0 self ctx c pctx Hself Hpc) as Hpc'.
    pose proof (po2_pos _ (proj1 HA)) as HApos.
    destruct parts' as [|[c2 p2] parts'].
    + destruct parts as [|[c3 p3] parts]; [|done]. destruct args as [|]; [|done]. injection Hc2 as <-.
      destruct xs; [|done]. exists n1. cbn. rewrite Hpc'. cbn [mbind option_bind].
      rewrite Hn1'. cbn [mbind option_bind]. change a with A in Hal1. split_and!; [done|lia|lia|].
      rewrite Hview1. cbn [mbind option_bind]. rewrite (Htrust 1 n1 Hn1' algn_1). done.
    + assert (Hda : (A | Z.of_nat (length new1))).
      { apply (Z.divide_trans _ a); [apply Z.mod_divide; [lia|done]|].
        rewrite <-Hal1. apply align_up_div, Ha. }
      set (l1 := Z.of_nat (length new1)) in *.
      destruct (Hread2 self (T + l1) (max - l1) (tot + l1)) as (m2 & Hm2 & Hm2p & Hm2a & Hv2);
        [lia|done|lia|done|].
      exists (l1 + m2). split_and!.
      * rewrite PayloadSize_cons, Hpc'. cbn [mbind option_bind].
        change (GetPartAlignment ((c2, p2) :: parts') 1) with a. rewrite Hsz1.
        cbn [mbind option_bind]. rewrite skip_skip by lia. rewrite Hm2. do 2 f_equal. lia.
      * lia.
      * rewrite align_up_shift; [lia|apply HA|done].
      * rewrite view_parts_cons, Hpc'. cbn [mbind option_bind]. rewrite Hview1.
        cbn [mbind option_bind]. change (GetPartAlignment ((c2, p2) :: parts') 1) with a.
        rewrite (Htrust a l1 Hsz1 Ha). cbn [mbind option_bind]. rewrite Hv2. done.
Qed.

Lemma struct_reads_back size align parts :
  Forall (λ p, reads_back p.2) parts → reads_back (Struct size align parts).
Proof.
  intros IH r A ctx v Hl Hr HA Hsm Hv.
  destruct r as [| | | |size' align' parts'| |]; try done. cbn in Hl.
  apply andb_true_iff in Hl as [<-%Z.eqb_eq Hl].
  destruct v as [| | | |bytes args| |]; try done. destruct Hv as [Hlen Hok].
  pose proof (self_size_ge _ _ _ Hr HA) as Hself. cbn [sizeof] in Hself.
  pose proof (payload_alignment_algn _ _ _ Hr HA) as Hpa.
  assert (HS : self_size (Struct size align parts) A = self_size (Struct size align' parts') A).
  { unfold self_size. cbn [sizeof GetPayloadAlignment].
    by rewrite (parts_lay_alignment _ 1 _ _ Hl). }
  assert (Hctx : ∀ c p pctx, (c, p) ∈ parts' → eval_ctx bytes ctx c = Some pctx →
    readable (length pctx) p = true ∧ Forall small pctx).
  { intros c p pctx Hin Hc. split; [|by eapply eval_ctx_small].
    eapply (eval_ctx_local _ _ _ _ _ bytes bytes _ size); [done..|]. exact Hc. }
  destruct (parts_read_back bytes ctx A parts parts' args) as (W & HW & Hcount & Hparts);
    [done|done|done|by intros; eapply part_alignment|done|done|].
  set (S := self_size (Struct size align' parts') A) in *.
  exists (S + W). split; [lia|]. split.
  { cbn [EmplaceImpl]. rewrite EmplaceSelf_counting. cbn [mbind option_bind].
    rewrite PayloadEmplace_shift, Hcount, HS; [done|].
    apply Forall_forall. intros q _ B u o. apply EmplaceImpl_shift. }
  intros Hb pre old post Hold.
  set (old1 := take (Z.to_nat S) old). set (old2 := drop (Z.to_nat S) old).
  assert (Hl1 : Z.of_nat (length old1) = S) by (unfold old1; rewrite length_take; lia).
  assert (Hl2 : Z.of_nat (length old2) = W) by (unfold old2; rewrite length_drop; lia).
  assert (Hsplit : old = old1 ++ old2) by (symmetry; apply take_drop).
  destruct (EmplaceSelf_standing (Struct size align parts) A bytes pre old1 (old2 ++ post))
    as (snew & He1 & Hsn & Htk).
  { cbn [GetPayloadAlignment]. by rewrite (parts_lay_alignment _ 1 _ _ Hl). }
  { done. }
  { by rewrite HS. }
  destruct (Hparts ltac:(lia) (pre ++ snew) old2 post Hl2) as (pnew & xs & Hpn & He2 & Hsh & Hread).
  exists (snew ++ pnew), (TStruct bytes xs). split_and!.
  - rewrite Hsplit, !length_app. lia.
  - cbn [EmplaceImpl]. rewrite Hsplit, <-app_assoc, He1. cbn [mbind option_bind].
    rewrite He2. by rewrite app_assoc.
  - done.
  - intros mem max Ht Hmax. pose proof Ht as Ht0. apply split_memory in Ht as [Ht1 Ht2].
    rewrite length_app in Hmax |- *.
    assert (Hsl : Z.of_nat (length snew) = S) by lia. rewrite Hsl in Ht2.
    assert (Htb : take (length bytes) mem = bytes).
    { rewrite (take_of_prefix mem snew); [done|done|lia]. }
    destruct (Hread mem S (max - S) 0) as (m & Hps & Hm & Hma & Hvp); [lia|done|lia|done|].
    split.
    + rewrite (SizeOf_intro _ A mem max ctx m); [|done| |done|lia|done|fold S; lia].
      * fold S. do 2 f_equal. lia.
      * fold S. cbn [SizeOfPayload]. rewrite (self_size_payload _ 1 A) by done. fold S. by rewrite Hps.
    + rewrite view_eq. unfold read_bytes. rewrite <-Hlen, Nat2Z.id, Htb, Z.eqb_refl, Hlen.
      cbn [check mbind option_bind]. rewrite (self_size_payload _ 1 A) by done. fold S.
      by rewrite Hvp.
Qed.

(** A formatted string is emplaced like a string. *)
Definition String_ty : ty := Struct 4 4 [(Field 0 32, DependentArray 1)].

Lemma StringFormat_String {S} `{OutputStream S} A bytes (s : S) :
  EmplaceImpl StringFormat A (VBytes bytes) s
  = EmplaceImpl String_ty A (VStruct (le_bytes 4 (Z.of_nat (length bytes))) [VBytes bytes]) s.
Proof.
  cbn -[EmplaceSelf le_bytes]. 
  change (EmplaceSelf (S := S) (Struct 4 4 [(Field 0 32, DependentArray 1)]))
    with (EmplaceSelf (S := S) StringFormat).
  destruct (EmplaceSelf StringFormat A _ s) as [s'|]; [|done]. cbn.
  by destruct (AllocateAligned _ _ _ _ s').
Qed.

Lemma format_reads_back : reads_back StringFormat.
Proof.
  intros r A ctx v Hl Hr HA Hsm Hv. destruct v as [| |bytes| | | |]; try done. cbn in Hv.
  assert (r = String_ty) as ->.
  { destruct r as [| | | |size align [|[[|o b|] [|item| | | | |]] [|]]| |]; try done. cbn in Hl.
    bool_to_prop. unfold String_ty. congruence. }
  set (len := Z.of_nat (length bytes)) in *.
  destruct (struct_reads_back 4 4 [(Field 0 32, DependentArray 1)]
              ltac:(repeat constructor; apply array_reads_back)
              String_ty A ctx (VStruct (le_bytes 4 len) [VBytes bytes]))
    as (W & HW & Hc & Hread); [..|done|done|done| |].
  { unfold String_ty. cbn. rewrite Z.mod_same; [done|].
    pose proof (po2_pos _ (proj1 HA)). lia. }
  { split; [by rewrite length_le_bytes|]. split; [|done]. exists [len].
    split; [|exists len; split; [done|unfold len; lia]].
    cbn [eval_ctx]. unfold read_word. rewrite drop_0, take_ge by (rewrite length_le_bytes; lia).
    rewrite length_le_bytes. cbn [Nat.eqb check mbind option_bind]. do 2 f_equal.
    rewrite le_z_word by done. by apply wrap_small. }
  exists W. split; [done|]. split; [by rewrite StringFormat_String|].
  intros Hb pre old post Hold.
  destruct (Hread Hb pre old post Hold) as (new & x & Hn & He & Hsh & Hr').
  exists new, x. split_and!; [done|by rewrite StringFormat_String| |done].
  cbn in Hsh |- *. destruct x as [| | |b' [|[|b''| | |] [|]]|]; cbn in Hsh; naive_solver.
Qed.

Lemma algn_cases a : algn a → a ∈ [1; 2; 4; 8; 16].
Proof.
  intros [(k & Hk & ->) Hle]. assert (k ≤ 4).
  { destruct (Z.le_gt_cases k 4); [done|].
    pose proof (Z.pow_lt_mono_r 2 4 k ltac:(lia) ltac:(lia) ltac:(lia)). lia. }
  assert (k = 0 ∨ k = 1 ∨ k = 2 ∨ k = 3 ∨ k = 4) as [->|[->|[->|[->| ->]]]] by lia;
    apply list_elem_of_In; cbn; tauto.
Qed.

(** The discriminant of an option is padded up to where [As] finds the option. *)
Lemma option_self_size d o A :
  algn (ComputeMaxAlignment o) → self_size (Option d o) A = sizeof_variant + misalignment o.
Proof.
  intros Ha%algn_cases. unfold self_size, misalignment. cbn [sizeof GetPayloadAlignment].
  set (a := ComputeMaxAlignment o) in *. apply list_elem_of_In in Ha. cbn in Ha.
  destruct Ha as [<-|[<-|[<-|[<-|[<-|[]]]]]]; done.
Qed.

Lemma discriminant_word d mem :
  small d → take 4 mem = le_bytes 4 d → read_word mem 0 = Some d.
Proof.
  intros Hd Ht. unfold read_word. rewrite drop_0, Ht, length_le_bytes.
  cbn [Nat.eqb check mbind option_bind]. by rewrite le_z_word.
Qed.

Lemma variant_read name d o A mem max ctx n1 x :
  algn A → small d → take 4 mem = le_bytes 4 d →
  find_option (variant_options name) d = Some o →
  SizeOf o 1 (skip (sizeof_variant + misalignment o) mem)
    (max - sizeof_variant - misalignment o) [] = Some (Some n1) →
  view o (skip (sizeof_variant + misalignment o) mem) [] = Some x → 0 ≤ n1 →
  sizeof_variant + align_up A (misalignment o + n1) ≤ max < 2 ^ 63 →
  SizeOf (Variant name) A mem max ctx
    = Some (Some (sizeof_variant + align_up A (misalignment o + n1)))
  ∧ view (Variant name) mem ctx = Some (TVariant d (Some x)).
Proof.
  intros HA Hd Ht Ho Hs Hv Hn1 Hmax. pose proof (discriminant_word d mem Hd Ht) as Hw.
  pose proof (misalignment_nonneg o).
  pose proof (align_up_bounds A (misalignment o + n1) (proj1 HA)). split.
  - rewrite (SizeOf_intro (Variant name) A mem max ctx (misalignment o + n1)); try done; try lia.
    cbn [SizeOfPayload]. rewrite Hw. cbn [mbind option_bind]. rewrite Ho.
    change (self_size (Variant name) A) with sizeof_variant.
    destruct (Z.ltb_spec (max - sizeof_variant) (misalignment o)); [lia|]. rewrite Hs. done.
  - rewrite view_eq, Hw. unfold Visit, As. rewrite Hw. cbn [mbind option_bind].
    rewrite Ho, Z.eqb_refl. cbn [mbind option_bind option_map].
    replace (Z.max (ComputeMaxAlignment o) sizeof_variant) with (sizeof_variant + misalignment o)
      by (unfold misalignment; destruct (Z.leb_spec (ComputeMaxAlignment o) sizeof_variant); lia).
    by rewrite Hv.
Qed.

Lemma option_reads_back d o : reads_back o → reads_back (Option d o).
Proof.
  intros IH r A ctx v Hl Hr HA Hsm Hv. destruct r as [| | | | |name|]; try done. cbn in Hl.
  destruct (find_option _ d) as [o'|] eqn:Ho; [|done].
  apply andb_true_iff in Hl as [[[[[Hd0%Z.leb_le Hd%Z.ltb_lt]%andb_true_iff Hl]%andb_true_iff
    Hf]%andb_true_iff Hal%Z.eqb_eq]%andb_true_iff Hmis%Z.eqb_eq].
  destruct v as [| | | | |v|]; try done. cbn in Hv.
  pose proof (find_option_readable _ _ _ Ho) as Hro.
  destruct (IH o' A [] v) as (W & HW & Hc & Hread); [done..|].
  pose proof (misalignment_nonneg o'). pose proof (po2_pos _ (proj1 HA)).
  assert (HS : self_size (Option d o) A = sizeof_variant + misalignment o').
  { rewrite option_self_size; [unfold misalignment; by rewrite Hal|].
    rewrite Hal. by eapply alignment_algn. }
  set (S := sizeof_variant + misalignment o') in *.
  assert (4 ≤ S) by (unfold S, sizeof_variant; lia).
  exists (S + W). split; [lia|]. split.
  { cbn [EmplaceImpl]. rewrite EmplaceSelf_counting, HS. cbn [mbind option_bind].
    rewrite EmplaceImpl_shift, Hc. done. }
  intros Hb pre old post Hold.
  set (old1 := take (Z.to_nat S) old). set (old2 := drop (Z.to_nat S) old).
  assert (Hl1 : Z.of_nat (length old1) = S) by (unfold old1; rewrite length_take; lia).
  assert (Hl2 : Z.of_nat (length old2) = W) by (unfold old2; rewrite length_drop; lia).
  assert (Hsplit : old = old1 ++ old2) by (symmetry; apply take_drop).
  destruct (EmplaceSelf_standing (Option d o) A (le_bytes 4 d) pre old1 (old2 ++ post))
    as (snew & He1 & Hsn & Htk);
    [cbn [GetPayloadAlignment]; rewrite Hal; by eapply alignment_algn|by rewrite length_le_bytes
    |by rewrite HS|].
  destruct (Hread ltac:(lia) (pre ++ snew) old2 post Hl2) as (pnew & x & Hpn & He2 & Hsh & Hr2).
  exists (snew ++ pnew), (TVariant d (Some x)). split_and!.
  - rewrite Hsplit, !length_app. lia.
  - cbn [EmplaceImpl]. rewrite Hsplit, <-app_assoc, He1. cbn [mbind option_bind].
    rewrite He2. by rewrite app_assoc.
  - done.
  - intros mem max Ht Hmax. apply split_memory in Ht as [Ht1 Ht2].
    rewrite length_app in Hmax |- *.
    assert (Hsl : Z.of_nat (length snew) = S) by lia. rewrite Hsl in Ht2.
    rewrite length_le_bytes in Htk.
    destruct (Hr2 (skip S mem) (max - S) Ht2 ltac:(lia)) as [Hsz Hview].
    destruct (SizeOf_post1 o' A _ _ _ _ Hsz) as (n1 & Hn1 & Hal1 & Hrange); [done|done|done|lia|done|].
    assert (Hshift : align_up A (misalignment o' + n1) = misalignment o' + align_up A n1).
    { apply align_up_shift; [apply HA|]. apply Z.mod_divide; [lia|done]. }
    destruct (variant_read name d o' A mem max ctx n1 x) as [-> ->]; try done.
    + rewrite (take_of_prefix mem snew); [done|done|lia].
    + fold S. replace (max - sizeof_variant - misalignment o') with (max - S) by lia. done.
    + lia.
    + rewrite Hshift. lia.
    + split; [|done]. rewrite Hshift. do 2 f_equal. lia.
Qed.

Lemma copy_reads_back name : reads_back (Variant name).
Proof.
  intros r A ctx v Hl Hr HA Hsm Hv. destruct r as [| | | | |name'|]; try done. cbn in Hl.
  apply Nat.eqb_eq in Hl as <-. destruct v as [| | | | | |src_name src]; try done.
  destruct Hv as (d & o & max0 & n & Hw & Hd & Ho' & Ho & Hs & Hmax0 & Hlen).
  pose proof (find_option_readable _ _ _ Ho) as Hro.
  pose proof (misalignment_nonneg o) as Hm0. pose proof (po2_pos _ (proj1 HA)).
  set (m := misalignment o) in *. set (off := sizeof_variant + m) in *.
  pose proof (SizeOf_range _ _ _ _ _ _ Hs) as Hn. pose proof (self_size_ge _ _ _ Hro algn_1) as Hse.
  assert (Hvisit : Visit src_name src = Some (Some (d, o, off))).
  { unfold Visit, As. rewrite Hw. cbn [mbind option_bind]. rewrite Ho', Z.eqb_refl.
    cbn [mbind option_bind option_map]. do 3 f_equal. unfold off, m, misalignment.
    destruct (Z.leb_spec (ComputeMaxAlignment o) sizeof_variant); lia. }
  assert (Htrust : SizeOfTrusted o (skip off src) [] = Some n).
  { unfold SizeOfTrusted. erewrite (SizeOf_local _ o (skip off src) (Nat.lt_succ_diag_r _));
      [done|done|done|apply algn_1|lia|done|unfold SIZE_MAX; lia]. }
  destruct (SizeOf_view _ o (skip off src) (Nat.lt_succ_diag_r _) 1 max0 [] n) as [x Hx];
    [done|done|apply algn_1|done|lia|rewrite length_skip; unfold off, sizeof_variant in *; lia|].
  pose proof (align_up_bounds A (m + n) (proj1 HA)) as Hb.
  exists (4 + align_up A (m + n)). split; [lia|]. split.
  { cbn [EmplaceImpl]. rewrite Hw. cbn [mbind option_bind]. rewrite EmplaceSelf_counting.
    cbn [mbind option_bind]. unfold EmplaceCopy. rewrite Hvisit. cbn [mbind option_bind].
    rewrite Htrust. done. }
  intros Hlt pre old post Hold.
  set (old1 := take 4 old). set (old2 := drop 4 old).
  assert (Hl1 : length old1 = 4%nat) by (unfold old1; rewrite length_take; lia).
  assert (Hl2 : Z.of_nat (length old2) = align_up A (m + n)) by (unfold old2; rewrite length_drop; lia).
  assert (Hsplit : old = old1 ++ old2) by (symmetry; apply take_drop).
  destruct (EmplaceSelf_standing (Variant name) A (le_bytes 4 d) pre old1 (old2 ++ post))
    as (snew & He1 & Hsn & Htk);
    [apply algn_1|by rewrite length_le_bytes|rewrite Hl1; done|].
  set (data := take (Z.to_nat m) old2 ++ take (Z.to_nat n) (skip off src)).
  assert (Hld : Z.of_nat (length data) = m + n).
  { unfold data. rewrite length_app, !length_take, length_skip.
    unfold off, sizeof_variant in *. lia. }
  set (pnew := data ++ drop (Z.to_nat (m + n)) old2).
  assert (Hlp : length pnew = length old2) by (unfold pnew; rewrite length_app, length_drop; lia).
  exists (snew ++ pnew), (TVariant d (Some x)). split_and!.
  - rewrite Hsplit, !length_app. lia.
  - cbn [EmplaceImpl]. rewrite Hw. cbn [mbind option_bind].
    rewrite Hsplit, <-app_assoc, He1. cbn [mbind option_bind]. unfold EmplaceCopy.
    rewrite Hvisit. cbn [mbind option_bind]. rewrite Htrust. cbn [mbind option_bind]. fold m.
    erewrite AllocateAligned_standing; [|done|lia| |exact Hld].
    + fold pnew. by rewrite app_assoc.
    + cbn beta. unfold data. rewrite take_take, Nat.min_l by lia. done.
  - cbn [shows]. rewrite view_eq, Hw, Hvisit. cbn [mbind option_bind]. by rewrite Hx.
  - intros mem max Ht Hmax. apply split_memory in Ht as [Ht1 Ht2].
    rewrite length_app in Hmax |- *. rewrite Hsn, Hl1 in Ht2. change (Z.of_nat 4) with 4 in Ht2.
    rewrite length_le_bytes in Htk.
    assert (Hpay : take (Z.to_nat n) (skip off mem) = take (Z.to_nat n) (skip off src)).
    { unfold off. rewrite <-skip_skip by (unfold sizeof_variant; lia). unfold skip at 1.
      rewrite take_drop_commute.
      change sizeof_variant with 4. rewrite (take_of_prefix (skip 4 mem) pnew) by (done || lia).
      unfold pnew. rewrite take_app_le by lia. rewrite take_ge by lia.
      unfold data. rewrite drop_app_length' by (rewrite length_take; lia). done. }
    destruct (variant_read name d o A mem max ctx n x) as [-> ->]; try done; try lia.
    + rewrite (take_of_prefix mem snew); [done|done|lia].
    + fold m off. eapply (SizeOf_local _ o (skip off src) (Nat.lt_succ_diag_r _));
        [done|done|apply algn_1|lia|done|]. fold m. unfold sizeof_variant. lia.
    + fold m off. by apply Hx.
    + fold m. unfold sizeof_variant. lia.
    + split; [|done]. fold m. do 2 f_equal. unfold sizeof_variant. lia.
Qed.

Lemma EmplaceImpl_reads_back w : reads_back w.
Proof.
  induction w using ty_ind'; auto using plain_reads_back, array_reads_back, bits_reads_back,
    format_reads_back, struct_reads_back, option_reads_back, copy_reads_back.
Qed.
End reading_back.

Lemma length_view_parts `{Universe} f self ctx parts total xs :
  view_parts f self ctx parts total = Some xs → length xs = length parts.
Proof.
  revert total xs. induction parts as [|[c p] parts IH]; intros total xs Hv; cbn in Hv.
  { by injection Hv as <-. }
  repeat match type of Hv with
  | (?e ≫= _) = _ => let E := fresh in destruct e eqn:E; [|done]; cbn in Hv
  end.
  injection Hv as <-. cbn. f_equal. by eapply IH.
Qed.

(** [Get] finds the parts where a reader sees them. *)
Lemma GetLoop_view `{Universe} n parts self total ctx xs x :
  view_parts view self ctx parts total = Some xs → xs !! n = Some x →
  ∃ off c p pctx, GetLoop n parts self total ctx = Some (off, p) ∧ parts !! n = Some (c, p)
    ∧ eval_ctx self ctx c = Some pctx ∧ view p (skip off self) pctx = Some x.
Proof.
  revert n total xs. induction parts as [|[c p] parts IH]; intros n total xs Hv Hn.
  { cbn in Hv. injection Hv as <-. done. }
  cbn in Hv. destruct (eval_ctx self ctx c) as [pctx|] eqn:Hc; [|done]. cbn in Hv.
  destruct (view p (skip total self) pctx) as [y|] eqn:Hy; [|done]. cbn in Hv.
  destruct (SizeOf _ _ _ _ _) as [[size|]|] eqn:Hs; [|done..]. cbn in Hv.
  destruct (view_parts view self ctx parts (total + size)) as [ys|] eqn:Hys; [|done].
  cbn in Hv. injection Hv as <-. destruct n as [|n]; cbn in Hn |- *.
  - injection Hn as ->. by exists total, c, p, pctx.
  - rewrite Hc. cbn [mbind option_bind]. rewrite Hs. cbn [mbind option_bind]. by eapply IH.
Qed.

(** ** The two promises of the library *)

(** C7: measuring memory that nobody vouches for is safe.  Whatever bytes there
    are, [SizeOf] of a type that the compiler accepts returns, reads nothing
    outside of the memory it is allowed to, and answers with a size that fits into
    it or with [nullopt].  After an answer, everything that a client can reach in
    the object (fields, parts, options) lies in the measured bytes, and does not
    depend on what follows them. *)
Theorem SizeOf_untrusted `{U : Universe} `{!ReadableUniverse} (t : ty) (A : Z) (mem : list Z)
    (max : Z) (ctx : list Z)
    (Ht : readable (length ctx) t = true) (HA : is_alignment A = true) (Hctx : Forall small ctx)
    (Hmax : 0 ≤ max ≤ Z.of_nat (length mem)) (Hspace : max < 2 ^ 63) :
  ∃ r, SizeOf t A mem max ctx = Some r ∧
    ∀ n, r = Some n → 0 ≤ n ≤ max ∧
      ∃ x, ∀ mem', take (Z.to_nat n) mem' = take (Z.to_nat n) mem →
        view t mem' ctx = Some x ∧ SizeOf t A mem' n ctx = Some (Some n).
Proof.
  apply is_alignment_algn in HA. pose proof (Nat.lt_succ_diag_r (length mem)) as Hk.
  destruct (SizeOf_safe _ t mem Hk A max ctx Ht HA Hmax) as (r & Hr & Hn).
  exists r. split; [done|]. intros n ->. specialize (Hn n eq_refl). split; [done|].
  destruct (SizeOf_view _ t mem Hk A max ctx n Hr Ht HA Hctx) as [x Hx]; [lia..|].
  exists x. intros mem' Hp. split; [by apply Hx|].
  by apply (SizeOf_local _ t mem Hk A max ctx n mem' n Hr Ht HA).
Qed.

(** C8: what is emplaced is read back.  The counting pass gives the number of
    bytes; the pass over memory of that size ends at its end, and touches nothing
    else; the object written as [w] is then measured as [r] with exactly that size,
    in any memory that begins with it, and shows the arguments it was constructed
    from.  The hypothesis [lays] on the two types and the alignment of the stream
    is decidable. *)
Theorem emplaced_is_read `{ShiftUB} `{U : Universe} `{!ReadableUniverse} (w r : ty) (A : Z)
    (ctx : list Z) (v : val)
    (Hlays : lays A w r = true) (Hr : readable (length ctx) r = true)
    (HA : is_alignment A = true) (Hctx : Forall small ctx) (Hv : val_ok w ctx v) :
  ∃ size, EmplaceImpl (S := Z) w A v 0 = Some size ∧
    ∀ before old after, Z.of_nat (length old) = size → size < 2 ^ 62 →
      ∃ new x, length new = length old ∧ shows w v x
        ∧ EmplaceImpl w A v (mkContiguous (before ++ old ++ after) (Z.of_nat (length before)))
          = Some (mkContiguous (before ++ new ++ after) (Z.of_nat (length before) + size))
        ∧ ∀ mem max, take (length new) mem = new → size ≤ max < 2 ^ 63 →
            SizeOf r A mem max ctx = Some (Some size) ∧ view r mem ctx = Some x.
Proof.
  destruct (EmplaceImpl_reads_back w r A ctx v Hlays Hr (is_alignment_algn A HA) Hctx Hv)
    as (W & HW & Hc & Hread).
  exists W. split; [done|]. intros before old after Hold Hlt.
  destruct (Hread Hlt before old after Hold) as (new & x & Hl & He & Hs & Hra).
  exists new, x. split_and!; [done|done| |].
  - unfold standing in He. rewrite He, <-app_assoc, length_app, Nat2Z.inj_add, Hl, Hold. done.
  - intros mem max Hm Hb. rewrite <-Hl in Hold. unfold read_as in Hra. rewrite Hold in Hra.
    by apply Hra.
Qed.
