(* ===== verification/ActionLayout.v ===== *)
(** * ActionLayout: how actions, their results and errors lie in memory
    ([src/src/libedr/driver/*Action.hpp], [CommonActions.hpp], [Error.hpp]).

    The structures of the library as types of [VSS], the arguments that an action
    is added with, and the action that a visitor finds.  The theorems say that
    every action of every driver is found as it was added, and which causes of
    failures are found. *)
From S2P Require Import Prelude BitStream Actions VSS.
Local Open Scope Z_scope.
Local Open Scope list_scope.

(** ** Types *)

Definition DependentBytes : ty := DependentArray 1.

Definition action_ty (a : ActionID) : ty :=
  match a with
  | WriteBytesID => Struct 4 4 [(Field 0 32, DependentBytes)]
  | PutTMSID | JCWriteDRID | JCShiftDRID => Struct 4 4 [(Field 0 32, DependentBits 4)]
  | PutTDIID | PutTDIGetTDOID => Struct 4 4 [(Field 0 31, DependentBits 4)]
  | APBWriteID | RVWriteDMIID | JCSetIRLengthID | JCGoToStateID => Plain 8 4
  | ReadBytesID | SetExecutionGateModeID | APBReadID | APBSetPSELID | JCSelectTAPID
  | JCWriteIRID | RVReadDMIID | SkipCyclesID => Plain 4 4
  | JCForgetChainStructureID | InvalidActionID => Plain 0 1
  end.

(** [T::Out]; the context is the number of items of the action. *)
Definition out_ty (a : ActionID) : ty :=
  match a with
  | ReadBytesID => Struct 4 4 [(Arg, DependentBytes)]
  | PutTDIGetTDOID | JCShiftDRID => Struct 4 4 [(Arg, DependentBits 4)]
  | WriteBytesID | PutTMSID | PutTDIID | SetExecutionGateModeID | APBReadID | RVReadDMIID =>
      Plain 4 4
  | _ => Plain 0 1
  end.

(** Names of the variants. *)
Definition driver_variant (d : DriverID) : nat :=
  match d with
  | IDByteStream => 0
  | IDJtag => 1
  | IDExecutionGate => 2
  | IDAPB => 3
  | IDJtagChain => 4
  | IDRVDTM => 5
  end.
Definition AnyActionV : nat := 6.
Definition ActionOrUnknownV : nat := 7.
Definition CauseV : nat := 8.
Definition ErrorOrLostV : nat := 9.

(** [ActionError], and the type of the causes as they are read. *)
Definition ActionError_ty : ty :=
  Struct 0 1 [(NoCtx, Variant ActionOrUnknownV); (NoCtx, Variant CauseV)].

Definition named (size align : Z) : ty := Struct size align [(NoCtx, String_ty)].

Definition causes : list (Z * ty) :=
  [(0, Plain 0 1);                                   (* CauseUnsupportedAction *)
   (1, Plain 0 1);                                   (* CauseAllocationFailure *)
   (2, named 0 1);                                   (* CauseStringMessage *)
   (3, Struct 0 1 [(NoCtx, Variant ErrorOrLostV)]);  (* CauseNestedError *)
   (5, named 0 1);                                   (* CauseTerminated *)
   (6, named 8 4);                                   (* CauseErrno *)
   (7, named 0 1);                                   (* CauseInvalidArgument *)
   (8, Plain 4 4);                                   (* CauseTimeoutInCycles *)
   (9, Plain 0 1);                                   (* CauseTargetError *)
   (10, Plain 8 4);                                  (* CauseInvalidJtagTapID *)
   (11, Plain 4 4);                                  (* CauseInvalidJtagState *)
   (12, Plain 4 4);                                  (* CauseUnstableJtagState *)
   (13, Plain 8 4);                                  (* CauseIRLengthTooBig *)
   (14, named 4 4);                                  (* CauseFailedToClearErrorFlag *)
   (15, named 4 4);                                  (* CauseInvalidVersion *)
   (16, named 24 8);                                 (* CauseValueOutOfRange *)
   (17, Plain 4 4)].                                 (* CauseMaxLatencyReached *)

Definition options_of (actions : list ActionID) : list (Z * ty) :=
  (λ a, (ActionIDValue a, action_ty a)) <$> actions.

#[export] Instance edr_universe : Universe := λ name,
  match name with
  | 0%nat => options_of (driver_actions IDByteStream)
  | 1%nat => options_of (driver_actions IDJtag)
  | 2%nat => options_of (driver_actions IDExecutionGate)
  | 3%nat => options_of (driver_actions IDAPB)
  | 4%nat => options_of (driver_actions IDJtagChain)
  | 5%nat => options_of (driver_actions IDRVDTM)
  | 6%nat => options_of any_actions
  | 7%nat => [(0, Variant AnyActionV); (1, Plain 4 4)]
  | 8%nat => causes
  | 9%nat => [(0, ActionError_ty); (1, Plain 0 1)]
  | _ => []
  end.

#[export] Instance edr_readable : ReadableUniverse.
Proof.
  intros name. do 10 (destruct name as [|name]; [repeat constructor|]). constructor.
Qed.

(** ** Actions *)

Definition word (z : Z) : list Z := le_bytes 4 z.
#[global] Arguments word : simpl never.

Lemma length_word z : length (word z) = 4%nat.
Proof. apply length_le_bytes. Qed.

(** The constructors of the actions: what [Add<T>(args...)] emplaces.  Bits may
    come from any stream. *)
Definition bits_args (header : Z) (bits : list bool) (v : val) : Prop :=
  ∃ wU src s, BitStream.wf wU src s ∧ contents wU src s = bits
    ∧ v = VStruct (word header) [VBits wU src s].

Definition num_bits (bits : list bool) : Z := Z.of_nat (length bits).

Definition action_id (a : AnyAction) : ActionID :=
  match a with
  | AnyByteStream (WriteBytes _) => WriteBytesID
  | AnyByteStream (ReadBytes _) => ReadBytesID
  | AnyJtag (PutTMS _) => PutTMSID
  | AnyJtag (PutTDI _ _) => PutTDIID
  | AnyJtag (PutTDIGetTDO _ _) => PutTDIGetTDOID
  | AnyExecutionGate (SetExecutionGateMode _) => SetExecutionGateModeID
  | AnyAPB (APBSkipCycles _) | AnyRVDTM (RVSkipCycles _) => SkipCyclesID
  | AnyAPB (APBWrite _ _) => APBWriteID
  | AnyAPB (APBRead _) => APBReadID
  | AnyAPB (APBSetPSEL _) => APBSetPSELID
  | AnyJtagChain JCForgetChainStructure => JCForgetChainStructureID
  | AnyJtagChain (JCSetIRLength _ _) => JCSetIRLengthID
  | AnyJtagChain (JCGoToState _ _) => JCGoToStateID
  | AnyJtagChain (JCSelectTAP _) => JCSelectTAPID
  | AnyJtagChain (JCWriteIR _) => JCWriteIRID
  | AnyJtagChain (JCWriteDR _) => JCWriteDRID
  | AnyJtagChain (JCShiftDR _) => JCShiftDRID
  | AnyRVDTM (RVWriteDMI _ _) => RVWriteDMIID
  | AnyRVDTM (RVReadDMI _) => RVReadDMIID
  end.

Definition action_driver (a : AnyAction) : DriverID :=
  match a with
  | AnyByteStream _ => IDByteStream
  | AnyJtag _ => IDJtag
  | AnyExecutionGate _ => IDExecutionGate
  | AnyAPB _ => IDAPB
  | AnyJtagChain _ => IDJtagChain
  | AnyRVDTM _ => IDRVDTM
  end.

Definition action_args (a : AnyAction) (v : val) : Prop :=
  match a with
  | AnyByteStream (WriteBytes data) =>
      v = VStruct (word (Z.of_nat (length data))) [VBytes data]
  | AnyByteStream (ReadBytes size) => v = VPlain (word (Z.of_nat size))
  | AnyJtag (PutTMS bits) | AnyJtagChain (JCWriteDR bits) | AnyJtagChain (JCShiftDR bits) =>
      bits_args (num_bits bits) bits v
  | AnyJtag (PutTDI bits last_tms) | AnyJtag (PutTDIGetTDO bits last_tms) =>
      bits_args (wrap 31 (num_bits bits) + 2 ^ 31 * Z.b2z last_tms) bits v
  | AnyExecutionGate (SetExecutionGateMode mode) => v = VPlain (word mode)
  | AnyAPB (APBSkipCycles n) | AnyRVDTM (RVSkipCycles n) => v = VPlain (word n)
  | AnyAPB (APBWrite address data) | AnyRVDTM (RVWriteDMI address data) =>
      v = VPlain (word address ++ word data)
  | AnyAPB (APBRead address) | AnyRVDTM (RVReadDMI address) => v = VPlain (word address)
  | AnyAPB (APBSetPSEL psel) => v = VPlain (word psel)
  | AnyJtagChain JCForgetChainStructure => v = VPlain []
  | AnyJtagChain (JCSetIRLength tap_id len) =>
      v = VPlain (word (Z.of_nat tap_id) ++ word (Z.of_nat len))
  | AnyJtagChain (JCGoToState state cycles) =>
      v = VPlain (word (Z.of_nat state) ++ word (Z.of_nat cycles))
  | AnyJtagChain (JCSelectTAP tap_id) => v = VPlain (word (Z.of_nat tap_id))
  | AnyJtagChain (JCWriteIR value) => v = VPlain (word value)
  end.

(** The fields of an action fit their types. *)
Definition action_fits (a : AnyAction) : Prop :=
  match a with
  | AnyByteStream (WriteBytes data) => small (Z.of_nat (length data))
  | AnyByteStream (ReadBytes size) => small (Z.of_nat size)
  | AnyJtag (PutTMS bits) | AnyJtagChain (JCWriteDR bits) | AnyJtagChain (JCShiftDR bits) =>
      small (num_bits bits)
  | AnyJtag (PutTDI bits _) | AnyJtag (PutTDIGetTDO bits _) => num_bits bits < 2 ^ 31
  | AnyExecutionGate (SetExecutionGateMode x) | AnyAPB (APBSkipCycles x)
  | AnyRVDTM (RVSkipCycles x) | AnyAPB (APBRead x) | AnyRVDTM (RVReadDMI x)
  | AnyAPB (APBSetPSEL x) | AnyJtagChain (JCWriteIR x) => small x
  | AnyAPB (APBWrite x y) | AnyRVDTM (RVWriteDMI x y) => small x ∧ small y
  | AnyJtagChain JCForgetChainStructure => True
  | AnyJtagChain (JCSetIRLength x y) | AnyJtagChain (JCGoToState x y) =>
      small (Z.of_nat x) ∧ small (Z.of_nat y)
  | AnyJtagChain (JCSelectTAP x) => small (Z.of_nat x)
  end.

(** What a visitor makes of the option it is called with. *)
Definition word_at (bytes : list Z) (offset : nat) : Z := le_z (take 4 (drop offset bytes)).

Definition decode_action (d : DriverID) (id : ActionID) (x : tree) : option AnyAction :=
  match d, id, x with
  | IDByteStream, WriteBytesID, TStruct _ [TArray data] => Some (AnyByteStream (WriteBytes data))
  | IDByteStream, ReadBytesID, TPlain b =>
      Some (AnyByteStream (ReadBytes (Z.to_nat (word_at b 0))))
  | IDJtag, PutTMSID, TStruct _ [TBits bits] => Some (AnyJtag (PutTMS bits))
  | IDJtag, PutTDIID, TStruct h [TBits bits] =>
      Some (AnyJtag (PutTDI bits (Z.testbit (word_at h 0) 31)))
  | IDJtag, PutTDIGetTDOID, TStruct h [TBits bits] =>
      Some (AnyJtag (PutTDIGetTDO bits (Z.testbit (word_at h 0) 31)))
  | IDExecutionGate, SetExecutionGateModeID, TPlain b =>
      Some (AnyExecutionGate (SetExecutionGateMode (word_at b 0)))
  | IDAPB, SkipCyclesID, TPlain b => Some (AnyAPB (APBSkipCycles (word_at b 0)))
  | IDAPB, APBWriteID, TPlain b => Some (AnyAPB (APBWrite (word_at b 0) (word_at b 4)))
  | IDAPB, APBReadID, TPlain b => Some (AnyAPB (APBRead (word_at b 0)))
  | IDAPB, APBSetPSELID, TPlain b => Some (AnyAPB (APBSetPSEL (word_at b 0)))
  | IDJtagChain, JCForgetChainStructureID, TPlain _ => Some (AnyJtagChain JCForgetChainStructure)
  | IDJtagChain, JCSetIRLengthID, TPlain b =>
      Some (AnyJtagChain (JCSetIRLength (Z.to_nat (word_at b 0)) (Z.to_nat (word_at b 4))))
  | IDJtagChain, JCGoToStateID, TPlain b =>
      Some (AnyJtagChain (JCGoToState (Z.to_nat (word_at b 0)) (Z.to_nat (word_at b 4))))
  | IDJtagChain, JCSelectTAPID, TPlain b =>
      Some (AnyJtagChain (JCSelectTAP (Z.to_nat (word_at b 0))))
  | IDJtagChain, JCWriteIRID, TPlain b => Some (AnyJtagChain (JCWriteIR (word_at b 0)))
  | IDJtagChain, JCWriteDRID, TStruct _ [TBits bits] => Some (AnyJtagChain (JCWriteDR bits))
  | IDJtagChain, JCShiftDRID, TStruct _ [TBits bits] => Some (AnyJtagChain (JCShiftDR bits))
  | IDRVDTM, RVWriteDMIID, TPlain b => Some (AnyRVDTM (RVWriteDMI (word_at b 0) (word_at b 4)))
  | IDRVDTM, RVReadDMIID, TPlain b => Some (AnyRVDTM (RVReadDMI (word_at b 0)))
  | IDRVDTM, SkipCyclesID, TPlain b => Some (AnyRVDTM (RVSkipCycles (word_at b 0)))
  | _, _, _ => None
  end.

Definition visit_action (d : DriverID) (x : tree) : option AnyAction :=
  match x with
  | TVariant discriminant (Some x) =>
      id ← dispatch (driver_actions d) discriminant; decode_action d id x
  | _ => None
  end.

(** ** Every action is found as it was added *)

Lemma word_at_first a rest : small a → word_at (word a ++ rest) 0 = a.
Proof.
  intros Ha. unfold word_at, word. rewrite drop_0, take_app_length'; [by apply le_z_word|].
  by rewrite length_le_bytes.
Qed.

Lemma word_at_only a : small a → word_at (word a) 0 = a.
Proof. intros Ha. rewrite <-(app_nil_r (word a)). by apply word_at_first. Qed.

Lemma word_at_second a b : small b → word_at (word a ++ word b) 4 = b.
Proof.
  intros Hb. unfold word_at, word. rewrite drop_app_length' by (by rewrite length_le_bytes).
  rewrite take_ge by (rewrite length_le_bytes; lia). by apply le_z_word.
Qed.

Lemma read_word_of a : small a → read_word (word a) 0 = Some a.
Proof.
  intros Ha. apply discriminant_word; [done|]. rewrite take_ge; [done|].
  unfold word. by rewrite length_le_bytes.
Qed.

(** The header of [PutTDI]: 31 bits of length and the last TMS. *)
Lemma tdi_header n (l : bool) : 0 ≤ n < 2 ^ 31 →
  small (wrap 31 n + 2 ^ 31 * Z.b2z l) ∧ wrap 31 (wrap 31 n + 2 ^ 31 * Z.b2z l) = n
  ∧ Z.testbit (wrap 31 n + 2 ^ 31 * Z.b2z l) 31 = l.
Proof.
  intros Hn. rewrite (wrap_small 31 n) by done. unfold small. split_and!.
  - destruct l; cbn; lia.
  - destruct l; cbn; lia.
  - unfold wrap. change (Z.of_nat 31) with 31. rewrite Z.mul_comm, Z.mod_add by lia.
    apply Z.mod_small. lia.
  - rewrite Z.testbit_odd, Z.shiftr_div_pow2 by lia. rewrite Z.mul_comm, Z.div_add by lia.
    rewrite Z.div_small by lia. by destruct l.
Qed.

(** The types of the actions of a driver can be emplaced as options and read as
    the variant of the driver. *)
Lemma action_lays d id :
  id ∈ driver_actions d →
  lays 4 (Option (ActionIDValue id) (action_ty id)) (Variant (driver_variant d)) = true.
Proof.
  intros Hin. destruct d; cbn in Hin;
    repeat (apply elem_of_cons in Hin as [->|Hin]; [reflexivity|]); by apply elem_of_nil in Hin.
Qed.

Lemma action_id_driver a : action_id a ∈ driver_actions (action_driver a).
Proof. by destruct a as [[]|[]|[]|[]|[]|[]]; cbn; set_solver. Qed.

Lemma bits_val_ok header bits v (n : nat) :
  bits_args header bits v → small header → wrap n header = num_bits bits →
  val_ok (Struct 4 4 [(Field 0 n, DependentBits 4)]) [] v
  ∧ ∀ x, shows (Struct 4 4 [(Field 0 n, DependentBits 4)]) v x →
      x = TStruct (word header) [TBits bits].
Proof.
  intros (wU & src & s & Hwf & Hc & ->) Hh Hn. split.
  - split; [done|]. split; [|done]. exists [num_bits bits]. split.
    + cbn [eval_ctx]. rewrite read_word_of by done. cbn. by rewrite Hn.
    + split; [|done]. unfold num_bits. by rewrite <-Hc, length_contents.
  - intros x Hx. destruct x as [| | |b' [|[| |bits'| |] [|]]|]; cbn in Hx; try naive_solver.
Qed.

(** What the action is emplaced from fits its type, and whoever sees that sees
    the action. *)
Lemma action_found a v :
  action_args a v → action_fits a →
  val_ok (action_ty (action_id a)) [] v
  ∧ ∀ x, shows (action_ty (action_id a)) v x →
      decode_action (action_driver a) (action_id a) x = Some a.
Proof.
  intros Ha Hf.
  assert (Hplain : ∀ size align bytes, action_ty (action_id a) = Plain size align →
    v = VPlain bytes → Z.of_nat (length bytes) = size →
    decode_action (action_driver a) (action_id a) (TPlain bytes) = Some a →
    val_ok (action_ty (action_id a)) [] v ∧ ∀ x, shows (action_ty (action_id a)) v x →
      decode_action (action_driver a) (action_id a) x = Some a).
  { intros size align bytes -> -> Hl Hd. split; [done|]. by intros [] Hx; cbn in Hx; subst. }
  assert (Hbits : ∀ header bits n, action_ty (action_id a) = Struct 4 4 [(Field 0 n, DependentBits 4)] →
    bits_args header bits v → small header → wrap n header = num_bits bits →
    decode_action (action_driver a) (action_id a) (TStruct (word header) [TBits bits]) = Some a →
    val_ok (action_ty (action_id a)) [] v ∧ ∀ x, shows (action_ty (action_id a)) v x →
      decode_action (action_driver a) (action_id a) x = Some a).
  { intros header bits n -> Hb Hh Hw Hd. destruct (bits_val_ok header bits v n) as [Hok Hsh]; [done..|].
    split; [done|]. intros x Hx. by rewrite (Hsh x Hx). }
  destruct a as [[data|size]|[bits|bits l|bits l]|[mode]|[n|ad da|ad|ps]|[ |t l|st c|t|x|bits|bits]|
                 [ad da|ad|n]]; cbn in Ha, Hf;
    try (eapply Hplain; [done..|by rewrite ?length_app, ?length_word|];
         cbn [decode_action action_driver action_id];
         rewrite ?word_at_first, ?word_at_second, ?word_at_only by (apply Hf || done);
         by rewrite ?Nat2Z.id);
    try (eapply Hbits; [done..|by apply (wrap_small 32)|done]).
  - subst v. split.
    + split; [done|]. split; [|done]. eexists. split.
      * cbn [eval_ctx]. rewrite read_word_of by done. cbn. by rewrite (wrap_small 32).
      * eexists. split; [done|]. lia.
    + intros x Hx. destruct x as [| | |b' [|[|d'| | |] [|]]|]; cbn in Hx; try naive_solver.
  - destruct (tdi_header (num_bits bits) l) as (Hs & Hw & Ht); [unfold num_bits in *; lia|].
    eapply Hbits; [done..|]. cbn [decode_action action_driver action_id].
    by rewrite word_at_only, Ht.
  - destruct (tdi_header (num_bits bits) l) as (Hs & Hw & Ht); [unfold num_bits in *; lia|].
    eapply Hbits; [done..|]. cbn [decode_action action_driver action_id].
    by rewrite word_at_only, Ht.
Qed.

Lemma dispatch_own d id :
  id ∈ driver_actions d → dispatch (driver_actions d) (ActionIDValue id) = Some id.
Proof.
  intros Hin. destruct d; cbn in Hin;
    repeat (apply elem_of_cons in Hin as [->|Hin]; [reflexivity|]); by apply elem_of_nil in Hin.
Qed.

Lemma driver_options d : variant_options (driver_variant d) = options_of (driver_actions d).
Proof. by destruct d. Qed.

Section stored.
Context `{ShiftUB}.

(** What [Add] emplaces for an action, and where it is read. *)
Definition action_option (a : AnyAction) : ty :=
  Option (ActionIDValue (action_id a)) (action_ty (action_id a)).

Lemma action_stored a v :
  action_args a v → action_fits a →
  ∃ W, 4 ≤ W ∧ EmplaceImpl (S := Z) (action_option a) 4 (VOption v) 0 = Some W ∧
    (W < 2 ^ 62 → ∀ pre old post, Z.of_nat (length old) = W →
      ∃ new t, length new = length old
        ∧ EmplaceImpl (action_option a) 4 (VOption v) (standing pre (old ++ post))
          = Some (standing (pre ++ new) post)
        ∧ shows (action_ty (action_id a)) v t
        ∧ decode_action (action_driver a) (action_id a) t = Some a
        ∧ read_as (Variant (driver_variant (action_driver a))) 4 [] new
            (TVariant (ActionIDValue (action_id a)) (Some t))).
Proof.
  intros Ha Hf. destruct (action_found a v Ha Hf) as [Hok Hfound].
  destruct (EmplaceImpl_reads_back (action_option a) (Variant (driver_variant (action_driver a)))
              4 [] (VOption v)) as (W & HW & Hc & Hread);
    [apply action_lays, action_id_driver|done|apply algn_4|done|done|].
  exists W. split; [|split; [done|]].
  - cbn [EmplaceImpl action_option] in Hc. rewrite EmplaceSelf_counting in Hc.
    cbn [mbind option_bind] in Hc. rewrite EmplaceImpl_shift in Hc.
    assert (Hself : 4 ≤ self_size (action_option a) 4) by (by destruct a as [[]|[]|[]|[]|[]|[]]).
    destruct (EmplaceImpl (action_ty (action_id a)) 4 v 0) as [n|] eqn:Hn; [|done].
    cbn [fmap option_fmap option_map] in Hc. injection Hc as <-.
    assert (Hr : readable 0 (action_ty (action_id a)) = true) by (by destruct a as [[]|[]|[]|[]|[]|[]]).
    destruct (EmplaceImpl_reads_back (action_ty (action_id a)) (action_ty (action_id a)) 4 [] v)
      as (n' & Hn' & Hcn & _); [by destruct a as [[]|[]|[]|[]|[]|[]]|done|apply algn_4|done|done|].
    rewrite Hn in Hcn. injection Hcn as <-. unfold action_option in Hself. lia.
  - intros Hb pre old post Hold. destruct (Hread Hb pre old post Hold) as (new & x & Hl & He & Hs & Hr).
    destruct x as [| | | |d' [t|]]; cbn in Hs; try done. destruct Hs as [-> Hs].
    exists new, t. split_and!; [done|done|done|by apply Hfound|done].
Qed.

(** The number of items that the result of an action has room for. *)
Definition out_items (a : AnyAction) : list Z :=
  match a with
  | AnyByteStream (ReadBytes size) => [Z.of_nat size]
  | AnyJtag (PutTDIGetTDO bits _) | AnyJtagChain (JCShiftDR bits) => [num_bits bits]
  | _ => []
  end.

(** Results are constructed with any bytes in their fields, and room for items. *)
Definition out_args (a : AnyAction) (v : val) : Prop := val_ok (out_ty (action_id a)) (out_items a) v.

Lemma out_items_small a : action_fits a → Forall small (out_items a).
Proof.
  intros Hf. destruct a as [[]|[]|[]|[]|[]|[]]; cbn in *; repeat constructor; try apply Hf.
  - unfold num_bits. lia.
  - unfold small, num_bits in *. lia.
Qed.

Lemma out_stored a v :
  out_args a v → action_fits a →
  ∃ W, 0 ≤ W ∧ EmplaceImpl (S := Z) (out_ty (action_id a)) 4 v 0 = Some W ∧
    (W < 2 ^ 62 → ∀ pre old post, Z.of_nat (length old) = W →
      ∃ new x, length new = length old
        ∧ EmplaceImpl (out_ty (action_id a)) 4 v (standing pre (old ++ post))
          = Some (standing (pre ++ new) post)
        ∧ shows (out_ty (action_id a)) v x
        ∧ read_as (out_ty (action_id a)) 4 (out_items a) new x).
Proof.
  intros Ho Hf. apply EmplaceImpl_reads_back; try done.
  - by destruct a as [[]|[]|[]|[]|[]|[]].
  - by destruct a as [[]|[]|[]|[]|[]|[]].
  - apply algn_4.
  - by apply out_items_small.
Qed.

(** *** Visiting *)

Lemma view_variant name mem d t :
  view (Variant name) mem [] = Some (TVariant d (Some t)) →
  ∃ o offset, Visit name mem = Some (Some (d, o, offset)) ∧ view o (skip offset mem) [] = Some t.
Proof.
  rewrite view_eq. destruct (read_word mem 0) as [w|]; [|done]. cbn [mbind option_bind].
  destruct (Visit name mem) as [[[[d' o] offset]|]|]; [|done..]. cbn [mbind option_bind].
  destruct (view o _ _) as [t'|] eqn:Hv; [|done]. cbn. intros [= -> ->]. eauto.
Qed.

Lemma find_option_dispatch actions d :
  find_option (options_of actions) d = action_ty <$> dispatch actions d.
Proof.
  unfold find_option, options_of, dispatch. induction actions as [|a actions IH]; [done|].
  cbn. destruct (ActionIDValue a =? d); [done|]. exact IH.
Qed.

Lemma view_header t mem x b :
  view t mem [] = Some x → Z.of_nat (length b) = 4 →
  (∃ align, t = Plain 4 align ∧ x = TPlain b)
    ∨ (∃ align parts xs, t = Struct 4 align parts ∧ x = TStruct b xs) →
  read_word mem 0 = Some (le_z b).
Proof.
  intros Hv Hb Ht. assert (Hr : read_bytes 4 mem = Some b).
  { destruct Ht as [(? & -> & ->)|(? & ? & ? & -> & ->)]; rewrite view_eq in Hv;
      destruct (read_bytes 4 mem) as [b'|]; try done; cbn [mbind option_bind fmap option_fmap option_map] in Hv.
    - by injection Hv as ->.
    - destruct (view_parts _ _ _ _ _); [|done]. cbn in Hv. by injection Hv as ->. }
  unfold read_bytes in Hr. change (Z.to_nat 4) with 4%nat in Hr. unfold read_word. rewrite drop_0.
  destruct (Z.eqb_spec (Z.of_nat (length (take 4 mem))) 4); [|done]. cbn in Hr. injection Hr as Hr.
  rewrite Hr, (proj2 (Nat.eqb_eq _ _)) by lia. done.
Qed.
(** *** Bytes that nobody vouches for *)

Lemma view_Plain size align mem ctx x :
  view (Plain size align) mem ctx = Some x → ∃ b, x = TPlain b ∧ b = take (Z.to_nat size) mem.
Proof.
  rewrite view_eq. unfold read_bytes. destruct (_ =? _); [|done]. cbn. intros [= <-]. eauto.
Qed.

Lemma view_part align bits p mem x :
  view (Struct 4 align [(Field 0 bits, p)]) mem [] = Some x →
  ∃ h w y m, x = TStruct h [y] ∧ view p m [wrap bits w] = Some y.
Proof.
  rewrite view_eq. destruct (read_bytes 4 mem) as [h|]; [|done]. cbn [mbind option_bind view_parts eval_ctx].
  destruct (read_word mem 0) as [w|]; [|done]. cbn [mbind option_bind].
  destruct (view p _ _) as [y|] eqn:Hy; [|done]. cbn [mbind option_bind].
  destruct (SizeOf _ _ _ _ _) as [[]|]; [|done..]. cbn. intros [= <-]. by exists h, w, y; eexists.
Qed.

Lemma view_bytes mem n x : view DependentBytes mem [n] = Some x → ∃ data, x = TArray data.
Proof. rewrite view_eq. cbn. destruct (read_bytes _ _); [|done]. cbn. intros [= <-]. eauto. Qed.

Lemma view_bits mem n x : 0 ≤ n →
  view (DependentBits 4) mem [n] = Some x → ∃ l, x = TBits l ∧ Z.of_nat (length l) = n.
Proof.
  intros Hn. rewrite view_eq. unfold read_bits. destruct (read_bytes _ _) as [bytes|]; [|done].
  cbn [mbind option_bind]. destruct (make _ _ _ _) as [stream|] eqn:Hs; [|done].
  cbn [mbind option_bind fmap option_fmap option_map]. intros [= <-]. eexists. split; [done|].
  rewrite length_contents. unfold make in Hs. cbn in Hs. injection Hs as <-. cbn. lia.
Qed.

Lemma word_at_small mem n offset : Forall is_byte mem → small (word_at (take n mem) offset).
Proof.
  intros Hm. unfold word_at, small. set (bytes := take 4 _).
  assert (Hb : Forall is_byte bytes) by (by apply Forall_take, Forall_drop, Forall_take).
  pose proof (le_z_range bytes Hb) as Hr. assert (length bytes ≤ 4)%nat by (unfold bytes; rewrite length_take; lia).
  assert (2 ^ Z.of_nat (8 * length bytes) ≤ 2 ^ 32) by (apply Z.pow_le_mono_r; lia). lia.
Qed.

(** The bytes of an option are an action, with room for its results given by its own
    fields. *)
Lemma action_typed d id mem t :
  id ∈ driver_actions d → Forall is_byte mem → view (action_ty id) mem [] = Some t →
  ∃ a, decode_action d id t = Some a ∧ action_driver a = d ∧ action_id a = id
    ∧ Forall small (out_items a).
Proof.
  intros Hid Hm Hv. pose proof (word_at_small mem 4 0 Hm) as Hs. unfold small in Hs.
  assert (Hw : ∀ bits w, (bits ≤ 32)%nat → 0 ≤ wrap bits w < 2 ^ 32).
  { intros bits w Hb. pose proof (Z.mod_pos_bound w (2 ^ Z.of_nat bits)) as Hr.
    assert (2 ^ Z.of_nat bits ≤ 2 ^ 32) by (apply Z.pow_le_mono_r; lia). unfold wrap. lia. }
  destruct d; cbn in Hid;
    repeat (apply elem_of_cons in Hid as [->|Hid]; [cbn [action_ty] in Hv|]); try by apply elem_of_nil in Hid.
  all: first
    [ apply view_Plain in Hv as (b & -> & ->)
    | apply view_part in Hv as (h & w & y & m & -> & Hy);
      first [apply view_bytes in Hy as [data ->]
            |apply view_bits in Hy as (l & -> & Hl); [|apply Hw; lia]] ].
  all: eexists; split; [reflexivity|]; split_and!; [done|done|]; cbn [out_items].
  all: try (by constructor).
  - constructor; [|done]. unfold small. change (Z.to_nat 4) with 4%nat. lia.
  - constructor; [|done]. unfold small, num_bits. rewrite Hl. apply Hw. lia.
  - constructor; [|done]. unfold small, num_bits. rewrite Hl. apply Hw. lia.
Qed.

(** Results of any action can be measured. *)
Lemma out_readable a : readable (length (out_items a)) (out_ty (action_id a)) = true.
Proof. by destruct a as [[]|[]|[]|[]|[]|[]]. Qed.
End stored.

(** C9: bytes are typed before a driver sees them.  Whatever bytes arrive as an
    action of a driver, in a request of a peer for example: if they can be measured,
    a visitor either finds no option in them, exactly if their number is that of no
    action of the driver, or an action of that driver with that number; and the
    results of that action can be measured in any memory, inside of it. *)
Theorem measured_action_typed (d : DriverID) (mem : list Z) (max n : Z)
    (Hbytes : Forall is_byte mem) (Hmax : 0 ≤ max ≤ Z.of_nat (length mem)) (Hspace : max < 2 ^ 63)
    (Hsize : SizeOf (Variant (driver_variant d)) 4 mem max [] = Some (Some n)) :
  ∃ id x, view (Variant (driver_variant d)) mem [] = Some (TVariant id x)
    ∧ match dispatch (driver_actions d) id with
      | None => x = None
      | Some i => ∃ a, visit_action d (TVariant id x) = Some a ∧ action_driver a = d ∧ action_id a = i
          ∧ ∀ out room, 0 ≤ room ≤ Z.of_nat (length out) →
              ∃ r, SizeOf (out_ty i) 4 out room (out_items a) = Some r ∧ ∀ m, r = Some m → 0 ≤ m ≤ room
      end.
Proof.
  set (v := Variant (driver_variant d)) in *. pose proof (Nat.lt_succ_diag_r (length mem)) as Hk.
  destruct (SizeOf_safe _ v mem Hk 4 max [] eq_refl algn_4 Hmax) as (r & Hr & Hn).
  rewrite Hsize in Hr. injection Hr as <-. specialize (Hn n eq_refl).
  destruct (SizeOf_view _ v mem Hk 4 max [] n Hsize eq_refl algn_4 (Forall_nil_2 _) ltac:(lia) ltac:(lia)) as [x Hx].
  specialize (Hx mem eq_refl). rewrite Hx. unfold v in Hx. rewrite view_eq in Hx.
  destruct (read_word mem 0) as [id|] eqn:Hw; [|done]. cbn [mbind option_bind] in Hx. unfold Visit in Hx.
  rewrite Hw in Hx. cbn [mbind option_bind] in Hx. rewrite driver_options, find_option_dispatch in Hx.
  destruct (dispatch (driver_actions d) id) as [i|] eqn:Hd; cbn [fmap option_fmap option_map] in Hx.
  2: { cbn in Hx. injection Hx as <-. exists id, None. split; [done|]. by rewrite Hd. }
  unfold As in Hx. rewrite Hw in Hx. cbn [mbind option_bind] in Hx. rewrite Z.eqb_refl in Hx.
  cbn [option_map mbind option_bind] in Hx.
  destruct (view (action_ty i) _ _) as [t|] eqn:Ht; [|done]. cbn in Hx. injection Hx as <-.
  exists id, (Some t). split; [done|]. rewrite Hd. cbn [visit_action]. rewrite Hd.
  unfold dispatch in Hd. apply find_some in Hd as [Hin%list_elem_of_In _].
  destruct (action_typed d i _ t Hin (Forall_drop _ _ _ Hbytes) Ht) as (a & Ha & Had & Hai & Hsm).
  exists a. split_and!; [done|done|done|]. intros out room Hroom. rewrite <-Hai.
  apply (SizeOf_safe (S (length out)) _ out ltac:(lia) 4 room (out_items a) (out_readable a) algn_4 Hroom).
Qed.

(** ** Examples *)

(** Measuring a variant whose structure claims more bytes than there are. *)
Lemma SizeOf_untrusted_witness :
  let mem := word (ActionIDValue WriteBytesID) ++ word 5 ++ [1; 2; 3] in
  SizeOf (Variant (driver_variant IDByteStream)) 4 mem 11 [] = Some None
  ∧ ∃ r, SizeOf (Variant (driver_variant IDByteStream)) 4 mem 11 [] = Some r ∧
      ∀ n, r = Some n → 0 ≤ n ≤ 11 ∧
        ∃ x, ∀ mem', take (Z.to_nat n) mem' = take (Z.to_nat n) mem →
          view (Variant (driver_variant IDByteStream)) mem' [] = Some x
          ∧ SizeOf (Variant (driver_variant IDByteStream)) 4 mem' n [] = Some (Some n).
Proof.
  intros mem. split; [reflexivity|].
  apply (SizeOf_untrusted (Variant (driver_variant IDByteStream)) 4 mem 11 []);
    [reflexivity|reflexivity|constructor|vm_compute; split; discriminate|reflexivity].
Defined.

#[local] Existing Instance ub_ones.

(** A request to read five bytes. *)
Lemma measured_action_typed_witness :
  let mem := word (ActionIDValue ReadBytesID) ++ word 5 in
  ∃ id x, view (Variant (driver_variant IDByteStream)) mem [] = Some (TVariant id x)
    ∧ match dispatch (driver_actions IDByteStream) id with
      | None => x = None
      | Some i => ∃ a, visit_action IDByteStream (TVariant id x) = Some a ∧ action_driver a = IDByteStream
          ∧ action_id a = i
          ∧ ∀ out room, 0 ≤ room ≤ Z.of_nat (length out) →
              ∃ r, SizeOf (out_ty i) 4 out room (out_items a) = Some r ∧ ∀ m, r = Some m → 0 ≤ m ≤ room
      end.
Proof.
  intros mem. apply (measured_action_typed IDByteStream mem 8 8).
  - apply Forall_app. split; apply le_bytes_byte.
  - vm_compute. split; discriminate.
  - reflexivity.
  - vm_compute. reflexivity.
Defined.

(** A cause of a failure with one field. *)
Lemma emplaced_is_read_witness :
  let w := Option 8 (Plain 4 4) in
  lays 4 w (Variant CauseV) = true
  ∧ ∃ size, EmplaceImpl (S := Z) w 4 (VOption (VPlain (word 7))) 0 = Some size ∧
    ∀ before old after, Z.of_nat (length old) = size → size < 2 ^ 62 →
      ∃ new x, length new = length old ∧ shows w (VOption (VPlain (word 7))) x
        ∧ EmplaceImpl w 4 (VOption (VPlain (word 7)))
            (mkContiguous (before ++ old ++ after) (Z.of_nat (length before)))
          = Some (mkContiguous (before ++ new ++ after) (Z.of_nat (length before) + size))
        ∧ ∀ mem max, take (length new) mem = new → size ≤ max < 2 ^ 63 →
            SizeOf (Variant CauseV) 4 mem max [] = Some (Some size)
            ∧ view (Variant CauseV) mem [] = Some x.
Proof.
  intros w. split; [reflexivity|].
  apply (emplaced_is_read w (Variant CauseV) 4 [] (VOption (VPlain (word 7))));
    reflexivity || constructor.
Defined.
