(* ===== verification/Storage.v ===== *)
(** * Storage: transactions in their buffers
    ([src/src/libedr/driver/Driver.hpp], [util/vss/VSS.hpp]).

    [Transaction] takes a transaction for a list of actions with their results.
    Here are the buffers behind it: actions and results are emplaced one after
    the other, and an iterator finds them again by the sizes it measures.  A
    pointer into a buffer is the memory from there on. *)
From S2P Require Import Prelude BitStream Actions TransactionBuffer VSS ActionLayout.
Local Open Scope nat_scope.

(** [TransactionBuffer::g_alignment]. *)
Definition g_alignment : Z := 4.

Section storage.
Context `{ShiftUB} `{Universe} `{FreshBytes} (t_min_chunk_size : nat) (alloc : nat → bool).

(** The memory at a position. *)
Definition Get_at (b : Buffer) (pos : Position) : option (list Z) :=
  i ← pos.1; c ← chunks b !! i; Some (drop (pos.2 - g_initial_offset) (data c)).

(** [vss::Emplace]: the counting pass, the allocation and the contiguous pass in
    the memory allocated.  The branches for types without a payload allocate and
    construct the same. *)
Definition Emplace (b : Buffer) (w : ty) (v : val) : option (Position * Buffer) :=
  b ← (if (g_alignment <? ComputeMaxAlignment w)%Z
       then Align b (Z.to_nat (ComputeMaxAlignment w)) else Some b);
  total ← EmplaceImpl (S := Z) w g_alignment v 0%Z;
  '(pos, ok, b) ← Allocate t_min_chunk_size alloc b (Z.to_nat total);
  if (ok : bool) then
    mem ← Get_at b pos;
    c ← EmplaceImpl w g_alignment v (mkContiguous (take (Z.to_nat total) mem) 0%Z);
    Some (pos, store b pos (m_start c))
  else Some (pos, b).

(** [vss::Extract]: the object and the position of the stream behind it.  No type
    that is extracted is aligned more than the buffer. *)
Definition Extract (b : Buffer) (pos : Position) (r : ty) (ctx : list Z)
    : option (option (list Z * Position)) :=
  check (ComputeMaxAlignment r <=? g_alignment)%Z;;
  mem ← Get_at b pos;
  ahead ← NumContiguousAhead b pos;
  mb_size ← SizeOf r g_alignment mem (Z.of_nat ahead) ctx;
  match mb_size with
  | None => Some None
  | Some size => next ← Advance b pos (Z.to_nat size); Some (Some (mem, next))
  end.
End storage.

(** ** Transactions *)

Record TransactionStorage := mkStorage { ins : Buffer; outs : Buffer }.

Definition ActionPosition : Type := Position * Position.

Definition empty_storage : TransactionStorage := mkStorage empty_buffer empty_buffer.

Definition HadAllocationFailure (s : TransactionStorage) : bool :=
  m_had_allocation_failure (ins s) || m_had_allocation_failure (outs s).

Record ActionOutVariant := mkActionOut {
  m_pos : ActionPosition;
  m_action : option (list Z);
  m_out : option (list Z);
}.

(** The conversion to [bool] tests the pointer to the action, not the action. *)
Definition action_out_ok (a : ActionOutVariant) : bool :=
  bool_decide (is_Some (m_action a)) && bool_decide (is_Some (m_out a)).

(** The number that the [SizeOfPayload] of a result takes from the action. *)
Definition out_ctx (id : ActionID) (action : list Z) : option (list Z) :=
  match id with
  | ReadBytesID | JCShiftDRID => n ← read_word action 0; Some [n]
  | PutTDIGetTDOID => n ← read_word action 0; Some [wrap 31 n]
  | _ => Some []
  end.

Section transactions.
Context `{ShiftUB} `{FreshBytes} (t_min_chunk_size : nat) (alloc : nat → bool).
Context (d : DriverID).

Definition TAction : ty := Variant (driver_variant d).

(** [TransactionBuilder::Add<T>(args...)]. *)
Definition Add (s : TransactionStorage) (id : ActionID) (args out_args : val)
    : option (ActionPosition * TransactionStorage) :=
  '(in_pos, ins) ← Emplace t_min_chunk_size alloc (ins s)
                     (Option (ActionIDValue id) (action_ty id)) (VOption args);
  '(out_pos, outs) ← Emplace t_min_chunk_size alloc (outs s) (out_ty id) out_args;
  Some ((in_pos, out_pos), mkStorage ins outs).

(** [action->Visit(...)]: the option found, if any. *)
Definition visited (action : list Z) : option (option (ActionID * list Z)) :=
  v ← Visit (driver_variant d) action;
  match v with
  | None => Some None
  | Some (discriminant, _, offset) =>
      id ← dispatch (driver_actions d) discriminant;
      Some (Some (id, skip offset action))
  end.

(** [Iterator::operator*]. *)
Definition deref (s : TransactionStorage) (pos : ActionPosition) : option ActionOutVariant :=
  mb_action ← Extract (ins s) pos.1 TAction [];
  match mb_action with
  | None => Some (mkActionOut pos None None)
  | Some (action, _) =>
      v ← visited action;
      match v with
      | None => Some (mkActionOut pos (Some action) None)
      | Some (id, option_ptr) =>
          ctx ← out_ctx id option_ptr;
          mb_out ← Extract (outs s) pos.2 (out_ty id) ctx;
          Some (mkActionOut pos (Some action) (option_map fst mb_out))
      end
  end.

(** [Iterator::operator++]; a result that cannot be extracted leaves its stream
    where it is. *)
Definition incr (s : TransactionStorage) (pos : ActionPosition) : option ActionPosition :=
  let last := (End (ins s), End (outs s)) in
  mb_action ← Extract (ins s) pos.1 TAction [];
  match mb_action with
  | None => Some last
  | Some (action, in_pos) =>
      v ← visited action;
      match v with
      | None => Some last
      | Some (id, option_ptr) =>
          ctx ← out_ctx id option_ptr;
          mb_out ← Extract (outs s) pos.2 (out_ty id) ctx;
          Some (in_pos, match mb_out with Some (_, out_pos) => out_pos | None => pos.2 end)
      end
  end.

(** [for (auto act : range)]: what the body gets to see. *)
Fixpoint iterate (fuel : nat) (s : TransactionStorage) (pos last : ActionPosition)
    : option (list ActionOutVariant) :=
  match fuel with
  | O => None
  | S fuel =>
      if bool_decide (pos.1 = last.1) then Some [] else
      act ← deref s pos;
      next ← incr s pos;
      rest ← iterate fuel s next last;
      Some (act :: rest)
  end.

Definition begin_pos (s : TransactionStorage) : ActionPosition := (Begin (ins s), Begin (outs s)).
Definition end_pos (s : TransactionStorage) : ActionPosition := (End (ins s), End (outs s)).

(** [ActionOutVariant::Visit]: the action and its result as the visitor gets
    them. *)
Definition visit (a : ActionOutVariant) : option (AnyAction * tree) :=
  action ← m_action a;
  out ← m_out a;
  x ← view TAction action [];
  act ← visit_action d x;
  v ← visited action;
  '(id, option_ptr) ← v;
  ctx ← out_ctx id option_ptr;
  o ← view (out_ty id) out ctx;
  Some (act, o).

(** [Initiate] and a sequence of [Add]s. *)
Fixpoint add_all (s : TransactionStorage) (l : list (ActionID * val * val))
    : option (list ActionPosition * TransactionStorage) :=
  match l with
  | [] => Some ([], s)
  | (id, args, out_args) :: l =>
      '(p, s) ← Add s id args out_args;
      '(ps, s) ← add_all s l;
      Some (p :: ps, s)
  end.
End transactions.

(** ** Emplacing into and extracting from a buffer *)

Section buffers.
Context `{ShiftUB} `{U : Universe} `{FreshBytes} (fresh_length : ∀ n, length (fresh_bytes n) = n).
Context (min_size : nat).

(** [Emplace] leaves the offset where it is: the type asks for no more than the
    alignment of the buffer, or nothing is in the buffer yet. *)
Definition aligned_for (b : Buffer) (w : ty) : Prop :=
  (ComputeMaxAlignment w ≤ 4)%Z
  ∨ m_tail b = None ∧ TransactionBuffer.m_offset b = g_initial_offset ∧ algn (ComputeMaxAlignment w).

Lemma aligned_for_eq b w : aligned_for b w →
  (if (g_alignment <? ComputeMaxAlignment w)%Z
   then Align b (Z.to_nat (ComputeMaxAlignment w)) else Some b) = Some b.
Proof.
  change g_alignment with 4%Z. destruct (Z.ltb_spec 4 (ComputeMaxAlignment w)); [|done].
  intros [?|(Ht & Ho & Ha)]; [lia|]. unfold Align. rewrite Ht, Ho.
  rewrite Z2Nat.id by (destruct Ha as [?%po2_pos _]; lia).
  assert (align_up (ComputeMaxAlignment w) (Z.of_nat g_initial_offset) = 32%Z) as ->.
  { apply algn_cases in Ha. repeat (apply elem_of_cons in Ha as [->|Ha]; [done|]).
    by apply elem_of_nil in Ha. }
  change (Z.to_nat 32) with g_initial_offset. rewrite <-Ho, <-Ht. by destruct b.
Qed.

(** An object that can be emplaced anywhere becomes the next object of the
    buffer. *)
Lemma Emplace_stores b gs w v W (P : list Z → Prop) :
  holding b gs → opened gs → aligned_for b w → (0 ≤ W)%Z →
  EmplaceImpl (S := Z) w 4%Z v 0%Z = Some W →
  (∀ pre old post, Z.of_nat (length old) = W →
     ∃ new, length new = length old ∧ P new
       ∧ EmplaceImpl w 4%Z v (standing pre (old ++ post)) = Some (standing (pre ++ new) post)) →
  ∃ p b' gs' new, Emplace min_size (λ _, true) b w v = Some (p, b')
    ∧ stores b' gs' ∧ opened gs' ∧ concat gs' = concat gs ++ [new]
    ∧ positions_from 0 gs' = positions_from 0 gs ++ [p] ∧ P new ∧ Z.of_nat (length new) = W.
Proof.
  intros Hs Ho Ha%aligned_for_eq HW Hc Hw. unfold Emplace. rewrite Ha.
  change g_alignment with 4%Z. cbn [mbind option_bind]. rewrite Hc.
  cbn [mbind option_bind].
  destruct (Allocate_holding fresh_length min_size b gs (replicate (Z.to_nat W) 0%Z) Hs Ho)
    as (p & b1 & _ & Hall & Hroom & _). rewrite length_replicate in Hall, Hroom.
  rewrite Hall. cbn [mbind option_bind]. destruct Hroom as (i & c & Hi & Hci & Hroom).
  unfold Get_at. rewrite Hi. cbn [mbind option_bind]. rewrite Hci. cbn [mbind option_bind].
  set (old := take (Z.to_nat W) (drop (p.2 - g_initial_offset) (data c))).
  assert (Hold : Z.of_nat (length old) = W) by (unfold old; rewrite length_take, length_drop; lia).
  destruct (Hw [] old [] Hold) as (new & Hl & HP & Hnew). rewrite app_nil_r in Hnew.
  change (mkContiguous old 0%Z) with (standing [] old). rewrite Hnew. cbn [mbind option_bind app].
  destruct (Allocate_holding fresh_length min_size b gs new Hs Ho)
    as (p' & b1' & gs' & Hall' & _ & Hs' & Ho' & Hc' & Hp').
  rewrite Hl in Hall'. replace (length old) with (Z.to_nat W) in Hall' by lia.
  rewrite Hall in Hall'. injection Hall' as <- <-.
  exists p, (store b1 p new), gs', new. unfold standing. cbn [m_start]. rewrite app_nil_r.
  split_and!; try done. lia.
Qed.

(** Every chunk is smaller than the bytes of its buffer. *)
Lemma stands_ahead b gs p objs ahead :
  stores b gs → stands b p objs → NumContiguousAhead b p = Some ahead →
  ahead ≤ length (concat (concat gs)).
Proof.
  intros [Hch _ _ _ _] (i & c & e & g1 & g & gs' & [-> Hc _ _ _ _ _ _]) Ha.
  unfold NumContiguousAhead in Ha. cbn [fst snd mbind option_bind] in Ha. rewrite Hc in Ha.
  cbn [mbind option_bind] in Ha. apply (inj Some) in Ha as <-.
  destruct (Forall2_lookup_l _ _ _ _ _ Hch Hc) as (gi & Hgi & Hh).
  rewrite (holds_allocated _ _ Hh). apply list_elem_of_split_length in Hgi as (l1 & l2 & -> & _).
  rewrite !concat_app. cbn [concat]. rewrite !concat_app, !length_app. lia.
Qed.

Lemma Extract_stands b gs p obj objs r ctx x :
  stores b gs → (Z.of_nat (length (concat (concat gs))) < 2 ^ 63)%Z →
  stands b p (obj :: objs) → (ComputeMaxAlignment r ≤ 4)%Z → read_as r 4 ctx obj x →
  ∃ mem next, Extract b p r ctx = Some (Some (mem, next)) ∧ view r mem ctx = Some x
    ∧ stands b next objs ∧ take (length obj) mem = obj ∧ Advance b p (length obj) = Some next.
Proof.
  intros Hs Hb Hst Ha Hr. destruct (extract_stands b p obj objs Hst) as (next & Hext & Hst').
  unfold extract in Hext. unfold Extract, Get_at. change g_alignment with 4%Z.
  destruct (Z.leb_spec (ComputeMaxAlignment r) 4); [|lia]. cbn [check mbind option_bind].
  destruct p as [[i|] o]; [|done]. cbn [fst snd mbind option_bind] in *.
  destruct (chunks b !! i) as [c|] eqn:Hc; [|done]. cbn [mbind option_bind] in *.
  destruct (NumContiguousAhead b (Some i, o)) as [ahead|] eqn:Hah; [|done]. cbn [mbind option_bind] in *.
  pose proof (stands_ahead b gs _ _ ahead Hs Hst Hah) as Hle.
  destruct (Nat.leb_spec (length obj) ahead) as [Hlen|]; [|done]. cbn [check mbind option_bind] in *.
  destruct (Advance b (Some i, o) (length obj)) as [next'|] eqn:Hadv; [|done]. cbn in Hext.
  injection Hext as Hobj ->.
  destruct (Hr (drop (o - g_initial_offset) (data c)) (Z.of_nat ahead)) as [Hsz Hv]; [done|lia|].
  rewrite Hsz. cbn [mbind option_bind]. rewrite Nat2Z.id, Hadv. cbn. eexists _, _. by split_and!.
Qed.

(** The first object of a buffer from a pool. *)
Lemma Emplace_cleared b w v W (P : list Z → Prop) :
  cleared b → algn (ComputeMaxAlignment w) → (0 ≤ W)%Z →
  EmplaceImpl (S := Z) w 4%Z v 0%Z = Some W →
  (∀ pre old post, Z.of_nat (length old) = W →
     ∃ new, length new = length old ∧ P new
       ∧ EmplaceImpl w 4%Z v (standing pre (old ++ post)) = Some (standing (pre ++ new) post)) →
  ∃ b' c new mem, Emplace min_size (λ _, true) b w v = Some ((Some 0, g_initial_offset), b')
    ∧ P new ∧ Z.of_nat (length new) = W ∧ m_had_allocation_failure b' = false
    ∧ chunks b' !! 0 = Some c ∧ data c = new ++ mem ∧ m_tail b' = Some 0
    ∧ allocated c = g_initial_offset + length new.
Proof.
  intros Hb Ha HW Hc Hw. unfold Emplace.
  rewrite aligned_for_eq by (right; split_and!; [apply Hb|apply Hb|done]).
  change g_alignment with 4%Z. cbn [mbind option_bind]. rewrite Hc. cbn [mbind option_bind].
  destruct (Allocate_cleared min_size b (Z.to_nat W) fresh_length Hb) as (c & cs & -> & Hal & Hroom).
  cbn [mbind option_bind]. unfold Get_at. cbn [fst snd mbind option_bind chunks].
  cbn [lookup list_lookup mbind option_bind]. rewrite Nat.sub_diag, drop_0.
  set (old := take (Z.to_nat W) (data c)).
  assert (Hold : Z.of_nat (length old) = W) by (unfold old; rewrite length_take; lia).
  destruct (Hw [] old [] Hold) as (new & Hl & HP & Hnew). rewrite app_nil_r in Hnew.
  change (mkContiguous old 0%Z) with (standing [] old). rewrite Hnew. cbn [mbind option_bind app].
  eexists _, _, new, (drop (length new) (data c)). split; [done|]. split_and!; try done.
  - lia.
  - unfold store. cbn [fst snd chunks m_had_allocation_failure m_tail m_offset m_start standing].
    rewrite Nat.sub_diag, app_nil_r. reflexivity.
  - cbn [allocated]. rewrite Hal. lia.
Qed.

Lemma Extract_first b c new mem r ctx x :
  m_tail b = Some 0 → chunks b !! 0 = Some c → data c = new ++ mem →
  allocated c = g_initial_offset + length new → (Z.of_nat (length new) < 2 ^ 63)%Z →
  (ComputeMaxAlignment r ≤ 4)%Z → read_as r 4 ctx new x →
  ∃ next, Extract b (Begin b) r ctx = Some (Some (new ++ mem, next))
    ∧ view r (new ++ mem) ctx = Some x.
Proof.
  intros Ht Hc Hd Hal Hlt Ha Hr. unfold Extract, Begin, Get_at, NumContiguousAhead, Advance.
  rewrite Ht. cbn [fst snd mbind option_bind]. rewrite Hc. cbn [mbind option_bind].
  change g_alignment with 4%Z. destruct (Z.leb_spec (ComputeMaxAlignment r) 4); [|lia].
  cbn [check mbind option_bind]. rewrite Hd, Hal, Nat.sub_diag, drop_0, Nat.add_comm, Nat.add_sub.
  destruct (Hr (new ++ mem) (Z.of_nat (length new))) as [-> Hv]; [by rewrite take_app_length|lia|].
  cbn [mbind option_bind]. destruct (_ && _); eauto.
Qed.

(** The end of the loops over actions. *)
Lemma stands_end b gs p : stores b gs → stands b p [] → p = End b.
Proof.
  intros [Hch _ Htail Hoff _] (i & c & e & g1 & g & gs' & [-> Hc Hh Hrest Hop _ Hobjs _]).
  symmetry in Hobjs. apply app_nil in Hobjs as [-> Hobjs]. apply app_nil in Hobjs as [-> Hgs].
  assert (gs' = []) as ->.
  { destruct gs' as [|g gs']; [done|]. apply Forall_cons in Hop as [(o & g' & -> & _) _]. done. }
  apply Forall2_nil_inv_r in Hrest. apply (f_equal length) in Hrest.
  rewrite length_drop in Hrest. cbn [length] in Hrest.
  pose proof (lookup_lt_Some _ _ _ Hc). pose proof (Forall2_length _ _ _ Hch).
  destruct (Forall2_lookup_l _ _ _ _ _ Hch Hc) as (gi & Hgi & Hhi).
  assert (Hi : i = length gs - 1) by lia. unfold End. rewrite Htail, Hoff.
  rewrite last_lookup, <-Nat.sub_1_r, <-Hi, Hgi. cbn [default from_option id].
  destruct gs as [|g0 gs]; [by simpl in *; lia|].
  apply holds_allocated in Hh. rewrite app_nil_r in Hh. apply holds_allocated in Hhi.
  rewrite <-Hhi, Hh, Hi. done.
Qed.

Lemma stands_not_end b gs p o objs :
  stores b gs → stands b p (o :: objs) → o ≠ [] → p ≠ End b.
Proof.
  intros [Hch _ Htail Hoff _] (i & c & e & g1 & g & gs' & [-> Hc Hh Hrest _ He Hobjs Hmv]) Ho Heq.
  destruct e as [|y e].
  2: { injection Hobjs as <- _. by apply Forall_cons in He as [-> _]. }
  unfold End in Heq. rewrite Htail in Heq. destruct gs as [|g0 gs]; [done|].
  apply (inj2 pair) in Heq as [Hi%(inj Some) Ho']. destruct (Forall2_lookup_l _ _ _ _ _ Hch Hc) as (gi & Hgi & Hhi).
  assert (Hlast : last (g0 :: gs) = Some gi).
  { by rewrite last_lookup, <-Nat.sub_1_r, <-Hi. }
  rewrite Hlast in Hoff. cbn [default from_option id] in Hoff.
  apply holds_allocated in Hhi. apply holds_allocated in Hh. rewrite concat_app, length_app in Hh.
  assert (Hg : concat g = []) by (apply nil_length_inv; lia).
  destruct gs' as [|g' gs'].
  - cbn in Hobjs. rewrite app_nil_r in Hobjs. subst g. cbn in Hg. by destruct o.
  - specialize (Hmv Hg ltac:(done)). cbn in Hmv, Hobjs. destruct g as [|y g]; [done|].
    injection Hobjs as <- _. cbn in Hg. by destruct o.
Qed.
End buffers.

(** ** Iteration *)

Section iteration.
Context `{ShiftUB} (d : DriverID).

(** The bytes of an action and of a result. *)
Record in_obj (a : AnyAction) (obj : list Z) : Prop := {
  in_driver : action_driver a = d;
  in_bytes : obj ≠ [];
  in_tree : ∃ t, decode_action d (action_id a) t = Some a
    ∧ (∀ mem, view (action_ty (action_id a)) mem [] = Some t →
         out_ctx (action_id a) mem = Some (out_items a))
    ∧ read_as (TAction d) 4 [] obj (TVariant (ActionIDValue (action_id a)) (Some t));
}.

Definition out_obj (a : AnyAction) (obj : list Z) (x : tree) : Prop :=
  read_as (out_ty (action_id a)) 4 (out_items a) obj x.

(** A result finds the number of its items in the action. *)
Lemma out_ctx_found a v t mem :
  action_args a v → action_fits a → shows (action_ty (action_id a)) v t →
  view (action_ty (action_id a)) mem [] = Some t →
  out_ctx (action_id a) mem = Some (out_items a).
Proof.
  intros Ha Hf Hs Hv.
  destruct a as [[|size]|[|bits l|bits l]|[]|[]|[| | | | | |bits]|[]]; try done;
    cbn [action_id out_ctx out_items] in *; cbn in Ha, Hf.
  - subst v. destruct t; try done. cbn in Hs. subst.
    rewrite (view_header _ _ _ (word (Z.of_nat size)) Hv) by (rewrite ?length_word; naive_solver).
    cbn. unfold word. by rewrite le_z_word.
  - destruct (tdi_header (num_bits bits) l) as (Hsm & Hw & _); [unfold num_bits in *; lia|].
    destruct (bits_val_ok _ bits v 31 Ha Hsm Hw) as [_ Hx]. rewrite (Hx t Hs) in Hv.
    rewrite (view_header _ _ _ (word _) Hv) by (rewrite ?length_word; naive_solver).
    cbn. unfold word. by rewrite le_z_word, Hw.
  - destruct (bits_val_ok (num_bits bits) bits v 32 Ha Hf) as [_ Hx]; [by apply (wrap_small 32)|].
    rewrite (Hx t Hs) in Hv.
    rewrite (view_header _ _ _ (word _) Hv) by (rewrite ?length_word; naive_solver).
    cbn. unfold word. by rewrite le_z_word.
Qed.

Lemma visited_found a t mem :
  action_driver a = d →
  view (TAction d) mem [] = Some (TVariant (ActionIDValue (action_id a)) (Some t)) →
  ∃ ptr, visited d mem = Some (Some (action_id a, ptr))
    ∧ view (action_ty (action_id a)) ptr [] = Some t.
Proof.
  intros Hd Hv. destruct (view_variant _ _ _ _ Hv) as (o & off & Hvis & Hvo).
  pose proof (action_id_driver a) as Hin. rewrite Hd in Hin.
  pose proof (Visit_Some _ _ _ _ _ Hvis) as (_ & Hfo & _).
  rewrite driver_options, find_option_dispatch, dispatch_own in Hfo by done.
  injection Hfo as <-. exists (skip off mem). split; [|done]. unfold visited. rewrite Hvis.
  cbn [mbind option_bind]. by rewrite dispatch_own.
Qed.

Lemma out_alignment id : (ComputeMaxAlignment (out_ty id) ≤ 4)%Z.
Proof. by destruct id. Qed.

(** One round of a loop. *)
Lemma iterate_step s gi go p q a io ios oo oos x :
  stores (ins s) gi → stores (outs s) go →
  (Z.of_nat (length (concat (concat gi))) < 2 ^ 63)%Z →
  (Z.of_nat (length (concat (concat go))) < 2 ^ 63)%Z →
  stands (ins s) p (io :: ios) → stands (outs s) q (oo :: oos) →
  in_obj a io → out_obj a oo x →
  ∃ act p' q', deref d s (p, q) = Some act ∧ visit d act = Some (a, x)
    ∧ action_out_ok act = true ∧ m_pos act = (p, q)
    ∧ incr d s (p, q) = Some (p', q') ∧ stands (ins s) p' ios ∧ stands (outs s) q' oos
    ∧ Advance (ins s) p (length io) = Some p' ∧ Advance (outs s) q (length oo) = Some q'.
Proof.
  intros Hi Ho Hbi Hbo Hsi Hso [Hd _ (t & Hdec & Hctx & Hread)] Hout.
  destruct (Extract_stands (ins s) gi p io ios (TAction d) []
              (TVariant (ActionIDValue (action_id a)) (Some t)) Hi Hbi Hsi)
    as (mem & p' & Hex & Hv & Hsi' & _ & Hai);
    [by destruct d|exact Hread|].
  destruct (visited_found a t mem Hd Hv) as (ptr & Hvis & Hptr). specialize (Hctx ptr Hptr).
  destruct (Extract_stands (outs s) go q oo oos (out_ty (action_id a)) (out_items a) x Ho Hbo Hso)
    as (omem & q' & Hoex & Hov & Hso' & _ & Hao); [apply out_alignment|exact Hout|].
  exists (mkActionOut (p, q) (Some mem) (Some omem)), p', q'.
  unfold deref, incr, visit. cbn [fst snd m_action m_out].
  rewrite Hex. cbn [mbind option_bind]. rewrite Hvis. cbn [mbind option_bind]. rewrite Hctx.
  cbn [mbind option_bind]. rewrite Hoex. cbn [mbind option_bind option_map fst].
  rewrite Hv. cbn [mbind option_bind visit_action].
  pose proof (action_id_driver a) as Hin. rewrite Hd in Hin. rewrite (dispatch_own d _ Hin).
  cbn [mbind option_bind]. rewrite Hdec. cbn [mbind option_bind]. rewrite Hov. done.
Qed.

(** The size of a result does not depend on what is in it. *)
Lemma SizeOf_out id mem mem' max ctx :
  SizeOf (out_ty id) 4%Z mem max ctx = SizeOf (out_ty id) 4%Z mem' max ctx.
Proof. rewrite !SizeOf_eq. by destruct id. Qed.

(** Any bytes in the place of a result are a result. *)
Lemma out_obj_rewritten a obj x bytes :
  out_obj a obj x → action_fits a → length bytes = length obj →
  (Z.of_nat (length obj) < 2 ^ 63)%Z →
  ∃ y, view (out_ty (action_id a)) bytes (out_items a) = Some y ∧ out_obj a bytes y.
Proof.
  intros Ho Hf Hl Hb. set (n := Z.of_nat (length obj)) in *. unfold out_obj, read_as in *. rewrite Hl. fold n in Ho |- *.
  destruct (Ho obj n) as [Hs _]; [by rewrite take_ge|lia|].
  rewrite (SizeOf_out _ obj bytes) in Hs.
  assert (Hr : readable (length (out_items a)) (out_ty (action_id a)) = true)
    by (by destruct a as [[]|[]|[]|[]|[]|[]]).
  pose proof (Nat.lt_succ_diag_r (length bytes)) as Hk.
  destruct (SizeOf_view _ _ bytes Hk 4%Z n (out_items a) n Hs Hr algn_4 (out_items_small a Hf))
    as [y Hy]; [lia..|].
  exists y. split; [by apply Hy|]. intros mem max Ht Hmax. split.
  - rewrite (SizeOf_out _ mem obj). apply Ho; [by rewrite take_ge|done].
  - apply Hy. unfold n. by rewrite Nat2Z.id, Ht, take_ge by lia.
Qed.

(** The objects of a transaction, action by action. *)
Inductive transaction_objs : list (AnyAction * tree) → list (list Z) → list (list Z) → Prop :=
| objs_nil : transaction_objs [] [] []
| objs_cons a x l io ios oo oos :
    in_obj a io → out_obj a oo x → transaction_objs l ios oos →
    transaction_objs ((a, x) :: l) (io :: ios) (oo :: oos).

Lemma iterate_objs s gi go p q l ios oos fuel :
  stores (ins s) gi → stores (outs s) go →
  (Z.of_nat (length (concat (concat gi))) < 2 ^ 63)%Z →
  (Z.of_nat (length (concat (concat go))) < 2 ^ 63)%Z →
  transaction_objs l ios oos → stands (ins s) p ios → stands (outs s) q oos →
  length l < fuel →
  ∃ acts, iterate d fuel s (p, q) (end_pos s) = Some acts
    ∧ mapM (visit d) acts = Some l ∧ Forall (λ act, action_out_ok act = true) acts.
Proof.
  intros Hi Ho Hbi Hbo Hobjs. revert p q fuel.
  induction Hobjs as [|a x l io ios oo oos Hin Hout Hobjs IH]; intros p q [|fuel] Hsi Hso Hf;
    try (simpl in Hf; lia); cbn [iterate fst].
  { rewrite bool_decide_eq_true_2; [by exists []|]. by eapply stands_end. }
  rewrite bool_decide_eq_false_2.
  2: { eapply stands_not_end; [exact Hi|exact Hsi|apply Hin]. }
  destruct (iterate_step s gi go p q a io ios oo oos x)
    as (act & p' & q' & -> & Hv & Hok & _ & -> & Hsi' & Hso' & _); try done.
  cbn [mbind option_bind].
  destruct (IH p' q' fuel Hsi' Hso' ltac:(simpl in Hf; lia)) as (acts & -> & Hm & Hall).
  exists (act :: acts). cbn. rewrite Hv. cbn. rewrite Hm. cbn. split_and!; [done|done|by constructor].
Qed.
End iteration.

(** ** A transaction is read as it was built *)

(** A request to add an action: the action, the arguments of its structure and
    those of its result. *)
Definition Request : Type := AnyAction * val * val.

Definition request_ok (d : DriverID) (r : Request) : Prop :=
  let '(a, v, vo) := r in
  action_driver a = d ∧ action_fits a ∧ action_args a v ∧ out_args a vo.

Definition add_args (r : Request) : ActionID * val * val :=
  let '(a, v, vo) := r in (action_id a, v, vo).

Section building.
Context `{ShiftUB} `{FreshBytes} (fresh_length : ∀ n, length (fresh_bytes n) = n).
Context (min_size : nat) (d : DriverID).

(** The bytes that the requests need. *)
Definition out_size (r : Request) : Z :=
  let '(a, _, vo) := r in default 0%Z (EmplaceImpl (S := Z) (out_ty (action_id a)) 4%Z vo 0%Z).

Definition request_size (r : Request) : Z :=
  let '(a, v, _) := r in
  (default 0 (EmplaceImpl (S := Z) (action_option a) 4 (VOption v) 0) + out_size r)%Z.

Definition total_request_size (rs : list Request) : Z := foldr (λ r n, request_size r + n)%Z 0%Z rs.

(** What the iteration will show of the requests. *)
Definition shown (r : Request) (ax : AnyAction * tree) : Prop :=
  let '(a, _, vo) := r in ax.1 = a ∧ shows (out_ty (action_id a)) vo ax.2.

Record built (s : TransactionStorage) (rs : list Request) (gi go : list (list (list Z)))
    (l : list (AnyAction * tree)) : Prop := {
  built_ins : holding (ins s) gi;
  built_outs : holding (outs s) go;
  built_ins_opened : opened gi;
  built_outs_opened : opened go;
  built_objs : transaction_objs d l (concat gi) (concat go);
  built_shown : Forall2 shown rs l;
  built_out_sizes : Forall2 (λ r oo, Z.of_nat (length oo) = out_size r) rs (concat go);
  built_size : (Z.of_nat (length (concat (concat gi))) + Z.of_nat (length (concat (concat go)))
                = total_request_size rs)%Z;
}.

Lemma transaction_objs_snoc l ios oos a x io oo :
  transaction_objs d l ios oos → in_obj d a io → out_obj a oo x →
  transaction_objs d (l ++ [(a, x)]) (ios ++ [io]) (oos ++ [oo]).
Proof. intros Hl Hi Ho. induction Hl; cbn; repeat (constructor; try done). Qed.

Lemma total_request_size_app rs rs2 :
  total_request_size (rs ++ rs2) = (total_request_size rs + total_request_size rs2)%Z.
Proof.
  unfold total_request_size. induction rs as [|r' rs IH]; cbn [app foldr]; [|rewrite IH]; lia.
Qed.

Lemma total_request_size_nonneg rs : Forall (request_ok d) rs → (0 ≤ total_request_size rs)%Z.
Proof.
  induction 1 as [|[[a v] vo] rs (_ & Hf & Ha & Ho) _ IH]; [done|].
  destruct (action_stored a v Ha Hf) as (W & HW & Hc & _).
  destruct (out_stored a vo Ho Hf) as (Wo & HWo & Hco & _).
  unfold total_request_size in *. cbn [foldr]. unfold request_size at 1, out_size. rewrite Hc, Hco. cbn. lia.
Qed.

Lemma Add_built s rs gi go l r :
  built s rs gi go l → request_ok d r → (total_request_size (rs ++ [r]) < 2 ^ 62)%Z →
  ∃ p q s' gi' go' x, Add min_size (λ _, true) s (add_args r).1.1 (add_args r).1.2 (add_args r).2
      = Some ((p, q), s')
    ∧ built s' (rs ++ [r]) gi' go' (l ++ [(r.1.1, x)])
    ∧ positions_from 0 gi' = positions_from 0 gi ++ [p]
    ∧ positions_from 0 go' = positions_from 0 go ++ [q].
Proof.
  destruct r as [[a v] vo]. intros [Hi Ho Hoi Hoo Hobjs Hsh Hos Hsz] (Hd & Hf & Ha & Hov) Hlt.
  cbn [add_args fst snd]. rewrite total_request_size_app in Hlt.
  change (total_request_size [(a, v, vo)]) with (request_size (a, v, vo) + 0)%Z in Hlt.
  destruct (action_stored a v Ha Hf) as (W & HW & Hc & Hread).
  destruct (out_stored a vo Hov Hf) as (Wo & HWo & Hco & Hreado).
  assert (Hrs : request_size (a, v, vo) = (W + Wo)%Z).
  { unfold request_size, out_size. by rewrite Hc, Hco. }
  rewrite Hrs in Hlt.
  destruct (Emplace_stores fresh_length min_size (ins s) gi (action_option a) (VOption v) W
              (in_obj d a)) as (p & bi & gi' & io & HeI & HsI & HoI & HcI & HpI & HPI & HlI);
    [done|done|left; by destruct a as [[]|[]|[]|[]|[]|[]]|lia|done| |].
  { intros pre old post Hold.
    destruct (Hread ltac:(lia) pre old post Hold) as (new & t & Hl & He & Hst & Hdec & Hr).
    exists new. split_and!; [done| |done]. split; [done|by intros ->; simpl in *; lia|].
    exists t. rewrite Hd in Hdec, Hr. split_and!; [done| |done].
    intros mem Hv. by apply (out_ctx_found a v t mem). }
  destruct (Emplace_stores fresh_length min_size (outs s) go (out_ty (action_id a)) vo Wo
              (λ obj, ∃ x, out_obj a obj x ∧ shows (out_ty (action_id a)) vo x))
    as (q & bo & go' & oo & HeO & HsO & HoO & HcO & HpO & (x & HPO & Hshx) & HlO);
    [done|done|left; apply out_alignment|lia|done| |].
  { intros pre old post Hold.
    destruct (Hreado ltac:(lia) pre old post Hold) as (new & x & Hl & He & Hst & Hr).
    exists new. split_and!; [done|by exists x|done]. }
  exists p, q, (mkStorage bi bo), gi', go', x. split_and!; [|split|done|done].
  - unfold Add, action_option in *. rewrite HeI. cbn [mbind option_bind]. by rewrite HeO.
  - by left.
  - by left.
  - done.
  - done.
  - rewrite HcI, HcO. by apply transaction_objs_snoc.
  - apply Forall2_app; [done|]. by repeat constructor.
  - rewrite HcO. apply Forall2_app; [done|]. constructor; [|done]. unfold out_size. by rewrite Hco.
  - rewrite total_request_size_app.
    change (total_request_size [(a, v, vo)]) with (request_size (a, v, vo) + 0)%Z.
    rewrite Hrs, HcI, HcO, !concat_app, !length_app. cbn [concat].
    rewrite !app_nil_r. lia.
Qed.

Lemma add_all_built s rs gi go l rs2 :
  built s rs gi go l → Forall (request_ok d) rs2 → (total_request_size (rs ++ rs2) < 2 ^ 62)%Z →
  ∃ ps s' gi' go' l', add_all min_size (λ _, true) s (add_args <$> rs2) = Some (ps, s')
    ∧ built s' (rs ++ rs2) gi' go' l'
    ∧ positions_from 0 gi' = positions_from 0 gi ++ ps.*1
    ∧ positions_from 0 go' = positions_from 0 go ++ ps.*2.
Proof.
  intros Hb Hok. revert s rs gi go l Hb.
  induction Hok as [|r rs2 Hr Hok IH]; intros s rs gi go l Hb Hlt.
  { exists [], s, gi, go, l. rewrite !app_nil_r. done. }
  assert (Hsplit : rs ++ r :: rs2 = (rs ++ [r]) ++ rs2) by (by rewrite <-app_assoc).
  rewrite Hsplit in Hlt |- *.
  destruct (Add_built s rs gi go l r Hb Hr) as (p & q & s1 & gi1 & go1 & x & HA & Hb1 & Hp1 & Hq1).
  { eapply Z.le_lt_trans; [|exact Hlt]. rewrite total_request_size_app.
    pose proof (total_request_size_nonneg rs2 Hok). rewrite !total_request_size_app. lia. }
  destruct (IH s1 (rs ++ [r]) gi1 go1 _ Hb1 Hlt) as (ps & s2 & gi2 & go2 & l2 & Hall & Hb2 & Hp2 & Hq2).
  exists ((p, q) :: ps), s2, gi2, go2, l2. split_and!; [|done| |].
  - cbn [fmap list_fmap add_all]. destruct (add_args r) as [[id v] vo]. cbn [fst snd] in HA.
    rewrite HA. cbn [mbind option_bind]. by rewrite Hall.
  - rewrite Hp2, Hp1, <-app_assoc. done.
  - rewrite Hq2, Hq1, <-app_assoc. done.
Qed.

(** The buffers of a new transaction. *)
Definition ready (s : TransactionStorage) : Prop := reusable (ins s) ∧ reusable (outs s).

Lemma ready_built s : ready s → built s [] [] [] [].
Proof. intros [Hi Ho]. split; try done; try (by right); constructor. Qed.

Lemma empty_ready : ready empty_storage.
Proof. split; apply empty_reusable. Qed.

(** Once something was added, the buffers hold it. *)
Lemma built_stores s rs gi go l :
  built s rs gi go l → rs ≠ [] → stores (ins s) gi ∧ stores (outs s) go.
Proof.
  intros [Hi Ho _ _ Hobjs Hsh _ _] Hne.
  assert (Hl : l ≠ []) by (intros ->; apply Forall2_nil_inv_r in Hsh as ->; done).
  split; apply holding_stores; try done; intros ->; inversion Hobjs; subst; done.
Qed.
End building.

Lemma transaction_objs_drop d k l ios oos :
  transaction_objs d l ios oos → transaction_objs d (drop k l) (drop k ios) (drop k oos).
Proof.
  intros Hl. revert k. induction Hl; intros [|k]; cbn; by constructor || apply IHHl.
Qed.

(** The result of one action is another one. *)
Lemma transaction_objs_insert d k l ios oos a x oo y :
  transaction_objs d l ios oos → l !! k = Some (a, x) → out_obj a oo y →
  transaction_objs d (<[k := (a, y)]> l) ios (<[k := oo]> oos).
Proof.
  intros Hl. revert k. induction Hl; intros [|k] Hk Ho; cbn in *; simplify_eq; constructor; auto.
Qed.

Lemma transaction_objs_length d l ios oos :
  transaction_objs d l ios oos → length l = length ios ∧ length l = length oos.
Proof. induction 1; cbn; lia. Qed.

Lemma ready_no_failure s : ready s → HadAllocationFailure s = false.
Proof. intros [[Hi _] [Ho _]]. unfold HadAllocationFailure. by rewrite (cleared_failure _ Hi), (cleared_failure _ Ho). Qed.

Lemma ready_iterate `{ShiftUB} d s fuel : ready s → iterate d (S fuel) s (begin_pos s) (end_pos s) = Some [].
Proof.
  intros [[[Ht Ho _ _] _] _]. cbn [iterate begin_pos end_pos fst]. unfold Begin, End.
  by rewrite Ht, Ho, bool_decide_eq_true_2.
Qed.

Section built_transactions.
Context `{ShiftUB} (d : DriverID) (s : TransactionStorage) (rs : list Request)
  (gi go : list (list (list Z))) (l : list (AnyAction * tree)) (Hb : built d s rs gi go l).

Lemma built_length : length rs = length (concat gi).
Proof.
  destruct (transaction_objs_length _ _ _ _ (built_objs _ _ _ _ _ _ Hb)) as [<- _].
  exact (Forall2_length _ _ _ (built_shown _ _ _ _ _ _ Hb)).
Qed.

(** A loop that starts at an action sees it and those behind it. *)
Lemma iterate_from k p q :
  rs ≠ [] → (total_request_size rs < 2 ^ 63)%Z →
  stands (ins s) p (drop k (concat gi)) → stands (outs s) q (drop k (concat go)) →
  ∃ acts, iterate d (S (length rs)) s (p, q) (end_pos s) = Some acts
    ∧ mapM (visit d) acts = Some (drop k l).
Proof.
  intros Hne Hlt Hp Hq. destruct (built_stores d s rs gi go l Hb Hne) as [Hi Ho].
  pose proof (built_size _ _ _ _ _ _ Hb).
  destruct (iterate_objs d s gi go p q (drop k l) (drop k (concat gi)) (drop k (concat go))
              (S (length rs))) as (acts & Hit & Hm & _); try done; [lia|lia| | |by exists acts].
  - apply transaction_objs_drop, Hb.
  - rewrite length_drop, <-(Forall2_length _ _ _ (built_shown _ _ _ _ _ _ Hb)). lia.
Qed.

Lemma built_begin : rs ≠ [] →
  stands (ins s) (Begin (ins s)) (concat gi) ∧ stands (outs s) (Begin (outs s)) (concat go).
Proof.
  intros Hne. destruct (built_stores d s rs gi go l Hb Hne) as [Hi Ho].
  pose proof (Forall2_length _ _ _ (built_shown _ _ _ _ _ _ Hb)).
  destruct (transaction_objs_length _ _ _ _ (built_objs _ _ _ _ _ _ Hb)) as [Hli Hlo].
  assert (length rs ≠ 0) by (by destruct rs).
  split; apply begin_stands; try apply Hb; try done; intros ->; simpl in *; lia.
Qed.

Lemma built_iterates : rs ≠ [] → (total_request_size rs < 2 ^ 63)%Z →
  (∃ acts, iterate d (S (length rs)) s (begin_pos s) (end_pos s) = Some acts
     ∧ mapM (visit d) acts = Some l)
  ∧ ∀ k p q, positions_from 0 gi !! k = Some p → positions_from 0 go !! k = Some q →
      ∃ acts, iterate d (S (length rs)) s (p, q) (end_pos s) = Some acts
        ∧ mapM (visit d) acts = Some (drop k l).
Proof.
  intros Hne Hlt. destruct (built_stores d s rs gi go l Hb Hne) as [Hi Ho]. split.
  - apply (iterate_from 0); try done; by apply built_begin.
  - intros k p q Hp Hq. apply iterate_from; try done; apply positions_stand; try done; apply Hb.
Qed.
End built_transactions.

(** C5: what a client adds to a transaction is what a driver finds in it.  The
    actions of one driver, with results that have room for their items, are
    emplaced in the two buffers of a new transaction, fresh ones or buffers of a
    pool with at most one chunk, over as many chunks as they need; a loop over the transaction, or from the position that some [Add]
    returned, ends and sees exactly the actions added from there on, in their
    order and with the result of each. *)
Theorem transaction_roundtrip `{ShiftUB} `{FreshBytes} (min_size : nat) (d : DriverID)
    (s0 : TransactionStorage) (rs : list Request)
    (Hfresh : ∀ n, length (fresh_bytes n) = n) (Hready : ready s0)
    (Hok : Forall (request_ok d) rs) (Hsize : (total_request_size rs < 2 ^ 62)%Z) :
  ∃ ps s l, add_all min_size (λ _, true) s0 (add_args <$> rs) = Some (ps, s)
    ∧ HadAllocationFailure s = false ∧ length ps = length rs ∧ Forall2 shown rs l
    ∧ (∃ acts, iterate d (S (length rs)) s (begin_pos s) (end_pos s) = Some acts
         ∧ mapM (visit d) acts = Some l)
    ∧ ∀ k p, ps !! k = Some p →
        ∃ acts, iterate d (S (length rs)) s p (end_pos s) = Some acts
          ∧ mapM (visit d) acts = Some (drop k l).
Proof.
  destruct (decide (rs = [])) as [->|Hne].
  { exists [], s0, []. split_and!; try done; [by apply ready_no_failure|].
    exists []. split; [|done]. by apply ready_iterate. }
  destruct (add_all_built Hfresh min_size d s0 [] [] [] [] rs (ready_built d s0 Hready) Hok Hsize)
    as (ps & s & gi & go & l & Hall & Hb & Hpi & Hpo). cbn [app positions_from] in *.
  destruct (built_iterates d s rs gi go l Hb Hne ltac:(lia)) as [Hbegin Hfrom].
  exists ps, s, l. split_and!; [done| | |by apply Hb|done|].
  - unfold HadAllocationFailure.
    by rewrite (holding_failure _ _ (built_ins _ _ _ _ _ _ Hb)), (holding_failure _ _ (built_outs _ _ _ _ _ _ Hb)).
  - rewrite (built_length _ _ _ _ _ _ Hb), <-(length_positions_from 0), Hpi. symmetry. apply length_fmap.
  - intros k [p q] Hk. apply Hfrom.
    + rewrite Hpi, list_lookup_fmap. exact (f_equal (fmap fst) Hk).
    + rewrite Hpo, list_lookup_fmap. exact (f_equal (fmap snd) Hk).
Qed.

(** ** Examples *)

#[local] Existing Instance ub_ones.
#[local] Existing Instance zero_bytes.

(** Sending three bytes and receiving two, in chunks of 40 bytes. *)
Definition demo_requests : list Request :=
  [(AnyByteStream (WriteBytes [7; 8; 9]%Z), VStruct (word 3) [VBytes [7; 8; 9]%Z], VPlain (word 0));
   (AnyByteStream (ReadBytes 2), VPlain (word 2), VStruct (word 0) [VReserve 2])].

Lemma demo_requests_ok : Forall (request_ok IDByteStream) demo_requests.
Proof.
  repeat constructor; try done.
  exists [2%Z]. done.
Qed.

(** A new buffer for the results, and one that was used before. *)
Definition demo_storage : TransactionStorage :=
  mkStorage (Clear (mkBuffer [mkChunk 44 40 [1; 2; 3; 4; 5; 6; 7; 8; 9; 10; 11; 12]%Z] (Some 0) 40 false))
    empty_buffer.

Lemma demo_storage_ready : ready demo_storage.
Proof. repeat (constructor || done). Qed.

Lemma transaction_roundtrip_witness :
  (∃ ps s, add_all 40 (λ _, true) demo_storage (add_args <$> demo_requests) = Some (ps, s)
     ∧ length (chunks (ins s)) = 2)
  ∧ ∃ ps s l, add_all 40 (λ _, true) demo_storage (add_args <$> demo_requests) = Some (ps, s)
    ∧ HadAllocationFailure s = false ∧ length ps = length demo_requests
    ∧ Forall2 shown demo_requests l
    ∧ (∃ acts, iterate IDByteStream 3 s (begin_pos s) (end_pos s) = Some acts
         ∧ mapM (visit IDByteStream) acts = Some l)
    ∧ ∀ k p, ps !! k = Some p →
        ∃ acts, iterate IDByteStream 3 s p (end_pos s) = Some acts
          ∧ mapM (visit IDByteStream) acts = Some (drop k l).
Proof.
  split; [by vm_compute; eexists _, _|].
  apply (transaction_roundtrip 40 IDByteStream demo_storage demo_requests);
    [apply zero_bytes_length|apply demo_storage_ready|apply demo_requests_ok|reflexivity].
Defined.
