(* ===== verification/Errors.v ===== *)
(** * Errors: how failures are stored and found again
    ([src/src/libedr/driver/Error.hpp], [Driver.hpp]).

    A driver that fails a transaction emplaces an [ActionError] in a buffer: a
    copy of the failed action and a cause.  The client extracts it from there.
    [Error] is the same for failures outside of transactions.  The causes of
    [Actions] are the arguments that they are made from, and what a reader makes
    of the memory. *)
From S2P Require Import Prelude BitStream Actions TransactionBuffer VSS ActionLayout Storage.
From stdpp Require Import strings.
Local Open Scope Z_scope.
Local Open Scope list_scope.

(** ** Causes in memory *)

Definition quad (z : Z) : list Z := le_bytes 8 z.

(** A structure followed by a [vss::String]. *)
Definition named_args (header : list Z) (name : string) : val :=
  VStruct header
    [VStruct (word (Z.of_nat (length (string_bytes name)))) [VBytes (string_bytes name)]].

(** [PayloadWithError] and [PayloadWithLost] of a nested error. *)
Definition nested_written (error : bool) : ty :=
  Struct 0 1 [(NoCtx, if error then Option 0 ActionError_ty else Option 1 (Plain 0 1))].

(** [vss::Copy(error)]: the two variants of the error are copied. *)
Definition copy_error (mem : list Z) : option val :=
  '(o0, _) ← Get 0 ActionError_ty mem [];
  '(o1, _) ← Get 1 ActionError_ty mem [];
  Some (VStruct [] [VCopy ActionOrUnknownV (skip o0 mem); VCopy CauseV (skip o1 mem)]).

(** [TCause] with its arguments: the type that is emplaced and its value.  The
    error of [CauseNestedError] is at [nested]. *)
Definition cause_written (c : Cause) : ty :=
  match c with
  | CauseStringMessage _ => Struct 0 1 [(NoCtx, StringFormat)]
  | CauseNestedError e => nested_written (match e with Some _ => true | None => false end)
  | CauseUnsupportedAction | CauseAllocationFailure | CauseTargetError => Plain 0 1
  | CauseTerminated _ | CauseInvalidArgument _ => named 0 1
  | CauseErrno _ _ _ => named 8 4
  | CauseTimeoutInCycles _ | CauseInvalidJtagState _ | CauseUnstableJtagState _
  | CauseMaxLatencyReached _ => Plain 4 4
  | CauseInvalidJtagTapID _ _ | CauseIRLengthTooBig _ _ => Plain 8 4
  | CauseFailedToClearErrorFlag _ _ | CauseInvalidVersion _ _ => named 4 4
  | CauseValueOutOfRange _ _ _ _ => named 24 8
  end.

Definition cause_args (nested : list Z) (c : Cause) : option val :=
  match c with
  | CauseUnsupportedAction | CauseAllocationFailure | CauseTargetError => Some (VPlain [])
  | CauseStringMessage message => Some (VStruct [] [VBytes (string_bytes message)])
  | CauseNestedError None => Some (VStruct [] [VOption (VPlain [])])
  | CauseNestedError (Some _) => e ← copy_error nested; Some (VStruct [] [VOption e])
  | CauseTerminated s | CauseInvalidArgument s => Some (named_args [] s)
  | CauseErrno s return_value errno_value =>
      Some (named_args (word return_value ++ word errno_value) s)
  | CauseTimeoutInCycles n | CauseMaxLatencyReached n => Some (VPlain (word n))
  | CauseInvalidJtagState n | CauseUnstableJtagState n => Some (VPlain (word (Z.of_nat n)))
  | CauseInvalidJtagTapID x y | CauseIRLengthTooBig x y =>
      Some (VPlain (word (Z.of_nat x) ++ word (Z.of_nat y)))
  | CauseFailedToClearErrorFlag s n | CauseInvalidVersion s n => Some (named_args (word n) s)
  | CauseValueOutOfRange s value min_value max_value =>
      Some (named_args (quad value ++ quad min_value ++ quad max_value) s)
  end.

(** The field of [vss::Variant<AnyAction, ActionID>]. *)
Definition owner (id : ActionID) : option DriverID :=
  find (λ d, bool_decide (id ∈ driver_actions d)) ALL_EDR_DRIVERS.

Definition visit_any (x : tree) : option AnyAction :=
  match x with
  | TVariant discriminant (Some x) =>
      id ← dispatch any_actions discriminant; d ← owner id; decode_action d id x
  | _ => None
  end.

Definition decode_failed (index : Z) (x : tree) : option AnyAction :=
  if index =? 0 then visit_any x else None.

(** An [int32_t] in memory. *)
Definition int32_at (bytes : list Z) (offset : nat) : Z :=
  let w := word_at bytes offset in if w <? 2 ^ 31 then w else w - 2 ^ 32.

Definition quad_at (bytes : list Z) (offset : nat) : Z := le_z (take 8 (drop offset bytes)).

(** What a reader makes of a cause. *)
Fixpoint decode_cause (x : tree) : option Cause :=
  match x with
  | TVariant 0 (Some (TPlain _)) => Some CauseUnsupportedAction
  | TVariant 1 (Some (TPlain _)) => Some CauseAllocationFailure
  | TVariant 2 (Some (TStruct _ [TStruct _ [TArray s]])) =>
      Some (CauseStringMessage (string_of_bytes s))
  | TVariant 3 (Some (TStruct _ [TVariant 0 (Some (TStruct _ [TVariant i (Some a); c]))])) =>
      c ← decode_cause c; Some (CauseNestedError (Some (mkActionError (decode_failed i a) c)))
  | TVariant 3 (Some (TStruct _ [TVariant 1 (Some (TPlain _))])) => Some (CauseNestedError None)
  | TVariant 5 (Some (TStruct _ [TStruct _ [TArray s]])) =>
      Some (CauseTerminated (string_of_bytes s))
  | TVariant 6 (Some (TStruct b [TStruct _ [TArray s]])) =>
      Some (CauseErrno (string_of_bytes s) (int32_at b 0) (int32_at b 4))
  | TVariant 7 (Some (TStruct _ [TStruct _ [TArray s]])) =>
      Some (CauseInvalidArgument (string_of_bytes s))
  | TVariant 8 (Some (TPlain b)) => Some (CauseTimeoutInCycles (word_at b 0))
  | TVariant 9 (Some (TPlain _)) => Some CauseTargetError
  | TVariant 10 (Some (TPlain b)) =>
      Some (CauseInvalidJtagTapID (Z.to_nat (word_at b 0)) (Z.to_nat (word_at b 4)))
  | TVariant 11 (Some (TPlain b)) => Some (CauseInvalidJtagState (Z.to_nat (word_at b 0)))
  | TVariant 12 (Some (TPlain b)) => Some (CauseUnstableJtagState (Z.to_nat (word_at b 0)))
  | TVariant 13 (Some (TPlain b)) =>
      Some (CauseIRLengthTooBig (Z.to_nat (word_at b 0)) (Z.to_nat (word_at b 4)))
  | TVariant 14 (Some (TStruct b [TStruct _ [TArray s]])) =>
      Some (CauseFailedToClearErrorFlag (string_of_bytes s) (word_at b 0))
  | TVariant 15 (Some (TStruct b [TStruct _ [TArray s]])) =>
      Some (CauseInvalidVersion (string_of_bytes s) (word_at b 0))
  | TVariant 16 (Some (TStruct b [TStruct _ [TArray s]])) =>
      Some (CauseValueOutOfRange (string_of_bytes s) (quad_at b 0) (quad_at b 8) (quad_at b 16))
  | TVariant 17 (Some (TPlain b)) => Some (CauseMaxLatencyReached (word_at b 0))
  | _ => None
  end.

Definition decode_error (x : tree) : option ActionError :=
  match x with
  | TStruct _ [TVariant i (Some a); c] =>
      c ← decode_cause c; Some (mkActionError (decode_failed i a) c)
  | _ => None
  end.

(** ** Failing a transaction *)

(** [ActionError::Option<C>] and [ActionError]: the two payloads that are
    emplaced, given the type that the cause is emplaced as. *)
Definition error_written (known : bool) (cause : ty) : ty :=
  Struct 0 1
    [(NoCtx, if known then Option 0 (Variant AnyActionV) else Option 1 (Plain 4 4));
     (NoCtx, cause)].

Definition error_args (d : DriverID) (failed_action : option (list Z)) (cause_ty : ty) (cause : val)
    : option (ty * val) :=
  let unknown id := (error_written false cause_ty, VStruct [] [VOption (VPlain (word id)); cause]) in
  match failed_action with
  | None => Some (unknown (ActionIDValue InvalidActionID))
  | Some mem =>
      valid ← IsValid (driver_variant d) mem;
      discriminant ← read_word mem 0;
      Some (if (valid : bool)
            then (error_written true cause_ty,
                  VStruct [] [VOption (VCopy (driver_variant d) mem); cause])
            else unknown discriminant)
  end.

(** What [FailImpl<TCause>(pos, args...)] is given: a cause to make, a pointer to
    one, or no pointer. *)
Inductive CauseArg :=
| CauseMade (nested : list Z) (c : Cause)
| CauseCopied (mem : list Z)
| CauseMissing.

Section failing.
Context `{ShiftUB} `{FreshBytes} (t_min_chunk_size : nat) (alloc : nat → bool).
Context (d : DriverID).

(** [buffer] is what [TakeOrMake] returned; the result is [m_error_buffer]. *)
Definition FailImpl (buffer : Buffer) (s : TransactionStorage) (in_pos : Position)
    (cause : CauseArg) : option (option Buffer) :=
  mb_action ← Extract (ins s) in_pos (TAction d) [];
  let emplace cause_ty v :=
    '(w, v) ← error_args d (option_map fst mb_action) cause_ty v;
    '(_, b) ← Emplace t_min_chunk_size alloc buffer w v;
    Some b in
  b ← (match cause with
       | CauseMade nested c =>
           v ← cause_args nested c;
           emplace (Option (CauseIDValue c) (cause_written c)) (VOption v)
       | CauseCopied mem => emplace (Variant CauseV) (VCopy CauseV mem)
       | CauseMissing => Some buffer
       end);
  Some (if m_had_allocation_failure b then None else Some b).

(** [TransactionStatus::GetError]. *)
Definition GetError (m_error_buffer : option Buffer) : option (option (list Z)) :=
  match m_error_buffer with
  | None => Some None
  | Some b => mb ← Extract b (Begin b) ActionError_ty []; Some (option_map fst mb)
  end.

(** [ActionError::FailedAction]: the memory of the action. *)
Definition FailedAction (error : list Z) : option (option (list Z)) :=
  '(o, _) ← Get 0 ActionError_ty error [];
  let m := skip o error in
  mb ← As 0 (Variant AnyActionV) m;
  Some (option_map (λ offset, skip offset m) mb).

(** [ActionError::FailedActionID]; a null pointer is a fault. *)
Definition FailedActionID (error : list Z) : option Z :=
  '(o, _) ← Get 0 ActionError_ty error [];
  let m := skip o error in
  as_id ← As 1 (Plain 4 4) m;
  match as_id with
  | Some offset => read_word (skip offset m) 0
  | None => mb ← As 0 (Variant AnyActionV) m; offset ← mb; read_word (skip offset m) 0
  end.

(** [ActionError::GetCause]. *)
Definition GetCause (error : list Z) : option (list Z) :=
  '(o, _) ← Get 1 ActionError_ty error []; Some (skip o error).
End failing.

(** ** Causes are found as they were made *)

(** The fields of a cause fit their types. *)
Definition int32 (z : Z) : Prop := - 2 ^ 31 ≤ z < 2 ^ 31.
Definition small64 (z : Z) : Prop := 0 ≤ z < 2 ^ 64.
Definition small_string (s : string) : Prop := small (Z.of_nat (length (string_bytes s))).

(** An error in memory, and what it says. *)
Definition error_at (mem : list Z) (e : ActionError) : Prop :=
  ∃ n x, SizeOf ActionError_ty 4 mem n [] = Some (Some n) ∧ n < 2 ^ 62
    ∧ n ≤ Z.of_nat (length mem) ∧ view ActionError_ty mem [] = Some x
    ∧ decode_error x = Some e.

Definition cause_fits (nested : list Z) (c : Cause) : Prop :=
  match c with
  | CauseStringMessage s | CauseTerminated s | CauseInvalidArgument s => small_string s
  | CauseNestedError (Some e) => error_at nested e
  | CauseErrno s x y => small_string s ∧ int32 x ∧ int32 y
  | CauseTimeoutInCycles x | CauseMaxLatencyReached x => small x
  | CauseInvalidJtagTapID x y | CauseIRLengthTooBig x y => small (Z.of_nat x) ∧ small (Z.of_nat y)
  | CauseInvalidJtagState x | CauseUnstableJtagState x => small (Z.of_nat x)
  | CauseFailedToClearErrorFlag s x | CauseInvalidVersion s x => small_string s ∧ small x
  | CauseValueOutOfRange s x y z => small_string s ∧ small64 x ∧ small64 y ∧ small64 z
  | CauseUnsupportedAction | CauseAllocationFailure | CauseTargetError
  | CauseNestedError None => True
  end.

Lemma int32_word x rest : int32 x → int32_at (word x ++ rest) 0 = x.
Proof.
  unfold int32, int32_at, word_at. intros Hx. rewrite drop_0.
  rewrite (take_app_length' (word x)) by (by rewrite length_word). unfold word. rewrite le_z_le_bytes. unfold wrap.
  change (2 ^ Z.of_nat (8 * 4)) with (2 ^ 32).
  destruct (Z.lt_ge_cases x 0).
  - rewrite <-(Z.mod_add x 1 (2 ^ 32)), Z.mod_small by lia.
    destruct (Z.ltb_spec (x + 1 * 2 ^ 32) (2 ^ 31)); lia.
  - rewrite Z.mod_small by lia. destruct (Z.ltb_spec x (2 ^ 31)); lia.
Qed.

Lemma int32_second a x : int32 x → int32_at (word a ++ word x) 4 = x.
Proof.
  intros Hx. rewrite <-(int32_word x [] Hx) at 2. unfold int32_at, word_at. rewrite app_nil_r.
  by rewrite drop_app_length' by (by rewrite length_word).
Qed.

Lemma quad_at_app pre x rest offset :
  small64 x → length pre = offset → quad_at (pre ++ quad x ++ rest) offset = x.
Proof.
  intros Hx <-. unfold quad_at, quad.
  rewrite drop_app_length, (take_app_length' (le_bytes 8 x)) by (by rewrite length_le_bytes).
  rewrite le_z_le_bytes. by apply (wrap_small 64).
Qed.

(** A structure with a name. *)
Lemma named_ok size align header s :
  small_string s → Z.of_nat (length header) = size →
  val_ok (named size align) [] (named_args header s)
  ∧ ∀ x, shows (named size align) (named_args header s) x →
      ∃ len, x = TStruct header [TStruct len [TArray (string_bytes s)]].
Proof.
  intros Hs Hh. split.
  - split; [done|]. split; [|done]. exists []. split; [done|]. split; [done|]. split; [|done].
    eexists. split.
    + cbn [eval_ctx]. rewrite read_word_of by done. cbn. by rewrite (wrap_small 32).
    + eexists. split; [done|]. lia.
  - intros x Hx. destruct x as [| | |b [|[| | |b' [|[|s'| | |] [|]]|] [|]]|]; cbn in Hx; try naive_solver.
Qed.

(** *** Copies of variants *)

Lemma decode_cause_variant x c : decode_cause x = Some c → ∃ d t, x = TVariant d (Some t).
Proof. destruct x as [| | | |d [t|]]; cbn; try done; [eauto|]. by repeat case_match. Qed.

Lemma option_small name d o : find_option (variant_options name) d = Some o → small d.
Proof.
  intros Hf%find_option_In.
  assert (Hall : Forall (λ o, small o.1) (variant_options name)).
  { do 10 (destruct name as [|name];
      [repeat (apply Forall_cons_2; [split; vm_compute; congruence|]); apply Forall_nil_2|]).
    apply Forall_nil_2. }
  rewrite Forall_forall in Hall. by apply (Hall (d, o)).
Qed.

(** The option of a variant that was measured. *)
Lemma measured_option name A mem n d t :
  SizeOf (Variant name) A mem n [] = Some (Some n) →
  view (Variant name) mem [] = Some (TVariant d (Some t)) →
  ∃ o k, Visit name mem = Some (Some (d, o, 4 + misalignment o))
    ∧ read_word mem 0 = Some d ∧ find_option (variant_options name) d = Some o
    ∧ SizeOf o 1 (skip (4 + misalignment o) mem) (n - 4 - misalignment o) [] = Some (Some k)
    ∧ 4 + misalignment o + k ≤ n.
Proof.
  intros Hs Hv. destruct (view_variant _ _ _ _ Hv) as (o & off & Hvis & _).
  pose proof Hvis as (Hw & Ho & _ & ->)%Visit_Some. rewrite SizeOf_eq in Hs. cbn zeta in Hs.
  change (self_size (Variant name) A) with 4 in Hs. destruct (Z.ltb_spec n 4); [done|].
  cbn [SizeOfPayload] in Hs. rewrite Hw in Hs. cbn [mbind option_bind] in Hs. rewrite Ho in Hs.
  destruct (Z.ltb_spec (n - 4) (misalignment o)); [done|]. change sizeof_variant with 4 in *.
  destruct (SizeOf o 1 _ _ []) as [[k|]|] eqn:Hk; [|done..].
  pose proof (SizeOf_range _ _ _ _ _ _ Hk). exists o, k. split_and!; try done. lia.
Qed.

(** It can be copied to another variant with that option. *)
Lemma measured_copy name name' A mem n d t :
  SizeOf (Variant name') A mem n [] = Some (Some n) → n < 2 ^ 63 →
  n ≤ Z.of_nat (length mem) → view (Variant name') mem [] = Some (TVariant d (Some t)) →
  find_option (variant_options name) d = find_option (variant_options name') d →
  val_ok (Variant name) [] (VCopy name' mem).
Proof.
  intros Hs Hn Hlen Hv Hsame.
  destruct (measured_option _ _ _ _ _ _ Hs Hv) as (o & k & _ & Hw & Ho & Hk & Hle).
  pose proof (misalignment_nonneg o). pose proof (SizeOf_range _ _ _ _ _ _ Hk) as Hr.
  pose proof (self_size_ge _ _ _ (find_option_readable _ _ _ Ho) algn_1).
  exists d, o, (n - 4 - misalignment o), k. rewrite Hsame. change sizeof_variant with 4.
  split_and!; try done; try lia. by eapply option_small.
Qed.

(** ... and the copy takes hardly more memory. *)
Lemma measured_copy_size `{ShiftUB} name name' A B mem n d t W :
  SizeOf (Variant name') A mem n [] = Some (Some n) → n < 2 ^ 63 → algn B →
  view (Variant name') mem [] = Some (TVariant d (Some t)) →
  EmplaceImpl (S := Z) (Variant name) B (VCopy name' mem) 0 = Some W → W ≤ n + 16.
Proof.
  intros Hs Hn HB Hv HW.
  destruct (measured_option _ _ _ _ _ _ Hs Hv) as (o & k & Hvis & Hw & Ho & Hk & Hle).
  pose proof (misalignment_nonneg o). pose proof (find_option_readable _ _ _ Ho) as Hro.
  pose proof (SizeOf_range _ _ _ _ _ _ Hk) as Hr.
  pose proof (self_size_ge _ _ _ Hro algn_1).
  cbn [EmplaceImpl] in HW. rewrite Hw in HW. cbn [mbind option_bind] in HW.
  rewrite EmplaceSelf_counting in HW. cbn [mbind option_bind] in HW.
  unfold EmplaceCopy in HW. rewrite Hvis in HW. cbn [mbind option_bind] in HW.
  unfold SizeOfTrusted in HW.
  erewrite (SizeOf_local _ o _ (Nat.lt_succ_diag_r _)) in HW;
    [|exact Hk|done|apply algn_1|lia|done|unfold SIZE_MAX; lia].
  cbn [mbind option_bind] in HW. pose proof (align_up_bounds B (misalignment o + k) (proj1 HB)).
  change (self_size (Variant name) B) with 4 in HW. apply (inj Some) in HW.
  cbn [os_Update CountingStream] in HW. destruct HB. lia.
Qed.

(** The two variants of an error, and where they are. *)
Lemma error_parts mem n :
  SizeOf ActionError_ty 4 mem n [] = Some (Some n) → n < 2 ^ 62 →
  ∃ s0 s1, 0 ≤ s0 ∧ 0 ≤ s1 ∧ s0 + s1 ≤ n
    ∧ SizeOf (Variant ActionOrUnknownV) 4 mem s0 [] = Some (Some s0)
    ∧ SizeOf (Variant CauseV) 1 (skip s0 mem) s1 [] = Some (Some s1)
    ∧ Get 0 ActionError_ty mem [] = Some (0, Variant ActionOrUnknownV)
    ∧ Get 1 ActionError_ty mem [] = Some (s0, Variant CauseV).
Proof.
  intros Hs Hn. pose proof (SizeOf_range _ _ _ _ _ _ Hs) as Hn0.
  rewrite SizeOf_eq in Hs. cbn zeta in Hs. change (self_size ActionError_ty 4) with 0 in *.
  destruct (Z.ltb_spec n 0); [done|]. rewrite Z.sub_0_r in Hs.
  unfold SizeOfPayload, ActionError_ty in Hs. change (self_size (Struct 0 1 _) 1) with 0 in Hs.
  change (skip 0 mem) with mem in Hs. cbn [PayloadSize eval_ctx mbind option_bind] in Hs.
  change (GetPartAlignment [(NoCtx, Variant CauseV)] 1) with 4 in Hs.
  change (GetPartAlignment [] 1) with 1 in Hs.
  destruct (SizeOf (Variant ActionOrUnknownV) 4 mem n []) as [[s0|]|] eqn:H0; [|done..].
  cbn [mbind option_bind] in Hs.
  destruct (SizeOf (Variant CauseV) 1 (skip s0 mem) (n - s0) []) as [[s1|]|] eqn:H1; [|done..].
  pose proof (SizeOf_range _ _ _ _ _ _ H0) as Hr0. pose proof (SizeOf_range _ _ _ _ _ _ H1) as Hr1.
  change (self_size (Variant _) _) with 4 in Hr0, Hr1.
  assert (Hl : ∀ max, s0 ≤ max → SizeOf (Variant ActionOrUnknownV) 4 mem max [] = Some (Some s0)).
  { intros max Hmax. by apply (SizeOf_local _ _ mem (Nat.lt_succ_diag_r _) 4 n [] s0 mem max H0);
      [|apply algn_4|lia| |]. }
  exists s0, s1. split_and!; [lia..|by apply Hl| |done|].
  - by apply (SizeOf_local _ _ _ (Nat.lt_succ_diag_r _) 1 (n - s0) [] s1 _ s1 H1);
      [|apply algn_1|lia| |].
  - cbn [Get ActionError_ty GetLoop eval_ctx mbind option_bind].
    change (self_size (Struct 0 1 _) 1) with 0. change (skip 0 mem) with mem.
    change (GetPartAlignment [(NoCtx, Variant CauseV)] 1) with 4. rewrite Hl by (unfold SIZE_MAX; lia).
    done.
Qed.

(** What a client finds in an error. *)
Lemma error_view mem x : view ActionError_ty mem [] = Some x →
  ∃ b o0 o1 x0 x1, x = TStruct b [x0; x1]
    ∧ Get 0 ActionError_ty mem [] = Some (o0, Variant ActionOrUnknownV)
    ∧ view (Variant ActionOrUnknownV) (skip o0 mem) [] = Some x0
    ∧ Get 1 ActionError_ty mem [] = Some (o1, Variant CauseV)
    ∧ view (Variant CauseV) (skip o1 mem) [] = Some x1.
Proof.
  rewrite view_eq. change (self_size ActionError_ty 1) with 0. unfold ActionError_ty. intros Hv.
  destruct (read_bytes 0 mem) as [b|]; [|done]. cbn [mbind option_bind] in Hv.
  destruct (view_parts view mem [] _ 0) as [xs|] eqn:Hxs; [|done].
  cbn [fmap option_fmap option_map] in Hv. injection Hv as <-.
  assert (∃ x0 x1, xs = [x0; x1]) as (x0 & x1 & ->).
  { apply length_view_parts in Hxs. destruct xs as [|x0 [|x1 []]]; try done. eauto. }
  destruct (GetLoop_view 0 _ _ _ _ _ x0 Hxs eq_refl) as (o0 & c0 & p0 & ctx0 & Hg0 & Hp0 & Hc0 & Hv0).
  destruct (GetLoop_view 1 _ _ _ _ _ x1 Hxs eq_refl) as (o1 & c1 & p1 & ctx1 & Hg1 & Hp1 & Hc1 & Hv1).
  cbn in Hp0, Hp1. injection Hp0 as <- <-. injection Hp1 as <- <-.
  cbn in Hc0, Hc1. injection Hc0 as <-. injection Hc1 as <-.
  by exists b, o0, o1, x0, x1.
Qed.
(** The two variants of an error can be copied. *)
Lemma error_copied mem e :
  error_at mem e →
  ∃ v, copy_error mem = Some v ∧ val_ok ActionError_ty [] v
    ∧ ∀ x, shows ActionError_ty v x → decode_error x = Some e.
Proof.
  intros (n & x & Hs & Hn & Hlen & Hv & Hd).
  destruct (error_parts mem n Hs Hn) as (s0 & s1 & H0 & H1 & Hle & Hs0 & Hs1 & HG0 & HG1).
  destruct (error_view mem x Hv) as (b & o0 & o1 & x0 & x1 & -> & Hg0 & Hv0 & Hg1 & Hv1).
  rewrite Hg0 in HG0. rewrite Hg1 in HG1. injection HG0 as ->. injection HG1 as ->.
  eexists. split_and!; [unfold copy_error; rewrite Hg0; cbn [mbind option_bind]; by rewrite Hg1| |].
  - cbn in Hd. destruct x0 as [| | | |i [a|]]; try done.
    destruct (decode_cause x1) as [c|] eqn:Hc; [|done]. apply decode_cause_variant in Hc as (d & t & ->).
    split; [done|]. split; [|split; [|done]]; exists []; (split; [done|]).
    + eapply measured_copy; [exact Hs0|lia|rewrite length_skip; lia|exact Hv0|done].
    + eapply measured_copy; [exact Hs1|lia|rewrite length_skip; lia|exact Hv1|done].
  - intros x Hx. destruct x as [| | |b' [|y0 [|y1 [|]]]|]; cbn in Hx; try tauto.
    destruct Hx as (-> & Hy0 & Hy1 & _). cbn. rewrite Hv0 in Hy0. rewrite Hv1 in Hy1.
    injection Hy0 as <-. injection Hy1 as <-. done.
Qed.

Lemma cause_found nested c :
  cause_fits nested c →
  ∃ v, cause_args nested c = Some v ∧ val_ok (cause_written c) [] v
    ∧ ∀ x, shows (cause_written c) v x →
        decode_cause (TVariant (CauseIDValue c) (Some x)) = Some c.
Proof.
  intros Hf.
  assert (Hnamed : ∀ size align header s, cause_written c = named size align →
    cause_args nested c = Some (named_args header s) → small_string s →
    Z.of_nat (length header) = size →
    (∀ len, decode_cause (TVariant (CauseIDValue c)
              (Some (TStruct header [TStruct len [TArray (string_bytes s)]]))) = Some c) →
    ∃ v, cause_args nested c = Some v ∧ val_ok (cause_written c) [] v
      ∧ ∀ x, shows (cause_written c) v x →
          decode_cause (TVariant (CauseIDValue c) (Some x)) = Some c).
  { intros size align header s -> -> Hs Hh Hd. destruct (named_ok size align header s Hs Hh) as [Hok Hsh].
    eexists. split_and!; [done|done|]. intros x Hx. by destruct (Hsh x Hx) as [len ->]. }
  assert (Hplain : ∀ size align bytes, cause_written c = Plain size align →
    cause_args nested c = Some (VPlain bytes) → Z.of_nat (length bytes) = size →
    decode_cause (TVariant (CauseIDValue c) (Some (TPlain bytes))) = Some c →
    ∃ v, cause_args nested c = Some v ∧ val_ok (cause_written c) [] v
      ∧ ∀ x, shows (cause_written c) v x →
          decode_cause (TVariant (CauseIDValue c) (Some x)) = Some c).
  { intros size align bytes -> -> Hl Hd. eexists. split_and!; [done|done|].
    intros x Hx. destruct x; try done. cbn in Hx. by subst. }
  destruct c as [ | |s|[e|]|s|s x y|s|n| |x y|x|x|x y|s x|s x|s x y z|x]; cbn in Hf;
    try (eapply Hplain; [done..|by rewrite ?length_app, ?length_word|];
         cbn [decode_cause CauseIDValue];
         rewrite ?word_at_first, ?word_at_second, ?word_at_only by (apply Hf || done);
         by rewrite ?Nat2Z.id);
    try (eapply Hnamed; [done|done|apply Hf||done|by rewrite ?length_app, ?length_word|];
         intros len; cbn [decode_cause CauseIDValue]; rewrite string_of_string_bytes;
         rewrite ?word_at_only, ?int32_word, ?int32_second by apply Hf; done).
  - eexists. split_and!; [done| |].
    + split; [done|]. split; [|done]. exists []. done.
    + intros x Hx. destruct x as [| | |b [|[| | |b' [|[|s'| | |] [|]]|] [|]]|]; cbn in Hx; try tauto.
      destruct Hx as (_ & (_ & ->) & _). cbn. by rewrite string_of_string_bytes.
  - destruct (error_copied nested e Hf) as (v & Hv & Hok & Hsh). cbn [cause_args]. rewrite Hv.
    eexists. split_and!; [done| |].
    + split; [done|]. split; [|done]. exists []. done.
    + intros x Hx. destruct x as [| | |b [|[| | | |i [x|]] [|]]|]; cbn in Hx; try tauto.
      destruct Hx as (_ & (-> & Hx) & _). specialize (Hsh x Hx).
      destruct x as [| | |b' [|[| | | |i' [a|]] [|c [|]]]|]; try done. cbn in Hsh |- *.
      destruct (decode_cause c); [|done]. cbn in Hsh |- *. by injection Hsh as ->.
  - eexists. split_and!; [done| |].
    + split; [done|]. split; [|done]. exists []. done.
    + intros x Hx. destruct x as [| | |b [|[| | | |i [x|]] [|]]|]; cbn in Hx; try tauto.
      destruct Hx as (_ & (-> & Hx) & _). by destruct x.
  - eapply Hnamed; [done|done|apply Hf|done|]. intros len. cbn [decode_cause CauseIDValue].
    rewrite string_of_string_bytes. destruct Hf as (_ & Hx & Hy & Hz).
    pose proof (quad_at_app [] x (quad y ++ quad z) 0 Hx eq_refl) as Hqx.
    pose proof (quad_at_app (quad x) y (quad z) 8 Hy eq_refl) as Hqy.
    pose proof (quad_at_app (quad x ++ quad y) z [] 16 Hz eq_refl) as Hqz.
    rewrite app_nil_r, <-app_assoc in Hqz. cbn [app] in Hqx. by rewrite Hqx, Hqy, Hqz.
Qed.

(** ** Errors are found as they were made *)

Section errors.
Context `{ShiftUB} `{FreshBytes} (fresh_length : ∀ n, length (fresh_bytes n) = n).
Context (min_size : nat) (d : DriverID).

(** The one cause that is aligned more than the others. *)
Definition aligned_cause (c : Cause) : bool :=
  match c with CauseValueOutOfRange _ _ _ _ => true | _ => false end.

Definition cause_option (c : Cause) : ty := Option (CauseIDValue c) (cause_written c).

Lemma error_lays known c :
  aligned_cause c = false → lays 4 (error_written known (cause_option c)) ActionError_ty = true.
Proof. by destruct c as [ | | |[]| | | | | | | | | | | | | ], known. Qed.

Lemma error_alignment known c :
  aligned_cause c = false → ComputeMaxAlignment (error_written known (cause_option c)) = 4.
Proof. by destruct c as [ | | |[]| | | | | | | | | | | | | ], known. Qed.

Lemma any_option a :
  action_id a ≠ SkipCyclesID →
  find_option (variant_options AnyActionV) (ActionIDValue (action_id a))
  = find_option (variant_options (driver_variant (action_driver a))) (ActionIDValue (action_id a)).
Proof. by destruct a as [[]|[]|[]|[]|[]|[]]. Qed.

Lemma visit_any_action a t :
  action_id a ≠ SkipCyclesID → decode_action (action_driver a) (action_id a) t = Some a →
  visit_any (TVariant (ActionIDValue (action_id a)) (Some t)) = Some a.
Proof. by destruct a as [[]|[]|[]|[]|[]|[]]. Qed.

(** What [FailImpl] makes of the action it finds. *)
Lemma error_args_known a mem t ct cv :
  action_driver a = d →
  view (TAction d) mem [] = Some (TVariant (ActionIDValue (action_id a)) (Some t)) →
  error_args d (Some mem) ct cv
  = Some (error_written true ct, VStruct [] [VOption (VCopy (driver_variant d) mem); cv]).
Proof.
  intros Hd Hv. destruct (view_variant _ _ _ _ Hv) as (o & off & Hvis & _).
  apply Visit_Some in Hvis as (Hw & Ho & _). unfold error_args, IsValid. rewrite Hw.
  cbn [mbind option_bind].
  assert (existsb (λ o, ActionIDValue (action_id a) =? o.1) (variant_options (driver_variant d)) = true)
    as ->; [|done].
  apply find_option_In in Ho. apply existsb_exists. eexists. split; [by apply list_elem_of_In|].
  cbn. apply Z.eqb_refl.
Qed.

(** The bytes of a cause. *)
Definition cause_size (nested : list Z) (c : Cause) : Z :=
  default 0 (v ← cause_args nested c; EmplaceImpl (S := Z) (cause_option c) 4 (VOption v) 0).

Lemma cause_lays c : lays 4 (cause_option c) (Variant CauseV) = true.
Proof. by destruct c as [ | | |[]| | | | | | | | | | | | | ]. Qed.

Lemma cause_size_nonneg nested c v :
  cause_args nested c = Some v → val_ok (cause_written c) [] v → 0 ≤ cause_size nested c.
Proof.
  intros Hv Hok. unfold cause_size. rewrite Hv. cbn [mbind option_bind].
  destruct (EmplaceImpl_reads_back (cause_option c) (Variant CauseV) 4 [] (VOption v))
    as (W & HW & -> & _); [apply cause_lays|done|apply algn_4|done|done|done].
Qed.

Lemma error_size nested c v mem n t W id :
  aligned_cause c = false → cause_args nested c = Some v → n < 2 ^ 63 →
  SizeOf (TAction d) 4 mem n [] = Some (Some n) →
  view (TAction d) mem [] = Some (TVariant id (Some t)) →
  EmplaceImpl (S := Z) (error_written true (cause_option c)) 4
    (VStruct [] [VOption (VCopy (driver_variant d) mem); VOption v]) 0 = Some W →
  W ≤ n + 20 + cause_size nested c.
Proof.
  intros Hal Hv Hn Hs Hview HW. unfold cause_size. rewrite Hv. cbn [mbind option_bind].
  assert (Ha : ComputeMaxAlignment (cause_option c) = 4) by (by destruct c as [ | | |[]| | | | | | | | | | | | | ]).
  unfold error_written in HW. cbn [EmplaceImpl] in HW. rewrite EmplaceSelf_counting in HW.
  cbn [mbind option_bind PayloadEmplace GetPartAlignment] in HW. rewrite Ha in HW.
  change (0 + self_size _ 4) with 0 in HW. rewrite EmplaceImpl_option in HW.
  destruct (EmplaceImpl (S := Z) (Variant AnyActionV) 4 (VCopy _ mem) 0) as [Wa|] eqn:HWa; [|done].
  cbn [fmap option_fmap option_map mbind option_bind] in HW. rewrite EmplaceImpl_shift in HW.
  destruct (EmplaceImpl (S := Z) (cause_option c) 4 (VOption v) 0) as [Wc|]; [|done].
  pose proof (measured_copy_size _ _ _ _ _ _ _ _ _ Hs Hn algn_4 Hview HWa).
  change (self_size (Option 0 _) 4) with 4 in HW.
  cbn [fmap option_fmap option_map mbind option_bind] in HW. apply (inj Some) in HW.
  change (default 0 (Some Wc)) with Wc. lia.
Qed.

(** A buffer with one object at its beginning. *)
Record one_object (b : Buffer) (obj : list Z) : Prop := {
  one_failure : m_had_allocation_failure b = false;
  one_tail : m_tail b = Some 0%nat;
  one_chunk : ∃ c rest, chunks b !! 0%nat = Some c ∧ data c = obj ++ rest
    ∧ allocated c = (g_initial_offset + length obj)%nat;
}.

(** The bytes of an error. *)
Definition error_object (obj : list Z) (e : ActionError) : Prop :=
  ∃ x, decode_error x = Some e ∧ read_as ActionError_ty 4 [] obj x ∧ Z.of_nat (length obj) < 2 ^ 62.

(** They are found in any buffer that begins with them. *)
Lemma error_object_read eb obj e : one_object eb obj → error_object obj e →
  ∃ mem x, GetError (Some eb) = Some (Some mem) ∧ view ActionError_ty mem [] = Some x
    ∧ decode_error x = Some e.
Proof.
  intros [_ Htail (ch & rest & Hch & Hdata & Hal)] (x & Hx & Hr & Hl).
  destruct (Extract_first eb ch obj rest ActionError_ty [] x Htail Hch Hdata Hal)
    as (nx & Hget & Hview); [lia|done|done|].
  exists (obj ++ rest), x. split_and!; [|done|done]. cbn [GetError]. by rewrite Hget.
Qed.

(** Failing at an action. *)
Lemma FailImpl_found b s pos mem next obj a t nested c :
  cleared b → Extract (ins s) pos (TAction d) [] = Some (Some (mem, next)) →
  take (length obj) mem = obj →
  read_as (TAction d) 4 [] obj (TVariant (ActionIDValue (action_id a)) (Some t)) →
  decode_action d (action_id a) t = Some a → action_driver a = d → action_id a ≠ SkipCyclesID →
  cause_fits nested c → aligned_cause c = false →
  Z.of_nat (length obj) + cause_size nested c < 2 ^ 61 →
  ∃ eb obj', FailImpl min_size (λ _, true) d b s pos (CauseMade nested c) = Some (Some eb)
    ∧ one_object eb obj' ∧ error_object obj' (mkActionError (Some a) c).
Proof.
  intros Hb Hex Ht Hread Hdec Hd Hskip Hfits Hal Hsize.
  assert (Hlen : Z.of_nat (length obj) ≤ Z.of_nat (length mem)).
  { apply (f_equal length) in Ht. rewrite length_take in Ht. lia. }
  destruct (cause_found nested c Hfits) as (v & Hargs & Hok & Hdc).
  pose proof (cause_size_nonneg nested c v Hargs Hok) as Hcs.
  destruct (Hread mem (Z.of_nat (length obj)) Ht) as [Hs Hv]; [lia|].
  assert (Hcopy : val_ok (Variant AnyActionV) [] (VCopy (driver_variant d) mem)).
  { eapply measured_copy; [exact Hs|lia|lia|exact Hv|]. rewrite <-Hd. by apply any_option. }
  destruct (EmplaceImpl_reads_back (error_written true (cause_option c)) ActionError_ty 4 []
              (VStruct [] [VOption (VCopy (driver_variant d) mem); VOption v]))
    as (W & HW & Hc & Hback);
    [by apply error_lays|done|apply algn_4|done| |].
  { split; [done|]. split; [by exists []|]. split; [by exists []|done]. }
  pose proof (error_size nested c v mem (Z.of_nat (length obj)) t W _ Hal Hargs ltac:(lia) Hs Hv Hc) as HWb.
  destruct (Emplace_cleared fresh_length min_size b (error_written true (cause_option c))
              (VStruct [] [VOption (VCopy (driver_variant d) mem); VOption v]) W
              (λ new, ∃ x, decode_error x = Some (mkActionError (Some a) c)
                 ∧ read_as ActionError_ty 4 [] new x) Hb)
    as (eb & ch & new & rest & Hem & (x & Hx & Hr) & Hl & Hf & Hch & Hdata & Htail & Hal');
    [rewrite error_alignment by done; apply algn_4|done|exact Hc| |].
  { intros pre old post Hold. destruct (Hback ltac:(lia) pre old post Hold) as (new & x & Hl & He & Hsh & Hr).
    exists new. split_and!; [done| |done]. exists x. split; [|done].
    destruct x as [| | |? [|[| | | |i [y|]] [|[| | | |k [z|]] [|]]]|]; cbn in Hsh; try tauto.
    destruct Hsh as (_ & (-> & Hy) & (-> & Hz) & _). unfold TAction in Hv.
    rewrite Hv in Hy. injection Hy as <-. cbn [decode_error]. rewrite (Hdc z Hz). cbn [mbind option_bind]. unfold decode_failed.
    change (0 =? 0) with true. rewrite visit_any_action; [done|done|by rewrite Hd]. }
  exists eb, new. split_and!; [|by split; eauto|exists x; split_and!; [done|done|lia]].
  unfold FailImpl. rewrite Hex. cbn [mbind option_bind option_map fst]. rewrite Hargs.
  cbn [mbind option_bind]. rewrite (error_args_known a mem t) by done. cbn [mbind option_bind].
  fold (cause_option c). rewrite Hem. cbn [mbind option_bind]. by rewrite Hf.
Qed.

Lemma decode_action_id d' id x a : decode_action d' id x = Some a → action_id a = id.
Proof. destruct d', id; cbn; try done; repeat case_match; try done; by intros [= <-]. Qed.

(** ... and what the accessors of the error then return. *)
Lemma error_accessors mem x a c :
  view ActionError_ty mem [] = Some x → decode_error x = Some (mkActionError (Some a) c) →
  FailedActionID mem = Some (ActionIDValue (action_id a))
  ∧ ∃ m xc, GetCause mem = Some m ∧ view (Variant CauseV) m [] = Some xc ∧ decode_cause xc = Some c.
Proof.
  intros Hv Hd. destruct (error_view mem x Hv) as (b & o0 & o1 & x0 & x1 & -> & Hg0 & Hv0 & Hg1 & Hv1).
  cbn in Hd. destruct x0 as [| | | |i [y|]]; try done.
  destruct (decode_cause x1) as [c'|] eqn:Hc; [|done]. cbn in Hd. injection Hd as Ha ->.
  split.
  2: { exists (skip o1 mem), x1. split_and!; [|done|done]. unfold GetCause. by rewrite Hg1. }
  unfold decode_failed in Ha. destruct (Z.eqb_spec i 0) as [->|]; [|done].
  destruct y as [| | | |id [y|]]; try done. cbn [visit_any] in Ha.
  destruct (dispatch any_actions id) as [aid|] eqn:Hid; [|done]. cbn [mbind option_bind] in Ha.
  destruct (owner aid) as [d'|]; [|done]. cbn [mbind option_bind] in Ha.
  apply decode_action_id in Ha as ->. apply find_some in Hid as [_ ->%Z.eqb_eq].
  destruct (view_variant _ _ _ _ Hv0) as (o & off & Hvis & Hy).
  apply Visit_Some in Hvis as (Hw & Ho & -> & _). cbn in Ho. injection Ho as <-.
  destruct (view_variant _ _ _ _ Hy) as (o' & off' & Hvis' & _). apply Visit_Some in Hvis' as (Hw' & _).
  unfold FailedActionID, As. rewrite Hg0. cbn [mbind option_bind]. rewrite Hw.
  cbn [mbind option_bind]. change (0 =? 1) with false. cbn [mbind option_bind]. exact Hw'.
Qed.
End errors.

(** An action of a transaction, by its index. *)
Lemma built_action `{ShiftUB} d s rs gi go l k a v vo p :
  built d s rs gi go l → rs !! k = Some (a, v, vo) → positions_from 0 gi !! k = Some p →
  ∃ obj rest, stands (ins s) p (obj :: rest) ∧ in_obj d a obj
    ∧ (length obj ≤ length (concat (concat gi)))%nat.
Proof.
  intros Hb Hk Hp. pose proof Hb as [_ _ Hoi _ Hobjs Hsh _].
  destruct (built_stores d s rs gi go l Hb) as [Hi _]; [by intros ->|].
  destruct (Forall2_lookup_l _ _ _ _ _ Hsh Hk) as ([a' x] & Hl & Ha & _). cbn in Ha. subst a'.
  pose proof (transaction_objs_drop d k _ _ _ Hobjs) as Hdrop. rewrite (drop_S _ _ _ Hl) in Hdrop.
  inversion Hdrop as [|? ? ? obj rest oo oos Hin Hout Hr Heq Hobj Hoo]. subst.
  exists obj, rest. split_and!; [|done|].
  - rewrite Hobj. by apply positions_stand.
  - rewrite <-(take_drop k (concat gi)), <-Hobj, concat_app, length_app. cbn [concat].
    rewrite length_app. lia.
Qed.

(** C18: what a driver fails a transaction with is what its client finds.  For an
    action of a transaction of any driver and any cause, nested errors included,
    [FailAt] stores an error, in a buffer that is new or was used before, from
    which [GetError] returns the action, its number and the cause.  Two cases are
    excluded by hypotheses: the action [SkipCycles] and the cause
    [CauseValueOutOfRange]. *)
Theorem error_roundtrip `{ShiftUB} `{FreshBytes} (min_size : nat) (d : DriverID)
    (s0 : TransactionStorage) (rs : list Request) (k : nat) (a : AnyAction) (v vo : val)
    (b : Buffer) (nested : list Z) (c : Cause)
    (Hfresh : ∀ n, length (fresh_bytes n) = n) (Hready : ready s0) (Hok : Forall (request_ok d) rs)
    (Hk : rs !! k = Some (a, v, vo)) (Hskip : action_id a ≠ SkipCyclesID)
    (Hb : cleared b) (Hc : cause_fits nested c) (Hal : aligned_cause c = false)
    (Hsize : total_request_size rs + cause_size nested c < 2 ^ 61) :
  ∃ ps s p eb error x, add_all min_size (λ _, true) s0 (add_args <$> rs) = Some (ps, s)
    ∧ ps !! k = Some p
    ∧ FailImpl min_size (λ _, true) d b s p.1 (CauseMade nested c) = Some (Some eb)
    ∧ GetError (Some eb) = Some (Some error) ∧ view ActionError_ty error [] = Some x
    ∧ decode_error x = Some (mkActionError (Some a) c)
    ∧ FailedActionID error = Some (ActionIDValue (action_id a))
    ∧ ∃ m xc, GetCause error = Some m ∧ view (Variant CauseV) m [] = Some xc
        ∧ decode_cause xc = Some c.
Proof.
  destruct (cause_found nested c Hc) as (cv & Hargs & Hcok & _).
  pose proof (cause_size_nonneg nested c cv Hargs Hcok) as Hcs.
  destruct (add_all_built Hfresh min_size d s0 [] [] [] [] rs (ready_built d s0 Hready) Hok)
    as (ps & s & gi & go & l & Hall & Hbuilt & Hpi & _); [cbn [app]; lia|].
  cbn [app positions_from] in *. pose proof (built_size _ _ _ _ _ _ Hbuilt) as Hsz.
  assert (Hlps : length ps = length rs).
  { rewrite (built_length _ _ _ _ _ _ Hbuilt), <-(length_positions_from 0), Hpi. symmetry. apply length_fmap. }
  assert (Hp : is_Some (ps !! k)).
  { apply lookup_lt_is_Some. rewrite Hlps. by eapply lookup_lt_Some. }
  destruct Hp as [p Hp].
  destruct (built_stores d s rs gi go l Hbuilt) as [Hi _]; [by intros ->|].
  destruct (built_action d s rs gi go l k a v vo p.1 Hbuilt Hk) as (obj & rest & Hst & Hin & Hlen).
  { rewrite Hpi, list_lookup_fmap. exact (f_equal (fmap fst) Hp). }
  destruct Hin as [Hd _ (t & Hdec & _ & Hread)].
  destruct (Extract_stands (ins s) gi p.1 obj rest (TAction d) [] _ Hi
              ltac:(lia) Hst ltac:(by destruct d) Hread) as (mem & next & Hex & _ & _ & Ht & _).
  destruct (FailImpl_found Hfresh min_size d b s p.1 mem next obj a t nested c)
    as (eb & obj' & Hfail & Hone & Herr); [done..|lia|].
  destruct (error_object_read eb obj' _ Hone Herr) as (error & x & Hget & Hview & Hde).
  exists ps, s, p, eb, error, x. destruct (error_accessors error x a c Hview Hde) as [Hid Hcause].
  by split_and!.
Qed.

(** ** [Error]: failures outside of transactions *)

(** The constructor from a buffer does not initialise the flag, which then has
    any value. *)
Class Indeterminate := indeterminate : bool.

Record Error := mkError { m_failed_to_allocate_buffer : bool; m_buffer : option Buffer }.

Definition Success : Error := mkError false None.

(** [operator bool]. *)
Definition is_error (e : Error) : bool :=
  m_failed_to_allocate_buffer e || bool_decide (is_Some (m_buffer e)).

Section error_class.
Context `{ShiftUB} `{FreshBytes} `{Indeterminate} (t_min_chunk_size : nat) (alloc : nat → bool).

Definition of_buffer (b : Buffer) : Error :=
  if m_had_allocation_failure b then mkError true None else mkError indeterminate (Some b).

Definition Make (nested : list Z) (c : Cause) : option Error :=
  v ← cause_args nested c;
  '(_, b) ← Emplace t_min_chunk_size alloc empty_buffer (cause_option c) (VOption v);
  Some (of_buffer b).

(** An error that has no buffer is a fault. *)
Definition Copy (from : Error) : option Error :=
  if m_failed_to_allocate_buffer from then Some (mkError true None) else
  b ← m_buffer from;
  '(_, b) ← emplace_all t_min_chunk_size alloc empty_buffer (ForEachChunk b);
  Some (of_buffer b).

(** [Error::GetCause]: the memory of the cause, or a null pointer. *)
Definition ErrorCause (e : Error) : option (option (list Z)) :=
  match m_buffer e with
  | None => Some None
  | Some b => mem ← Get_at b (Begin b); Some (Some mem)
  end.

(** A reader of the error finds the cause. *)
Definition tells (e : Error) (c : Cause) : Prop :=
  is_error e = true ∧ ∃ mem x, ErrorCause e = Some (Some mem)
    ∧ view (Variant CauseV) mem [] = Some x ∧ decode_cause x = Some c.
End error_class.

Section error_class_lemmas.
Context `{ShiftUB} `{FreshBytes} `{Indeterminate} (fresh_length : ∀ n, length (fresh_bytes n) = n).
Context (min_size : nat).

Lemma emplace_cleared b bytes :
  cleared b → ∃ b', emplace min_size (λ _, true) b bytes = Some ((Some 0%nat, g_initial_offset), b')
    ∧ one_object b' bytes.
Proof.
  intros Hb. unfold emplace.
  destruct (Allocate_cleared min_size b (length bytes) fresh_length Hb) as (c & cs & -> & Hal & Hroom).
  cbn [mbind option_bind]. eexists. split; [done|]. split; [done|done|].
  eexists _, _. split_and!; [done| |done]. cbn [data]. by rewrite Nat.sub_diag.
Qed.

Lemma one_object_ForEachChunk b obj : one_object b obj → ForEachChunk b = [obj].
Proof.
  intros [_ Ht (c & rest & Hc & Hd & Ha)]. unfold ForEachChunk. rewrite Ht.
  destruct (chunks b) as [|c' cs]; [done|]. cbn in Hc. injection Hc as ->. cbn.
  rewrite take_0. cbn. rewrite Hd, Ha, Nat.add_comm, Nat.add_sub, take_app_length. done.
Qed.

Lemma one_object_tells b obj x c :
  one_object b obj → Z.of_nat (length obj) < 2 ^ 63 → read_as (Variant CauseV) 4 [] obj x →
  decode_cause x = Some c → tells (mkError indeterminate (Some b)) c.
Proof.
  intros [_ Ht (ch & rest & Hc & Hd & _)] Hl Hr Hx. split; [by destruct indeterminate|].
  exists (obj ++ rest), x. unfold ErrorCause, Get_at, Begin. cbn [m_buffer]. rewrite Ht.
  cbn [fst snd mbind option_bind]. rewrite Hc. cbn [mbind option_bind].
  rewrite Nat.sub_diag, drop_0, Hd. split_and!; [done| |done].
  apply (Hr _ (Z.of_nat (length obj))); [by rewrite take_app_length|lia].
Qed.

Lemma Make_one nested c :
  cause_fits nested c → cause_size nested c < 2 ^ 62 →
  ∃ b obj x, Make min_size (λ _, true) nested c = Some (mkError indeterminate (Some b))
    ∧ one_object b obj ∧ Z.of_nat (length obj) < 2 ^ 62
    ∧ read_as (Variant CauseV) 4 [] obj x ∧ decode_cause x = Some c.
Proof.
  intros Hf Hsize. destruct (cause_found nested c Hf) as (v & Hargs & Hok & Hdc).
  unfold cause_size in Hsize. rewrite Hargs in Hsize. cbn [mbind option_bind] in Hsize.
  destruct (EmplaceImpl_reads_back (cause_option c) (Variant CauseV) 4 [] (VOption v))
    as (W & HW & Hc & Hback); [apply cause_lays|done|apply algn_4|done|done|].
  rewrite Hc in Hsize. change (default 0 (Some W)) with W in Hsize.
  destruct (Emplace_cleared fresh_length min_size empty_buffer (cause_option c) (VOption v) W
              (λ new, ∃ x, decode_cause x = Some c ∧ read_as (Variant CauseV) 4 [] new x)
              empty_cleared)
    as (b & ch & new & rest & Hem & (x & Hx & Hr) & Hl & Hfail & Hch & Hdata & Htail & Hal);
    [by destruct c as [ | | |[]| | | | | | | | | | | | | ]; (apply algn_4 || by split; [exists 3|])|done|done| |].
  { intros pre old post Hold. destruct (Hback Hsize pre old post Hold) as (new & x & Hl & He & Hsh & Hr).
    exists new. split_and!; [done| |done]. exists x. split; [|done].
    destruct x as [| | | |k [z|]]; cbn in Hsh; try tauto. destruct Hsh as [-> Hz]. by apply Hdc. }
  exists b, new, x. split_and!; [|split; [done|done|eauto]|lia|done|done].
  unfold Make. rewrite Hargs. cbn [mbind option_bind]. rewrite Hem. cbn [mbind option_bind].
  unfold of_buffer. by rewrite Hfail.
Qed.
End error_class_lemmas.

(** Every cause that an [Error] is made from is found in it, whatever the
    uninitialised flag holds; a copy of the error tells the same cause only if the
    flag happens to be false, and otherwise none. *)
Theorem error_copy `{ShiftUB} `{FreshBytes} `{Indeterminate} (min_size : nat) (nested : list Z)
    (c : Cause)
    (Hfresh : ∀ n, length (fresh_bytes n) = n) (Hc : cause_fits nested c)
    (Hsize : cause_size nested c < 2 ^ 62) :
  ∃ e e', Make min_size (λ _, true) nested c = Some e ∧ tells e c
    ∧ Copy min_size (λ _, true) e = Some e' ∧ is_error e' = true
    ∧ if indeterminate then ErrorCause e' = Some None else tells e' c.
Proof.
  destruct (Make_one Hfresh min_size nested c Hc Hsize) as (b & obj & x & Hm & Hone & Hl & Hr & Hx).
  destruct (emplace_cleared Hfresh min_size empty_buffer obj empty_cleared) as (b' & Hem & Hone').
  pose proof (one_object_tells b obj x c Hone ltac:(lia) Hr Hx) as Ht.
  pose proof (one_object_tells b' obj x c Hone' ltac:(lia) Hr Hx) as Ht'.
  exists (mkError indeterminate (Some b)). unfold Copy. destruct indeterminate eqn:Hi.
  - by exists (mkError true None).
  - exists (mkError false (Some b')). split_and!; try done.
    cbn [m_failed_to_allocate_buffer m_buffer mbind option_bind].
    rewrite (one_object_ForEachChunk b obj Hone). cbn [emplace_all]. rewrite Hem.
    cbn [mbind option_bind]. unfold of_buffer. by rewrite (one_failure _ _ Hone'), Hi.
Qed.

(** ** Errors that are not found *)

#[local] Existing Instance ub_ones.
#[local] Existing Instance zero_bytes.

(** The error of a transaction with one action. *)
Definition failed_with (d : DriverID) (r : Request) (c : CauseArg) : option (option Buffer) :=
  '(_, s) ← add_all 1024 (λ _, true) empty_storage [add_args r];
  FailImpl 1024 (λ _, true) d empty_buffer s (Begin (ins s)) c.

Definition read_dmi : Request := (AnyRVDTM (RVReadDMI 5), VPlain (word 5), VPlain (word 0)).
Definition skip_cycles : Request := (AnyRVDTM (RVSkipCycles 1000), VPlain (word 1000), VPlain []).

(** The result of a computation as a witness. *)
Ltac provide e :=
  let r := eval vm_compute in e in match r with Some (Some ?x) => exists x end.

(** Three errors that clients do not find.  [CauseValueOutOfRange] is aligned
    to 8 bytes where it is written and to 4 where it is read, so that behind a
    [RVReadDMI] the cause is written at offset 16 and looked for at offset 12.  A
    failed [SkipCycles] is copied as the [WriteBytes] that has the same number, its
    cycles then count as bytes, and the whole error is missing.  A failure at an
    action with no cause to copy leaves an error buffer behind in which [GetError]
    follows a null pointer. *)
Theorem error_lost :
  (∃ eb error m, failed_with IDRVDTM read_dmi (CauseMade [] (CauseValueOutOfRange "idle" 9 0 7))
       = Some (Some eb)
     ∧ GetError (Some eb) = Some (Some error)
     ∧ FailedActionID error = Some (ActionIDValue RVReadDMIID)
     ∧ read_word error 16 = Some 16
     ∧ Get 1 ActionError_ty error [] = Some (12, Variant CauseV)
     ∧ GetCause error = Some m ∧ As 16 (named 24 8) m = Some None)
  ∧ (∃ eb, failed_with IDRVDTM skip_cycles (CauseMade [] CauseTargetError) = Some (Some eb)
     ∧ GetError (Some eb) = Some None)
  ∧ (∃ eb, failed_with IDRVDTM read_dmi CauseMissing = Some (Some eb)
     ∧ GetError (Some eb) = None).
Proof.
  split_and!.
  - provide (failed_with IDRVDTM read_dmi (CauseMade [] (CauseValueOutOfRange "idle" 9 0 7))).
    match goal with |- context [GetError ?b] => provide (GetError b) end.
    match goal with |- context [FailedActionID ?e] => let r := eval vm_compute in (GetCause e) in
      match r with Some ?m => exists m end end.
    split_and!; vm_compute; reflexivity.
  - provide (failed_with IDRVDTM skip_cycles (CauseMade [] CauseTargetError)).
    split; vm_compute; reflexivity.
  - provide (failed_with IDRVDTM read_dmi CauseMissing). split; vm_compute; reflexivity.
Qed.

Lemma error_roundtrip_witness :
  total_request_size [read_dmi] + cause_size [] (CauseErrno "read" (-1) 5) < 2 ^ 61
  ∧ ∃ ps s p eb error x,
    add_all 1024 (λ _, true) empty_storage (add_args <$> [read_dmi]) = Some (ps, s)
    ∧ ps !! 0%nat = Some p
    ∧ FailImpl 1024 (λ _, true) IDRVDTM empty_buffer s p.1 (CauseMade [] (CauseErrno "read" (-1) 5))
      = Some (Some eb)
    ∧ GetError (Some eb) = Some (Some error) ∧ view ActionError_ty error [] = Some x
    ∧ decode_error x
      = Some (mkActionError (Some (AnyRVDTM (RVReadDMI 5))) (CauseErrno "read" (-1) 5))
    ∧ FailedActionID error = Some (ActionIDValue RVReadDMIID)
    ∧ ∃ m xc, GetCause error = Some m ∧ view (Variant CauseV) m [] = Some xc
        ∧ decode_cause xc = Some (CauseErrno "read" (-1) 5).
Proof.
  split; [vm_compute; reflexivity|].
  apply (error_roundtrip 1024 IDRVDTM empty_storage [read_dmi] 0 (AnyRVDTM (RVReadDMI 5)) (VPlain (word 5))
           (VPlain (word 0)) empty_buffer [] (CauseErrno "read" (-1) 5));
    [apply zero_bytes_length|apply empty_ready| |reflexivity|discriminate|apply empty_cleared| |
     reflexivity|vm_compute; reflexivity].
  - repeat constructor; vm_compute; congruence.
  - repeat split; vm_compute; congruence.
Defined.

Lemma error_copy_witness :
  let i : Indeterminate := false in
  let c := CauseValueOutOfRange "idle" 9 0 7 in
  cause_size [] c < 2 ^ 62
  ∧ ∃ e e', Make 1024 (λ _, true) [] c = Some e ∧ tells e c
    ∧ Copy 1024 (λ _, true) e = Some e' ∧ is_error e' = true
    ∧ if indeterminate then ErrorCause e' = Some None else tells e' c.
Proof.
  intros i c. split; [vm_compute; reflexivity|].
  apply (error_copy 1024 [] c); [apply zero_bytes_length| |vm_compute; reflexivity].
  repeat split; vm_compute; congruence.
Defined.
