(* ===== verification/Tunnel.v ===== *)
(** * Tunnel: drivers at the other end of a byte stream
    ([src/src/libedr/tunnel/ByteStreamTunnel.cpp], [ByteStreamTunnel.h]).

    Two tunnels face each other.  Each tells the other which drivers it has,
    forwards the transactions of its clients as packets and answers those that it
    receives.  What comes in is a list of bytes; how many of them a read delivers,
    and whether it fails, is a parameter ([Delivery]): one call of [Read] serves a
    [ReadBytes], and a call that delivers less than it was asked for counts as done.
    What is written is the list of bytes in the order of the writes, as [ByteStream]
    proves of a working stream.  The maps by index have
    consecutive indices and are lists, the map of pending transactions is a
    [gmap], as [BucketArrayMap] allows.

    A transaction that waits for its answer is shared by the coroutine and the
    map: it is kept in the map, and handed back when it is resolved. *)
From S2P Require Import Prelude BitStream Actions TransactionBuffer VSS ActionLayout Storage Errors.
From stdpp Require Import gmap.
Local Open Scope Z_scope.
Local Open Scope list_scope.

Definition g_max_length : Z := 2 ^ 32 - 1.

(** ** Packets *)

Module Packet.
Definition DefineDriver : Z := 1.
Definition FinishedDefiningDrivers : Z := 2.
Definition Request : Z := 3.
Definition Response : Z := 4.
End Packet.

Record DefineDriverHeader := mkDefineDriver { driver_id : Z; driver_name_length : Z }.

Record RequestHeader := mkRequestHeader {
  driver_index : Z;
  transaction_key : Z;
  input_length : Z;
  output_length : Z;
}.

Record ResponseHeader := mkResponseHeader {
  response_key : Z;
  first_incomplete_input_offset : Z;
  first_incomplete_output_offset : Z;
  error_length : Z;
}.

(** [ToBytes] and [FromBytes]: the bytes of a structure of words; the [assert]
    that there are enough of them is a [None]. *)
Class Wire (A : Type) := {
  ToBytes : A → list Z;
  FromBytes : list Z → option A;
}.

#[export] Instance wire_id : Wire Z := {
  ToBytes := word;
  FromBytes b := read_word b 0;
}.

#[export] Instance wire_define : Wire DefineDriverHeader := {
  ToBytes h := word (driver_id h) ++ word (driver_name_length h);
  FromBytes b := x ← read_word b 0; y ← read_word b 4; Some (mkDefineDriver x y);
}.

#[export] Instance wire_request : Wire RequestHeader := {
  ToBytes h := word (driver_index h) ++ word (transaction_key h)
                 ++ word (input_length h) ++ word (output_length h);
  FromBytes b := x ← read_word b 0; y ← read_word b 4; z ← read_word b 8; w ← read_word b 12;
                 Some (mkRequestHeader x y z w);
}.

#[export] Instance wire_response : Wire ResponseHeader := {
  ToBytes h := word (response_key h) ++ word (first_incomplete_input_offset h)
                 ++ word (first_incomplete_output_offset h) ++ word (error_length h);
  FromBytes b := x ← read_word b 0; y ← read_word b 4; z ← read_word b 8; w ← read_word b 12;
                 Some (mkResponseHeader x y z w);
}.

(** The stream: how many bytes a read of [n] bytes delivers when it still has
    [input], [None] if it fails; and the bytes that the memory for the result of the
    read holds before. *)
Class Delivery := {
  deliver : Z → list Z → option nat;
  stale : list Z → nat → Z;
}.

(** [ReadBytes]: what [Span] gives, [num_read] bytes, and what the stream has left. *)
Definition receive `{Delivery} (n : Z) (input : list Z) : option (list Z * list Z) :=
  num_read ← deliver n input;
  let num_read := Nat.min num_read (Nat.min (Z.to_nat n) (length input)) in
  Some (take num_read input, drop num_read input).

(** [Data]: the memory of the result, [n] bytes, whatever was delivered. *)
Definition result_memory (n : nat) (bytes : list Z) (old : nat → Z) : list Z :=
  bytes ++ ((λ i, wrap 8 (old i)) <$> seq (length bytes) (n - length bytes)).

(** Reads that deliver all they are asked for when it is there. *)
Class WholeReads `{Delivery} : Prop :=
  whole_read n input : 0 < n ≤ Z.of_nat (length input) → deliver n input = Some (Z.to_nat n).

(** A stream that delivers whole or fails. *)
Definition whole_delivery : Delivery := {|
  deliver n input := if n <=? Z.of_nat (length input) then Some (Z.to_nat n) else None;
  stale _ _ := 0;
|}.

Lemma whole_delivery_whole : @WholeReads whole_delivery.
Proof. intros n input Hn. cbn. by destruct (Z.leb_spec n (Z.of_nat (length input))); [|lia]. Qed.

(** ** The tunnel *)

Record RemoteDriver := mkDriver { GetID : DriverID; GetName : list Z }.

(** What the map refers to while a transaction is away. *)
Record PendingTransaction := mkPending {
  storage : TransactionStorage;
  error_buffer : option Buffer;
  first_incomplete : ActionPosition;
}.

Record Tunnel := mkTunnel {
  m_my_drivers : list RemoteDriver;
  m_remote_drivers : list RemoteDriver;
  m_free_keys : list Z;
  m_next_key : Z;
  m_pending_transactions : gmap Z PendingTransaction;
  m_is_alive : bool;
}.

Definition set_remote (t : Tunnel) (l : list RemoteDriver) : Tunnel :=
  mkTunnel (m_my_drivers t) l (m_free_keys t) (m_next_key t) (m_pending_transactions t) (m_is_alive t).

Definition set_keys (t : Tunnel) (free : list Z) (next : Z) (pending : gmap Z PendingTransaction)
    : Tunnel :=
  mkTunnel (m_my_drivers t) (m_remote_drivers t) free next pending (m_is_alive t).

Definition set_alive (t : Tunnel) (alive : bool) : Tunnel :=
  mkTunnel (m_my_drivers t) (m_remote_drivers t) (m_free_keys t) (m_next_key t)
    (m_pending_transactions t) alive.

Definition empty_tunnel : Tunnel := mkTunnel [] [] [] 0 ∅ false.

(** Why a handshake or the event loop ends. *)
Inductive TunnelError :=
| StreamFailed
| AllocationFailed
| UnrecognizedDriver (id : Z)
| UnexpectedPacket (id : Z).

(** *** Handshake *)

(** [allocated] says whether the map can take the driver. *)
Definition RegisterDriver (t : Tunnel) (d : RemoteDriver) (allocated : bool) : bool * Tunnel :=
  if allocated
  then (true, mkTunnel (m_my_drivers t ++ [d]) (m_remote_drivers t) (m_free_keys t) (m_next_key t)
                (m_pending_transactions t) (m_is_alive t))
  else (false, t).

(** What the handshake writes: [std::min<LengthType>] first reduces the size to
    32 bits. *)
Definition define_driver (d : RemoteDriver) : list Z :=
  let name_length := Z.min g_max_length u32[Z.of_nat (length (GetName d))] in
  ToBytes Packet.DefineDriver
    ++ ToBytes (mkDefineDriver (ActionOffset (GetID d)) name_length)
    ++ take (Z.to_nat name_length) (GetName d).

Definition DefineMyDrivers (t : Tunnel) : list Z :=
  concat (define_driver <$> m_my_drivers t) ++ ToBytes Packet.FinishedDefiningDrivers.

Section handshake.
Context `{Delivery}.
(** Whether there is memory for the name and for the driver with an index. *)
Context (alloc_name alloc_driver : nat → bool).

(** One definition, behind its packet ID. *)
Definition DefineRemote (remote : list RemoteDriver) (input : list Z)
    : option (TunnelError + list RemoteDriver * list Z) :=
  match receive 8 input with
  | None => Some (inl StreamFailed)
  | Some (bytes, input) =>
      header ← FromBytes bytes;
      match receive (driver_name_length header) input with
      | None => Some (inl StreamFailed)
      | Some (name, input) =>
          if negb (alloc_name (length remote)) then Some (inl AllocationFailed) else
          match driver_of_value (driver_id header) with
          | None => Some (inl (UnrecognizedDriver (driver_id header)))
          | Some id =>
              if negb (alloc_driver (length remote)) then Some (inl AllocationFailed)
              else Some (inr (remote ++ [mkDriver id name], input))
          end
      end
  end.

(** The loop of [Handshake]; [None] is the lack of fuel or a failed [assert]. *)
Fixpoint HandshakeLoop (fuel : nat) (remote : list RemoteDriver) (input : list Z)
    : option (list RemoteDriver * (TunnelError + list Z)) :=
  match fuel with
  | O => None
  | S fuel =>
      match receive 4 input with
      | None => Some (remote, inl StreamFailed)
      | Some (bytes, input) =>
          id ← FromBytes bytes;
          if id =? Packet.FinishedDefiningDrivers then Some (remote, inr input) else
          if id =? Packet.DefineDriver then
            r ← DefineRemote remote input;
            match r with
            | inl e => Some (remote, inl e)
            | inr (remote, input) => HandshakeLoop fuel remote input
            end
          else Some (remote, inl (UnexpectedPacket id))
      end
  end.

(** [written] says whether the stream took the definitions.  At the end the
    event loop is started. *)
Definition Handshake (t : Tunnel) (written : bool) (input : list Z)
    : option (Tunnel * (TunnelError + list Z)) :=
  if negb written then Some (t, inl StreamFailed) else
  '(remote, r) ← HandshakeLoop (S (length input)) (m_remote_drivers t) input;
  let t := set_remote t remote in
  Some (match r with inl _ => t | inr _ => set_alive t true end, r).
End handshake.

(** [FindByName<TDriver>(name)]: the index of the driver. *)
Definition FindByName (t : Tunnel) (id : DriverID) (name : list Z) : option nat :=
  fst <$> list_find (λ d, GetID d = id ∧ GetName d = name) (m_remote_drivers t).

(** *** The side of the client *)

(** The key of a new transaction; [allocated] says whether the map can take it.
    If not, the key is lost. *)
Definition ScheduleRemoteTransaction (t : Tunnel) (tx : PendingTransaction) (allocated : bool)
    : option Z * Tunnel :=
  let '(key, free, next) :=
    match m_free_keys t with
    | key :: free => (key, free, m_next_key t)
    | [] => (m_next_key t, [], u32[m_next_key t + 1])
    end in
  if allocated
  then (Some key, set_keys t free next (<[key := tx]> (m_pending_transactions t)))
  else (None, set_keys t free next (m_pending_transactions t)).

Definition chunks_length (b : Buffer) : Z :=
  foldl (λ n bytes, n + Z.of_nat (length bytes)) 0 (ForEachChunk b).

Inductive ExecuteError := InputTooLong | OutputTooLong | NoPendingSlot | WriteFailed.

(** [TunneledDriver::Execute] up to the answer: the key that it waits for and the
    bytes that it writes, or the failure.  [written] says whether the stream took
    them. *)
Definition request_bytes (index key : Z) (tx : PendingTransaction) : list Z :=
  ToBytes Packet.Request
    ++ ToBytes (mkRequestHeader index key (chunks_length (ins (storage tx)))
                  (chunks_length (outs (storage tx))))
    ++ concat (ForEachChunk (ins (storage tx))).

Definition Execute (t : Tunnel) (index : Z) (tx : PendingTransaction) (allocated written : bool)
    : (ExecuteError + Z * list Z) * Tunnel :=
  if g_max_length <? chunks_length (ins (storage tx)) then (inl InputTooLong, t) else
  if g_max_length <? chunks_length (outs (storage tx)) then (inl OutputTooLong, t) else
  match ScheduleRemoteTransaction t tx allocated with
  | (None, t) => (inl NoPendingSlot, t)
  | (Some key, t) =>
      if written then (inr (key, request_bytes index key tx), t)
      else (inl WriteFailed,
            set_keys t (key :: m_free_keys t) (m_next_key t) (delete key (m_pending_transactions t)))
  end.

(** The loop that copies an output over the chunks of a buffer. *)
Fixpoint copy_chunks (cs : list Chunk) (output : list Z) : list Chunk :=
  match cs with
  | [] => []
  | c :: cs =>
      let to_copy := Nat.min (allocated c - g_initial_offset) (length output) in
      mkChunk (total_size c) (allocated c) (splice 0 (take to_copy output) (data c))
        :: copy_chunks cs (drop to_copy output)
  end.

Definition copy_output (b : Buffer) (output : list Z) : Buffer :=
  match m_tail b with
  | None => b
  | Some tail =>
      mkBuffer (copy_chunks (take (S tail) (chunks b)) output ++ drop (S tail) (chunks b))
        (m_tail b) (TransactionBuffer.m_offset b) (m_had_allocation_failure b)
  end.

Definition from_distance (b : Buffer) (distance : Z) : option Position :=
  '(i, o) ← FromDistance b distance; Some (i, Z.to_nat o).

Section answers.
Context `{FreshBytes} `{Delivery} (t_min_chunk_size : nat) (alloc : nat → bool).

(** The error that came with an answer, in a buffer from the pool. *)
Definition receive_error (pool : Buffer) (bytes : list Z) : option (option Buffer) :=
  '(pos, ok, b) ← Allocate t_min_chunk_size alloc pool (length bytes);
  Some (if (ok : bool) then Some (store b pos bytes) else None).

(** The boundary of the transaction is moved as soon as the header is there. *)
Definition move_boundary (h : ResponseHeader) (p : PendingTransaction) : option PendingTransaction :=
  i ← from_distance (ins (storage p)) (first_incomplete_input_offset h);
  o ← from_distance (outs (storage p)) (first_incomplete_output_offset h);
  Some (mkPending (storage p) (error_buffer p) (i, o)).

(** The output and the error are filled in when they have arrived. *)
Definition fill_in (pool : Buffer) (h : ResponseHeader) (output error : list Z)
    (p : PendingTransaction) : option PendingTransaction :=
  e ← (if error_length h =? 0 then Some (error_buffer p) else receive_error pool error);
  Some (mkPending
          (mkStorage (ins (storage p))
             (if first_incomplete_output_offset h =? 0 then outs (storage p)
              else copy_output (outs (storage p)) output))
          e (first_incomplete p)).

(** Events: a transaction is handed to a driver, bytes are written, a transaction
    of a client is resolved without or with an error, a driver is terminated. *)
Inductive Event :=
| Forwarded (d : RemoteDriver) (key : Z) (s : TransactionStorage)
| Wrote (bytes : list Z)
| Resolved (key : Z) (p : PendingTransaction)
| Aborted (key : Z) (p : PendingTransaction) (e : TunnelError)
| Terminated (d : RemoteDriver).

(** A handler returns the tunnel, the events and the bytes that are left, or an
    error. *)
Definition Handled : Type := Tunnel * list Event * (TunnelError + list Z).

(** [xact.Add<ReadBytes>]: the output and the error, each if there is one. *)
Definition receive_if (n : Z) (input : list Z) : option (list Z * list Z) :=
  if n =? 0 then Some ([], input) else receive n input.

Definition receive2 (n m : Z) (input : list Z) : option (list Z * list Z * list Z) :=
  '(x, input) ← receive_if n input; '(y, input) ← receive_if m input; Some (x, y, input).

Definition HandleResponse (t : Tunnel) (pool : Buffer) (h : ResponseHeader) (input : list Z)
    : option Handled :=
  let key := response_key h in
  pending ← (match m_pending_transactions t !! key with
             | None => Some None
             | Some p => p ← move_boundary h p; Some (Some p)
             end);
  let t := match pending with
           | None => t
           | Some p => set_keys t (m_free_keys t) (m_next_key t) (<[key := p]> (m_pending_transactions t))
           end in
  match receive2 (first_incomplete_output_offset h) (error_length h) input with
  | None => Some (t, [], inl StreamFailed)
  | Some (output, error, input) =>
      match pending with
      | None => Some (t, [], inr input)
      | Some p =>
          p ← fill_in pool h output error p;
          Some (set_keys t (key :: m_free_keys t) (m_next_key t) (delete key (m_pending_transactions t)),
                [Resolved key p], inr input)
      end
  end.

(** *** The side of the driver *)

(** [AbortTransaction] writes the header of a response, and no packet ID. *)
Definition AbortTransaction (t : Tunnel) (key : Z) (written : bool) (input : list Z) : Handled :=
  if written
  then (t, [Wrote (ToBytes (mkResponseHeader key 0 0 0))], inr input)
  else (t, [], inl StreamFailed).

(** [ForwardRequest]: one chunk takes all the inputs, another one the outputs. *)
Definition remote_storage (pool : Buffer) (inputs : list Z) (output_length : Z)
    : option TransactionStorage :=
  '(_, ins) ← emplace t_min_chunk_size alloc pool inputs;
  '(_, _, outs) ← Allocate t_min_chunk_size alloc pool (Z.to_nat output_length);
  Some (mkStorage ins outs).

(** [frame] says whether there is memory for the frame of [DetachRequest],
    [written] whether the stream takes an answer at once. *)
Definition HandleRequest (t : Tunnel) (pool : Buffer) (frame written : bool) (h : RequestHeader)
    (input : list Z) : option Handled :=
  match receive (input_length h) input with
  | None => Some (t, [], inl StreamFailed)
  | Some (inputs, input) =>
      match m_my_drivers t !! Z.to_nat (driver_index h) with
      | None => Some (AbortTransaction t (transaction_key h) written input)
      | Some d =>
          s ← remote_storage pool inputs (output_length h);
          Some (if frame then (t, [Forwarded d (transaction_key h) s], inr input)
                else AbortTransaction t (transaction_key h) written input)
      end
  end.

(** The bytes of the outputs up to the first incomplete action. *)
Fixpoint write_outputs (cs : list (list Z)) (output_left : nat) : list (list Z) :=
  match cs with
  | [] => []
  | bytes :: cs =>
      let to_write := Nat.min (length bytes) output_left in
      (if (to_write =? 0)%nat then [] else [take to_write bytes])
        ++ write_outputs cs (output_left - to_write)
  end.

(** [DetachRequest]: the answer, when the driver is done. *)
Definition DetachRequest (key : Z) (status : PendingTransaction) : list Z :=
  let input_offset := Distance (ins (storage status)) (first_incomplete status).1 in
  let output_offset := Distance (outs (storage status)) (first_incomplete status).2 in
  let '(input_offset, output_offset) :=
    if (g_max_length <? input_offset) || (g_max_length <? output_offset)
    then (0, 0) else (input_offset, output_offset) in
  let error_chunks := match error_buffer status with Some b => ForEachChunk b | None => [] end in
  let error_length := foldl (λ n bytes, n + Z.of_nat (length bytes)) 0 error_chunks in
  let error_length := if g_max_length <? error_length then 0 else error_length in
  ToBytes Packet.Response
    ++ ToBytes (mkResponseHeader key input_offset output_offset error_length)
    ++ concat (write_outputs (ForEachChunk (outs (storage status))) (Z.to_nat output_offset))
    ++ (if error_length =? 0 then [] else concat error_chunks).

(** *** The event loop *)

Context (pool : Buffer) (frame written : Z → bool).

(** One packet: the [assert] is on the bytes delivered, the header is read from the
    memory of the result. *)
Definition HandlePacket (t : Tunnel) (input : list Z) : option Handled :=
  match receive 20 input with
  | None => Some (t, [], inl StreamFailed)
  | Some (bytes, rest) =>
      packet_id ← FromBytes bytes;
      let header := drop 4 (result_memory 20 bytes (stale input)) in
      let input := rest in
      if packet_id =? Packet.Request then
        h ← FromBytes header;
        HandleRequest t pool (frame (transaction_key h)) (written (transaction_key h)) h input
      else if packet_id =? Packet.Response then
        h ← FromBytes header;
        HandleResponse t pool h input
      else Some (t, [], inl (UnexpectedPacket packet_id))
  end.

(** [AbortAll]: the transactions stay in the map. *)
Definition AbortAll (t : Tunnel) (e : TunnelError) : list Event :=
  (λ '(key, p), Aborted key p e) <$> map_to_list (m_pending_transactions t).

Definition WakeUpExecutionGates (t : Tunnel) : list Event :=
  Terminated <$> filter (λ d, GetID d = IDExecutionGate) (m_my_drivers t).

Fixpoint EventLoop (fuel : nat) (t : Tunnel) (input : list Z)
    : option (Tunnel * list Event * TunnelError) :=
  match fuel with
  | O => None
  | S fuel =>
      '(t, events, r) ← HandlePacket t input;
      match r with
      | inl e => Some (set_alive t false, events ++ AbortAll t e ++ WakeUpExecutionGates t, e)
      | inr input => '(t, events', e) ← EventLoop fuel t input; Some (t, events ++ events', e)
      end
  end.
End answers.

(** [TransactionStatus::operator bool]. *)
Definition status_ok (p : PendingTransaction) : bool :=
  negb (HadAllocationFailure (storage p))
  && bool_decide ((first_incomplete p).1 = End (ins (storage p))).

(** The end of [Execute]: [tx.Fail(error.GetCause())] when the transaction was
    aborted. *)
Definition Execute_end `{ShiftUB} `{FreshBytes} (t_min_chunk_size : nat) (alloc : nat → bool)
    (d : DriverID) (pool : Buffer) (p : PendingTransaction) (error : option CauseArg)
    : option PendingTransaction :=
  match error with
  | None | Some CauseMissing => Some p
  | Some cause =>
      if status_ok p then Some p else
      e ← FailImpl t_min_chunk_size alloc d pool (storage p) (first_incomplete p).1 cause;
      Some (mkPending (storage p) e (first_incomplete p))
  end.

(** ** Packets are read as they were written *)

Lemma read_word_at pre x post :
  small x → read_word (pre ++ word x ++ post) (length pre) = Some x.
Proof.
  intros Hx. unfold read_word. rewrite drop_app_length, take_app_length' by (by rewrite length_word).
  rewrite length_word. cbn. unfold word. by rewrite le_z_word.
Qed.

(** What is read from the bytes of a structure whose fields fit. *)
Class WireLaws (A : Type) `{Wire A} (wire_size : nat) (fits : A → Prop) := {
  length_ToBytes x : length (ToBytes x) = wire_size;
  FromBytes_ToBytes x rest : fits x → FromBytes (ToBytes x ++ rest) = Some x;
  FromBytes_total bytes : (wire_size ≤ length bytes)%nat → ∃ x, FromBytes bytes = Some x;
}.

Lemma read_word_total bytes n : (n + 4 ≤ length bytes)%nat → ∃ x, read_word bytes n = Some x.
Proof.
  intros Hl. unfold read_word. rewrite length_take, length_drop, Nat.min_l by lia. cbn. eauto.
Qed.

Ltac read_words :=
  repeat match goal with
  | |- context [read_word ?b ?n] =>
      let x := fresh "x" in destruct (read_word_total b n ltac:(lia)) as [x ->]; cbn [mbind option_bind]
  end.

#[export] Instance wire_id_laws : WireLaws Z 4 small.
Proof.
  split.
  - apply length_word.
  - intros x rest Hx. apply (read_word_at [] x rest Hx).
  - intros bytes Hl. cbn. apply (read_word_total bytes 0). lia.
Qed.

#[export] Instance wire_define_laws :
  WireLaws DefineDriverHeader 8 (λ h, small (driver_id h) ∧ small (driver_name_length h)).
Proof.
  split.
  - intros []. cbn. by rewrite length_app, !length_word.
  - intros [x y] rest [Hx Hy]. cbn in *. rewrite <-!app_assoc.
    pose proof (read_word_at [] x (word y ++ rest) Hx) as H0. cbn in H0. rewrite H0.
    pose proof (read_word_at (word x) y rest Hy) as H4. rewrite length_word in H4. by rewrite H4.
  - intros bytes Hl. cbn. read_words. eauto.
Qed.

Lemma read_words4 x y z w rest :
  small x → small y → small z → small w →
  let b := (word x ++ word y ++ word z ++ word w) ++ rest in
  read_word b 0 = Some x ∧ read_word b 4 = Some y ∧ read_word b 8 = Some z ∧ read_word b 12 = Some w.
Proof.
  intros Hx Hy Hz Hw. cbn zeta. rewrite <-!app_assoc. split_and!.
  - apply (read_word_at [] x _ Hx).
  - apply (read_word_at (word x) y _ Hy).
  - rewrite app_assoc. apply (read_word_at (word x ++ word y) z _ Hz).
  - rewrite app_assoc, (app_assoc (word x ++ word y)).
    apply (read_word_at ((word x ++ word y) ++ word z) w _ Hw).
Qed.

Definition request_fits (h : RequestHeader) : Prop :=
  small (driver_index h) ∧ small (transaction_key h) ∧ small (input_length h) ∧ small (output_length h).

#[export] Instance wire_request_laws : WireLaws RequestHeader 16 request_fits.
Proof.
  split.
  - intros []. cbn. by rewrite !length_app, !length_word.
  - intros [x y z w] rest (Hx & Hy & Hz & Hw). cbn in *.
    destruct (read_words4 x y z w rest Hx Hy Hz Hw) as (-> & -> & -> & ->). done.
  - intros bytes Hl. cbn. read_words. eauto.
Qed.

Definition response_fits (h : ResponseHeader) : Prop :=
  small (response_key h) ∧ small (first_incomplete_input_offset h)
  ∧ small (first_incomplete_output_offset h) ∧ small (error_length h).

#[export] Instance wire_response_laws : WireLaws ResponseHeader 16 response_fits.
Proof.
  split.
  - intros []. cbn. by rewrite !length_app, !length_word.
  - intros [x y z w] rest (Hx & Hy & Hz & Hw). cbn in *.
    destruct (read_words4 x y z w rest Hx Hy Hz Hw) as (-> & -> & -> & ->). done.
  - intros bytes Hl. cbn. read_words. eauto.
Qed.

Lemma FromBytes_self {A n ok} `{WireLaws A n ok} (x : A) : ok x → FromBytes (ToBytes x) = Some x.
Proof. intros Hx. rewrite <-(app_nil_r (ToBytes x)). by eapply FromBytes_ToBytes. Qed.

(** A read in parts of what is there. *)
Lemma receive_Some `{Delivery} n input bytes rest :
  receive n input = Some (bytes, rest) → input = bytes ++ rest ∧ (length bytes ≤ Z.to_nat n)%nat.
Proof.
  unfold receive. destruct (deliver n input) as [k|]; [|done]. cbn. intros [= <- <-].
  rewrite take_drop, length_take. split; [done|lia].
Qed.

Lemma result_memory_length n bytes old : (length bytes ≤ n)%nat → length (result_memory n bytes old) = n.
Proof. intros Hl. unfold result_memory. rewrite length_app, length_fmap, length_seq. lia. Qed.

Lemma result_memory_whole n bytes old : length bytes = n → result_memory n bytes old = bytes.
Proof. intros <-. unfold result_memory. by rewrite Nat.sub_diag, app_nil_r. Qed.

Section whole.
Context `{WholeReads}.

Lemma receive_app bytes input n :
  0 < n → Z.of_nat (length bytes) = n → receive n (bytes ++ input) = Some (bytes, input).
Proof.
  intros Hpos Hn. unfold receive. rewrite whole_read by (rewrite length_app; lia). cbn.
  rewrite length_app. replace (Nat.min _ _) with (length bytes) by lia. by rewrite take_app_length, drop_app_length.
Qed.

Lemma receive_if_app bytes input n :
  Z.of_nat (length bytes) = n → receive_if n (bytes ++ input) = Some (bytes, input).
Proof.
  intros Hn. unfold receive_if. destruct (Z.eqb_spec n 0); [|apply receive_app; lia].
  destruct bytes; [done|simpl in Hn; lia].
Qed.
End whole.

(** *** Handshake *)

Lemma driver_of_own d : driver_of_value (ActionOffset d) = Some d.
Proof. by destruct d. Qed.

Lemma driver_small d : small (ActionOffset d).
Proof. by destruct d. Qed.

(** A read of no bytes fails on a socket: names have characters. *)
Definition short_name (d : RemoteDriver) : Prop :=
  GetName d ≠ [] ∧ small (Z.of_nat (length (GetName d))).

Section defined.
Context `{WholeReads}.

Lemma DefineRemote_defined remote d rest :
  short_name d →
  receive 4 (define_driver d ++ rest) = Some (ToBytes Packet.DefineDriver, drop 4 (define_driver d) ++ rest)
  ∧ DefineRemote (λ _, true) (λ _, true) remote (drop 4 (define_driver d) ++ rest)
    = Some (inr (remote ++ [d], rest)).
Proof.
  intros [Hne Hd]. unfold define_driver.
  rewrite (wrap_small 32), Z.min_r by (unfold g_max_length, small in *; lia || done).
  rewrite Nat2Z.id, take_ge by lia. split.
  { rewrite drop_app_length' by (by rewrite length_ToBytes). rewrite <-app_assoc. apply receive_app; [done|by rewrite length_ToBytes]. }
  rewrite drop_app_length' by (by rewrite length_ToBytes). rewrite <-app_assoc. unfold DefineRemote.
  rewrite receive_app by (done || by rewrite length_ToBytes).
  rewrite FromBytes_self by (split; [apply driver_small|done]).
  cbn [mbind option_bind driver_name_length driver_id].
  rewrite receive_app by (done || destruct (GetName d); simpl; done || lia).
  cbn [negb]. rewrite driver_of_own. by destruct d.
Qed.

Lemma HandshakeLoop_defined l fuel remote rest :
  Forall short_name l → (length l < fuel)%nat →
  HandshakeLoop (λ _, true) (λ _, true) fuel remote
    (concat (define_driver <$> l) ++ ToBytes Packet.FinishedDefiningDrivers ++ rest)
  = Some (remote ++ l, inr rest).
Proof.
  intros Hl. revert fuel remote. induction Hl as [|d l Hd Hl IH]; intros [|fuel] remote Hf; try (simpl in Hf; lia).
  - cbn [fmap list_fmap concat app HandshakeLoop]. rewrite receive_app by (done || by rewrite length_ToBytes).
    rewrite FromBytes_self by done. by rewrite app_nil_r.
  - cbn [fmap list_fmap concat HandshakeLoop]. rewrite <-app_assoc.
    destruct (DefineRemote_defined remote d
      (concat (define_driver <$> l) ++ ToBytes Packet.FinishedDefiningDrivers ++ rest) Hd) as [-> Hdef].
    rewrite FromBytes_self by done. cbn [mbind option_bind].
    change (Packet.DefineDriver =? Packet.FinishedDefiningDrivers) with false.
    change (Packet.DefineDriver =? Packet.DefineDriver) with true. cbn iota. rewrite Hdef.
    cbn [mbind option_bind]. rewrite IH by (simpl in Hf; lia). by rewrite <-app_assoc.
Qed.
End defined.
