(* ===== verification/TunnelTransfer.v ===== *)
(** * TunnelTransfer: transactions through a tunnel
    ([src/src/libedr/tunnel/ByteStreamTunnel.cpp]).

    The two ends of [Tunnel] together: a request reaches the driver it is meant
    for with the actions that the client added, and the answer brings the client
    what the driver did.  The inputs of a request arrive in one chunk, however
    many chunks the client has filled. *)
From S2P Require Import Prelude BitStream Actions TransactionBuffer VSS ActionLayout Storage Errors Tunnel.
From stdpp Require Import gmap.
Local Open Scope Z_scope.
Local Open Scope list_scope.

(** ** Buffers of one chunk *)

Lemma foldl_lengths (cs : list (list Z)) n :
  foldl (λ n bytes, n + Z.of_nat (length bytes)) n cs = n + Z.of_nat (length (concat cs)).
Proof.
  revert n. induction cs as [|c cs IH]; intros n; cbn [foldl concat length]; [lia|].
  rewrite IH, length_app. lia.
Qed.

Lemma chunks_length_eq b : chunks_length b = Z.of_nat (length (concat (ForEachChunk b))).
Proof. unfold chunks_length. rewrite foldl_lengths. lia. Qed.

(** The objects of one chunk can be told apart in any way. *)
Lemma stores_regroup b g g' : stores b [g] → concat g' = concat g → g' ≠ [] → stores b [g'].
Proof.
  intros [Hch _ Ht Ho Hf] Hg Hne. cbn in Ho.
  split; cbn; rewrite ?Hg; try done; [|by repeat constructor].
  apply Forall2_cons_inv_r in Hch as (c & cs & [Ha Hfit Hd Hb] & Hrest & Heq).
  apply Forall2_nil_inv_r in Hrest as ->. rewrite Heq.
  constructor; [|done]. by split; rewrite ?Hg.
Qed.

Section one_chunk.
Context `{FreshBytes} (fresh_length : ∀ n, length (fresh_bytes n) = n) (min_size : nat).

Definition first_chunk (n : nat) (bytes : list Z) : Chunk :=
  mkChunk (Nat.max (g_initial_offset + n) min_size) (g_initial_offset + n) bytes.

Lemma first_chunk_stores n bytes data :
  length bytes = n → take n data = bytes →
  length data = (Nat.max (g_initial_offset + n) min_size - g_initial_offset)%nat →
  stores (mkBuffer [first_chunk n data] (Some 0%nat) (g_initial_offset + n) false) [[bytes]].
Proof.
  intros Hl Ht Hd. split; cbn; rewrite ?app_nil_r, ?Hl; try done; [|by repeat constructor].
  constructor; [|done]. split; cbn; rewrite ?app_nil_r, ?Hl; try done. lia.
Qed.

Lemma Allocate_new n :
  Allocate min_size (λ _, true) empty_buffer n
  = Some ((Some 0%nat, g_initial_offset), true,
      mkBuffer [first_chunk n (fresh_bytes (Nat.max (g_initial_offset + n) min_size - g_initial_offset))]
        (Some 0%nat) (g_initial_offset + n) false).
Proof. reflexivity. Qed.

Lemma emplace_one bytes :
  ∃ p b, emplace min_size (λ _, true) empty_buffer bytes = Some (p, b) ∧ stores b [[bytes]].
Proof.
  unfold emplace. rewrite Allocate_new. cbn [mbind option_bind]. eexists _, _. split; [done|].
  set (fresh := fresh_bytes _).
  assert (Hf : length fresh = (Nat.max (g_initial_offset + length bytes) min_size - g_initial_offset)%nat)
    by apply fresh_length.
  change (stores (mkBuffer [first_chunk (length bytes) (splice 0 bytes fresh)] (Some 0%nat)
                    (g_initial_offset + length bytes) false) [[bytes]]).
  apply first_chunk_stores; [done|apply (take_splice 0); lia|]. rewrite length_splice; lia.
Qed.

(** Memory that is allocated and not written. *)
Lemma Allocate_one n :
  ∃ p b bytes, Allocate min_size (λ _, true) empty_buffer n = Some (p, true, b)
    ∧ length bytes = n ∧ stores b [[bytes]].
Proof.
  rewrite Allocate_new. eexists _, _, _. split; [done|].
  split; [|apply first_chunk_stores; [|done|by rewrite fresh_length]];
    rewrite length_take, fresh_length; lia.
Qed.
End one_chunk.

(** ** Requests *)

(** Other memory for the results of a transaction. *)
Lemma transaction_objs_bytes d l ios oos bytes :
  transaction_objs d l ios oos → Forall (λ ax, action_fits ax.1) l →
  length bytes = length (concat oos) → Z.of_nat (length bytes) < 2 ^ 63 →
  ∃ l' oos', concat oos' = bytes ∧ length <$> oos' = length <$> oos ∧ transaction_objs d l' ios oos'
    ∧ l'.*1 = l.*1.
Proof.
  intros Hobjs. revert bytes. induction Hobjs as [|a x l io ios oo oos Hi Ho Hobjs IH];
    intros bytes Hf Hl Hlt; cbn in Hl.
  { exists [], []. apply nil_length_inv in Hl as ->. split_and!; [done|done|constructor|done]. }
  apply Forall_cons in Hf as [Ha Hf]. rewrite length_app in Hl.
  destruct (out_obj_rewritten a oo x (take (length oo) bytes) Ho Ha) as (x' & _ & Hx').
  { rewrite length_take. lia. }
  { lia. }
  destruct (IH (drop (length oo) bytes) Hf) as (l' & oos' & Hc & Hlen & Hobjs' & Hl').
  { rewrite length_drop. lia. }
  { rewrite length_drop. lia. }
  exists ((a, x') :: l'), (take (length oo) bytes :: oos'). cbn.
  rewrite Hc, take_drop, Hlen, Hl', length_take, Nat.min_l by lia.
  split_and!; [done|done|by constructor|done].
Qed.

Lemma transaction_objs_some d l ios oos :
  transaction_objs d l ios oos → l ≠ [] → 0 < Z.of_nat (length (concat ios)).
Proof.
  intros [|a x l' io ios' oo oos' Hin _ _] Hne; [done|]. cbn. rewrite length_app.
  apply in_bytes in Hin. destruct io; [done|]. cbn. lia.
Qed.

Lemma built_fits `{ShiftUB} d s rs gi go l :
  built d s rs gi go l → Forall (request_ok d) rs →
  Forall (λ ax, action_fits ax.1) l ∧ l.*1 = (λ r, r.1.1) <$> rs.
Proof.
  intros Hb Hok. pose proof (built_shown _ _ _ _ _ _ Hb) as Hsh.
  assert (Heq : l.*1 = (λ r, r.1.1) <$> rs).
  { clear Hok Hb. induction Hsh as [|[[a v] vo] [a' x] rs l [Ha _] _ IH]; [done|]. cbn in Ha |- *. by rewrite Ha, IH. }
  split; [|done]. apply (Forall_fmap fst action_fits). rewrite Heq. apply Forall_fmap.
  eapply Forall_impl; [exact Hok|]. by intros [[a v] vo] (_ & Hf & _).
Qed.

Section requests.
Context `{ShiftUB} `{FreshBytes} (fresh_length : ∀ n, length (fresh_bytes n) = n) (min_size : nat).

(** The buffers that are filled at the other end: the inputs, and other memory for
    results of the same sizes. *)
Lemma remote_storage_stores d l ios oos :
  transaction_objs d l ios oos → l ≠ [] → Forall (λ ax, action_fits ax.1) l →
  Z.of_nat (length (concat oos)) < 2 ^ 32 →
  ∃ s oos' l', remote_storage min_size (λ _, true) empty_buffer (concat ios)
                 (Z.of_nat (length (concat oos))) = Some s
    ∧ stores (ins s) [ios] ∧ stores (outs s) [oos'] ∧ length <$> oos' = length <$> oos
    ∧ transaction_objs d l' ios oos' ∧ l'.*1 = l.*1.
Proof.
  intros Hobjs Hne Hf Ho. unfold remote_storage.
  destruct (emplace_one fresh_length min_size (concat ios)) as (p & bi & -> & Hsi).
  destruct (Allocate_one fresh_length min_size (length (concat oos))) as (q & bo & bytes & Hall & Hlb & Hso).
  rewrite Nat2Z.id. cbn [mbind option_bind]. rewrite Hall. cbn [mbind option_bind].
  destruct (transaction_objs_bytes d l ios oos bytes Hobjs Hf Hlb ltac:(lia))
    as (l' & oos' & Hc & Hlen & Hobjs' & Hl').
  exists (mkStorage bi bo), oos', l'. split_and!; try done.
  - apply (stores_regroup _ _ ios) in Hsi; [done|symmetry; apply app_nil_r|]. by intros ->; inversion Hobjs; subst.
  - apply (stores_regroup _ _ oos') in Hso; [done|rewrite Hc; symmetry; apply app_nil_r|]. by intros ->; inversion Hobjs'; subst; destruct l.
Qed.

(** The transaction that is built at the other end. *)
Lemma remote_storage_objs d l ios oos :
  transaction_objs d l ios oos → l ≠ [] → Forall (λ ax, action_fits ax.1) l →
  Z.of_nat (length (concat ios)) < 2 ^ 32 → Z.of_nat (length (concat oos)) < 2 ^ 32 →
  ∃ s acts l', remote_storage min_size (λ _, true) empty_buffer (concat ios)
                 (Z.of_nat (length (concat oos))) = Some s
    ∧ HadAllocationFailure s = false
    ∧ iterate d (S (length l)) s (begin_pos s) (end_pos s) = Some acts
    ∧ mapM (visit d) acts = Some l' ∧ l'.*1 = l.*1.
Proof.
  intros Hobjs Hne Hf Hi Ho.
  destruct (remote_storage_stores d l ios oos Hobjs Hne Hf Ho) as (s & oos' & l' & Hs & Hsi & Hso & Hlen & Hobjs' & Hl').
  assert (Hlen' : length l' = length l) by (by rewrite <-(length_fmap fst), Hl', length_fmap).
  assert (Hc : length (concat oos') = length (concat oos)).
  { rewrite !length_concat. change (map length) with (fmap (M := list) (@length Z)). by rewrite Hlen. }
  destruct (iterate_objs d s [ios] [oos'] (Begin (ins s)) (Begin (outs s)) l' ios oos' (S (length l)))
    as (acts & Hit & Hm & _); try done.
  - cbn [concat]. rewrite app_nil_r. lia.
  - cbn [concat]. rewrite app_nil_r, Hc. lia.
  - rewrite <-(app_nil_r ios). apply (begin_stands (ins s) [ios]); [done|constructor|done].
  - rewrite <-(app_nil_r oos'). apply (begin_stands (outs s) [oos']); [done|constructor|done].
  - lia.
  - exists s, acts, l'. split_and!; try done.
    unfold HadAllocationFailure. by rewrite (holds_failure _ _ Hsi), (holds_failure _ _ Hso).
Qed.
End requests.

(** The key of a new transaction. *)
Lemma Schedule_key t tx :
  ∃ key t', ScheduleRemoteTransaction t tx true = (Some key, t')
    ∧ m_pending_transactions t' = <[key := tx]> (m_pending_transactions t)
    ∧ (key = m_next_key t ∨ key ∈ m_free_keys t).
Proof.
  unfold ScheduleRemoteTransaction. destruct (m_free_keys t) as [|key free]; cbn;
    eexists _, _; (split_and!; [done|done|set_solver]).
Qed.

(** A request packet is handed to the driver it names. *)
Lemma HandlePacket_request `{FreshBytes} `{WholeReads} min_size server index d key tx rest s' :
  small index → small key → m_my_drivers server !! Z.to_nat index = Some d →
  small (chunks_length (ins (storage tx))) → small (chunks_length (outs (storage tx))) →
  0 < chunks_length (ins (storage tx)) →
  remote_storage min_size (λ _, true) empty_buffer (concat (ForEachChunk (ins (storage tx))))
    (chunks_length (outs (storage tx))) = Some s' →
  HandlePacket min_size (λ _, true) empty_buffer (λ _, true) (λ _, true) server
    (request_bytes index key tx ++ rest)
  = Some (server, [Forwarded d key s'], inr rest).
Proof.
  intros Hi Hk Hd Hin Hout Hpos Hs. unfold request_bytes, HandlePacket.
  set (h := mkRequestHeader _ _ _ _). set (inputs := concat _).
  rewrite <-!app_assoc, app_assoc. rewrite receive_app by (done || by rewrite length_app, !length_ToBytes).
  rewrite result_memory_whole by (by rewrite length_app, !length_ToBytes).
  rewrite FromBytes_ToBytes by done. cbn [mbind option_bind].
  change (Packet.Request =? Packet.Request) with true. cbn iota.
  rewrite drop_app_length' by (by rewrite length_ToBytes).
  rewrite (FromBytes_self h) by done. cbn [mbind option_bind]. unfold HandleRequest.
  rewrite receive_app by (done || symmetry; apply chunks_length_eq). cbn [h driver_index transaction_key output_length].
  rewrite Hd. unfold inputs. rewrite Hs. done.
Qed.

(** The tunnel takes a transaction whose lengths fit. *)
Lemma Execute_sends client index tx :
  small (chunks_length (ins (storage tx))) → small (chunks_length (outs (storage tx))) →
  Forall small (m_next_key client :: m_free_keys client) →
  ∃ key client', Execute client index tx true true = (inr (key, request_bytes index key tx), client')
    ∧ m_pending_transactions client' = <[key := tx]> (m_pending_transactions client) ∧ small key.
Proof.
  intros Hin Hout Hkeys. destruct (Schedule_key client tx) as (key & client' & Hsch & Hpend & Hkey).
  exists key, client'. split_and!; [|done|].
  - unfold Execute, small, g_max_length in *.
    destruct (Z.ltb_spec (2 ^ 32 - 1) (chunks_length (ins (storage tx)))); [lia|].
    destruct (Z.ltb_spec (2 ^ 32 - 1) (chunks_length (outs (storage tx)))); [lia|]. by rewrite Hsch.
  - apply Forall_cons in Hkeys as [Hn Hfree]. destruct Hkey as [->|Hk]; [done|].
    rewrite Forall_forall in Hfree. by apply Hfree.
Qed.

(** C11: a request reaches the driver it is meant for over streams whose reads
    deliver all they ask for.  The client adds the actions [rs] for a driver [d] that
    the other end has registered under the index; the tunnel sends them, and at the
    other end, whatever follows in the stream, that driver gets a transaction in
    which a loop sees the same actions in the same order; the client's transaction
    waits under the key that was sent. *)
Theorem request_reaches_driver `{ShiftUB} `{FreshBytes} `{WholeReads} (min_size : nat) (d : DriverID)
    (name : list Z) (rs : list Request) (client server : Tunnel) (index : nat) (rest : list Z)
    (Hfresh : ∀ n, length (fresh_bytes n) = n) (Hok : Forall (request_ok d) rs) (Hne : rs ≠ [])
    (Hsize : total_request_size rs < 2 ^ 32)
    (Hkeys : Forall small (m_next_key client :: m_free_keys client))
    (Hindex : small (Z.of_nat index))
    (Hdriver : m_my_drivers server !! index = Some (mkDriver d name)) :
  ∃ ps s key bytes client' s' acts l,
    add_all min_size (λ _, true) empty_storage (add_args <$> rs) = Some (ps, s)
    ∧ Execute client (Z.of_nat index) (mkPending s None (begin_pos s)) true true
      = (inr (key, bytes), client')
    ∧ m_pending_transactions client' !! key = Some (mkPending s None (begin_pos s))
    ∧ HandlePacket min_size (λ _, true) empty_buffer (λ _, true) (λ _, true) server (bytes ++ rest)
      = Some (server, [Forwarded (mkDriver d name) key s'], inr rest)
    ∧ HadAllocationFailure s' = false
    ∧ iterate d (S (length rs)) s' (begin_pos s') (end_pos s') = Some acts
    ∧ mapM (visit d) acts = Some l ∧ l.*1 = (λ r, r.1.1) <$> rs.
Proof.
  destruct (add_all_built Hfresh min_size d empty_storage [] [] [] [] rs
              (ready_built d _ empty_ready) Hok)
    as (ps & s & gi & go & l & Hall & Hbuilt & _); [cbn [app]; lia|].
  cbn [app] in Hbuilt. pose proof (built_size _ _ _ _ _ _ Hbuilt) as Hsz.
  destruct (built_fits d s rs gi go l Hbuilt Hok) as [Hfits Hacts].
  assert (Hll : length l = length rs) by (by rewrite <-(length_fmap fst l), Hacts, length_fmap).
  pose proof (holding_chunks _ _ (built_ins _ _ _ _ _ _ Hbuilt)) as Hci.
  pose proof (holding_chunks _ _ (built_outs _ _ _ _ _ _ Hbuilt)) as Hco.
  destruct (remote_storage_objs Hfresh min_size d l (concat gi) (concat go)
              (built_objs _ _ _ _ _ _ Hbuilt)) as (s' & acts & l' & Hs' & Hfail & Hit & Hm & Hl');
    [by intros ->; destruct rs|done|lia|lia|].
  set (tx := mkPending s None (begin_pos s)).
  assert (Hin : small (chunks_length (ins s))) by (unfold small; rewrite chunks_length_eq, Hci; lia).
  assert (Hout : small (chunks_length (outs s))) by (unfold small; rewrite chunks_length_eq, Hco; lia).
  destruct (Execute_sends client (Z.of_nat index) tx Hin Hout Hkeys) as (key & client' & Hexe & Hpend & Hks).
  exists ps, s, key, (request_bytes (Z.of_nat index) key tx), client', s', acts, l'.
  split_and!; try done.
  - rewrite Hpend. apply lookup_insert_eq.
  - apply HandlePacket_request; [done|done|by rewrite Nat2Z.id|done|done| |].
    { rewrite chunks_length_eq. cbn [storage tx]. rewrite Hci.
      eapply transaction_objs_some; [apply Hbuilt|]. by intros ->; destruct rs. }
    cbn [storage tx]. rewrite Hci, chunks_length_eq, Hco. done.
  - by rewrite <-Hll.
  - by rewrite Hl'.
Qed.

(** ** Answers *)

Lemma stores_one b g : stores b [g] → one_object b (concat g).
Proof.
  intros [Hch _ Ht _ Hf]. split; [done|done|].
  apply Forall2_cons_inv_r in Hch as (c & cs & [Ha Hfit Hd Hb] & _ & Heq).
  exists c, (drop (length (concat g)) (data c)). rewrite Heq. split_and!; [done| |done].
  rewrite <-Hb at 1. by rewrite take_drop.
Qed.

Lemma stores_End b g : stores b [g] → End b = (Some 0%nat, (g_initial_offset + length (concat g))%nat).
Proof. intros [_ _ Ht Ho _]. unfold End. by rewrite Ht, Ho. Qed.

Lemma one_chunks b obj :
  one_object b obj → ∃ c cs rest, chunks b = c :: cs ∧ data c = obj ++ rest
    ∧ allocated c = (g_initial_offset + length obj)%nat.
Proof.
  intros [_ _ (c & rest & Hc & Hd & Ha)]. destruct (chunks b) as [|c' cs]; [done|].
  cbn in Hc. injection Hc as ->. eauto 10.
Qed.

(** Positions in a buffer of one chunk are distances. *)
Definition at_offset (x : Z) : Position := (Some 0%nat, (g_initial_offset + Z.to_nat x)%nat).

Lemma Distance_one b x : 0 ≤ x < 2 ^ 63 → Distance b (at_offset x) = x.
Proof.
  intros Hx. unfold Distance, at_offset. cbn [fst snd]. rewrite take_0. cbn [foldr].
  rewrite (wrap_small 64); unfold g_initial_offset; lia.
Qed.

Lemma from_distance_one b obj x :
  one_object b obj → 0 ≤ x < 2 ^ 63 → from_distance b x = Some (at_offset x).
Proof.
  intros Ho Hx. destruct (one_chunks b obj Ho) as (c & cs & rest & Hc & _).
  unfold from_distance, FromDistance. rewrite Hc. cbn [FromDistanceLoop]. rewrite (one_tail _ _ Ho).
  rewrite bool_decide_eq_false_2 by (intros Hn; by apply Hn). cbn [andb mbind option_bind].
  rewrite (wrap_small 64) by (unfold g_initial_offset; lia). unfold at_offset. do 2 f_equal.
  unfold g_initial_offset. lia.
Qed.

Lemma copy_output_one b obj output :
  one_object b obj → (length output ≤ length obj)%nat →
  one_object (copy_output b output) (output ++ drop (length output) obj).
Proof.
  intros Ho Hl. destruct (one_chunks b obj Ho) as (c & cs & rest & Hc & Hd & Ha).
  unfold copy_output. rewrite (one_tail _ _ Ho). split; [apply Ho|done|].
  rewrite Hc. cbn [chunks take copy_chunks app]. eexists _, rest. split_and!; [done| |].
  - cbn [data]. rewrite Ha, Nat.add_comm, Nat.add_sub, Nat.min_r, take_ge by lia.
    unfold splice. rewrite take_0, Hd. cbn [app].
    rewrite Nat.add_0_l, drop_app_le by lia. by rewrite app_assoc.
  - cbn [allocated]. rewrite length_app, length_drop. lia.
Qed.

Lemma write_outputs_one obj n : concat (write_outputs [obj] n) = take n obj.
Proof.
  cbn. destruct (Nat.eqb_spec (Nat.min (length obj) n) 0) as [Hz|Hz]; cbn.
  - destruct n; [done|]. destruct obj; [done|]. cbn in Hz. lia.
  - rewrite app_nil_r. destruct (Nat.le_gt_cases n (length obj)).
    + by rewrite Nat.min_r by lia.
    + by rewrite Nat.min_l, !take_ge by lia.
Qed.

(** The error of an answer. *)
Definition error_bytes (e : option Buffer) (bytes : list Z) : Prop :=
  match e with
  | None => bytes = []
  | Some b => one_object b bytes ∧ bytes ≠ []
  end.

Lemma DetachRequest_one key st out err x y :
  one_object (outs (storage st)) out → error_bytes (error_buffer st) err →
  first_incomplete st = (at_offset x, at_offset y) → 0 ≤ x < 2 ^ 32 → 0 ≤ y < 2 ^ 32 →
  Z.of_nat (length err) < 2 ^ 32 →
  DetachRequest key st
  = ToBytes Packet.Response ++ ToBytes (mkResponseHeader key x y (Z.of_nat (length err)))
      ++ take (Z.to_nat y) out ++ err.
Proof.
  intros Ho He Hfi Hx Hy Hl. unfold DetachRequest. rewrite Hfi. cbn [fst snd].
  rewrite !Distance_one by lia. unfold g_max_length.
  destruct (Z.ltb_spec (2 ^ 32 - 1) x); [lia|]. destruct (Z.ltb_spec (2 ^ 32 - 1) y); [lia|].
  cbn [orb]. rewrite (one_object_ForEachChunk _ _ Ho), write_outputs_one, foldl_lengths.
  assert (Hc : concat match error_buffer st with Some b => ForEachChunk b | None => [] end = err).
  { destruct (error_buffer st) as [b|]; cbn in He; [|done]. destruct He as [He _].
    rewrite (one_object_ForEachChunk _ _ He). cbn. apply app_nil_r. }
  rewrite Hc. destruct (Z.ltb_spec (2 ^ 32 - 1) (0 + Z.of_nat (length err))); [lia|].
  rewrite Z.add_0_l. do 3 f_equal.
  destruct (Z.eqb_spec (Z.of_nat (length err)) 0); [|done]. by destruct err.
Qed.

Lemma receive_error_cleared `{FreshBytes} min_size pool err :
  (∀ n, length (fresh_bytes n) = n) → cleared pool →
  ∃ b, receive_error min_size (λ _, true) pool err = Some (Some b) ∧ one_object b err.
Proof.
  intros Hfresh Hpool. unfold receive_error.
  destruct (emplace_cleared Hfresh min_size pool err Hpool) as (b & Hem & Hb).
  destruct (Allocate_cleared min_size pool (length err) Hfresh Hpool) as (c & cs & Hall & _).
  unfold emplace in Hem. rewrite Hall in Hem |- *. cbn [mbind option_bind] in Hem |- *.
  injection Hem as <-. eauto.
Qed.

(** What an answer does to the transaction it is for. *)
Lemma answer_one `{FreshBytes} min_size pool h p ib ob output err :
  (∀ n, length (fresh_bytes n) = n) → cleared pool →
  one_object (ins (storage p)) ib → one_object (outs (storage p)) ob → error_buffer p = None →
  response_fits h → Z.of_nat (length err) = error_length h →
  ∃ p', (p ← move_boundary h p; fill_in min_size (λ _, true) pool h output err p) = Some p'
    ∧ move_boundary h p = Some (mkPending (storage p) None (first_incomplete p'))
    ∧ first_incomplete p'
      = (at_offset (first_incomplete_input_offset h), at_offset (first_incomplete_output_offset h))
    ∧ ins (storage p') = ins (storage p)
    ∧ outs (storage p') = (if first_incomplete_output_offset h =? 0 then outs (storage p)
                           else copy_output (outs (storage p)) output)
    ∧ error_bytes (error_buffer p') err.
Proof.
  intros Hfresh Hpool Hi Ho He (_ & Hx & Hy & _) Hlr.
  unfold move_boundary, small in *. rewrite (from_distance_one _ _ _ Hi), (from_distance_one _ _ _ Ho) by lia.
  cbn [mbind option_bind]. unfold fill_in. cbn [storage error_buffer first_incomplete]. rewrite He.
  destruct (Z.eqb_spec (error_length h) 0) as [Hz|Hz].
  - eexists. cbn [mbind option_bind]. split_and!; try done. cbn. by destruct err; [|simpl in *; lia].
  - destruct (receive_error_cleared min_size pool err Hfresh Hpool) as (b & -> & Hb).
    eexists. cbn [mbind option_bind]. split_and!; try done. split; [done|]. by intros ->.
Qed.

(** The head of an answer, and the whole. *)
Lemma HandlePacket_head `{FreshBytes} `{WholeReads} min_size client pool h input :
  response_fits h →
  HandlePacket min_size (λ _, true) pool (λ _, true) (λ _, true) client
    (ToBytes Packet.Response ++ ToBytes h ++ input)
  = HandleResponse min_size (λ _, true) client pool h input.
Proof.
  intros Hh. unfold HandlePacket. rewrite app_assoc.
  rewrite receive_app by (done || by rewrite length_app, !length_ToBytes).
  rewrite result_memory_whole by (by rewrite length_app, !length_ToBytes).
  rewrite FromBytes_ToBytes by done. cbn [mbind option_bind].
  change (Packet.Response =? Packet.Request) with false.
  change (Packet.Response =? Packet.Response) with true. cbn iota.
  rewrite drop_app_length' by (by rewrite length_ToBytes). by rewrite (FromBytes_self h) by done.
Qed.

Lemma HandlePacket_response `{FreshBytes} `{WholeReads} min_size client pool h output err rest p p1 p' :
  response_fits h → m_pending_transactions client !! response_key h = Some p →
  move_boundary h p = Some p1 → fill_in min_size (λ _, true) pool h output err p1 = Some p' →
  Z.of_nat (length output) = first_incomplete_output_offset h →
  Z.of_nat (length err) = error_length h →
  HandlePacket min_size (λ _, true) pool (λ _, true) (λ _, true) client
    ((ToBytes Packet.Response ++ ToBytes h ++ output ++ err) ++ rest)
  = Some (set_keys client (response_key h :: m_free_keys client) (m_next_key client)
            (delete (response_key h) (<[response_key h := p1]> (m_pending_transactions client))),
          [Resolved (response_key h) p'], inr rest).
Proof.
  intros Hh Hp Hmove Hfill Hlo Hle. rewrite <-!app_assoc, HandlePacket_head by done.
  unfold HandleResponse. rewrite Hp. cbn [mbind option_bind]. rewrite Hmove.
  cbn [mbind option_bind]. unfold receive2. rewrite receive_if_app by done. cbn [mbind option_bind].
  rewrite receive_if_app by done. cbn [mbind option_bind]. rewrite Hfill. done.
Qed.

(** The results that came are copied to the front of the results. *)
Lemma copy_output_stores b g output g' :
  stores b [g] → (length output ≤ length (concat g))%nat → g' ≠ [] →
  concat g' = output ++ drop (length output) (concat g) → stores (copy_output b output) [g'].
Proof.
  intros Hs Hl Hne Hg. assert (Hlen : length (concat g') = length (concat g))
    by (rewrite Hg, length_app, length_drop; lia).
  destruct Hs as [Hch _ Ht Ho Hf]. unfold copy_output. rewrite Ht. cbn [length Nat.sub].
  apply Forall2_cons_inv_r in Hch as (c & cs & [Ha Hfit Hd Hb] & Hnil%Forall2_nil_inv_r & ->). subst cs.
  split; cbn [chunks take drop copy_chunks app m_tail m_had_allocation_failure TransactionBuffer.m_offset last];
    [|by repeat constructor|done|by rewrite Ho; cbn; rewrite Hlen|done].
  constructor; [|done]. rewrite Nat.min_r, take_ge by lia.
  split; cbn [allocated total_size data]; rewrite ?Hlen; [done|done| |].
  - rewrite length_splice; lia.
  - rewrite Hg. unfold splice. rewrite take_0, Nat.add_0_l. cbn [app].
    rewrite take_app_ge, take_drop_commute by done.
    replace (length output + (length (concat g) - length output))%nat with (length (concat g)) by lia.
    by rewrite Hb.
Qed.

(** The answer to a transaction of one chunk. *)
Lemma response_one `{FreshBytes} `{WholeReads} (min_size : nat) (client : Tunnel) (pool : Buffer) (key : Z)
    (p st : PendingTransaction) (gi go gi' go' : list (list Z)) (err : list Z) (x y : Z)
    (rest : list Z)
    (Hfresh : ∀ n, length (fresh_bytes n) = n) (Hpool : cleared pool)
    (Hp : m_pending_transactions client !! key = Some p) (Hkey : small key)
    (Hpe : error_buffer p = None)
    (Hi : stores (ins (storage p)) [gi]) (Ho : stores (outs (storage p)) [go])
    (Hi' : stores (ins (storage st)) [gi']) (Ho' : stores (outs (storage st)) [go'])
    (Hli : length (concat gi') = length (concat gi)) (Hlo : length (concat go') = length (concat go))
    (Hfi : first_incomplete st = (at_offset x, at_offset y))
    (Hx : 0 ≤ x ≤ Z.of_nat (length (concat gi))) (Hy : 0 ≤ y ≤ Z.of_nat (length (concat go)))
    (Herr : error_bytes (error_buffer st) err)
    (Hsize : Forall (λ n, Z.of_nat n < 2 ^ 32) [length (concat gi); length (concat go); length err]) :
  ∃ client' p', HandlePacket min_size (λ _, true) pool (λ _, true) (λ _, true) client
                  (DetachRequest key st ++ rest) = Some (client', [Resolved key p'], inr rest)
    ∧ first_incomplete p' = first_incomplete st
    ∧ ins (storage p') = ins (storage p)
    ∧ outs (storage p') = (if y =? 0 then outs (storage p)
                           else copy_output (outs (storage p)) (take (Z.to_nat y) (concat go')))
    ∧ error_bytes (error_buffer p') err
    ∧ m_pending_transactions client' = delete key (m_pending_transactions client)
    ∧ m_free_keys client' = key :: m_free_keys client.
Proof.
  apply Forall_cons in Hsize as [Hs1 [Hs2 [Hs3 _]%Forall_cons]%Forall_cons].
  rewrite (DetachRequest_one key st (concat go') err x y) by (done || lia || by apply stores_one).
  set (h := mkResponseHeader key x y (Z.of_nat (length err))).
  set (output := take (Z.to_nat y) (concat go')).
  assert (Hlout : Z.of_nat (length output) = y) by (unfold output; rewrite length_take; lia).
  assert (Hh : response_fits h) by (split_and!; cbn; try done; unfold small; lia).
  destruct (answer_one min_size pool h p (concat gi) (concat go) output err)
    as (p' & Hans & Hmove & Hfi' & Hins & Hout & He); try done;
    [by apply stores_one|by apply stores_one|].
  rewrite Hmove in Hans. cbn [mbind option_bind] in Hans.
  eexists _, p'. split; [by eapply (HandlePacket_response _ _ _ h output err rest p)|].
  split_and!; try done.
  - by rewrite Hfi', Hfi.
  - cbn. apply delete_insert_eq.
Qed.

(** An answer brings the client what the driver did.  Both ends hold the
    transaction in one chunk each; the driver has completed the actions in front of
    some boundary, filled in results and maybe left an error.  The answer resolves
    the transaction that waits under the key: its boundary, its results up to the
    boundary and its error are those of the driver, it counts as complete if the
    driver's does, and the key is free again. *)
Theorem response_returns `{FreshBytes} `{WholeReads} (min_size : nat) (client : Tunnel) (pool : Buffer) (key : Z)
    (p st : PendingTransaction) (gi go gi' go' : list (list Z)) (err : list Z) (x y : Z)
    (rest : list Z)
    (Hfresh : ∀ n, length (fresh_bytes n) = n) (Hpool : cleared pool)
    (Hp : m_pending_transactions client !! key = Some p) (Hkey : small key)
    (Hpe : error_buffer p = None)
    (Hi : stores (ins (storage p)) [gi]) (Ho : stores (outs (storage p)) [go])
    (Hi' : stores (ins (storage st)) [gi']) (Ho' : stores (outs (storage st)) [go'])
    (Hli : length (concat gi') = length (concat gi)) (Hlo : length (concat go') = length (concat go))
    (Hfi : first_incomplete st = (at_offset x, at_offset y))
    (Hx : 0 ≤ x ≤ Z.of_nat (length (concat gi))) (Hy : 0 ≤ y ≤ Z.of_nat (length (concat go)))
    (Herr : error_bytes (error_buffer st) err)
    (Hsize : Forall (λ n, Z.of_nat n < 2 ^ 32) [length (concat gi); length (concat go); length err]) :
  ∃ client' p', HandlePacket min_size (λ _, true) pool (λ _, true) (λ _, true) client
                  (DetachRequest key st ++ rest) = Some (client', [Resolved key p'], inr rest)
    ∧ first_incomplete p' = first_incomplete st ∧ status_ok p' = status_ok st
    ∧ ins (storage p') = ins (storage p)
    ∧ one_object (outs (storage p')) (take (Z.to_nat y) (concat go') ++ drop (Z.to_nat y) (concat go))
    ∧ error_bytes (error_buffer p') err
    ∧ m_pending_transactions client' = delete key (m_pending_transactions client)
    ∧ m_free_keys client' = key :: m_free_keys client.
Proof.
  destruct (response_one min_size client pool key p st gi go gi' go' err x y rest)
    as (client' & p' & Hpacket & Hfi' & Hins & Hout & He & Hpend & Hfree); [done..|].
  set (output := take (Z.to_nat y) (concat go')) in *.
  assert (Hlout : length output = Z.to_nat y) by (unfold output; rewrite length_take; lia).
  assert (Hone : one_object (outs (storage p')) (output ++ drop (Z.to_nat y) (concat go))).
  { rewrite Hout, <-Hlout. destruct (Z.eqb_spec y 0) as [->|]; [by apply stores_one|].
    apply copy_output_one; [by apply stores_one|]. rewrite Hlout. lia. }
  exists client', p'. split_and!; try done.
  unfold status_ok, HadAllocationFailure. rewrite Hins, Hfi', Hfi.
  rewrite (stores_End _ _ Hi), (stores_End _ _ Hi'), Hli, (holds_failure _ _ Hi), (holds_failure _ _ Hi').
  by rewrite (holds_failure _ _ Ho'), (one_failure _ _ Hone).
Qed.

(** ** What goes wrong *)

(** Where [FromDistance] puts the end of two chunks. *)
Lemma from_distance_two b g0 g1 :
  stores b [g0; g1] → Z.of_nat (length (concat (concat [g0; g1]))) < 2 ^ 32 →
  from_distance b (Z.of_nat (length (concat (concat [g0; g1]))))
  = Some (Some 1%nat, length (concat g1)).
Proof.
  intros [Hch _ Ht _ _] Hl. cbn [concat] in *. rewrite app_nil_r, concat_app, length_app in *.
  apply Forall2_cons_inv_r in Hch as (c0 & cs & [Ha _ _ _] & Hch & Heq).
  apply Forall2_cons_inv_r in Hch as (c1 & cs' & _ & _ & ->).
  unfold from_distance, FromDistance. rewrite Heq. cbn [FromDistanceLoop]. rewrite Ht. cbn [length Nat.sub].
  rewrite bool_decide_eq_true_2 by done. rewrite bool_decide_eq_false_2 by (intros Hn; by apply Hn).
  cbn [andb]. rewrite Ha. unfold g_initial_offset.
  destruct (Z.leb_spec (Z.of_nat (32 + length (concat g0)) - Z.of_nat 32)
              (Z.of_nat (length (concat g0) + length (concat g1)))); [|lia].
  cbn [mbind option_bind]. rewrite wrap_add_l.
  replace (_ - _ + _) with (Z.of_nat (length (concat g1))) by lia.
  rewrite (wrap_small 64) by lia. by rewrite Nat2Z.id.
Qed.

(** A transaction whose inputs fill two chunks is never seen complete by its
    client.  Although the driver at the other end has completed all of its actions
    and left no error, the answer moves the boundary of the client's transaction
    to a position in front of its end, and its status says that it failed. *)
Theorem long_transaction_unfinished `{FreshBytes} `{WholeReads} (min_size : nat) (client : Tunnel) (pool : Buffer)
    (key : Z) (p st : PendingTransaction) (g0 g1 go gi' go' : list (list Z)) (rest : list Z)
    (Hp : m_pending_transactions client !! key = Some p) (Hkey : small key)
    (Hpe : error_buffer p = None)
    (Hi : stores (ins (storage p)) [g0; g1]) (Ho : stores (outs (storage p)) [go])
    (Hi' : stores (ins (storage st)) [gi']) (Ho' : stores (outs (storage st)) [go'])
    (Hli : length (concat gi') = length (concat (concat [g0; g1])))
    (Hlo : length (concat go') = length (concat go))
    (Hdone : first_incomplete st = (End (ins (storage st)), End (outs (storage st))))
    (Herr : error_buffer st = None)
    (Hsize : Forall (λ n, Z.of_nat n < 2 ^ 32) [length (concat gi'); length (concat go')]) :
  status_ok st = true
  ∧ ∃ client' p', HandlePacket min_size (λ _, true) pool (λ _, true) (λ _, true) client
                    (DetachRequest key st ++ rest) = Some (client', [Resolved key p'], inr rest)
      ∧ status_ok p' = false ∧ error_buffer p' = None.
Proof.
  apply Forall_cons in Hsize as [Hs1 [Hs2 _]%Forall_cons].
  rewrite (stores_End _ _ Hi'), (stores_End _ _ Ho') in Hdone. split.
  { unfold status_ok, HadAllocationFailure.
    by rewrite Hdone, (stores_End _ _ Hi'), (holds_failure _ _ Hi'), (holds_failure _ _ Ho'),
      bool_decide_eq_true_2. }
  set (x := Z.of_nat (length (concat gi'))). set (y := Z.of_nat (length (concat go'))).
  rewrite (DetachRequest_one key st (concat go') [] x y);
    [|by apply stores_one|by rewrite Herr|unfold at_offset, x, y; by rewrite Hdone, !Nat2Z.id|lia..|done].
  unfold y. rewrite Nat2Z.id, take_ge by lia. fold y.
  set (h := mkResponseHeader key x y (Z.of_nat (length []))).
  assert (Hmove : move_boundary h p
    = Some (mkPending (storage p) None ((Some 1%nat, length (concat g1)), at_offset y))).
  { unfold move_boundary. cbn [h first_incomplete_input_offset first_incomplete_output_offset].
    unfold x. rewrite Hli, (from_distance_two _ g0 g1 Hi) by lia. cbn [mbind option_bind].
    rewrite (from_distance_one _ (concat go)) by (lia || by apply stores_one). by rewrite Hpe. }
  assert (Hh : response_fits h) by (split_and!; cbn; try done; unfold small; lia).
  eexists _, _. split.
  { by eapply (HandlePacket_response _ _ _ h (concat go') [] rest p). }
  split; [|done]. unfold status_ok. cbn [storage first_incomplete fst ins].
  rewrite (bool_decide_eq_false_2 (_ = End _)); [by rewrite andb_false_r|].
  destruct Hi as [_ _ Ht Hoff _]. unfold End. rewrite Ht, Hoff. cbn. intros [= Heq].
  unfold g_initial_offset in Heq. lia.
Qed.

Lemma receive2_fails `{Delivery} n m input : n ≠ 0 → deliver n input = None → receive2 n m input = None.
Proof. intros Hn Hd. unfold receive2, receive_if, receive. rewrite Hd. by destruct (Z.eqb_spec n 0). Qed.

(** A stream that breaks inside of an answer makes the client believe that
    its transaction has succeeded.  The header says that all actions are complete
    and moves the boundary; when the results do not arrive the transaction is
    aborted, but [Fail] leaves a transaction that looks complete alone: it ends
    with a status that is true, no error, and results that were never filled in. *)
Theorem cut_answer_succeeds `{ShiftUB} `{FreshBytes} `{WholeReads} (min_size : nat) (client : Tunnel)
    (pool : Buffer) (d : DriverID) (key : Z) (p st : PendingTransaction)
    (gi go gi' go' : list (list Z)) (n : nat) (cause : CauseArg)
    (Hp : m_pending_transactions client !! key = Some p) (Hkey : small key)
    (Hpe : error_buffer p = None)
    (Hi : stores (ins (storage p)) [gi]) (Ho : stores (outs (storage p)) [go])
    (Hi' : stores (ins (storage st)) [gi']) (Ho' : stores (outs (storage st)) [go'])
    (Hli : length (concat gi') = length (concat gi)) (Hlo : length (concat go') = length (concat go))
    (Hdone : first_incomplete st = (End (ins (storage st)), End (outs (storage st))))
    (Herr : error_buffer st = None)
    (Hsize : Forall (λ n, Z.of_nat n < 2 ^ 32) [length (concat gi'); length (concat go')])
    (Hcut : (20 ≤ n < 20 + length (concat go'))%nat)
    (Hends : ∀ m input, Z.of_nat (length input) < m → deliver m input = None) :
  ∃ client' events p',
    EventLoop min_size (λ _, true) pool (λ _, true) (λ _, true) 1 client (take n (DetachRequest key st))
      = Some (client', events, StreamFailed)
    ∧ Aborted key p' StreamFailed ∈ events
    ∧ Execute_end min_size (λ _, true) d pool p' (Some cause) = Some p'
    ∧ status_ok p' = true ∧ error_buffer p' = None ∧ storage p' = storage p.
Proof.
  apply Forall_cons in Hsize as [Hs1 [Hs2 _]%Forall_cons].
  rewrite (stores_End _ _ Hi'), (stores_End _ _ Ho') in Hdone.
  set (x := Z.of_nat (length (concat gi'))). set (y := Z.of_nat (length (concat go'))).
  rewrite (DetachRequest_one key st (concat go') [] x y);
    [|by apply stores_one|by rewrite Herr|unfold at_offset, x, y; by rewrite Hdone, !Nat2Z.id|lia..|done].
  set (h := mkResponseHeader key x y (Z.of_nat (length []))).
  set (p1 := mkPending (storage p) None (at_offset x, at_offset y)).
  assert (Hmove : move_boundary h p = Some p1).
  { unfold move_boundary. cbn [h first_incomplete_input_offset first_incomplete_output_offset].
    rewrite (from_distance_one _ (concat gi) x); [|by apply stores_one|lia]. cbn [mbind option_bind].
    rewrite (from_distance_one _ (concat go) y); [|by apply stores_one|lia]. by rewrite Hpe. }
  assert (Hh : response_fits h) by (split_and!; cbn; try done; unfold small; lia).
  assert (Hok : status_ok p1 = true).
  { unfold status_ok, HadAllocationFailure, p1. cbn [storage first_incomplete fst].
    rewrite (stores_End _ _ Hi), (holds_failure _ _ Hi), (holds_failure _ _ Ho). cbn [orb negb andb].
    apply bool_decide_eq_true_2. unfold at_offset, x. by rewrite Nat2Z.id, Hli. }
  eexists _, _, p1. split; [|split].
  - cbn [EventLoop]. rewrite (take_app_ge (ToBytes Packet.Response)), length_ToBytes by (rewrite length_ToBytes; lia).
    rewrite (take_app_ge (ToBytes h)), length_ToBytes by (rewrite length_ToBytes; lia).
    rewrite HandlePacket_head by done. unfold HandleResponse. change (response_key h) with key.
    rewrite Hp. cbn [mbind option_bind]. rewrite Hmove. cbn [mbind option_bind].
    rewrite receive2_fails; [done|cbn; unfold y; lia|]. apply Hends. rewrite length_take, app_nil_r, length_take. cbn. lia.
  - cbn [app]. apply elem_of_app. left. apply list_elem_of_fmap. exists (key, p1). split; [done|].
    apply elem_of_map_to_list. apply lookup_insert_eq.
  - split_and!; try done. unfold Execute_end. rewrite Hok. by destruct cause.
Qed.

(** A tunnel that cannot serve a request breaks the tunnel of its peer.
    [AbortTransaction] sends the header of a response without the packet ID in
    front: the peer takes the key for the ID of a packet and gives up all of its
    transactions.  This is so for every key but the two that happen to be IDs. *)
Theorem abort_breaks_peer `{FreshBytes} `{WholeReads} (min_size : nat) (alloc : nat → bool) (pool : Buffer)
    (frame written : Z → bool) (server peer : Tunnel) (h : RequestHeader) (input inputs next : list Z)
    (Hunknown : m_my_drivers server !! Z.to_nat (driver_index h) = None)
    (Hinputs : Z.of_nat (length inputs) = input_length h) (Hsome : 0 < input_length h)
    (Hkey : small (transaction_key h))
    (Hother : transaction_key h ≠ Packet.Request ∧ transaction_key h ≠ Packet.Response)
    (Hnext : (4 ≤ length next)%nat) :
  ∃ bytes, HandleRequest min_size alloc server pool true true h (inputs ++ input)
      = Some (server, [Wrote bytes], inr input)
    ∧ EventLoop min_size alloc pool frame written 1 peer (bytes ++ next)
      = Some (set_alive peer false,
              AbortAll peer (UnexpectedPacket (transaction_key h)) ++ WakeUpExecutionGates peer,
              UnexpectedPacket (transaction_key h)).
Proof.
  exists (ToBytes (mkResponseHeader (transaction_key h) 0 0 0)). split.
  { unfold HandleRequest. rewrite receive_app by done. by rewrite Hunknown. }
  set (r := mkResponseHeader _ _ _ _). cbn [EventLoop]. unfold HandlePacket.
  rewrite <-(take_drop 4 next), app_assoc.
  rewrite receive_app by (done || rewrite length_app, length_ToBytes, length_take; lia).
  assert (Hid : FromBytes (ToBytes r ++ take 4 next) = Some (transaction_key h)).
  { change (FromBytes (A := Z)) with (λ b, read_word b 0). cbn [ToBytes wire_response r response_key].
    rewrite <-!app_assoc. apply (read_word_at [] (transaction_key h)). done. }
  rewrite Hid. cbn [mbind option_bind]. destruct Hother as [Hq%Z.eqb_neq Hs%Z.eqb_neq].
  by rewrite Hq, Hs.
Qed.

(** ** Examples *)

#[local] Existing Instance ub_ones.
#[local] Existing Instance zero_bytes.
#[local] Existing Instance whole_delivery.
#[local] Existing Instance whole_delivery_whole.

Definition full_chunk (bytes : list Z) : Chunk :=
  mkChunk (g_initial_offset + length bytes) (g_initial_offset + length bytes) bytes.

(** A buffer whose chunks are full. *)
Definition full_buffer (chunks : list (list Z)) : Buffer :=
  mkBuffer (full_chunk <$> chunks) (Some (length chunks - 1)%nat)
    (g_initial_offset + length (default [] (last chunks))) false.

Lemma full_chunk_holds bytes : chunk_holds (full_chunk bytes) [bytes].
Proof. split; cbn; rewrite ?app_nil_r; try lia; by rewrite take_ge. Qed.

Lemma full_buffer_stores cs : cs ≠ [] → stores (full_buffer cs) ((λ c, [c]) <$> cs).
Proof.
  intros Hne. split; cbn [full_buffer chunks m_tail m_had_allocation_failure TransactionBuffer.m_offset].
  - apply Forall2_fmap_2, Forall_Forall2_diag, Forall_true. apply full_chunk_holds.
  - apply Forall_fmap, Forall_true. done.
  - rewrite length_fmap. by destruct cs.
  - rewrite fmap_last. destruct (last cs); cbn; by rewrite ?app_nil_r.
  - done.
Qed.

Definition demo_client : Tunnel := mkTunnel [] [mkDriver IDByteStream [65]] [7] 8 ∅ true.
Definition demo_server : Tunnel := mkTunnel [mkDriver IDByteStream [65]] [] [] 0 ∅ true.

Lemma request_reaches_driver_witness :
  ∃ ps s key bytes client' s' acts l,
    add_all 40 (λ _, true) empty_storage (add_args <$> demo_requests) = Some (ps, s)
    ∧ Execute demo_client 0 (mkPending s None (begin_pos s)) true true = (inr (key, bytes), client')
    ∧ m_pending_transactions client' !! key = Some (mkPending s None (begin_pos s))
    ∧ HandlePacket 40 (λ _, true) empty_buffer (λ _, true) (λ _, true) demo_server (bytes ++ [1; 2; 3])
      = Some (demo_server, [Forwarded (mkDriver IDByteStream [65]) key s'], inr [1; 2; 3])
    ∧ HadAllocationFailure s' = false
    ∧ iterate IDByteStream 3 s' (begin_pos s') (end_pos s') = Some acts
    ∧ mapM (visit IDByteStream) acts = Some l ∧ l.*1 = (λ r, r.1.1) <$> demo_requests.
Proof.
  apply (request_reaches_driver 40 IDByteStream [65] demo_requests demo_client demo_server 0 [1; 2; 3]);
    [apply zero_bytes_length|apply demo_requests_ok|done|vm_compute; reflexivity| |split; done|done].
  repeat constructor; done.
Defined.

(** A transaction of eight bytes of input and four of output, and how the driver
    leaves it. *)
Definition demo_pending : PendingTransaction :=
  mkPending (mkStorage (full_buffer [[1; 1; 1; 1; 2; 2; 2; 2]]) (full_buffer [[0; 0; 0; 0]])) None
    (at_offset 0, at_offset 0).

Definition demo_status (error : option Buffer) : PendingTransaction :=
  mkPending (mkStorage (full_buffer [[1; 1; 1; 1; 2; 2; 2; 2]]) (full_buffer [[5; 6; 7; 8]])) error
    (at_offset 8, at_offset 4).

Definition demo_waiting (p : PendingTransaction) : Tunnel :=
  mkTunnel [] [mkDriver IDByteStream [65]] [] 8 {[ 7 := p ]} true.

Lemma response_returns_witness :
  ∃ client' p', HandlePacket 64 (λ _, true) empty_buffer (λ _, true) (λ _, true)
                  (demo_waiting demo_pending)
                  (DetachRequest 7 (demo_status (Some (full_buffer [[9]]))) ++ [])
                = Some (client', [Resolved 7 p'], inr [])
    ∧ first_incomplete p' = (at_offset 8, at_offset 4) ∧ status_ok p' = true
    ∧ ins (storage p') = full_buffer [[1; 1; 1; 1; 2; 2; 2; 2]]
    ∧ one_object (outs (storage p')) [5; 6; 7; 8] ∧ error_bytes (error_buffer p') [9]
    ∧ m_pending_transactions client' = delete 7 {[ 7 := demo_pending ]}
    ∧ m_free_keys client' = [7].
Proof.
  apply (response_returns 64 (demo_waiting demo_pending) empty_buffer 7 demo_pending
           (demo_status (Some (full_buffer [[9]]))) [[1; 1; 1; 1; 2; 2; 2; 2]] [[0; 0; 0; 0]]
           [[1; 1; 1; 1; 2; 2; 2; 2]] [[5; 6; 7; 8]] [9] 8 4 []);
    try reflexivity; try (by apply (full_buffer_stores [_])); try (split; done).
  - apply zero_bytes_length.
  - split; [apply (stores_one _ [[9]]), (full_buffer_stores [_]); done|done].
  - repeat constructor.
Defined.

(** The same input in two chunks. *)
Definition demo_pending_two : PendingTransaction :=
  mkPending (mkStorage (full_buffer [[1; 1; 1; 1]; [2; 2; 2; 2]]) (full_buffer [[0; 0; 0; 0]])) None
    (at_offset 0, at_offset 0).

Lemma long_transaction_unfinished_witness :
  status_ok (demo_status None) = true
  ∧ ∃ client' p', HandlePacket 64 (λ _, true) empty_buffer (λ _, true) (λ _, true)
                    (demo_waiting demo_pending_two) (DetachRequest 7 (demo_status None) ++ [])
                  = Some (client', [Resolved 7 p'], inr [])
      ∧ status_ok p' = false ∧ error_buffer p' = None.
Proof.
  apply (long_transaction_unfinished 64 (demo_waiting demo_pending_two) empty_buffer 7 demo_pending_two
           (demo_status None) [[1; 1; 1; 1]] [[2; 2; 2; 2]] [[0; 0; 0; 0]]
           [[1; 1; 1; 1; 2; 2; 2; 2]] [[5; 6; 7; 8]] []);
    try reflexivity; try (by apply (full_buffer_stores [_])); try (split; done).
  - by apply (full_buffer_stores [_; _]).
  - repeat constructor.
Defined.

Lemma cut_answer_succeeds_witness :
  ∃ client' events p',
    EventLoop 64 (λ _, true) empty_buffer (λ _, true) (λ _, true) 1 (demo_waiting demo_pending)
      (take 22 (DetachRequest 7 (demo_status None))) = Some (client', events, StreamFailed)
    ∧ Aborted 7 p' StreamFailed ∈ events
    ∧ Execute_end 64 (λ _, true) IDByteStream empty_buffer p'
        (Some (CauseMade [] CauseTargetError)) = Some p'
    ∧ status_ok p' = true ∧ error_buffer p' = None ∧ storage p' = storage demo_pending.
Proof.
  apply (cut_answer_succeeds 64 (demo_waiting demo_pending) empty_buffer IDByteStream 7 demo_pending
           (demo_status None) [[1; 1; 1; 1; 2; 2; 2; 2]] [[0; 0; 0; 0]]
           [[1; 1; 1; 1; 2; 2; 2; 2]] [[5; 6; 7; 8]]);
    try reflexivity; try (by apply (full_buffer_stores [_])); try (split; done).
  - repeat constructor.
  - cbn. lia.
  - intros m input Hm. cbn. destruct (Z.leb_spec m (Z.of_nat (length input))); [lia|done].
Defined.

Lemma abort_breaks_peer_witness :
  let h := mkRequestHeader 5 7 2 0 in
  ∃ bytes, HandleRequest 64 (λ _, true) demo_server empty_buffer true true h ([1; 2] ++ [])
      = Some (demo_server, [Wrote bytes], inr [])
    ∧ EventLoop 64 (λ _, true) empty_buffer (λ _, true) (λ _, true) 1 (demo_waiting demo_pending)
        (bytes ++ [4; 0; 0; 0])
      = Some (set_alive (demo_waiting demo_pending) false,
              AbortAll (demo_waiting demo_pending) (UnexpectedPacket 7)
                ++ WakeUpExecutionGates (demo_waiting demo_pending), UnexpectedPacket 7).
Proof.
  intros h. apply (abort_breaks_peer 64 (λ _, true) empty_buffer (λ _, true) (λ _, true) demo_server
                     (demo_waiting demo_pending) h [] [1; 2] [4; 0; 0; 0]);
    try reflexivity; try (split; done).
Defined.
