(* ===== verification/TunnelLoop.v ===== *)
(** * TunnelLoop: the handshake, the event loop and the keys of a tunnel
    ([src/src/libedr/tunnel/ByteStreamTunnel.cpp]).

    What holds of one end of a [Tunnel] whatever the other end sends and however
    the stream delivers it: the handshake and the event loop end, or stop at an
    assertion after a read that delivered too little; otherwise every transaction
    that waits is resolved once; and no two waiting transactions share a key. *)
From S2P Require Import Prelude BitStream Actions TransactionBuffer VSS ActionLayout Storage Errors Tunnel.
From stdpp Require Import gmap.
Local Open Scope Z_scope.
Local Open Scope list_scope.

(** ** Handshake *)

(** A read that delivers fewer than [least] bytes. *)
Definition short_read `{Delivery} (n : Z) (least : nat) (input : list Z) : Prop :=
  ∃ bytes rest, receive n input = Some (bytes, rest) ∧ (length bytes < least)%nat.

Lemma receive_suffix `{Delivery} n input bytes rest : receive n input = Some (bytes, rest) → rest `suffix_of` input.
Proof. intros [-> _]%receive_Some. by exists bytes. Qed.

Lemma receive_le `{Delivery} n input bytes rest :
  receive n input = Some (bytes, rest) → (length rest ≤ length input)%nat.
Proof. intros Hr%receive_suffix. by apply suffix_length. Qed.

Lemma FromBytes_None {A n ok} `{WireLaws A n ok} bytes : FromBytes (A := A) bytes = None → (length bytes < n)%nat.
Proof.
  intros Hn. destruct (decide (length bytes < n)%nat) as [|Hl]; [done|].
  destruct (FromBytes_total bytes ltac:(lia)) as [x Hx]. congruence.
Qed.

Lemma FromBytes_id bytes (id : Z) : FromBytes bytes = Some id → (4 ≤ length bytes)%nat.
Proof.
  cbn. unfold read_word. rewrite drop_0, length_take. 
  destruct (Nat.eqb_spec (Nat.min 4 (length bytes)) 4); [lia|done].
Qed.

Section handshake.
Context `{Delivery} (alloc_name alloc_driver : nat → bool).

Lemma DefineRemote_total remote input :
  (∃ r, DefineRemote alloc_name alloc_driver remote input = Some r
    ∧ ∀ remote' rest, r = inr (remote', rest) → rest `suffix_of` input)
  ∨ DefineRemote alloc_name alloc_driver remote input = None ∧ short_read 8 8 input.
Proof.
  unfold DefineRemote. destruct (receive 8 input) as [[bytes rest]|] eqn:H8; [|left; by eexists].
  pose proof (receive_suffix _ _ _ _ H8) as Hs.
  destruct (FromBytes bytes) as [h|] eqn:Hh; cbn [mbind option_bind].
  2: { right. split; [done|]. exists bytes, rest. split; [done|]. by apply FromBytes_None in Hh. }
  left. destruct (receive (driver_name_length h) rest) as [[name rest']|] eqn:Hn; [|by eexists].
  pose proof (receive_suffix _ _ _ _ Hn). destruct (alloc_name _); [|by eexists]. cbn [negb].
  destruct (driver_of_value _); [|by eexists]. destruct (alloc_driver _); [|by eexists].
  eexists. split; [done|]. intros remote' r [= _ <-]. by transitivity rest.
Qed.

(** The loop ends, or an assertion fails: the ID of a packet or the header of a
    definition came in parts. *)
Lemma HandshakeLoop_total fuel remote input :
  (length input < fuel)%nat →
  (∃ r, HandshakeLoop alloc_name alloc_driver fuel remote input = Some r)
  ∨ HandshakeLoop alloc_name alloc_driver fuel remote input = None
    ∧ ∃ rest, rest `suffix_of` input ∧ (short_read 4 4 rest ∨ short_read 8 8 rest).
Proof.
  revert remote input. induction fuel as [|fuel IH]; intros remote input Hf; [lia|].
  cbn [HandshakeLoop]. destruct (receive 4 input) as [[bytes rest]|] eqn:H4; [|eauto].
  pose proof (receive_suffix _ _ _ _ H4) as Hs. pose proof (receive_Some _ _ _ _ H4) as [Heq _].
  destruct (FromBytes bytes) as [id|] eqn:Hid; cbn [mbind option_bind].
  2: { right. split; [done|]. exists input. split; [done|]. left. exists bytes, rest. split; [done|].
       by apply FromBytes_None in Hid. }
  apply FromBytes_id in Hid. destruct (_ =? _); [eauto|]. destruct (_ =? _); [|eauto].
  destruct (DefineRemote_total remote rest) as [([e|[remote' rest']] & -> & Hle)|[-> Hshort]];
    cbn [mbind option_bind]; [eauto| |right; split; [done|]; exists rest; auto].
  specialize (Hle _ _ eq_refl). destruct (IH remote' rest') as [Hr|(Hn & rest'' & Hs' & Hsh)].
  - apply suffix_length in Hle. rewrite Heq, length_app in Hf. lia.
  - by left.
  - right. split; [done|]. exists rest''. split; [|done]. do 2 (etransitivity; [done|]). done.
Qed.
End handshake.

(** When the other end has sent its definitions, they are read and nothing else. *)
Lemma Handshake_defined `{WholeReads} client server rest :
  m_remote_drivers client = [] → Forall short_name (m_my_drivers server) →
  Handshake (λ _, true) (λ _, true) client true (DefineMyDrivers server ++ rest)
  = Some (set_alive (set_remote client (m_my_drivers server)) true, inr rest).
Proof.
  intros Hnew Hnames. unfold Handshake, DefineMyDrivers. cbn [negb].
  rewrite Hnew, <-!app_assoc, HandshakeLoop_defined; [done|done|].
  rewrite !length_app. assert (Hl : (length (m_my_drivers server)
    ≤ length (concat (define_driver <$> m_my_drivers server)))%nat); [|lia].
  clear. induction (m_my_drivers server) as [|d l IH]; [done|]. cbn [fmap list_fmap concat length].
  rewrite length_app. unfold define_driver at 1. rewrite length_app, length_ToBytes. lia.
Qed.

(** Drivers are found by their type and name. *)
Lemma FindByName_known t id name i :
  FindByName t id name = Some i → m_remote_drivers t !! i = Some (mkDriver id name).
Proof.
  unfold FindByName. destruct (list_find _ _) as [[j d]|] eqn:Hf; [|done]. cbn. intros [= <-].
  apply list_find_Some in Hf as (Hj & [Hid Hname] & _). rewrite Hj. destruct d. cbn in *. by subst.
Qed.

Lemma FindByName_knows t d :
  d ∈ m_remote_drivers t → is_Some (FindByName t (GetID d) (GetName d)).
Proof.
  intros Hd. unfold FindByName.
  destruct (list_find_elem_of (λ d', GetID d' = GetID d ∧ GetName d' = GetName d) (m_remote_drivers t) d)
    as [[j d'] ->]; [done|done|]. by eexists.
Qed.

(** C27: after a handshake the two ends agree about the drivers.  Whatever a tunnel
    reads and in whatever parts, its handshake ends, unless a read delivers less than
    the ID of a packet or the header of a definition that it was for, at which an
    assertion fails.  When the other end has sent its definitions and the reads
    deliver all they ask for, the client knows exactly the drivers registered there,
    in their order, reads nothing beyond the definitions, and [FindByName] gives the
    index under which the other end finds the first driver with that type and name.
    The names have characters, as sockets fail reads of no bytes. *)
Theorem handshake_agrees `{Delivery} (client server : Tunnel) (rest : list Z)
    (Hnew : m_remote_drivers client = []) (Hnames : Forall short_name (m_my_drivers server)) :
  (∀ alloc_name alloc_driver written input,
     (∃ r, Handshake alloc_name alloc_driver client written input = Some r)
     ∨ Handshake alloc_name alloc_driver client written input = None
       ∧ ∃ unread, unread `suffix_of` input ∧ (short_read 4 4 unread ∨ short_read 8 8 unread))
  ∧ (WholeReads → ∃ client', Handshake (λ _, true) (λ _, true) client true (DefineMyDrivers server ++ rest)
        = Some (client', inr rest)
      ∧ m_remote_drivers client' = m_my_drivers server ∧ m_is_alive client' = true
      ∧ (∀ id name i, FindByName client' id name = Some i →
           m_my_drivers server !! i = Some (mkDriver id name))
      ∧ (∀ d, d ∈ m_my_drivers server → is_Some (FindByName client' (GetID d) (GetName d)))).
Proof.
  split.
  { intros an ad [] input; [|left; by eexists]. unfold Handshake. cbn [negb].
    destruct (HandshakeLoop_total an ad (S (length input)) (m_remote_drivers client) input)
      as [[[remote r] ->]|[-> Hs]]; [lia|left; cbn [mbind option_bind]; eauto|by right]. }
  intros Hw. exists (set_alive (set_remote client (m_my_drivers server)) true).
  split; [by apply Handshake_defined|]. split_and!; [done|done| |].
  - intros id name i. apply FindByName_known.
  - intros d Hd. by apply FindByName_knows.
Qed.

(** ** The event loop *)

(** A buffer that something was allocated in. *)
Definition answerable (b : Buffer) : Prop := ∃ tail, m_tail b = Some tail ∧ (tail < length (chunks b))%nat.

Lemma FromDistanceLoop_total cs i tail x :
  (i ≤ tail < i + length cs)%nat → is_Some (FromDistanceLoop cs i (Some tail) x).
Proof.
  revert i x. induction cs as [|c cs IH]; intros i x Hi; cbn [length] in Hi; [lia|].
  cbn [FromDistanceLoop]. destruct (decide (i = tail)) as [->|Hne].
  - rewrite bool_decide_eq_false_2 by (intros Hn; by apply Hn). by eexists.
  - destruct (_ && _); [|by eexists]. apply IH. lia.
Qed.

Lemma from_distance_total b x : answerable b → is_Some (from_distance b x).
Proof.
  intros (tail & Ht & Hl). unfold from_distance, FromDistance. rewrite Ht.
  destruct (chunks b) as [|c cs] eqn:Hc; [simpl in Hl; lia|].
  destruct (FromDistanceLoop_total (c :: cs) 0 tail x) as [[i d] ->]; [lia|]. by eexists.
Qed.

Section event_loop.
Context `{FreshBytes} `{Delivery} (t_min_chunk_size : nat) (alloc : nat → bool).
Context (pool : Buffer) (frame written : Z → bool) (pool_cleared : cleared pool).

Lemma Allocate_total n : ∃ r, Allocate t_min_chunk_size alloc pool n = Some r.
Proof.
  destruct pool_cleared as [Ht _ _ _]. unfold Allocate, GoToNextChunk, next_chunk, make_chunk, place.
  rewrite Ht. cbn [mbind option_bind]. destruct pool as [[|c cs] tail off fail]; cbn.
  - destruct (alloc _); cbn; eauto.
  - destruct (_ <=? _)%nat; cbn; [eauto|]. destruct (alloc _); cbn; eauto.
Qed.

Lemma remote_storage_total inputs n :
  is_Some (remote_storage t_min_chunk_size alloc pool inputs n).
Proof.
  unfold remote_storage, emplace. destruct (Allocate_total (length inputs)) as [[[p ok] b] ->].
  cbn [mbind option_bind]. destruct (Allocate_total (Z.to_nat n)) as [[[p' ok'] b'] ->]. by eexists.
Qed.

Lemma fill_in_total h output error p :
  is_Some (fill_in t_min_chunk_size alloc pool h output error p).
Proof.
  unfold fill_in, receive_error. destruct (error_length h =? 0); [by eexists|].
  destruct (Allocate_total (length error)) as [[[q ok] b] ->]. by eexists.
Qed.

Definition tunnel_ok (t : Tunnel) : Prop :=
  map_Forall (λ _ p, answerable (ins (storage p)) ∧ answerable (outs (storage p)))
    (m_pending_transactions t).

Lemma move_boundary_total h p :
  answerable (ins (storage p)) → answerable (outs (storage p)) →
  ∃ pos, move_boundary h p = Some (mkPending (storage p) (error_buffer p) pos).
Proof.
  intros Hi Ho. unfold move_boundary.
  destruct (from_distance_total _ (first_incomplete_input_offset h) Hi) as [i ->].
  destruct (from_distance_total _ (first_incomplete_output_offset h) Ho) as [o ->]. by eexists.
Qed.

(** The keys of the transactions that are resolved by events, and of those that wait. *)
Definition resolved_keys (events : list Event) : list Z :=
  omap (λ e, match e with Resolved key _ | Aborted key _ _ => Some key | _ => None end) events.

Definition waiting_keys (t : Tunnel) : list Z := (map_to_list (m_pending_transactions t)).*1.

(** What a handler leaves behind. *)
Definition handled (t : Tunnel) (input : list Z) (r : option Handled) : Prop :=
  ∃ t' events res, r = Some (t', events, res) ∧ tunnel_ok t'
    ∧ m_my_drivers t' = m_my_drivers t ∧ m_next_key t' = m_next_key t
    ∧ m_free_keys t' = resolved_keys events ++ m_free_keys t
    ∧ resolved_keys events ++ waiting_keys t' ≡ₚ waiting_keys t
    ∧ ∀ rest, res = inr rest → (length rest ≤ length input)%nat.

(** The header of a packet came in parts, less than its ID in the first. *)
Definition cut_header (input : list Z) : Prop := short_read 20 4 input.

Lemma AbortTransaction_handled t key w input :
  tunnel_ok t → handled t input (Some (AbortTransaction t key w input)).
Proof. intros Ht. destruct w; eexists _, _, _; split_and!; try done. by intros rest [= <-]. Qed.

Lemma handled_le t input input' r :
  handled t input r → (length input ≤ length input')%nat → handled t input' r.
Proof.
  intros (t' & ev & res & -> & Hok & Hd & Hn & Hf & Hk & Hl) Hle. eexists _, _, _. split_and!; try done.
  intros rest Hr. specialize (Hl rest Hr). lia.
Qed.

Lemma HandleRequest_handled t f w h input :
  tunnel_ok t → handled t input (HandleRequest t_min_chunk_size alloc t pool f w h input).
Proof.
  intros Ht. unfold HandleRequest. destruct (receive _ _) as [[inputs rest]|] eqn:Hr.
  2: { eexists _, _, _. by split_and!. }
  apply receive_le in Hr. apply (handled_le t rest); [|done].
  destruct (_ !! _) as [d|]; [|by apply AbortTransaction_handled].
  destruct (remote_storage_total inputs (output_length h)) as [s ->]. cbn [mbind option_bind].
  destruct f; [|by apply AbortTransaction_handled].
  eexists _, _, _. split_and!; try done. by intros ? [= <-].
Qed.

Lemma HandleResponse_handled t h input :
  tunnel_ok t → handled t input (HandleResponse t_min_chunk_size alloc t pool h input).
Proof.
  intros Ht. unfold HandleResponse, receive2.
  assert (Hif : ∀ n i x i', receive_if n i = Some (x, i') → (length i' ≤ length i)%nat).
  { unfold receive_if. intros n i x i'. destruct (_ =? _); [by intros [= _ <-]|apply receive_le]. }
  assert (Hle : ∀ output error rest,
    ('(x, i) ← receive_if (first_incomplete_output_offset h) input; '(y, i) ← receive_if (error_length h) i;
      Some (x, y, i)) = Some (output, error, rest) → (length rest ≤ length input)%nat).
  { intros output error rest. destruct (receive_if _ input) as [[x i]|] eqn:E1; [|done]. cbn [mbind option_bind].
    destruct (receive_if _ i) as [[y i']|] eqn:E2; [|done]. cbn. intros [= _ _ <-].
    apply Hif in E1, E2. lia. }
  destruct (m_pending_transactions t !! response_key h) as [p|] eqn:Hp; cbn [mbind option_bind].
  - destruct (Ht _ _ Hp) as [Hi Ho]. destruct (move_boundary_total h p Hi Ho) as [pos ->].
    cbn [mbind option_bind]. destruct (_ ≫= _) as [[[output error] rest]|].
    + specialize (Hle _ _ _ eq_refl).
      destruct (fill_in_total h output error (mkPending (storage p) (error_buffer p) pos)) as [p' ->].
      eexists _, _, _. split; [done|]. cbn. rewrite delete_insert_eq. split_and!; [|done|done|done| |].
      * apply map_Forall_delete. exact Ht.
      * unfold waiting_keys. cbn. rewrite <-(map_to_list_delete _ _ _ Hp). done.
      * by intros ? [= <-].
    + eexists _, _, _. split; [done|]. cbn. split_and!; [|done|done|done| |done].
      * by apply map_Forall_insert_2.
      * unfold waiting_keys. cbn. rewrite <-insert_delete_eq, map_to_list_insert by apply lookup_delete_eq.
        rewrite <-(map_to_list_delete _ _ _ Hp). done.
  - destruct (_ ≫= _) as [[[output error] rest]|].
    + specialize (Hle _ _ _ eq_refl). eexists _, _, _. split_and!; try done. by intros ? [= <-].
    + eexists _, _, _. by split_and!.
Qed.

Lemma HandlePacket_handled t input :
  tunnel_ok t →
  (handled t input (HandlePacket t_min_chunk_size alloc pool frame written t input)
    ∧ ∀ t' events rest, HandlePacket t_min_chunk_size alloc pool frame written t input
        = Some (t', events, inr rest) → (length rest < length input)%nat)
  ∨ HandlePacket t_min_chunk_size alloc pool frame written t input = None ∧ cut_header input.
Proof.
  intros Ht. unfold HandlePacket. destruct (receive 20 input) as [[bytes rest]|] eqn:Hr.
  2: { left. split; [|done]. eexists _, _, _. by split_and!. }
  pose proof (receive_Some _ _ _ _ Hr) as [Heq Hl20].
  destruct (FromBytes bytes) as [id|] eqn:Hid; cbn [mbind option_bind].
  2: { right. split; [done|]. exists bytes, rest. split; [done|]. by apply FromBytes_None in Hid. }
  apply FromBytes_id in Hid. left.
  assert (Hlt : (length rest < length input)%nat) by (rewrite Heq, length_app; lia).
  assert (Hwrap : ∀ r, handled t rest r → handled t input r
    ∧ ∀ t' events rest', r = Some (t', events, inr rest') → (length rest' < length input)%nat).
  { intros r Hr'. split; [apply (handled_le t rest); [done|lia]|]. intros t' events rest' ->.
    destruct Hr' as (? & ? & ? & [= <- <- <-] & _ & _ & _ & _ & _ & Hle).
    specialize (Hle _ eq_refl). lia. }
  assert (Hmem : length (drop 4 (result_memory 20 bytes (stale input))) = 16%nat)
    by (rewrite length_drop, result_memory_length; [done|exact Hl20]).
  destruct (id =? Packet.Request).
  { destruct (FromBytes_total (A := RequestHeader) _ (Nat.eq_le_incl _ _ (eq_sym Hmem))) as [h ->].
    by apply Hwrap, HandleRequest_handled. }
  destruct (id =? Packet.Response).
  { destruct (FromBytes_total (A := ResponseHeader) _ (Nat.eq_le_incl _ _ (eq_sym Hmem))) as [h ->].
    by apply Hwrap, HandleResponse_handled. }
  apply Hwrap. eexists _, _, _. by split_and!.
Qed.

Lemma resolved_keys_app l1 l2 : resolved_keys (l1 ++ l2) = resolved_keys l1 ++ resolved_keys l2.
Proof. apply omap_app. Qed.

Lemma resolved_AbortAll t e : resolved_keys (AbortAll t e) = waiting_keys t.
Proof.
  unfold AbortAll, waiting_keys, resolved_keys.
  induction (map_to_list (m_pending_transactions t)) as [|[k p] l IH]; [done|]. cbn. by rewrite IH.
Qed.

Lemma resolved_gates t : resolved_keys (WakeUpExecutionGates t) = [].
Proof.
  unfold WakeUpExecutionGates, resolved_keys.
  by induction (filter _ (m_my_drivers t)).
Qed.

(** The loop goes on to the next packet. *)
Definition next_packet (x y : Tunnel * list Z) : Prop :=
  ∃ events, HandlePacket t_min_chunk_size alloc pool frame written x.1 x.2 = Some (y.1, events, inr y.2).

Lemma EventLoop_resolves fuel t input :
  tunnel_ok t → (length input < fuel)%nat →
  (∃ t' events e, EventLoop t_min_chunk_size alloc pool frame written fuel t input = Some (t', events, e)
    ∧ m_is_alive t' = false ∧ resolved_keys events ≡ₚ waiting_keys t
    ∧ ∀ d, d ∈ m_my_drivers t → GetID d = IDExecutionGate → Terminated d ∈ events)
  ∨ ∃ t' rest, rtc next_packet (t, input) (t', rest) ∧ cut_header rest
      ∧ ∀ fuel', EventLoop t_min_chunk_size alloc pool frame written fuel' t input = None.
Proof.
  revert t input. induction fuel as [|fuel IH]; intros t input Ht Hf; [lia|]. cbn [EventLoop].
  destruct (HandlePacket_handled t input Ht)
    as [[(t' & ev & [e|rest] & Hh & Ht' & Hd & Hn & Hfree & Hk & _) Hlt]|[Hnone Hcut]].
  3: { right. exists t, input. split_and!; [done|done|]. intros [|f']; [done|]. cbn [EventLoop]. by rewrite Hnone. }
  - rewrite Hh. cbn [mbind option_bind]. left. eexists _, _, _. split_and!; [done|done| |].
    + rewrite !resolved_keys_app, resolved_AbortAll, resolved_gates, app_nil_r. done.
    + intros d Hin Hid. apply elem_of_app. right. apply elem_of_app. right.
      apply list_elem_of_fmap. exists d. split; [done|]. apply list_elem_of_filter. by rewrite Hd.
  - rewrite Hh. cbn [mbind option_bind]. destruct (IH t' rest Ht') as [(t2 & ev2 & e & -> & Halive & Hk2 & Hgates)
      |(t2 & rest2 & Hstar & Hcut & Hnone)].
    { specialize (Hlt _ _ _ Hh). lia. }
    + left. eexists _, _, _. split_and!; [done|done| |].
      * by rewrite resolved_keys_app, Hk2.
      * intros d Hin Hid. apply elem_of_app. right. apply Hgates; [by rewrite Hd|done].
    + right. exists t2, rest2. split_and!; [|done|].
      * eapply rtc_l; [|done]. by exists ev.
      * intros [|f']; [done|]. cbn [EventLoop]. rewrite Hh. cbn [mbind option_bind]. by rewrite Hnone.
Qed.
End event_loop.

(** C10: whatever bytes arrive and in whatever parts, the event loop of a tunnel ends
    when the stream does, or at the first packet it cannot take.  Every transaction
    that was waiting has then been resolved exactly once, by its answer or by an
    error, the tunnel is not alive any more and every execution gate is terminated;
    no position is looked for outside of the buffers, whichever allocations and
    writes fail.  The one exception: the loop reaches a header of which the stream
    delivers less than a packet ID; then an assertion fails and nothing is
    resolved. *)
Theorem event_loop_resolves_all `{FreshBytes} `{Delivery} (min_size : nat) (alloc : nat → bool)
    (pool : Buffer) (frame written : Z → bool) (t : Tunnel) (input : list Z)
    (Hpool : cleared pool) (Ht : tunnel_ok t) :
  (∃ t' events e,
    EventLoop min_size alloc pool frame written (S (length input)) t input = Some (t', events, e)
    ∧ m_is_alive t' = false ∧ resolved_keys events ≡ₚ waiting_keys t
    ∧ ∀ d, d ∈ m_my_drivers t → GetID d = IDExecutionGate → Terminated d ∈ events)
  ∨ ∃ t' rest, rtc (next_packet min_size alloc pool frame written) (t, input) (t', rest) ∧ cut_header rest
      ∧ ∀ fuel, EventLoop min_size alloc pool frame written fuel t input = None.
Proof. apply EventLoop_resolves; [done|done|lia]. Qed.

(** ** Keys *)

(** Free keys and the keys of waiting transactions are distinct and were handed
    out. *)
Record keys_ok (t : Tunnel) : Prop := {
  keys_next : 0 ≤ m_next_key t < 2 ^ 32;
  keys_distinct : NoDup (m_free_keys t ++ waiting_keys t);
  keys_used : Forall (λ k, 0 ≤ k < m_next_key t) (m_free_keys t ++ waiting_keys t);
}.

Lemma empty_keys_ok : keys_ok empty_tunnel.
Proof. split; [done|constructor|constructor]. Qed.

Lemma keys_ok_perm t t' :
  m_next_key t' = m_next_key t →
  m_free_keys t' ++ waiting_keys t' ≡ₚ m_free_keys t ++ waiting_keys t → keys_ok t → keys_ok t'.
Proof. intros Hn Hp [H1 H2 H3]. split; rewrite ?Hn, ?Hp; done. Qed.

Lemma waiting_insert t free next key tx :
  m_pending_transactions t !! key = None →
  waiting_keys (set_keys t free next (<[key := tx]> (m_pending_transactions t)))
  ≡ₚ key :: waiting_keys t.
Proof. intros Hk. unfold waiting_keys. cbn. by rewrite map_to_list_insert. Qed.

Lemma waiting_lookup t key : key ∉ waiting_keys t → m_pending_transactions t !! key = None.
Proof.
  intros Hk. apply eq_None_not_Some. intros [p Hp]. apply Hk. unfold waiting_keys.
  apply list_elem_of_fmap. exists (key, p). split; [done|]. by apply elem_of_map_to_list.
Qed.

(** A new key is waited for by nobody. *)
Lemma Schedule_keys t tx allocated r t' :
  keys_ok t → m_next_key t + 1 < 2 ^ 32 → ScheduleRemoteTransaction t tx allocated = (r, t') →
  keys_ok t' ∧ ∀ key, r = Some key →
    small key ∧ m_pending_transactions t !! key = None
    ∧ m_pending_transactions t' = <[key := tx]> (m_pending_transactions t)
    ∧ key ∉ m_free_keys t'.
Proof.
  intros [Hn Hnd Hused] Hmax. unfold ScheduleRemoteTransaction.
  destruct (m_free_keys t) as [|key free] eqn:Hfree.
  - rewrite (wrap_small 32) by lia. cbn [app] in *.
    assert (Hnew : m_next_key t ∉ waiting_keys t).
    { intros Hin. rewrite Forall_forall in Hused. specialize (Hused _ Hin). lia. }
    pose proof (waiting_lookup _ _ Hnew) as Hnone.
    destruct allocated; intros [= <- <-].
    + split; [split; cbn [m_free_keys m_next_key set_keys app]|].
      * lia.
      * rewrite waiting_insert by done. by constructor.
      * rewrite waiting_insert by done. constructor; [lia|].
        eapply Forall_impl; [exact Hused|]. cbn. lia.
      * intros key [= <-]. split_and!; [split; lia|done|done|apply not_elem_of_nil].
    + split; [|done]. split; cbn [m_free_keys m_next_key set_keys app]; [lia|done|].
      eapply Forall_impl; [exact Hused|]. cbn. lia.
  - cbn [app] in Hnd, Hused. apply NoDup_cons in Hnd as [Hnin Hnd].
    apply Forall_cons in Hused as [Hk Hused].
    assert (Hnone : m_pending_transactions t !! key = None) by (apply waiting_lookup; set_solver).
    destruct allocated; intros [= <- <-].
    + split; [split; cbn [m_free_keys m_next_key set_keys]|].
      * done.
      * rewrite waiting_insert, <-Permutation_middle by done. by constructor.
      * rewrite waiting_insert, <-Permutation_middle by done. by constructor.
      * intros ? [= <-]. split_and!; [split; lia|done|done|cbn; set_solver].
    + split; [|done]. split; cbn [m_free_keys m_next_key set_keys]; done.
Qed.

Lemma Execute_keys t index tx allocated written r t' :
  keys_ok t → m_next_key t + 1 < 2 ^ 32 → Execute t index tx allocated written = (r, t') →
  keys_ok t' ∧ ∀ key bytes, r = inr (key, bytes) →
    small key ∧ m_pending_transactions t !! key = None
    ∧ m_pending_transactions t' = <[key := tx]> (m_pending_transactions t).
Proof.
  intros Hk Hmax. unfold Execute. destruct (_ <? _); [by intros [= <- <-]|].
  destruct (_ <? _); [by intros [= <- <-]|].
  destruct (ScheduleRemoteTransaction t tx allocated) as [[key|] t1] eqn:Hs; [|].
  2: { intros [= <- <-]. by destruct (Schedule_keys _ _ _ _ _ Hk Hmax Hs). }
  destruct (Schedule_keys _ _ _ _ _ Hk Hmax Hs) as [Hk1 Hkey].
  destruct (Hkey key eq_refl) as (Hsm & Hnone & Hpend & Hnf). destruct written; intros [= <- <-].
  - split; [done|]. intros ? ? [= <- <-]. done.
  - split; [|done]. apply (keys_ok_perm t1); [done| |done]. cbn [m_free_keys set_keys].
    unfold waiting_keys. cbn. rewrite Hpend, delete_insert_id by done.
    rewrite map_to_list_insert by done. cbn. by rewrite Permutation_middle.
Qed.

(** The steps of a tunnel: clients send transactions, packets are handled. *)
Inductive tunnel_step `{FreshBytes} `{Delivery} (min_size : nat) (alloc : nat → bool) (pool : Buffer)
    (frame written : Z → bool) : Tunnel → Tunnel → Prop :=
| StepExecute t index tx allocated sent r t' :
    answerable (ins (storage tx)) → answerable (outs (storage tx)) → m_next_key t + 1 < 2 ^ 32 →
    Execute t index tx allocated sent = (r, t') → tunnel_step min_size alloc pool frame written t t'
| StepPacket t input t' events r :
    HandlePacket min_size alloc pool frame written t input = Some (t', events, r) →
    tunnel_step min_size alloc pool frame written t t'.

Lemma Execute_ok t index tx allocated sent r t' :
  answerable (ins (storage tx)) → answerable (outs (storage tx)) → tunnel_ok t →
  Execute t index tx allocated sent = (r, t') → tunnel_ok t'.
Proof.
  intros Hi Ho Ht. unfold Execute, ScheduleRemoteTransaction, tunnel_ok.
  destruct (_ <? _); [by intros [= <- <-]|]. destruct (_ <? _); [by intros [= <- <-]|].
  destruct (m_free_keys t) as [|k free]; destruct allocated; [destruct sent| |destruct sent|];
    intros [= <- <-]; cbn; try done; try (by apply map_Forall_insert_2); apply map_Forall_delete;
    by apply map_Forall_insert_2.
Qed.

Lemma step_ok `{FreshBytes} `{Delivery} min_size alloc pool frame written t t' :
  cleared pool → tunnel_step min_size alloc pool frame written t t' →
  tunnel_ok t ∧ keys_ok t → tunnel_ok t' ∧ keys_ok t'.
Proof.
  intros Hpool [t0 index tx a s r t1 Hi Ho Hmax He|t0 input t1 events r Hh] [Ht Hk].
  - split; [by eapply Execute_ok|]. by eapply Execute_keys.
  - destruct (HandlePacket_handled min_size alloc pool frame written Hpool t0 input Ht)
      as [[(t2 & ev & res & Hh' & Ht' & _ & Hn & Hfree & Hkeys & _) _]|[Hnone _]]; [|congruence].
    rewrite Hh in Hh'. injection Hh' as <- <- <-. split; [done|].
    apply (keys_ok_perm t0); [done| |done]. rewrite Hfree, <-Hkeys. rewrite <-app_assoc.
    rewrite !app_assoc. by rewrite (Permutation_app_comm (resolved_keys events)).
Qed.

(** C26: no two transactions wait under the same key.  In every state that a new
    tunnel reaches by sending transactions and handling any packets, the key that a
    transaction is sent with is waited for by no other one, so that its answer
    cannot resolve another; this holds until 2^32 keys are in use. *)
Theorem keys_never_shared `{FreshBytes} `{Delivery} (min_size : nat) (alloc : nat → bool) (pool : Buffer)
    (frame written : Z → bool) (t t' : Tunnel) (index : Z) (tx : PendingTransaction)
    (allocated sent : bool) (key : Z) (bytes : list Z)
    (Hpool : cleared pool)
    (Hreach : rtc (tunnel_step min_size alloc pool frame written) empty_tunnel t)
    (Hmax : m_next_key t + 1 < 2 ^ 32)
    (Hsent : Execute t index tx allocated sent = (inr (key, bytes), t')) :
  keys_ok t ∧ m_pending_transactions t !! key = None ∧ small key
  ∧ m_pending_transactions t' = <[key := tx]> (m_pending_transactions t).
Proof.
  assert (Hok : tunnel_ok t ∧ keys_ok t).
  { assert (Hinit : tunnel_ok empty_tunnel ∧ keys_ok empty_tunnel)
      by (split; [apply map_Forall_empty|apply empty_keys_ok]).
    clear Hmax Hsent. induction Hreach as [|t0 t1 t2 Hs _ IH]; [done|]. apply IH. by eapply step_ok. }
  destruct Hok as [_ Hk]. destruct (Execute_keys t index tx allocated sent _ t' Hk Hmax Hsent) as [_ Hkey].
  destruct (Hkey key bytes eq_refl) as (? & ? & ?). done.
Qed.

(** ** Examples *)

#[local] Existing Instance zero_bytes.
#[local] Existing Instance whole_delivery.

Definition gate_tunnel : Tunnel :=
  mkTunnel [mkDriver IDExecutionGate [71]; mkDriver IDJtag [74; 84]] [] [] 0 ∅ false.

Lemma handshake_agrees_witness :
  (∀ alloc_name alloc_driver written input,
     (∃ r, Handshake alloc_name alloc_driver empty_tunnel written input = Some r)
     ∨ Handshake alloc_name alloc_driver empty_tunnel written input = None
       ∧ ∃ unread, unread `suffix_of` input ∧ (short_read 4 4 unread ∨ short_read 8 8 unread))
  ∧ ∃ client', Handshake (λ _, true) (λ _, true) empty_tunnel true (DefineMyDrivers gate_tunnel ++ [9])
        = Some (client', inr [9])
      ∧ m_remote_drivers client' = m_my_drivers gate_tunnel ∧ m_is_alive client' = true
      ∧ (∀ id name i, FindByName client' id name = Some i →
           m_my_drivers gate_tunnel !! i = Some (mkDriver id name))
      ∧ (∀ d, d ∈ m_my_drivers gate_tunnel → is_Some (FindByName client' (GetID d) (GetName d))).
Proof.
  destruct (handshake_agrees empty_tunnel gate_tunnel [9]) as [Hends Hagrees];
    [reflexivity|repeat constructor; done|]. split; [exact Hends|]. apply Hagrees, whole_delivery_whole.
Defined.

Definition one_byte : Buffer := mkBuffer [mkChunk 33 33 [0]] (Some 0%nat) 33 false.
Definition one_byte_tx : PendingTransaction :=
  mkPending (mkStorage one_byte one_byte) None ((Some 0%nat, 32%nat), (Some 0%nat, 32%nat)).
Definition waiting_tunnel : Tunnel :=
  mkTunnel [mkDriver IDExecutionGate [71]] [] [] 1 {[ 0 := one_byte_tx ]} true.

Lemma one_byte_answerable : answerable one_byte.
Proof. exists 0%nat. split; [done|]. cbn. lia. Qed.

(** A stream that delivers whole has no cut headers. *)
Lemma event_loop_resolves_all_witness :
  ∃ t' events e,
    EventLoop 64 (λ _, false) empty_buffer (λ _, true) (λ _, true) 4 waiting_tunnel [3; 0; 0]
      = Some (t', events, e)
    ∧ m_is_alive t' = false ∧ resolved_keys events ≡ₚ waiting_keys waiting_tunnel
    ∧ ∀ d, d ∈ m_my_drivers waiting_tunnel → GetID d = IDExecutionGate → Terminated d ∈ events.
Proof.
  destruct (event_loop_resolves_all 64 (λ _, false) empty_buffer (λ _, true) (λ _, true) waiting_tunnel
              [3; 0; 0]) as [Hends|(t' & rest & _ & _ & Hnone)]; [apply empty_cleared| |exact Hends|].
  - apply map_Forall_singleton. split; apply one_byte_answerable.
  - specialize (Hnone 1%nat). vm_compute in Hnone. discriminate.
Defined.

(** The other side of it: the first three bytes of an answer arrive alone, as they may
    from a socket.  The read of the header counts as done, the assertion on the packet
    ID fails, and nothing is resolved. *)
Definition in_parts : Delivery := {| deliver _ _ := Some 3%nat; stale _ _ := 0 |}.

Theorem short_read_stops_tunnel fuel answer :
  @EventLoop zero_bytes in_parts 64 (λ _, true) empty_buffer (λ _, true) (λ _, true) fuel waiting_tunnel
    (ToBytes Packet.Response ++ answer) = None.
Proof. by destruct fuel. Qed.

(** A driver without a name cannot be defined over a stream that fails reads of no
    bytes. *)
Definition socket_delivery : Delivery := {|
  deliver n input := if (n =? 0) || bool_decide (input = []) then None else Some (length input);
  stale _ _ := 0;
|}.

Theorem empty_name_breaks_handshake :
  let server := mkTunnel [mkDriver IDJtag []] [] [] 0 ∅ false in
  @Handshake socket_delivery (λ _, true) (λ _, true) empty_tunnel true (DefineMyDrivers server)
  = Some (empty_tunnel, inl StreamFailed).
Proof. vm_compute. reflexivity. Qed.

Lemma keys_never_shared_witness :
  ∃ t' bytes, Execute (Execute empty_tunnel 0 one_byte_tx true true).2 0 one_byte_tx true true
      = (inr (1, bytes), t')
    ∧ m_pending_transactions t'
      = <[1 := one_byte_tx]> (m_pending_transactions (Execute empty_tunnel 0 one_byte_tx true true).2).
Proof.
  eexists _, _. split; [reflexivity|].
  eapply (keys_never_shared 64 (λ _, true) empty_buffer (λ _, true) (λ _, true)
           (Execute empty_tunnel 0 one_byte_tx true true).2 _ 0 one_byte_tx true true 1);
    [apply empty_cleared| |reflexivity|reflexivity].
  apply rtc_once. eapply (StepExecute _ _ _ _ _ _ 0 one_byte_tx true true);
    [apply one_byte_answerable..|reflexivity|apply surjective_pairing].
Defined.
