(* ===== verification/BucketArrayMap.v ===== *)
(** * BucketArrayMap and BucketArrayStack
    ([src/src/libedr/util/adt/BucketArrayMap.hpp], [BucketArrayStack.hpp]).

    A map from indices to items, kept in a linked list of buckets of [n] items.
    The list of buckets is a list, a pointer to a bucket its index.  A call may
    allocate every bucket that is missing, each of them once: [alloc k] says whether
    the allocation of bucket [k] succeeds in this call.  The answers to another call
    may be different ones. *)
From S2P Require Import Prelude.
From stdpp Require Import gmap.

Abbreviation Bucket T := (list (option T)).
Abbreviation Map T := (list (Bucket T)).

Section map.
Context {T : Type} (n : nat) (alloc : nat → bool).

Definition new_bucket  : Bucket T := replicate n None.

(** [create_new], at the end of the list. *)
Definition create_new (m : Map T) : option (Map T) :=
  if alloc (length m) then Some (m ++ [new_bucket]) else None.

(** The loop of [GetBucketAndOffset], at bucket [current]. *)
Fixpoint walk (fuel : nat) (m : Map T) (current index : nat) (create : bool)
    : option (nat * nat) * Map T :=
  if (index <? n)%nat then (Some (current, index), m) else
  match fuel with
  | O => (None, m)
  | S fuel =>
      match m !! S current with
      | Some _ => walk fuel m (S current) (index - n) create
      | None =>
          if create then
            match create_new m with
            | None => (None, m)
            | Some m => walk fuel m (S current) (index - n) create
            end
          else (None, m)
      end
  end.

Definition GetBucketAndOffset (m : Map T) (index : nat) (create : bool)
    : option (nat * nat) * Map T :=
  match m with
  | [] =>
      if create then
        match create_new m with
        | None => (None, m)
        | Some m => walk index m 0 index create
        end
      else (None, m)
  | _ => walk index m 0 index create
  end.

Definition item (m : Map T) (p : nat * nat) : option T :=
  b ← m !! p.1; x ← b !! p.2; x.

Definition set_item (m : Map T) (p : nat * nat) (x : option T) : Map T :=
  alter (λ b : list (option T), <[p.2 := x]> b) p.1 m.

(** Whether the item was constructed, and the map. *)
Definition Emplace (m : Map T) (index : nat) (x : T) : bool * Map T :=
  match GetBucketAndOffset m index true with
  | (None, m) => (false, m)
  | (Some p, m) => (true, set_item m p (Some x))
  end.

Definition Get (m : Map T) (index : nat) : option T :=
  p ← (GetBucketAndOffset m index false).1; item m p.

Definition Erase (m : Map T) (index : nat) : Map T :=
  match GetBucketAndOffset m index false with
  | (None, m) => m
  | (Some p, m) => set_item m p None
  end.

Definition Take (m : Map T) (index : nat) : option T * Map T :=
  match GetBucketAndOffset m index false with
  | (None, m) => (None, m)
  | (Some p, m) => (item m p, set_item m p None)
  end.

(** [None] is a failed [assert] or the use of an empty [std::optional]. *)
Definition TakeExisting (m : Map T) (index : nat) : option (T * Map T) :=
  match GetBucketAndOffset m index false with
  | (None, m) => None
  | (Some p, m) => x ← item m p; Some (x, set_item m p None)
  end.

(** ** Iteration: a bucket, or none at the end, and an offset *)

Definition Iterator : Type := option nat * nat.

Definition end_it : Iterator := (None, 0).

Fixpoint next_it (fuel : nat) (m : Map T) (bucket offset : nat) : option Iterator :=
  match fuel with
  | O => None
  | S fuel =>
      let '(bucket, offset) :=
        if (S offset =? n)%nat then (S bucket, 0) else (bucket, S offset) in
      match m !! bucket with
      | None => Some end_it
      | Some b =>
          x ← b !! offset;
          match x with
          | Some _ => Some (Some bucket, offset)
          | None => next_it fuel m bucket offset
          end
      end
  end.

Definition iter_fuel (m : Map T) : nat := S (n * length m).

Definition begin_it (m : Map T) : option Iterator :=
  match m with
  | [] => Some (None, 0)
  | b :: _ =>
      x ← b !! 0;
      match x with
      | Some _ => Some (Some 0, 0)
      | None => next_it (iter_fuel m) m 0 0
      end
  end.

(** [for (auto &x : map)]. *)
Fixpoint visit_from (fuel : nat) (m : Map T) (it : Iterator) : option (list T) :=
  match it with
  | (None, _) => Some []
  | (Some bucket, offset) =>
      match fuel with
      | O => None
      | S fuel =>
          x ← item m (bucket, offset);
          next ← next_it (iter_fuel m) m bucket offset;
          rest ← visit_from fuel m next;
          Some (x :: rest)
      end
  end.

Definition visit (m : Map T) : option (list T) :=
  it ← begin_it m; visit_from (iter_fuel m) m it.
End map.

(** [BucketArrayStack]: the map and the number of items. *)
Section stack.
Context {T : Type} (n : nat) (alloc : nat → bool).

Record Stack := mkStack { m_map : Map T; m_head_index : nat }.

Definition Empty (s : Stack) : bool := (m_head_index s =? 0)%nat.

Definition Push (s : Stack) (x : T) : bool * Stack :=
  match Emplace n alloc (m_map s) (m_head_index s) x with
  | (false, m) => (false, mkStack m (m_head_index s))
  | (true, m) => (true, mkStack m (S (m_head_index s)))
  end.

Definition Pop (s : Stack) : option (T * Stack) :=
  check (negb (Empty s));;
  '(x, m) ← TakeExisting n alloc (m_map s) (m_head_index s - 1);
  Some (x, mkStack m (m_head_index s - 1)).
End stack.

(** ** Allocations *)

(** How many of the next [count] buckets are granted before one is refused. *)
Fixpoint granted (alloc : nat → bool) (from count : nat) : nat :=
  match count with
  | O => 0
  | S count => if alloc from then S (granted alloc (S from) count) else 0
  end.

Lemma granted_le alloc from count : granted alloc from count ≤ count.
Proof. revert from. induction count as [|c IH]; intros from; cbn; [lia|]. destruct (alloc from); [|lia]. specialize (IH (S from)). lia. Qed.

(** What [granted] counts. *)
Lemma granted_all alloc from count :
  granted alloc from count = count → ∀ k, from ≤ k < from + count → alloc k = true.
Proof.
  revert from. induction count as [|c IH]; intros from Hg k Hk; cbn in Hg; [lia|].
  destruct (alloc from) eqn:Ha; [|done]. destruct (decide (k = from)) as [->|]; [done|].
  apply (IH (S from)); lia.
Qed.

Lemma granted_true alloc from count : (∀ k, alloc k = true) → granted alloc from count = count.
Proof. intros Ha. revert from. induction count as [|c IH]; intros from; cbn; [done|]. by rewrite Ha, IH. Qed.

Lemma granted_some alloc from count :
  granted alloc from count ≠ count →
  let k := from + granted alloc from count in
  k < from + count ∧ alloc k = false ∧ ∀ k', from ≤ k' < k → alloc k' = true.
Proof.
  revert from. induction count as [|c IH]; intros from Hg; cbn in *; [done|].
  destruct (alloc from) eqn:Ha.
  - destruct (IH (S from) ltac:(lia)) as (H1 & H2 & H3). rewrite Nat.add_succ_r. split_and!; [lia|done|].
    intros k' Hk'. destruct (decide (k' = from)) as [->|]; [done|]. apply H3. lia.
  - rewrite Nat.add_0_r. split_and!; [lia|done|]. lia.
Qed.

(** ** Abstraction *)

Section proofs.
Context {T : Type} (n : nat) (Hn : 0 < n).
Implicit Types (m : Map T).

Definition wf m : Prop := Forall (λ b, length b = n) m.

(** The item with an index. *)
Definition abs m (i : nat) : option T := item m (i / n, i mod n).

Lemma walk_find alloc fuel m current index :
  index ≤ fuel → current < length m →
  walk n alloc fuel m current index false =
    (if decide (current + index / n < length m) then Some (current + index / n, index mod n) else None, m).
Proof.
  revert current index. induction fuel as [|fuel IH]; intros current index Hf Hc; cbn [walk].
  all: destruct (Nat.ltb_spec index n) as [Hlt|Hge];
    [rewrite Nat.div_small, Nat.mod_small, Nat.add_0_r, decide_True by lia; done|].
  { lia. }
  assert (Hdiv : index / n = S ((index - n) / n)).
  { replace index with (index - n + 1 * n) at 1 by lia. rewrite Nat.div_add by lia. lia. }
  assert (Hmod : index mod n = (index - n) mod n).
  { replace index with (index - n + 1 * n) at 1 by lia. by rewrite Nat.Div0.mod_add. }
  rewrite Hdiv, Hmod. destruct (m !! S current) as [b|] eqn:Hb.
  - apply lookup_lt_Some in Hb. rewrite IH by lia.
    by replace (S current + (index - n) / n) with (current + S ((index - n) / n)) by lia.
  - apply lookup_ge_None in Hb. by rewrite decide_False by lia.
Qed.

Lemma find_existing alloc m i :
  GetBucketAndOffset n alloc m i false =
    if decide (i / n < length m) then (Some (i / n, i mod n), m) else (None, m).
Proof.
  unfold GetBucketAndOffset. destruct m as [|b m]; [by rewrite decide_False by (simpl; lia)|].
  rewrite walk_find by (simpl; lia). rewrite Nat.add_0_l. by case_decide.
Qed.

Lemma wf_bucket m k b : wf m → m !! k = Some b → length b = n.
Proof. intros Hm. by apply (Forall_lookup_1 _ _ k b Hm). Qed.

Lemma wf_set_item m p x : wf m → wf (set_item m p x).
Proof. intros Hm. apply Forall_alter; [done|]. intros b _ Hb. simpl. by rewrite length_insert. Qed.

Lemma abs_more_buckets m k j : abs (m ++ replicate k (new_bucket n)) j = abs m j.
Proof.
  unfold abs, item. cbn [fst snd]. destruct (decide (j / n < length m)).
  - by rewrite lookup_app_l.
  - rewrite lookup_app_r, (lookup_ge_None_2 m) by lia. cbn [mbind option_bind].
    destruct (decide (j / n - length m < k)).
    + rewrite lookup_replicate_2 by done. cbn [mbind option_bind]. unfold new_bucket.
      rewrite lookup_replicate_2; [done|]. apply Nat.mod_upper_bound. lia.
    + rewrite lookup_ge_None_2; [done|]. rewrite length_replicate. lia.
Qed.

Lemma abs_set_item m i x j :
  wf m → i / n < length m →
  abs (set_item m (i / n, i mod n) x) j = if decide (j = i) then x else abs m j.
Proof.
  intros Hm Hi. unfold abs, item, set_item. cbn [fst snd].
  destruct (lookup_lt_is_Some_2 m (i / n) Hi) as [b Hb]. pose proof (wf_bucket _ _ _ Hm Hb) as Hlb.
  assert (i mod n < n) by (apply Nat.mod_upper_bound; lia).
  destruct (decide (j / n = i / n)) as [He|Hne].
  - rewrite He, list_lookup_alter_eq, Hb. cbn [fmap option_fmap option_map mbind option_bind].
    destruct (decide (j = i)) as [->|Hji].
    + rewrite list_lookup_insert_eq by lia. done.
    + rewrite list_lookup_insert_ne; [done|]. intros Hmod. apply Hji.
      rewrite (Nat.div_mod_eq j n), (Nat.div_mod_eq i n). congruence.
  - rewrite list_lookup_alter_ne by done. rewrite decide_False by (by intros ->). done.
Qed.

Lemma Get_abs alloc m i : wf m → Get n alloc m i = abs m i.
Proof.
  intros Hm. unfold Get. rewrite find_existing by done. case_decide; [done|].
  unfold abs, item. cbn. by rewrite lookup_ge_None_2 by lia.
Qed.

Lemma abs_Take alloc m i :
  wf m → ∃ m', Take n alloc m i = (abs m i, m') ∧ Erase n alloc m i = m' ∧ wf m' ∧ length m' = length m
    ∧ ∀ j, abs m' j = if decide (j = i) then None else abs m j.
Proof.
  intros Hm. unfold Take, Erase. rewrite find_existing by done. case_decide as Hi.
  - eexists; split; [done|]. split_and!; [done|by apply wf_set_item|by apply length_alter|].
    intros j. by rewrite abs_set_item.
  - assert (abs m i = None) as Hnone by (unfold abs, item; cbn; by rewrite lookup_ge_None_2 by lia).
    exists m. rewrite Hnone. split_and!; try done. intros j. case_decide; [by subst|done].
Qed.

(** ** Iteration *)

(** The items of bucket [k] from offset [o] on, then those of the rest. *)
Definition items_from m (k o : nat) : list T :=
  omap id (drop o (default [] (m !! k))) ++ omap id (concat (drop (S k) m)).

Lemma items_from_next m k :
  items_from m (S k) 0 = omap id (concat (drop (S k) m)).
Proof.
  unfold items_from. destruct (m !! S k) as [b|] eqn:Hb.
  - rewrite (drop_S _ _ _ Hb). cbn [concat default]. by rewrite drop_0, omap_app.
  - apply lookup_ge_None in Hb. change (default [] None) with (@nil (option T)). rewrite drop_nil, !(drop_ge m) by lia. done.
Qed.

Lemma items_from_S m k o b x :
  m !! k = Some b → b !! o = Some x →
  items_from m k o = option_list x ++ items_from m k (S o).
Proof.
  intros Hb Hx. unfold items_from. rewrite Hb. change (default [] (Some b)) with b. rewrite (drop_S _ _ _ Hx).
  by destruct x.
Qed.

(** [++] stops at the next item, or at the end if there is none. *)
Lemma next_it_spec fuel m k o b :
  wf m → m !! k = Some b → o < n → n * (length m - k) - o < fuel →
  ∃ it, next_it n fuel m k o = Some it ∧
    match it with
    | (None, _) => it = end_it ∧ items_from m k (S o) = []
    | (Some k', o') => ∃ b' x, m !! k' = Some b' ∧ b' !! o' = Some (Some x) ∧ o' < n
        ∧ items_from m k (S o) = x :: items_from m k' (S o')
    end.
Proof.
  intros Hm. revert k o b. induction fuel as [|fuel IH]; intros k o b Hb Ho Hf; [lia|].
  pose proof (lookup_lt_Some _ _ _ Hb) as Hk. pose proof (wf_bucket _ _ _ Hm Hb) as Hlb.
  assert (n ≤ n * (length m - k)) by nia.
  cbn [next_it]. destruct (Nat.eqb_spec (S o) n) as [He|Hne].
  - assert (Hend : items_from m k (S o) = items_from m (S k) 0).
    { rewrite items_from_next. unfold items_from. rewrite Hb. change (default [] (Some b)) with b.
      by rewrite drop_ge by lia. }
    rewrite Hend. destruct (m !! S k) as [b'|] eqn:Hb'.
    2: { exists end_it. split; [done|]. split; [done|]. unfold items_from. rewrite Hb'.
         apply lookup_ge_None in Hb'. by rewrite (drop_ge m) by lia. }
    pose proof (wf_bucket _ _ _ Hm Hb') as Hlb'.
    destruct (lookup_lt_is_Some_2 b' 0) as [x Hx]; [lia|]. rewrite Hx. cbn [mbind option_bind].
    rewrite (items_from_S _ _ _ _ _ Hb' Hx). destruct x as [x|].
    + eexists; split; [done|]. by exists b', x.
    + pose proof (lookup_lt_Some _ _ _ Hb'). destruct (IH (S k) 0 b') as (it & -> & Hit); [done|done| |by exists it].
      replace (length m - k) with (S (length m - S k)) in Hf by lia. nia.
  - rewrite Hb. destruct (lookup_lt_is_Some_2 b (S o)) as [x Hx]; [lia|]. rewrite Hx.
    cbn [mbind option_bind]. rewrite (items_from_S _ _ _ _ _ Hb Hx). destruct x as [x|].
    + eexists; split; [done|]. exists b, x. split_and!; done || lia.
    + destruct (IH k (S o) b) as (it & -> & Hit); [done|lia|lia|by exists it].
Qed.

Lemma visit_from_spec fuel m k o b x :
  wf m → m !! k = Some b → b !! o = Some (Some x) → o < n →
  length (items_from m k o) ≤ fuel →
  visit_from n fuel m (Some k, o) = Some (items_from m k o).
Proof.
  intros Hm. revert k o b x. induction fuel as [|fuel IH]; intros k o b x Hb Hx Ho Hf;
    rewrite (items_from_S _ _ _ _ _ Hb Hx) in Hf |- *; cbn in Hf; [lia|].
  cbn [visit_from]. unfold item at 1. cbn [fst snd]. rewrite Hb. cbn [mbind option_bind].
  rewrite Hx. cbn [mbind option_bind].
  destruct (next_it_spec (iter_fuel n m) m k o b Hm Hb Ho) as ([[k'|] o'] & -> & Hit).
  { unfold iter_fuel. nia. }
  - destruct Hit as (b' & x' & Hb' & Hx' & Ho' & Heq). cbn [mbind option_bind]. rewrite Heq in Hf |- *.
    rewrite (IH k' o' b' x') by (try done; rewrite (items_from_S _ _ _ _ _ Hb' Hx'); simpl in *; lia).
    rewrite (items_from_S m k' o' b' (Some x')) by done. done.
  - destruct Hit as [_ Heq]. cbn [mbind option_bind visit_from]. rewrite Heq. by destruct fuel.
Qed.

Lemma visit_spec m : wf m → visit n m = Some (omap id (concat m)).
Proof.
  intros Hm. unfold visit, begin_it. destruct m as [|b m]; [done|].
  assert (Hall : omap id (concat (b :: m)) = items_from (b :: m) 0 0).
  { unfold items_from. cbn. by rewrite drop_0, omap_app. }
  assert (Hb : (b :: m) !! 0 = Some b) by done.
  pose proof (wf_bucket _ _ _ Hm Hb) as Hlb.
  destruct (lookup_lt_is_Some_2 b 0) as [x Hx]; [lia|]. rewrite Hx. cbn [mbind option_bind].
  assert (Hfuel : ∀ k o, length (items_from (b :: m) k o) ≤ iter_fuel n (b :: m)).
  { intros k o. unfold items_from, iter_fuel.
    assert (Hlen : ∀ l : Map T, wf l → length (concat l) = n * length l).
    { clear. intros l Hl. induction Hl as [|c l Hc Hl IH]; [simpl; lia|].
      cbn [concat length]. rewrite length_app, IH, Hc. lia. }
    assert (Hom : ∀ l : list (option T), length (omap id l) ≤ length l).
    { clear. induction l as [|[y|] l IH]; cbn;
        [done|by apply le_n_S, IH|by apply Nat.le_le_succ_r, IH]. }
    rewrite length_app. etrans; [apply Nat.add_le_mono; apply Hom|].
    rewrite (Hlen (drop (S k) (b :: m))) by (by apply Forall_drop).
    rewrite !length_drop. destruct ((b :: m) !! k) as [c|] eqn:Hc; cbn [default].
    - pose proof (wf_bucket _ _ _ Hm Hc). apply lookup_lt_Some in Hc.
      change (id c) with c.
      assert (n * S (length (b :: m) - S k) ≤ n * length (b :: m)) by (apply Nat.mul_le_mono_l; lia). lia.
    - cbn [length].
      assert (n * (length (b :: m) - S k) ≤ n * length (b :: m)) by (apply Nat.mul_le_mono_l; lia). lia. }
  rewrite Hall. destruct x as [x|].
  - by apply (visit_from_spec _ _ _ _ b x).
  - destruct (next_it_spec (iter_fuel n (b :: m)) (b :: m) 0 0 b Hm Hb Hn) as ([[k'|] o'] & -> & Hit).
    { unfold iter_fuel. nia. }
    + destruct Hit as (b' & x' & Hb' & Hx' & Ho' & Heq). cbn [mbind option_bind].
      rewrite (visit_from_spec _ _ _ _ b' x') by done.
      rewrite (items_from_S _ 0 0 _ _ Hb Hx), Heq, (items_from_S _ k' o' _ _ Hb' Hx'). done.
    + destruct Hit as [_ Heq]. by rewrite (items_from_S _ 0 0 _ _ Hb Hx), Heq.
Qed.

Lemma omap_seq_ext (f g : nat → option T) a k :
  (∀ i, a ≤ i < a + k → f i = g i) → omap f (seq a k) = omap g (seq a k).
Proof.
  revert a. induction k as [|k IH]; intros a Hfg; [done|]. cbn [seq].
  cbn [omap list_omap]. rewrite (Hfg a) by lia. rewrite (IH (S a)); [done|].
  intros i Hi. apply Hfg. lia.
Qed.

Lemma omap_lookup (b : Bucket T) a :
  omap id b = omap (λ i, x ← b !! (i - a); x) (seq a (length b)).
Proof.
  revert a. induction b as [|x b IH]; intros a; [done|]. cbn [length seq omap list_omap].
  rewrite Nat.sub_diag. cbn [lookup list_lookup mbind option_bind].
  rewrite (IH (S a)), (omap_seq_ext _ (λ i, y ← (x :: b) !! (i - a); y)); [by destruct x|].
  intros i Hi. by replace (i - a) with (S (i - S a)) by lia.
Qed.

(** The items in the order of their indices. *)
Lemma concat_abs m : wf m → omap id (concat m) = omap (abs m) (seq 0 (n * length m)).
Proof.
  intros Hm. induction m as [|b m IH] using rev_ind; [by rewrite Nat.mul_0_r|].
  apply Forall_app in Hm as [Hm Hb]. inversion_clear Hb as [|?? Hlb _].
  rewrite concat_app, omap_app, IH, length_app by done. cbn [length concat]. rewrite app_nil_r.
  replace (n * (length m + 1)) with (n * length m + n) by lia. rewrite seq_app, omap_app. f_equal.
  - apply omap_seq_ext. intros i Hi. unfold abs, item. cbn [fst snd].
    rewrite lookup_app_l; [done|]. apply Nat.Div0.div_lt_upper_bound. lia.
  - rewrite (omap_lookup b (0 + n * length m)), Hlb. apply omap_seq_ext. intros i Hi.
    unfold abs, item. cbn [fst snd].
    assert (i = n * length m + (i - n * length m)) as Hi' by lia.
    assert (i / n = length m) as ->.
    { symmetry. apply (Nat.div_unique i n (length m) (i - n * length m)); lia. }
    assert (i mod n = i - (0 + n * length m)) as ->.
    { symmetry. apply (Nat.mod_unique i n (length m) (i - (0 + n * length m))); lia. }
    rewrite lookup_app_r, Nat.sub_diag by lia. done.
Qed.

(** The buckets that a call with [create_if_needed] adds; it succeeds exactly if all
    that are missing are granted. *)
Lemma walk_create alloc fuel m current index :
  index ≤ fuel → current < length m →
  let need := S (current + index / n) - length m in
  let got := granted alloc (length m) need in
  walk n alloc fuel m current index true
  = (if (got =? need)%nat then Some (current + index / n, index mod n) else None,
     m ++ replicate got (new_bucket n)).
Proof.
  revert m current index. induction fuel as [|fuel IH]; intros m current index Hf Hc; cbn [walk]; cbv zeta.
  all: destruct (Nat.ltb_spec index n) as [Hlt|Hge].
  1,3: rewrite Nat.div_small, Nat.mod_small by done; replace (S (current + 0) - length m) with 0 by lia;
    by rewrite Nat.add_0_r, app_nil_r.
  { lia. }
  assert (Hdiv : index / n = S ((index - n) / n)).
  { replace index with (index - n + 1 * n) at 1 by lia. rewrite Nat.div_add by lia. lia. }
  assert (Hmod : index mod n = (index - n) mod n).
  { replace index with (index - n + 1 * n) at 1 by lia. by rewrite Nat.Div0.mod_add. }
  rewrite Hdiv, Hmod, Nat.add_succ_r. destruct (m !! S current) as [b|] eqn:Hb.
  - apply lookup_lt_Some in Hb. rewrite IH by lia. done.
  - apply lookup_ge_None in Hb. unfold create_new.
    replace (S (S (current + (index - n) / n)) - length m) with (S ((index - n) / n)) by lia.
    cbn [granted]. destruct (alloc (length m)) eqn:Ha; [|cbn; by rewrite app_nil_r].
    rewrite IH by (rewrite ?length_app; simpl; lia). rewrite length_app. cbn [length].
    replace (S (S current + (index - n) / n) - (length m + 1)) with ((index - n) / n) by lia.
    rewrite Nat.add_1_r, <-app_assoc. done.
Qed.

Lemma find_create_exact alloc m i :
  let need := S (i / n) - length m in
  let got := granted alloc (length m) need in
  GetBucketAndOffset n alloc m i true
  = (if (got =? need)%nat then Some (i / n, i mod n) else None, m ++ replicate got (new_bucket n)).
Proof.
  unfold GetBucketAndOffset, create_new. destruct m as [|b m]; cbv zeta.
  - cbn [length app]. rewrite Nat.sub_0_r. cbn [granted]. destruct (alloc 0) eqn:Ha; [|done].
    rewrite walk_create by (cbn; lia). cbn [length]. rewrite Nat.add_0_l, Nat.sub_succ, Nat.sub_0_r. done.
  - rewrite walk_create by (cbn [length]; lia). by rewrite Nat.add_0_l.
Qed.

(** Whether a call constructs its item is decided by the allocations it makes. *)
Lemma Emplace_granted alloc m i x :
  let need := S (i / n) - length m in
  let got := granted alloc (length m) need in
  ∃ m', Emplace n alloc m i x = ((got =? need)%nat, m') ∧ length m' = length m + got.
Proof.
  unfold Emplace. rewrite find_create_exact. cbv zeta. destruct (_ =? _)%nat; eexists; (split; [done|]).
  - unfold set_item. by rewrite length_alter, length_app, length_replicate.
  - by rewrite length_app, length_replicate.
Qed.

Lemma abs_Emplace alloc m i x ok m' :
  wf m → Emplace n alloc m i x = (ok, m') →
  wf m' ∧ ∀ j, abs m' j = if decide (j = i) then (if (ok : bool) then Some x else abs m i) else abs m j.
Proof.
  intros Hm. unfold Emplace. rewrite find_create_exact.
  set (need := S (i / n) - length m). set (got := granted alloc (length m) need).
  assert (Hwf : wf (m ++ replicate got (new_bucket n))).
  { apply Forall_app. split; [done|]. apply Forall_replicate, length_replicate. }
  destruct (Nat.eqb_spec got need) as [Hg|Hg]; intros [= <- <-].
  - split; [by apply wf_set_item|]. intros j. rewrite abs_set_item, abs_more_buckets; [done|done|].
    rewrite length_app, length_replicate. lia.
  - split; [done|]. intros j. rewrite abs_more_buckets. case_decide; by subst.
Qed.
End proofs.

(** ** Refinement *)

(** [Emplace] comes with the answers to its allocations. *)
Inductive map_op (T : Type) :=
| OpEmplace (alloc : nat → bool) (index : nat) (x : T)
| OpGet (index : nat)
| OpErase (index : nat)
| OpTake (index : nat)
| OpIterate.
Arguments OpEmplace {T}. Arguments OpGet {T}. Arguments OpErase {T}.
Arguments OpTake {T}. Arguments OpIterate {T}.

Inductive map_result (T : Type) :=
| RDone (ok : bool)
| RItem (x : option T)
| RItems (xs : list T).
Arguments RDone {T}. Arguments RItem {T}. Arguments RItems {T}.

(** A call that creates nothing asks for no memory. *)
Definition no_memory : nat → bool := λ _, false.

Definition exec {T} (n : nat) (m : Map T) (o : map_op T) : option (map_result T * Map T) :=
  match o with
  | OpEmplace alloc i x => let '(ok, m) := Emplace n alloc m i x in Some (RDone ok, m)
  | OpGet i => Some (RItem (Get n no_memory m i), m)
  | OpErase i => Some (RDone true, Erase n no_memory m i)
  | OpTake i => let '(x, m) := Take n no_memory m i in Some (RItem x, m)
  | OpIterate => xs ← visit n m; Some (RItems xs, m)
  end.

Fixpoint exec_all {T} (n : nat) (m : Map T) (ops : list (map_op T))
    : option (list (map_result T) * Map T) :=
  match ops with
  | [] => Some ([], m)
  | o :: ops =>
      '(r, m) ← exec n m o;
      '(rs, m) ← exec_all n m ops;
      Some (r :: rs, m)
  end.

(** The specification is a finite map and the number of buckets there are: an item
    is constructed exactly if no bucket up to its own is refused, and a call that
    fails keeps the buckets that it was granted before. *)
Record spec (T : Type) := mkSpec { spec_items : gmap nat T; spec_buckets : nat }.
Arguments mkSpec {T}. Arguments spec_items {T}. Arguments spec_buckets {T}.

Definition spec_exec {T} (n : nat) (s : spec T) (o : map_op T) (r : map_result T) (s' : spec T) : Prop :=
  let '(mkSpec m buckets) := s in
  match o with
  | OpEmplace alloc i x =>
      ((∀ k, buckets ≤ k ≤ i / n → alloc k = true)
       ∧ r = RDone true ∧ s' = mkSpec (<[i := x]> m) (Nat.max buckets (S (i / n))))
      ∨ ∃ k, buckets ≤ k ≤ i / n ∧ alloc k = false ∧ (∀ k', buckets ≤ k' < k → alloc k' = true)
         ∧ r = RDone false ∧ s' = mkSpec m k
  | OpGet i => r = RItem (m !! i) ∧ s' = s
  | OpErase i => r = RDone true ∧ s' = mkSpec (delete i m) buckets
  | OpTake i => r = RItem (m !! i) ∧ s' = mkSpec (delete i m) buckets
  | OpIterate => r = RItems (omap (m !!.) (seq 0 (n * buckets)))
      ∧ (∀ i x, m !! i = Some x → i < n * buckets) ∧ s' = s
  end.

Inductive spec_steps {T} (n : nat) : spec T → list (map_op T) → list (map_result T) → spec T → Prop :=
| spec_nil s : spec_steps n s [] [] s
| spec_cons s o r s1 os rs s2 :
    spec_exec n s o r s1 → spec_steps n s1 os rs s2 → spec_steps n s (o :: os) (r :: rs) s2.

Section refinement.
Context {T : Type} (n : nat) (Hn : 0 < n).

Record related (m : Map T) (s : spec T) : Prop := {
  rel_wf : wf n m;
  rel_items : ∀ i, abs n m i = spec_items s !! i;
  rel_buckets : length m = spec_buckets s;
}.

Lemma Emplace_refines m s alloc i x :
  related m s → ∃ ok m' s', Emplace n alloc m i x = (ok, m')
    ∧ spec_exec n s (OpEmplace alloc i x) (RDone ok) s' ∧ related m' s'.
Proof.
  intros [Hm Hs Hb]. destruct (Emplace_granted n Hn alloc m i x) as (m' & He & Hl). cbv zeta in He, Hl.
  set (need := S (i / n) - length m) in *. pose proof (granted_le alloc (length m) need) as Hle.
  pose proof He as He'. apply abs_Emplace in He' as [Hm' Habs]; [|done|done].
  destruct s as [items buckets]. cbn in Hs, Hb.
  destruct (Nat.eqb_spec (granted alloc (length m) need) need) as [Hg|Hg].
  - exists true, m', (mkSpec (<[i := x]> items) (Nat.max buckets (S (i / n)))). split_and!; [done| |].
    + left. split_and!; [|done|done]. intros k Hk. apply (granted_all alloc (length m) need Hg). lia.
    + split; cbn; [done| |lia]. intros j. rewrite Habs.
      case_decide; [subst; by rewrite lookup_insert_eq|]. by rewrite lookup_insert_ne.
  - exists false, m', (mkSpec items (length m')). destruct (granted_some alloc (length m) need Hg) as (H1 & H2 & H3).
    split_and!; [done| |].
    + right. exists (length m'). rewrite Hl. split_and!; [lia|lia|done| |done|done]. intros k' Hk'. apply H3. lia.
    + split; cbn; [done| |done]. intros j. rewrite Habs. case_decide; by subst.
Qed.

Lemma map_exec_refines m s o :
  related m s → ∃ r m' s', exec n m o = Some (r, m') ∧ spec_exec n s o r s' ∧ related m' s'.
Proof.
  intros Hr. pose proof Hr as [Hm Hs Hb]. destruct s as [items buckets]. cbn in Hs, Hb.
  assert (Htake : ∀ i, ∃ m', Take n no_memory m i = (abs n m i, m') ∧ Erase n no_memory m i = m'
    ∧ related m' (mkSpec (delete i items) buckets)).
  { intros i. destruct (abs_Take n Hn no_memory m i Hm) as (m' & Ht & He & Hm' & Hl & Habs).
    exists m'. split_and!; [done|done|]. split; cbn; [done| |congruence].
    intros j. rewrite Habs. case_decide; [subst; by rewrite lookup_delete_eq|]. by rewrite lookup_delete_ne. }
  destruct o as [alloc i x|i|i|i|]; cbn [exec].
  - destruct (Emplace_refines m (mkSpec items buckets) alloc i x Hr) as (ok & m' & s' & -> & ? & ?). eauto 6.
  - rewrite Get_abs by done. exists (RItem (abs n m i)), m, (mkSpec items buckets). by rewrite Hs.
  - destruct (Htake i) as (m' & _ & -> & Hr'). by eexists _, _, _.
  - destruct (Htake i) as (m' & -> & _ & Hr'). eexists _, _, _. by rewrite Hs.
  - rewrite (visit_spec n Hn), (concat_abs n Hn) by done. cbn [mbind option_bind].
    eexists _, m, (mkSpec items buckets). split_and!; [done| |done]. rewrite Hb. split_and!; [|..|done].
    + by rewrite (omap_seq_ext n Hn (abs n m) (items !!.)) by (intros; apply Hs).
    + intros i x Hi. rewrite <-Hs in Hi. unfold abs, item in Hi. cbn in Hi.
      destruct (m !! (i / n)) as [b|] eqn:Hbk; [|done]. apply lookup_lt_Some in Hbk.
      rewrite (Nat.div_mod_eq i n), <-Hb. pose proof (Nat.mod_upper_bound i n). nia.
Qed.

Lemma map_exec_all_refines m s ops :
  related m s → ∃ rs m' s', exec_all n m ops = Some (rs, m') ∧ spec_steps n s ops rs s'
    ∧ related m' s'.
Proof.
  revert m s. induction ops as [|o ops IH]; intros m s Hr; cbn [exec_all].
  { exists [], m, s. split_and!; [done|constructor|apply Hr]. }
  destruct (map_exec_refines m s o Hr) as (r & m1 & s1 & -> & Hs1 & Hr1). cbn [mbind option_bind].
  destruct (IH m1 s1 Hr1) as (rs & m2 & s2 & -> & Hs2 & Hr2). cbn [mbind option_bind].
  exists (r :: rs), m2, s2. split_and!; [done|by econstructor|apply Hr2].
Qed.
End refinement.

(** C36: every sequence of operations on the bucket map, with any answers to its
    allocations, gives the results that a finite map gives: [Emplace] constructs its
    item exactly if no allocation it makes is refused, those of the buckets that
    are missing up to the item's own, and otherwise returns a null pointer and
    changes no item; an item is found under its index until it is erased or taken,
    and iterating visits the items in the order of their indices, each once. *)
Theorem bucket_map_refines {T} (n : nat) (ops : list (map_op T)) (Hn : 0 < n) :
  ∃ rs m s, exec_all n [] ops = Some (rs, m) ∧ spec_steps n (mkSpec ∅ 0) ops rs s
    ∧ ∀ i, Get n no_memory m i = spec_items s !! i.
Proof.
  destruct (map_exec_all_refines n Hn [] (mkSpec ∅ 0) ops) as (rs & m & s & He & Hs & [Hm Habs _]).
  { split; [constructor|done|done]. }
  exists rs, m, s. split_and!; [done|done|]. intros i. by rewrite Get_abs.
Qed.

(** ** The stack *)

Record stack_holds {T} (n : nat) (s : @Stack T) (l : list T) : Prop := {
  stack_wf : wf n (m_map s);
  stack_index : m_head_index s = length l;
  stack_items : ∀ i, abs n (m_map s) i = reverse l !! i;
}.

Inductive stack_op (T : Type) := OpPush (x : T) | OpPop.
Arguments OpPush {T}. Arguments OpPop {T}.

Fixpoint stack_run {T} (n : nat) (alloc : nat → bool) (s : @Stack T) (ops : list (stack_op T))
    : option (list T * Stack) :=
  match ops with
  | [] => Some ([], s)
  | OpPush x :: ops => let '(_, s) := Push n alloc s x in stack_run n alloc s ops
  | OpPop :: ops =>
      '(x, s) ← Pop n alloc s;
      '(xs, s) ← stack_run n alloc s ops;
      Some (x :: xs, s)
  end.

(** A stack as a list, [None] if it is popped empty. *)
Fixpoint list_run {T} (l : list T) (ops : list (stack_op T)) : option (list T * list T) :=
  match ops with
  | [] => Some ([], l)
  | OpPush x :: ops => list_run (x :: l) ops
  | OpPop :: ops =>
      match l with
      | [] => None
      | x :: l => '(xs, l) ← list_run l ops; Some (x :: xs, l)
      end
  end.

Lemma Push_holds {T} n alloc (s : @Stack T) l x :
  0 < n → (∀ k, alloc k = true) → stack_holds n s l →
  ∃ s', Push n alloc s x = (true, s') ∧ stack_holds n s' (x :: l).
Proof.
  intros Hn Ha [Hwf Hidx Hit]. unfold Push.
  destruct (Emplace n alloc (m_map s) (m_head_index s) x) as [ok m'] eqn:He.
  assert (ok = true) as ->.
  { destruct (Emplace_granted n Hn alloc (m_map s) (m_head_index s) x) as (m1 & He1 & _).
    rewrite granted_true, Nat.eqb_refl in He1 by done. congruence. }
  apply abs_Emplace in He as [Hm' Habs]; [|done|done]. eexists; split; [done|].
  split; cbn [m_map m_head_index]; [done|by rewrite Hidx|].
  intros i. rewrite Habs, reverse_cons, Hidx. case_decide as Hi.
  - subst. by rewrite lookup_app_r, length_reverse, Nat.sub_diag by (rewrite length_reverse; lia).
  - rewrite Hit. destruct (decide (i < length l)).
    + by rewrite lookup_app_l by (by rewrite length_reverse).
    + rewrite !lookup_ge_None_2; [done|rewrite length_app, length_reverse; simpl; lia
        |rewrite length_reverse; lia].
Qed.

Lemma Pop_holds {T} n alloc (s : @Stack T) x l :
  0 < n → stack_holds n s (x :: l) →
  ∃ s', Pop n alloc s = Some (x, s') ∧ stack_holds n s' l.
Proof.
  intros Hn [Hwf Hidx Hit]. unfold Pop, Empty. rewrite Hidx. cbn [length Nat.eqb negb check mbind option_bind].
  rewrite Nat.sub_succ, Nat.sub_0_r.
  assert (Htop : abs n (m_map s) (length l) = Some x).
  { rewrite Hit, reverse_cons, lookup_app_r, length_reverse, Nat.sub_diag by (rewrite length_reverse; lia). done. }
  destruct (abs_Take n Hn alloc (m_map s) (length l) Hwf) as (m' & Ht & _ & Hm' & _ & Habs).
  assert (TakeExisting n alloc (m_map s) (length l) = Some (x, m')) as ->.
  { unfold TakeExisting. unfold Take in Ht. rewrite Htop in Ht.
    destruct (GetBucketAndOffset n alloc (m_map s) (length l) false) as [[p|] m1]; [|done].
    injection Ht as Hi Hm1. rewrite Hi. cbn [mbind option_bind]. by rewrite Hm1. }
  cbn [mbind option_bind]. eexists; split; [done|]. split; cbn [m_map m_head_index]; [done|done|].
  intros i. rewrite Habs. case_decide as Hi.
  - subst. by rewrite lookup_ge_None_2 by (by rewrite length_reverse).
  - rewrite Hit, reverse_cons. destruct (decide (i < length l)).
    + by rewrite lookup_app_l by (by rewrite length_reverse).
    + rewrite !lookup_ge_None_2; [done|rewrite length_reverse; lia
        |rewrite length_app, length_reverse; simpl; lia].
Qed.

Lemma stack_run_refines {T} n alloc (s : @Stack T) l ops :
  0 < n → (∀ k, alloc k = true) → stack_holds n s l →
  match list_run l ops with
  | Some (xs, l') => ∃ s', stack_run n alloc s ops = Some (xs, s') ∧ stack_holds n s' l'
  | None => stack_run n alloc s ops = None
  end.
Proof.
  intros Hn Ha. revert s l. induction ops as [|[x|] ops IH]; intros s l Hs; cbn [list_run stack_run].
  - by exists s.
  - destruct (Push_holds n alloc s l x Hn Ha Hs) as (s' & -> & Hs'). by apply IH.
  - destruct l as [|x l].
    + destruct Hs as [_ Hidx _]. unfold Pop, Empty. by rewrite Hidx.
    + destruct (Pop_holds n alloc s x l Hn Hs) as (s' & -> & Hs'). cbn [mbind option_bind].
      specialize (IH s' l Hs'). destruct (list_run l ops) as [[xs l']|]; cbn [mbind option_bind].
      * destruct IH as (s2 & -> & Hs2). by exists s2.
      * by rewrite IH.
Qed.

(** The bucket stack is last-in first-out: with enough memory it returns
    the items in the order in which a list does, whatever the size of a bucket,
    and fails exactly where the list is empty. *)
Theorem bucket_stack_refines {T} (n : nat) (alloc : nat → bool) (ops : list (stack_op T))
    (Hn : 0 < n) (Halloc : ∀ k, alloc k = true) :
  (fst <$> stack_run n alloc (mkStack [] 0) ops) = (fst <$> list_run [] ops).
Proof.
  pose proof (stack_run_refines n alloc (mkStack [] 0) [] ops Hn Halloc) as Hr.
  destruct (list_run [] ops) as [[xs l]|].
  - destruct Hr as (s' & -> & _); [|done]. split; [constructor|done|done].
  - rewrite Hr; [done|]. split; [constructor|done|done].
Qed.

(** ** Witnesses *)

(** The third bucket is refused once and granted when the call is repeated. *)
Definition demo_ops : list (map_op nat) :=
  [OpEmplace (λ k, k <? 2)%nat 5 7; OpGet 5; OpEmplace (λ k, k =? 2)%nat 5 7; OpEmplace no_memory 1 8; OpIterate;
   OpTake 5; OpGet 5].

Lemma bucket_map_refines_witness :
  (fst <$> exec_all 2 [] demo_ops
   = Some [RDone false; RItem None; RDone true; RDone true; RItems [8; 7]; RItem (Some 7); RItem None])
  ∧ ∃ rs m s, exec_all 2 [] demo_ops = Some (rs, m) ∧ spec_steps 2 (mkSpec ∅ 0) demo_ops rs s
      ∧ ∀ i, Get 2 no_memory m i = spec_items s !! i.
Proof. split; [vm_compute; reflexivity|]. apply (bucket_map_refines 2 demo_ops). lia. Defined.

Lemma bucket_stack_refines_witness :
  (fst <$> stack_run 2 (λ _, true) (mkStack [] 0) [OpPush 1; OpPush 2; OpPush 3; OpPop; OpPop])
    = (fst <$> list_run [] [OpPush 1; OpPush 2; OpPush 3; OpPop; OpPop]).
Proof. apply bucket_stack_refines; [lia|done]. Defined.
