(* ===== verification/FreeList.v ===== *)
(** * FreeList and FreeListAllocatorResource
    ([src/src/libedr/util/adt/FreeList.hpp],
    [src/src/libedr/util/memory/FreeListAllocator.hpp]).

    [FreeList] keeps values for reuse, [FreeListAllocatorResource] memory blocks.
    The memory resource behind them is the environment: each operation takes what
    the resource answers if it is asked. *)
From S2P Require Import Prelude.
From stdpp Require Import gmap.

(** ** FreeList *)

Section free_list.
Context {T : Type}.

(** The items with a value, the last freed first, and the number of items
    without one. *)
Record FreeList := mkFreeList { full : list T; empty : nat }.

Definition TakeOrMake (f : FreeList) (made : T) : T * FreeList :=
  match full f with
  | [] => (made, f)
  | x :: l => (x, mkFreeList l (S (empty f)))
  end.

(** A value is lost if there is no item for it. *)
Definition Free (f : FreeList) (allocated : bool) (x : T) : FreeList :=
  match empty f with
  | S e => mkFreeList (x :: full f) e
  | O => if allocated then mkFreeList (x :: full f) 0 else f
  end.

Inductive free_op := OpTakeOrMake (made : T) | OpFree (allocated : bool) (x : T).

Definition run_free_op (f : FreeList) (o : free_op) : FreeList :=
  match o with
  | OpTakeOrMake made => (TakeOrMake f made).2
  | OpFree allocated x => Free f allocated x
  end.

(** Memory the list asked for: an item is allocated only if none is empty. *)
Definition asked (f : FreeList) (o : free_op) : nat :=
  match o with
  | OpFree true _ => if decide (empty f = 0) then 1 else 0
  | _ => 0
  end.

Fixpoint run_free (f : FreeList) (ops : list free_op) : FreeList * nat :=
  match ops with
  | [] => (f, 0)
  | o :: ops => let '(f', a) := run_free (run_free_op f o) ops in (f', asked f o + a)
  end.

Lemma run_free_items f ops :
  let '(f', a) := run_free f ops in
  length (full f') + empty f' = length (full f) + empty f + a.
Proof.
  revert f. induction ops as [|o ops IH]; intros f; cbn [run_free]; [lia|].
  specialize (IH (run_free_op f o)). destruct (run_free (run_free_op f o) ops) as [f' a].
  rewrite IH. destruct o as [made|allocated x]; cbn [run_free_op asked].
  - unfold TakeOrMake. destruct (full f) as [|y l] eqn:E; cbn; rewrite ?E; simpl; lia.
  - unfold Free. destruct (empty f) as [|e] eqn:E; destruct allocated; cbn; rewrite ?E;
      repeat case_decide; simpl in *; lia.
Qed.
End free_list.

Arguments FreeList : clear implicits.
Arguments free_op : clear implicits.

(** The free list never loses or duplicates an item: the items in it are
    exactly the ones it asked memory for; what is freed is what the next
    [TakeOrMake] returns, and the list is then as before. *)
Theorem free_list_conserves {T} (ops : list (free_op T)) :
  let '(f, asked_items) := run_free (mkFreeList [] 0) ops in
  length (full f) + empty f = asked_items
  ∧ ∀ made x, let '(y, f') := TakeOrMake (Free f true x) made in
      y = x ∧ full f' = full f ∧ empty f' = Nat.max 1 (empty f).
Proof.
  pose proof (run_free_items (mkFreeList [] 0) ops) as Hr.
  destruct (run_free (mkFreeList [] 0) ops) as [f a]. split; [done|].
  intros made x. unfold Free. destruct (empty f) as [|e]; simpl; split_and!; try done; lia.
Qed.

(** ** FreeListAllocatorResource *)

(** [sizeof(Header)]: two words, aligned like [std::max_align_t]. *)
Definition header_size : nat := 16.

Definition block := positive.

(** The blocks obtained from the memory resource with their [total_size], and the
    list that starts at [m_head]. *)
Record Resource := mkResource { blocks : gmap block nat; free_blocks : list block }.

Definition empty_resource : Resource := mkResource ∅ [].

(** [answer] is what [m_resource.allocate] returns if it is called. *)
Definition allocate_new (r : Resource) (total : nat) (answer : option block)
    : option block * Resource :=
  match answer with
  | None => (None, r)
  | Some b => (Some b, mkResource (<[b := total]> (blocks r)) (free_blocks r))
  end.

Definition allocate (r : Resource) (num_bytes : nat) (answer : option block)
    : option block * Resource :=
  let total := header_size + num_bytes in
  match free_blocks r with
  | [] => allocate_new r total answer
  | taken :: rest =>
      let r := mkResource (blocks r) rest in
      match blocks r !! taken with
      | Some size =>
          if (size <? total)%nat
          then allocate_new (mkResource (delete taken (blocks r)) rest) total answer
          else (Some taken, r)
      | None => (None, r)
      end
  end.

(** [None] is the failed [assert]. *)
Definition deallocate (r : Resource) (b : block) (num_bytes : nat) : option Resource :=
  size ← blocks r !! b;
  check (header_size + num_bytes <=? size)%nat;;
  Some (mkResource (blocks r) (b :: free_blocks r)).

(** The blocks in use with the number of bytes asked for. *)
Record in_use_ok (r : Resource) (live : gmap block nat) : Prop := {
  use_free : NoDup (free_blocks r);
  use_owned : ∀ b, b ∈ free_blocks r → is_Some (blocks r !! b) ∧ live !! b = None;
  use_live : ∀ b n, live !! b = Some n → ∃ size, blocks r !! b = Some size ∧ header_size + n ≤ size;
}.

Inductive step : Resource * gmap block nat → Resource * gmap block nat → Prop :=
| step_allocate r live n answer b r' :
    (∀ a, answer = Some a → blocks r !! a = None) →
    allocate r n answer = (Some b, r') →
    step (r, live) (r', <[b := n]> live)
| step_out_of_memory r live n r' :
    allocate r n None = (None, r') →
    step (r, live) (r', live)
| step_deallocate r live b n r' :
    live !! b = Some n → deallocate r b n = Some r' →
    step (r, live) (r', delete b live).

Lemma allocate_ok r live n answer :
  in_use_ok r live → (∀ a, answer = Some a → blocks r !! a = None) →
  match allocate r n answer with
  | (Some b, r') => live !! b = None ∧ in_use_ok r' (<[b := n]> live)
      ∧ ∃ size, blocks r' !! b = Some size ∧ header_size + n ≤ size
  | (None, r') => answer = None ∧ in_use_ok r' live
  end.
Proof.
  intros [Hnd Hown Hlive] Hans. unfold allocate.
  assert (Hnew : ∀ bl fr, (∀ b, b ∈ fr → is_Some (bl !! b) ∧ live !! b = None) → NoDup fr →
    (∀ b n, live !! b = Some n → ∃ size, bl !! b = Some size ∧ header_size + n ≤ size) →
    (∀ a, answer = Some a → bl !! a = None) →
    match allocate_new (mkResource bl fr) (header_size + n) answer with
    | (Some b, r') => live !! b = None ∧ in_use_ok r' (<[b := n]> live)
        ∧ ∃ size, blocks r' !! b = Some size ∧ header_size + n ≤ size
    | (None, r') => answer = None ∧ in_use_ok r' live
    end).
  { intros bl fr Hfr Hndr Hl Ha. unfold allocate_new. destruct answer as [a|]; [|by split].
    specialize (Ha a eq_refl). assert (live !! a = None) as Hla.
    { destruct (live !! a) eqn:E; [|done]. apply Hl in E as (? & ? & _). congruence. }
    split_and!; [done| |].
    - split; cbn [blocks free_blocks]; [done| |].
      + intros b Hb. assert (b ≠ a) as Hne by (intros ->; destruct (Hfr a Hb) as [[??] _]; congruence).
        rewrite !lookup_insert_ne by done. by apply Hfr.
      + intros b k. destruct (decide (b = a)) as [->|Hne].
        * rewrite !lookup_insert_eq. intros [= <-]. eauto.
        * rewrite !lookup_insert_ne by done. apply Hl.
    - cbn [blocks]. rewrite lookup_insert_eq. eauto. }
  destruct r as [bl fr]. cbn [free_blocks blocks] in *. destruct fr as [|t fr].
  { by apply Hnew. }
  apply NoDup_cons in Hnd as [Ht Hnd].
  destruct (Hown t) as [[size Hsize] Hlt]; [constructor|]. rewrite Hsize.
  assert (Hfr : ∀ b, b ∈ fr → b ≠ t ∧ is_Some (bl !! b) ∧ live !! b = None).
  { intros b Hb. split; [intros ->; done|]. apply Hown. by constructor. }
  destruct (Nat.ltb_spec size (header_size + n)) as [Hsmall|Hbig].
  - apply Hnew; [|done| |].
    + intros b Hb. destruct (Hfr b Hb) as (Hne & ?). by rewrite lookup_delete_ne.
    + intros b k Hb. rewrite lookup_delete_ne by (intros <-; congruence). by apply Hlive.
    + intros a Ha. destruct (decide (a = t)) as [->|Hne]; [by rewrite lookup_delete_eq|].
      rewrite lookup_delete_ne by done. by apply Hans.
  - split_and!; [done| |by exists size]. split; cbn [blocks free_blocks]; [done| |].
    + intros b Hb. destruct (Hfr b Hb) as (Hne & Hin & Hl). split; [done|]. by rewrite lookup_insert_ne.
    + intros b k. destruct (decide (b = t)) as [->|Hne].
      * rewrite lookup_insert_eq. intros [= <-]. by exists size.
      * rewrite lookup_insert_ne by done. apply Hlive.
Qed.

Lemma deallocate_ok r live b n :
  in_use_ok r live → live !! b = Some n →
  ∃ r', deallocate r b n = Some r' ∧ in_use_ok r' (delete b live).
Proof.
  intros [Hnd Hown Hlive] Hb. unfold deallocate. destruct (Hlive b n Hb) as (size & Hs & Hn). rewrite Hs.
  cbn [mbind option_bind]. destruct (Nat.leb_spec (header_size + n) size); [|lia].
  cbn [check mbind option_bind]. eexists; split; [done|]. split; cbn [blocks free_blocks].
  - constructor; [|done]. intros Hin. apply Hown in Hin as [_ ?]. congruence.
  - intros c Hc. apply elem_of_cons in Hc as [->|Hc].
    + split; [done|]. by rewrite lookup_delete_eq.
    + destruct (Hown c Hc) as [? Hl]. split; [done|]. by rewrite lookup_delete_None; right.
  - intros c k Hk. apply lookup_delete_Some in Hk as [_ Hk]. by apply Hlive.
Qed.

Lemma allocator_step_ok s s' : step s s' → in_use_ok s.1 s.2 → in_use_ok s'.1 s'.2.
Proof.
  intros Hs Hok. destruct Hs as [r live n answer b r' Hans Ha|r live n r' Ha|r live b n r' Hb Hd]; cbn in *.
  - pose proof (allocate_ok r live n answer Hok Hans) as H. rewrite Ha in H. by destruct H as (_ & ? & _).
  - pose proof (allocate_ok r live n None Hok) as H. rewrite Ha in H. by destruct H as [_ ?].
  - destruct (deallocate_ok r live b n Hok Hb) as (r2 & Hr2 & ?). congruence.
Qed.

(** However blocks are allocated and given back, a block that is handed out
    is in use by nobody else and big enough for the request, and giving back a
    block in use with the size it was asked for never trips the assertion. *)
Theorem allocator_hands_out_free_blocks (r : Resource) (live : gmap block nat)
    (Hreach : rtc step (empty_resource, ∅) (r, live)) :
  (∀ n answer b r', (∀ a, answer = Some a → blocks r !! a = None) →
     allocate r n answer = (Some b, r') →
     live !! b = None ∧ ∃ size, blocks r' !! b = Some size ∧ header_size + n ≤ size)
  ∧ (∀ b n, live !! b = Some n → is_Some (deallocate r b n)).
Proof.
  assert (Hok : in_use_ok r live).
  { change (in_use_ok (r, live).1 (r, live).2). revert Hreach.
    apply (rtc_ind_r (λ s, in_use_ok s.1 s.2)).
    - split; cbn; [constructor|by intros b Hb; apply elem_of_nil in Hb|done].
    - intros s s' _ Hs Hok. by apply (allocator_step_ok s). }
  split.
  - intros n answer b r' Hans Ha. pose proof (allocate_ok r live n answer Hok Hans) as H.
    rewrite Ha in H. by destruct H as (? & _ & ?).
  - intros b n Hb. destruct (deallocate_ok r live b n Hok Hb) as (r' & -> & _). done.
Qed.

(** ** Witnesses *)

(** One block of 48 bytes, in use for 32 of them. *)
Lemma allocator_hands_out_free_blocks_witness :
  rtc step (empty_resource, ∅) (mkResource {[1%positive := 48]} [], {[1%positive := 32]})
  ∧ is_Some (deallocate (mkResource {[1%positive := 48]} []) 1%positive 32).
Proof.
  assert (Hreach : rtc step (empty_resource, ∅)
    (mkResource {[1%positive := 48]} [], {[1%positive := 32]})).
  { apply rtc_once. apply (step_allocate empty_resource ∅ 32 (Some 1%positive)); [|reflexivity].
    intros a _. reflexivity. }
  split; [exact Hreach|].
  apply (proj2 (allocator_hands_out_free_blocks _ _ Hreach)). reflexivity.
Defined.
