(* ===== verification/Driver.v ===== *)
(** * Driver: the life of a transaction in its buffers
    ([src/src/libedr/driver/Driver.hpp], [DriverImpl.hpp]).

    [Transaction] says what drivers see of a transaction, by the index of an
    action; here the same operations work on positions in the buffers that a
    driver takes from its pool, and gives back when the transaction ends. *)
From S2P Require Import Prelude BitStream Actions FreeList Transaction TransactionBuffer VSS ActionLayout Storage Errors.
Local Open Scope nat_scope.

Definition Pool : Type := FreeList Buffer.

(** [TransactionStorage] with its pointer [owner] to the pool, which is null once
    the buffers were moved away.  [TransactionBuilder] has no other state. *)
Record OwnedStorage := mkOwned { owner : bool; buffers : TransactionStorage }.

(** [TransactionStatus], of which [TransactionInProgress] is a view. *)
Record Status := mkStatus {
  m_storage : OwnedStorage;
  m_first_incomplete : ActionPosition;
  m_error_buffer : option Buffer;
}.

(** What is left of a buffer that was moved from: its tail dangles. *)
Definition moved (b : Buffer) : Buffer :=
  mkBuffer [] (m_tail b) (TransactionBuffer.m_offset b) (m_had_allocation_failure b).

Definition moved_storage (s : OwnedStorage) : OwnedStorage :=
  mkOwned false (mkStorage (moved (ins (buffers s))) (moved (outs (buffers s)))).

Definition moved_status (st : Status) : Status :=
  mkStatus (moved_storage (m_storage st)) (m_first_incomplete st) None.

(** ** Buffers are given back *)

(** [item] says whether the pool can allocate an item if it needs one. *)
Definition free_buffer (pool : Pool) (item : bool) (b : Buffer) : Pool :=
  if m_had_allocation_failure b then pool else Free pool item (Clear b).

Definition FreeResources (pool : Pool) (items : bool * bool) (s : OwnedStorage) : Pool :=
  if owner s
  then free_buffer (free_buffer pool items.1 (ins (buffers s))) items.2 (outs (buffers s))
  else pool.

Definition free_error (pool : Pool) (item : bool) (st : Status) : Pool :=
  match m_error_buffer st with
  | Some b => if owner (m_storage st) then Free pool item (Clear b) else pool
  | None => pool
  end.

(** The destructors of a builder and of a status. *)
Definition destroy_builder : Pool → bool * bool → OwnedStorage → Pool := FreeResources.

Definition destroy_status (pool : Pool) (item : bool) (items : bool * bool) (st : Status) : Pool :=
  FreeResources (free_error pool item st) items (m_storage st).

(** [TransactionStorage::operator=(TransactionStorage &&)] and
    [TransactionStatus::operator=(TransactionStatus &&)]: what becomes of the pool, and
    what is left of [from]. *)
Definition assign_storage (pool : Pool) (items : bool * bool) (to from : OwnedStorage)
    : Pool * OwnedStorage * OwnedStorage :=
  (FreeResources pool items to, from, moved_storage from).

Definition assign_status (pool : Pool) (item : bool) (items : bool * bool) (to from : Status)
    : Pool * Status * Status :=
  let '(pool, s, rest) := assign_storage (free_error pool item to) items (m_storage to) (m_storage from) in
  (pool, mkStatus s (m_first_incomplete from) (m_error_buffer from),
   mkStatus rest (m_first_incomplete from) None).

(** ** Transactions are started *)

(** Two buffers of the pool: the language leaves open which is taken first. *)
Definition take_storage (pool : Pool) : OwnedStorage * Pool :=
  let '(i, pool) := TakeOrMake pool empty_buffer in
  let '(o, pool) := TakeOrMake pool empty_buffer in
  (mkOwned true (mkStorage i o), pool).

(** [TransactionStatus(TransactionBuilder &&)]. *)
Definition status_of (b : OwnedStorage) : Status := mkStatus b (begin_pos (buffers b)) None.

Definition MakeEmptyStatus (pool : Pool) : Status * Pool :=
  let '(b, pool) := take_storage pool in (status_of b, pool).

(** [reuse] is taken apart: its error stays with what is left of it. *)
Definition Initiate (pool : Pool) (reuse : option Status) : OwnedStorage * Pool * option Status :=
  match reuse with
  | Some st =>
      let s := m_storage st in
      let cleared := mkStorage (Clear (ins (buffers s))) (Clear (outs (buffers s))) in
      (mkOwned (owner s) cleared, pool,
       Some (mkStatus (moved_storage (mkOwned (owner s) cleared)) (m_first_incomplete st)
               (m_error_buffer st)))
  | None => let '(b, pool) := take_storage pool in (b, pool, None)
  end.

(** ** Transactions in progress *)

(** [TransactionStatus::operator bool]. *)
Definition status_ok (st : Status) : bool :=
  negb (HadAllocationFailure (buffers (m_storage st)))
  && bool_decide ((m_first_incomplete st).1 = End (ins (buffers (m_storage st)))).

Definition with_first_incomplete (st : Status) (pos : ActionPosition) : Status :=
  mkStatus (m_storage st) pos (m_error_buffer st).

Section driver.
Context `{ShiftUB} `{FreshBytes} (t_min_chunk_size : nat) (alloc : nat → bool).
Context (d : DriverID).

(** [Incomplete] and [Complete]: what a loop over them sees. *)
Definition Incomplete (fuel : nat) (st : Status) : option (list ActionOutVariant) :=
  let s := buffers (m_storage st) in iterate d fuel s (m_first_incomplete st) (end_pos s).

Definition Complete (fuel : nat) (st : Status) : option (list ActionOutVariant) :=
  let s := buffers (m_storage st) in iterate d fuel s (begin_pos s) (m_first_incomplete st).

Definition Done (st : Status) (pos : ActionPosition) : option Status :=
  next ← incr d (buffers (m_storage st)) pos; Some (with_first_incomplete st next).

Definition Undo (st : Status) (pos : ActionPosition) : Status := with_first_incomplete st pos.

(** [FailAt], with the buffer for the error from the pool.  The error before is
    destroyed; without an owner the pool is a null pointer. *)
Definition FailAt (pool : Pool) (st : Status) (pos : Position) (cause : CauseArg)
    : option (Status * Pool) :=
  check (owner (m_storage st));;
  let '(buffer, pool) := TakeOrMake pool empty_buffer in
  error ← FailImpl t_min_chunk_size alloc d buffer (buffers (m_storage st)) pos cause;
  Some (mkStatus (m_storage st) (m_first_incomplete st) error, pool).

Definition Fail (pool : Pool) (st : Status) (cause : CauseArg) : option (Status * Pool) :=
  match cause with
  | CauseMissing => Some (st, pool)
  | _ => if status_ok st then Some (st, pool)
         else FailAt pool st (m_first_incomplete st).1 cause
  end.

(** The loop of [Schedule]: the first action that is not there, if any. *)
Fixpoint first_corrupted (fuel : nat) (s : TransactionStorage) (pos last : ActionPosition)
    : option (option ActionOutVariant) :=
  match fuel with
  | O => None
  | S fuel =>
      if bool_decide (pos.1 = last.1) then Some None else
      act ← deref d s pos;
      if action_out_ok act then next ← incr d s pos; first_corrupted fuel s next last
      else Some (Some act)
  end.

(** [Schedule] and [ScheduleAsync]; [execute] is the driver's [Execute], and
    [frames] says whether the frames of both coroutines were allocated. *)
Definition Schedule {W : Type} (fuel : nat) (frames : bool)
    (execute : Status → Pool → W → option (Status * Pool * W)) (pool : Pool) (builder : OwnedStorage)
    (w : W) : option (Status * Pool * W) :=
  let before := status_of builder in
  if HadAllocationFailure (buffers builder) then Some (before, pool, w) else
  if status_ok before then Some (before, pool, w) else
  mb ← first_corrupted fuel (buffers builder) (m_first_incomplete before) (end_pos (buffers builder));
  match mb with
  | Some act =>
      '(st, pool) ← FailAt pool before (m_pos act).1 (CauseMade [] CauseUnsupportedAction);
      Some (st, pool, w)
  | None => if frames then execute before pool w else Some (before, pool, w)
  end.

(** [DoImpl]: a transaction of the given actions. *)
Definition Do {W : Type} (fuel : nat) (frames : bool)
    (execute : Status → Pool → W → option (Status * Pool * W)) (pool : Pool) (reuse : option Status)
    (actions : list (ActionID * val * val)) (w : W)
    : option (list ActionPosition * option Status * (Status * Pool * W)) :=
  let '(xact, pool, remains) := Initiate pool reuse in
  '(ps, s) ← add_all t_min_chunk_size alloc (buffers xact) actions;
  r ← Schedule fuel frames execute pool (mkOwned (owner xact) s) w;
  Some (ps, remains, r).

(** ** Access to actions and errors *)

(** [ActionOutVariant::As]: the action and its result, or null pointers. *)
Definition As (id : ActionID) (a : ActionOutVariant) : option (option (list Z * list Z)) :=
  match m_action a, m_out a with
  | Some action, Some out =>
      mb ← VSS.As (ActionIDValue id) (action_ty id) action;
      Some (option_map (λ offset, (skip offset action, out)) mb)
  | _, _ => Some None
  end.

Definition GetID (a : ActionOutVariant) : option (option Z) :=
  match m_action a with
  | None => Some None
  | Some action => id ← read_word action 0; Some (Some id)
  end.

(** [TransactionBuilder::Get]. *)
Definition Get (b : OwnedStorage) (id : ActionID) (pos : ActionPosition) : option (option (list Z)) :=
  mb_action ← Extract (ins (buffers b)) pos.1 (TAction d) [];
  match mb_action with
  | None => Some None
  | Some (action, _) =>
      mb ← VSS.As (ActionIDValue id) (action_ty id) action;
      Some (option_map (λ offset, skip offset action) mb)
  end.

(** [TransactionStatus::As] and [Out]. *)
Definition status_As (st : Status) (id : ActionID) (pos : ActionPosition)
    : option (option (list Z * list Z)) :=
  act ← deref d (buffers (m_storage st)) pos; As id act.

Definition Out (st : Status) (id : ActionID) (pos : ActionPosition) : option (option (list Z)) :=
  mb ← status_As st id pos; Some (option_map snd mb).

(** [Outs<Ts...>] for several types, evaluated from left to right, which the
    language leaves open; the end gives null pointers. *)
Fixpoint OutsLoop (s : TransactionStorage) (pos : ActionPosition) (ids : list ActionID)
    : option (list (option (list Z))) :=
  match ids with
  | [] => Some []
  | id :: ids =>
      if bool_decide (pos.1 = End (ins s)) then
        rest ← OutsLoop s pos ids; Some (None :: rest)
      else
        act ← deref d s pos;
        next ← incr d s pos;
        mb ← As id act;
        rest ← OutsLoop s next ids;
        Some (option_map snd mb :: rest)
  end.

Definition Outs (st : Status) (ids : list ActionID) : option (list (option (list Z))) :=
  let s := buffers (m_storage st) in
  match ids with
  | [id] => act ← deref d s (begin_pos s); mb ← As id act; Some [option_map snd mb]
  | _ => OutsLoop s (begin_pos s) ids
  end.

(** [TransactionStatus::FailedAction], [FailedActionID], [GetCause] and
    [CauseAs]: a null pointer without an error. *)
Definition of_error {A : Type} (get : list Z → option A) (st : Status) : option (option A) :=
  mb ← GetError (m_error_buffer st);
  match mb with
  | None => Some None
  | Some error => x ← get error; Some (Some x)
  end.

Definition status_FailedActionID (st : Status) : option (option Z) := of_error FailedActionID st.

Definition status_GetCause (st : Status) : option (option (list Z)) := of_error GetCause st.

Definition CauseAs (id : Z) (t : ty) (st : Status) : option (option (list Z)) :=
  mb ← status_GetCause st;
  match mb with
  | None => Some None
  | Some cause =>
      mb ← VSS.As id t cause; Some (option_map (λ offset, skip offset cause) mb)
  end.

Definition status_FailedAction (st : Status) : option (option (list Z)) :=
  mb ← GetError (m_error_buffer st);
  match mb with
  | None => Some None
  | Some error => FailedAction error
  end.
End driver.

(** ** Positions stand for indices *)

(** An iterator that was incremented [k] times from the beginning. *)
Fixpoint iterator `{ShiftUB} (d : DriverID) (s : TransactionStorage) (k : nat)
    : option ActionPosition :=
  match k with
  | O => Some (begin_pos s)
  | S k => pos ← iterator d s k; incr d s pos
  end.

Definition request_action (r : Request) : AnyAction := r.1.1.

(** What stays true of the buffers while the results are written. *)
Record held `{ShiftUB} (d : DriverID) (rs : list Request) (s : TransactionStorage)
    (gi go : list (list (list Z))) (l : list (AnyAction * tree)) : Prop := {
  held_ins : stores (ins s) gi;
  held_outs : stores (outs s) go;
  held_ins_opened : opened gi;
  held_outs_opened : opened go;
  held_objs : transaction_objs d l (concat gi) (concat go);
  held_actions : l.*1 = request_action <$> rs;
  held_out_sizes : Forall2 (λ r oo, Z.of_nat (length oo) = out_size r) rs (concat go);
  held_size : (Z.of_nat (length (concat (concat gi))) + Z.of_nat (length (concat (concat go)))
               = total_request_size rs)%Z;
}.

Lemma built_held `{ShiftUB} d s rs gi go l : built d s rs gi go l → rs ≠ [] → held d rs s gi go l.
Proof.
  intros Hb Hne. destruct (built_stores d s rs gi go l Hb Hne). split; try apply Hb; try done.
  apply list_eq_Forall2, Forall2_fmap, Forall2_flip. eapply Forall2_impl; [apply Hb|].
  by intros [[a v] vo] ax [-> _].
Qed.

Section positions.
Context `{ShiftUB} (d : DriverID) (rs : list Request).
Context (Hne : rs ≠ []) (Hsize : (total_request_size rs < 2 ^ 62)%Z).

Section held.
Context (s : TransactionStorage) (gi go : list (list (list Z))) (l : list (AnyAction * tree)).
Context (Hb : held d rs s gi go l).

Definition stands_at (k : nat) (pos : ActionPosition) : Prop :=
  stands (ins s) pos.1 (drop k (concat gi)) ∧ stands (outs s) pos.2 (drop k (concat go)).

Lemma l_length : length l = length rs.
Proof. rewrite <-(length_fmap fst), (held_actions _ _ _ _ _ _ Hb). apply length_fmap. Qed.

Lemma held_objs_at k a x : l !! k = Some (a, x) →
  ∃ io oo, drop k (concat gi) = io :: drop (S k) (concat gi)
    ∧ drop k (concat go) = oo :: drop (S k) (concat go) ∧ in_obj d a io ∧ out_obj a oo x.
Proof.
  intros Hk. pose proof (transaction_objs_drop d k _ _ _ (held_objs _ _ _ _ _ _ Hb)) as Hd.
  rewrite (drop_S _ _ _ Hk) in Hd. inversion Hd as [|? ? ? io ios oo oos Hin Hout _ Heq Hio Hoo]; subst.
  rewrite <-!(Nat.add_1_r k), <-!drop_drop, <-Hio, <-Hoo. cbn [drop]. eauto 10.
Qed.

Lemma held_bytes :
  (Z.of_nat (length (concat (concat gi))) < 2 ^ 62 ∧ Z.of_nat (length (concat (concat go))) < 2 ^ 62)%Z.
Proof. pose proof (held_size _ _ _ _ _ _ Hb). lia. Qed.

(** A round of a loop: the streams move by the sizes of the objects. *)
Lemma step_at k pos a x : l !! k = Some (a, x) → stands_at k pos →
  ∃ act pos', deref d s pos = Some act ∧ visit d act = Some (a, x) ∧ action_out_ok act = true
    ∧ m_pos act = pos ∧ incr d s pos = Some pos' ∧ stands_at (S k) pos'
    ∧ Advance (ins s) pos.1 (length (default [] (concat gi !! k))) = Some pos'.1
    ∧ Advance (outs s) pos.2 (length (default [] (concat go !! k))) = Some pos'.2.
Proof.
  intros Hk [Hi Ho]. destruct (held_objs_at k a x Hk) as (io & oo & Hio & Hoo & Hin & Hout).
  assert (Hlk : concat gi !! k = Some io ∧ concat go !! k = Some oo).
  { rewrite <-(Nat.add_0_r k), <-!lookup_drop, Hio, Hoo. done. }
  destruct Hlk as [-> ->]. cbn [default from_option id].
  rewrite Hio in Hi. rewrite Hoo in Ho. destruct pos as [p q]. cbn [fst snd] in *.
  destruct held_bytes.
  destruct (iterate_step d s gi go p q a io _ oo _ x (held_ins _ _ _ _ _ _ Hb)
              (held_outs _ _ _ _ _ _ Hb) ltac:(lia) ltac:(lia) Hi Ho Hin Hout)
    as (act & p' & q' & ? & ? & ? & ? & ? & ? & ? & ? & ?).
  exists act, (p', q'). by split_and!.
Qed.

Lemma held_begin : stands_at 0 (begin_pos s).
Proof.
  destruct (transaction_objs_length _ _ _ _ (held_objs _ _ _ _ _ _ Hb)) as [Hi Ho].
  pose proof l_length. assert (length rs ≠ 0) by (by destruct rs).
  split; rewrite drop_0; apply begin_stands; try apply Hb; intros ->; simpl in *; lia.
Qed.

Lemma iterator_at k : k ≤ length l → ∃ pos, iterator d s k = Some pos ∧ stands_at k pos.
Proof.
  induction k as [|k IH]; intros Hk; [exists (begin_pos s); split; [done|apply held_begin]|].
  destruct IH as (pos & Hpos & Hst); [lia|].
  destruct (lookup_lt_is_Some_2 l k) as [[a x] Ha]; [lia|].
  destruct (step_at k pos a x Ha Hst) as (_ & pos' & _ & _ & _ & _ & Hincr & Hst' & _).
  exists pos'. split; [|done]. cbn [iterator]. by rewrite Hpos.
Qed.

(** Different actions are at different positions. *)
Lemma positions_apart j k p q :
  stands_at j p → stands_at k q → j < k → j < length l → p.1 ≠ q.1.
Proof.
  intros [Hp _] [Hq _] Hlt Hl Heq. apply stands_remaining in Hp, Hq. rewrite Heq, <-Hq in Hp.
  destruct (lookup_lt_is_Some_2 l j) as [[a x] Ha]; [lia|].
  destruct (held_objs_at j a x Ha) as (io & _ & Hio & _ & [_ Hbytes _] & _).
  rewrite Hio in Hp. cbn [concat] in Hp. rewrite length_app in Hp.
  rewrite <-(take_drop (k - S j) (drop (S j) (concat gi))), drop_drop, concat_app, length_app in Hp.
  replace (S j + (k - S j)) with k in Hp by lia. destruct io; [done|]. simpl in Hp. lia.
Qed.

Lemma iterator_apart j k p q :
  iterator d s j = Some p → iterator d s k = Some q → j ≠ k → j ≤ length l → k ≤ length l →
  p.1 ≠ q.1.
Proof.
  intros Hp Hq Hjk Hj Hk. destruct (iterator_at j Hj) as (p' & Hp' & Hsp).
  destruct (iterator_at k Hk) as (q' & Hq' & Hsq). simplify_eq.
  destruct (decide (j < k)); [|apply not_eq_sym]; eapply positions_apart; eauto; lia.
Qed.

(** The iterator behind the last action is the end. *)
Lemma iterator_end pos : iterator d s (length l) = Some pos → pos.1 = End (ins s).
Proof.
  intros Hpos. destruct (iterator_at (length l)) as (pos' & Hpos' & [Hst _]); [lia|]. simplify_eq.
  destruct (transaction_objs_length _ _ _ _ (held_objs _ _ _ _ _ _ Hb)) as [Hli _].
  rewrite drop_ge in Hst by lia. eapply stands_end; [apply Hb|done].
Qed.

(** A loop from the [j]th action to the [k]th one. *)
Lemma iterate_range j k p q fuel :
  iterator d s j = Some p → iterator d s k = Some q → j ≤ k ≤ length l → k - j < fuel →
  ∃ acts, iterate d fuel s p q = Some acts ∧ mapM (visit d) acts = Some (take (k - j) (drop j l)).
Proof.
  intros Hp Hq. revert j p Hp. induction fuel as [|fuel IH]; intros j p Hp Hjk Hf; [lia|].
  cbn [iterate]. destruct (decide (j = k)) as [->|Hjk'].
  { simplify_eq. rewrite bool_decide_eq_true_2, Nat.sub_diag by done. by exists []. }
  rewrite bool_decide_eq_false_2 by (eapply iterator_apart; eauto; lia).
  destruct (lookup_lt_is_Some_2 l j) as [[a x] Ha]; [lia|].
  destruct (iterator_at j) as (p' & Hp' & Hst); [lia|]. simplify_eq.
  destruct (step_at j p a x Ha Hst) as (act & next & Hde & Hv & _ & _ & Hincr & _).
  rewrite Hde. cbn [mbind option_bind]. rewrite Hincr. cbn [mbind option_bind].
  destruct (IH (S j) next) as (acts & Hit & Hm); [cbn [iterator]; by rewrite Hp|lia|lia|].
  rewrite Hit. exists (act :: acts). split; [done|]. cbn. rewrite Hv. cbn. rewrite Hm. cbn.
  rewrite (drop_S _ _ _ Ha). by replace (k - j) with (S (k - S j)) by lia.
Qed.

Lemma iterate_last fuel pos last last' :
  last.1 = last'.1 → iterate d fuel s pos last = iterate d fuel s pos last'.
Proof.
  intros Hl. revert pos. induction fuel as [|fuel IH]; intros pos; [done|]. cbn [iterate].
  rewrite Hl. case_bool_decide; [done|]. destruct (deref d s pos) as [act|]; [|done].
  cbn [mbind option_bind]. destruct (incr d s pos) as [next|]; [|done]. cbn [mbind option_bind].
  by rewrite IH.
Qed.

(** No action of the transaction is corrupted. *)
Lemma first_corrupted_None j p fuel :
  iterator d s j = Some p → j ≤ length l → length l - j < fuel →
  first_corrupted d fuel s p (end_pos s) = Some None.
Proof.
  revert j p. induction fuel as [|fuel IH]; intros j p Hp Hj Hf; [lia|]. cbn [first_corrupted].
  destruct (iterator_at (length l)) as (last & Hlast & _); [lia|].
  pose proof (iterator_end last Hlast) as Hend. cbn [end_pos fst]. rewrite <-Hend.
  destruct (decide (j = length l)) as [->|Hjl]; [simplify_eq; by rewrite bool_decide_eq_true_2|].
  rewrite bool_decide_eq_false_2 by (eapply iterator_apart; eauto).
  destruct (lookup_lt_is_Some_2 l j) as [[a x] Ha]; [lia|].
  destruct (iterator_at j) as (p' & Hp' & Hst); [lia|]. simplify_eq.
  destruct (step_at j p a x Ha Hst) as (act & next & Hde & _ & Hok & _ & Hincr & _).
  rewrite Hde. cbn [mbind option_bind]. rewrite Hok, Hincr. cbn [mbind option_bind].
  apply (IH (S j)); [cbn [iterator]; by rewrite Hp|lia|lia].
Qed.
End held.

(** Iterators depend on the sizes of the objects alone. *)
Lemma iterator_same s s' gi go go' l l' k :
  held d rs s gi go l → held d rs s' gi go' l' → ins s' = ins s → Begin (outs s') = Begin (outs s) →
  (∀ p n, Advance (outs s') p n = Advance (outs s) p n) →
  length <$> concat go' = length <$> concat go → k ≤ length l →
  iterator d s' k = iterator d s k.
Proof.
  intros Hb Hb' Hi Hbegin Hadv Hlen. induction k as [|k IH]; intros Hk; cbn [iterator].
  { unfold begin_pos. by rewrite Hi, Hbegin. }
  rewrite IH by lia. destruct (iterator_at s gi go l Hb k) as (pos & Hpos & Hst); [lia|].
  destruct (iterator_at s' gi go' l' Hb' k) as (pos' & Hpos' & Hst').
  { rewrite (l_length _ _ _ _ Hb'), <-(l_length _ _ _ _ Hb). lia. }
  rewrite IH, Hpos in Hpos' by lia. injection Hpos' as <-. rewrite Hpos. cbn [mbind option_bind].
  destruct (lookup_lt_is_Some_2 l k) as [[a x] Ha]; [lia|].
  destruct (lookup_lt_is_Some_2 l' k) as [[a' x'] Ha'].
  { rewrite (l_length _ _ _ _ Hb'), <-(l_length _ _ _ _ Hb). lia. }
  destruct (step_at s gi go l Hb k pos a x Ha Hst) as (_ & next & _ & _ & _ & _ & -> & _ & H1 & H2).
  destruct (step_at s' gi go' l' Hb' k pos a' x' Ha' Hst')
    as (_ & next' & _ & _ & _ & _ & -> & _ & H1' & H2').
  rewrite Hi, H1 in H1'. rewrite Hadv in H2'.
  assert (Hl : length (default [] (concat go' !! k)) = length (default [] (concat go !! k))).
  { pose proof (f_equal (λ z, z !! k) Hlen) as Hl. cbn beta in Hl. rewrite !list_lookup_fmap in Hl.
    destruct (concat go' !! k), (concat go !! k); cbn in *; congruence. }
  rewrite Hl, H2 in H2'. destruct next, next'. cbn in *. congruence.
Qed.

(** The bytes of a result are overwritten: the transaction has the result that is
    read from them, and the iterators stay what they are. *)
Lemma held_write s gi go l k r a x pos bytes :
  held d rs s gi go l → l !! k = Some (a, x) → rs !! k = Some r → iterator d s k = Some pos →
  Z.of_nat (length bytes) = out_size r → action_fits a →
  let s' := mkStorage (ins s) (store (outs s) pos.2 bytes) in
  ∃ go' y, view (out_ty (action_id a)) bytes (out_items a) = Some y
    ∧ held d rs s' gi go' (<[k := (a, y)]> l)
    ∧ ∀ j, j ≤ length l → iterator d s' j = iterator d s j.
Proof.
  intros Hb Hl Hr Hpos Hbytes Hf s'. pose proof (lookup_lt_Some _ _ _ Hl) as Hk.
  destruct (iterator_at s gi go l Hb k) as (pos' & Hpos' & [_ Hst]); [lia|]. simplify_eq.
  destruct (held_objs_at s gi go l Hb k a x Hl) as (_ & oo & _ & Hoo & _ & Hout).
  assert (Hlk : concat go !! k = Some oo).
  { rewrite <-(Nat.add_0_r k), <-lookup_drop, Hoo. done. }
  destruct (Forall2_lookup_l _ _ _ _ _ (held_out_sizes _ _ _ _ _ _ Hb) Hr) as (oo' & Hlk' & Hlen).
  simplify_eq. assert (Hlb : length bytes = length oo) by lia.
  destruct (held_bytes s gi go l Hb) as [_ Hgo].
  assert (Hle : length oo ≤ length (concat (concat go))).
  { rewrite <-(take_drop k (concat go)), Hoo, concat_app. cbn [concat]. rewrite !length_app. lia. }
  destruct (out_obj_rewritten a oo x bytes Hout Hf Hlb) as (y & Hy & Hout'); [lia|].
  destruct (decide (oo = [])) as [->|Hnil].
  - apply nil_length_inv in Hlb as ->. exists go, y. subst s'. rewrite store_nil.
    destruct (Hout [] 0%Z) as [_ Hx]; [done|done|]. rewrite Hy in Hx. injection Hx as ->.
    rewrite list_insert_id by done. by destruct s.
  - destruct (lookup_lt_is_Some_2 (positions_from 0 go) k) as [p Hp].
    { rewrite length_positions_from. by eapply lookup_lt_Some. }
    pose proof (positions_stand _ go k p (held_outs _ _ _ _ _ _ Hb) (held_outs_opened _ _ _ _ _ _ Hb) Hp) as Hst'.
    rewrite Hoo in Hst, Hst'. pose proof (stands_unique _ _ _ _ _ Hst' Hst Hnil) as ->.
    destruct (store_replaces (outs s) go k pos.2 oo bytes) as (go' & Hs & Hop & Hc); try apply Hb; try done.
    assert (Hsizes : length <$> concat go' = length <$> concat go).
    { rewrite Hc, list_fmap_insert, Hlb. apply list_insert_id. by rewrite list_lookup_fmap, Hlk. }
    assert (Hb' : held d rs s' gi go' (<[k := (a, y)]> l)).
    { destruct Hb as [? ? ? ? Hobjs Hacts Hos Hsz]. split; cbn [ins outs s']; try done.
      - rewrite Hc. by eapply transaction_objs_insert.
      - rewrite <-Hacts, list_fmap_insert. apply list_insert_id. by rewrite list_lookup_fmap, Hl.
      - rewrite Hc, <-(list_insert_id rs k r Hr). by apply Forall2_insert.
      - rewrite <-Hsz, !length_concat. change (map length) with (fmap (M := list) (@length Z)). by rewrite Hsizes. }
    exists go', y. split_and!; [done|done|]. intros j Hj.
    apply (iterator_same s s' gi go go' l _ j Hb Hb'); try done.
    + by destruct pos as [? [[]]].
    + intros. apply Advance_store.
Qed.
End positions.

(** ** Refinement of [Transaction] *)

(** What a driver does to a transaction in progress; [k] is the action that an
    iterator stands at. *)
Inductive tx_op :=
| ODone (k : nat)
| OUndo (k : nat)
| OFailAt (k : nat) (nested : list Z) (c : Cause)
| OFail (nested : list Z) (c : Cause)
| OWrite (k : nat) (bytes : list Z).

Section operations.
Context `{ShiftUB} `{FreshBytes} (t_min_chunk_size : nat) (alloc : nat → bool) (d : DriverID).

(** Writing through the pointer that [ActionOutVariant] has to a result. *)
Definition write_out (st : Status) (pos : ActionPosition) (bytes : list Z) : option Status :=
  let s := buffers (m_storage st) in
  act ← deref d s pos;
  _ ← m_out act;
  Some (mkStatus (mkOwned (owner (m_storage st)) (mkStorage (ins s) (store (outs s) pos.2 bytes)))
          (m_first_incomplete st) (m_error_buffer st)).

Definition run_op (st : Status) (pool : Pool) (o : tx_op) : option (Status * Pool) :=
  let at_action k := iterator d (buffers (m_storage st)) k in
  match o with
  | ODone k => pos ← at_action k; st ← Done d st pos; Some (st, pool)
  | OUndo k => pos ← at_action k; Some (Undo st pos, pool)
  | OFailAt k nested c =>
      pos ← at_action k; FailAt t_min_chunk_size alloc d pool st pos.1 (CauseMade nested c)
  | OFail nested c => Fail t_min_chunk_size alloc d pool st (CauseMade nested c)
  | OWrite k bytes => pos ← at_action k; st ← write_out st pos bytes; Some (st, pool)
  end.

Fixpoint run_ops (st : Status) (pool : Pool) (ops : list tx_op) : option (Status * Pool) :=
  match ops with
  | [] => Some (st, pool)
  | o :: ops => '(st, pool) ← run_op st pool o; run_ops st pool ops
  end.
End operations.

(** The same on the transaction as a list: a result is what is read of its bytes. *)
Definition tx_step (tx : Tx AnyAction tree) (o : tx_op) : Tx AnyAction tree :=
  match o with
  | ODone k => Transaction.Done tx k
  | OUndo k => Transaction.Undo tx k
  | OFailAt k _ c => Transaction.FailAt id tx k c
  | OFail _ c => Transaction.Fail id tx c
  | OWrite k bytes =>
      match a ← Transaction.ins tx !! k; view (out_ty (action_id a)) bytes (out_items a) with
      | Some x => Transaction.set_out tx k x
      | None => tx
      end
  end.

Definition not_skip (r : Request) : Prop := action_id r.1.1 ≠ SkipCyclesID.

(** The operations keep to the actions of the transaction and to the bytes of
    their results; errors are of the kind that [error_roundtrip] covers. *)
Definition legal `{ShiftUB} (rs : list Request) (o : tx_op) : Prop :=
  let cause_ok nested c :=
    cause_fits nested c ∧ aligned_cause c = false
    ∧ (total_request_size rs + cause_size nested c < 2 ^ 61)%Z in
  match o with
  | ODone k | OUndo k => k < length rs
  | OFailAt k nested c => cause_ok nested c ∧ ∃ r, rs !! k = Some r ∧ not_skip r
  | OFail nested c => cause_ok nested c ∧ Forall not_skip rs
  | OWrite k bytes => ∃ r, rs !! k = Some r ∧ Z.of_nat (length bytes) = out_size r
  end.

(** A client that reads the error finds [e]. *)
Definition error_seen `{ShiftUB} (eb : option Buffer) (e : option ActionError) : Prop :=
  match eb, e with
  | None, None => True
  | Some eb, Some e => ∃ mem x, GetError (Some eb) = Some (Some mem)
      ∧ view ActionError_ty mem [] = Some x ∧ decode_error x = Some e
  | _, _ => False
  end.

(** ... because the buffer begins with its bytes. *)
Definition error_kept `{ShiftUB} (eb : option Buffer) (e : option ActionError) : Prop :=
  match eb, e with
  | None, None => True
  | Some eb, Some e => ∃ obj, one_object eb obj ∧ error_object obj e
  | _, _ => False
  end.

Lemma error_kept_seen `{ShiftUB} eb e : error_kept eb e → error_seen eb e.
Proof.
  destruct eb as [eb|], e as [e|]; cbn [error_kept error_seen]; try done.
  intros (obj & Hone & Hobj). by eapply error_object_read.
Qed.

(** The action at an index and its result. *)
Definition seen (tx : Tx AnyAction tree) (i : nat) : option (AnyAction * tree) :=
  a ← Transaction.ins tx !! i; x ← Transaction.outs tx !! i; Some (a, x).

Record refines `{ShiftUB} (d : DriverID) (rs : list Request) (s : TransactionStorage)
    (gi go : list (list (list Z))) (l : list (AnyAction * tree))
    (st : Status) (tx : Tx AnyAction tree) : Prop := {
  ref_held : held d rs s gi go l;
  ref_storage : m_storage st = mkOwned true s;
  ref_ins : Transaction.ins tx = l.*1;
  ref_outs : Transaction.outs tx = l.*2;
  ref_failure : had_allocation_failure tx = false;
  ref_wf : tx_wf tx;
  ref_first : iterator d s (Transaction.m_first_incomplete tx) = Some (m_first_incomplete st);
  ref_error : error_kept (m_error_buffer st) (Transaction.m_error_buffer tx);
}.

Section refinement.
Context `{ShiftUB} `{FreshBytes} (fresh_length : ∀ n, length (fresh_bytes n) = n) (min_size : nat).
Context (d : DriverID) (rs : list Request) (Hfits : Forall (λ r, action_fits (request_action r)) rs).
Context (Hne : rs ≠ []) (Hsize : (total_request_size rs < 2 ^ 62)%Z).

Lemma ref_End s gi go l st tx : refines d rs s gi go l st tx → Transaction.End tx = length l.
Proof. intros Hr. unfold Transaction.End. rewrite (ref_ins _ _ _ _ _ _ _ _ Hr). apply length_fmap. Qed.

Lemma no_failure s gi go l : held d rs s gi go l → HadAllocationFailure s = false.
Proof.
  intros [[_ _ _ _ Hi] [_ _ _ _ Ho] _ _ _ _ _ _]. unfold HadAllocationFailure. by rewrite Hi, Ho.
Qed.

Lemma refines_ok s gi go l st tx : refines d rs s gi go l st tx → status_ok st = Transaction.status_ok tx.
Proof.
  intros Hr. pose proof Hr as [Hb Hs _ _ Hf Hwf Hfirst _]. unfold tx_wf in Hwf.
  unfold status_ok, Transaction.status_ok.
  rewrite Hs, Hf. cbn [buffers]. rewrite (no_failure s gi go l Hb). cbn [negb andb].
  rewrite (ref_End _ _ _ _ _ _ Hr) in Hwf |- *.
  destruct (iterator_at d rs Hne Hsize s gi go l Hb (length l)) as (last & Hlast & _); [lia|].
  rewrite <-(iterator_end d rs Hne Hsize s gi go l Hb last Hlast).
  destruct (Nat.eqb_spec (Transaction.m_first_incomplete tx) (length l)) as [He|Hn].
  - rewrite He in Hfirst. simplify_eq. by apply bool_decide_eq_true_2.
  - apply bool_decide_eq_false_2. by eapply iterator_apart; eauto.
Qed.

(** What the list of actions with their results shows. *)
Lemma refines_seen s gi go l st tx j n :
  refines d rs s gi go l st tx → j + n ≤ length l →
  mapM (seen tx) (seq j n) = Some (take n (drop j l)).
Proof.
  intros Hr. revert j. induction n as [|n IH]; intros j Hl; [done|].
  destruct (lookup_lt_is_Some_2 l j) as [[a x] Ha]; [lia|].
  assert (Hs : seen tx j = Some (a, x)).
  { unfold seen. rewrite (ref_ins _ _ _ _ _ _ _ _ Hr), (ref_outs _ _ _ _ _ _ _ _ Hr), !list_lookup_fmap, Ha. done. }
  cbn -[seen]. rewrite Hs. cbn -[seen]. rewrite IH by lia. cbn. by rewrite (drop_S _ _ _ Ha).
Qed.

(** The loops over the two parts of a transaction. *)
Lemma refines_loops s gi go l st tx : refines d rs s gi go l st tx →
  (∃ acts, Complete d (S (length rs)) st = Some acts
     ∧ mapM (visit d) acts = mapM (seen tx) (Transaction.Complete tx))
  ∧ (∃ acts, Incomplete d (S (length rs)) st = Some acts
     ∧ mapM (visit d) acts = mapM (seen tx) (Transaction.Incomplete tx)).
Proof.
  intros Hr. pose proof Hr as [Hb Hs _ _ _ Hwf Hf _]. pose proof (ref_End _ _ _ _ _ _ Hr) as HE.
  unfold tx_wf in Hwf. rewrite HE in Hwf. pose proof (l_length d rs s gi go l Hb).
  unfold Complete, Incomplete, Transaction.Complete, Transaction.Incomplete.
  rewrite Hs, HE, !(refines_seen _ _ _ _ _ _ _ _ Hr) by lia. cbn [buffers]. split.
  - destruct (iterate_range d rs Hne Hsize s gi go l Hb 0 (Transaction.m_first_incomplete tx)
                (begin_pos s) (m_first_incomplete st) (S (length rs)) eq_refl Hf)
      as (acts & Hit & Hm); [lia|lia|]. rewrite Nat.sub_0_r in Hm. eauto.
  - destruct (iterator_at d rs Hne Hsize s gi go l Hb (length l)) as (last & Hlast & _); [lia|].
    rewrite (iterate_last d s _ _ (end_pos s) last)
      by (symmetry; by apply (iterator_end d rs Hne Hsize s gi go l Hb)).
    destruct (iterate_range d rs Hne Hsize s gi go l Hb (Transaction.m_first_incomplete tx) (length l)
                (m_first_incomplete st) last (S (length rs)) Hf Hlast) as (acts & Hit & Hm); [lia|lia|].
    eauto.
Qed.

Lemma taken_cleared (pool : Pool) :
  Forall cleared (full pool) →
  let '(b, pool') := TakeOrMake pool empty_buffer in cleared b ∧ Forall cleared (full pool').
Proof.
  unfold TakeOrMake. destruct (full pool) as [|b bs] eqn:E; intros Hp.
  - rewrite E. split; [apply empty_cleared|done].
  - by apply Forall_cons in Hp.
Qed.

(** The action of a request. *)
Lemma held_request s gi go l k r : held d rs s gi go l → rs !! k = Some r →
  ∃ x, l !! k = Some (request_action r, x).
Proof.
  intros Hb Hk. pose proof (f_equal (λ z, z !! k) (held_actions _ _ _ _ _ _ Hb)) as Hl. cbn beta in Hl.
  rewrite !list_lookup_fmap, Hk in Hl. destruct (l !! k) as [[a x]|]; [|done]. cbn in Hl.
  injection Hl as ->. eauto.
Qed.

(** An error is recorded for an action. *)
Lemma FailAt_refines s gi go l pool st tx k pos r nested c :
  refines d rs s gi go l st tx → Forall cleared (full pool) → iterator d s k = Some pos →
  rs !! k = Some r → not_skip r → cause_fits nested c → aligned_cause c = false →
  (total_request_size rs + cause_size nested c < 2 ^ 61)%Z →
  ∃ st' pool', FailAt min_size (λ _, true) d pool st pos.1 (CauseMade nested c) = Some (st', pool')
    ∧ refines d rs s gi go l st' (Transaction.FailImpl id tx k c) ∧ Forall cleared (full pool').
Proof.
  intros Hr Hpool Hpos Hk Hskip Hcf Hal Hlt. pose proof (ref_held _ _ _ _ _ _ _ _ Hr) as Hb.
  destruct (held_request s gi go l k r Hb Hk) as [x Hl]. set (a := request_action r) in *.
  destruct (iterator_at d rs Hne Hsize s gi go l Hb k) as (pos' & Hpos' & [Hst _]);
    [apply lookup_lt_Some in Hl; lia|]. simplify_eq.
  destruct (held_objs_at d rs s gi go l Hb k a x Hl) as (io & _ & Hio & _ & [Hd _ (t & Hdec & _ & Hread)] & _).
  rewrite Hio in Hst. destruct (held_bytes d rs Hsize s gi go l Hb) as [Hbi _].
  destruct (Extract_stands (ins s) gi pos.1 io _ (TAction d) [] _ (held_ins _ _ _ _ _ _ Hb) ltac:(lia) Hst
              ltac:(by destruct d) Hread) as (mem & next & Hex & _ & _ & Ht & _).
  pose proof (taken_cleared pool Hpool) as Htaken. unfold FailAt. rewrite (ref_storage _ _ _ _ _ _ _ _ Hr).
  cbn [owner buffers check mbind option_bind].
  destruct (TakeOrMake pool empty_buffer) as [b pool']. destruct Htaken as [Hcl Hpool'].
  destruct (FailImpl_found fresh_length min_size d b s pos.1 mem next io a t nested c)
    as (eb & obj & Hfail & Hone & Hobj); [done..| |].
  { pose proof (held_size _ _ _ _ _ _ Hb).
    assert (length io ≤ length (concat (concat gi))); [|lia].
    rewrite <-(take_drop k (concat gi)), Hio, concat_app. cbn [concat]. rewrite !length_app. lia. }
  rewrite Hfail. cbn [mbind option_bind]. eexists _, _. split; [done|]. split; [|done].
  destruct Hr as [? Hs Hi Ho Hf Hw Hfi He]. split; cbn; try done.
  exists obj. split; [done|]. rewrite Hi, list_lookup_fmap, Hl. exact Hobj.
Qed.

(** A result is written. *)
Lemma write_refines s gi go l st tx k pos bytes r :
  refines d rs s gi go l st tx → iterator d s k = Some pos → rs !! k = Some r →
  Z.of_nat (length bytes) = out_size r →
  ∃ st' s' go' l', write_out d st pos bytes = Some st'
    ∧ refines d rs s' gi go' l' st' (tx_step tx (OWrite k bytes)).
Proof.
  intros [Hb Hs Hi Ho Hf Hw Hfi He] Hpos Hk Hbytes. destruct (held_request s gi go l k r Hb Hk) as [x Hl].
  destruct (iterator_at d rs Hne Hsize s gi go l Hb k) as (pos' & Hpos' & Hst);
    [apply lookup_lt_Some in Hl; lia|]. simplify_eq.
  destruct (step_at d rs Hsize s gi go l Hb k pos _ x Hl Hst) as (act & _ & Hde & _ & Hok & _).
  rewrite Forall_forall in Hfits. specialize (Hfits r ltac:(by eapply list_elem_of_lookup_2)).
  destruct (held_write d rs Hne Hsize s gi go l k r _ x pos bytes Hb Hl Hk Hpos Hbytes Hfits)
    as (go' & y & Hy & Hb' & Hit).
  unfold write_out, action_out_ok in *. rewrite Hs. cbn [buffers owner]. rewrite Hde. cbn [mbind option_bind].
  destruct (m_out act) as [mem|]; [|by rewrite andb_false_r in Hok]. cbn [mbind option_bind].
  eexists _, _, go', _. split; [done|]. cbn [tx_step].
  assert (Hlk : Transaction.ins tx !! k = Some (request_action r)) by (by rewrite Hi, list_lookup_fmap, Hl).
  rewrite Hlk. cbn [mbind option_bind]. rewrite Hy.
  split; cbn; try done.
  - rewrite list_fmap_insert. cbn. by rewrite list_insert_id by (by rewrite <-Hi).
  - by rewrite list_fmap_insert, Ho.
  - rewrite Hit; [done|]. unfold tx_wf, Transaction.End in Hw. by rewrite Hi, length_fmap in Hw.
Qed.

(** The boundary moves behind an action. *)
Lemma Done_refines s gi go l st tx k :
  refines d rs s gi go l st tx → k < length rs →
  ∃ pos st', iterator d s k = Some pos ∧ Done d st pos = Some st'
    ∧ refines d rs s gi go l st' (Transaction.Done tx k).
Proof.
  intros [Hb Hs Hi Hou Hf Hw Hfi He] Hk. pose proof (l_length d rs s gi go l Hb) as Hll.
  destruct (iterator_at d rs Hne Hsize s gi go l Hb k) as (pos & Hpos & _); [lia|].
  destruct (iterator_at d rs Hne Hsize s gi go l Hb (S k)) as (next & Hnext & _); [lia|].
  pose proof Hnext as Hincr. cbn [iterator] in Hincr. rewrite Hpos in Hincr. cbn [mbind option_bind] in Hincr.
  exists pos, (with_first_incomplete st next). unfold Done. rewrite Hs. cbn [buffers]. rewrite Hincr.
  split_and!; [done|done|].
  destruct (lookup_lt_is_Some_2 (Transaction.ins tx) k) as [a Ha]; [rewrite Hi, length_fmap; lia|].
  pose proof (Done_here tx k a Ha) as Hd. split; [done..|apply Done_wf|by rewrite Hd|done].
Qed.

Lemma run_op_refines s gi go l st pool tx o :
  refines d rs s gi go l st tx → Forall cleared (full pool) → legal rs o →
  ∃ s' go' l' st' pool', run_op min_size (λ _, true) d st pool o = Some (st', pool')
    ∧ refines d rs s' gi go' l' st' (tx_step tx o) ∧ Forall cleared (full pool').
Proof.
  intros Hr Hpool Ho. pose proof Hr as [Hb Hs Hi Hou Hf Hw Hfi He].
  pose proof (l_length d rs s gi go l Hb) as Hll.
  assert (Hat : ∀ k r, rs !! k = Some r → ∃ pos, iterator d s k = Some pos).
  { intros k r Hk%lookup_lt_Some.
    destruct (iterator_at d rs Hne Hsize s gi go l Hb k) as (pos & ? & _); [lia|eauto]. }
  destruct o as [k|k|k nested c|nested c|k bytes]; cbn [run_op]; cbn in Ho; rewrite ?Hs; cbn [buffers].
  - destruct (Done_refines s gi go l st tx k Hr Ho) as (pos & st' & -> & Hdone & Hr').
    cbn [mbind option_bind]. rewrite Hdone. exists s, go, l. eexists _, _. by split_and!.
  - destruct (lookup_lt_is_Some_2 rs k Ho) as [r Hk]. destruct (Hat k r Hk) as [pos Hpos]. rewrite Hpos.
    cbn [mbind option_bind]. exists s, go, l. eexists _, _. split; [done|]. split; [|done].
    split; cbn; try done. unfold tx_wf, Transaction.End. cbn. rewrite Hi, length_fmap. lia.
  - destruct Ho as [(Hc & Hal & Hlt) (r & Hk & Hskip)]. destruct (Hat k r Hk) as [pos Hpos].
    rewrite Hpos. cbn [mbind option_bind]. exists s, go, l.
    by apply (FailAt_refines s gi go l pool st tx k pos r).
  - destruct Ho as [(Hc & Hal & Hlt) Hskip]. exists s, go, l. cbn [tx_step]. unfold Fail, Transaction.Fail.
    rewrite (refines_ok s gi go l st tx Hr). destruct (Transaction.status_ok tx) eqn:Hok; [eauto|].
    assert (Hlt' : Transaction.m_first_incomplete tx < length rs).
    { unfold Transaction.status_ok in Hok. unfold tx_wf in Hw.
      rewrite Hf, (ref_End _ _ _ _ _ _ Hr) in *. cbn in Hok. bool_to_prop. lia. }
    destruct (lookup_lt_is_Some_2 rs _ Hlt') as [r Hk]. rewrite Forall_forall in Hskip.
    apply (FailAt_refines s gi go l pool st tx _ (m_first_incomplete st) r); try done.
    apply Hskip. by eapply list_elem_of_lookup_2.
  - destruct Ho as (r & Hk & Hbytes). destruct (Hat k r Hk) as [pos Hpos]. rewrite Hpos.
    cbn [mbind option_bind].
    destruct (write_refines s gi go l st tx k pos bytes r Hr Hpos Hk Hbytes)
      as (st' & s' & go' & l' & -> & Hr'). cbn [mbind option_bind]. eauto 10.
Qed.

Lemma run_ops_refines ops s gi go l st pool tx :
  refines d rs s gi go l st tx → Forall cleared (full pool) → Forall (legal rs) ops →
  ∃ s' go' l' st' pool', run_ops min_size (λ _, true) d st pool ops = Some (st', pool')
    ∧ refines d rs s' gi go' l' st' (foldl tx_step tx ops) ∧ Forall cleared (full pool').
Proof.
  intros Hr Hpool Hops. revert s go l st pool tx Hr Hpool.
  induction Hops as [|o ops Ho Hops IH]; intros s go l st pool tx Hr Hpool; cbn [run_ops foldl];
    [eauto 10|].
  destruct (run_op_refines s gi go l st pool tx o Hr Hpool Ho)
    as (s' & go' & l' & st' & pool' & -> & Hr' & Hpool').
  cbn [mbind option_bind]. by eapply IH.
Qed.

Lemma begin_refines s gi go l : held d rs s gi go l →
  refines d rs s gi go l (status_of (mkOwned true s)) (begin_tx (l.*1, l.*2) false).
Proof. split; cbn; try done. unfold tx_wf. cbn. lia. Qed.

(** A transaction that a client hands to the driver, with its actions in place. *)
Lemma Schedule_refines ops s gi go l pool :
  held d rs s gi go l → Forall cleared (full pool) → Forall (legal rs) ops →
  ∃ s' go' l' st pool', run_ops min_size (λ _, true) d (status_of (mkOwned true s)) pool ops = Some (st, pool')
    ∧ Schedule min_size (λ _, true) d (S (length rs)) true
      (λ st pool w, '(st, pool) ← run_ops min_size (λ _, true) d st pool ops; Some (st, pool, w))
      pool (mkOwned true s) tt = Some (st, pool', tt)
    ∧ refines d rs s' gi go' l' st (foldl tx_step (begin_tx (l.*1, l.*2) false) ops).
Proof.
  intros Hb Hpool Hops. pose proof (begin_refines s gi go l Hb) as Hr0.
  pose proof (l_length d rs s gi go l Hb) as Hll.
  destruct (run_ops_refines ops _ _ _ _ _ pool _ Hr0) as (s' & go' & l' & st & pool' & Hrun & Hr & _);
    [done|done|].
  exists s', go', l', st, pool'. split; [done|]. split; [|done]. unfold Schedule. cbn [buffers].
  rewrite (no_failure s gi go l Hb), (refines_ok _ _ _ _ _ _ Hr0).
  replace (Transaction.status_ok (begin_tx _ _)) with false by (by destruct rs, l).
  cbn [status_of m_first_incomplete buffers].
  rewrite (first_corrupted_None d rs Hne Hsize s gi go l Hb 0) by (done || lia).
  cbn [mbind option_bind]. change (mkStatus _ _ _) with (status_of (mkOwned true s)). by rewrite Hrun.
Qed.
End refinement.

Lemma take_storage_ready (pool : Pool) :
  Forall reusable (full pool) →
  let '(b, pool') := take_storage pool in
  owner b = true ∧ ready (buffers b) ∧ Forall reusable (full pool').
Proof.
  intros Hp. unfold take_storage, TakeOrMake. pose proof empty_reusable.
  destruct pool as [[|i [|o bs]] e]; cbn in *; repeat (apply Forall_cons in Hp as [? Hp]); done.
Qed.

Lemma reusable_cleared bs : Forall reusable bs → Forall cleared bs.
Proof. intros Hbs. eapply Forall_impl; [exact Hbs|]. by intros b []. Qed.

(** A transaction runs from [Initiate] to its status. *)
Lemma Do_refines `{ShiftUB} `{FreshBytes} (min_size : nat) (d : DriverID) (pool : Pool)
    (rs : list Request) (ops : list tx_op)
    (Hfresh : ∀ n, length (fresh_bytes n) = n) (Hpool : Forall reusable (full pool))
    (Hok : Forall (request_ok d) rs) (Hne : rs ≠ [])
    (Hsize : (total_request_size rs < 2 ^ 62)%Z) (Hops : Forall (legal rs) ops) :
  ∃ l ps st pool' s gi go l', Forall2 shown rs l
    ∧ Do min_size (λ _, true) d (S (length rs)) true
        (λ st pool w, '(st, pool) ← run_ops min_size (λ _, true) d st pool ops; Some (st, pool, w))
        pool None (add_args <$> rs) tt = Some (ps, None, (st, pool', tt))
    ∧ refines d rs s gi go l' st (foldl tx_step (begin_tx (l.*1, l.*2) false) ops).
Proof.
  pose proof (take_storage_ready pool Hpool) as Ht. unfold Do, Initiate.
  destruct (take_storage pool) as [b pool1]. destruct Ht as (Hown & Hready & Hpool1).
  destruct (add_all_built Hfresh min_size d (buffers b) [] [] [] [] rs (ready_built d _ Hready) Hok Hsize)
    as (ps & s & gi & go & l & Hall & Hbuilt & _). cbn [app] in Hbuilt.
  pose proof (built_held d s rs gi go l Hbuilt Hne) as Hb.
  assert (Hfits : Forall (λ r, action_fits (request_action r)) rs).
  { eapply Forall_impl; [exact Hok|]. by intros [[a v] vo] (_ & Hf & _). }
  destruct (Schedule_refines Hfresh min_size d rs Hfits Hne Hsize ops s gi go l pool1 Hb)
    as (s' & go' & l' & st & pool2 & _ & Hrun & Hr); [by apply reusable_cleared|done|].
  exists l, ps, st, pool2, s', gi, go', l'. split; [apply Hbuilt|]. split; [|done].
  rewrite Hall. cbn [mbind option_bind]. rewrite Hown, Hrun. done.
Qed.

(** C6: transactions in buffers are the transactions of [Transaction].  A client
    runs actions on a driver whose pool holds cleared buffers of at most one
    chunk; the driver gets all of them in order, and whatever it then does
    (writing results over their bytes, [Done], [Undo], [FailAt] and [Fail] in any
    order) the client sees what the same operations on a list of actions give:
    the outcome, the loops over the complete and the incomplete actions with
    their results, and the error. *)
Theorem driver_refines_tx `{ShiftUB} `{FreshBytes} (min_size : nat) (d : DriverID) (pool : Pool)
    (rs : list Request) (ops : list tx_op)
    (Hfresh : ∀ n, length (fresh_bytes n) = n) (Hpool : Forall reusable (full pool))
    (Hok : Forall (request_ok d) rs) (Hne : rs ≠ [])
    (Hsize : (total_request_size rs < 2 ^ 62)%Z) (Hops : Forall (legal rs) ops) :
  ∃ l ps st pool', Forall2 shown rs l
    ∧ Do min_size (λ _, true) d (S (length rs)) true
        (λ st pool w, '(st, pool) ← run_ops min_size (λ _, true) d st pool ops; Some (st, pool, w))
        pool None (add_args <$> rs) tt = Some (ps, None, (st, pool', tt))
    ∧ let tx := foldl tx_step (begin_tx (l.*1, l.*2) false) ops in
      status_ok st = Transaction.status_ok tx
      ∧ (∃ acts, Complete d (S (length rs)) st = Some acts
           ∧ mapM (visit d) acts = mapM (seen tx) (Transaction.Complete tx))
      ∧ (∃ acts, Incomplete d (S (length rs)) st = Some acts
           ∧ mapM (visit d) acts = mapM (seen tx) (Transaction.Incomplete tx))
      ∧ error_seen (m_error_buffer st) (Transaction.m_error_buffer tx).
Proof.
  destruct (Do_refines min_size d pool rs ops Hfresh Hpool Hok Hne Hsize Hops)
    as (l & ps & st & pool' & s & gi & go & l' & Hshown & Hdo & Hr).
  exists l, ps, st, pool'. split; [done|]. split; [done|].
  destruct (refines_loops d rs Hne Hsize _ _ _ _ st _ Hr) as [Hcomplete Hincomplete].
  cbv zeta. split_and!; [by eapply refines_ok|done|done|]. apply error_kept_seen, Hr.
Qed.

(** ** An example *)

#[local] Existing Instance ub_ones.
#[local] Existing Instance zero_bytes.

(** Two accesses, on a driver with one used buffer; the result of the first one is
    written and it is done, then the transaction fails. *)
Definition demo_pool : Pool :=
  mkFreeList [Clear (mkBuffer [mkChunk 44 40 [1; 2; 3; 4; 5; 6; 7; 8; 9; 10; 11; 12]%Z] (Some 0) 40 false)] 0.

Definition demo_ops : list tx_op := [OWrite 0 (word 7); ODone 0; OFail [] CauseTargetError].

Lemma demo_ops_legal : Forall (legal [read_dmi; read_dmi]) demo_ops.
Proof.
  apply Forall_cons; split; [by exists read_dmi|].
  apply Forall_cons; split; [cbn; lia|]. apply Forall_singleton. split.
  - split_and!; [done|done|vm_compute; reflexivity].
  - by repeat constructor.
Qed.

Lemma driver_refines_tx_witness :
  let rs := [read_dmi; read_dmi] in
  Forall reusable (full demo_pool) ∧ Forall (legal rs) demo_ops
  ∧ ∃ l ps st pool', Forall2 shown rs l
    ∧ Do 40 (λ _, true) IDRVDTM 3 true
        (λ st pool w, '(st, pool) ← run_ops 40 (λ _, true) IDRVDTM st pool demo_ops; Some (st, pool, w))
        demo_pool None (add_args <$> rs) tt = Some (ps, None, (st, pool', tt))
    ∧ let tx := foldl tx_step (begin_tx (l.*1, l.*2) false) demo_ops in
      status_ok st = Transaction.status_ok tx
      ∧ (∃ acts, Complete IDRVDTM 3 st = Some acts
           ∧ mapM (visit IDRVDTM) acts = mapM (seen tx) (Transaction.Complete tx))
      ∧ (∃ acts, Incomplete IDRVDTM 3 st = Some acts
           ∧ mapM (visit IDRVDTM) acts = mapM (seen tx) (Transaction.Incomplete tx))
      ∧ error_seen (m_error_buffer st) (Transaction.m_error_buffer tx).
Proof.
  intros rs. assert (Hpool : Forall reusable (full demo_pool)) by (repeat (constructor || done)).
  split; [done|]. split; [apply demo_ops_legal|].
  apply (driver_refines_tx 40 IDRVDTM demo_pool rs demo_ops);
    [apply zero_bytes_length|done| |done|vm_compute; reflexivity|apply demo_ops_legal].
  repeat constructor; vm_compute; congruence.
Defined.
