(* ===== verification/DriverPool.v ===== *)
(** * DriverPool: the buffers of a driver over its life
    ([src/src/libedr/driver/Driver.hpp], [DriverImpl.hpp]).

    The clients of a driver start, fill, run, reuse, assign and drop transactions
    in any order, and memory may run out at any time.  Whatever they do, the pool
    holds only buffers that are ready for the next transaction. *)
From S2P Require Import Prelude BitStream Actions FreeList TransactionBuffer VSS ActionLayout Storage Errors Driver.
Local Open Scope nat_scope.

(** ** Operations keep the chunks of a buffer whole *)

Definition chunk_whole (c : Chunk) : Prop := length (data c) = total_size c - g_initial_offset.
Definition whole (b : Buffer) : Prop := Forall chunk_whole (chunks b).

Lemma Clear_whole b : whole b → m_had_allocation_failure b = false → cleared (Clear b).
Proof. intros Hb Hf. by split. Qed.

Lemma cleared_whole b : cleared b → whole b.
Proof. by intros []. Qed.

Section whole.
Context `{ShiftUB} `{FreshBytes} (fresh_length : ∀ n, length (fresh_bytes n) = n).
Context (min_size : nat) (alloc : nat → bool).

Lemma insert_whole i c (cs : list Chunk) :
  Forall chunk_whole cs → chunk_whole c → Forall chunk_whole (<[i := c]> cs).
Proof. intros. by apply Forall_insert. Qed.

Lemma lookup_whole b i c : whole b → chunks b !! i = Some c → chunk_whole c.
Proof. intros Hb Hc. unfold whole in Hb. rewrite Forall_lookup in Hb. by eapply Hb. Qed.

Lemma Align_whole b n b' : whole b → Align b n = Some b' → whole b'.
Proof.
  intros Hb. unfold Align. destruct (m_tail b) as [t|]; [|by intros [= <-]].
  destruct (chunks b !! t) as [c|] eqn:Hc; [|done]. cbn [mbind option_bind].
  destruct (_ <=? _); [|done]. intros [= <-]. apply insert_whole; [done|].
  exact (lookup_whole b t c Hb Hc).
Qed.

Lemma next_chunk_whole b i total ok b' :
  whole b → next_chunk alloc b i total = (ok, b') → whole b'.
Proof.
  intros Hb. assert (Hfresh : ∀ b ok b', whole b →
    match make_chunk alloc total with
    | Some c => (true, mkBuffer (chunks b ++ [c]) (Some i) g_initial_offset (m_had_allocation_failure b))
    | None => (false, mkBuffer (chunks b) (m_tail b) (TransactionBuffer.m_offset b) true)
    end = (ok, b') → whole b').
  { clear b Hb ok b'. intros b ok b' Hb. unfold make_chunk. destruct (alloc total); intros [= <- <-]; [|done].
    apply Forall_app. split; [done|]. apply Forall_singleton. apply fresh_length. }
  unfold next_chunk. destruct (chunks b !! i) as [c|] eqn:Hc; [|by apply Hfresh].
  destruct (total <=? total_size c).
  - intros [= <- <-]. apply insert_whole; [done|]. exact (lookup_whole b i c Hb Hc).
  - apply Hfresh. by apply Forall_take.
Qed.

Lemma place_whole b n pos ok b' : whole b → place b n = Some (pos, ok, b') → whole b'.
Proof.
  intros Hb. unfold place. destruct (m_tail b) as [t|]; [|done]. cbn [mbind option_bind].
  destruct (chunks b !! t) as [c|] eqn:Hc; [|done]. intros [= <- <- <-].
  apply insert_whole; [done|]. exact (lookup_whole b t c Hb Hc).
Qed.

Lemma Allocate_whole b n pos ok b' :
  whole b → Allocate min_size alloc b n = Some (pos, ok, b') → whole b'.
Proof.
  intros Hb. unfold Allocate, GoToNextChunk.
  match goal with |- (m ← ?e; _) = _ → _ => destruct e as [full|] end; [|done].
  cbn [mbind option_bind]. destruct full; [|by apply place_whole].
  destruct (next_chunk _ _ _ _) as [[] b1] eqn:Hn; apply next_chunk_whole in Hn; try done.
  - by apply place_whole.
  - by intros [= _ _ <-].
Qed.

Lemma store_whole b pos n bytes mem :
  whole b → Get_at b pos = Some mem → length bytes = length (take n mem) → whole (store b pos bytes).
Proof.
  intros Hb. unfold Get_at, store. destruct pos as [[i|] o]; [|done]. cbn [fst snd mbind option_bind].
  destruct (chunks b !! i) as [c|] eqn:Hc; [|done]. intros [= <-] Hl.
  apply Forall_alter; [done|]. intros c' Hc'. simplify_eq. intros Hw.
  unfold chunk_whole. cbn [data total_size]. rewrite (length_splice_within n) by done. exact Hw.
Qed.

Lemma Emplace_whole `{Universe} b w v pos b' :
  whole b → Emplace min_size alloc b w v = Some (pos, b') → whole b'.
Proof.
  intros Hb. unfold Emplace.
  assert (Ha : ∀ b1, (if (g_alignment <? ComputeMaxAlignment w)%Z
    then Align b (Z.to_nat (ComputeMaxAlignment w)) else Some b) = Some b1 → whole b1).
  { intros b1. destruct (_ <? _)%Z; [by apply Align_whole|by intros [= <-]]. }
  destruct (if (_ <? _)%Z then _ else _) as [b1|]; [|done]. specialize (Ha b1 eq_refl).
  cbn [mbind option_bind]. destruct (EmplaceImpl w g_alignment v 0%Z) as [total|]; [|done].
  cbn [mbind option_bind].
  destruct (Allocate min_size alloc b1 (Z.to_nat total)) as [[[p ok] b2]|] eqn:Hal; [|done].
  cbn [mbind option_bind]. apply Allocate_whole in Hal; [|done].
  destruct ok; [|by intros [= _ <-]]. destruct (Get_at b2 p) as [mem|] eqn:Hm; [|done].
  cbn [mbind option_bind].
  destruct (EmplaceImpl w g_alignment v _) as [c|] eqn:Hc; [|done]. intros [= _ <-].
  apply EmplaceImpl_length in Hc. by eapply store_whole.
Qed.

Lemma Add_whole s id args out_args pos s' :
  whole (ins s) → whole (outs s) → Add min_size alloc s id args out_args = Some (pos, s') →
  whole (ins s') ∧ whole (outs s').
Proof.
  intros Hi Ho. unfold Add.
  destruct (Emplace _ _ (ins s) _ _) as [[p i]|] eqn:Ei; [|done]. cbn [mbind option_bind].
  destruct (Emplace _ _ (outs s) _ _) as [[q o]|] eqn:Eo; [|done]. intros [= <- <-].
  split; [exact (Emplace_whole _ _ _ _ _ Hi Ei)|exact (Emplace_whole _ _ _ _ _ Ho Eo)].
Qed.

(** An error that is kept is in a buffer without a failure. *)
Lemma FailImpl_whole d b s pos cause eb :
  whole b → FailImpl min_size alloc d b s pos cause = Some (Some eb) →
  whole eb ∧ m_had_allocation_failure eb = false.
Proof.
  intros Hb. unfold FailImpl. destruct (Extract _ _ _ _) as [mb|]; [|done]. cbn [mbind option_bind].
  assert (Hemp : ∀ t v b',
    ('(w, v) ← error_args d (option_map fst mb) t v;
     '(_, b) ← Emplace min_size alloc b w v; Some b) = Some b' → whole b').
  { intros t v b'. destruct (error_args _ _ _ _) as [[w v']|]; [|done].
    cbn [mbind option_bind]. destruct (Emplace _ _ _ _ _) as [[p b1]|] eqn:E; [|done].
    intros [= <-]. exact (Emplace_whole _ _ _ _ _ Hb E). }
  intros Hf. assert (∃ b', whole b' ∧ (if m_had_allocation_failure b' then None else Some b') = Some eb)
    as (b' & Hw & Hb').
  { destruct cause as [nested c|mem|].
    - destruct (cause_args nested c) as [v|]; [|done]. cbn [mbind option_bind] in Hf.
      apply bind_Some in Hf as (b' & ?%Hemp & [= Hf]). eauto.
    - apply bind_Some in Hf as (b' & ?%Hemp & [= Hf]). eauto.
    - injection Hf as Hf. eauto. }
  destruct (m_had_allocation_failure b') eqn:E; [done|]. by injection Hb' as <-.
Qed.
End whole.

(** ** Clients *)

(** The transactions that the clients hold: some still being built, some
    scheduled, finished or moved from. *)
Record World := mkWorld {
  w_pool : Pool;
  w_builders : gmap nat OwnedStorage;
  w_statuses : gmap nat Status;
}.

Definition start : World := mkWorld (mkFreeList [] 0) ∅ ∅.

(** [Done] and [Undo] move the boundary, a driver writes its results in place. *)
Inductive world_step `{ShiftUB} `{FreshBytes} (min_size : nat) (d : DriverID) : World → World → Prop :=
| StepInitiate pool bs sts k b pool' :
    bs !! k = None → Initiate pool None = (b, pool', None) →
    world_step min_size d (mkWorld pool bs sts) (mkWorld pool' (<[k := b]> bs) sts)
| StepReuse pool bs sts j k st b pool' remains :
    sts !! j = Some st → bs !! k = None → Initiate pool (Some st) = (b, pool', Some remains) →
    world_step min_size d (mkWorld pool bs sts) (mkWorld pool' (<[k := b]> bs) (<[j := remains]> sts))
| StepEmptyStatus pool bs sts j st pool' :
    sts !! j = None → MakeEmptyStatus pool = (st, pool') →
    world_step min_size d (mkWorld pool bs sts) (mkWorld pool' bs (<[j := st]> sts))
| StepAdd alloc pool bs sts k b id args out_args pos s :
    bs !! k = Some b → Add min_size alloc (buffers b) id args out_args = Some (pos, s) →
    world_step min_size d (mkWorld pool bs sts) (mkWorld pool (<[k := mkOwned (owner b) s]> bs) sts)
| StepSchedule pool bs sts k j b :
    bs !! k = Some b → sts !! j = None →
    world_step min_size d (mkWorld pool bs sts) (mkWorld pool (delete k bs) (<[j := status_of b]> sts))
| StepBoundary pool bs sts j st pos :
    sts !! j = Some st →
    world_step min_size d (mkWorld pool bs sts)
      (mkWorld pool bs (<[j := Driver.with_first_incomplete st pos]> sts))
| StepResult pool bs sts j st pos bytes s :
    sts !! j = Some st → s = buffers (m_storage st) → room (outs s) pos (length bytes) →
    world_step min_size d (mkWorld pool bs sts)
      (mkWorld pool bs
         (<[j := mkStatus (mkOwned (owner (m_storage st)) (mkStorage (ins s) (store (outs s) pos bytes)))
                   (m_first_incomplete st) (m_error_buffer st)]> sts))
| StepFail alloc pool bs sts j st pos cause st' pool' :
    sts !! j = Some st → FailAt min_size alloc d pool st pos cause = Some (st', pool') →
    world_step min_size d (mkWorld pool bs sts) (mkWorld pool' bs (<[j := st']> sts))
| StepAssign pool bs sts j k item items to from pool' to' from' :
    sts !! j = Some to → sts !! k = Some from → j ≠ k →
    assign_status pool item items to from = (pool', to', from') →
    world_step min_size d (mkWorld pool bs sts) (mkWorld pool' bs (<[k := from']> (<[j := to']> sts)))
| StepDropBuilder pool bs sts k b items :
    bs !! k = Some b →
    world_step min_size d (mkWorld pool bs sts) (mkWorld (destroy_builder pool items b) (delete k bs) sts)
| StepDropStatus pool bs sts j st item items :
    sts !! j = Some st →
    world_step min_size d (mkWorld pool bs sts) (mkWorld (destroy_status pool item items st) bs (delete j sts)).

(** ** What the pool holds *)

Definition at_most (limit : nat) (b : Buffer) : Prop := length (chunks b) ≤ limit.

Definition storage_bounded (limit : nat) (s : OwnedStorage) : Prop :=
  at_most limit (ins (buffers s)) ∧ at_most limit (outs (buffers s)).

(** No transaction needs more than [limit] chunks. *)
Definition bounded (limit : nat) (w : World) : Prop :=
  map_Forall (λ _, storage_bounded limit) (w_builders w)
  ∧ map_Forall (λ _ st, storage_bounded limit (m_storage st)
                  ∧ ∀ eb, m_error_buffer st = Some eb → at_most limit eb) (w_statuses w).

Inductive reachable `{ShiftUB} `{FreshBytes} (min_size : nat) (d : DriverID) (limit : nat) : World → Prop :=
| reachable_start : reachable min_size d limit start
| reachable_step w w' :
    reachable min_size d limit w → world_step min_size d w w' → bounded limit w' →
    reachable min_size d limit w'.

Definition storage_whole (s : OwnedStorage) : Prop :=
  owner s = true → whole (ins (buffers s)) ∧ whole (outs (buffers s)).

Definition status_whole (st : Status) : Prop :=
  storage_whole (m_storage st)
  ∧ ∀ eb, m_error_buffer st = Some eb → whole eb ∧ m_had_allocation_failure eb = false.

Definition clean (limit : nat) (b : Buffer) : Prop := cleared b ∧ at_most limit b.

Record world_inv (limit : nat) (w : World) : Prop := {
  inv_pool : Forall (clean limit) (full (w_pool w));
  inv_builders : map_Forall (λ _, storage_whole) (w_builders w);
  inv_statuses : map_Forall (λ _, status_whole) (w_statuses w);
}.

Section pool_lemmas.
Context (limit : nat).
Implicit Types pool : Pool.
Local Abbreviation all_clean pool := (Forall (clean limit) (full pool)).

Lemma Free_clean pool item b : all_clean pool → clean limit b → all_clean (Free pool item b).
Proof. intros Hp Hb. unfold Free. destruct (empty pool), item; cbn; try done; by constructor. Qed.

Lemma take_clean pool :
  all_clean pool →
  clean limit (TakeOrMake pool empty_buffer).1 ∧ all_clean (TakeOrMake pool empty_buffer).2.
Proof.
  intros Hp. unfold TakeOrMake. destruct (full pool) as [|b bs] eqn:E; cbn.
  - rewrite E. split; [|done]. split; [apply empty_cleared|]. unfold at_most. cbn. lia.
  - by apply Forall_cons in Hp.
Qed.

Lemma free_buffer_clean pool item b :
  all_clean pool → whole b → at_most limit b → all_clean (free_buffer pool item b).
Proof.
  intros Hp Hw Hl. unfold free_buffer. destruct (m_had_allocation_failure b) eqn:E; [done|].
  apply Free_clean; [done|]. split; [by apply Clear_whole|done].
Qed.

Lemma FreeResources_clean pool items s :
  all_clean pool → storage_whole s → storage_bounded limit s → all_clean (FreeResources pool items s).
Proof.
  intros Hp Hw [Hi Ho]. unfold FreeResources. destruct (owner s) eqn:E; [|done].
  destruct (Hw E). by repeat apply free_buffer_clean.
Qed.

Lemma free_error_clean pool item st :
  all_clean pool → status_whole st → (∀ eb, m_error_buffer st = Some eb → at_most limit eb) →
  all_clean (free_error pool item st).
Proof.
  intros Hp [_ Hw] Hl. unfold free_error. destruct (m_error_buffer st) as [eb|]; [|done].
  destruct (Hw eb eq_refl). destruct (owner (m_storage st)); [|done].
  apply Free_clean; [done|]. split; [by apply Clear_whole|exact (Hl eb eq_refl)].
Qed.

Lemma moved_storage_whole s : storage_whole (moved_storage s).
Proof. by intros [=]. Qed.

Lemma take_storage_clean pool :
  all_clean pool → storage_whole (take_storage pool).1 ∧ all_clean (take_storage pool).2.
Proof.
  intros Hp. unfold take_storage. destruct (take_clean pool Hp) as [Hi Hp1].
  destruct (TakeOrMake pool empty_buffer) as [i pool1]. cbn [fst snd] in *.
  destruct (take_clean pool1 Hp1) as [Ho Hp2].
  destruct (TakeOrMake pool1 empty_buffer) as [o pool2]. cbn [fst snd] in *.
  split; [|done]. intros _. split; apply cleared_whole; [apply Hi|apply Ho].
Qed.
End pool_lemmas.

Section steps.
Context `{ShiftUB} `{FreshBytes} (fresh_length : ∀ n, length (fresh_bytes n) = n).
Context (min_size : nat) (d : DriverID) (limit : nat).

Lemma FailAt_clean alloc pool st pos cause st' pool' :
  Forall (clean limit) (full pool) → status_whole st →
  FailAt min_size alloc d pool st pos cause = Some (st', pool') →
  Forall (clean limit) (full pool') ∧ status_whole st'.
Proof.
  intros Hp Hst. unfold FailAt. destruct (owner (m_storage st)); [|done]. cbn [check mbind option_bind].
  destruct (take_clean limit pool Hp) as [[Hcl _] Hp'].
  destruct (TakeOrMake pool empty_buffer) as [b pool1]. cbn [fst snd] in *.
  destruct (FailImpl _ _ _ _ _ _ _) as [eb|] eqn:E; [|done]. intros [= <- <-]. split; [done|].
  split; [apply Hst|]. cbn. intros eb' ->.
  eapply FailImpl_whole; [exact fresh_length|by apply cleared_whole|exact E].
Qed.

Lemma Initiate_clean pool reuse b pool' remains :
  Forall (clean limit) (full pool) → (∀ st, reuse = Some st → status_whole st) →
  Initiate pool reuse = (b, pool', remains) →
  Forall (clean limit) (full pool') ∧ storage_whole b ∧ ∀ st, remains = Some st → status_whole st.
Proof.
  intros Hp Hst. destruct reuse as [st|]; cbn [Initiate].
  - destruct (Hst st eq_refl) as [Hs He]. intros [= <- <- <-]. split_and!; [done|exact Hs|].
    intros st' [= <-]. split; [apply moved_storage_whole|exact He].
  - destruct (take_storage_clean limit pool Hp) as [Hb Hp'].
    destruct (take_storage pool) as [b1 pool1]. cbn [fst snd] in *. by intros [= <- <- <-].
Qed.

Lemma world_step_inv w w' :
  world_inv limit w → bounded limit w → world_step min_size d w w' → world_inv limit w'.
Proof.
  intros [Hp Hb Hs] [Hbb Hbs] Hstep.
  destruct Hstep as [pool bs sts k b pool' Hk Hi|pool bs sts j k st b pool' rm Hj Hk Hi
    |pool bs sts j st pool' Hj Hm|alloc pool bs sts k b id args out_args pos s Hk Ha
    |pool bs sts k j b Hk Hj|pool bs sts j st pos Hj|pool bs sts j st pos bytes s Hj -> Hr
    |alloc pool bs sts j st pos cause st' pool' Hj Hf
    |pool bs sts j k item items to from pool' to' from' Hj Hk Hjk Ha|pool bs sts k b items Hk
    |pool bs sts j st item items Hj];
    cbn [w_pool w_builders w_statuses] in *.
  - destruct (Initiate_clean pool None b pool' None) as (? & ? & _); [done|done|done|].
    split; [done|by apply map_Forall_insert_2|done].
  - destruct (Initiate_clean pool (Some st) b pool' (Some rm)) as (? & ? & Hrm); [done| |done|].
    { intros st' [= <-]. exact (Hs _ _ Hj). }
    split; [done|by apply map_Forall_insert_2|apply map_Forall_insert_2; [by apply Hrm|done]].
  - destruct (take_storage_clean limit pool Hp) as [Hw Hp']. unfold MakeEmptyStatus in Hm.
    destruct (take_storage pool) as [b1 pool1]. injection Hm as <- <-.
    split; [done|done|]. apply map_Forall_insert_2; [|done]. by split.
  - split; [done| |done]. apply map_Forall_insert_2; [|done]. intros Ho.
    destruct (Hb _ _ Hk Ho) as [Hi Hou].
    exact (Add_whole fresh_length min_size alloc _ _ _ _ _ _ Hi Hou Ha).
  - split; [done|by apply map_Forall_delete|]. apply map_Forall_insert_2; [|done].
    split; [exact (Hb _ _ Hk)|done].
  - split; [done|done|]. apply map_Forall_insert_2; [|done]. exact (Hs _ _ Hj).
  - split; [done|done|]. apply map_Forall_insert_2; [|done]. destruct (Hs _ _ Hj) as [Hw He].
    split; [|exact He]. intros Ho. destruct (Hw Ho) as [Hi Hou]. split; [done|].
    destruct Hr as (i & c & Hpi & Hci & Hroom). cbn [buffers outs m_storage].
    eapply (store_whole _ _ (length bytes)); [done|unfold Get_at; rewrite Hpi; cbn; rewrite Hci; done|].
    rewrite length_take, length_drop. lia.
  - destruct (FailAt_clean _ _ _ _ _ _ _ Hp (Hs _ _ Hj) Hf) as [? ?].
    split; [done|done|by apply map_Forall_insert_2].
  - injection Ha as <- <- <-. destruct (Hbs _ _ Hj) as [Hbj Hej]. destruct (Hs _ _ Hj) as [Hwj Hwe].
    split; [|done|].
    + apply FreeResources_clean; [|done|done]. by apply free_error_clean.
    + apply map_Forall_insert_2; [split; [apply moved_storage_whole|done]|].
      apply map_Forall_insert_2; [exact (Hs _ _ Hk)|done].
  - split; [|by apply map_Forall_delete|done].
    apply FreeResources_clean; [done|exact (Hb _ _ Hk)|exact (Hbb _ _ Hk)].
  - destruct (Hbs _ _ Hj) as [Hbj Hej]. destruct (Hs _ _ Hj) as [Hwj Hwe].
    split; [|done|by apply map_Forall_delete].
    apply FreeResources_clean; [|done|done]. by apply free_error_clean.
Qed.

Lemma pool_inv w : reachable min_size d limit w → world_inv limit w ∧ bounded limit w.
Proof.
  induction 1 as [|w w' _ [Hinv Hbd] Hstep Hbd'].
  - split; [split|split]; try apply map_Forall_empty. constructor.
  - split; [by eapply world_step_inv|done].
Qed.
End steps.

(** C29: the pool of a driver is always fit for the next transaction.  Whatever
    clients do with their transactions, in any order and with memory running out
    at any point, every buffer in the pool is cleared and without a failure, and
    has no more chunks than the largest transaction needed; as long as that is
    one chunk, the next transaction gets buffers that read back what is put in
    them ([transaction_roundtrip], [driver_refines_tx]). *)
Theorem pool_stays_clean `{ShiftUB} `{FreshBytes} (min_size : nat) (d : DriverID) (limit : nat)
    (w : World) (Hfresh : ∀ n, length (fresh_bytes n) = n)
    (Hreach : reachable min_size d limit w) :
  Forall (clean limit) (full (w_pool w))
  ∧ (limit ≤ 1 → Forall reusable (full (w_pool w))
       ∧ let '(b, _, _) := Initiate (w_pool w) None in owner b = true ∧ ready (buffers b)).
Proof.
  destruct (pool_inv Hfresh min_size d limit w Hreach) as [[Hp _ _] _]. split; [done|].
  intros Hl. assert (Hr : Forall reusable (full (w_pool w))).
  { eapply Forall_impl; [exact Hp|]. intros b [Hc Hb]. split; [done|]. unfold at_most in Hb. lia. }
  split; [done|]. pose proof (take_storage_ready (w_pool w) Hr) as Ht. unfold Initiate.
  destruct (take_storage (w_pool w)) as [b pool']. naive_solver.
Qed.

(** ** An example *)

#[local] Existing Instance ub_ones.
#[local] Existing Instance zero_bytes.

(** A transaction of one action that fails and is dropped, with its error. *)
Definition demo_added : TransactionStorage :=
  match Add 1024 (λ _, true) empty_storage RVReadDMIID (VPlain (word 5)) (VPlain (word 0)) with
  | Some (_, s) => s
  | None => empty_storage
  end.

Definition demo_failed : Status :=
  match FailAt 1024 (λ _, true) IDRVDTM (mkFreeList [] 0) (status_of (mkOwned true demo_added))
          (Begin (ins demo_added)) (CauseMade [] CauseTargetError) with
  | Some (st, _) => st
  | None => status_of (mkOwned true demo_added)
  end.

Definition demo_world : World :=
  mkWorld (destroy_status (mkFreeList [] 0) true (true, true) demo_failed) ∅ ∅.

Lemma demo_world_reachable : reachable 1024 IDRVDTM 1 demo_world.
Proof.
  pose (pool := mkFreeList [] 0 : Pool). pose (b := mkOwned true empty_storage).
  assert (H0 : reachable 1024 IDRVDTM 1 (mkWorld pool {[0 := b]} ∅)).
  { eapply reachable_step; [apply reachable_start|by apply (StepInitiate 1024 IDRVDTM pool ∅ ∅ 0 b pool)|].
    split; [|apply map_Forall_empty]. apply map_Forall_singleton. split; vm_compute; lia. }
  assert (H1 : reachable 1024 IDRVDTM 1 (mkWorld pool {[0 := mkOwned true demo_added]} ∅)).
  { eapply reachable_step; [exact H0| |].
    - rewrite <-(insert_singleton_eq 0 (mkOwned true demo_added) b).
      by eapply (StepAdd 1024 IDRVDTM (λ _, true) pool _ ∅ 0 b RVReadDMIID (VPlain (word 5)) (VPlain (word 0))).
    - split; [|apply map_Forall_empty]. apply map_Forall_singleton. split; vm_compute; lia. }
  assert (H2 : reachable 1024 IDRVDTM 1 (mkWorld pool ∅ {[0 := status_of (mkOwned true demo_added)]})).
  { eapply reachable_step; [exact H1| |].
    - rewrite <-(delete_singleton_eq 0 (mkOwned true demo_added)). by apply StepSchedule.
    - split; [apply map_Forall_empty|]. apply map_Forall_singleton. split; [|done]. split; vm_compute; lia. }
  assert (H3 : reachable 1024 IDRVDTM 1 (mkWorld pool ∅ {[0 := demo_failed]})).
  { eapply reachable_step; [exact H2| |].
    - rewrite <-(insert_singleton_eq 0 demo_failed (status_of (mkOwned true demo_added))).
      by eapply (StepFail 1024 IDRVDTM (λ _, true) pool ∅ _ 0 _ (Begin (ins demo_added))
                (CauseMade [] CauseTargetError)).
    - split; [apply map_Forall_empty|]. apply map_Forall_singleton.
      split; [split; vm_compute; lia|]. vm_compute. intros eb [= <-]. simpl. lia. }
  eapply reachable_step; [exact H3| |].
  - unfold demo_world. rewrite <-(delete_singleton_eq 0 demo_failed).
    by apply (StepDropStatus 1024 IDRVDTM pool).
  - split; apply map_Forall_empty.
Qed.

Lemma pool_stays_clean_witness :
  length (full (w_pool demo_world)) = 3
  ∧ Forall (clean 1) (full (w_pool demo_world))
  ∧ (1 ≤ 1 → Forall reusable (full (w_pool demo_world))
       ∧ let '(b, _, _) := Initiate (w_pool demo_world) None in owner b = true ∧ ready (buffers b)).
Proof.
  split; [vm_compute; reflexivity|].
  apply (pool_stays_clean 1024 IDRVDTM 1 demo_world); [apply zero_bytes_length|apply demo_world_reachable].
Defined.
