(* ===== verification/Asynchronicity.v ===== *)
(** * Asynchronicity: tasks, their awaiters and resolvers
    ([src/src/libedr/util/asynchronicity/Asynchronicity.hpp]).

    A task and the coroutine that awaits it meet at one atomic variable,
    [m_continuation].  The model is a step relation: a step of one side is one
    atomic operation, and the sides interleave freely.  Two protocols share the
    awaiting side, [AwaitableBase]: a coroutine that is the task itself
    ([OwnedTask] and the final suspension of its [Promise]), and an item that
    somebody resolves ([EagerResolver], [ContinuationStorage]). *)
From S2P Require Import Prelude.
From stdpp Require Import relations.

(** The values of [m_continuation]: the three marks, the awaiting coroutine, and
    the task's own handle, which it leaves when it waits to be destroyed. *)
Inductive continuation := CInitial | CResultReady | CAwaitableDestroyed | CAwaiter | CSelf.

#[export] Instance continuation_eq_dec : EqDecision continuation.
Proof. solve_decision. Defined.

(** The task: running its body, between the two steps of its final suspension,
    inside of the [resume] of its awaiter, suspended for good, or freed. *)
Inductive task_pc := TRunning | TDeciding | TResuming | TSuspended | TFreed.

#[export] Instance task_pc_eq_dec : EqDecision task_pc.
Proof. solve_decision. Defined.

(** The owner of the task: before [co_await], between [await_ready] and
    [await_suspend], suspended, past [co_await], with the result taken, and
    after the destructor of the task. *)
Inductive owner_pc := OHolding | OChecked | OSuspended | OResumed | OTaken | OGone.

#[export] Instance owner_pc_eq_dec : EqDecision owner_pc.
Proof. solve_decision. Defined.

(** [bad] is a use of the freed frame, a second destruction, a result that is
    not there, or a failed [assert]. *)
Record sys := mkSys {
  cont : continuation;
  task : task_pc;
  owner : owner_pc;
  has_result : bool;
  resumes : nat;
  bad : bool;
}.

#[export] Instance sys_eq_dec : EqDecision sys.
Proof. solve_decision. Defined.

(** ** The awaiting side, [AwaitableBase] and [~OwnedTask] *)

Definition freed (s : sys) : bool := bool_decide (task s = TFreed).

Definition with_owner (s : sys) (c : continuation) (o : owner_pc) (b : bool) : sys :=
  mkSys c (task s) o (has_result s) (resumes s) (bad s || b).

(** [await_ready]: a load. *)
Definition await_ready (s : sys) : sys :=
  with_owner s (cont s) (if decide (cont s = CInitial) then OChecked else OResumed) (freed s).

(** [await_suspend]: a compare-and-exchange; the coroutine goes on if it fails. *)
Definition await_suspend (s : sys) : sys :=
  if decide (cont s = CInitial)
  then with_owner s CAwaiter OSuspended (freed s)
  else with_owner s (cont s) OResumed (freed s).

Definition TakeResult (s : sys) : sys :=
  with_owner s (cont s) OTaken (freed s || negb (has_result s)).

(** [~OwnedTask]: an exchange, and the destruction of what was there if it was a
    coroutine. *)
Definition destroy_task (s : sys) : sys :=
  let s' := with_owner s CAwaitableDestroyed OGone (freed s) in
  match cont s with
  | CInitial | CResultReady => s'
  | CSelf => mkSys (cont s') TFreed (owner s') (has_result s') (resumes s') (bad s')
  | CAwaitableDestroyed | CAwaiter => with_owner s' (cont s') OGone true
  end.

(** The steps of the owner. It may drop the task at any time that it runs. *)
Definition owner_next (s : sys) : list sys :=
  match owner s with
  | OHolding => [await_ready s; destroy_task s]
  | OChecked => [await_suspend s]
  | OSuspended => []
  | OResumed => [TakeResult s; destroy_task s]
  | OTaken => [destroy_task s]
  | OGone => []
  end.

(** ** The task, [Promise::final_suspend] *)

Definition with_task (s : sys) (c : continuation) (t : task_pc) : sys :=
  mkSys c t (owner s) (has_result s) (resumes s) (bad s).

(** [return_value] and [FinalDecider::await_ready]: the exchange. *)
Definition final_await_ready (s : sys) : sys :=
  let s := mkSys (cont s) (task s) (owner s) true (resumes s) (bad s) in
  match cont s with
  | CInitial => with_task s CResultReady TDeciding
  | CAwaitableDestroyed => with_task s CResultReady TFreed
  | CAwaiter => mkSys CResultReady TResuming OResumed true (S (resumes s)) (bad s)
  | CResultReady | CSelf => mkSys CResultReady TResuming (owner s) true (resumes s) true
  end.

(** [FinalDecider::await_suspend]: the frame stays if the mark is still there,
    and is destroyed otherwise. *)
Definition final_await_suspend (s : sys) : sys :=
  if decide (cont s = CResultReady) then with_task s CSelf TSuspended
  else with_task s (cont s) TFreed.

(** [resume] returns when the owner suspends again or ends, after it took the
    result; with [must_drop] it has then destroyed the task. *)
Definition task_next (must_drop : bool) (s : sys) : list sys :=
  match task s with
  | TRunning => [final_await_ready s]
  | TDeciding => [final_await_suspend s]
  | TResuming =>
      match owner s with
      | OTaken => if must_drop then [] else [with_task s (cont s) TFreed]
      | OGone => [with_task s (cont s) TFreed]
      | _ => []
      end
  | TSuspended | TFreed => []
  end.

Definition next (must_drop : bool) (s : sys) : list sys := owner_next s ++ task_next must_drop s.

Definition start : sys := mkSys CInitial TRunning OHolding false 0 false.

Definition step (must_drop : bool) (s s' : sys) : Prop := s' ∈ next must_drop s.

(** ** Finite exploration *)

Section explore.
Context {A : Type} `{EqDecision A} (succs : A → list A).

Fixpoint explore (fuel : nat) (todo seen : list A) : list A :=
  match fuel with
  | O => seen
  | S fuel =>
      match todo with
      | [] => seen
      | s :: todo =>
          if decide (s ∈ seen) then explore fuel todo seen
          else explore fuel (succs s ++ todo) (s :: seen)
      end
  end.

Definition closed (l : list A) : bool :=
  forallb (λ s, forallb (λ s', bool_decide (s' ∈ l)) (succs s)) l.

Lemma closed_reach l s s' :
  closed l = true → s ∈ l → rtc (λ a b, b ∈ succs a) s s' → s' ∈ l.
Proof.
  intros Hc Hs Hr. revert Hs. induction Hr as [|s s1 s2 Hstep _ IH]; intros Hs; [done|]. apply IH.
  unfold closed in Hc. rewrite forallb_forall in Hc.
  specialize (Hc s). rewrite forallb_forall in Hc.
  assert (Hb : bool_decide (s1 ∈ l) = true) by (apply Hc; by apply list_elem_of_In).
  by apply bool_decide_eq_true_1 in Hb.
Qed.

(** An invariant of all the reachable states by exploring them. *)
Lemma explore_invariant (fuel : nat) (s0 : A) (P : A → bool) :
  let l := explore fuel [s0] [] in
  closed l = true → bool_decide (s0 ∈ l) = true → forallb P l = true →
  ∀ s, rtc (λ a b, b ∈ succs a) s0 s → P s = true.
Proof.
  intros l Hc H0 HP s Hr. apply bool_decide_eq_true_1 in H0.
  rewrite forallb_forall in HP. apply HP. apply list_elem_of_In. by eapply closed_reach.
Qed.
End explore.

(** ** Resolved items *)

(** The resolver of an item of a queue or a map: before the resolution, inside
    of the [resume] of the awaiter, and done with the item. *)
Inductive resolver_pc := RPending | RResuming | RDone.

#[export] Instance resolver_pc_eq_dec : EqDecision resolver_pc.
Proof. solve_decision. Defined.

(** The item lives in the frame of its awaiter: it is gone when the awaiter is. *)
Record item_sys := mkItem {
  i_cont : continuation;
  i_resolver : resolver_pc;
  i_owner : owner_pc;
  i_result : bool;
  i_resumes : nat;
  i_bad : bool;
}.

#[export] Instance item_sys_eq_dec : EqDecision item_sys.
Proof. solve_decision. Defined.

(** The destructor of [ResolutionQueue::Awaitable] asserts that the item is
    resolved. *)
Definition item_owner_next (s : item_sys) : list item_sys :=
  let go c o b := mkItem c (i_resolver s) o (i_result s) (i_resumes s) (i_bad s || b) in
  match i_owner s with
  | OHolding => [go (i_cont s) (if decide (i_cont s = CInitial) then OChecked else OResumed) false]
  | OChecked => [if decide (i_cont s = CInitial) then go CAwaiter OSuspended false
                 else go (i_cont s) OResumed false]
  | OSuspended => []
  | OResumed => [go (i_cont s) OTaken (negb (i_result s))]
  | OTaken => [go CAwaitableDestroyed OGone (negb (bool_decide (i_cont s = CResultReady)))]
  | OGone => []
  end.

(** [Resolver::return_value] and [ContinuationStorage::HandleResultReady]. *)
Definition HandleResultReady (s : item_sys) : item_sys :=
  let dead := bool_decide (i_owner s = OGone) in
  match i_cont s with
  | CInitial => mkItem CResultReady RDone (i_owner s) true (i_resumes s) (i_bad s || dead)
  | CAwaitableDestroyed =>
      mkItem CAwaitableDestroyed RDone (i_owner s) true (i_resumes s) (i_bad s || dead)
  | CAwaiter => mkItem CResultReady RResuming OResumed true (S (i_resumes s)) (i_bad s || dead)
  | CResultReady | CSelf => mkItem CResultReady RDone (i_owner s) true (i_resumes s) true
  end.

Definition item_next (s : item_sys) : list item_sys :=
  item_owner_next s ++
  match i_resolver s with
  | RPending => [HandleResultReady s]
  | RResuming => [mkItem (i_cont s) RDone (i_owner s) (i_result s) (i_resumes s) (i_bad s)]
  | RDone => []
  end.

Definition item_start : item_sys := mkItem CInitial RPending OHolding false 0 false.

(** ** Properties *)

Definition final (s : sys) : bool := bool_decide (task s = TFreed) && bool_decide (owner s = OGone).

Definition task_ok (s : sys) : bool :=
  negb (bad s) && (resumes s <=? 1)%nat
  && (negb (bool_decide (next true s = [])) || final s).

(** C16: whatever the interleaving of a task and its owner, if the owner drops
    the task before it suspends again: the frame is freed once and never used
    afterwards, the result is there when it is taken, the owner is resumed at
    most once, and it never waits forever: as long as either is not done one of
    them can go on. *)
Theorem task_protocol_safe (s : sys) (Hreach : rtc (step true) start s) :
  bad s = false ∧ resumes s ≤ 1
  ∧ (next true s = [] → task s = TFreed ∧ owner s = OGone).
Proof.
  assert (Hok : task_ok s = true).
  { revert s Hreach. apply (explore_invariant (next true) 200 start task_ok); vm_compute; reflexivity. }
  unfold task_ok, final in Hok. rewrite !andb_true_iff, orb_true_iff, !negb_true_iff in Hok.
  destruct Hok as [[Hbad Hres] Hend]. apply Nat.leb_le in Hres. split_and!; [done|done|].
  intros Hn. rewrite bool_decide_eq_true_2 in Hend by done. destruct Hend as [?|Hend]; [done|].
  rewrite andb_true_iff, !bool_decide_eq_true in Hend. done.
Qed.

(** Dropping the task before suspending again is needed: an owner that
    keeps the task while it waits for something else uses its freed frame. *)
Theorem kept_task_used_after_free : ∃ s, rtc (step false) start s ∧ bad s = true.
Proof.
  set (s1 := await_ready start). set (s2 := await_suspend s1). set (s3 := final_await_ready s2).
  set (s4 := TakeResult s3). set (s5 := with_task s4 (cont s4) TFreed). set (s6 := destroy_task s5).
  exists s6. split; [|reflexivity].
  assert (Hs : ∀ a b, bool_decide (b ∈ next false a) = true → step false a b)
    by (intros a b Hb; by apply bool_decide_eq_true_1 in Hb).
  apply (rtc_l _ start s1); [by apply Hs|]. apply (rtc_l _ s1 s2); [by apply Hs|].
  apply (rtc_l _ s2 s3); [by apply Hs|]. apply (rtc_l _ s3 s4); [by apply Hs|].
  apply (rtc_l _ s4 s5); [by apply Hs|].
  apply (rtc_l _ s5 s6); [by apply Hs|]. apply rtc_refl.
Qed.

Definition item_ok (s : item_sys) : bool :=
  negb (i_bad s) && (i_resumes s <=? 1)%nat
  && (negb (bool_decide (item_next s = []))
      || bool_decide (i_resolver s = RDone) && bool_decide (i_owner s = OGone)).

(** C17: whatever the interleaving of the awaiter of an item and its resolver:
    the resolver touches the item only while it lives, the result is there when
    the awaiter takes it, the destructor's assertion holds, and both always
    finish. *)
Theorem item_protocol_safe (s : item_sys) (Hreach : rtc (λ a b, b ∈ item_next a) item_start s) :
  i_bad s = false ∧ i_resumes s ≤ 1
  ∧ (item_next s = [] → i_resolver s = RDone ∧ i_owner s = OGone).
Proof.
  assert (Hok : item_ok s = true).
  { revert s Hreach. apply (explore_invariant item_next 200 item_start item_ok); vm_compute; reflexivity. }
  unfold item_ok in Hok. rewrite !andb_true_iff, orb_true_iff, !negb_true_iff in Hok.
  destruct Hok as [[Hbad Hres] Hend]. apply Nat.leb_le in Hres. split_and!; [done|done|].
  intros Hn. rewrite bool_decide_eq_true_2 in Hend by done. destruct Hend as [?|Hend]; [done|].
  rewrite andb_true_iff, !bool_decide_eq_true in Hend. done.
Qed.

(** ** Witnesses *)

(** The owner awaits first, and is resumed by the task. *)
Definition resumed_state : sys := final_await_ready (await_suspend (await_ready start)).

Lemma task_protocol_safe_witness :
  bad resumed_state = false ∧ resumes resumed_state ≤ 1
  ∧ (next true resumed_state = [] → task resumed_state = TFreed ∧ owner resumed_state = OGone).
Proof.
  apply (task_protocol_safe resumed_state).
  apply (rtc_l _ start (await_ready start)); [by apply (bool_decide_eq_true_1 (await_ready start ∈ next true start))|].
  apply (rtc_l _ _ (await_suspend (await_ready start)));
    [by apply (bool_decide_eq_true_1 (await_suspend (await_ready start) ∈ next true (await_ready start)))|].
  apply rtc_once.
  by apply (bool_decide_eq_true_1 (resumed_state ∈ next true (await_suspend (await_ready start)))).
Defined.

Lemma item_protocol_safe_witness :
  i_bad (HandleResultReady item_start) = false ∧ i_resumes (HandleResultReady item_start) ≤ 1
  ∧ (item_next (HandleResultReady item_start) = [] →
     i_resolver (HandleResultReady item_start) = RDone ∧ i_owner (HandleResultReady item_start) = OGone).
Proof.
  apply (item_protocol_safe (HandleResultReady item_start)). apply rtc_once.
  by apply (bool_decide_eq_true_1 (HandleResultReady item_start ∈ item_next item_start)).
Defined.
