(* ===== verification/ExecutionGate.v ===== *)
(** * ExecutionGate: stalls a simulated target while the debugger is idle
    ([src/src/libedr/driver/execution_gate/ExecutionGate.cpp], [ExecutionGate.h]).

    The handlers run under [m_mutex] and are atomic; the notification of
    [m_on_new_request] comes after the mutex is released and is a step of its
    own. *)
From S2P Require Import Prelude Actions Transaction.
From stdpp Require Import relations strings.
Local Open Scope Z_scope.

Inductive ExecutionGateMode :=
| StallIfNoRequestsAndIdle | ForceStallIfNoRequsts | ForceStall | NoStall | Terminated.

#[export] Instance ExecutionGateMode_eq_dec : EqDecision ExecutionGateMode.
Proof. solve_decision. Defined.

(** The numbers of the modes; others may arrive from a client. *)
Definition mode_of_value (v : Z) : option ExecutionGateMode :=
  match v with
  | 0 => Some StallIfNoRequestsAndIdle
  | 1 => Some ForceStallIfNoRequsts
  | 2 => Some ForceStall
  | 3 => Some NoStall
  | 4 => Some Terminated
  | _ => None
  end.

Record Gate := mkGate { m_mode : ExecutionGateMode; m_num_requests : Z }.

Definition initial_gate : Gate := mkGate StallIfNoRequestsAndIdle 0.

Definition Terminate (g : Gate) : Gate := mkGate Terminated (m_num_requests g).

(** Whether a notification follows, and the gate. *)
Definition SetMode (g : Gate) (mode : ExecutionGateMode) : bool * Gate :=
  if decide (m_mode g = Terminated) then (false, g) else (true, mkGate mode (m_num_requests g)).

Definition AddPending (g : Gate) : Gate := mkGate (m_mode g) u64[m_num_requests g + 1].

Definition RemovePending (g : Gate) : Gate := mkGate (m_mode g) u64[m_num_requests g - 1].

(** Several requests served. *)
Fixpoint removed (n : nat) (g : option Gate) : option Gate :=
  match n with O => g | S n => removed n (RemovePending <$> g) end.

(** One pass of the loop of [StallIfNeeded]: whether it waits. *)
Definition stalls (g : Gate) (target_is_idle : bool) : bool :=
  if bool_decide (m_mode g = Terminated) || bool_decide (m_mode g = NoStall) then false else
  bool_decide (m_mode g = ForceStall)
  || (m_num_requests g =? 0)
     && (bool_decide (m_mode g = ForceStallIfNoRequsts)
         || bool_decide (m_mode g = StallIfNoRequestsAndIdle) && target_is_idle).

(** The results of the actions. *)
Abbreviation GateTx := (Tx ExecutionGateAction ExecutionGateMode).

(** [Execute]: the actions from [pos] on. *)
Fixpoint ExecuteFrom (name : string) (g : Gate) (tx : GateTx) (pos : nat)
    (actions : list ExecutionGateAction) : GateTx * Gate :=
  match actions with
  | [] => (tx, g)
  | SetExecutionGateMode value :: actions =>
      let tx := set_out tx pos (m_mode g) in
      if decide (m_mode g = Terminated)
      then (Fail AnyExecutionGate tx (CauseTerminated name), g)
      else if 4 <=? value
      then (Fail AnyExecutionGate tx (CauseInvalidArgument "mode"), g)
      else
        match mode_of_value value with
        | None => (tx, g)
        | Some mode =>
            let g := mkGate mode (m_num_requests g) in
            ExecuteFrom name g (Done (set_out tx pos mode) pos) (S pos) actions
        end
  end.

Definition Execute (name : string) (g : Gate) (tx : GateTx) : GateTx * Gate :=
  ExecuteFrom name g tx (m_first_incomplete tx) (drop (m_first_incomplete tx) (ins tx)).

(** ** The threads *)

(** The target's thread, and the notifications that are due. *)
Inductive target_pc := Running | Checking (idle : bool) | Waiting (idle : bool).

Record threads := mkThreads { gate : Gate; target : target_pc; due : nat }.

Inductive step : threads → threads → Prop :=
| target_stalls g idle due :
    step (mkThreads g Running due) (mkThreads g (Checking idle) due)
| target_checks g idle due :
    step (mkThreads g (Checking idle) due)
         (mkThreads g (if stalls g idle then Waiting idle else Running) due)
(** a condition variable may also wake up on its own *)
| target_wakes g idle due :
    step (mkThreads g (Waiting idle) due) (mkThreads g (Checking idle) due)
| notify g t due :
    step (mkThreads g t (S due))
         (mkThreads g (match t with Waiting idle => Checking idle | _ => t end) due)
| terminate g t due :
    step (mkThreads g t due) (mkThreads (Terminate g) t (S due))
| set_mode g t due mode :
    step (mkThreads g t due)
         (mkThreads (SetMode g mode).2 t (if (SetMode g mode).1 then S due else due))
| execute_action g t due mode :
    m_mode g ≠ Terminated → mode ≠ Terminated →
    step (mkThreads g t due) (mkThreads (mkGate mode (m_num_requests g)) t (S due))
| add_pending g t due :
    m_num_requests g < 2 ^ 64 - 1 →
    step (mkThreads g t due) (mkThreads (AddPending g) t (S due))
| remove_pending g t due :
    0 < m_num_requests g →
    step (mkThreads g t due) (mkThreads (RemovePending g) t due).

Definition start : threads := mkThreads initial_gate Running 0.

Record gate_ok (s : threads) : Prop := {
  ok_count : 0 ≤ m_num_requests (gate s) < 2 ^ 64;
  ok_waiting : ∀ idle, target s = Waiting idle → stalls (gate s) idle = true ∨ (0 < due s)%nat;
}.

(** Losing a request cannot end a stall. *)
Lemma stalls_RemovePending g idle :
  0 < m_num_requests g < 2 ^ 64 → stalls g idle = true → stalls (RemovePending g) idle = true.
Proof.
  intros Hr. unfold stalls. cbn [m_mode RemovePending m_num_requests].
  destruct (_ || _); [done|]. rewrite wrap_small by lia.
  destruct (Z.eqb_spec (m_num_requests g) 0); [lia|]. simpl. rewrite orb_false_r. intros ->. done.
Qed.

Lemma gate_step_ok s s' : step s s' → gate_ok s → gate_ok s'.
Proof.
  intros Hs [Hc Hw]. destruct Hs; cbn in *; split; cbn; try (intros; right; lia); try done.
  - intros i Hi. destruct (stalls g idle) eqn:E; [|done]. simplify_eq. by left.
  - intros i Hi. by destruct t.
  - unfold SetMode. by case_decide.
  - intros i Hi. unfold SetMode. case_decide; cbn; [by apply Hw|right; lia].
  - rewrite wrap_small; lia.
  - rewrite wrap_small; lia.
  - intros i Hi. destruct (Hw i Hi) as [Hst|?]; [left|by right]. apply stalls_RemovePending; [lia|done].
Qed.

(** C38: a stalled target is never forgotten: whenever it waits, the mode and
    the number of requests still tell it to, or a notification is on its way;
    once the gate is terminated, the next notification sets it free for good. *)
Theorem gate_never_forgets_target (s : threads) (Hreach : rtc step start s) :
  (∀ idle, target s = Waiting idle → stalls (gate s) idle = true ∨ (0 < due s)%nat)
  ∧ (m_mode (gate s) = Terminated →
     (∀ idle, stalls (gate s) idle = false)
     ∧ ∀ s', rtc step s s' → m_mode (gate s') = Terminated).
Proof.
  assert (Hok : gate_ok s).
  { revert Hreach. apply (rtc_ind_r gate_ok).
    - split; [done|]. done.
    - intros a b _ Hab Ha. by apply (gate_step_ok a). }
  split; [by apply ok_waiting|]. intros Ht. split.
  - intros idle. unfold stalls. by rewrite Ht.
  - intros s' Hr. clear Hreach Hok. induction Hr as [|a b c Hab _ IH]; [done|]. apply IH.
    destruct Hab; cbn in *; try done. unfold SetMode. by rewrite decide_True.
Qed.

(** The modes of a list of numbers, up to the first that is not one a client may
    set. *)
Fixpoint valid_modes (values : list Z) : list ExecutionGateMode :=
  match values with
  | [] => []
  | v :: values =>
      if 4 <=? v then [] else
      match mode_of_value v with Some mode => mode :: valid_modes values | None => [] end
  end.

Lemma mode_of_value_valid v :
  0 ≤ v < 4 → ∃ mode, mode_of_value v = Some mode ∧ mode ≠ Terminated.
Proof.
  intros Hv. assert (v = 0 ∨ v = 1 ∨ v = 2 ∨ v = 3) as [->|[->|[->| ->]]] by lia; by eexists.
Qed.

Lemma ExecuteFrom_spec name g (tx : GateTx) values :
  let pos := m_first_incomplete tx in
  drop pos (ins tx) = SetExecutionGateMode <$> values →
  had_allocation_failure tx = false → length (outs tx) = length (ins tx) →
  m_mode g ≠ Terminated → Forall (λ v, 0 ≤ v) values →
  let '(tx', g') := ExecuteFrom name g tx pos (SetExecutionGateMode <$> values) in
  let modes := valid_modes values in
  ins tx' = ins tx ∧ had_allocation_failure tx' = false
  ∧ m_first_incomplete tx' = (pos + length modes)%nat
  ∧ m_mode g' = default (m_mode g) (last modes)
  ∧ take (pos + length modes) (outs tx') = take pos (outs tx) ++ modes
  ∧ (∀ v, values !! length modes = Some v →
       m_error_buffer tx' = Some (mkActionError (Some (AnyExecutionGate (SetExecutionGateMode v)))
                                    (CauseInvalidArgument "mode"))).
Proof.
  intros pos Hd Hf Hl Hmode Hv. revert tx g pos Hd Hf Hl Hmode.
  induction Hv as [|v values Hv Hvs IH]; intros tx g pos Hd Hf Hl Hmode; cbn [fmap list_fmap ExecuteFrom].
  { cbn. rewrite Nat.add_0_r, app_nil_r. split_and!; done. }
  assert (Ha : ins tx !! pos = Some (SetExecutionGateMode v)).
  { rewrite <-(Nat.add_0_r pos), <-lookup_drop, Hd. done. }
  rewrite decide_False by done. cbn [valid_modes]. destruct (Z.leb_spec 4 v) as [Hbig|Hsmall].
  - cbn [length]. rewrite Nat.add_0_r.
    set (tx1 := set_out tx pos (m_mode g)).
    assert (Hst : status_ok tx1 = false).
    { unfold status_ok, End, tx1; cbn. apply lookup_lt_Some in Ha. rewrite Hf. simpl.
      apply Nat.eqb_neq. fold pos. lia. }
    unfold Fail. rewrite Hst. cbn. rewrite take_insert_ge, app_nil_r by (fold pos; lia).
    split_and!; try done. intros w [= <-]. fold pos. by rewrite Ha.
  - destruct (mode_of_value_valid v) as (mode & -> & Hne); [lia|].
    set (g1 := mkGate mode (m_num_requests g)).
    set (tx1 := Done _ pos).
    assert (Hpos : m_first_incomplete tx1 = S pos) by (by apply (Done_here _ _ (SetExecutionGateMode v))).
    specialize (IH tx1 g1). rewrite Hpos in IH.
    assert (Hd1 : drop (S pos) (ins tx1) = SetExecutionGateMode <$> values).
    { change (ins tx1) with (ins tx). rewrite (drop_S _ _ _ Ha) in Hd. cbn in Hd. by injection Hd. }
    assert (Hl1 : length (outs tx1) = length (ins tx1)) by (cbn; by rewrite !length_insert).
    specialize (IH Hd1 Hf Hl1 Hne).
    destruct (ExecuteFrom name g1 tx1 (S pos) (SetExecutionGateMode <$> values)) as [tx' g'].
    destruct IH as (Hins & Hf' & Hfi & Hm & Hout & Herr). cbn [length].
    replace (pos + S (length (valid_modes values)))%nat
      with (S pos + length (valid_modes values))%nat by lia.
    split_and!; [done|done|done| | |done].
    + rewrite Hm. destruct (valid_modes values) as [|m ms]; [done|]. rewrite last_cons_cons.
      destruct (last (m :: ms)) eqn:E; [done|]. by apply last_None in E.
    + rewrite Hout. cbn [tx1 Done with_first_incomplete set_out outs]. apply lookup_lt_Some in Ha.
      rewrite list_insert_insert_eq, (take_S_r _ _ mode), take_insert_ge, <-app_assoc;
        [done|lia|by apply list_lookup_insert_eq; fold pos; lia].
Qed.

(** A transaction on the gate applies its modes in order, up to the first
    number that is not a mode a client may set; the gate then has the last of
    them, each result is the mode in effect, and the transaction succeeds
    exactly if all the numbers are modes, and otherwise blames the first that
    is not. *)
Theorem gate_applies_modes (name : string) (g : Gate) (values : list Z)
    (o : list ExecutionGateMode)
    (Hmode : m_mode g ≠ Terminated) (Hvalues : Forall (λ v, 0 ≤ v) values)
    (Ho : length o = length values) :
  let tx := begin_tx (SetExecutionGateMode <$> values, o) false in
  let '(tx', g') := Execute name g tx in
  let modes := valid_modes values in
  m_mode g' = default (m_mode g) (last modes)
  ∧ take (length modes) (outs tx') = modes
  ∧ m_first_incomplete tx' = length modes
  ∧ status_ok tx' = (length modes =? length values)%nat
  ∧ (∀ v, values !! length modes = Some v →
       m_error_buffer tx' = Some (mkActionError (Some (AnyExecutionGate (SetExecutionGateMode v)))
                                    (CauseInvalidArgument "mode"))).
Proof.
  intros tx. pose proof (ExecuteFrom_spec name g tx values) as Hx. cbv zeta in Hx.
  change (m_first_incomplete tx) with 0%nat in Hx. unfold Execute.
  change (m_first_incomplete tx) with 0%nat.
  change (drop 0 (ins tx)) with (SetExecutionGateMode <$> values).
  specialize (Hx eq_refl eq_refl). cbn [tx begin_tx outs ins fst snd] in Hx. rewrite length_fmap in Hx.
  specialize (Hx Ho Hmode Hvalues). fold tx in Hx.
  destruct (ExecuteFrom name g tx 0 (SetExecutionGateMode <$> values)) as [tx' g'].
  destruct Hx as (Hins & Hf & Hfi & Hm & Hout & Herr). cbn [Nat.add take app] in *.
  split_and!; try done. unfold status_ok, End. rewrite Hf, Hfi, Hins. cbn. by rewrite length_fmap.
Qed.

(** ** Witnesses *)

Lemma gate_never_forgets_target_witness :
  (∀ idle, target (mkThreads initial_gate (Waiting true) 0) = Waiting idle →
     stalls initial_gate idle = true ∨ (0 < 0)%nat)
  ∧ (m_mode initial_gate = Terminated →
     (∀ idle, stalls initial_gate idle = false)
     ∧ ∀ s', rtc step (mkThreads initial_gate (Waiting true) 0) s' → m_mode (gate s') = Terminated).
Proof.
  apply (gate_never_forgets_target (mkThreads initial_gate (Waiting true) 0)).
  apply (rtc_l _ _ (mkThreads initial_gate (Checking true) 0)); [constructor|].
  apply rtc_once. apply (target_checks initial_gate true 0).
Defined.

Lemma gate_applies_modes_witness :
  let '(tx', g') := Execute "gate" initial_gate
    (begin_tx (SetExecutionGateMode <$> [3; 2; 4], [NoStall; NoStall; NoStall]) false) in
  m_mode g' = ForceStall
  ∧ take 2 (outs tx') = [NoStall; ForceStall]
  ∧ m_first_incomplete tx' = 2%nat
  ∧ status_ok tx' = false
  ∧ (∀ v, [3; 2; 4] !! 2%nat = Some v →
       m_error_buffer tx' = Some (mkActionError (Some (AnyExecutionGate (SetExecutionGateMode v)))
                                    (CauseInvalidArgument "mode"))).
Proof.
  apply (gate_applies_modes "gate" initial_gate [3; 2; 4] [NoStall; NoStall; NoStall]).
  - discriminate.
  - repeat constructor; lia.
  - reflexivity.
Defined.
