(* ===== verification/ByteStream.v ===== *)
(** * ByteStream: reads and writes over a blocking stream
    ([src/src/libedr/driver/bytestream/ByteStream.hpp]).

    [DeferredByteStream] writes when a transaction is scheduled, all the writes
    of the transaction together, and queues the transaction for its reads, which
    are done by the thread that serves the queue.  The [BlockingByteStream]
    behind it is a parameter: the list of its answers, in the order of the calls.
    An answer to [Write] is the number of bytes it took and its error, an answer
    to [Read] the bytes it delivered and its error; an error comes with its cause,
    errors that could not be allocated are left out. *)
From S2P Require Import Prelude Actions Transaction.
From stdpp Require Import strings.

(** The results of the actions. *)
Inductive BSOut :=
| WriteOut (num_written : nat)
| ReadOut (num_read : nat) (data : list Z).

Abbreviation BSTx := (Tx ByteStreamAction BSOut).
Abbreviation write_answer := (nat * option Cause)%type.
Abbreviation read_answer := (list Z * option Cause)%type.

Definition payload (a : ByteStreamAction) : list Z :=
  match a with WriteBytes data => data | ReadBytes _ => [] end.

Definition is_write (a : ByteStreamAction) : bool :=
  match a with WriteBytes _ => true | ReadBytes _ => false end.

(** ** Writing *)

(** The state of a write: the transaction, what the stream took so far and the
    answers it has not given. *)
Record writer := mkWriter { w_tx : BSTx; wire : list Z; answers : list write_answer }.

(** The loop of [WriteOne]; [None] is a stream that does not answer. *)
Fixpoint WriteOneLoop (rs : list write_answer) (tx : BSTx) (pos : nat) (num : nat)
    (to_write sent : list Z) : option (bool * writer) :=
  match to_write with
  | [] => Some (true, mkWriter (set_out tx pos (WriteOut num)) sent rs)
  | _ =>
      match rs with
      | [] => None
      | (num_written, error) :: rs =>
          let n := Nat.min num_written (length to_write) in
          let sent := sent ++ take n to_write in
          match error with
          | Some cause =>
              let tx := set_out tx pos (WriteOut (num + n)) in
              Some (false, mkWriter (FailAt AnyByteStream tx pos cause) sent rs)
          | None => WriteOneLoop rs tx pos (num + n) (drop n to_write) sent
          end
      end
  end.

Definition WriteOne (tx : BSTx) (pos : nat) (data sent : list Z) (rs : list write_answer)
    : option (bool * writer) :=
  WriteOneLoop rs tx pos 0 data sent.

(** [wout->num_written = 0] for each write. *)
Fixpoint reset_written (tx : BSTx) (pos : nat) (actions : list ByteStreamAction) : BSTx :=
  match actions with
  | [] => tx
  | a :: actions =>
      reset_written (if is_write a then set_out tx pos (WriteOut 0) else tx) (S pos) actions
  end.

Definition num_written_at (tx : BSTx) (pos : nat) : nat :=
  match outs tx !! pos with Some (WriteOut n) => n | _ => 0 end.

(** The loop that acknowledges the bytes of one [Write]; the transaction, whether
    the writes are still continuous, and whether it went on. *)
Fixpoint Acknowledge (tx : BSTx) (pos : nat) (actions : list ByteStreamAction) (ack : nat)
    (error : option Cause) (continuous : bool) : BSTx * bool * bool :=
  match actions with
  | [] => (tx, continuous, true)
  | a :: actions =>
      match a with
      | ReadBytes _ => Acknowledge tx (S pos) actions ack error false
      | WriteBytes data =>
          let w := num_written_at tx pos in
          let to_ack := Nat.min ack (length data - w) in
          let tx := set_out tx pos (WriteOut (w + to_ack)) in
          let ack := ack - to_ack in
          let last := (ack =? 0)%nat in
          match (if last then error else None) with
          | Some cause => (FailAt AnyByteStream tx pos cause, continuous, false)
          | None =>
              let tx := if continuous && (w + to_ack =? length data)%nat then Done tx pos else tx in
              if last then (tx, continuous, true)
              else Acknowledge tx (S pos) actions ack error continuous
          end
      end
  end.

Fixpoint WriteManyLoop (rs : list write_answer) (tx : BSTx) (continuous : bool)
    (remaining sent : list Z) : option (bool * writer) :=
  match remaining with
  | [] => Some (true, mkWriter tx sent rs)
  | _ =>
      match rs with
      | [] => None
      | (num_written, error) :: rs =>
          let ack := Nat.min num_written (length remaining) in
          let sent := sent ++ take ack remaining in
          let fi := m_first_incomplete tx in
          let '(tx, continuous, go) := Acknowledge tx fi (drop fi (ins tx)) ack error continuous in
          if (go : bool) then WriteManyLoop rs tx continuous (drop ack remaining) sent
          else Some (false, mkWriter tx sent rs)
      end
  end.

(** [allocated] says whether the buffer for the combined data is there. *)
Definition WriteMany (allocated : bool) (tx : BSTx) (first_write : nat) (sent : list Z)
    (rs : list write_answer) : option (bool * writer) :=
  let fi := m_first_incomplete tx in
  let actions := drop fi (ins tx) in
  if negb allocated then
    let tx := set_out tx first_write (WriteOut 0) in
    Some (false, mkWriter (FailAt AnyByteStream tx first_write CauseAllocationFailure) sent rs)
  else
    WriteManyLoop rs (reset_written tx fi actions) true (concat (payload <$> actions)) sent.

(** ** Reading *)

Fixpoint DoReadsFrom (tx : BSTx) (pos : nat) (actions : list ByteStreamAction)
    (rs : list read_answer) : option (BSTx * list read_answer) :=
  match actions with
  | [] => Some (tx, rs)
  | WriteBytes _ :: actions => DoReadsFrom (Done tx pos) (S pos) actions rs
  | ReadBytes size :: actions =>
      match rs with
      | [] => None
      | (bytes, error) :: rs =>
          let old := match outs tx !! pos with Some (ReadOut _ d) => d | _ => [] end in
          let bytes := take size bytes in
          let tx := set_out tx pos (ReadOut (length bytes) (bytes ++ drop (length bytes) old)) in
          match error with
          | Some cause => Some (Fail AnyByteStream tx cause, rs)
          | None => DoReadsFrom (Done tx pos) (S pos) actions rs
          end
      end
  end.

Definition DoReads (tx : BSTx) (rs : list read_answer) : option (BSTx * list read_answer) :=
  DoReadsFrom tx (m_first_incomplete tx) (drop (m_first_incomplete tx) (ins tx)) rs.

(** ** [Execute] up to the wait in the queue *)

Fixpoint first_write_from (pos : nat) (actions : list ByteStreamAction) : option (nat * list Z) :=
  match actions with
  | [] => None
  | WriteBytes data :: _ => Some (pos, data)
  | ReadBytes _ :: actions => first_write_from (S pos) actions
  end.

(** The transaction, whether it is put to the queue, and the stream. *)
Definition Execute (name : string) (alive allocated : bool) (tx : BSTx) (rs : list write_answer)
    : option (bool * writer) :=
  let fi := m_first_incomplete tx in
  let actions := drop fi (ins tx) in
  let total := length (concat (payload <$> actions)) in
  if negb alive then
    Some (false, mkWriter (Fail AnyByteStream tx (CauseTerminated name)) [] rs)
  else
    '(ok, w) ← (match first_write_from fi actions with
                | None => Some (true, mkWriter tx [] rs)
                | Some (pos, data) =>
                    if (length data =? total)%nat then WriteOne tx pos data [] rs
                    else WriteMany allocated tx pos [] rs
                end);
    if (ok : bool) then
      Some (negb (m_first_incomplete (w_tx w) =? End (w_tx w))%nat, w)
    else Some (false, w).

(** ** Accounting of the bytes *)

(** The bytes that the writes in front of position [i] carry. *)
Definition before (acts : list ByteStreamAction) (i : nat) : nat :=
  length (concat (payload <$> take i acts)).

(** The first [k] bytes are acknowledged, in the order of the writes. *)
Definition acked (acts : list ByteStreamAction) (o : list BSOut) (k : nat) : Prop :=
  ∀ i data, acts !! i = Some (WriteBytes data) →
    o !! i = Some (WriteOut (Nat.min (length data) (k - before acts i))).

(** While bytes [k] to [k + ack] are acknowledged and the loop is at [i]. *)
Definition acking (acts : list ByteStreamAction) (o : list BSOut) (k ack i : nat) : Prop :=
  ∀ j data, acts !! j = Some (WriteBytes data) →
    o !! j = Some (WriteOut (Nat.min (length data)
      ((if decide (j < i) then k + ack else k) - before acts j))).

Lemma before_S acts i a :
  acts !! i = Some a → before acts (S i) = before acts i + length (payload a).
Proof.
  intros Ha. unfold before. rewrite (take_S_r _ _ a) by done.
  rewrite fmap_app, concat_app, length_app. cbn [fmap list_fmap concat]. by rewrite app_nil_r.
Qed.

Lemma before_mono acts i j : i ≤ j → before acts i ≤ before acts j.
Proof.
  intros Hij. unfold before. rewrite <-(take_drop i (take j acts)), take_take.
  replace (i `min` j) with i by lia. rewrite fmap_app, concat_app, length_app. lia.
Qed.

Lemma before_all acts i : length acts ≤ i → before acts i = length (concat (payload <$> acts)).
Proof. intros. unfold before. by rewrite take_ge. Qed.

Lemma acking_lookup acts o k ack i data :
  acking acts o k ack i → acts !! i = Some (WriteBytes data) →
  o !! i = Some (WriteOut (Nat.min (length data) (k - before acts i))).
Proof. intros H Ha. specialize (H _ _ Ha). by rewrite decide_False in H by lia. Qed.

Lemma acking_read acts o k ack i n :
  acking acts o k ack i → acts !! i = Some (ReadBytes n) → acking acts o k ack (S i).
Proof.
  intros H Ha j data Hj. rewrite (H _ _ Hj). assert (j ≠ i) by congruence.
  destruct (decide (j < i)), (decide (j < S i)); done || lia.
Qed.

(** One write is acknowledged. *)
Lemma acking_write acts o k ack i data n :
  acking acts o k ack i → acts !! i = Some (WriteBytes data) →
  n = Nat.min (length data) (k + ack - before acts i) →
  acking acts (<[i := WriteOut n]> o) k ack (S i).
Proof.
  intros H Ha -> j data' Hj. destruct (decide (j = i)) as [->|Hne].
  - rewrite list_lookup_insert_eq by (eapply lookup_lt_Some; by eapply acking_lookup).
    rewrite decide_True by lia. by simplify_eq.
  - rewrite list_lookup_insert_ne by done. rewrite (H _ _ Hj).
    destruct (decide (j < i)), (decide (j < S i)); done || lia.
Qed.

(** The loop may stop when nothing is left to acknowledge. *)
Lemma acking_stop acts o k ack i :
  acking acts o k ack i → k + ack ≤ Nat.max k (before acts i) → acked acts o (k + ack).
Proof.
  intros H Hr j data Hj. rewrite (H _ _ Hj). case_decide; [done|].
  do 3 f_equal. pose proof (before_mono acts i j ltac:(lia)). lia.
Qed.

(** What the loops keep: the writes marked as done are complete, and are a
    prefix of the actions without a read in it. *)
Record write_inv (acts : list ByteStreamAction) (tx : BSTx) (k : nat) : Prop := {
  wi_ins : ins tx = acts;
  wi_done : before acts (m_first_incomplete tx) ≤ k;
  wi_writes : ∀ j a, j < m_first_incomplete tx → acts !! j = Some a → is_write a = true;
  wi_outs : length (outs tx) = length acts;
  wi_memory : had_allocation_failure tx = false;
  wi_bound : m_first_incomplete tx ≤ length acts;
}.

Lemma write_inv_le acts tx k k' : write_inv acts tx k → k ≤ k' → write_inv acts tx k'.
Proof. intros [] ?. split; (done || lia). Qed.

(** The arithmetic of one acknowledgement: [b] bytes are in front of the write. *)
Lemma ack_arith (k ack b len r : nat) :
  r = k + ack - Nat.max k (Nat.min b (k + ack)) →
  let w := Nat.min len (k - b) in
  let t := Nat.min r (len - w) in
  w + t = Nat.min len (k + ack - b)
  ∧ r - t = k + ack - Nat.max k (Nat.min (b + len) (k + ack)).
Proof.
  intros Hr w t. destruct (decide (k + ack ≤ b)) as [Hb|Hb].
  - assert (r = 0) by lia. assert (w = 0) by lia. split; lia.
  - assert (Hr' : r = k + ack - Nat.max k b) by lia. clear Hr.
    destruct (decide (b ≤ k)) as [Hbk|Hbk].
    + assert (r = ack) as -> by lia. clear Hr'. subst w t.
      destruct (decide (len ≤ k - b)), (decide (b + len ≤ k + ack)); split; lia.
    + assert (w = 0) as Hw by lia. assert (r = k + ack - b) as Hrb by lia. clear Hr'.
      subst t. rewrite Hw. destruct (decide (b + len ≤ k + ack)); split; lia.
Qed.

(** A complete write is marked as done. *)
Lemma mark_done acts tx i data m w to_ack continuous :
  write_inv acts tx m → acts !! i = Some (WriteBytes data) →
  w + to_ack = Nat.min (length data) (m - before acts i) →
  (continuous = true → ∀ j a, j < i → acts !! j = Some a → is_write a = true) →
  before acts i ≤ m →
  continuous && (w + to_ack =? length data)%nat = true →
  write_inv acts (Done tx i) m.
Proof.
  intros [Hins Hd Hw Hl Hm Hbd] Ha Hn Hc Hb [Hcont Heq]%andb_true_iff. apply Nat.eqb_eq in Heq.
  assert (Hfi : m_first_incomplete (Done tx i) = S i).
  { apply (Done_here tx i (WriteBytes data)). by rewrite Hins. }
  split; [done| | |done|done|]; rewrite Hfi.
  - rewrite (before_S _ _ _ Ha). cbn [payload]. lia.
  - intros j a Hj Hja. destruct (decide (j = i)) as [->|]; [by simplify_eq|].
    apply (Hc Hcont j); [lia|done].
  - by eapply lookup_lt_Some.
Qed.

Lemma Acknowledge_spec acts tx i k ack r error continuous :
  acking acts (outs tx) k ack i →
  write_inv acts tx (k + ack) → m_first_incomplete tx ≤ i →
  (continuous = true → ∀ j a, j < i → acts !! j = Some a → is_write a = true) →
  r = k + ack - Nat.max k (Nat.min (before acts i) (k + ack)) →
  (0 < r ∨ before acts i ≤ k) →
  k < length (concat (payload <$> acts)) → k + ack ≤ length (concat (payload <$> acts)) →
  let '(tx', continuous', go) := Acknowledge tx i (drop i acts) r error continuous in
  acked acts (outs tx') (k + ack) ∧ write_inv acts tx' (k + ack)
  ∧ (if (go : bool) then error = None
     else ∃ cause a, error = Some cause ∧ m_error_buffer tx' = Some (mkActionError a cause)).
Proof.
  intros Hack Hinv Hfi Hcont Hr Hpos Hk Htot.
  remember (drop i acts) as rest eqn:Hrest. symmetry in Hrest.
  revert tx i r continuous Hack Hinv Hfi Hcont Hr Hpos Hrest.
  induction rest as [|a rest IH]; intros tx i r continuous Hack Hinv Hfi Hcont Hr Hpos Hrest.
  { (* the end of the actions: nothing can be left *)
    assert (Hlen : length acts ≤ i).
    { apply (f_equal length) in Hrest. rewrite length_drop in Hrest. simpl in Hrest. lia. }
    pose proof (before_all acts i Hlen). lia. }
  assert (Ha : acts !! i = Some a).
  { rewrite <-(Nat.add_0_r i), <-lookup_drop, Hrest. done. }
  assert (Hrest' : drop (S i) acts = rest).
  { rewrite (drop_S _ _ _ Ha) in Hrest. by injection Hrest. }
  pose proof (before_S _ _ _ Ha) as HS.
  cbn [Acknowledge]. destruct a as [data|n]; cbn [payload] in HS.
  2: { apply IH; try done.
       - by eapply acking_read.
       - lia.
       - cbn [length] in HS. by rewrite HS, Nat.add_0_r.
       - cbn [length] in HS. lia. }
  assert (Hw : num_written_at tx i = Nat.min (length data) (k - before acts i)).
  { unfold num_written_at. by rewrite (acking_lookup _ _ _ _ _ _ Hack Ha). }
  rewrite Hw. set (w := Nat.min (length data) (k - before acts i)).
  set (to_ack := Nat.min r (length data - w)).
  destruct (ack_arith k ack (before acts i) (length data) r Hr) as [Hnew Hr'].
  fold w to_ack in Hnew, Hr'. rewrite <-HS in Hr'.
  pose proof (acking_write _ _ _ _ _ _ _ Hack Ha Hnew) as Hack'.
  set (tx1 := set_out tx i (WriteOut (w + to_ack))).
  assert (Hinv1 : write_inv acts tx1 (k + ack))
    by (destruct Hinv; split; cbn; rewrite ?length_insert; done).
  assert (Hbi : before acts i ≤ k + ack) by lia.
  destruct (Nat.eqb_spec (r - to_ack) 0) as [Hlast|Hmore].
  - (* the last write that is acknowledged *)
    assert (Hacked : acked acts (outs tx1) (k + ack)).
    { apply (acking_stop _ _ _ _ (S i)); [done|]. lia. }
    destruct error as [cause|].
    + split_and!; [done|by destruct Hinv1|]. by do 2 eexists.
    + destruct (continuous && _) eqn:Hdone; [|by split_and!].
      split_and!; [done| |done]. by apply (mark_done acts tx1 i data (k + ack) w to_ack continuous).
  - destruct (continuous && _) eqn:Hdone.
    + apply IH; [done|by apply (mark_done acts tx1 i data (k + ack) w to_ack continuous)| | |done|left; lia|done].
      * rewrite (Done_here tx1 i (WriteBytes data)); [done|]. cbn. by rewrite (wi_ins _ _ _ Hinv).
      * intros Hc j a Hj Hja. destruct (decide (j = i)) as [->|]; [by simplify_eq|].
        apply (Hcont Hc j); [lia|done].
    + apply IH; [done|done|cbn; lia| |done|left; lia|done].
      intros Hc j a Hj Hja. destruct (decide (j = i)) as [->|]; [by simplify_eq|].
      apply (Hcont Hc j); [lia|done].
Qed.

Lemma acked_acking acts o k ack fi :
  acked acts o k → before acts fi ≤ k → acking acts o k ack fi.
Proof.
  intros H Hfi j data Hj. rewrite (H _ _ Hj). case_decide as Hlt; [|done].
  pose proof (before_S _ _ _ Hj) as HS. cbn [payload] in HS.
  pose proof (before_mono acts (S j) fi ltac:(lia)). do 2 f_equal. lia.
Qed.

Lemma drop_nonempty {A} (l : list A) k : drop k l ≠ [] → k < length l.
Proof. intros H. apply Nat.nle_gt. intros Hle. apply H. by apply drop_ge. Qed.

(** What a run of writes leaves behind. *)
Definition written (acts : list ByteStreamAction) (ok : bool) (w : writer) : Prop :=
  ∃ k, k ≤ length (concat (payload <$> acts))
    ∧ wire w = take k (concat (payload <$> acts))
    ∧ acked acts (outs (w_tx w)) k ∧ write_inv acts (w_tx w) k
    ∧ if ok then k = length (concat (payload <$> acts))
      else ∃ cause a, m_error_buffer (w_tx w) = Some (mkActionError a cause).

Lemma WriteManyLoop_spec acts rs tx continuous k ok w :
  let all := concat (payload <$> acts) in
  acked acts (outs tx) k → write_inv acts tx k → k ≤ length all →
  WriteManyLoop rs tx continuous (drop k all) (take k all) = Some (ok, w) →
  written acts ok w.
Proof.
  intros all. revert tx continuous k. induction rs as [|[n err] rs IH];
    intros tx continuous k Hack Hinv Hk Hrun; cbn [WriteManyLoop] in Hrun.
  all: destruct (drop k all) as [|x xs] eqn:Hrem.
  1,3: simplify_eq; exists k;
    (assert (Hfull : k = length all) by (apply (f_equal length) in Hrem; rewrite length_drop in Hrem;
      simpl in Hrem; lia)); by split_and!.
  { done. }
  assert (Hlt : k < length all) by (apply drop_nonempty; by rewrite Hrem).
  rewrite <-Hrem in Hrun. set (ack := Nat.min n (length (drop k all))) in *.
  assert (Hackle : k + ack ≤ length all) by (unfold ack; rewrite length_drop; lia).
  rewrite (wi_ins _ _ _ Hinv) in Hrun.
  pose proof (Acknowledge_spec acts tx (m_first_incomplete tx) k ack ack err continuous) as Hspec.
  assert (Hi : write_inv acts tx (k + ack)) by (apply (write_inv_le _ _ k); [done|lia]).
  pose proof (wi_done _ _ _ Hinv) as Hd.
  specialize (Hspec (acked_acking _ _ _ _ _ Hack Hd) Hi (le_n _) (λ _, wi_writes _ _ _ Hinv)
    ltac:(lia) (or_intror Hd) Hlt Hackle).
  destruct (Acknowledge tx _ _ ack err continuous) as [[tx' cont'] go].
  destruct Hspec as (Hack' & Hinv' & Hgo).
  assert (Hsent : take k all ++ take ack (drop k all) = take (k + ack) all)
    by (by rewrite take_take_drop).
  destruct go.
  - rewrite drop_drop, Hsent in Hrun. by apply (IH tx' cont' (k + ack)).
  - simplify_eq. exists (k + ack). split_and!; [done|done|done|done|].
    destruct Hgo as (cause & a & _ & He). by exists cause, a.
Qed.

(** Setting all the counters to zero. *)
Lemma reset_written_spec acts tx pos :
  drop pos (ins tx) = acts → length (outs tx) = length (ins tx) →
  let tx' := reset_written tx pos acts in
  ins tx' = ins tx ∧ m_first_incomplete tx' = m_first_incomplete tx
  ∧ length (outs tx') = length (ins tx) ∧ had_allocation_failure tx' = had_allocation_failure tx
  ∧ (∀ j, j < pos → outs tx' !! j = outs tx !! j)
  ∧ (∀ j data, pos ≤ j → ins tx !! j = Some (WriteBytes data) → outs tx' !! j = Some (WriteOut 0)).
Proof.
  revert tx pos. induction acts as [|a acts IH]; intros tx pos Hd Hl; cbn [reset_written].
  { split_and!; try done. intros j data Hj Ha. apply lookup_lt_Some in Ha.
    apply (f_equal length) in Hd. rewrite length_drop in Hd. simpl in Hd. lia. }
  assert (Ha : ins tx !! pos = Some a).
  { rewrite <-(Nat.add_0_r pos), <-lookup_drop, Hd. done. }
  assert (Hd' : drop (S pos) (ins tx) = acts).
  { rewrite (drop_S _ _ _ Ha) in Hd. by injection Hd. }
  set (tx1 := if is_write a then _ else _).
  assert (Htx1 : ins tx1 = ins tx ∧ m_first_incomplete tx1 = m_first_incomplete tx
    ∧ had_allocation_failure tx1 = had_allocation_failure tx ∧ length (outs tx1) = length (ins tx) ∧ (∀ j, j ≠ pos → outs tx1 !! j = outs tx !! j)
    ∧ (is_write a = true → outs tx1 !! pos = Some (WriteOut 0))).
  { unfold tx1. destruct (is_write a); cbn; [|by split_and!].
    rewrite length_insert. split_and!; try done.
    - intros j Hj. by rewrite list_lookup_insert_ne.
    - intros _. apply list_lookup_insert_eq. apply lookup_lt_Some in Ha. lia. }
  destruct Htx1 as (Hi & Hf & Hm & Hl1 & Hne & Heq).
  specialize (IH tx1 (S pos)). rewrite Hi, Hf, Hm in IH. destruct (IH Hd' Hl1) as (H1 & H2 & H3 & H0 & H4 & H5).
  split_and!; [done|done|done|done| |].
  - intros j Hj. rewrite H4 by lia. apply Hne. lia.
  - intros j data Hj Hja. destruct (decide (j = pos)) as [->|].
    + rewrite H4 by lia. apply Heq. by simplify_eq.
    + apply (H5 j data); [lia|done].
Qed.

Lemma reset_ready acts o :
  length o = length acts →
  let tx := reset_written (begin_tx (acts, o) false) 0 acts in
  acked acts (outs tx) 0 ∧ write_inv acts tx 0.
Proof.
  intros Ho tx.
  destruct (reset_written_spec acts (begin_tx (acts, o) false) 0) as (Hi & Hf & Hl & Hm & _ & Hz);
    [by cbn; rewrite drop_0|done|]. fold tx in Hi, Hf, Hl, Hm, Hz. split.
  - intros i data Ha. rewrite (Hz i data) by (done || lia). by rewrite Nat.min_0_r.
  - split; [done| | |done|done|]; rewrite Hf; cbn; [done|intros; lia|lia].
Qed.

(** The writes of a transaction reach the stream in their order: what the
    stream took is a prefix of all the data, each action counts exactly its
    share of it, only complete writes in front of the first read are marked as
    done; if the writes succeed the whole data is sent, and if they fail there is
    an error. *)
Theorem WriteMany_sends_in_order (acts : list ByteStreamAction) (o : list BSOut) (first : nat)
    (rs : list write_answer) (ok : bool) (w : writer)
    (Ho : length o = length acts)
    (Hrun : WriteMany true (begin_tx (acts, o) false) first [] rs = Some (ok, w)) :
  written acts ok w.
Proof.
  unfold WriteMany in Hrun. cbn [negb m_first_incomplete begin_tx ins fst snd] in Hrun.
  rewrite drop_0 in Hrun. destruct (reset_ready acts o Ho) as [Hack Hinv].
  eapply (WriteManyLoop_spec acts rs _ true 0 ok w); [exact Hack|exact Hinv|lia|].
  rewrite drop_0, take_0. exact Hrun.
Qed.

(** ** The whole transaction on a stream without errors *)

Definition progressing (rs : list write_answer) : Prop := Forall (λ r, 0 < r.1 ∧ r.2 = None) rs.

Lemma WriteManyLoop_total acts rs tx continuous k :
  let all := concat (payload <$> acts) in
  acked acts (outs tx) k → write_inv acts tx k → k ≤ length all →
  progressing rs → length all - k ≤ length rs →
  ∃ w, WriteManyLoop rs tx continuous (drop k all) (take k all) = Some (true, w).
Proof.
  intros all Hack Hinv Hk Hrs. revert tx continuous k Hack Hinv Hk.
  induction Hrs as [|[n err] rs [Hn He] Hrs IH]; intros tx continuous k Hack Hinv Hk Hlen; cbn [WriteManyLoop].
  all: destruct (drop k all) as [|x xs] eqn:Hrem; [by eexists|].
  all: assert (Hlt : k < length all) by (apply drop_nonempty; by rewrite Hrem).
  { simpl in Hlen. lia. }
  cbn in Hn, He. subst err.
  rewrite <-Hrem. set (ack := Nat.min n (length (drop k all))) in *.
  assert (Hackle : 0 < ack ∧ k + ack ≤ length all) by (unfold ack; rewrite length_drop; lia).
  rewrite (wi_ins _ _ _ Hinv).
  pose proof (Acknowledge_spec acts tx (m_first_incomplete tx) k ack ack None continuous) as Hspec.
  assert (Hi : write_inv acts tx (k + ack)) by (apply (write_inv_le _ _ k); [done|lia]).
  pose proof (wi_done _ _ _ Hinv) as Hd.
  specialize (Hspec (acked_acking _ _ _ _ _ Hack Hd) Hi (le_n _) (λ _, wi_writes _ _ _ Hinv)
    ltac:(lia) (or_intror Hd) Hlt (proj2 Hackle)).
  destruct (Acknowledge tx _ _ ack None continuous) as [[tx' cont'] go].
  destruct Hspec as (Hack' & Hinv' & Hgo). destruct go; [|by destruct Hgo as (?&?&?&_)].
  rewrite drop_drop, take_take_drop. apply IH; [done|done|lia|]. simpl in Hlen. lia.
Qed.

Lemma WriteOneLoop_total rs tx pos num to_write sent :
  progressing rs → length to_write ≤ length rs →
  ∃ rs', WriteOneLoop rs tx pos num to_write sent
    = Some (true, mkWriter (set_out tx pos (WriteOut (num + length to_write))) (sent ++ to_write) rs').
Proof.
  intros Hrs. revert num to_write sent.
  induction Hrs as [|[n err] rs [Hn He] Hrs IH]; intros num to_write sent Hlen; cbn [WriteOneLoop].
  all: destruct to_write as [|x xs]; [eexists; by rewrite app_nil_r, Nat.add_0_r|].
  { simpl in Hlen. lia. }
  cbn in Hn, He. subst err. set (t := x :: xs) in *. set (k := Nat.min n (length t)).
  assert (0 < k ≤ length t) by (unfold k, t; simpl; lia).
  destruct (IH (num + k) (drop k t) (sent ++ take k t)) as [rs' ->].
  { rewrite length_drop. simpl in Hlen |- *. lia. }
  exists rs'. rewrite <-app_assoc, take_drop, length_drop. do 5 f_equal. lia.
Qed.

Definition read_sizes (acts : list ByteStreamAction) : list nat :=
  omap (λ a, match a with ReadBytes n => Some n | WriteBytes _ => None end) acts.

(** What the reads of a transaction returned. *)
Definition got (acts : list ByteStreamAction) (o : list BSOut) : list (list Z) :=
  omap (λ p : ByteStreamAction * BSOut,
          match p with (ReadBytes _, ReadOut n d) => Some (take n d) | _ => None end) (zip acts o).

Lemma DoReadsFrom_spec tx pos acts rs :
  m_first_incomplete tx = pos → drop pos (ins tx) = acts → length (outs tx) = length (ins tx) →
  Forall (λ r : read_answer, r.2 = None) rs → length rs = length (read_sizes acts) →
  ∃ tx', DoReadsFrom tx pos acts rs = Some (tx', [])
    ∧ ins tx' = ins tx ∧ had_allocation_failure tx' = had_allocation_failure tx
    ∧ m_first_incomplete tx' = pos + length acts
    ∧ take pos (outs tx') = take pos (outs tx) ∧ length (outs tx') = length (outs tx)
    ∧ got acts (drop pos (outs tx')) = zip_with take (read_sizes acts) (fst <$> rs).
Proof.
  revert tx pos rs. induction acts as [|a acts IH]; intros tx pos rs Hfi Hd Hl Hrs Hlen; cbn [DoReadsFrom].
  { destruct rs; [|done]. exists tx. rewrite Nat.add_0_r. by split_and!. }
  assert (Ha : ins tx !! pos = Some a).
  { rewrite <-(Nat.add_0_r pos), <-lookup_drop, Hd. done. }
  assert (Hd' : drop (S pos) (ins tx) = acts).
  { rewrite (drop_S _ _ _ Ha) in Hd. by injection Hd. }
  destruct (lookup_lt_is_Some_2 (outs tx) pos) as [o Hout]; [rewrite Hl; by eapply lookup_lt_Some|].
  destruct a as [data|n].
  - destruct (IH (Done tx pos) (S pos) rs) as (tx' & -> & Hi & Hf & Hfi' & Ht & Hlo & Hg);
      [by eapply Done_here|done|done|done|done|].
    exists tx'. cbn [length]. split_and!; [done|done|done|lia| |done|].
    + apply (f_equal (take pos)) in Ht. rewrite !take_take in Ht.
      replace (pos `min` S pos) with pos in Ht by lia. exact Ht.
    + destruct (lookup_lt_is_Some_2 (outs tx') pos) as [o' Ho'].
      { rewrite Hlo. by eapply lookup_lt_Some. }
      rewrite (drop_S _ _ _ Ho'). exact Hg.
  - destruct rs as [|[bytes err] rs]; [done|]. inversion_clear Hrs as [|?? He Hrs']. cbn in He. subst err.
    set (b := take n bytes). set (old := match outs tx !! pos with Some (ReadOut _ d) => d | _ => [] end).
    set (out := ReadOut (length b) (b ++ drop (length b) old)).
    destruct (IH (Done (set_out tx pos out) pos) (S pos) rs) as (tx' & -> & Hi & Hf & Hfi' & Ht & Hlo & Hg);
      [by eapply Done_here|done|by cbn; rewrite length_insert|done|by injection Hlen|].
    exists tx'. cbn [length]. cbn in Hlo. rewrite length_insert in Hlo. split_and!; [done|done|done|lia| |done|].
    + apply (f_equal (take pos)) in Ht. rewrite !take_take in Ht.
      replace (pos `min` S pos) with pos in Ht by lia. cbn in Ht.
      by rewrite take_insert_ge in Ht by lia.
    + assert (Ho' : outs tx' !! pos = Some out).
      { apply (f_equal (λ l, l !! pos)) in Ht. rewrite !lookup_take_lt in Ht by lia. rewrite Ht. cbn.
        apply list_lookup_insert_eq. by eapply lookup_lt_Some. }
      rewrite (drop_S _ _ _ Ho'). cbn [got zip zip_with omap list_omap fmap list_fmap read_sizes fst out].
      rewrite take_app_length. f_equal. exact Hg.
Qed.

(** [Execute] and, if the transaction is put to the queue, its reads. *)
Definition run (name : string) (tx : BSTx) (rs : list write_answer) (reads : list read_answer)
    : option (BSTx * list Z) :=
  '(queued, w) ← Execute name true true tx rs;
  if (queued : bool) then '(tx, _) ← DoReads (w_tx w) reads; Some (tx, wire w)
  else Some (w_tx w, wire w).

Lemma first_write_prefix pos acts :
  match first_write_from pos acts with
  | None => concat (payload <$> acts) = []
  | Some (_, data) => acts ≠ [] ∧ ∃ rest, concat (payload <$> acts) = data ++ rest
  end.
Proof.
  revert pos. induction acts as [|[data|n] acts IH]; intros pos; cbn [first_write_from]; [done| |].
  - split; [done|]. by eexists.
  - specialize (IH (S pos)). destruct (first_write_from (S pos) acts) as [[p d]|]; [|done].
    by destruct IH as [_ ?].
Qed.

(** A prefix without reads returns nothing. *)
Lemma writes_only acts o k :
  (∀ j a, j < k → acts !! j = Some a → is_write a = true) →
  read_sizes (drop k acts) = read_sizes acts ∧ got (drop k acts) (drop k o) = got acts o.
Proof.
  revert acts o. induction k as [|k IH]; intros acts o Hw; [by rewrite !drop_0|].
  destruct acts as [|a acts]; [done|].
  assert (is_write a = true) as Ha by (apply (Hw 0); [lia|done]).
  destruct (IH acts (drop 1 o)) as [Hs Hg]; [intros j b Hj Hb; apply (Hw (S j)); [lia|done]|].
  destruct a as [data|]; [|done]. cbn [drop]. split; [exact Hs|].
  rewrite drop_drop in Hg. destruct o as [|x o]; cbn [drop Nat.add] in Hg |- *; [|exact Hg].
  unfold got. by rewrite !zip_with_nil_r.
Qed.

(** The writes of a transaction on a stream that works: all the data is sent, and
    the reads are left. *)
Lemma writes_complete (acts : list ByteStreamAction) (o : list BSOut) (rs : list write_answer) :
  let tx0 := begin_tx (acts, o) false in
  let all := concat (payload <$> acts) in
  length o = length acts → progressing rs → length all ≤ length rs →
  ∃ w, (match first_write_from 0 acts with
      | None => Some (true, mkWriter tx0 [] rs)
      | Some (pos, data) => if (length data =? length all)%nat then WriteOne tx0 pos data [] rs
                            else WriteMany true tx0 pos [] rs
      end) = Some (true, w) ∧ wire w = all ∧ write_inv acts (w_tx w) (length all).
Proof.
  intros tx0 all Ho Hrs Henough.
  pose proof (first_write_prefix 0 acts) as Hfw. fold all in Hfw.
  assert (Hinv0 : write_inv acts tx0 (length all)).
  { split; [done|apply Nat.le_0_l|cbn; intros; lia|done|done|cbn; lia]. }
  destruct (first_write_from 0 acts) as [[pos data]|]; [|eexists; split; [done|]; split; [by rewrite Hfw|done]].
  destruct Hfw as [_ [rest Hall]]. destruct (Nat.eqb_spec (length data) (length all)) as [Heq|Hne].
  - assert (data = all) as ->.
    { rewrite Hall in Heq. rewrite length_app in Heq. destruct rest; [|simpl in Heq; lia].
      by rewrite app_nil_r in Hall. }
    unfold WriteOne. destruct (WriteOneLoop_total rs tx0 pos 0 all [] Hrs Henough) as [rs' ->].
    eexists; split; [done|]. split; [done|]. destruct Hinv0. split; cbn; rewrite ?length_insert; done.
  - unfold WriteMany. cbn [negb tx0 m_first_incomplete begin_tx ins fst]. rewrite drop_0. fold all.
    destruct (reset_ready acts o Ho) as [Hack Hinv].
    destruct (WriteManyLoop_total acts rs _ true 0 Hack Hinv) as [w Hw]; [lia|done|fold all; lia|].
    pose proof (WriteManyLoop_spec acts rs _ true 0 true w Hack Hinv ltac:(lia) Hw)
      as (k & Hk & Hwire & _ & Hinv' & ->).
    exists w. rewrite drop_0, take_0 in Hw. split; [exact Hw|]. split; [|done].
    rewrite Hwire. by apply take_ge.
Qed.

(** C37: on a stream that works, a transaction completes: all of its data is
    sent in order and every read returns what the stream delivered for it, cut
    to the size it asked for. *)
Theorem transaction_completes (name : string) (acts : list ByteStreamAction) (o : list BSOut)
    (rs : list write_answer) (reads : list read_answer)
    (Ho : length o = length acts) (Hrs : progressing rs)
    (Henough : length (concat (payload <$> acts)) ≤ length rs)
    (Hreads : Forall (λ r : read_answer, r.2 = None) reads)
    (Hnum : length reads = length (read_sizes acts)) :
  ∃ tx, run name (begin_tx (acts, o) false) rs reads = Some (tx, concat (payload <$> acts))
    ∧ status_ok tx = true ∧ got acts (outs tx) = zip_with take (read_sizes acts) (fst <$> reads).
Proof.
  set (all := concat (payload <$> acts)) in *. set (tx0 := begin_tx (acts, o) false).
  destruct (writes_complete acts o rs Ho Hrs Henough) as (w & Hw & Hwire & Hinv).
  fold all in Hw, Hwire, Hinv. fold tx0 in Hw. unfold run, Execute.
  cbn [tx0 m_first_incomplete begin_tx ins fst negb]. rewrite drop_0. fold all tx0. rewrite Hw.
  cbn [mbind option_bind]. pose proof Hinv as [Hins _ Hwr Hlo Hmem Hbd].
  set (fi := m_first_incomplete (w_tx w)) in *.
  destruct (writes_only acts (outs (w_tx w)) fi Hwr) as [Hsz _].
  destruct (Nat.eqb_spec fi (End (w_tx w))) as [Hend|Hmore]; cbn [negb mbind option_bind].
  - exists (w_tx w). rewrite Hwire. split; [done|].
    unfold End in Hend. rewrite Hins in Hend. rewrite Hend, drop_ge in Hsz by lia. cbn in Hsz.
    split.
    + unfold status_ok, End. rewrite Hmem, Hins. fold fi. rewrite Hend. cbn. by apply Nat.eqb_eq.
    + destruct (writes_only acts (outs (w_tx w)) fi Hwr) as [_ Hg].
      rewrite <-Hg, Hend, drop_ge, <-Hsz by lia. done.
  - unfold DoReads. fold fi. rewrite Hins.
    destruct (DoReadsFrom_spec (w_tx w) fi (drop fi acts) reads) as (tx' & -> & Hi & Hm & Hfi & _ & Hl & Hg);
      [done|by rewrite Hins|by rewrite Hlo, Hins|done|by rewrite Hsz|].
    cbn [mbind option_bind]. exists tx'. rewrite Hwire. split; [done|]. split.
    + unfold status_ok, End. rewrite Hm, Hmem, Hi, Hins, Hfi, length_drop. cbn. apply Nat.eqb_eq. fold fi in Hbd. lia.
    + rewrite Hsz in Hg. rewrite <-Hg. symmetry. by apply writes_only.
Qed.

(** ** Witnesses *)

Definition demo_acts : list ByteStreamAction :=
  [WriteBytes [1; 2; 3]%Z; ReadBytes 2; WriteBytes [4; 5]%Z].

Definition demo_outs : list BSOut := [WriteOut 9; ReadOut 0 [0; 0]%Z; WriteOut 9].

(** The stream takes four bytes and fails. *)
Definition demo_failure : option (bool * writer) :=
  WriteMany true (begin_tx (demo_acts, demo_outs) false) 0 [] [(2, None); (2, Some CauseTargetError)].

Lemma WriteMany_sends_in_order_witness :
  ∃ w, demo_failure = Some (false, w) ∧ wire w = [1; 2; 3; 4]%Z
    ∧ outs (w_tx w) = [WriteOut 3; ReadOut 0 [0; 0]%Z; WriteOut 1] ∧ written demo_acts false w.
Proof.
  eexists. split; [vm_compute; reflexivity|]. split; [reflexivity|]. split; [reflexivity|].
  apply (WriteMany_sends_in_order demo_acts demo_outs 0 [(2, None); (2, Some CauseTargetError)]);
    vm_compute; reflexivity.
Defined.

Lemma transaction_completes_witness :
  ∃ tx, run "pipe" (begin_tx (demo_acts, demo_outs) false)
      [(2, None); (1, None); (7, None); (1, None); (1, None)] [([8; 9; 10]%Z, None)]
      = Some (tx, [1; 2; 3; 4; 5]%Z)
    ∧ status_ok tx = true ∧ got demo_acts (outs tx) = [[8; 9]%Z].
Proof.
  apply (transaction_completes "pipe" demo_acts demo_outs).
  - reflexivity.
  - repeat constructor.
  - vm_compute. lia.
  - repeat constructor.
  - reflexivity.
Defined.
