(* ===== verification/PullJtag.v ===== *)
(** * PullJtag: JTAG transactions as bit streams for a simulator
    ([src/src/libedr/driver/jtag/PullJtag.cpp], [PullJtag.h]).

    A simulator pulls TMS and TDI bits and pushes the TDO bits of the same
    clocks.  Both directions are generators: coroutines that keep their place in
    the transactions between the calls.  A generator is its place as a value and
    a function that runs it until it yields.  The two halves of the queue of
    transactions are the lists that [ResolutionQueue] specifies; [PullQueue] has the
    generators on the queue itself, and shows when the lists are what it is. *)
From S2P Require Import Prelude Actions Transaction JtagTap JtagChain ExecutionGate.

(** ** TMS and TDI *)

Inductive lane := LaneTMS | LaneTDI.

(** Bits for one lane and what fills the other. *)
Record segment := mkSegment { seg_lane : lane; seg_bits : list bool; seg_filler : bool }.

(** What the generator writes for an action: the last TDI bit goes with the
    wanted TMS. *)
Definition action_segments (a : JtagAction) : list segment :=
  match a with
  | PutTMS bits => [mkSegment LaneTMS bits false]
  | PutTDI bits last_tms | PutTDIGetTDO bits last_tms =>
      if (length bits =? 0)%nat then [] else
      if negb last_tms then [mkSegment LaneTDI bits false]
      else [mkSegment LaneTDI (take (length bits - 1) bits) false;
            mkSegment LaneTDI (drop (length bits - 1) bits) true]
  end.

(** The destinations of a call, what is written to them and the room left, and the
    number of clocks the call has written. *)
Record dests := mkDests {
  tms_written : list bool; tms_room : nat;
  tdi_written : list bool; tdi_room : nat;
  accumulated : nat;
}.

(** [try_write]: whether the segment is finished. *)
Definition try_write (d : dests) (s : segment) : bool * dests * segment :=
  let fill n := replicate n (seg_filler s) in
  match seg_lane s with
  | LaneTMS =>
      let room := if (tdi_room d <? tms_room d)%nat then tdi_room d else tms_room d in
      let to_write := Nat.min room (length (seg_bits s)) in
      let rest := drop to_write (seg_bits s) in
      ((length rest =? 0)%nat,
       mkDests (tms_written d ++ take to_write (seg_bits s)) (room - to_write)
         (tdi_written d ++ fill to_write) (tdi_room d - to_write) (accumulated d + to_write),
       mkSegment LaneTMS rest (seg_filler s))
  | LaneTDI =>
      let room := if (tms_room d <? tdi_room d)%nat then tms_room d else tdi_room d in
      let to_write := Nat.min room (length (seg_bits s)) in
      let rest := drop to_write (seg_bits s) in
      ((length rest =? 0)%nat,
       mkDests (tms_written d ++ fill to_write) (tms_room d - to_write)
         (tdi_written d ++ take to_write (seg_bits s)) (room - to_write) (accumulated d + to_write),
       mkSegment LaneTDI rest (seg_filler s))
  end.

Abbreviation JtagTx := (Tx JtagAction JtagOut).

(** The driver: the queue, the places of the two generators (what is left of the
    action and of the transaction that is pulled, the TDO bits of the action that
    is answered), the execution gate, and the resolved transactions. *)
Record PullJtag := mkPullJtag {
  scheduled : list JtagTx;
  in_progress : list JtagTx;
  segments : list segment;
  actions : list JtagAction;
  got : list bool;
  m_exe_gate : option Gate;
  resolved : list JtagTx;
}.

Definition make_driver (gate : option Gate) : PullJtag := mkPullJtag [] [] [] [] [] gate [].

(** [Execute] up to the wait. *)
Definition Execute (s : PullJtag) (tx : JtagTx) : PullJtag :=
  mkPullJtag (scheduled s ++ [tx]) (in_progress s) (segments s) (actions s) (got s)
    (AddPending <$> m_exe_gate s) (resolved s).

Definition at_place (s : PullJtag) (segs : list segment) (acts : list JtagAction) : PullJtag :=
  mkPullJtag (scheduled s) (in_progress s) segs acts (got s) (m_exe_gate s) (resolved s).

(** The actions that [Incomplete] ranges over. *)
Definition incomplete_actions (tx : JtagTx) : list JtagAction := drop (m_first_incomplete tx) (ins tx).

(** [GenerateTMSTDI] until it yields. *)
Fixpoint GenerateTMSTDI (fuel : nat) (s : PullJtag) (d : dests) : option (dests * PullJtag) :=
  match fuel with
  | O => None
  | S fuel =>
      match segments s, actions s, scheduled s with
      | seg :: segs, acts, _ =>
          let '(finished, d, seg) := try_write d seg in
          if (finished : bool) then GenerateTMSTDI fuel (at_place s segs acts) d
          else Some (d, at_place s (seg :: segs) acts)
      | [], a :: acts, _ => GenerateTMSTDI fuel (at_place s (action_segments a) acts) d
      | [], [], tx :: q =>
          GenerateTMSTDI fuel
            (mkPullJtag q (in_progress s ++ [tx]) [] (incomplete_actions tx) (got s)
               (m_exe_gate s) (resolved s)) d
      | [], [], [] => Some (d, s)
      end
  end.

(** Each action has at most two segments. *)
Definition pull_fuel (s : PullJtag) : nat :=
  S (length (segments s) + 3 * length (actions s)
     + sum_list_with (λ tx, 1 + 3 * length (incomplete_actions tx)) (scheduled s)).

Definition PullTMSTDI (s : PullJtag) (tms_bits tdi_bits : nat) : option (dests * PullJtag) :=
  GenerateTMSTDI (pull_fuel s) s (mkDests [] tms_bits [] tdi_bits 0).

(** ** TDO *)

Definition action_bits (a : JtagAction) : list bool :=
  match a with PutTMS bits | PutTDI bits _ | PutTDIGetTDO bits _ => bits end.

(** The result of an action after some of its clocks: the number of bits put, and
    the buffer of the TDO bits written up to there. *)
Definition action_out (a : JtagAction) (tdo : list bool) (old : JtagOut) : JtagOut :=
  match a with
  | PutTMS _ | PutTDI _ _ => PutOut (length tdo)
  | PutTDIGetTDO _ _ =>
      let buffer := match old with PutGetOut _ b => b | PutOut _ => [] end in
      PutGetOut (length tdo) (tdo ++ drop (length tdo) buffer)
  end.

(** The transactions in progress and the other things the TDO side works on. *)
Definition with_progress (s : PullJtag) (txs : list JtagTx) (tdo : list bool) : PullJtag :=
  mkPullJtag (scheduled s) txs (segments s) (actions s) tdo (m_exe_gate s) (resolved s).

(** [RemovePending], [PrepareToResolve] and [Resolve]. *)
Definition resolve (s : PullJtag) (tx : JtagTx) (rest : list JtagTx) : PullJtag :=
  mkPullJtag (scheduled s) rest (segments s) (actions s) [] (RemovePending <$> m_exe_gate s)
    (resolved s ++ [tx]).

(** [GenerateTDO] until it yields; the number of bits consumed. *)
Fixpoint GenerateTDO (fuel : nat) (s : PullJtag) (source : list bool) (consumed : nat)
    : option (nat * PullJtag) :=
  match fuel with
  | O => None
  | S fuel =>
      match in_progress s with
      | [] => Some (consumed, s)
      | tx :: rest =>
          let pos := m_first_incomplete tx in
          match ins tx !! pos with
          | None => GenerateTDO fuel (resolve s tx rest) source consumed
          | Some a =>
              let this_time := Nat.min (length (action_bits a) - length (got s)) (length source) in
              let tdo := got s ++ take this_time source in
              let old := default (PutOut 0) (outs tx !! pos) in
              let tx := set_out tx pos (action_out a tdo old) in
              let source := drop this_time source in
              if (length tdo =? length (action_bits a))%nat
              then GenerateTDO fuel (with_progress s (Done tx pos :: rest) []) source (consumed + this_time)
              else Some (consumed + this_time, with_progress s (tx :: rest) tdo)
          end
      end
  end.

Definition push_fuel (s : PullJtag) : nat :=
  S (sum_list_with (λ tx, 1 + length (incomplete_actions tx)) (in_progress s)).

Definition PushTDO (s : PullJtag) (source : list bool) : option (nat * PullJtag) :=
  GenerateTDO (push_fuel s) s source 0.

(** [Terminate]: every transaction is resolved as it is. *)
Definition Terminate (s : PullJtag) : PullJtag :=
  mkPullJtag [] [] (segments s) (actions s) (got s) (ExecutionGate.Terminate <$> m_exe_gate s)
    (resolved s ++ in_progress s ++ scheduled s).

(** ** What is on the wires *)

(** The TMS and TDI bits of a segment, clock by clock. *)
Definition segment_clocks (s : segment) : list (bool * bool) :=
  match seg_lane s with
  | LaneTMS => (λ b, (b, seg_filler s)) <$> seg_bits s
  | LaneTDI => (λ b, (seg_filler s, b)) <$> seg_bits s
  end.

Definition action_clocks (a : JtagAction) : list (bool * bool) := action_segments a ≫= segment_clocks.

Definition item_clocks (acts : list JtagAction) : list (bool * bool) := acts ≫= action_clocks.

(** All the clocks that the driver still has to deliver. *)
Definition clocks (s : PullJtag) : list (bool * bool) :=
  (segments s ≫= segment_clocks) ++ item_clocks (actions s)
  ++ (scheduled s ≫= λ tx, item_clocks (incomplete_actions tx)).

Lemma fmap_pair_fst (f : bool) (l : list bool) : fst <$> ((λ b, (f, b)) <$> l) = replicate (length l) f.
Proof. induction l as [|x l IH]; [done|]. cbn. by rewrite <-IH. Qed.

Lemma fmap_pair_snd (l : list bool) (f : bool) : snd <$> ((λ b, (f, b)) <$> l) = l.
Proof. induction l as [|x l IH]; [done|]. cbn. by f_equal. Qed.

(** The clocks agree with the TMS bits that the driver of the chain counts on. *)
Lemma action_clocks_tms a : fst <$> action_clocks a = tms_sequence a.
Proof.
  assert (Htdi : ∀ bits last, fst <$> ((if (length bits =? 0)%nat then [] else
      if negb last then [mkSegment LaneTDI bits false]
      else [mkSegment LaneTDI (take (length bits - 1) bits) false;
            mkSegment LaneTDI (drop (length bits - 1) bits) true]) ≫= segment_clocks)
    = match length bits with O => [] | S n => replicate n false ++ [last] end).
  { intros bits last. destruct (length bits) as [|n] eqn:E; [done|]. cbn [Nat.eqb].
    destruct last; cbn [negb mbind list_bind segment_clocks seg_lane seg_bits seg_filler];
      rewrite !app_nil_r, ?fmap_app, !fmap_pair_fst.
    - rewrite length_take, length_drop, E. replace (S n - (S n - 1)) with 1 by lia.
      replace (Nat.min (S n - 1) (S n)) with n by lia. done.
    - rewrite E. cbn [replicate]. apply replicate_cons_app. }
  destruct a as [bits|bits last|bits last]; unfold action_clocks, action_segments; cbn [tms_sequence].
  - cbn. rewrite app_nil_r, <-list_fmap_compose. cbn. apply list_fmap_id.
  - apply Htdi.
  - apply Htdi.
Qed.

Lemma item_clocks_tms acts : fst <$> item_clocks acts = tms_sequences acts.
Proof.
  induction acts as [|a acts IH]; [done|]. unfold item_clocks, tms_sequences in *. cbn [mbind list_bind].
  by rewrite fmap_app, IH, action_clocks_tms.
Qed.

(** ... and carry the TDI bits of the action, one clock for each of its bits. *)
Lemma length_action_clocks a : length (action_clocks a) = length (action_bits a).
Proof.
  rewrite <-(length_fmap fst), action_clocks_tms. destruct a as [b|b l|b l]; cbn; [done| |];
    destruct (length b); [done| |done|]; rewrite length_app, length_replicate; cbn; lia.
Qed.

Lemma action_clocks_tdi a :
  snd <$> action_clocks a
  = match a with PutTMS bits => replicate (length bits) false | _ => action_bits a end.
Proof.
  assert (Htdi : ∀ bits last, snd <$> ((if (length bits =? 0)%nat then [] else
      if negb last then [mkSegment LaneTDI bits false]
      else [mkSegment LaneTDI (take (length bits - 1) bits) false;
            mkSegment LaneTDI (drop (length bits - 1) bits) true]) ≫= segment_clocks) = bits).
  { intros bits last. destruct (length bits) as [|n] eqn:E; [by destruct bits|]. cbn [Nat.eqb].
    destruct last; cbn [negb mbind list_bind segment_clocks seg_lane seg_bits seg_filler];
      rewrite !app_nil_r, ?fmap_app, !fmap_pair_snd; [apply take_drop|done]. }
  destruct a as [bits|bits last|bits last]; unfold action_clocks, action_segments; cbn [action_bits].
  - cbn. rewrite app_nil_r. clear. induction bits as [|x l IH]; [done|]. cbn. by rewrite <-IH.
  - apply Htdi.
  - apply Htdi.
Qed.

(** *** Pulling *)

Definition room (d : dests) : nat := Nat.min (tms_room d) (tdi_room d).

(** What a call has written, clock by clock; the lanes are filled evenly. *)
Definition dest_clocks (d : dests) : list (bool * bool) := zip (tms_written d) (tdi_written d).

Definition even_lanes (d : dests) : Prop :=
  length (tms_written d) = accumulated d ∧ length (tdi_written d) = accumulated d.

Lemma zip_filler_r (f : bool) (l : list bool) : zip l (replicate (length l) f) = (λ b, (b, f)) <$> l.
Proof. induction l as [|x l IH]; [done|]. cbn. by f_equal. Qed.

Lemma zip_filler_l (f : bool) (l : list bool) : zip (replicate (length l) f) l = (λ b, (f, b)) <$> l.
Proof. induction l as [|x l IH]; [done|]. cbn. by f_equal. Qed.

Lemma zip_app {A B} (l1 l2 : list A) (k1 k2 : list B) :
  length l1 = length k1 → zip (l1 ++ l2) (k1 ++ k2) = zip l1 k1 ++ zip l2 k2.
Proof. intros H. apply zip_with_app. done. Qed.

(** [d'] is [d] with the first clocks of [l] written, as many as there is room. *)
Record writes (d d' : dests) (l rest : list (bool * bool)) : Prop := {
  w_even : even_lanes d';
  w_clocks : dest_clocks d' = dest_clocks d ++ take (room d) l;
  w_rest : rest = drop (room d) l;
  w_room : room d' = room d - length l;
  w_count : accumulated d' = accumulated d + Nat.min (room d) (length l);
}.

Lemma writes_refl d l : even_lanes d → room d = 0 ∨ l = [] → writes d d l l.
Proof.
  intros Hd Hl. split; [done|..].
  - destruct Hl as [->| ->]; [|rewrite take_nil]; by rewrite app_nil_r.
  - destruct Hl as [->| ->]; [done|by rewrite drop_nil].
  - destruct Hl as [->| ->]; cbn; lia.
  - destruct Hl as [->| ->]; cbn; lia.
Qed.

Lemma writes_trans d d1 d2 l1 l2 rest :
  writes d d1 l1 [] → writes d1 d2 l2 rest → writes d d2 (l1 ++ l2) rest.
Proof.
  intros [He1 Hc1 Hr1 Hm1 Hn1] [He2 Hc2 Hr2 Hm2 Hn2].
  assert (Hlen : length l1 ≤ room d) by (apply (f_equal length) in Hr1; rewrite length_drop in Hr1; cbn in Hr1; lia).
  split; [done|..].
  - rewrite Hc2, Hc1, <-app_assoc, take_app, Hm1. done.
  - rewrite Hr2, drop_app, Hm1. by rewrite (drop_ge l1) by lia.
  - rewrite Hm2, Hm1, length_app. lia.
  - rewrite Hn2, Hn1, Hm1, length_app. lia.
Qed.

(** A call that stops inside [l1] stops there for whatever follows. *)
Lemma writes_stop d d1 l1 l2 rest :
  writes d d1 l1 rest → rest ≠ [] → writes d d1 (l1 ++ l2) (rest ++ l2).
Proof.
  intros [He1 Hc1 Hr1 Hm1 Hn1] Hne.
  assert (Hlen : room d < length l1).
  { destruct (decide (room d < length l1)) as [|]; [done|]. by rewrite drop_ge in Hr1 by lia. }
  split; [done|..].
  - rewrite Hc1, take_app_le by lia. done.
  - rewrite Hr1, drop_app_le by lia. done.
  - rewrite Hm1, length_app. lia.
  - rewrite Hn1, length_app. lia.
Qed.

Lemma take_min {A} n (l : list A) : take (Nat.min n (length l)) l = take n l.
Proof. destruct (decide (n ≤ length l)); [by rewrite Nat.min_l|rewrite !take_ge by lia; done]. Qed.

Lemma drop_min {A} n (l : list A) : drop (Nat.min n (length l)) l = drop n l.
Proof. destruct (decide (n ≤ length l)); [by rewrite Nat.min_l|rewrite !drop_ge by lia; done]. Qed.

Lemma try_write_spec d s :
  even_lanes d →
  ∃ d' s', try_write d s = ((length (seg_bits s) <=? room d)%nat, d', s')
    ∧ writes d d' (segment_clocks s) (segment_clocks s').
Proof.
  intros [Ht Hi]. unfold try_write.
  assert (Hb : ∀ n : nat, (length (drop n (seg_bits s)) =? 0)%nat = (length (seg_bits s) <=? n)%nat).
  { intros n. rewrite length_drop. destruct (Nat.leb_spec (length (seg_bits s)) n);
      [apply Nat.eqb_eq|apply Nat.eqb_neq]; lia. }
  destruct s as [[] bits f]; cbn [seg_lane seg_bits seg_filler] in *;
    [replace (if (_ <? _)%nat then _ else _) with (room d)
       by (unfold room; destruct (Nat.ltb_spec (tdi_room d) (tms_room d)); lia)
    |replace (if (_ <? _)%nat then _ else _) with (room d)
       by (unfold room; destruct (Nat.ltb_spec (tms_room d) (tdi_room d)); lia)];
    rewrite drop_min, Hb, take_min; eexists _, _; (split; [done|]);
    (split; unfold even_lanes, dest_clocks, segment_clocks; cbn [seg_lane seg_bits seg_filler
       tms_written tdi_written tms_room tdi_room accumulated]).
  1,6: rewrite !length_app, length_replicate, length_take; lia.
  1,5: rewrite zip_app, <-fmap_take by lia; f_equal; rewrite <-length_take;
    apply zip_filler_r || apply zip_filler_l.
  1,4: by rewrite fmap_drop.
  1,3: unfold room; cbn; rewrite length_fmap; lia.
  all: by rewrite length_fmap.
Qed.

Lemma GenerateTMSTDI_spec fuel : ∀ s d,
  pull_fuel s ≤ fuel → even_lanes d →
  ∃ d' s', GenerateTMSTDI fuel s d = Some (d', s')
    ∧ writes d d' (clocks s) (clocks s')
    ∧ in_progress s' ++ scheduled s' = in_progress s ++ scheduled s
    ∧ got s' = got s ∧ m_exe_gate s' = m_exe_gate s ∧ resolved s' = resolved s.
Proof.
  induction fuel as [|fuel IH]; intros [sch pr segs acts g gate res] d Hf Hd; [unfold pull_fuel in Hf; lia|].
  unfold pull_fuel in Hf; cbn in Hf. cbn [GenerateTMSTDI segments actions scheduled].
  destruct segs as [|seg segs]; [destruct acts as [|a acts]; [destruct sch as [|tx q]|]|].
  - eexists _, _. split; [done|]. split_and!; [|done..]. apply writes_refl; [done|by right].
  - edestruct (IH (mkPullJtag q (pr ++ [tx]) [] (incomplete_actions tx) g gate res)) as (d' & s' & He & Hw & Hq & Hr);
      [unfold pull_fuel; cbn in *; lia|done|]. cbn in *. rewrite He. eexists _, _. split; [done|].
    split_and!; [done|by rewrite Hq, <-app_assoc|apply Hr..].
  - edestruct (IH (mkPullJtag sch pr (action_segments a) acts g gate res)) as (d' & s' & He & Hw & Hq & Hr).
    { unfold pull_fuel; cbn in *. enough (length (action_segments a) ≤ 2) by lia.
      destruct a as [|b l|b l]; cbn; [lia| |]; destruct (_ =? _)%nat, l; cbn; lia. }
    { done. }
    unfold at_place; cbn. rewrite He. eexists _, _. split; [done|].
    split_and!; [|done|apply Hr..]. unfold clocks in *; cbn in *. rewrite <-app_assoc. apply Hw.
  - destruct (try_write_spec d seg Hd) as (d1 & seg' & Ht & Hw1). rewrite Ht.
    destruct (Nat.leb_spec (length (seg_bits seg)) (room d)) as [Hle|Hgt].
    + edestruct (IH (mkPullJtag sch pr segs acts g gate res)) as (d' & s' & He & Hw & Hq & Hr);
        [unfold pull_fuel; cbn in *; lia|apply Hw1|].
      unfold at_place; cbn. rewrite He. eexists _, _. split; [done|]. split_and!; [|done|apply Hr..].
      unfold clocks at 1; cbn. rewrite <-app_assoc. eapply writes_trans; [|exact Hw].
      replace [] with (segment_clocks seg'); [done|]. rewrite (w_rest _ _ _ _ Hw1). apply drop_ge.
      unfold segment_clocks. destruct (seg_lane seg); by rewrite length_fmap.
    + eexists _, _. split; [done|]. split_and!; [|done..]. unfold clocks, at_place; cbn.
      rewrite <-!app_assoc. apply writes_stop; [done|]. rewrite (w_rest _ _ _ _ Hw1).
      intros Hnil. apply (f_equal length) in Hnil. rewrite length_drop in Hnil.
      unfold segment_clocks in Hnil. destruct (seg_lane seg); rewrite length_fmap in Hnil; cbn in Hnil; lia.
Qed.

(** *** Pushing *)

(** The results of actions that are answered with the bits [tdo]. *)
Fixpoint answers (acts : list JtagAction) (tdo : list bool) : list JtagOut :=
  match acts with
  | [] => []
  | a :: acts =>
      let n := length (action_bits a) in
      match a with
      | PutTMS _ | PutTDI _ _ => PutOut n
      | PutTDIGetTDO _ _ => PutGetOut n (take n tdo)
      end :: answers acts (drop n tdo)
  end.

Definition num_bits (acts : list JtagAction) : nat := sum_list_with (λ a, length (action_bits a)) acts.

Lemma length_item_clocks acts : length (item_clocks acts) = num_bits acts.
Proof.
  induction acts as [|a acts IH]; [done|]. unfold item_clocks in *. cbn [mbind list_bind].
  rewrite length_app, IH, length_action_clocks. done.
Qed.

(** A transaction as it is submitted: nothing done, and room for the bits of each
    action in its result. *)
Definition fits (a : JtagAction) (o : JtagOut) : Prop :=
  match a, o with
  | PutTMS _, PutOut _ | PutTDI _ _, PutOut _ => True
  | PutTDIGetTDO bits _, PutGetOut _ buffer => length buffer = length bits
  | _, _ => False
  end.

Definition submitted (tx : JtagTx) : Prop :=
  m_first_incomplete tx = 0 ∧ had_allocation_failure tx = false ∧ Forall2 fits (ins tx) (outs tx).

Definition answered (tx : JtagTx) (tdo : list bool) : JtagTx :=
  mkTx (ins tx) (answers (ins tx) tdo) (had_allocation_failure tx) (length (ins tx)) (m_error_buffer tx).

Lemma action_out_done a o tdo :
  fits a o → length tdo = length (action_bits a) →
  action_out a tdo o
  = match a with
    | PutTMS _ | PutTDI _ _ => PutOut (length (action_bits a))
    | PutTDIGetTDO _ _ => PutGetOut (length (action_bits a)) tdo
    end.
Proof.
  intros Hf Hl. destruct a, o; try done; cbn in *; rewrite ?Hl; try done.
  rewrite drop_ge by lia. by rewrite app_nil_r.
Qed.

(** A result is written over by later bits of the same action. *)
Lemma action_out_again a t1 t2 o : action_out a (t1 ++ t2) (action_out a t1 o) = action_out a (t1 ++ t2) o.
Proof.
  destruct a; try done. cbn. f_equal. f_equal. rewrite length_app. rewrite drop_app, drop_drop.
  rewrite drop_ge by lia. cbn. f_equal. lia.
Qed.

Lemma GenerateTDO_S fuel s source consumed :
  GenerateTDO (S fuel) s source consumed =
  match in_progress s with
  | [] => Some (consumed, s)
  | tx :: rest =>
      let pos := m_first_incomplete tx in
      match ins tx !! pos with
      | None => GenerateTDO fuel (resolve s tx rest) source consumed
      | Some a =>
          let this_time := Nat.min (length (action_bits a) - length (got s)) (length source) in
          let tdo := got s ++ take this_time source in
          let tx := set_out tx pos (action_out a tdo (default (PutOut 0) (outs tx !! pos))) in
          if (length tdo =? length (action_bits a))%nat
          then GenerateTDO fuel (with_progress s (Done tx pos :: rest) []) (drop this_time source)
                 (consumed + this_time)
          else Some (consumed + this_time, with_progress s (tx :: rest) tdo)
      end
  end.
Proof. done. Qed.

(** Answering a transaction from action [length pre] on. *)
Lemma GenerateTDO_tx acts : ∀ pre opre os s tx rest fuel source k,
  in_progress s = tx :: rest → got s = [] →
  ins tx = pre ++ acts → outs tx = opre ++ os → length opre = length pre →
  m_first_incomplete tx = length pre → Forall2 fits acts os → num_bits acts ≤ length source →
  GenerateTDO (S (length acts) + fuel) s source k
  = GenerateTDO fuel
      (resolve s (mkTx (ins tx) (opre ++ answers acts source) (had_allocation_failure tx)
                    (length (ins tx)) (m_error_buffer tx)) rest)
      (drop (num_bits acts) source) (k + num_bits acts).
Proof.
  induction acts as [|a acts IH]; intros pre opre os s tx rest fuel source k Hp Hg Hi Ho Hl Hm Hf Hn;
    rewrite Nat.add_succ_l, GenerateTDO_S, Hp, Hm, Hi; cbv zeta.
  - inversion Hf; subst os. rewrite lookup_ge_None_2 by (rewrite app_nil_r; lia). cbn [length Nat.add].
    cbn [num_bits sum_list_with answers drop]. rewrite Nat.add_0_r, <-Ho. repeat f_equal.
    destruct tx; cbn in *. subst. by rewrite app_nil_r.
  - inversion Hf as [|? o ? os' Hfa Hfs]; subst. rewrite lookup_app_r, Nat.sub_diag by done. cbn [lookup list_lookup].
    cbn [num_bits sum_list_with] in Hn. fold (num_bits acts) in Hn.
    rewrite Hg, Ho, Nat.sub_0_r, Nat.min_l by (cbn [length]; lia). cbn [app].
    rewrite length_take, Nat.min_l, Nat.eqb_refl by lia.
    rewrite lookup_app_r by lia. rewrite Hl, Nat.sub_diag. cbn [lookup list_lookup default].
    rewrite action_out_done; [|done|rewrite length_take; lia].
    set (o' := match a with PutTMS _ => _ | _ => _ end).
    change (length (a :: acts)) with (S (length acts)).
    rewrite (IH (pre ++ [a]) (opre ++ [o']) os' _ (Done (set_out tx (length pre) o') (length pre)) rest).
    + cbn [answers num_bits sum_list_with]. fold (num_bits acts). rewrite drop_drop, Nat.add_assoc.
      unfold resolve. cbn. rewrite Hi, <-app_assoc. done.
    + done.
    + done.
    + cbn. by rewrite Hi, <-app_assoc.
    + cbn. rewrite Ho, <-Hl, insert_app_r_alt, Nat.sub_diag by lia. cbn. by rewrite <-app_assoc.
    + rewrite !length_app. cbn. lia.
    + rewrite (Done_here _ _ a); [rewrite length_app; cbn; lia|]. cbn. rewrite Hi.
      rewrite lookup_app_r, Nat.sub_diag by done. done.
    + done.
    + rewrite length_drop. lia.
Qed.

(** The bits of all the transactions, and what they become. *)
Definition tx_bits (tx : JtagTx) : nat := num_bits (ins tx).

Fixpoint answered_all (txs : list JtagTx) (tdo : list bool) : list JtagTx :=
  match txs with
  | [] => []
  | tx :: txs => answered tx tdo :: answered_all txs (drop (tx_bits tx) tdo)
  end.

Lemma GenerateTDO_all txs : ∀ s fuel source k,
  in_progress s = txs → got s = [] → Forall submitted txs →
  sum_list_with tx_bits txs ≤ length source → push_fuel s ≤ fuel →
  GenerateTDO fuel s source k
  = Some (k + sum_list_with tx_bits txs,
      mkPullJtag (scheduled s) [] (segments s) (actions s) []
        (removed (length txs) (m_exe_gate s)) (resolved s ++ answered_all txs source)).
Proof.
  induction txs as [|tx txs IH]; intros s fuel source k Hp Hg Hsub Hn Hf;
    unfold push_fuel in Hf; rewrite Hp in Hf; cbn in Hf.
  - destruct fuel as [|fuel]; [lia|]. cbn [GenerateTDO]. rewrite Hp. cbn. rewrite Nat.add_0_r, app_nil_r.
    destruct s; cbn in *; subst. done.
  - apply Forall_cons in Hsub as [(H0 & Ha & Hfit) Hsub]. cbn in Hn.
    assert (Hi : incomplete_actions tx = ins tx) by (unfold incomplete_actions; by rewrite H0).
    rewrite Hi in Hf.
    replace fuel with (S (length (ins tx)) + (fuel - S (length (ins tx)))) by lia.
    rewrite (GenerateTDO_tx (ins tx) [] [] (outs tx) s tx txs) by (done || unfold tx_bits in Hn; lia).
    rewrite IH; try done.
    + cbn. rewrite Nat.add_assoc, <-app_assoc. done.
    + rewrite length_drop. unfold tx_bits in *. lia.
    + unfold push_fuel. cbn. lia.
Qed.

(** *** Pushing in pieces *)

Definition bits_left (tx : JtagTx) : nat := num_bits (incomplete_actions tx).

Definition remaining (s : PullJtag) : nat := sum_list_with bits_left (in_progress s) - length (got s).

(** The bits that were kept belong to the action that is answered. *)
Definition got_ok (s : PullJtag) : Prop :=
  match in_progress s with
  | [] => got s = []
  | tx :: _ =>
      match ins tx !! m_first_incomplete tx with
      | Some a => length (got s) ≤ length (action_bits a)
      | None => got s = []
      end
  end.

Lemma got_nil_ok s : got s = [] → got_ok s.
Proof. intros H. unfold got_ok. rewrite H. destruct (in_progress s); [done|]. case_match; cbn; [lia|done]. Qed.

Lemma incomplete_cons tx a :
  ins tx !! m_first_incomplete tx = Some a →
  incomplete_actions tx = a :: incomplete_actions (Done tx (m_first_incomplete tx)).
Proof. intros Ha. unfold incomplete_actions. rewrite (Done_here _ _ a Ha). by apply drop_S. Qed.

Lemma incomplete_set_out tx p o : incomplete_actions (Done (set_out tx p o) p) = incomplete_actions (Done tx p).
Proof. done. Qed.

Lemma bits_left_set_out tx p o : bits_left (set_out tx p o) = bits_left tx.
Proof. done. Qed.

Lemma bits_left_cons tx a :
  ins tx !! m_first_incomplete tx = Some a →
  bits_left tx = length (action_bits a) + bits_left (Done tx (m_first_incomplete tx)).
Proof. intros Ha. unfold bits_left. by rewrite (incomplete_cons _ _ Ha). Qed.

#[local] Arguments incomplete_actions : simpl never.
#[local] Arguments bits_left : simpl never.
#[local] Arguments Done : simpl never.

Lemma incomplete_nil tx : ins tx !! m_first_incomplete tx = None → incomplete_actions tx = [].
Proof. intros Ha. apply drop_ge. by apply lookup_ge_None. Qed.

Lemma GenerateTDO_total fuel : ∀ s source k,
  push_fuel s ≤ fuel → got_ok s →
  ∃ n s', GenerateTDO fuel s source k = Some (k + n, s')
    ∧ got_ok s' ∧ n + remaining s' = remaining s ∧ n ≤ length source
    ∧ (n = length source ∨ in_progress s' = []).
Proof.
  induction fuel as [|fuel IH]; intros s source k Hf Hg; [unfold push_fuel in Hf; lia|].
  rewrite GenerateTDO_S. unfold push_fuel in Hf. unfold got_ok in Hg. unfold remaining.
  destruct (in_progress s) as [|tx rest] eqn:Hp.
  - exists 0, s. rewrite Nat.add_0_r, Hp. split; [done|]. unfold got_ok. rewrite Hp. cbn. split_and!; [done|lia|lia|by right].
  - cbn [sum_list_with] in *. cbv zeta. destruct (ins tx !! m_first_incomplete tx) as [a|] eqn:Ha.
    + pose proof (incomplete_cons _ _ Ha) as Hi. pose proof (bits_left_cons _ _ Ha) as Hb.
      rewrite Hi in Hf. cbn [length] in Hf.
      set (n := Nat.min (length (action_bits a) - length (got s)) (length source)).
      set (o := action_out a _ _). rewrite length_app, length_take.
      destruct (Nat.eqb_spec (length (got s) + Nat.min n (length source)) (length (action_bits a))) as [He|He].
      * destruct (IH (with_progress s (Done (set_out tx (m_first_incomplete tx) o) (m_first_incomplete tx) :: rest) [])
          (drop n source) (k + n)) as (m & s' & Hs & Hok & Hr & Hm & Hd).
        { unfold push_fuel. cbn [in_progress with_progress sum_list_with]. rewrite incomplete_set_out. lia. } { by apply got_nil_ok. }
        rewrite length_drop in Hm, Hd. exists (n + m), s'. rewrite Nat.add_assoc. split_and!; [done|done| |lia|].
        -- unfold remaining in Hr. cbn in Hr. unfold bits_left at 2 in Hr. rewrite incomplete_set_out in Hr.
           fold (bits_left (Done tx (m_first_incomplete tx))) in Hr. lia.
        -- destruct Hd; [left; lia|by right].
      * eexists n, _. split; [done|]. unfold got_ok; cbn. rewrite Ha, length_app, length_take, bits_left_set_out.
        split_and!; [lia|lia|lia|left; lia].
    + pose proof (incomplete_nil _ Ha) as Hi.
      destruct (IH (resolve s tx rest) source k) as (m & s' & Hs & Hok & Hr & Hm & Hd).
      { unfold push_fuel. cbn [in_progress resolve]. lia. } { by apply got_nil_ok. }
      exists m, s'. split_and!; [done|done| |done|done]. unfold remaining in Hr. cbn in Hr.
      assert (bits_left tx = 0) as -> by (unfold bits_left; by rewrite Hi). rewrite Hg. cbn. lia.
Qed.

Lemma GenerateTDO_more fuel : ∀ fuel' s source k r,
  fuel ≤ fuel' → GenerateTDO fuel s source k = Some r → GenerateTDO fuel' s source k = Some r.
Proof.
  induction fuel as [|fuel IH]; intros fuel' s source k r Hle H; [done|]. destruct fuel' as [|fuel']; [lia|].
  rewrite GenerateTDO_S in H |- *. cbv zeta in *. destruct (in_progress s) as [|tx rest]; [done|].
  destruct (_ !! _) as [a|]; [|apply IH; [lia|done]]. destruct (_ =? _)%nat; [apply IH; [lia|done]|done].
Qed.

Lemma set_out_again (tx : JtagTx) pos a t1 t2 o :
  outs tx !! pos = o →
  set_out (set_out tx pos (action_out a t1 (default (PutOut 0) o))) pos
    (action_out a (t1 ++ t2)
       (default (PutOut 0) (<[pos := action_out a t1 (default (PutOut 0) o)]> (outs tx) !! pos)))
  = set_out tx pos (action_out a (t1 ++ t2) (default (PutOut 0) o)).
Proof.
  intros <-. unfold set_out; cbn. rewrite list_insert_insert_eq. f_equal.
  destruct (outs tx !! pos) as [o|] eqn:Ho.
  - rewrite list_lookup_insert_eq by (by eapply lookup_lt_Some). cbn. by rewrite action_out_again.
  - apply lookup_ge_None in Ho. by rewrite !list_insert_ge by done.
Qed.

(** The count starts anywhere. *)
Lemma GenerateTDO_count fuel : ∀ s source k c n s',
  GenerateTDO fuel s source k = Some (n, s') → GenerateTDO fuel s source (c + k) = Some (c + n, s').
Proof.
  induction fuel as [|fuel IH]; intros s source k c n s' H; [done|].
  rewrite GenerateTDO_S in H |- *. cbv zeta in *.
  destruct (in_progress s) as [|tx rest]; [by simplify_eq|].
  destruct (_ !! _) as [a|]; [|by apply IH]. rewrite <-Nat.add_assoc.
  destruct (_ =? _)%nat; [by apply IH|]. by simplify_eq.
Qed.

(** More transactions behind those in progress, and another side to pull. *)
Definition behind (s : PullJtag) (sched more : list JtagTx) (segs : list segment)
    (acts : list JtagAction) : PullJtag :=
  mkPullJtag sched (in_progress s ++ more) segs acts (got s) (m_exe_gate s) (resolved s).

(** Two pushes are one push of all the bits, also when transactions were taken from
    the queue between them. *)
Lemma GenerateTDO_behind fuel : ∀ s b1 b2 k k1 s1 fuel2 n s2 sched more segs acts,
  got_ok s →
  GenerateTDO fuel s b1 k = Some (k1, s1) → k1 = k + length b1 →
  GenerateTDO fuel2 (behind s1 sched more segs acts) b2 k1 = Some (n, s2) →
  GenerateTDO (fuel + fuel2) (behind s sched more segs acts) (b1 ++ b2) k = Some (n, s2).
Proof.
  induction fuel as [|fuel IH]; intros s b1 b2 k k1 s1 fuel2 n s2 sched more segs acts Hok H1 Hk H2; [done|].
  rewrite GenerateTDO_S in H1. cbn [Nat.add]. cbv zeta in *.
  destruct (in_progress s) as [|tx rest] eqn:Hp.
  { injection H1 as <- <-. assert (b1 = []) as -> by (apply nil_length_inv; lia).
    eapply (GenerateTDO_more fuel2); [lia|done]. }
  assert (Hpb : in_progress (behind s sched more segs acts) = tx :: rest ++ more)
    by (cbn; by rewrite Hp).
  destruct (ins tx !! m_first_incomplete tx) as [a|] eqn:Ha.
  2: { rewrite GenerateTDO_S, Hpb; cbv zeta; rewrite Ha.
       apply (IH (resolve s tx rest) b1 b2 k k1 s1 fuel2 n s2 sched more segs acts);
         [by apply got_nil_ok|done..]. }
  set (n1 := Nat.min (length (action_bits a) - length (got s)) (length b1)) in *.
  assert (Hg : length (got s) ≤ length (action_bits a)) by (unfold got_ok in Hok; by rewrite Hp, Ha in Hok).
  rewrite length_app, length_take in H1.
  destruct (Nat.eqb_spec (length (got s) + Nat.min n1 (length b1)) (length (action_bits a))) as [He|He].
  - rewrite GenerateTDO_S, Hpb; cbv zeta; rewrite Ha. cbn [behind got].
    replace (Nat.min (length (action_bits a) - length (got s)) (length (b1 ++ b2))) with n1
      by (rewrite length_app; lia).
    rewrite take_app_le, drop_app_le, length_app, length_take by lia.
    destruct (Nat.eqb_spec (length (got s) + Nat.min n1 (length b1)) (length (action_bits a))); [|done].
    refine (IH _ _ b2 _ k1 s1 fuel2 n s2 sched more segs acts _ H1 _ H2);
      [by apply got_nil_ok|rewrite length_drop; lia].
  - injection H1 as <- <-. assert (Hn1 : n1 = length b1) by lia. clear IH.
    destruct fuel2 as [|fuel2]; [done|]. apply (GenerateTDO_more (S fuel2)); [lia|].
    rewrite GenerateTDO_S in H2 |- *. cbn [in_progress behind with_progress got app] in H2.
    rewrite Hpb. cbv zeta in *. cbn [ins set_out m_first_incomplete outs behind got] in *. rewrite Ha in *.
    rewrite Hn1, take_ge in H2 by lia.
    set (n2 := Nat.min (length (action_bits a) - _) (length b2)) in *.
    replace (Nat.min (length (action_bits a) - length (got s)) (length (b1 ++ b2))) with (length b1 + n2)
      by (subst n2; rewrite !length_app; lia).
    rewrite take_app_add, drop_app_add, app_assoc, Nat.add_assoc.
    rewrite set_out_again in H2 by done. exact H2.
Qed.

Lemma behind_nothing s : behind s (scheduled s) [] (segments s) (actions s) = s.
Proof. unfold behind. rewrite app_nil_r. by destruct s. Qed.

(** The side that is pulled does not change. *)
Lemma GenerateTDO_sides fuel : ∀ s source k n s',
  GenerateTDO fuel s source k = Some (n, s') →
  scheduled s' = scheduled s ∧ segments s' = segments s ∧ actions s' = actions s.
Proof.
  induction fuel as [|fuel IH]; intros s source k n s' H; [done|]. rewrite GenerateTDO_S in H.
  cbv zeta in H. destruct (in_progress s) as [|tx rest]; [by simplify_eq|].
  destruct (_ !! _) as [a|]; [destruct (_ =? _)%nat|]; [apply IH in H|simplify_eq|apply IH in H]; done.
Qed.

Lemma GenerateTDO_app fuel s b1 b2 k k1 s1 fuel2 n s2 :
  got_ok s →
  GenerateTDO fuel s b1 k = Some (k1, s1) → k1 = k + length b1 →
  GenerateTDO fuel2 s1 b2 k1 = Some (n, s2) →
  GenerateTDO (fuel + fuel2) s (b1 ++ b2) k = Some (n, s2).
Proof.
  intros Hok H1 Hk H2. destruct (GenerateTDO_sides _ _ _ _ _ _ H1) as (E1 & E2 & E3).
  rewrite <-(behind_nothing s). eapply GenerateTDO_behind; [done|exact H1|done|].
  by rewrite <-E1, <-E2, <-E3, behind_nothing.
Qed.

(** A simulator that pushes TDO in pieces, each of which is taken whole. *)
Fixpoint push_all (s : PullJtag) (chunks : list (list bool)) : option PullJtag :=
  match chunks with
  | [] => Some s
  | c :: chunks =>
      '(consumed, s) ← PushTDO s c;
      if (consumed =? length c)%nat then push_all s chunks else None
  end.

Lemma push_tdo_concat chunks : ∀ s,
  chunks ≠ [] → got_ok s → length (concat chunks) ≤ remaining s →
  ∃ s' fuel, push_all s chunks = Some s'
    ∧ GenerateTDO fuel s (concat chunks) 0 = Some (length (concat chunks), s').
Proof.
  induction chunks as [|c chunks IH]; intros s Hne Hok Hlen; [done|].
  cbn [push_all concat] in *. rewrite length_app in Hlen. unfold PushTDO.
  destruct (GenerateTDO_total (push_fuel s) s c 0) as (n & s1 & H1 & Hok1 & Hr & Hn & Hd); [done|done|].
  assert (n = length c) as ->.
  { destruct Hd as [|Hp]; [done|]. unfold remaining at 1 in Hr. rewrite Hp in Hr. cbn in Hr. lia. }
  rewrite H1. cbn [mbind option_bind Nat.add]. rewrite Nat.eqb_refl.
  destruct (decide (chunks = [])) as [->|Hne'].
  { exists s1, (push_fuel s). cbn. by rewrite app_nil_r. }
  destruct (IH s1 Hne' Hok1) as (s2 & fuel2 & Hp & Hg); [lia|].
  exists s2, (push_fuel s + fuel2). split; [done|]. rewrite length_app.
  eapply GenerateTDO_app; [done|exact H1|done|].
  apply (GenerateTDO_count _ _ _ _ (length c)) in Hg. by rewrite Nat.add_0_r in Hg.
Qed.

(** C13: a pull returns, writes both lanes evenly with the next clocks of the queued
    transactions, as many as fit into the shorter lane, and keeps the rest for
    the next call; no transaction is lost on the way from the queue.  Scheduling a
    transaction appends exactly the TMS bits that the driver of the chain counts
    on. *)
Theorem PullTMSTDI_delivers_clocks s tms_bits tdi_bits :
  let n := Nat.min (Nat.min tms_bits tdi_bits) (length (clocks s)) in
  (∃ d s', PullTMSTDI s tms_bits tdi_bits = Some (d, s')
     ∧ accumulated d = n ∧ length (tms_written d) = n ∧ length (tdi_written d) = n
     ∧ zip (tms_written d) (tdi_written d) = take n (clocks s)
     ∧ clocks s' = drop n (clocks s)
     ∧ in_progress s' ++ scheduled s' = in_progress s ++ scheduled s
     ∧ resolved s' = resolved s ∧ got s' = got s)
  ∧ (∀ tx, fst <$> clocks (Execute s tx) = (fst <$> clocks s) ++ tms_sequences (incomplete_actions tx)).
Proof.
  intros n. split.
  - destruct (GenerateTMSTDI_spec (pull_fuel s) s (mkDests [] tms_bits [] tdi_bits 0))
      as (d & s' & He & [[Hl1 Hl2] Hc Hr Hm Hn] & Hq & Hg & Ha & Hres); [done|done|].
    unfold room in *; cbn in *. exists d, s'. subst n. rewrite take_min, drop_min. split_and!; try done; by rewrite ?Hl1, ?Hl2, Hn.
  - intros tx. rewrite <-item_clocks_tms. unfold clocks, Execute; cbn. rewrite bind_app, !fmap_app.
    cbn. rewrite app_nil_r, <-!app_assoc. done.
Qed.

(** C12: the TDO bits of the transactions in progress may be pushed in any pieces:
    every piece is taken whole, all the transactions are resolved in order, each
    is complete, and each action that asked for TDO holds the bits of its own
    clocks. *)
Theorem PushTDO_answers s chunks :
  chunks ≠ [] → got s = [] → Forall submitted (in_progress s) →
  length (concat chunks) = sum_list_with tx_bits (in_progress s) →
  ∃ s', push_all s chunks = Some s' ∧ in_progress s' = []
    ∧ resolved s' = resolved s ++ answered_all (in_progress s) (concat chunks)
    ∧ Forall (λ tx, status_ok tx = true) (answered_all (in_progress s) (concat chunks))
    ∧ m_exe_gate s' = removed (length (in_progress s)) (m_exe_gate s).
Proof.
  intros Hne Hg Hsub Hlen.
  destruct (push_tdo_concat chunks s) as (s' & fuel & Hp & He); [done|by apply got_nil_ok| |].
  { unfold remaining. rewrite Hg, Hlen. cbn. rewrite Nat.sub_0_r. apply Nat.eq_le_incl.
    clear -Hsub. induction Hsub as [|tx txs (H0 & _) _ IH]; [done|]. cbn. rewrite IH.
    unfold tx_bits, bits_left, incomplete_actions. by rewrite H0, drop_0. }
  apply (GenerateTDO_more _ (fuel + push_fuel s)) in He; [|lia].
  rewrite (GenerateTDO_all (in_progress s)) in He by (done || lia). simplify_eq.
  eexists. split; [done|]. split_and!; [done|done| |done].
  clear -Hsub. generalize (concat chunks). induction Hsub as [|tx txs (_ & Ha & _) _ IH]; intros l; constructor; [|apply IH].
  unfold status_ok, answered, End; cbn. rewrite Ha. apply Nat.eqb_refl.
Qed.

(** ** Accounting *)

(** The states that the driver's clients and the simulator can bring about, with
    the transactions submitted so far. *)
Inductive reachable (gate : Gate) : list JtagTx → PullJtag → Prop :=
| reachable_start : reachable gate [] (make_driver (Some gate))
| reachable_execute txs s tx :
    submitted tx → reachable gate txs s → reachable gate (txs ++ [tx]) (Execute s tx)
| reachable_pull txs s tms tdi d s' :
    reachable gate txs s → PullTMSTDI s tms tdi = Some (d, s') → reachable gate txs s'
| reachable_push txs s source n s' :
    reachable gate txs s → PushTDO s source = Some (n, s') → reachable gate txs s'.

Definition unresolved (s : PullJtag) : list JtagTx := in_progress s ++ scheduled s.

Definition tx_ok (tx : JtagTx) : Prop := tx_wf tx ∧ had_allocation_failure tx = false.

Record accounts (gate : Gate) (txs : list JtagTx) (s : PullJtag) : Prop := {
  acc_order : ins <$> (resolved s ++ unresolved s) = ins <$> txs;
  acc_gate : m_exe_gate s = Some (mkGate (ExecutionGate.m_mode gate)
    u64[m_num_requests gate + Z.of_nat (length (unresolved s))]);
  acc_ok : Forall tx_ok (unresolved s);
  acc_done : Forall (λ tx, status_ok tx = true) (resolved s);
}.

Lemma accounts_with_progress gate txs s tx tx' rest g :
  accounts gate txs s → in_progress s = tx :: rest → ins tx' = ins tx →
  tx_ok tx' → accounts gate txs (with_progress s (tx' :: rest) g).
Proof.
  intros [Ho Hg Hok Hd] Hp Hi Htx. unfold unresolved in *. rewrite Hp in *.
  split; unfold unresolved; cbn in *; [|done| |done].
  - rewrite <-Ho, !fmap_app. cbn. by rewrite Hi.
  - inversion Hok; subst. by constructor.
Qed.

Lemma accounts_resolve gate txs s tx rest :
  accounts gate txs s → in_progress s = tx :: rest → ins tx !! m_first_incomplete tx = None →
  accounts gate txs (resolve s tx rest).
Proof.
  intros [Ho Hg Hok Hd] Hp Hi. unfold unresolved in *. rewrite Hp in *. apply lookup_ge_None in Hi.
  apply Forall_cons in Hok as [[Hwf Ha] Hok]. unfold tx_wf in Hwf.
  split; unfold unresolved; cbn in *; [|rewrite Hg; cbn| done|].
  - rewrite <-Ho, <-app_assoc. done.
  - f_equal. unfold RemovePending, wrap. cbn [m_num_requests ExecutionGate.m_mode]. f_equal.
    rewrite Zminus_mod_idemp_l. f_equal. lia.
  - apply Forall_app. split; [done|]. constructor; [|constructor]. unfold status_ok, End in *. rewrite Ha. cbn.
    apply Nat.eqb_eq. lia.
Qed.

Lemma GenerateTDO_accounts gate txs fuel : ∀ s source k n s',
  accounts gate txs s → GenerateTDO fuel s source k = Some (n, s') → accounts gate txs s'.
Proof.
  induction fuel as [|fuel IH]; intros s source k n s' Hacc H; [done|]. rewrite GenerateTDO_S in H.
  cbv zeta in H. destruct (in_progress s) as [|tx rest] eqn:Hp; [by simplify_eq|].
  assert (Htx : tx_ok tx).
  { pose proof (acc_ok _ _ _ Hacc) as Hok. unfold unresolved in Hok. rewrite Hp in Hok. by inversion Hok. }
  destruct (ins tx !! m_first_incomplete tx) as [a|] eqn:Ha.
  - destruct (_ =? _)%nat; [eapply IH; [|done]|simplify_eq]; eapply accounts_with_progress; try done.
    split; [apply Done_wf|apply Htx].
  - eapply IH; [|done]. by apply accounts_resolve.
Qed.

Lemma reachable_accounts gate txs s :
  (0 ≤ m_num_requests gate < 2 ^ 64)%Z → reachable gate txs s → accounts gate txs s.
Proof.
  intros Hr. induction 1 as [|txs s tx Hsub _ IH|txs s tms tdi d s' _ IH He|txs s source n s' _ IH He].
  - split; cbn; [done| |constructor|constructor]. rewrite Z.add_0_r, wrap_small by done. by destruct gate.
  - destruct IH as [Ho Hg Hok Hd]. unfold unresolved in *. split; unfold unresolved; cbn.
    + rewrite !app_assoc, fmap_app, (fmap_app ins txs), <-Ho, !app_assoc. done.
    + rewrite Hg. cbn. unfold AddPending; cbn. do 2 f_equal. unfold wrap. rewrite Zplus_mod_idemp_l.
      f_equal. rewrite !length_app. cbn. lia.
    + rewrite app_assoc. apply Forall_app. split; [done|]. constructor; [|constructor].
      destruct Hsub as (H0 & Ha & _). split; [unfold tx_wf; lia|done].
    + done.
  - edestruct GenerateTMSTDI_spec as (d' & s1 & He' & _ & Hq & _ & Hg' & Hr'); [done| |].
    2: unfold PullTMSTDI in He; rewrite He' in He; simplify_eq.
    { done. }
    destruct IH as [Ho Hg Hok Hd]. unfold unresolved in *. split; unfold unresolved; rewrite ?Hq, ?Hr', ?Hg'; done.
  - by eapply GenerateTDO_accounts.
Qed.

(** *** Witnesses *)

Definition example_tx : JtagTx :=
  mkTx [PutTMS [true; false]; PutTDIGetTDO [true; false; true] true]
    [PutOut 7; PutGetOut 0 [false; false; false]] false 0 None.

Definition example_tdo : list (list bool) := [[true; true; false]; []; [true; true]].

Lemma example_submitted : submitted example_tx.
Proof. split_and!; [done|done|]. repeat constructor. Qed.

Definition example_pulled : PullJtag :=
  mkPullJtag [] [example_tx] [] [] [] (Some (mkGate NoStall 1)) [].

Lemma PushTDO_answers_witness :
  ∃ s', push_all example_pulled example_tdo = Some s' ∧ in_progress s' = []
    ∧ outs <$> resolved s' = [[PutOut 2; PutGetOut 3 [false; true; true]]]
    ∧ m_exe_gate s' = Some (mkGate NoStall 0).
Proof.
  destruct (PushTDO_answers example_pulled example_tdo) as (s' & Hp & Hn & Hr & _ & Hg);
    [done|done|repeat constructor|done|].
  exists s'. rewrite Hn, Hr, Hg. split_and!; [done|done|done|done].
Defined.
