(* ===== verification/PullQueue.v ===== *)
(** * PullQueue: PullJtag on its intrusive queue
    ([src/src/libedr/driver/jtag/PullJtag.cpp],
    [src/src/libedr/util/asynchronicity/ResolutionQueue.hpp]).

    [PullJtag] has the queue of transactions as two lists.  Here the generators run on
    the queue itself: the items live in the frames of the coroutines that wait for
    them, are linked by [ResolutionQueue], and are gone once they are resolved; the
    use of one that is gone is [None].  The link of an item to the one scheduled
    behind it is not cleared when the item is started, so the two models differ when
    an item is answered before it was pulled.  As long as a simulator answers only
    clocks that it has pulled, they do not: the driver then works as [PullJtag] has
    it, and no item is used after its end. *)
From S2P Require Import Prelude Actions Transaction ResolutionQueue ExecutionGate JtagTap JtagChain PullJtag.
From stdpp Require Import gmap.

(** ** The driver *)

(** The items that live, with their links and their transactions; the queue; the
    item whose actions are being pulled; the rest is as in [PullJtag]. *)
Record QPullJtag := mkQ {
  links : store;
  data : gmap addr JtagTx;
  m_queue : ResolutionQueue;
  pulling : option addr;
  q_segments : list segment;
  q_actions : list JtagAction;
  q_got : list bool;
  q_exe_gate : option Gate;
  q_resolved : list JtagTx;
}.

Definition make_queued (gate : option Gate) : QPullJtag := mkQ ∅ ∅ empty_queue None [] [] [] gate [].

(** [Execute] up to the wait; the item is a variable of its frame. *)
Definition QExecute (d : QPullJtag) (item : addr) (tx : JtagTx) : option QPullJtag :=
  '(h, q) ← Enqueue (<[item := None]> (links d)) (m_queue d) item;
  Some (mkQ h (<[item := tx]> (data d)) q (pulling d) (q_segments d) (q_actions d) (q_got d)
          (AddPending <$> q_exe_gate d) (q_resolved d)).

Definition q_at (d : QPullJtag) (item : option addr) (segs : list segment) (acts : list JtagAction) : QPullJtag :=
  mkQ (links d) (data d) (m_queue d) item segs acts (q_got d) (q_exe_gate d) (q_resolved d).

(** [GenerateTMSTDI] until it yields.  Going on to the next action, and finding that
    there is none, reads the item. *)
Fixpoint QGenerateTMSTDI (fuel : nat) (d : QPullJtag) (dst : dests) : option (dests * QPullJtag) :=
  match fuel with
  | O => None
  | S fuel =>
      match q_segments d, q_actions d, pulling d with
      | seg :: segs, acts, item =>
          let '(finished, dst, seg) := try_write dst seg in
          if (finished : bool) then QGenerateTMSTDI fuel (q_at d item segs acts) dst
          else Some (dst, q_at d item (seg :: segs) acts)
      | [], a :: acts, item =>
          _ ← (i ← item; data d !! i);
          QGenerateTMSTDI fuel (q_at d item (action_segments a) acts) dst
      | [], [], Some item =>
          _ ← data d !! item;
          QGenerateTMSTDI fuel (q_at d None [] []) dst
      | [], [], None =>
          if NoScheduled (m_queue d) then Some (dst, d) else
          '(item, h, q) ← StartNextScheduled (links d) (m_queue d);
          tx ← data d !! item;
          QGenerateTMSTDI fuel
            (mkQ h (data d) q (Some item) [] (incomplete_actions tx) (q_got d) (q_exe_gate d) (q_resolved d)) dst
      end
  end.

Definition QPullTMSTDI (fuel : nat) (d : QPullJtag) (tms_bits tdi_bits : nat) : option (dests * QPullJtag) :=
  QGenerateTMSTDI fuel d (mkDests [] tms_bits [] tdi_bits 0).

Definition q_answer (d : QPullJtag) (item : addr) (tx : JtagTx) (tdo : list bool) : QPullJtag :=
  mkQ (links d) (<[item := tx]> (data d)) (m_queue d) (pulling d) (q_segments d) (q_actions d) tdo
    (q_exe_gate d) (q_resolved d).

(** [RemovePending], [PrepareToResolve] and [Resolve]: the coroutine goes on to its
    end, and the item with it. *)
Definition q_resolve (d : QPullJtag) : option QPullJtag :=
  '(item, q) ← PrepareToResolve (links d) (m_queue d);
  tx ← data d !! item;
  Some (mkQ (delete item (links d)) (delete item (data d)) q (pulling d) (q_segments d) (q_actions d) []
          (RemovePending <$> q_exe_gate d) (q_resolved d ++ [tx])).

(** [GenerateTDO] until it yields; the number of bits consumed. *)
Fixpoint QGenerateTDO (fuel : nat) (d : QPullJtag) (source : list bool) (consumed : nat)
    : option (nat * QPullJtag) :=
  match fuel with
  | O => None
  | S fuel =>
      if NoInProgress (m_queue d) then Some (consumed, d) else
      item ← GetCurrentInProgress (m_queue d);
      tx ← data d !! item;
      let pos := m_first_incomplete tx in
      match ins tx !! pos with
      | None => d ← q_resolve d; QGenerateTDO fuel d source consumed
      | Some a =>
          let this_time := Nat.min (length (action_bits a) - length (q_got d)) (length source) in
          let tdo := q_got d ++ take this_time source in
          let old := default (PutOut 0) (outs tx !! pos) in
          let tx := set_out tx pos (action_out a tdo old) in
          let source := drop this_time source in
          if (length tdo =? length (action_bits a))%nat
          then QGenerateTDO fuel (q_answer d item (Done tx pos) []) source (consumed + this_time)
          else Some (consumed + this_time, q_answer d item tx tdo)
      end
  end.

Definition QPushTDO (fuel : nat) (d : QPullJtag) (source : list bool) : option (nat * QPullJtag) :=
  QGenerateTDO fuel d source 0.

(** ** Simulation *)

(** The items of [l] live and have these transactions. *)
Definition stored (m : gmap addr JtagTx) (l : list addr) (txs : list JtagTx) : Prop :=
  Forall2 (λ a tx, m !! a = Some tx) l txs.

Lemma stored_insert m l txs a tx : a ∉ l → stored m l txs → stored (<[a := tx]> m) l txs.
Proof.
  intros Ha Hl. induction Hl as [|b t l txs Hb Hl IH]; constructor.
  - rewrite lookup_insert_ne; [done|]. set_solver.
  - apply IH. set_solver.
Qed.

Lemma stored_delete m l txs a : a ∉ l → stored m l txs → stored (delete a m) l txs.
Proof.
  intros Ha Hl. induction Hl as [|b t l txs Hb Hl IH]; constructor.
  - rewrite lookup_delete_ne; [done|]. set_solver.
  - apply IH. set_solver.
Qed.

Lemma stored_last m l txs z : stored m l txs → last l = Some z → is_Some (m !! z).
Proof.
  intros Hl Hz. apply last_Some in Hz as [l0 ->]. apply Forall2_app_inv_l in Hl as (? & ? & _ & Hl & _).
  inversion_clear Hl. eauto.
Qed.

Lemma chain_last h l t z : chain h l t → last l = Some z → h !! z = Some t.
Proof.
  induction l as [|x [|y l] IH]; intros Hc Hz; [done| |].
  - injection Hz as <-. by destruct Hc.
  - apply IH; [apply Hc|done].
Qed.

(** The items [pids] are in progress and the items [sids] scheduled. *)
Record sim (pids sids : list addr) (d : QPullJtag) (s : PullJtag) : Prop := {
  sim_repr : repr true (elements (dom (links d))) (links d) (m_queue d) (mkSpec sids pids);
  sim_progress : stored (data d) pids (in_progress s);
  sim_scheduled : stored (data d) sids (scheduled s);
  sim_segments : q_segments d = segments s;
  sim_actions : q_actions d = actions s;
  sim_got : q_got d = got s;
  sim_gate : q_exe_gate d = m_exe_gate s;
  sim_resolved : q_resolved d = resolved s;
  sim_place : match pulling d with Some z => last pids = Some z | None => segments s = [] ∧ actions s = [] end;
}.

(** The clocks of the item being pulled that are left. *)
Definition current (s : PullJtag) : nat :=
  length ((segments s ≫= segment_clocks) ++ item_clocks (actions s)).

(** Between two calls the generator stands in front of a clock, or has started all
    it could; the last item it started is then not linked to others. *)
Definition calm (pids : list addr) (d : QPullJtag) (s : PullJtag) : Prop :=
  0 < current s ∨ pulling d = None ∧ ∀ z, last pids = Some z → links d !! z = Some None.

(** What was seen does not matter to the queue, but for what lives. *)
Lemma repr_live seen h q sp : repr true seen h q sp → repr true (elements (dom h)) h q sp.
Proof. intros []. split; try done. intros x. by rewrite elem_of_elements. Qed.

Lemma sim_nodup pids sids d s : sim pids sids d s → NoDup (pids ++ sids).
Proof. intros Hs. apply (repr_nodup _ _ _ _ _ (sim_repr _ _ _ _ Hs)). Qed.

(** *** Submitting *)

Lemma QExecute_sim pids sids d s item tx :
  sim pids sids d s → calm pids d s → links d !! item = None →
  ∃ d', QExecute d item tx = Some d' ∧ sim pids (sids ++ [item]) d' (Execute s tx)
    ∧ calm pids d' (Execute s tx).
Proof.
  intros Hs Hc Hfresh. pose proof Hs as [Hr Hp Hq E1 E2 E3 E4 E5 Hpl].
  destruct (enqueue_refines true _ _ _ _ item Hr) as (h & q & He & Hr').
  { rewrite elem_of_elements. by apply not_elem_of_dom. }
  cbn [exec ResolutionQueue.scheduled ResolutionQueue.in_progress] in He, Hr'.
  destruct (Enqueue _ _ _) as [[h1 q1]|] eqn:Hen; [|done]. injection He as -> ->.
  assert (Hni : item ∉ pids ++ sids).
  { pose proof (repr_nodup _ _ _ _ _ Hr') as Hnd. cbn in Hnd. rewrite app_assoc in Hnd.
    apply NoDup_app in Hnd as (_ & Hd & _). intros Hin. by apply (Hd item Hin), list_elem_of_singleton. }
  unfold QExecute. rewrite Hen. cbn [mbind option_bind]. eexists. split; [done|].
  rewrite elem_of_app in Hni. split.
  - split; cbn; try done; try congruence.
    + by eapply repr_live.
    + apply stored_insert; [tauto|done].
    + apply Forall2_app; [apply stored_insert; [tauto|done]|]. constructor; [|constructor]. apply lookup_insert_eq.
  - destruct Hc as [?|[Hpu Hl]]; [by left|right]. split; [done|]. intros z Hz. cbn.
    assert (Hzp : z ∈ pids) by (apply last_Some in Hz as [? ->]; set_solver).
    unfold Enqueue in Hen. destruct (m_scheduled_head (m_queue d)) eqn:Hhd.
    + unfold set_next in Hen. pose proof (repr_sched_last _ _ _ _ _ Hr) as Hsl. cbn in Hsl.
      destruct (m_scheduled_last (m_queue d)) as [y|] eqn:Hy; [|done]. cbn in Hen.
      destruct (_ !! y); [|done]. cbn in Hen. injection Hen as <- <-.
      assert (y ∈ sids).
      { pose proof (repr_sched_head _ _ _ _ _ Hr) as Hsh. cbn in Hsh. rewrite Hhd in Hsh.
        destruct sids as [|a l]; [done|].
        specialize (Hsl ltac:(done)). symmetry in Hsl. apply last_Some in Hsl as [? ->]. set_solver. }
      pose proof (sim_nodup _ _ _ _ Hs) as Hnd. apply NoDup_app in Hnd as (_ & Hd & _).
      rewrite lookup_insert_ne, lookup_insert_ne; [by apply Hl| |].
      * intros ->. tauto.
      * intros ->. by apply (Hd z).
    + injection Hen as <- <-. rewrite lookup_insert_ne; [by apply Hl|]. intros ->. tauto.
Qed.

(** *** Pulling *)

Lemma QGenerateTMSTDI_more fuel : ∀ k d dst r,
  QGenerateTMSTDI fuel d dst = Some r → QGenerateTMSTDI (fuel + k) d dst = Some r.
Proof.
  induction fuel as [|fuel IH]; intros k d dst r H; [done|]. cbn [QGenerateTMSTDI Nat.add] in *.
  destruct (q_segments d) as [|seg segs]; [destruct (q_actions d) as [|a acts]; [destruct (pulling d) as [z|]|]|].
  - destruct (data d !! z); [cbn in *; by apply IH|done].
  - destruct (NoScheduled _); [done|]. destruct (StartNextScheduled _ _) as [[[i h] q]|]; [cbn in *|done].
    destruct (data d !! i); [cbn in *; by apply IH|done].
  - destruct (i ← pulling d; data d !! i); [cbn in *; by apply IH|done].
  - destruct (try_write dst seg) as [[[] ?] ?]; [by apply IH|done].
Qed.

Lemma QGenerateTMSTDI_unique f1 f2 d dst r1 r2 :
  QGenerateTMSTDI f1 d dst = Some r1 → QGenerateTMSTDI f2 d dst = Some r2 → r1 = r2.
Proof.
  intros H1 H2. apply (QGenerateTMSTDI_more _ f2) in H1. apply (QGenerateTMSTDI_more _ f1) in H2.
  rewrite Nat.add_comm in H2. congruence.
Qed.

Lemma sim_at pids sids d s segs acts :
  is_Some (pulling d) → sim pids sids d s → sim pids sids (q_at d (pulling d) segs acts) (at_place s segs acts).
Proof. intros [z Hz] []. split; cbn; try done. by rewrite Hz in *. Qed.

(** At the end of an item the generator goes back to the queue. *)
Lemma settle pids sids d s dst :
  sim pids sids d s → segments s = [] → actions s = [] →
  ∃ k d', pulling d' = None ∧ sim pids sids d' s
    ∧ ∀ fuel, QGenerateTMSTDI (k + fuel) d dst = QGenerateTMSTDI fuel d' dst.
Proof.
  intros Hs E1 E2. destruct (pulling d) as [z|] eqn:Hz; [|by exists 0, d].
  exists 1, (q_at d None [] []). split; [done|].
  pose proof Hs as [Hr Hp Hq F1 F2 F3 F4 F5 Hpl]. rewrite Hz in Hpl. split.
  - by split; cbn.
  - intros fuel. cbn [Nat.add QGenerateTMSTDI]. rewrite F1, F2, E1, E2, Hz.
    by destruct (stored_last _ _ _ _ Hp Hpl) as [tx ->].
Qed.

(** Nothing is scheduled: the last item that was started is the end of the list. *)
Lemma calm_idle pids d s : sim pids [] d s → pulling d = None → calm pids d s.
Proof.
  intros Hs Hn. right. split; [done|]. intros z Hz.
  destruct (repr_progress _ _ _ _ _ (sim_repr _ _ _ _ Hs)) as (_ & _ & t & Ht & Htt).
  { cbn. by intros ->. }
  rewrite (chain_last _ _ _ _ Ht Hz). by destruct Htt as [->| ->].
Qed.

Lemma start_sim pids sids d s i tx txs :
  sim pids (i :: sids) d s → scheduled s = tx :: txs → segments s = [] → actions s = [] →
  ∃ h q, StartNextScheduled (links d) (m_queue d) = Some (i, h, q) ∧ data d !! i = Some tx
    ∧ sim (pids ++ [i]) sids
        (mkQ h (data d) q (Some i) [] (incomplete_actions tx) (q_got d) (q_exe_gate d) (q_resolved d))
        (mkPullJtag txs (in_progress s ++ [tx]) [] (incomplete_actions tx) (got s) (m_exe_gate s) (resolved s)).
Proof.
  intros [Hr Hp Hq F1 F2 F3 F4 F5 Hpl] Hsch E1 E2. rewrite Hsch in Hq. inversion_clear Hq as [|? ? ? ? Hi Hq'].
  destruct (start_refines true _ _ _ _ i sids Hr eq_refl) as (h & q & He & Hr').
  cbn [exec] in He. destruct (StartNextScheduled _ _) as [[[j h1] q1]|]; [|done].
  injection He as -> -> ->. exists h, q. split_and!; [done|done|]. split; cbn; try done.
  - by eapply repr_live.
  - apply Forall2_app; [done|]. by constructor.
  - by rewrite last_snoc.
Qed.

Lemma try_write_left dst seg dst' seg' :
  try_write dst seg = (false, dst', seg') → segment_clocks seg' ≠ [].
Proof.
  unfold try_write, segment_clocks. destruct (seg_lane seg); intros [= Hb _ <-];
    cbn [seg_lane seg_bits seg_filler]; intros Hn; apply fmap_nil_inv in Hn; by rewrite Hn in Hb.
Qed.

Lemma QGenerateTMSTDI_sim fuel : ∀ pids sids d s dst dst' s',
  sim pids sids d s → GenerateTMSTDI fuel s dst = Some (dst', s') →
  ∃ fuel' d' pids' sids', QGenerateTMSTDI fuel' d dst = Some (dst', d')
    ∧ sim pids' sids' d' s' ∧ calm pids' d' s'.
Proof.
  induction fuel as [|fuel IH]; intros pids sids d s dst dst' s' Hs H; [done|]. cbn [GenerateTMSTDI] in H.
  pose proof (sim_segments _ _ _ _ Hs) as F1. pose proof (sim_actions _ _ _ _ Hs) as F2.
  pose proof (sim_place _ _ _ _ Hs) as Hpl.
  destruct (segments s) as [|seg segs] eqn:E1; [destruct (actions s) as [|a acts] eqn:E2|].
  - destruct (settle pids sids d s dst Hs E1 E2) as (k & d1 & Hn & Hs1 & Hk).
    pose proof (sim_segments _ _ _ _ Hs1) as G1. pose proof (sim_actions _ _ _ _ Hs1) as G2.
    rewrite E1 in G1. rewrite E2 in G2.
    pose proof (repr_sched_head _ _ _ _ _ (sim_repr _ _ _ _ Hs1)) as Hh. cbn in Hh.
    pose proof (sim_scheduled _ _ _ _ Hs1) as Hq. destruct (scheduled s) as [|tx txs] eqn:Hsch.
    + inversion Hq; subst. simplify_eq. exists (k + 1), d1, pids, []. rewrite Hk.
      cbn [QGenerateTMSTDI]. rewrite G1, G2, Hn. unfold NoScheduled. rewrite Hh.
      split_and!; [done|done|by apply calm_idle].
    + destruct sids as [|i sids]; [inversion Hq|].
      destruct (start_sim pids sids d1 s i tx txs) as (h & q & Hst & Hi & Hs2); [done..|].
      destruct (IH _ _ _ _ _ _ _ Hs2 H) as (f & d' & p' & q' & He & Hs' & Hc').
      exists (k + S f), d', p', q'. rewrite Hk. cbn [QGenerateTMSTDI]. rewrite G1, G2, Hn.
      unfold NoScheduled. rewrite Hh, Hst. cbn. rewrite Hi. done.
  - destruct (pulling d) as [z|] eqn:Hz; [|by destruct Hpl].
    destruct (stored_last _ _ _ _ (sim_progress _ _ _ _ Hs) Hpl) as [tx Htx].
    destruct (IH _ _ _ _ _ _ _ (sim_at _ _ d s (action_segments a) acts ltac:(by rewrite Hz) Hs) H)
      as (f & d' & p' & q' & He & Hs' & Hc').
    exists (S f), d', p', q'. cbn [QGenerateTMSTDI]. rewrite F1, F2. rewrite Hz in *. cbn. rewrite Htx. done.
  - destruct (pulling d) as [z|] eqn:Hz; [|by destruct Hpl].
    destruct (try_write dst seg) as [[[] dst1] seg1] eqn:Ht.
    + destruct (IH _ _ _ _ _ _ _ (sim_at _ _ d s segs (actions s) ltac:(by rewrite Hz) Hs) H)
        as (f & d' & p' & q' & He & Hs' & Hc').
      exists (S f), d', p', q'. cbn [QGenerateTMSTDI]. rewrite F1, F2, Ht. done.
    + simplify_eq. exists 1, (q_at d (pulling d) (seg1 :: segs) (actions s)), pids, sids.
      cbn [QGenerateTMSTDI]. rewrite F1, F2, Ht. split_and!; [done|apply sim_at; [by rewrite Hz|done]|].
      left. unfold current. cbn. apply try_write_left in Ht. destruct (segment_clocks seg1); [done|]. cbn. lia.
Qed.

(** *** Pushing *)

Lemma QGenerateTDO_more fuel : ∀ k d source c r,
  QGenerateTDO fuel d source c = Some r → QGenerateTDO (fuel + k) d source c = Some r.
Proof.
  induction fuel as [|fuel IH]; intros k d source c r H; [done|]. cbn [QGenerateTDO Nat.add] in *.
  destruct (NoInProgress _); [done|]. destruct (GetCurrentInProgress _) as [i|]; [cbn in *|done].
  destruct (data d !! i) as [tx|]; [cbn in *|done]. destruct (ins tx !! _) as [a|].
  - destruct (_ =? _)%nat; [by apply IH|done].
  - destruct (q_resolve d); [cbn in *; by apply IH|done].
Qed.

Lemma QGenerateTDO_unique f1 f2 d source c r1 r2 :
  QGenerateTDO f1 d source c = Some r1 → QGenerateTDO f2 d source c = Some r2 → r1 = r2.
Proof.
  intros H1 H2. apply (QGenerateTDO_more _ f2) in H1. apply (QGenerateTDO_more _ f1) in H2.
  rewrite Nat.add_comm in H2. congruence.
Qed.

(** The front item lives and is the current one. *)
Lemma sim_front i pids sids d s tx rest :
  sim (i :: pids) sids d s → in_progress s = tx :: rest →
  NoInProgress (m_queue d) = false ∧ GetCurrentInProgress (m_queue d) = Some i ∧ data d !! i = Some tx.
Proof.
  intros Hs Hp. pose proof (sim_progress _ _ _ _ Hs) as Hf. rewrite Hp in Hf. inversion_clear Hf.
  destruct (repr_progress _ _ _ _ _ (sim_repr _ _ _ _ Hs)) as (Hh & _); [done|]. cbn in Hh.
  unfold NoInProgress, GetCurrentInProgress. by rewrite Hh.
Qed.

Lemma sim_none sids d s : sim [] sids d s → NoInProgress (m_queue d) = true.
Proof.
  intros Hs. destruct (repr_idle _ _ _ _ _ (sim_repr _ _ _ _ Hs) eq_refl) as [Hh|(? & _)]; [|done].
  unfold NoInProgress. by rewrite Hh.
Qed.

Lemma sim_answer i pids sids d s tx tx' rest tdo :
  sim (i :: pids) sids d s → in_progress s = tx :: rest →
  sim (i :: pids) sids (q_answer d i tx' tdo) (with_progress s (tx' :: rest) tdo).
Proof.
  intros Hs Hp. pose proof (sim_nodup _ _ _ _ Hs) as Hnd. cbn in Hnd. apply NoDup_cons in Hnd as [Hni _].
  rewrite elem_of_app in Hni. destruct Hs as [Hr Hf Hq F1 F2 F3 F4 F5 Hpl]. rewrite Hp in Hf.
  inversion_clear Hf. split; cbn; try done.
  - constructor; [apply lookup_insert_eq|]. apply stored_insert; [tauto|done].
  - apply stored_insert; [tauto|done].
Qed.

(** A front item that is answered is either not the one being pulled or not linked. *)
Lemma sim_resolve i pids sids d s tx rest :
  sim (i :: pids) sids d s → calm (i :: pids) d s → in_progress s = tx :: rest →
  (rest = [] → current s = 0) →
  ∃ d', q_resolve d = Some d' ∧ sim pids sids d' (resolve s tx rest) ∧ calm pids d' (resolve s tx rest).
Proof.
  intros Hs Hc Hp Hend. pose proof (sim_nodup _ _ _ _ Hs) as Hnd. cbn in Hnd.
  apply NoDup_cons in Hnd as [Hni _]. rewrite elem_of_app in Hni.
  pose proof Hs as [Hr Hf Hq F1 F2 F3 F4 F5 Hpl]. rewrite Hp in Hf. inversion_clear Hf as [|? ? ? ? Hi Hf'].
  assert (Hlast : pids = [] → pulling d = None ∧ links d !! i = Some None).
  { intros ->. inversion Hf'; subst. destruct Hc as [Hc|[Hn Hl]]; [rewrite Hend in Hc by done; lia|].
    split; [done|by apply Hl]. }
  destruct (resolve_repr true _ _ _ _ i pids Hr eq_refl) as (q & Hpr & Hr'); [intros; by apply Hlast|].
  unfold q_resolve. rewrite Hpr. cbn. rewrite Hi. cbn. eexists. split; [done|]. split.
  - split; cbn; try done.
    + by eapply repr_live.
    + apply stored_delete; [tauto|done].
    + apply stored_delete; [tauto|done].
    + by rewrite F4.
    + by rewrite F5.
    + destruct pids as [|j pids]; [|destruct (pulling d); by rewrite ?last_cons_cons in Hpl].
      destruct (Hlast eq_refl) as [Hn _]. by rewrite Hn in *.
  - destruct Hc as [Hc|[Hn Hl]]; [by left|right]. split; [done|]. intros z Hz. cbn.
    assert (z ∈ pids) by (apply last_Some in Hz as [? ->]; set_solver).
    rewrite lookup_delete_ne by (intros ->; tauto). apply Hl. destruct pids; [done|]. by rewrite last_cons_cons.
Qed.

#[local] Arguments Done : simpl never.

Lemma QGenerateTDO_sim fuel : ∀ pids sids d s source k n s',
  sim pids sids d s → calm pids d s → got_ok s → current s + length source ≤ remaining s →
  GenerateTDO fuel s source k = Some (n, s') →
  ∃ d' pids', QGenerateTDO fuel d source k = Some (n, d') ∧ sim pids' sids d' s' ∧ calm pids' d' s'.
Proof.
  induction fuel as [|fuel IH]; intros pids sids d s source k n s' Hs Hc Hg Hle H; [done|].
  rewrite GenerateTDO_S in H. cbn [QGenerateTDO]. cbv zeta in *.
  pose proof (sim_progress _ _ _ _ Hs) as Hf. pose proof (sim_got _ _ _ _ Hs) as F3.
  destruct (in_progress s) as [|tx rest] eqn:Hp.
  { inversion Hf; subst. rewrite (sim_none _ _ _ Hs). simplify_eq. by exists d, []. }
  destruct pids as [|i pids]; [inversion Hf|].
  destruct (sim_front i pids sids d s tx rest Hs Hp) as (-> & -> & Hi). cbn [mbind option_bind]. rewrite Hi.
  cbn [mbind option_bind]. unfold got_ok in Hg. rewrite Hp in Hg. unfold remaining in Hle.
  rewrite Hp in Hle. cbn [sum_list_with] in Hle.
  destruct (ins tx !! m_first_incomplete tx) as [a|] eqn:Ha.
  - pose proof (bits_left_cons _ _ Ha) as Hb. rewrite F3.
    set (m := Nat.min (length (action_bits a) - length (got s)) (length source)) in *.
    set (o := action_out a _ _) in *. set (tx1 := set_out tx _ o) in *.
    destruct (_ =? _)%nat eqn:He.
    + destruct (IH (i :: pids) sids (q_answer d i (Done tx1 (m_first_incomplete tx)) [])
        (with_progress s (Done tx1 (m_first_incomplete tx) :: rest) []) (drop m source) (k + m) n s')
        as (d' & p' & Hd & Hs' & Hc'); [by eapply sim_answer|done|by apply got_nil_ok| |done|by exists d', p'].
      unfold remaining, current in *. cbn [in_progress with_progress segments actions got sum_list_with].
      apply Nat.eqb_eq in He. rewrite length_app, length_take in He. rewrite length_drop.
      change (bits_left (Done tx1 (m_first_incomplete tx))) with (bits_left (Done tx (m_first_incomplete tx))).
      cbn [length]. lia.
    + simplify_eq. eexists _, (i :: pids). split; [done|]. split; [by eapply sim_answer|done].
  - assert (Hb : bits_left tx = 0) by (unfold bits_left; by rewrite (incomplete_nil _ Ha)).
    destruct (sim_resolve i pids sids d s tx rest) as (d1 & Hq & Hs1 & Hc1); [done..| |].
    { intros ->. cbn in Hle. lia. }
    rewrite Hq. cbn [mbind option_bind].
    eapply IH; [done|done|by apply got_nil_ok| |done]. unfold remaining, current in *.
    cbn [in_progress resolve segments actions got length]. rewrite Hg in Hle. cbn [length] in Hle. lia.
Qed.

(** ** Clocks pulled and answered *)

(** The states that the driver's clients and a simulator that answers no more than
    it has pulled can bring about: the transactions submitted so far, the number of
    clocks pulled and the number of clocks answered.  A new item is at an address
    at which nothing lives. *)
Inductive reachable_q (gate : Gate) : list JtagTx → nat → nat → QPullJtag → Prop :=
| reachable_q_start : reachable_q gate [] 0 0 (make_queued (Some gate))
| reachable_q_execute txs pulled pushed d item tx d' :
    submitted tx → reachable_q gate txs pulled pushed d → links d !! item = None →
    QExecute d item tx = Some d' → reachable_q gate (txs ++ [tx]) pulled pushed d'
| reachable_q_pull txs pulled pushed d fuel tms tdi dst d' :
    reachable_q gate txs pulled pushed d → QPullTMSTDI fuel d tms tdi = Some (dst, d') →
    reachable_q gate txs (pulled + accumulated dst) pushed d'
| reachable_q_push txs pulled pushed d fuel source n d' :
    reachable_q gate txs pulled pushed d → pushed + length source ≤ pulled →
    QPushTDO fuel d source = Some (n, d') → reachable_q gate txs pulled (pushed + n) d'.

Definition balance (pulled pushed : nat) (s : PullJtag) : Prop :=
  pulled + length (clocks s) + length (got s) = pushed + sum_list_with bits_left (in_progress s ++ scheduled s).

Lemma length_clocks s : length (clocks s) = current s + sum_list_with bits_left (scheduled s).
Proof.
  unfold clocks, current. rewrite app_assoc, length_app. f_equal. induction (scheduled s) as [|tx l IH]; [done|].
  cbn [mbind list_bind sum_list_with]. rewrite length_app, length_item_clocks. f_equal. apply IH.
Qed.

Lemma got_le s : got_ok s → length (got s) ≤ sum_list_with bits_left (in_progress s).
Proof.
  unfold got_ok. destruct (in_progress s) as [|tx rest]; [by intros ->|].
  destruct (_ !! _) as [a|] eqn:Ha; [|intros ->; cbn [length]; lia].
  cbn [sum_list_with]. rewrite (bits_left_cons _ _ Ha). lia.
Qed.

Lemma balance_remaining pulled pushed s :
  got_ok s → balance pulled pushed s → pulled + current s = pushed + remaining s.
Proof.
  intros Hg Hb. apply got_le in Hg. unfold balance, remaining in *. rewrite length_clocks, sum_list_with_app in Hb. lia.
Qed.

Lemma balance_execute pulled pushed s tx :
  submitted tx → balance pulled pushed s → balance pulled pushed (Execute s tx).
Proof.
  intros _. unfold balance. rewrite !length_clocks, !sum_list_with_app. unfold current; cbn [scheduled in_progress
    got segments actions Execute]. rewrite sum_list_with_app. cbn [sum_list_with]. lia.
Qed.

(** A pull starts items behind those in progress, and goes on until it stands in
    front of a clock or nothing is scheduled. *)
Lemma GenerateTMSTDI_end fuel : ∀ s dst dst' s',
  GenerateTMSTDI fuel s dst = Some (dst', s') →
  (0 < current s' ∨ scheduled s' = []) ∧ ∃ more, in_progress s' = in_progress s ++ more.
Proof.
  induction fuel as [|fuel IH]; intros s dst dst' s' H; [done|]. cbn [GenerateTMSTDI] in H.
  destruct (segments s) as [|seg segs]; [destruct (actions s); [destruct (scheduled s) eqn:Hq|]|].
  - simplify_eq. split; [by right|]. exists []. by rewrite app_nil_r.
  - apply IH in H as (Hc & more & Hm). split; [done|]. rewrite Hm. cbn. rewrite <-app_assoc. by eexists.
  - by apply IH in H.
  - destruct (try_write dst seg) as [[[] ?] seg'] eqn:Ht; [by apply IH in H|]. simplify_eq. split.
    + left. unfold current. cbn. apply try_write_left in Ht. destruct (segment_clocks seg'); [done|]. cbn. lia.
    + exists []. by rewrite app_nil_r.
Qed.

Lemma got_ok_behind s s' more : got_ok s → in_progress s' = in_progress s ++ more → got s' = got s → got_ok s'.
Proof.
  unfold got_ok. intros Hg -> Hgot. rewrite Hgot. destruct (in_progress s); [|done]. rewrite Hg. cbn.
  destruct more; [done|]. case_match; cbn; [lia|done].
Qed.

(** What a pull and a push do to the list model, and that they do it. *)
Lemma pull_balance pulled pushed s tms tdi :
  got_ok s → balance pulled pushed s →
  ∃ dst s', PullTMSTDI s tms tdi = Some (dst, s') ∧ got_ok s' ∧ balance (pulled + accumulated dst) pushed s'
    ∧ clocks s' = drop (Nat.min tms tdi) (clocks s).
Proof.
  intros Hg Hb. destruct (GenerateTMSTDI_spec (pull_fuel s) s (mkDests [] tms [] tdi 0))
    as (dst & s' & He & [_ _ Hr _ Hn] & Hq & Hgot & _); [done|done|].
  unfold room in *; cbn in Hr, Hn. exists dst, s'. split; [done|]. split_and!; [| |done].
  - destruct (GenerateTMSTDI_end _ _ _ _ _ He) as (_ & more & Hm). by eapply got_ok_behind.
  - unfold balance in *. rewrite Hr, length_drop, Hq, Hgot, Hn. lia.
Qed.

Lemma push_balance pulled pushed s source :
  got_ok s → balance pulled pushed s → pushed + length source ≤ pulled →
  ∃ s', PushTDO s source = Some (length source, s') ∧ got_ok s' ∧ balance pulled (pushed + length source) s'.
Proof.
  intros Hg Hb Hle. pose proof (balance_remaining _ _ _ Hg Hb) as Hr.
  destruct (GenerateTDO_total (push_fuel s) s source 0) as (n & s' & He & Hg' & Hn & Hns & Hd); [done|done|].
  destruct (GenerateTDO_sides _ _ _ _ _ _ He) as (E1 & E2 & E3).
  assert (n = length source) as ->.
  { destruct Hd as [|Hp]; [done|]. unfold remaining at 1 in Hn. rewrite Hp in Hn. cbn in Hn. lia. }
  exists s'. split_and!; [done|done|]. apply got_le in Hg, Hg'.
  unfold balance, remaining in *. rewrite length_clocks, sum_list_with_app in *.
  unfold current in *. rewrite E1, E2, E3. lia.
Qed.

(** A push ends with an action that is not answered, or with nothing in progress. *)
Lemma GenerateTDO_end fuel : ∀ s source k n s',
  got_ok s → GenerateTDO fuel s source k = Some (n, s') → remaining s' = 0 → in_progress s' = [].
Proof.
  induction fuel as [|fuel IH]; intros s source k n s' Hg H Hz; [done|]. rewrite GenerateTDO_S in H. cbv zeta in H.
  unfold got_ok in Hg. destruct (in_progress s) as [|tx rest] eqn:Hp; [by simplify_eq|].
  destruct (ins tx !! m_first_incomplete tx) as [a|] eqn:Ha.
  - destruct (_ =? _)%nat eqn:He; [eapply IH; [|done|done]; by apply got_nil_ok|]. simplify_eq.
    apply Nat.eqb_neq in He. unfold remaining in Hz. cbn [in_progress with_progress got sum_list_with] in Hz.
    rewrite bits_left_set_out, (bits_left_cons _ _ Ha) in Hz. rewrite length_app, length_take in *. lia.
  - eapply IH; [|done|done]. by apply got_nil_ok.
Qed.

(** ** The queue stands for the lists *)

Definition queued (gate : Gate) (txs : list JtagTx) (pulled pushed : nat) (d : QPullJtag) (s : PullJtag) : Prop :=
  reachable gate txs s ∧ got_ok s ∧ balance pulled pushed s ∧ ∃ pids sids, sim pids sids d s ∧ calm pids d s.

Section queued.
Context (gate : Gate).

Lemma queued_start : queued gate [] 0 0 (make_queued (Some gate)) (make_driver (Some gate)).
Proof.
  split_and!; [apply reachable_start|done|done|]. exists [], []. split; [|by right].
  split; [eapply repr_live, empty_repr|constructor|constructor|done..].
Qed.

Lemma queued_execute txs pulled pushed d s item tx :
  submitted tx → queued gate txs pulled pushed d s → links d !! item = None →
  ∃ d', QExecute d item tx = Some d' ∧ queued gate (txs ++ [tx]) pulled pushed d' (Execute s tx).
Proof.
  intros Hsub (Hr & Hg & Hb & pids & sids & Hs & Hc) Hi.
  destruct (QExecute_sim pids sids d s item tx) as (d' & He & Hs' & Hc'); [done..|].
  exists d'. split; [done|]. split_and!; [by constructor|done|by apply balance_execute|by exists pids, (sids ++ [item])].
Qed.

Lemma queued_pull txs pulled pushed d s tms tdi :
  queued gate txs pulled pushed d s →
  ∃ fuel dst d' s', QPullTMSTDI fuel d tms tdi = Some (dst, d') ∧ PullTMSTDI s tms tdi = Some (dst, s')
    ∧ queued gate txs (pulled + accumulated dst) pushed d' s' ∧ clocks s' = drop (Nat.min tms tdi) (clocks s).
Proof.
  intros (Hr & Hg & Hb & pids & sids & Hs & Hc).
  destruct (pull_balance pulled pushed s tms tdi) as (dst & s' & He & Hg' & Hb' & Hcl); [done..|].
  destruct (QGenerateTMSTDI_sim _ _ _ _ _ _ _ _ Hs He) as (fuel & d' & p' & q' & Hq & Hs' & Hc').
  exists fuel, dst, d', s'. unfold queued. split_and!; [done|done|by eapply reachable_pull|done|done|by exists p', q'|done].
Qed.

Lemma queued_push txs pulled pushed d s source :
  queued gate txs pulled pushed d s → pushed + length source ≤ pulled →
  ∃ fuel d' s', QPushTDO fuel d source = Some (length source, d')
    ∧ PushTDO s source = Some (length source, s') ∧ queued gate txs pulled (pushed + length source) d' s'.
Proof.
  intros (Hr & Hg & Hb & pids & sids & Hs & Hc) Hle.
  destruct (push_balance pulled pushed s source) as (s' & He & Hg' & Hb'); [done..|].
  assert (Hrem : current s + length source ≤ remaining s) by (pose proof (balance_remaining _ _ _ Hg Hb); lia).
  destruct (QGenerateTDO_sim _ _ _ _ _ _ _ _ _ Hs Hc Hg Hrem He) as (d' & p' & Hq & Hs' & Hc').
  exists (push_fuel s), d', s'. unfold queued. split_and!; [done|done|by eapply reachable_push|done|done|by exists p', sids].
Qed.

Lemma reachable_queued txs pulled pushed d :
  reachable_q gate txs pulled pushed d → ∃ s, queued gate txs pulled pushed d s.
Proof.
  induction 1 as [|txs p a d item tx d' Hsub _ [s IH] Hi He|txs p a d fuel tms tdi dst d' _ [s IH] He
    |txs p a d fuel source n d' _ [s IH] Hle He].
  - eexists. apply queued_start.
  - destruct (queued_execute _ _ _ _ _ item tx Hsub IH Hi) as (d1 & He' & Hq). simplify_eq. by eexists.
  - destruct (queued_pull _ _ _ _ _ tms tdi IH) as (f & dst1 & d1 & s1 & He' & _ & Hq & _).
    pose proof (QGenerateTMSTDI_unique _ _ _ _ _ _ He He'). simplify_eq. by eexists.
  - destruct (queued_push _ _ _ _ _ source IH Hle) as (f & d1 & s1 & He' & _ & Hq).
    pose proof (QGenerateTDO_unique _ _ _ _ _ _ _ He He'). simplify_eq. by eexists.
Qed.
End queued.

(** The items that wait, in order, and their transactions. *)
Definition waiting (d : QPullJtag) (items : list addr) (txs : list JtagTx) : Prop :=
  NoDup items ∧ stored (data d) items txs ∧ (∀ i, i ∈ items → i ∈ dom (links d)).

Lemma queued_waiting gate txs pulled pushed d s :
  queued gate txs pulled pushed d s → ∃ items, waiting d items (unresolved s).
Proof.
  intros (_ & _ & _ & pids & sids & Hs & _). exists (pids ++ sids). split_and!.
  - by eapply sim_nodup.
  - apply Forall2_app; apply Hs.
  - destruct (sim_repr _ _ _ _ Hs) as [_ _ Hc _ _ Hp _]. cbn in *. intros i [Hi|Hi]%elem_of_app.
    + destruct Hp as (_ & _ & t & Ht & _); [by intros ->; apply elem_of_nil in Hi|]. by eapply chain_dom.
    + by eapply chain_dom.
Qed.

(** Pulling everything and answering it resolves every transaction. *)
Lemma queued_drains gate txs pulled pushed d s n :
  (0 ≤ m_num_requests gate < 2 ^ 64)%Z → queued gate txs pulled pushed d s → length (clocks s) ≤ n →
  ∃ fuel dst d1, QPullTMSTDI fuel d n n = Some (dst, d1)
    ∧ ∀ source, pushed + length source = pulled + accumulated dst →
      ∃ fuel' d2, QPushTDO fuel' d1 source = Some (length source, d2) ∧ ins <$> q_resolved d2 = ins <$> txs.
Proof.
  intros Hgate Hd Hn. destruct (queued_pull _ _ _ _ _ _ n n Hd) as (fuel & dst & d1 & s1 & Hq & He & Hd1 & Hc).
  exists fuel, dst, d1. split; [done|]. intros source Hlen.
  rewrite drop_ge in Hc by lia. apply (f_equal length) in Hc. rewrite length_clocks in Hc. cbn in Hc.
  destruct (queued_push _ _ _ _ _ _ source Hd1 ltac:(lia)) as (fuel' & d2 & s2 & Hq2 & He2 & Hd2).
  exists fuel', d2. split; [done|]. destruct Hd2 as (Hr & Hg2 & Hb2 & pids & sids & Hs & _).
  rewrite (sim_resolved _ _ _ _ Hs). rewrite <-(acc_order _ _ _ (reachable_accounts gate txs s2 Hgate Hr)).
  destruct (GenerateTMSTDI_end _ _ _ _ _ He) as ([?|Hnone] & _); [lia|].
  destruct (GenerateTDO_sides _ _ _ _ _ _ He2) as (E1 & E2 & E3).
  pose proof (balance_remaining _ _ _ Hg2 Hb2) as Hrem.
  unfold unresolved. rewrite E1, Hnone, (GenerateTDO_end _ _ _ _ _ _ (proj1 (proj2 Hd1)) He2).
  - by rewrite !app_nil_r.
  - unfold current in *. rewrite E2, E3 in Hrem. lia.
Qed.

(** C14: in any interleaving of submissions, pulls and pushes in which the simulator
    answers no more clocks than it has pulled, on the intrusive queue itself: the
    items that wait live and hold the transactions that are not resolved; the
    transactions are resolved in the order of their submission and only when
    complete, none is lost or repeated, and the execution gate counts those that
    wait.  No call uses an item that is gone: every pull, every such push and every
    submission of an item at a free address returns, and a pull with enough room
    and the answers to all its clocks resolve everything that was submitted. *)
Theorem transactions_accounted gate txs pulled pushed d :
  (0 ≤ m_num_requests gate)%Z → (m_num_requests gate + Z.of_nat (length txs) < 2 ^ 64)%Z →
  reachable_q gate txs pulled pushed d →
  (∃ items left g, waiting d items left
     ∧ ins <$> (q_resolved d ++ left) = ins <$> txs
     ∧ Forall (λ tx, status_ok tx = true) (q_resolved d)
     ∧ q_exe_gate d = Some g
     ∧ m_num_requests g = (m_num_requests gate + Z.of_nat (length items))%Z)
  ∧ (∀ item tx, links d !! item = None → ∃ d', QExecute d item tx = Some d')
  ∧ (∀ tms tdi, ∃ fuel dst d', QPullTMSTDI fuel d tms tdi = Some (dst, d'))
  ∧ (∀ source, pushed + length source ≤ pulled →
       ∃ fuel d', QPushTDO fuel d source = Some (length source, d'))
  ∧ (∃ enough, ∀ n, enough ≤ n → ∃ fuel dst d1, QPullTMSTDI fuel d n n = Some (dst, d1)
       ∧ ∀ source, pushed + length source = pulled + accumulated dst →
         ∃ fuel' d2, QPushTDO fuel' d1 source = Some (length source, d2)
           ∧ ins <$> q_resolved d2 = ins <$> txs).
Proof.
  intros H0 Hlt Hr. apply reachable_queued in Hr as [s Hd]. split_and!.
  - destruct (queued_waiting _ _ _ _ _ _ Hd) as [items Hw]. destruct Hd as (Hr & _ & _ & pids & sids & Hs & _).
    destruct (reachable_accounts gate txs s) as [Ho Hg Hok Hdone]; [lia|done|].
    pose proof (Forall2_length _ _ _ (proj1 (proj2 Hw))) as Hlen.
    exists items, (unresolved s). eexists. rewrite (sim_resolved _ _ _ _ Hs), (sim_gate _ _ _ _ Hs).
    split_and!; [done|done|done|done|]. cbn. rewrite Hlen. apply wrap_small.
    apply (f_equal length) in Ho. rewrite !length_fmap, length_app in Ho. lia.
  - intros item tx Hi. destruct Hd as (_ & _ & _ & pids & sids & Hs & Hc).
    destruct (QExecute_sim pids sids d s item tx) as (d' & He & _); [done..|]. by exists d'.
  - intros tms tdi. destruct (queued_pull _ _ _ _ _ _ tms tdi Hd) as (fuel & dst & d' & s' & He & _).
    by exists fuel, dst, d'.
  - intros source Hle. destruct (queued_push _ _ _ _ _ _ source Hd Hle) as (fuel & d' & s' & He & _).
    by exists fuel, d'.
  - exists (length (clocks s)). intros n Hn. apply (queued_drains gate txs pulled pushed d s n); [lia|done|done].
Qed.

(** A simulator that answers clocks before it has pulled them: the last started item
    is resolved while it is linked to the next, which is then taken for a started one
    and, once it is answered too, is gone when the next pull starts it. *)
Definition early (tx : JtagTx) : option QPullJtag :=
  d ← QExecute (make_queued None) 1 tx;
  d ← QExecute d 2 tx;
  '(_, d) ← QPullTMSTDI 20 d 1 1;
  '(_, d) ← QPushTDO 20 d (replicate (tx_bits tx + 1) true);
  Some d.

Theorem early_answer_starts_nothing :
  ∃ d, early example_tx = Some d
    ∧ length (q_resolved d) = 1 ∧ links d !! 1 = None
    ∧ m_scheduled_head (m_queue d) = Some 2 ∧ GetCurrentInProgress (m_queue d) = Some 2
    ∧ (∃ tx, data d !! 2 = Some tx ∧ outs tx !! 0 = Some (PutOut 1))
    ∧ ∀ fuel, QPullTMSTDI fuel d 8 8 = None.
Proof.
  assert (H : ∃ d, early example_tx = Some d) by (vm_compute; by eexists). destruct H as [d Hd].
  exists d. split; [done|]. vm_compute in Hd. injection Hd as <-. split_and!; [done..| |].
  - by eexists.
  - intros fuel. do 8 (destruct fuel as [|fuel]; [done|]). done.
Qed.

(** *** Witness *)

(** Two transactions, eight clocks pulled and seven answered. *)
Definition queue_one : QPullJtag :=
  Eval vm_compute in
    default (make_queued None) (QExecute (make_queued (Some (mkGate NoStall 0))) 1 example_tx).

Definition queue_two : QPullJtag := Eval vm_compute in default (make_queued None) (QExecute queue_one 2 example_tx).

Definition queue_pulled : option (dests * QPullJtag) := Eval vm_compute in QPullTMSTDI 20 queue_two 8 9.

Definition queue_mid : QPullJtag := Eval vm_compute in default (make_queued None) (snd <$> queue_pulled).

Definition queue_state : QPullJtag :=
  Eval vm_compute in default (make_queued None) (snd <$> QPushTDO 20 queue_mid (replicate 7 true)).

Lemma transactions_accounted_witness :
  reachable_q (mkGate NoStall 0) [example_tx; example_tx] 8 7 queue_state
  ∧ length (q_resolved queue_state) = 1
  ∧ (∃ fuel d, QPushTDO fuel queue_state [true] = Some (1, d))
  ∧ (∃ items left g, waiting queue_state items left
     ∧ ins <$> (q_resolved queue_state ++ left) = ins <$> [example_tx; example_tx]
     ∧ q_exe_gate queue_state = Some g ∧ m_num_requests g = Z.of_nat (length items)).
Proof.
  assert (Hr : reachable_q (mkGate NoStall 0) [example_tx; example_tx] 8 7 queue_state).
  - apply (reachable_q_push _ _ 8 0 queue_mid 20 (replicate 7 true) 7); [|cbn; lia|vm_compute; reflexivity].
    apply (reachable_q_pull _ _ 0 0 queue_two 20 8 9
      (mkDests [true; false; false; false; true; true; false; false] 0
         [false; false; true; false; true; false; false; true] 0 8)); [|vm_compute; reflexivity].
    apply (reachable_q_execute _ [example_tx] 0 0 queue_one 2);
      [apply example_submitted| |vm_compute; reflexivity|vm_compute; reflexivity].
    apply (reachable_q_execute _ [] 0 0 (make_queued (Some (mkGate NoStall 0))) 1);
      [apply example_submitted|apply reachable_q_start|vm_compute; reflexivity|vm_compute; reflexivity].
  - split; [exact Hr|].
    destruct (transactions_accounted (mkGate NoStall 0) [example_tx; example_tx] 8 7 queue_state)
      as ((items & left & g & Hw & Ho & _ & Hg & Hn) & _ & _ & Hp & _); [cbn; lia|cbn; lia|exact Hr|].
    split_and!; [done|apply (Hp [true]); cbn; lia|]. exists items, left, g. split_and!; [exact Hw|exact Ho|exact Hg|].
    rewrite Hn. cbn. lia.
Defined.
