(* ===== verification/PullAPB.v ===== *)
(** * PullAPB: APB transactions as commands for a simulator
    ([src/src/libedr/driver/apb/PullAPB.cpp], [PullAPB.h]).

    A simulator pulls commands and pushes one result per command.  As in
    [PullJtag], a generator is its place as a value and a function that runs it
    until it yields.  The pulling side works on the transaction that was started
    last, the pushing side on the one that was started first; they may be the
    same, so both work on the list of the transactions in progress.  The two halves
    of the queue are lists; that the links of the intrusive queue agree with them as
    long as a simulator answers only what it has pulled is shown for the same queue in
    [PullQueue]. *)
From S2P Require Import Prelude Actions Transaction ExecutionGate.
From stdpp Require Import strings.

Inductive PulledCommandType := PSkipCycles | PWrite | PRead | PSetPSEL.

Record PulledCommand := mkCommand {
  command_type : PulledCommandType; first_in_xact : bool;
  addr : Z; data : Z;
}.

(** The numbers of [PushedStatus]; any other number counts as success. *)
Definition PStatusError : Z := 1.
Definition PStatusTimeout : Z := 2.

Abbreviation result := (Z * Z)%type.

(** The results of the actions. *)
Inductive APBOut := APBOk | APBReadOut (data : Z).

Abbreviation APBTx := (Tx APBAction APBOut).

(** The driver: the queue, the place in the transaction that is pulled and
    whether its next command is its first, the place in the one that is answered
    and whether it failed, the execution gate and the resolved transactions. *)
Record PullAPB := mkPullAPB {
  scheduled : list APBTx;
  in_progress : list APBTx;
  pulling : option (nat * bool);
  answering : option (nat * bool);
  m_exe_gate : option Gate;
  resolved : list APBTx;
}.

Definition make_driver (gate : option Gate) : PullAPB := mkPullAPB [] [] None None gate [].

(** [Execute] up to the wait. *)
Definition Execute (s : PullAPB) (tx : APBTx) : PullAPB :=
  mkPullAPB (scheduled s ++ [tx]) (in_progress s) (pulling s) (answering s)
    (AddPending <$> m_exe_gate s) (resolved s).

(** ** Commands *)

Definition command_of (a : APBAction) (first : bool) : PulledCommand :=
  match a with
  | APBSkipCycles num_cycles => mkCommand PSkipCycles first 0 num_cycles
  | APBWrite address data => mkCommand PWrite first address data
  | APBRead address => mkCommand PRead first address 0
  | APBSetPSEL psel => mkCommand PSetPSEL first 0 psel
  end.

(** [out.data = 0] for a read. *)
Definition clear_out (tx : APBTx) (pos : nat) (a : APBAction) : APBTx :=
  match a with APBRead _ => set_out tx pos (APBReadOut 0) | _ => tx end.

(** The place of the pulling side and the transaction it is in. *)
Definition pulled_to (s : PullAPB) (txs : list APBTx) (p : option (nat * bool)) : PullAPB :=
  mkPullAPB (scheduled s) txs p (answering s) (m_exe_gate s) (resolved s).

(** [GenerateCommands] until it yields; [None] is the use of a transaction that is
    gone. *)
Fixpoint GenerateCommands (fuel : nat) (s : PullAPB) (num_commands_left : nat)
    (commands : list PulledCommand) : option (list PulledCommand * PullAPB) :=
  match fuel with
  | O => None
  | S fuel =>
      match pulling s with
      | None =>
          match scheduled s with
          | [] => Some (commands, s)
          | tx :: q =>
              GenerateCommands fuel
                (mkPullAPB q (in_progress s ++ [tx]) (Some (m_first_incomplete tx, true)) (answering s)
                   (m_exe_gate s) (resolved s)) num_commands_left commands
          end
      | Some (pos, first) =>
          tx ← last (in_progress s);
          match ins tx !! pos with
          | None => GenerateCommands fuel (pulled_to s (in_progress s) None) num_commands_left commands
          | Some a =>
              match num_commands_left with
              | O => Some (commands, s)
              | S room =>
                  let txs := <[length (in_progress s) - 1 := clear_out tx pos a]> (in_progress s) in
                  GenerateCommands fuel (pulled_to s txs (Some (S pos, false))) room
                    (commands ++ [command_of a first])
              end
          end
      end
  end.

Definition incomplete_actions (tx : APBTx) : list APBAction := drop (m_first_incomplete tx) (ins tx).

(** What is left of the transaction that is pulled. *)
Definition pulling_actions (s : PullAPB) : list APBAction :=
  match pulling s, last (in_progress s) with
  | Some (pos, _), Some tx => drop pos (ins tx)
  | _, _ => []
  end.

Definition pull_fuel (s : PullAPB) : nat :=
  S (match pulling s with Some _ => 1 | None => 0 end + length (pulling_actions s))
  + sum_list_with (λ tx, 2 + length (incomplete_actions tx)) (scheduled s).

Definition PullCommands (s : PullAPB) (max_num_commands : nat) : option (list PulledCommand * PullAPB) :=
  GenerateCommands (pull_fuel s) s max_num_commands [].

(** ** Results *)

(** One result for the action at [pos]; whether the transaction has failed. *)
Definition apply_result (tx : APBTx) (pos : nat) (a : APBAction) (failed : bool) (r : result) : APBTx * bool :=
  let '(status, data) := r in
  if failed then (tx, true) else
  if (status =? PStatusError)%Z then (Fail AnyAPB tx CauseTargetError, true) else
  if (status =? PStatusTimeout)%Z then (Fail AnyAPB tx (CauseTimeoutInCycles data), true) else
  let tx := match a with APBRead _ => set_out tx pos (APBReadOut data) | _ => tx end in
  (Done tx pos, false).

Definition answered_to (s : PullAPB) (txs : list APBTx) (p : option (nat * bool)) : PullAPB :=
  mkPullAPB (scheduled s) txs (pulling s) p (m_exe_gate s) (resolved s).

(** [RemovePending], [PrepareToResolve] and [Resolve]. *)
Definition resolve (s : PullAPB) (tx : APBTx) (rest : list APBTx) : PullAPB :=
  mkPullAPB (scheduled s) rest (pulling s) None (RemovePending <$> m_exe_gate s) (resolved s ++ [tx]).

(** [ConsumeResults] until it yields; the number of results consumed. *)
Fixpoint ConsumeResults (fuel : nat) (s : PullAPB) (results : list result) (consumed : nat)
    : option (nat * PullAPB) :=
  match fuel with
  | O => None
  | S fuel =>
      match in_progress s with
      | [] => Some (consumed, s)
      | tx :: rest =>
          match answering s with
          | None =>
              ConsumeResults fuel (answered_to s (tx :: rest) (Some (m_first_incomplete tx, false)))
                results consumed
          | Some (pos, failed) =>
              match ins tx !! pos with
              | None => ConsumeResults fuel (resolve s tx rest) results consumed
              | Some a =>
                  match results with
                  | [] => Some (consumed, s)
                  | r :: results =>
                      let '(tx, failed) := apply_result tx pos a failed r in
                      ConsumeResults fuel (answered_to s (tx :: rest) (Some (S pos, failed)))
                        results (S consumed)
                  end
              end
          end
      end
  end.

(** The results the first transaction still waits for. *)
Definition answering_left (s : PullAPB) (tx : APBTx) : nat :=
  match answering s with
  | Some (pos, _) => length (ins tx) - pos
  | None => length (incomplete_actions tx)
  end.

Definition push_fuel (s : PullAPB) : nat :=
  match in_progress s with
  | [] => 1
  | tx :: rest =>
      S (S (match answering s with Some _ => 0 | None => 1 end + answering_left s tx))
      + sum_list_with (λ tx, 2 + length (incomplete_actions tx)) rest
  end.

Definition PushResults (s : PullAPB) (results : list result) : option (nat * PullAPB) :=
  ConsumeResults (push_fuel s) s results 0.

(** [Terminate]: every transaction is resolved as it is. *)
Definition Terminate (s : PullAPB) : PullAPB :=
  mkPullAPB [] [] (pulling s) (answering s) (ExecutionGate.Terminate <$> m_exe_gate s)
    (resolved s ++ in_progress s ++ scheduled s).

(** ** Pulling *)

(** The commands of a transaction: the first one is marked. *)
Definition commands_of (acts : list APBAction) (first : bool) : list PulledCommand :=
  match acts with
  | [] => []
  | a :: acts => command_of a first :: ((λ a, command_of a false) <$> acts)
  end.

(** All the commands that the driver still has to deliver. *)
Definition commands_left (s : PullAPB) : list PulledCommand :=
  commands_of (pulling_actions s) (match pulling s with Some (_, first) => first | None => false end)
  ++ (scheduled s ≫= λ tx, commands_of (incomplete_actions tx) true).

(** A transaction that is pulled is in progress: its last command has not been
    answered before it was pulled. *)
Definition pull_ok (s : PullAPB) : Prop := is_Some (pulling s) → in_progress s ≠ [].

#[local] Arguments incomplete_actions : simpl never.

Lemma commands_of_cons acts first a :
  commands_of (a :: acts) first = command_of a first :: commands_of acts false.
Proof. by destruct acts. Qed.

Lemma ins_clear_out tx pos a : ins (clear_out tx pos a) = ins tx.
Proof. by destruct a. Qed.

(** Clearing a result does not change which actions there are. *)
Lemma clear_last txs tx pos a :
  last txs = Some tx →
  last (<[length txs - 1 := clear_out tx pos a]> txs) = Some (clear_out tx pos a)
  ∧ ins <$> <[length txs - 1 := clear_out tx pos a]> txs = ins <$> txs.
Proof.
  intros Hl. apply last_Some in Hl as [l ->]. rewrite length_app. cbn.
  replace (length l + 1 - 1) with (length l + 0) by lia. rewrite insert_app_r. cbn.
  rewrite last_snoc, !fmap_app. cbn. by rewrite ins_clear_out.
Qed.

Lemma GenerateCommands_spec fuel : ∀ s room commands,
  pull_fuel s ≤ fuel → pull_ok s →
  ∃ s', GenerateCommands fuel s room commands = Some (commands ++ take room (commands_left s), s')
    ∧ commands_left s' = drop room (commands_left s) ∧ pull_ok s'
    ∧ ins <$> (in_progress s' ++ scheduled s') = ins <$> (in_progress s ++ scheduled s)
    ∧ resolved s' = resolved s ∧ answering s' = answering s.
Proof.
  induction fuel as [|fuel IH]; intros [sch pr pu an gate res] room commands Hf Hok; [unfold pull_fuel in Hf; lia|].
  cbn [GenerateCommands pulling scheduled in_progress answering m_exe_gate resolved].
  destruct pu as [[pos first]|].
  - destruct (last pr) as [tx|] eqn:Hl; [|by apply last_None in Hl; destruct (Hok (mk_is_Some _ _ eq_refl))].
    cbn [mbind option_bind]. unfold pull_fuel, pulling_actions in Hf. cbn in Hf. rewrite Hl in Hf.
    assert (HC : commands_left (mkPullAPB sch pr (Some (pos, first)) an gate res) =
      commands_of (drop pos (ins tx)) first ++ (sch ≫= λ tx, commands_of (incomplete_actions tx) true))
      by (unfold commands_left, pulling_actions; cbn; by rewrite Hl).
    destruct (ins tx !! pos) as [a|] eqn:Ha.
    + rewrite (drop_S _ _ _ Ha) in *. rewrite commands_of_cons in HC. destruct room as [|room].
      { eexists. cbn. rewrite app_nil_r. by split_and!. }
      destruct (clear_last pr tx pos a Hl) as [Hl' Hi].
      destruct (IH (pulled_to (mkPullAPB sch pr (Some (pos, first)) an gate res)
          (<[length pr - 1 := clear_out tx pos a]> pr) (Some (S pos, false))) room (commands ++ [command_of a first]))
        as (s' & He & Hc & Hok' & Hq & Hr & Han).
      { unfold pull_fuel, pulling_actions; cbn. rewrite Hl', ins_clear_out. cbn in Hf. lia. }
      { intros _. cbn. destruct pr; [done|]. cbn. by destruct (length pr - 0). }
      exists s'. rewrite He, Hc, HC. unfold commands_left, pulling_actions. cbn. rewrite Hl', ins_clear_out, <-app_assoc.
      split_and!; try done. rewrite Hq. cbn. by rewrite !fmap_app, Hi.
    + rewrite drop_ge in * by (by apply lookup_ge_None). cbn in Hf.
      destruct (IH (pulled_to (mkPullAPB sch pr (Some (pos, first)) an gate res) pr None) room commands)
        as (s' & He & Hc & Hok' & Hrest); [unfold pull_fuel, pulling_actions; cbn; lia|by intros [? ?]|].
      exists s'. rewrite He, Hc, HC. done.
  - destruct sch as [|tx q].
    + eexists. cbn. rewrite take_nil, app_nil_r. split_and!; try done; by rewrite drop_nil.
    + cbn in Hf. destruct (IH (mkPullAPB q (pr ++ [tx]) (Some (m_first_incomplete tx, true)) an gate res) room commands)
        as (s' & He & Hc & Hok' & Hq & Hrest).
      { unfold pull_fuel, pulling_actions; cbn. rewrite last_snoc. unfold pull_fuel in Hf; cbn in Hf.
        unfold incomplete_actions in Hf at 1. lia. }
      { intros _. cbn. by destruct pr. }
      exists s'. rewrite He, Hc. unfold commands_left, pulling_actions. cbn. rewrite last_snoc.
      split_and!; try done; try apply Hrest. rewrite Hq. cbn. by rewrite <-app_assoc.
Qed.

(** ** Pushing *)

(** The answers to the actions of a transaction from [pos] on. *)
Fixpoint settle (tx : APBTx) (pos : nat) (failed : bool) (acts : list APBAction) (rs : list result) : APBTx :=
  match acts, rs with
  | a :: acts, r :: rs =>
      let '(tx, failed) := apply_result tx pos a failed r in settle tx (S pos) failed acts rs
  | _, _ => tx
  end.

Lemma ins_apply_result tx pos a failed r : ins (apply_result tx pos a failed r).1 = ins tx.
Proof.
  unfold apply_result. destruct r as [st d], failed; [done|].
  destruct (st =? PStatusError)%Z; [apply Fail_keeps|]. destruct (st =? PStatusTimeout)%Z; [apply Fail_keeps|].
  by destruct a.
Qed.

Lemma ConsumeResults_S fuel s results consumed :
  ConsumeResults (S fuel) s results consumed =
  match in_progress s with
  | [] => Some (consumed, s)
  | tx :: rest =>
      match answering s with
      | None =>
          ConsumeResults fuel (answered_to s (tx :: rest) (Some (m_first_incomplete tx, false))) results consumed
      | Some (pos, failed) =>
          match ins tx !! pos with
          | None => ConsumeResults fuel (resolve s tx rest) results consumed
          | Some a =>
              match results with
              | [] => Some (consumed, s)
              | r :: results =>
                  let '(tx, failed) := apply_result tx pos a failed r in
                  ConsumeResults fuel (answered_to s (tx :: rest) (Some (S pos, failed))) results (S consumed)
              end
          end
      end
  end.
Proof. done. Qed.

Lemma ConsumeResults_more fuel : ∀ fuel' s rs k x,
  fuel ≤ fuel' → ConsumeResults fuel s rs k = Some x → ConsumeResults fuel' s rs k = Some x.
Proof.
  induction fuel as [|fuel IH]; intros fuel' s rs k x Hle H; [done|]. destruct fuel' as [|fuel']; [lia|].
  rewrite ConsumeResults_S in H |- *. destruct (in_progress s) as [|tx rest]; [done|].
  destruct (answering s) as [[pos failed]|]; [|apply IH; [lia|done]].
  destruct (ins tx !! pos); [|apply IH; [lia|done]]. destruct rs; [done|].
  destruct (apply_result _ _ _ _ _). apply IH; [lia|done].
Qed.

(** Two pushes are one push of all the results. *)
Lemma ConsumeResults_app fuel : ∀ s rs1 rs2 k s1 fuel2 x,
  ConsumeResults fuel s rs1 k = Some (k + length rs1, s1) →
  ConsumeResults fuel2 s1 rs2 (k + length rs1) = Some x →
  ConsumeResults (fuel + fuel2) s (rs1 ++ rs2) k = Some x.
Proof.
  induction fuel as [|fuel IH]; intros s rs1 rs2 k s1 fuel2 x H1 H2; [done|]. rewrite ConsumeResults_S in H1.
  destruct (in_progress s) as [|tx rest] eqn:Hp.
  { injection H1 as Hk <-. assert (rs1 = []) as -> by (apply nil_length_inv; lia).
    cbn in H2. rewrite Nat.add_0_r in H2. eapply ConsumeResults_more; [|done]. lia. }
  cbn [Nat.add]. rewrite ConsumeResults_S, Hp.
  destruct (answering s) as [[pos failed]|] eqn:Ha; [|by eapply IH].
  destruct (ins tx !! pos) eqn:Hi; [|by eapply IH]. destruct rs1 as [|r rs1]; cbn [app].
  - injection H1 as _ <-. cbn in H2. rewrite Nat.add_0_r in H2. destruct fuel2 as [|fuel2]; [done|].
    rewrite ConsumeResults_S, Hp, Ha, Hi in H2. destruct rs2; [done|]. destruct (apply_result _ _ _ _ _).
    eapply ConsumeResults_more; [|done]. lia.
  - destruct (apply_result _ _ _ _ _). cbn in H1, H2. rewrite <-Nat.add_succ_comm in H1, H2. by eapply IH.
Qed.

(** Answering the first transaction from action [pos] on. *)
Lemma ConsumeResults_tx acts : ∀ s tx rest pos failed fuel rs k,
  in_progress s = tx :: rest → answering s = Some (pos, failed) → drop pos (ins tx) = acts →
  length acts ≤ length rs →
  ConsumeResults (S (length acts) + fuel) s rs k
  = ConsumeResults fuel (resolve s (settle tx pos failed acts rs) rest) (drop (length acts) rs) (k + length acts).
Proof.
  induction acts as [|a acts IH]; intros s tx rest pos failed fuel rs k Hp Ha Hd Hl;
    rewrite Nat.add_succ_l, ConsumeResults_S, Hp, Ha.
  - rewrite lookup_ge_None_2; [|apply (f_equal length) in Hd; rewrite length_drop in Hd; cbn in Hd; lia].
    cbn. by rewrite Nat.add_0_r.
  - assert (Hi : ins tx !! pos = Some a).
    { rewrite <-(Nat.add_0_r pos), <-lookup_drop, Hd. done. }
    rewrite Hi. destruct rs as [|r rs]; [cbn in Hl; lia|]. cbn [settle drop length] in *.
    pose proof (ins_apply_result tx pos a failed r) as Hins. destruct (apply_result _ _ _ _ _) as [tx' f'].
    rewrite (IH _ tx' rest (S pos) f'); cbn in *; try done; try lia.
    + f_equal. lia.
    + rewrite Hins. rewrite (drop_S _ _ _ Hi) in Hd. by injection Hd.
Qed.

Definition tx_results (tx : APBTx) : nat := length (ins tx).

Fixpoint settle_all (txs : list APBTx) (rs : list result) : list APBTx :=
  match txs with
  | [] => []
  | tx :: txs => settle tx 0 false (ins tx) rs :: settle_all txs (drop (tx_results tx) rs)
  end.

Definition submitted (tx : APBTx) : Prop :=
  m_first_incomplete tx = 0 ∧ had_allocation_failure tx = false ∧ m_error_buffer tx = None
  ∧ length (outs tx) = length (ins tx).

Lemma ConsumeResults_all txs : ∀ s fuel rs k,
  in_progress s = txs → answering s = None → Forall submitted txs →
  sum_list_with tx_results txs ≤ length rs → push_fuel s ≤ fuel →
  ConsumeResults fuel s rs k
  = Some (k + sum_list_with tx_results txs,
      mkPullAPB (scheduled s) [] (pulling s) None (removed (length txs) (m_exe_gate s))
        (resolved s ++ settle_all txs rs)).
Proof.
  induction txs as [|tx txs IH]; intros s fuel rs k Hp Ha Hsub Hn Hf; unfold push_fuel in Hf; rewrite Hp in Hf.
  - destruct fuel as [|fuel]; [lia|]. rewrite ConsumeResults_S, Hp. cbn. rewrite Nat.add_0_r, app_nil_r.
    destruct s; cbn in *; by subst.
  - apply Forall_cons in Hsub as [(H0 & _) Hsub]. cbn in Hn. rewrite Ha in Hf. unfold answering_left in Hf.
    rewrite Ha in Hf. assert (Hi : incomplete_actions tx = ins tx) by (unfold incomplete_actions; by rewrite H0).
    rewrite Hi in Hf. destruct fuel as [|fuel]; [lia|]. rewrite ConsumeResults_S, Hp, Ha, H0.
    replace fuel with (S (length (ins tx)) + (fuel - S (length (ins tx)))) by lia.
    rewrite (ConsumeResults_tx (ins tx) _ tx txs 0 false) by (done || unfold tx_results in Hn; lia).
    rewrite IH; try done.
    + cbn. by rewrite Nat.add_assoc, <-app_assoc.
    + rewrite length_drop. unfold tx_results in *. lia.
    + unfold push_fuel. cbn [in_progress resolve]. destruct txs as [|tx2 txs]; [cbn in Hf; lia|].
      cbn [sum_list_with] in Hf. unfold answering_left. cbn [answering resolve answered_to]. lia.
Qed.

(** *** The outcome of a transaction *)

Definition is_ok (r : result) : bool := negb (r.1 =? PStatusError)%Z && negb (r.1 =? PStatusTimeout)%Z.

(** The number of results in front of the first failure. *)
Fixpoint leading_ok (rs : list result) : nat :=
  match rs with r :: rs => if is_ok r then S (leading_ok rs) else 0 | [] => 0 end.

Definition failure_cause (r : result) : Cause :=
  if (r.1 =? PStatusError)%Z then CauseTargetError else CauseTimeoutInCycles r.2.

(** What the results [rs] make of a transaction. *)
Record outcome (tx : APBTx) (rs : list result) (tx' : APBTx) : Prop := {
  out_done : m_first_incomplete tx' = leading_ok rs;
  out_ok : status_ok tx' = (leading_ok rs =? length (ins tx))%nat;
  out_error : m_error_buffer tx' =
    match rs !! leading_ok rs with
    | Some r => Some (mkActionError (AnyAPB <$> ins tx !! leading_ok rs) (failure_cause r))
    | None => None
    end;
  out_read : ∀ i address r, i < leading_ok rs → ins tx !! i = Some (APBRead address) → rs !! i = Some r →
    outs tx' !! i = Some (APBReadOut r.2);
}.

Lemma settle_failed acts : ∀ tx pos rs, settle tx pos true acts rs = tx.
Proof. induction acts as [|a acts IH]; intros tx pos [|[st d] rs]; try done. cbn. apply IH. Qed.

Lemma settle_take acts : ∀ tx pos failed rs,
  settle tx pos failed acts (take (length acts) rs) = settle tx pos failed acts rs.
Proof.
  induction acts as [|a acts IH]; intros tx pos failed [|r rs]; try done. cbn. destruct (apply_result _ _ _ _ _). apply IH.
Qed.

(** The invariant of answering: [pos] actions are done. *)
Lemma settle_spec acts : ∀ tx pos rs,
  m_first_incomplete tx = pos → had_allocation_failure tx = false → m_error_buffer tx = None →
  length (outs tx) = length (ins tx) → drop pos (ins tx) = acts → length acts = length rs → pos ≤ length (ins tx) →
  let tx' := settle tx pos false acts rs in
  ins tx' = ins tx ∧ had_allocation_failure tx' = false ∧ m_first_incomplete tx' = pos + leading_ok rs
  ∧ m_error_buffer tx' =
      match rs !! leading_ok rs with
      | Some r => Some (mkActionError (AnyAPB <$> acts !! leading_ok rs) (failure_cause r))
      | None => None
      end
  ∧ take pos (outs tx') = take pos (outs tx)
  ∧ (∀ i address r, i < leading_ok rs → acts !! i = Some (APBRead address) → rs !! i = Some r →
       outs tx' !! (pos + i) = Some (APBReadOut r.2)).
Proof.
  induction acts as [|a acts IH]; intros tx pos rs Hm Ha He Ho Hd Hl Hpos; cbn.
  { destruct rs; [|done]. cbn. rewrite Nat.add_0_r. split_and!; try done; lia. }
  destruct rs as [|r rs]; [done|]. cbn in Hl. injection Hl as Hl. cbn [leading_ok].
  assert (Hi : ins tx !! pos = Some a) by (rewrite <-(Nat.add_0_r pos), <-lookup_drop, Hd; done).
  assert (Hok : status_ok tx = false).
  { unfold status_ok, End. rewrite Ha, Hm. cbn. apply Nat.eqb_neq. apply lookup_lt_Some in Hi. lia. }
  unfold apply_result, is_ok. destruct r as [st d]. cbn [fst].
  destruct (st =? PStatusError)%Z eqn:E1; [|destruct (st =? PStatusTimeout)%Z eqn:E2]; cbn [negb andb].
  1,2: rewrite settle_failed; unfold Fail; rewrite Hok; unfold FailImpl; cbn; rewrite Hm, Hi, Nat.add_0_r;
    unfold failure_cause; cbn; rewrite E1; split_and!; try done; lia.
  set (tx1 := Done _ _).
  assert (Hins : ins tx1 = ins tx) by (subst tx1; by destruct a).
  assert (Houts : length (outs tx1) = length (ins tx)) by (subst tx1; destruct a; cbn; by rewrite ?length_insert).
  assert (Hm1 : m_first_incomplete tx1 = S pos) by (subst tx1; apply (Done_here _ _ a); by destruct a).
  destruct (IH tx1 (S pos) rs) as (H1 & H2 & H3 & H4 & H5 & H6).
  { done. } { subst tx1; by destruct a. } { subst tx1; by destruct a. } { by rewrite Hins. }
  { rewrite Hins. rewrite (drop_S _ _ _ Hi) in Hd. by injection Hd. } { done. }
  { rewrite Hins. by apply lookup_lt_Some in Hi. }
  split_and!; [by rewrite H1|done|rewrite H3; lia|done| |].
  - apply (f_equal (take pos)) in H5. rewrite !take_take, !Nat.min_l in H5 by lia. rewrite H5.
    subst tx1. destruct a; cbn; [done|done|by rewrite take_insert_ge|done].
  - intros i address r Hlt Hacts Hr. destruct i as [|i].
    + injection Hacts as ->. injection Hr as <-. rewrite Nat.add_0_r.
      rewrite <-(lookup_take_lt _ (S pos)), H5, lookup_take_lt by lia. subst tx1. cbn.
      apply list_lookup_insert_eq. rewrite Ho. by apply lookup_lt_Some in Hi.
    + cbn in Hacts, Hr. rewrite Nat.add_succ_r. apply (H6 i address); [lia|done|done].
Qed.

Lemma settle_outcome tx rs :
  submitted tx → length rs = length (ins tx) → outcome tx rs (settle tx 0 false (ins tx) rs).
Proof.
  intros (Hm & Ha & He & Ho) Hl.
  destruct (settle_spec (ins tx) tx 0 rs) as (H1 & H2 & H3 & H4 & _ & H6); try done; [lia|].
  split; [done| |done|exact H6]. unfold status_ok, End. by rewrite H1, H2, H3.
Qed.

(** *** Pushing in pieces *)

Definition remaining (s : PullAPB) : nat :=
  match in_progress s with
  | [] => 0
  | tx :: rest => answering_left s tx + sum_list_with (λ tx, length (incomplete_actions tx)) rest
  end.

Lemma ConsumeResults_total fuel : ∀ s rs k,
  push_fuel s ≤ fuel →
  ∃ n s', ConsumeResults fuel s rs k = Some (k + n, s')
    ∧ n + remaining s' = remaining s ∧ n ≤ length rs ∧ (n = length rs ∨ in_progress s' = []).
Proof.
  induction fuel as [|fuel IH]; intros s rs k Hf; [unfold push_fuel in Hf; destruct (in_progress s); lia|].
  rewrite ConsumeResults_S. unfold push_fuel in Hf. unfold remaining at 2.
  destruct (in_progress s) as [|tx rest] eqn:Hp.
  { exists 0, s. rewrite Nat.add_0_r. unfold remaining. rewrite Hp. split_and!; [done|done|lia|by right]. }
  unfold answering_left in Hf |- *. destruct (answering s) as [[pos failed]|] eqn:Ha.
  - destruct (ins tx !! pos) as [a|] eqn:Hi.
    + apply lookup_lt_Some in Hi as Hlt. destruct rs as [|r rs].
      { exists 0, s. rewrite Nat.add_0_r. unfold remaining, answering_left. rewrite Hp, Ha. split_and!; [done|lia|done|by left]. }
      pose proof (ins_apply_result tx pos a failed r) as Hins. destruct (apply_result _ _ _ _ _) as [tx' f']. cbn in Hins.
      destruct (IH (answered_to s (tx' :: rest) (Some (S pos, f'))) rs (S k)) as (n & s' & He & Hr & Hn & Hd).
      { unfold push_fuel. cbn [in_progress answered_to answering answering_left]. unfold answering_left; cbn [answering answered_to]. rewrite Hins. lia. }
      exists (S n), s'. rewrite <-Nat.add_succ_comm. unfold remaining at 2, answering_left in Hr. cbn in Hr. rewrite Hins in Hr.
      cbn. split_and!; [done|lia|lia|destruct Hd; [left; lia|by right]].
    + destruct (IH (resolve s tx rest) rs k) as (n & s' & He & Hr & Hn & Hd).
      { unfold push_fuel. cbn [in_progress resolve]. destruct rest as [|tx2 rest]; [lia|].
        cbn [sum_list_with] in Hf. unfold answering_left. cbn [answering resolve]. lia. }
      exists n, s'. split_and!; [done| |done|done]. rewrite Hr. apply lookup_ge_None in Hi.
      unfold remaining. cbn [in_progress resolve]. replace (length (ins tx) - pos) with 0 by lia.
      by destruct rest.
  - destruct (IH (answered_to s (tx :: rest) (Some (m_first_incomplete tx, false))) rs k) as (n & s' & He & Hr & Hn & Hd).
    { unfold push_fuel, answering_left. cbn [in_progress answered_to answering].
      unfold incomplete_actions in Hf at 1. rewrite length_drop in Hf. lia. }
    exists n, s'. split_and!; [done| |done|done]. rewrite Hr. unfold remaining, answering_left. cbn.
    unfold incomplete_actions at 2. by rewrite length_drop.
Qed.

Lemma ConsumeResults_count fuel : ∀ s rs k c n s',
  ConsumeResults fuel s rs k = Some (n, s') → ConsumeResults fuel s rs (c + k) = Some (c + n, s').
Proof.
  induction fuel as [|fuel IH]; intros s rs k c n s' H; [done|]. rewrite ConsumeResults_S in H |- *.
  destruct (in_progress s) as [|tx rest]; [by simplify_eq|].
  destruct (answering s) as [[pos failed]|]; [|by apply IH]. destruct (ins tx !! pos); [|by apply IH].
  destruct rs; [by simplify_eq|]. destruct (apply_result _ _ _ _ _). rewrite <-Nat.add_succ_r. by apply IH.
Qed.

(** A simulator that pushes results in pieces, each of which is taken whole. *)
Fixpoint push_all (s : PullAPB) (chunks : list (list result)) : option PullAPB :=
  match chunks with
  | [] => Some s
  | c :: chunks =>
      '(consumed, s) ← PushResults s c;
      if (consumed =? length c)%nat then push_all s chunks else None
  end.

Lemma push_results_concat chunks : ∀ s,
  chunks ≠ [] → length (concat chunks) ≤ remaining s →
  ∃ s' fuel, push_all s chunks = Some s'
    ∧ ConsumeResults fuel s (concat chunks) 0 = Some (length (concat chunks), s').
Proof.
  induction chunks as [|c chunks IH]; intros s Hne Hlen; [done|].
  cbn [push_all concat] in *. rewrite length_app in Hlen. unfold PushResults.
  destruct (ConsumeResults_total (push_fuel s) s c 0) as (n & s1 & H1 & Hr & Hn & Hd); [done|].
  assert (n = length c) as ->.
  { destruct Hd as [|Hp]; [done|]. unfold remaining at 1 in Hr. rewrite Hp in Hr. lia. }
  rewrite H1. cbn [mbind option_bind Nat.add]. rewrite Nat.eqb_refl.
  destruct (decide (chunks = [])) as [->|Hne'].
  { exists s1, (push_fuel s). cbn. by rewrite app_nil_r. }
  destruct (IH s1 Hne') as (s2 & fuel2 & Hp & Hg); [lia|].
  exists s2, (push_fuel s + fuel2). split; [done|]. rewrite length_app.
  eapply ConsumeResults_app; [exact H1|].
  apply (ConsumeResults_count _ _ _ _ (length c)) in Hg. by rewrite Nat.add_0_r in Hg.
Qed.

(** ** Properties *)

(** A pull returns the next commands of the queued transactions, one per
    action and in order, the first command of each transaction marked, as many as
    asked for and there are; the rest comes with the next pull, and no transaction
    is lost on the way. *)
Theorem PullCommands_in_order (s : PullAPB) (max_num_commands : nat) (Hok : pull_ok s) :
  ∃ s', PullCommands s max_num_commands = Some (take max_num_commands (commands_left s), s')
    ∧ commands_left s' = drop max_num_commands (commands_left s)
    ∧ pull_ok s' ∧ resolved s' = resolved s
    ∧ ins <$> (in_progress s' ++ scheduled s') = ins <$> (in_progress s ++ scheduled s)
    ∧ ∀ tx, commands_left (Execute s' tx) = commands_left s' ++ commands_of (incomplete_actions tx) true.
Proof.
  destruct (GenerateCommands_spec (pull_fuel s) s max_num_commands []) as (s' & He & Hc & Hok' & Hq & Hr & _); [done|done|].
  exists s'. split_and!; try done. intros tx. unfold commands_left, Execute, pulling_actions; cbn.
  by rewrite bind_app, app_assoc, bind_singleton.
Qed.

Lemma settle_all_outcomes txs : ∀ rs,
  Forall submitted txs → length rs = sum_list_with tx_results txs →
  ∃ rss, rs = concat rss ∧ Forall2 (λ rs tx, length rs = length (ins tx)) rss txs
    ∧ Forall2 (λ x tx', outcome x.2 x.1 tx') (zip rss txs) (settle_all txs rs).
Proof.
  induction txs as [|tx txs IH]; intros rs Hsub Hl; cbn in *.
  - exists []. rewrite (nil_length_inv rs) by done. split_and!; [done|constructor|constructor].
  - apply Forall_cons in Hsub as [Htx Hsub]. unfold tx_results at 1 in Hl.
    destruct (IH (drop (tx_results tx) rs) Hsub) as (rss & Hrs & Hlen & Hout).
    { rewrite length_drop. unfold tx_results in *. lia. }
    assert (Htake : length (take (tx_results tx) rs) = length (ins tx)) by (rewrite length_take; unfold tx_results; lia).
    exists (take (tx_results tx) rs :: rss). split_and!; [by cbn; rewrite <-Hrs, take_drop|by constructor|].
    cbn. constructor; [|done]. cbn. replace (settle tx 0 false (ins tx) rs) with (settle tx 0 false (ins tx) (take (tx_results tx) rs)).
    + by apply settle_outcome.
    + unfold tx_results. apply settle_take.
Qed.

(** C35: the results may be pushed in any pieces: every piece is taken whole and
    all the transactions in progress are resolved in order.  Each gets the results
    of its own commands, also behind one that failed: the reads in front of the
    first failure hold their data, and the failure is blamed on its action. *)
Theorem PushResults_settles (s : PullAPB) (chunks : list (list result))
    (Hne : chunks ≠ []) (Ha : answering s = None) (Hsub : Forall submitted (in_progress s))
    (Hlen : length (concat chunks) = sum_list_with tx_results (in_progress s)) :
  ∃ s' rss txs', push_all s chunks = Some s' ∧ in_progress s' = []
    ∧ concat chunks = concat rss
    ∧ Forall2 (λ rs tx, length rs = length (ins tx)) rss (in_progress s)
    ∧ resolved s' = resolved s ++ txs'
    ∧ Forall2 (λ x tx', outcome x.2 x.1 tx') (zip rss (in_progress s)) txs'
    ∧ m_exe_gate s' = removed (length (in_progress s)) (m_exe_gate s).
Proof.
  destruct (push_results_concat chunks s Hne) as (s' & fuel & Hp & He).
  { rewrite Hlen. apply Nat.eq_le_incl. unfold remaining, answering_left. rewrite Ha.
    clear -Hsub. destruct Hsub as [|tx txs (H0 & _) Hsub]; [done|]. cbn. unfold incomplete_actions at 1.
    rewrite H0, drop_0. unfold tx_results at 1. f_equal.
    induction Hsub as [|tx2 txs2 (H1 & _) _ IH]; [done|]. cbn. unfold incomplete_actions at 1.
    rewrite H1, drop_0. unfold tx_results at 1. by rewrite IH. }
  apply (ConsumeResults_more _ (fuel + push_fuel s)) in He; [|lia].
  rewrite (ConsumeResults_all (in_progress s)) in He by (done || lia). simplify_eq.
  destruct (settle_all_outcomes (in_progress s) (concat chunks) Hsub Hlen) as (rss & Hrs & Hl & Ho).
  eexists _, rss, _. split_and!; [exact Hp|done|done|done|done|done|done].
Qed.

(** *** Witnesses *)

Definition example_tx1 : APBTx :=
  mkTx [APBSetPSEL 1; APBRead 16; APBWrite 20 7] [APBOk; APBReadOut 0; APBOk] false 0 None.

Definition example_tx2 : APBTx := mkTx [APBRead 4] [APBReadOut 0] false 0 None.

Lemma PullCommands_in_order_witness :
  ∃ s', PullCommands (Execute (Execute (make_driver None) example_tx1) example_tx2) 2
    = Some ([mkCommand PSetPSEL true 0 1; mkCommand PRead false 16 0], s')
  ∧ commands_left s' = [mkCommand PWrite false 20 7; mkCommand PRead true 4 0].
Proof.
  destruct (PullCommands_in_order (Execute (Execute (make_driver None) example_tx1) example_tx2) 2)
    as (s' & He & Hc & _); [by intros [? ?]|].
  exists s'. rewrite He, Hc. done.
Defined.

Definition example_pulled : PullAPB :=
  mkPullAPB [] [example_tx1; example_tx2] None None (Some (mkGate NoStall 2)) [].

Lemma PushResults_settles_witness :
  ∃ s', push_all example_pulled [[(0, 0); (2, 100)]; [(0, 5); (0, 42)]]%Z = Some s'
    ∧ outs <$> resolved s' = [[APBOk; APBReadOut 0; APBOk]; [APBReadOut 42]]
    ∧ status_ok <$> resolved s' = [false; true]
    ∧ m_exe_gate s' = Some (mkGate NoStall 0).
Proof.
  destruct (PushResults_settles example_pulled [[(0, 0); (2, 100)]; [(0, 5); (0, 42)]]%Z)
    as (s' & rss & txs' & Hp & _ & _ & _ & _ & _ & Hg); [done|done|repeat constructor|done|].
  exists s'. rewrite Hg. vm_compute in Hp. injection Hp as <-. done.
Defined.
