(* ===== verification/RVJtagDTM.v ===== *)
(** * RVJtagDTM: accesses to a RISC-V debug module over JTAG
    ([src/src/libedr/driver/riscv/RVJtagDTM.cpp], [RVJtagDTM.h]).

    The driver translates a transaction into one of the JTAG chain, waits for it
    and interprets its results, as long as the target answers that it is busy.
    An attempt is two functions, before and after the wait; the chain's
    [Schedule] is a parameter of their composition.  [None] is the use of a null
    pointer. *)
From S2P Require Import Prelude LatencyCalibrator Actions Transaction JtagTap JtagChain.
From stdpp Require Import strings.
Local Open Scope Z_scope.

(** ** Registers *)

(** A bit field of a register. *)
Definition field (v : Z) (lo len : nat) : Z := Z.shiftr v (Z.of_nat lo) mod 2 ^ Z.of_nat len.

(** [DTMCSReg]. *)
Definition dtmcs_version (v : Z) : Z := field v 0 4.
Definition dtmcs_abits (v : Z) : Z := field v 4 6.
Definition dtmcs_idle (v : Z) : Z := field v 12 3.
Definition dtmcs_errinfo (v : Z) : Z := field v 18 3.
Definition dmireset : Z := Z.shiftl 1 16.
Definition dtmhardreset : Z := Z.shiftl 1 17.

Definition g_dmi_op_bitsize : nat := 2.
Definition g_dmi_data_bitsize : nat := 32.
Definition g_dmi_addr_bitsize : nat := 30.

(** [DMIReg]. *)
Definition dmi_op (v : Z) : Z := field v 0 2.
Definition dmi_data (v : Z) : Z := field v 2 32.
Definition dmi_address (v : Z) : Z := field v 34 30.

Definition make_dmi (op data address : Z) : Z := op + Z.shiftl data 2 + Z.shiftl address 34.

Definition DMIOpRead : Z := 1.
Definition DMIOpWrite : Z := 2.
Definition DMIStatusOk : Z := 0.
Definition DMIStatusBusy : Z := 3.

(** ** State *)

Inductive DTMState := Initial | Operating | ErrorState | Invalid.

#[export] Instance DTMState_eq_dec : EqDecision DTMState.
Proof. solve_decision. Defined.

Inductive AttemptStatus := Success | MyFailure | PrevFailure | MyBusy | PrevBusy.

#[export] Instance AttemptStatus_eq_dec : EqDecision AttemptStatus.
Proof. solve_decision. Defined.

Record State := mkState { dtm_state : DTMState; num_errors : Z }.

Record Configuration := mkConfiguration {
  tap_id : nat; dtmcs_ir_value : Z; dmi_ir_value : Z; latency : LatencyCalibrator;
}.

Record DTM := mkDTM { m_config : Configuration; m_state : State; m_dmi_size : nat }.

Definition initial_dtm (config : Configuration) : DTM := mkDTM config (mkState Initial 0) 0.

Definition with_state (d : DTM) (s : State) : DTM := mkDTM (m_config d) s (m_dmi_size d).

Definition with_dtm_state (d : DTM) (s : DTMState) : DTM := with_state d (mkState s (num_errors (m_state d))).

Definition with_latency (d : DTM) (l : LatencyCalibrator) : DTM :=
  mkDTM (mkConfiguration (tap_id (m_config d)) (dtmcs_ir_value (m_config d)) (dmi_ir_value (m_config d)) l)
    (m_state d) (m_dmi_size d).

(** The results of the actions. *)
Inductive RVOut := RVOk | RVReadOut (data : Z).

Abbreviation RVTx := (Tx RVDTMAction RVOut).

Definition fail (tx : RVTx) (cause : Cause) : RVTx := Fail AnyRVDTM tx cause.

(** The bits of a register as an action of the chain carries them. *)
Definition shift_dr (v : Z) (n : nat) : JtagChainAction := JCShiftDR (zbits n v).

Definition go_to (s : JCState) (cycles : Z) : JtagChainAction := JCGoToState (JCStateID s) (Z.to_nat cycles).

(** [Bits().Read(n)] of a result. *)
Definition read_out (o : JCOut) (n : nat) : option Z :=
  match o with
  | JCShiftOut num_bits bits => Some (bits_z (take n (take num_bits bits)))
  | JCDone => None
  end.

(** ** Discovery *)

Definition discover_actions (d : DTM) : list JtagChainAction :=
  [JCSelectTAP (tap_id (m_config d)); JCWriteIR (dtmcs_ir_value (m_config d));
   shift_dr (dmireset + dtmhardreset) 32; go_to RunTestIdle 0; shift_dr 0 32].

(** [Discover] after the wait. *)
Definition DiscoverEnd (d : DTM) (tx : RVTx) (result : JCTx) : option (bool * DTM * RVTx) :=
  if negb (status_ok result) then Some (false, d, fail tx (CauseNestedError (m_error_buffer result))) else
  match outs result !! 4%nat with
  | None => Some (false, d, fail tx CauseAllocationFailure)
  | Some out =>
      dtmcs ← read_out out 32;
      if dtmcs_version dtmcs =? 0
      then Some (false, d, fail tx (CauseInvalidVersion "RISC-V DTM" (dtmcs_version dtmcs))) else
      if negb (dtmcs_errinfo dtmcs =? 0)
      then Some (false, d, fail tx (CauseFailedToClearErrorFlag "dtmcs.errinfo" (dtmcs_errinfo dtmcs))) else
      if Z.of_nat g_dmi_addr_bitsize <? dtmcs_abits dtmcs
      then Some (false, d, fail tx (CauseValueOutOfRange "dtmcs.abits" (dtmcs_abits dtmcs) 0
                                       (Z.of_nat g_dmi_addr_bitsize))) else
      let dmi_size := (g_dmi_op_bitsize + g_dmi_data_bitsize + Z.to_nat (dtmcs_abits dtmcs))%nat in
      let min_latency := if dtmcs_idle dtmcs =? 0 then 0 else dtmcs_idle dtmcs - 1 in
      let d := with_latency d (BumpMin (latency (m_config d)) min_latency) in
      Some (true, mkDTM (m_config d) (m_state d) dmi_size, tx)
  end.

(** ** Attempts *)

(** The address of an access and its register value. *)
Definition access (a : RVDTMAction) : option (Z * Z) :=
  match a with
  | RVSkipCycles _ => None
  | RVWriteDMI address data => Some (address, make_dmi DMIOpWrite data address)
  | RVReadDMI address => Some (address, make_dmi DMIOpRead 0 address)
  end.

(** The actions for the accesses; the position and the address of one that is out
    of range. *)
Fixpoint build (d : DTM) (max_address : Z) (waiting_for_first : bool) (pos : nat) (acts : list RVDTMAction)
    : (nat * Z) + list JtagChainAction :=
  match acts with
  | [] => inr []
  | a :: acts =>
      match a with
      | RVSkipCycles num_cycles =>
          match build d max_address waiting_for_first (S pos) acts with
          | inl e => inl e
          | inr xact => inr (go_to RunTestIdle num_cycles :: xact)
          end
      | _ =>
          if waiting_for_first then build d max_address false (S pos) acts else
          match access a with
          | None => inr []
          | Some (address, dmi) =>
              if max_address <? address then inl (pos, address) else
              match build d max_address false (S pos) acts with
              | inl e => inl e
              | inr xact =>
                  inr (shift_dr dmi (m_dmi_size d) :: go_to RunTestIdle (Get (latency (m_config d))) :: xact)
              end
          end
      end
  end.

Definition incomplete_actions (tx : RVTx) : list RVDTMAction := drop (m_first_incomplete tx) (ins tx).

Definition max_address (d : DTM) : Z :=
  Z.shiftl 1 (Z.of_nat (m_dmi_size d - g_dmi_op_bitsize - g_dmi_data_bitsize)) - 1.

(** [Attempt] up to the wait: the failed transaction, or the actions for the chain. *)
Definition AttemptBegin (d : DTM) (tx : RVTx) (prev_attempt : AttemptStatus)
    : RVTx + (list JtagChainAction * DTM) :=
  let waiting := bool_decide (prev_attempt = MyBusy) in
  let in_error := bool_decide (dtm_state (m_state d) = ErrorState) in
  let reset :=
    if in_error then [JCWriteIR (dtmcs_ir_value (m_config d)); JCWriteDR (zbits 32 dmireset)] else [] in
  let d' := if in_error then with_dtm_state d Operating else d in
  match build d (max_address d) waiting (m_first_incomplete tx) (incomplete_actions tx) with
  | inl (pos, address) =>
      inl (FailAt AnyRVDTM tx pos (CauseValueOutOfRange "DMI address" address 0 (max_address d)))
  | inr xact =>
      inr (JCSelectTAP (tap_id (m_config d)) :: reset ++ JCWriteIR (dmi_ir_value (m_config d)) :: xact
             ++ [shift_dr 0 (m_dmi_size d); go_to UpdateDR 0], d')
  end.

(** What [Attempt] works on after the wait: the driver, the transaction and the
    completed actions of the chain that are not consumed. *)
Record cursor := mkCursor { cur_dtm : DTM; cur_tx : RVTx; jit : list (JtagChainAction * JCOut) }.

Definition nested_failure (c : cursor) (jerror : option ActionError) : cursor :=
  mkCursor (with_dtm_state (cur_dtm c) Invalid) (fail (cur_tx c) (CauseNestedError jerror)) (jit c).

Definition check_fail_inc (jerror : option ActionError) (c : cursor) : bool * cursor :=
  match jit c with
  | [] => (true, nested_failure c jerror)
  | _ :: rest => (false, mkCursor (cur_dtm c) (cur_tx c) rest)
  end.

(** [check_fail_inc() || check_fail_inc()]. *)
Definition check_fail_inc2 (jerror : option ActionError) (c : cursor) : bool * cursor :=
  let '(failed, c) := check_fail_inc jerror c in
  if failed then (true, c) else check_fail_inc jerror c.

Definition with_tx (c : cursor) (tx : RVTx) : cursor := mkCursor (cur_dtm c) tx (jit c).

(** The answer of the target to the access at [pos]. *)
Definition access_result (errors_before : Z) (c : cursor) (pos : nat) (a : RVDTMAction) (dmi_out : Z)
    : option AttemptStatus * cursor :=
  if dmi_op dmi_out =? DMIStatusOk then
    let tx := match a with
              | RVReadDMI _ => set_out (cur_tx c) pos (RVReadOut (dmi_data dmi_out))
              | _ => cur_tx c
              end in
    (None, with_tx c (Done tx pos))
  else
    let my_error := errors_before =? num_errors (m_state (cur_dtm c)) in
    let d := if my_error
             then with_state (cur_dtm c) (mkState ErrorState u64[num_errors (m_state (cur_dtm c)) + 1])
             else cur_dtm c in
    let c := mkCursor d (cur_tx c) (jit c) in
    if dmi_op dmi_out =? DMIStatusBusy
    then (Some (if my_error then MyBusy else PrevBusy), c)
    else (Some (if my_error then MyFailure else PrevFailure), with_tx c (fail (cur_tx c) CauseTargetError)).

(** The loop over the incomplete actions; [skip_first]: the results of the first
    access' own scan are still to be skipped. *)
Fixpoint interpret (jerror : option ActionError) (errors_before : Z) (skip_first : bool) (c : cursor)
    (pos : nat) (acts : list RVDTMAction) : option (AttemptStatus * cursor) :=
  match acts with
  | [] => Some (Success, c)
  | a :: acts =>
      match a with
      | RVSkipCycles _ =>
          let '(failed, c) := check_fail_inc jerror c in
          if failed then Some (MyFailure, c) else
          interpret jerror errors_before skip_first (with_tx c (Done (cur_tx c) pos)) (S pos) acts
      | _ =>
          let '(failed, c) := if skip_first then check_fail_inc2 jerror c else (false, c) in
          if failed then Some (MyFailure, c) else
          match jit c with
          | [] => Some (MyFailure, nested_failure c jerror)
          | (_, out) :: rest =>
              dmi_out ← read_out out (m_dmi_size (cur_dtm c));
              let '(_, c) := check_fail_inc jerror (mkCursor (cur_dtm c) (cur_tx c) rest) in
              let '(status, c) := access_result errors_before c pos a dmi_out in
              match status with
              | Some status => Some (status, c)
              | None => interpret jerror errors_before false c (S pos) acts
              end
          end
      end
  end.

(** [Attempt] after the wait. *)
Definition AttemptEnd (d : DTM) (state_before : State) (prev_attempt : AttemptStatus) (tx : RVTx)
    (jstatus : JCTx) : option (AttemptStatus * cursor) :=
  let jerror := m_error_buffer jstatus in
  let complete := take (m_first_incomplete jstatus) (zip (ins jstatus) (outs jstatus)) in
  let '(_, c) := check_fail_inc jerror (mkCursor d tx complete) in
  let '(failed, c) :=
    if bool_decide (dtm_state state_before = ErrorState) then check_fail_inc2 jerror c else (false, c) in
  if failed then Some (MyFailure, c) else
  let '(_, c) := check_fail_inc jerror c in
  interpret jerror (num_errors state_before) (negb (bool_decide (prev_attempt = MyBusy))) c
    (m_first_incomplete tx) (incomplete_actions tx).

(** ** Execution *)

Section execution.
(** The chain below: what [Schedule] makes of a list of actions. *)
Context {E : Type} (schedule : E → list JtagChainAction → JCTx * E).

(** One attempt with nothing in between. *)
Definition Attempt (d : DTM) (tx : RVTx) (prev_attempt : AttemptStatus) (e : E)
    : option (AttemptStatus * DTM * RVTx * E) :=
  match AttemptBegin d tx prev_attempt with
  | inl tx => Some (MyFailure, d, tx, e)
  | inr (xact, d') =>
      let '(jstatus, e) := schedule e xact in
      '(status, c) ← AttemptEnd d' (m_state d) prev_attempt tx jstatus;
      Some (status, cur_dtm c, cur_tx c, e)
  end.

(** The loop of [Execute]. *)
Fixpoint AttemptLoop (fuel : nat) (d : DTM) (tx : RVTx) (prev_attempt : AttemptStatus) (e : E)
    : option (DTM * RVTx * E) :=
  match fuel with
  | O => None
  | S fuel =>
      '(status, d, tx, e) ← Attempt d tx prev_attempt e;
      match status with
      | Success => Some (with_latency d (Enough (latency (m_config d))), tx, e)
      | MyFailure => Some (d, tx, e)
      | MyBusy =>
          if IsMax (latency (m_config d)) then
            Some (with_dtm_state d Invalid,
                  fail tx (CauseMaxLatencyReached (Get (latency (m_config d)))), e)
          else AttemptLoop fuel (with_latency d (TooLow (latency (m_config d)))) tx MyBusy e
      | _ => AttemptLoop fuel d tx status e
      end
  end.

(** [Execute] with the discovery gate open and no other transaction. *)
Definition Execute (fuel : nat) (name : string) (d : DTM) (tx : RVTx) (e : E) : option (DTM * RVTx * E) :=
  match dtm_state (m_state d) with
  | Invalid => Some (d, fail tx (CauseTerminated name), e)
  | Initial =>
      let '(result, e) := schedule e (discover_actions d) in
      '(discovered, d, tx) ← DiscoverEnd d tx result;
      if (discovered : bool) then AttemptLoop fuel (with_dtm_state d Operating) tx Success e
      else Some (with_dtm_state d Invalid, tx, e)
  | _ => AttemptLoop fuel d tx Success e
  end.
End execution.

(** ** Registers *)

Lemma field_make_dmi op data address :
  0 ≤ op < 4 → 0 ≤ data < 2 ^ 32 → 0 ≤ address < 2 ^ 30 →
  dmi_op (make_dmi op data address) = op ∧ dmi_data (make_dmi op data address) = data
  ∧ dmi_address (make_dmi op data address) = address.
Proof.
  intros Ho Hd Ha. unfold dmi_op, dmi_data, dmi_address, field, make_dmi.
  rewrite !Z.shiftl_mul_pow2, !Z.shiftr_div_pow2 by lia. cbn -[Z.mul Z.div Z.modulo].
  change (2 ^ 2) with 4. change (2 ^ 34) with 17179869184. change (2 ^ 32) with 4294967296 in *.
  change (2 ^ 30) with 1073741824 in *. change (2 ^ 0) with 1.
  split_and!; dlia.
Qed.

Lemma make_dmi_range op data address (abits : nat) :
  0 ≤ op < 4 → 0 ≤ data < 2 ^ 32 → 0 ≤ address < 2 ^ Z.of_nat abits →
  0 ≤ make_dmi op data address < 2 ^ Z.of_nat (34 + abits).
Proof.
  intros Ho Hd Ha. unfold make_dmi. rewrite !Z.shiftl_mul_pow2 by lia.
  rewrite Nat2Z.inj_add, Z.pow_add_r by lia. change (2 ^ 2) with 4. change (2 ^ 32) with 4294967296 in *.
  change (2 ^ 34) with 17179869184. change (2 ^ Z.of_nat 34) with 17179869184. nia.
Qed.

(** ** The target *)

(** What the target is found doing when its register is scanned. *)
Inductive readiness := Ready | Busy | Failed.

Section target.
(** The debug module behind the transport: what a request does and returns. *)
Context {M : Type} (perform : M → RVDTMAction → M * Z).
Context (config : Configuration).

(** The transport: its instruction register, the sticky status of the DMI, the
    data of the last request, whether that may still be in progress, what later
    scans will find, and the requests performed so far. *)
Record target := mkTarget {
  t_mem : M; t_ir : Z; t_sticky : Z; t_data : Z; t_inflight : bool;
  t_answers : list readiness; t_log : list RVDTMAction;
}.

(** The request in a register value. *)
Definition request (v : Z) : option RVDTMAction :=
  if dmi_op v =? DMIOpRead then Some (RVReadDMI (dmi_address v)) else
  if dmi_op v =? DMIOpWrite then Some (RVWriteDMI (dmi_address v) (dmi_data v)) else None.

Definition start_request (t : target) (v : Z) : target :=
  match request v with
  | Some r =>
      let '(mem, data) := perform (t_mem t) r in
      mkTarget mem (t_ir t) (t_sticky t) data true (t_answers t) (t_log t ++ [r])
  | None => mkTarget (t_mem t) (t_ir t) (t_sticky t) (t_data t) false (t_answers t) (t_log t)
  end.

Definition with_sticky (t : target) (sticky : Z) (answers : list readiness) : target :=
  mkTarget (t_mem t) (t_ir t) sticky (t_data t) (t_inflight t) answers (t_log t).

(** A scan of the DMI register: the value captured and the target after the
    update.  While the status is sticky, or a request is in progress, the new
    request is dropped; a request found in progress makes the status sticky. *)
Definition scan (t : target) (v : Z) : Z * target :=
  if negb (t_sticky t =? 0) then (make_dmi (t_sticky t) 0 0, t) else
  if t_inflight t then
    match t_answers t with
    | Busy :: answers => (make_dmi 3 0 0, with_sticky t 3 answers)
    | Failed :: answers => (make_dmi 2 0 0, with_sticky t 2 answers)
    | Ready :: answers => (make_dmi 0 (t_data t) 0, start_request (with_sticky t 0 answers) v)
    | [] => (make_dmi 0 (t_data t) 0, start_request t v)
    end
  else (make_dmi 0 (t_data t) 0, start_request t v).

(** What the chain and the target make of an action. *)
Definition act (t : target) (a : JtagChainAction) : JCOut * target :=
  match a with
  | JCWriteIR v => (JCDone, mkTarget (t_mem t) v (t_sticky t) (t_data t) (t_inflight t) (t_answers t) (t_log t))
  | JCWriteDR bits =>
      if (t_ir t =? dtmcs_ir_value config) && Z.testbit (bits_z bits) 16
      then (JCDone, with_sticky t 0 (t_answers t)) else (JCDone, t)
  | JCShiftDR bits =>
      if t_ir t =? dmi_ir_value config then
        let '(v, t) := scan t (bits_z bits) in (JCShiftOut (length bits) (zbits (length bits) v), t)
      else (JCShiftOut (length bits) (zbits (length bits) 0), t)
  | _ => (JCDone, t)
  end.

Fixpoint acts_run (t : target) (l : list JtagChainAction) : list JCOut * target :=
  match l with
  | [] => ([], t)
  | a :: l => let '(o, t) := act t a in let '(os, t) := acts_run t l in (o :: os, t)
  end.

(** A chain that works. *)
Definition chain_run (t : target) (l : list JtagChainAction) : JCTx * target :=
  let '(os, t) := acts_run t l in (mkTx l os false (length l) None, t).

(** The requests of a transaction performed one after the other. *)
Fixpoint perform_all (mem : M) (l : list RVDTMAction) : M * list Z :=
  match l with
  | [] => (mem, [])
  | r :: l => let '(mem, x) := perform mem r in let '(mem, xs) := perform_all mem l in (mem, x :: xs)
  end.
End target.

(** ** One attempt *)

Section attempt.
Context {M : Type} (perform : M → RVDTMAction → M * Z).
Context (Hperform : ∀ mem r, 0 ≤ (perform mem r).2 < 2 ^ 32).
Context (config : Configuration) (abits : nat).
Context (Habits : (abits ≤ 30)%nat).
Implicit Types (t : @target M) (tx : RVTx) (d : DTM) (c : cursor).

(** The length of the DMI register. *)
Context (n : nat) (Hlen : n = (34 + abits)%nat).

(** A request that the driver accepts. *)
Definition request_ok (a : RVDTMAction) : Prop :=
  match a with
  | RVWriteDMI address data => 0 ≤ address < 2 ^ Z.of_nat abits ∧ 0 ≤ data < 2 ^ 32
  | RVReadDMI address => 0 ≤ address < 2 ^ Z.of_nat abits
  | RVSkipCycles _ => False
  end.

Definition register (a : RVDTMAction) : Z := match access a with Some (_, v) => v | None => 0 end.

Lemma pow_abits : 2 ^ Z.of_nat abits ≤ 2 ^ 30.
Proof. apply Z.pow_le_mono_r; lia. Qed.

Lemma request_register a : request_ok a → request (bits_z (zbits n (register a))) = Some a.
Proof.
  intros Ha. pose proof pow_abits. rewrite bits_z_zbits, Hlen.
  destruct a as [address data|address|]; cbn in Ha; [| |done]; unfold register, access;
    rewrite wrap_small by (apply make_dmi_range; unfold DMIOpWrite, DMIOpRead; lia);
    unfold request.
  - destruct (field_make_dmi DMIOpWrite data address) as (-> & -> & ->);
      [unfold DMIOpWrite; lia|lia|lia|done].
  - destruct (field_make_dmi DMIOpRead 0 address) as (-> & _ & ->);
      [unfold DMIOpRead; lia|lia|lia|done].
Qed.

Lemma request_nop : request (bits_z (zbits n 0)) = None.
Proof. rewrite bits_z_zbits. unfold wrap. by rewrite Z.mod_0_l by lia. Qed.

(** What the driver reads of a captured value. *)
Lemma read_captured op data :
  0 ≤ op < 4 → 0 ≤ data < 2 ^ 32 →
  ∃ v, read_out (JCShiftOut n (zbits n (make_dmi op data 0))) n = Some v ∧ dmi_op v = op ∧ dmi_data v = data.
Proof.
  intros Ho Hd. eexists. cbn [read_out]. split; [done|].
  rewrite !take_ge by (rewrite ?length_take, length_zbits; lia). rewrite bits_z_zbits, Hlen.
  rewrite wrap_small by (apply make_dmi_range; lia).
  destruct (field_make_dmi op data 0) as (-> & -> & _); lia.
Qed.

(** The actions for a list of accesses. *)
Definition accesses d (l : list RVDTMAction) : list JtagChainAction :=
  l ≫= λ a, [shift_dr (register a) n; go_to RunTestIdle (Get (latency (m_config d)))].

Lemma build_ok d l : ∀ waiting pos,
  m_dmi_size d = n → Forall request_ok l →
  build d (2 ^ Z.of_nat abits - 1) waiting pos l = inr (accesses d (if waiting then tail l else l)).
Proof.
  induction l as [|a l IH]; intros waiting pos Hn Hl; [by destruct waiting|].
  apply Forall_cons in Hl as [Ha Hl]. cbn [build].
  destruct a as [address data|address|]; cbn in Ha; [| |done]; (destruct waiting; [by rewrite IH|]);
    cbn [access]; (destruct (Z.ltb_spec (2 ^ Z.of_nat abits - 1) address); [lia|]);
    rewrite IH, Hn by done; done.
Qed.

(** *** The target under scans *)

Lemma acts_run_app t l1 l2 :
  acts_run perform config t (l1 ++ l2)
  = let '(os1, t1) := acts_run perform config t l1 in
    let '(os2, t2) := acts_run perform config t1 l2 in (os1 ++ os2, t2).
Proof.
  revert t. induction l1 as [|a l1 IH]; intros t; cbn [app acts_run].
  - by destruct (acts_run perform config t l2).
  - destruct (act perform config t a) as [o t1]. rewrite IH.
    destruct (acts_run perform config t1 l1) as [os1 t2]. by destruct (acts_run perform config t2 l2).
Qed.

Definition final_scan : list JtagChainAction := [shift_dr 0 n; go_to UpdateDR 0].

Lemma act_scan t v :
  t_ir t = dmi_ir_value config →
  act perform config t (shift_dr v n) =
    (JCShiftOut n (zbits n (scan perform t (bits_z (zbits n v))).1), (scan perform t (bits_z (zbits n v))).2).
Proof.
  intros Hi. unfold shift_dr. cbn [act]. rewrite Hi, Z.eqb_refl, length_zbits. by destruct (scan _ _ _).
Qed.

(** A sticky status lets nothing through. *)
Lemma sticky_stays d l : ∀ t,
  t_ir t = dmi_ir_value config → t_sticky t ≠ 0 →
  (acts_run perform config t (accesses d l ++ final_scan)).2 = t.
Proof.
  assert (Hscan : ∀ t v, t_sticky t ≠ 0 → (scan perform t v).2 = t).
  { intros t v Hs. unfold scan. destruct (Z.eqb_spec (t_sticky t) 0); done. }
  induction l as [|a l IH]; intros t Hi Hs; cbn [accesses mbind list_bind app final_scan acts_run];
    rewrite act_scan, Hscan by done; cbn [acts_run act go_to].
  - done.
  - specialize (IH t Hi Hs). unfold accesses, final_scan in IH. cbn in IH |- *.
    destruct (acts_run _ _ t _) as [os t'] eqn:E. cbn in IH. by subst.
Qed.

Lemma scan_inflight t v :
  t_sticky t = 0 → t_inflight t = true →
  (∃ answers, scan perform t v = (make_dmi 3 0 0, with_sticky t 3 answers))
  ∨ (∃ answers, scan perform t v = (make_dmi 2 0 0, with_sticky t 2 answers))
  ∨ (∃ answers, scan perform t v = (make_dmi 0 (t_data t) 0, start_request perform (with_sticky t 0 answers) v)).
Proof.
  intros Hs Hi. unfold scan. rewrite Hs, Hi. cbn [negb Z.eqb].
  destruct (t_answers t) as [|[] answers] eqn:Ea; [right; right|right; right|left|right; left];
    eexists; try done.
  f_equal. f_equal. destruct t; cbn in *; by subst.
Qed.

(** *** Interpreting the answers *)

(** What becomes of the access [a], which is in progress, and of those sent after
    it: [j] of them are done, and so many of [sent] are performed. *)
Record answered t t' c c' (pos : nat) (a : RVDTMAction) (sent : list RVDTMAction)
    (status : AttemptStatus) (j : nat) : Prop := {
  an_done : m_first_incomplete (cur_tx c') = (pos + j)%nat;
  an_log : t_log t' = t_log t ++ take j sent;
  an_mem : t_mem t' = (perform_all perform (t_mem t) (take j sent)).1;
  an_ins : ins (cur_tx c') = ins (cur_tx c);
  an_alloc : had_allocation_failure (cur_tx c') = had_allocation_failure (cur_tx c);
  an_outs : length (outs (cur_tx c')) = length (outs (cur_tx c));
  an_keep : take pos (outs (cur_tx c')) = take pos (outs (cur_tx c));
  an_read : ∀ i address x, (i < j)%nat → (a :: sent) !! i = Some (RVReadDMI address) →
    (t_data t :: (perform_all perform (t_mem t) sent).2) !! i = Some x →
    outs (cur_tx c') !! (pos + i)%nat = Some (RVReadOut x);
  an_ir : t_ir t' = t_ir t;
  an_config : m_config (cur_dtm c') = m_config (cur_dtm c) ∧ m_dmi_size (cur_dtm c') = m_dmi_size (cur_dtm c);
  an_status :
    match status with
    | Success => j = S (length sent) ∧ t_sticky t' = 0 ∧ t_inflight t' = false ∧ cur_dtm c' = cur_dtm c
    | MyBusy => (j ≤ length sent)%nat ∧ t_sticky t' = 3 ∧ t_inflight t' = true ∧ 0 ≤ t_data t' < 2 ^ 32
        ∧ (t_data t :: (perform_all perform (t_mem t) sent).2) !! j = Some (t_data t')
        ∧ dtm_state (m_state (cur_dtm c')) = ErrorState
    | MyFailure => (j ≤ length sent)%nat ∧ is_Some (m_error_buffer (cur_tx c'))
    | _ => False
    end;
}.

Lemma access_result_ok errors c pos a v :
  request_ok a → dmi_op v = 0 → ins (cur_tx c) !! pos = Some a →
  ∃ c', access_result errors c pos a v = (None, c')
    ∧ cur_dtm c' = cur_dtm c ∧ jit c' = jit c ∧ ins (cur_tx c') = ins (cur_tx c)
    ∧ had_allocation_failure (cur_tx c') = had_allocation_failure (cur_tx c)
    ∧ m_first_incomplete (cur_tx c') = S pos
    ∧ length (outs (cur_tx c')) = length (outs (cur_tx c))
    ∧ take pos (outs (cur_tx c')) = take pos (outs (cur_tx c))
    ∧ (∀ address, a = RVReadDMI address → (pos < length (outs (cur_tx c)))%nat →
         outs (cur_tx c') !! pos = Some (RVReadOut (dmi_data v))).
Proof.
  intros Ha Hv Hi. unfold access_result. rewrite Hv. eexists. split; [done|].
  cbn [cur_dtm cur_tx jit with_tx]. rewrite (Done_here _ _ a) by (by destruct a).
  destruct a; cbn; (split_and!; try done).
  - by rewrite length_insert.
  - by rewrite take_insert_ge.
  - intros address0 _ Hlt. by apply list_lookup_insert_eq.
Qed.

(** An answer that is not a success. *)
Lemma access_result_error c pos a v :
  dmi_op v ≠ 0 → status_ok (cur_tx c) = false →
  ∃ c', access_result (num_errors (m_state (cur_dtm c))) c pos a v
      = (Some (if decide (dmi_op v = 3) then MyBusy else MyFailure), c')
    ∧ m_config (cur_dtm c') = m_config (cur_dtm c) ∧ m_dmi_size (cur_dtm c') = m_dmi_size (cur_dtm c)
    ∧ dtm_state (m_state (cur_dtm c')) = ErrorState
    ∧ ins (cur_tx c') = ins (cur_tx c) ∧ outs (cur_tx c') = outs (cur_tx c)
    ∧ had_allocation_failure (cur_tx c') = had_allocation_failure (cur_tx c)
    ∧ m_first_incomplete (cur_tx c') = m_first_incomplete (cur_tx c)
    ∧ (dmi_op v ≠ 3 → is_Some (m_error_buffer (cur_tx c'))).
Proof.
  intros Hv Hok. unfold access_result, DMIStatusOk, DMIStatusBusy, fail, Fail. cbv zeta. rewrite Z.eqb_refl.
  cbn [cur_tx with_tx]. rewrite Hok.
  destruct (Z.eqb_spec (dmi_op v) 0) as [|_]; [done|]. destruct (decide (dmi_op v = 3)) as [->|Hne].
  - cbn [Z.eqb Pos.eqb]. eexists. split; [done|]. by split_and!.
  - destruct (Z.eqb_spec (dmi_op v) 3) as [|_]; [done|]. eexists. split; [done|]. by split_and!.
Qed.

Lemma perform_all_length mem l : length (perform_all perform mem l).2 = length l.
Proof.
  revert mem. induction l as [|r l IH]; intros mem; [done|]. cbn.
  destruct (perform mem r) as [mem' x]. specialize (IH mem'). destruct (perform_all perform mem' l). cbn in *. lia.
Qed.

Definition same_shape tx tx' : Prop :=
  ins tx' = ins tx ∧ had_allocation_failure tx' = had_allocation_failure tx ∧ length (outs tx') = length (outs tx).

Lemma interpret_ok errors c pos a sent x1 x2 rest data :
  jit c = (x1, JCShiftOut n (zbits n (make_dmi 0 data 0))) :: x2 :: rest → m_dmi_size (cur_dtm c) = n →
  request_ok a → ins (cur_tx c) !! pos = Some a → 0 ≤ data < 2 ^ 32 →
  ∃ c', interpret None errors false c pos (a :: sent) = interpret None errors false c' (S pos) sent
    ∧ cur_dtm c' = cur_dtm c ∧ jit c' = rest ∧ same_shape (cur_tx c) (cur_tx c')
    ∧ m_first_incomplete (cur_tx c') = S pos
    ∧ take pos (outs (cur_tx c')) = take pos (outs (cur_tx c))
    ∧ (∀ address, a = RVReadDMI address → (pos < length (outs (cur_tx c)))%nat →
         outs (cur_tx c') !! pos = Some (RVReadOut data)).
Proof.
  intros Hj Hn Ha Hat Hd. destruct (read_captured 0 data) as (v & Hv & Hop & Hdata); [lia|done|].
  destruct (access_result_ok errors (mkCursor (cur_dtm c) (cur_tx c) rest) pos a v Ha Hop Hat)
    as (c' & Hc' & Hd1 & Hd2 & Hd3 & Hd4 & Hd5 & Hd6 & Hd7 & Hd8).
  cbn [cur_dtm cur_tx jit] in *. exists c'. rewrite Hdata in Hd8. split_and!; try done.
  destruct a; try done; cbn [interpret]; rewrite Hj, Hn, Hv; cbn [mbind option_bind check_fail_inc jit];
    cbn [cur_dtm cur_tx jit]; by rewrite Hc'.
Qed.

Lemma interpret_error c pos a sent x1 x2 rest op :
  jit c = (x1, JCShiftOut n (zbits n (make_dmi op 0 0))) :: x2 :: rest → m_dmi_size (cur_dtm c) = n →
  request_ok a → status_ok (cur_tx c) = false → op = 2 ∨ op = 3 →
  ∃ c', interpret None (num_errors (m_state (cur_dtm c))) false c pos (a :: sent)
      = Some (if decide (op = 3) then MyBusy else MyFailure, c')
    ∧ m_config (cur_dtm c') = m_config (cur_dtm c) ∧ m_dmi_size (cur_dtm c') = m_dmi_size (cur_dtm c)
    ∧ dtm_state (m_state (cur_dtm c')) = ErrorState ∧ same_shape (cur_tx c) (cur_tx c')
    ∧ outs (cur_tx c') = outs (cur_tx c) ∧ m_first_incomplete (cur_tx c') = m_first_incomplete (cur_tx c)
    ∧ (op = 2 → is_Some (m_error_buffer (cur_tx c'))).
Proof.
  intros Hj Hn Ha Hok Hop. destruct (read_captured op 0) as (v & Hv & Hopv & _); [lia|lia|].
  destruct (access_result_error (mkCursor (cur_dtm c) (cur_tx c) rest) pos a v) as
    (c' & Hc' & H1 & H2 & H3 & H4 & H5 & H6 & H7 & H8); [lia|done|].
  cbn [cur_dtm cur_tx jit] in *. exists c'. rewrite Hopv in *. unfold same_shape. rewrite H5.
  split_and!; try done; [|intros; apply H8; lia].
  destruct a; try done; cbn [interpret]; rewrite Hj, Hn, Hv; cbn [mbind option_bind check_fail_inc jit];
    cbn [cur_dtm cur_tx jit]; by rewrite Hc'.
Qed.

(** The outcomes of the first scan after which the answers are known. *)
Lemma answered_error t t' c c' pos a sent op answers :
  t_sticky t = 0 → t_inflight t = true → 0 ≤ t_data t < 2 ^ 32 → op = 2 ∨ op = 3 →
  t' = with_sticky t op answers → m_first_incomplete (cur_tx c) = pos →
  m_config (cur_dtm c') = m_config (cur_dtm c) → m_dmi_size (cur_dtm c') = m_dmi_size (cur_dtm c) →
  dtm_state (m_state (cur_dtm c')) = ErrorState → same_shape (cur_tx c) (cur_tx c') →
  outs (cur_tx c') = outs (cur_tx c) → m_first_incomplete (cur_tx c') = m_first_incomplete (cur_tx c) →
  (op = 2 → is_Some (m_error_buffer (cur_tx c'))) →
  answered t t' c c' pos a sent (if decide (op = 3) then MyBusy else MyFailure) 0.
Proof.
  intros Hs Hf Hd Hop -> Hpos H1 H2 H3 (H4 & H5 & H6) H7 H8 H9.
  split; try done; cbn.
  - rewrite H8. lia.
  - by rewrite app_nil_r.
  - by rewrite H7.
  - intros; lia.
  - destruct (decide (op = 3)) as [->|Hne]; [split_and!; (done || lia)|]. split; [lia|]. apply H9. lia.
Qed.

Lemma run_scan t v st k rest os t' :
  t_ir t = dmi_ir_value config →
  acts_run perform config t (shift_dr v n :: go_to st k :: rest) = (os, t') →
  ∃ os', os = JCShiftOut n (zbits n (scan perform t (bits_z (zbits n v))).1) :: JCDone :: os'
    ∧ acts_run perform config (scan perform t (bits_z (zbits n v))).2 rest = (os', t').
Proof.
  intros Hi. cbn [acts_run]. rewrite act_scan by done. cbn [act go_to].
  destruct (acts_run perform config _ rest) as [os' t1]. intros H. injection H as <- <-. by eexists.
Qed.

(** The first scan after [a]: either it tells of an error, and the rest is
    dropped, or [a] is done and the scan's own request has begun. *)
Lemma interpret_scan t c pos a sent v st k rest os t' :
  t_ir t = dmi_ir_value config → t_sticky t = 0 → t_inflight t = true → 0 ≤ t_data t < 2 ^ 32 →
  request_ok a → (∀ t1, t_ir t1 = dmi_ir_value config → t_sticky t1 ≠ 0 → (acts_run perform config t1 rest).2 = t1) →
  acts_run perform config t (shift_dr v n :: go_to st k :: rest) = (os, t') → snd <$> jit c = os →
  m_dmi_size (cur_dtm c) = n → m_first_incomplete (cur_tx c) = pos → ins (cur_tx c) !! pos = Some a →
  had_allocation_failure (cur_tx c) = false →
  (∃ status c', interpret None (num_errors (m_state (cur_dtm c))) false c pos (a :: sent) = Some (status, c')
     ∧ answered t t' c c' pos a sent status 0)
  ∨ (∃ c1 os' answers,
      interpret None (num_errors (m_state (cur_dtm c))) false c pos (a :: sent)
        = interpret None (num_errors (m_state (cur_dtm c))) false c1 (S pos) sent
      ∧ acts_run perform config (start_request perform (with_sticky t 0 answers) (bits_z (zbits n v))) rest = (os', t')
      ∧ snd <$> jit c1 = os' ∧ cur_dtm c1 = cur_dtm c ∧ same_shape (cur_tx c) (cur_tx c1)
      ∧ m_first_incomplete (cur_tx c1) = S pos ∧ take pos (outs (cur_tx c1)) = take pos (outs (cur_tx c))
      ∧ (∀ address, a = RVReadDMI address → (pos < length (outs (cur_tx c)))%nat →
           outs (cur_tx c1) !! pos = Some (RVReadOut (t_data t)))).
Proof.
  intros Hi Hs Hf Hdata Ha Hrest Hrun Hjit Hn Hpos Hat Halloc.
  assert (Hnot : status_ok (cur_tx c) = false) by
    (unfold status_ok, End; rewrite Halloc, Hpos; cbn; apply Nat.eqb_neq; apply lookup_lt_Some in Hat; lia).
  destruct (run_scan _ _ _ _ _ _ _ Hi Hrun) as (os' & -> & Hrun').
  destruct (jit c) as [|[x1 o1] [|[x2 o2] jrest]] eqn:Hj; try done. injection Hjit as Ho1 Ho2 Hjr.
  destruct (scan_inflight t (bits_z (zbits n v)) Hs Hf) as [[ans Hsc]|[[ans Hsc]|[ans Hsc]]];
    rewrite Hsc in *; cbn [fst snd] in *; rewrite Ho1 in Hj.
  3: { right. destruct (interpret_ok (num_errors (m_state (cur_dtm c))) c pos a sent _ _ _ _ Hj Hn Ha Hat Hdata)
         as (c1 & He & H1 & H2 & H3 & H4 & H5 & H6).
       exists c1, os', ans. rewrite H2. by split_and!. }
  1: set (op := 3) in *. 2: set (op := 2) in *.
  all: left; destruct (interpret_error c pos a sent x1 (x2, o2) jrest op Hj Hn Ha Hnot)
      as (c' & He & H1 & H2 & H3 & H4 & H5 & H6 & H7); [subst op; lia|];
    eexists _, c'; (split; [exact He|]);
    apply (answered_error t t' c c' pos a sent op ans); try done; [subst op; lia|];
    rewrite <-(Hrest (with_sticky t op ans)) by done; by rewrite Hrun'.
Qed.

(** An access done in front of what is answered for the following ones. *)
Lemma answered_cons t t' c c1 c' pos a b sent ans mem x status j :
  perform (t_mem t) b = (mem, x) → cur_dtm c1 = cur_dtm c → same_shape (cur_tx c) (cur_tx c1) →
  take pos (outs (cur_tx c1)) = take pos (outs (cur_tx c)) →
  (∀ address, a = RVReadDMI address → outs (cur_tx c1) !! pos = Some (RVReadOut (t_data t))) →
  answered (mkTarget mem (t_ir t) 0 x true ans (t_log t ++ [b])) t' c1 c' (S pos) b sent status j →
  answered t t' c c' pos a (b :: sent) status (S j).
Proof.
  intros Hpb Hd (Hi1 & Hi2 & Hi3) Hk Hrd [A1 A2 A3 A4 A5 A6 A7 A8 A9 A10 A11].
  cbn [t_log t_mem t_data t_ir] in *.
  assert (Hpa : perform_all perform (t_mem t) (b :: sent)
    = ((perform_all perform mem sent).1, x :: (perform_all perform mem sent).2)).
  { cbn. rewrite Hpb. by destruct (perform_all perform mem sent). }
  split.
  - rewrite A1. lia.
  - rewrite A2, <-app_assoc. done.
  - rewrite A3. cbn. rewrite Hpb. by destruct (perform_all perform mem (take j sent)).
  - by rewrite A4.
  - by rewrite A5.
  - by rewrite A6.
  - apply (f_equal (take pos)) in A7. rewrite !take_take, !Nat.min_l in A7 by lia. by rewrite A7.
  - intros [|i] address y Hij Hai Hx.
    + injection Hai as ->. injection Hx as <-. rewrite Nat.add_0_r.
      rewrite <-(lookup_take_lt _ (S pos)), A7, lookup_take_lt by lia. by eapply Hrd.
    + rewrite Nat.add_succ_r. rewrite Hpa in Hx. by apply (A8 i address); [lia| |].
  - done.
  - by rewrite <-Hd.
  - destruct status; try done.
    + destruct A11 as (-> & ? & ? & ?). rewrite <-Hd. done.
    + destruct A11 as [? ?]. cbn. split; [lia|done].
    + destruct A11 as (? & ? & ? & ? & Hx & ?). rewrite Hpa. cbn. split_and!; try done; lia.
Qed.

(** The results of the scans of [sent] and of the final one, interpreted for [a]
    and the accesses of [sent]. *)
Lemma interpret_answers d sent : ∀ a t c pos os t',
  t_ir t = dmi_ir_value config → t_sticky t = 0 → t_inflight t = true → 0 ≤ t_data t < 2 ^ 32 →
  request_ok a → Forall request_ok sent →
  acts_run perform config t (accesses d sent ++ final_scan) = (os, t') → snd <$> jit c = os →
  m_dmi_size (cur_dtm c) = n → m_first_incomplete (cur_tx c) = pos →
  drop pos (ins (cur_tx c)) = a :: sent → length (outs (cur_tx c)) = length (ins (cur_tx c)) →
  had_allocation_failure (cur_tx c) = false →
  ∃ status c' j, interpret None (num_errors (m_state (cur_dtm c))) false c pos (a :: sent) = Some (status, c')
    ∧ answered t t' c c' pos a sent status j.
Proof.
  induction sent as [|b sent IH]; intros a t c pos os t' Hi Hs Hf Hdata Ha Hsent Hrun Hjit Hn Hpos Hdrop Houts Halloc.
  all: assert (Hat : ins (cur_tx c) !! pos = Some a) by
    (rewrite <-(Nat.add_0_r pos), <-lookup_drop, Hdrop; done).
  all: assert (Hlt : (pos < length (outs (cur_tx c)))%nat) by (rewrite Houts; by eapply lookup_lt_Some).
  - destruct (interpret_scan t c pos a [] 0 UpdateDR 0 [] os t') as
      [(st & c' & He & Han)|(c1 & os' & ans & He & Hr & Hj & Hd & (Hi1 & Hi2 & Hi3) & Hm & Hk & Hrd)]; try done.
    { by exists st, c', 0%nat. }
    exists Success, c1, 1%nat. split; [by rewrite He|]. unfold start_request in Hr. rewrite request_nop in Hr.
    injection Hr as _ <-. split; try done.
    + rewrite Hm. lia.
    + cbn. by rewrite app_nil_r.
    + intros i address x Hlt1 Hai Hx. assert (i = 0%nat) as -> by lia. rewrite Nat.add_0_r.
      injection Hai as ->. injection Hx as <-. by eapply Hrd.
    + by rewrite Hd.
  - apply Forall_cons in Hsent as [Hb Hsent].
    destruct (interpret_scan t c pos a (b :: sent) (register b) RunTestIdle (Get (latency (m_config d)))
        (accesses d sent ++ final_scan) os t') as
      [(st & c' & He & Han)|(c1 & os' & ans & He & Hr & Hj & Hd & (Hi1 & Hi2 & Hi3) & Hm & Hk & Hrd)]; try done.
    { intros. by apply sticky_stays. }
    { by exists st, c', 0%nat. }
    unfold start_request in Hr. rewrite request_register in Hr by done. cbn [with_sticky t_mem] in Hr.
    pose proof (Hperform (t_mem t) b) as Hrange. destruct (perform (t_mem t) b) as [mem x] eqn:Hpb. cbn [snd] in Hrange.
    destruct (IH b (mkTarget mem (t_ir t) 0 x true ans (t_log t ++ [b])) c1 (S pos) os' t') as (st & c' & j & He' & Han);
      try done.
    { by rewrite Hd. } { rewrite Hi1. rewrite (drop_S _ _ _ Hat) in Hdrop. by injection Hdrop. }
    { by rewrite Hi1, Hi3. } { by rewrite Hi2. }
    exists st, c', (S j). rewrite He. split; [by rewrite Hd in He'|].
    eapply (answered_cons t t' c c1); try done. intros. by eapply Hrd.
Qed.

(** *** The two kinds of attempts *)

Definition configured d : Prop :=
  dtmcs_ir_value (m_config d) = dtmcs_ir_value config ∧ dmi_ir_value (m_config d) = dmi_ir_value config
  ∧ m_dmi_size d = n.

Lemma max_address_eq d : m_dmi_size d = n → max_address d = 2 ^ Z.of_nat abits - 1.
Proof.
  clear Habits. intros Hd. unfold max_address, g_dmi_op_bitsize, g_dmi_data_bitsize. rewrite Hd, Hlen, Z.shiftl_1_l.
  do 3 f_equal. lia.
Qed.

Lemma acts_run_length l : ∀ t, length (acts_run perform config t l).1 = length l.
Proof.
  induction l as [|a l IH]; intros t; [done|]. cbn. destruct (act perform config t a) as [o t1].
  specialize (IH t1). destruct (acts_run perform config t1 l). cbn in *. lia.
Qed.

(** The completed actions of the chain. *)
Lemma complete_all (l : list JtagChainAction) (os : list JCOut) : length os = length l → snd <$> take (length l) (zip l os) = os.
Proof.
  intros Hl. rewrite take_ge by (rewrite length_zip_with; lia). revert os Hl.
  induction l as [|a l IH]; intros [|o os] Hl; try done. cbn in *. f_equal. apply IH. lia.
Qed.

Lemma interpret_skip errors c pos a sent x y rest :
  request_ok a → jit c = x :: y :: rest →
  interpret None errors true c pos (a :: sent)
  = interpret None errors false (mkCursor (cur_dtm c) (cur_tx c) rest) pos (a :: sent).
Proof.
  intros Ha Hj. destruct a; try done; cbn [interpret]; unfold check_fail_inc2, check_fail_inc at 1; rewrite Hj;
    unfold check_fail_inc at 1; cbn [jit]; done.
Qed.

(** The target after the request [a] has begun. *)
Definition begun t (a : RVDTMAction) : @target M :=
  mkTarget (perform (t_mem t) a).1 (dmi_ir_value config) 0 (perform (t_mem t) a).2 true (t_answers t) (t_log t ++ [a]).

Lemma scan_fresh t a :
  request_ok a → t_inflight t = false → t_sticky t = 0 → t_ir t = dmi_ir_value config →
  (scan perform t (bits_z (zbits n (register a)))).2 = begun t a.
Proof.
  intros Ha Hf Hs Hi. unfold scan. rewrite Hs, Hf. cbn [negb Z.eqb snd]. unfold start_request.
  rewrite request_register by done. unfold begun. rewrite Hs, Hi. by destruct (perform (t_mem t) a).
Qed.

(** The first attempt: its first scan starts the first access. *)
Lemma attempt_fresh d tx t a sent :
  configured d → dtm_state (m_state d) = Operating → t_sticky t = 0 → t_inflight t = false →
  Forall request_ok (a :: sent) → incomplete_actions tx = a :: sent →
  length (outs tx) = length (ins tx) → had_allocation_failure tx = false →
  ∃ status c c' t' j,
    Attempt (chain_run perform config) d tx Success t = Some (status, cur_dtm c', cur_tx c', t')
    ∧ cur_dtm c = d ∧ cur_tx c = tx
    ∧ answered (begun t a) t' c c' (m_first_incomplete tx) a sent status j.
Proof.
  intros (Hc1 & Hc2 & Hn) Hst Hs Hf Hok Hinc Houts Halloc. apply Forall_cons in Hok as Hok'. destruct Hok' as [Ha Hsent].
  unfold Attempt, AttemptBegin. rewrite Hst, Hinc, max_address_eq, build_ok by done.
  rewrite !bool_decide_eq_false_2 by done. cbn [app].
  unfold chain_run. cbn [acts_run act]. rewrite Hc2, Hn.
  change ((accesses d (a :: sent) ++ [shift_dr 0 n; go_to UpdateDR 0])) with
    (shift_dr (register a) n :: go_to RunTestIdle (Get (latency (m_config d))) :: accesses d sent ++ final_scan).
  set (l := accesses d sent ++ final_scan).
  destruct (acts_run perform config _ (shift_dr _ _ :: _)) as [os t'] eqn:Hrun.
  apply run_scan in Hrun as (os' & -> & Hrun'); [|done]. rewrite scan_fresh in Hrun' by done.
  change (begun _ a) with (begun t a) in Hrun'.
  unfold AttemptEnd. cbn [m_error_buffer m_first_incomplete ins outs length zip zip_with take check_fail_inc jit cur_dtm cur_tx].
  rewrite !bool_decide_eq_false_2 by congruence.
  cbn [negb check_fail_inc jit cur_dtm cur_tx]. rewrite Hinc. erewrite interpret_skip by done. cbn [cur_dtm cur_tx].
  destruct (interpret_answers d sent a (begun t a) (mkCursor d tx (take (length l) (zip l os'))) (m_first_incomplete tx) os' t')
    as (st & c' & j & He & Han); try done.
  { apply Hperform. }
  { apply complete_all. pose proof (acts_run_length l (begun t a)) as Hll. by rewrite Hrun' in Hll. }
  cbn [cur_dtm] in He. rewrite He. cbn. eexists st, (mkCursor d tx (take (length l) (zip l os'))), c', t', j. split_and!; done.
Qed.

(** An attempt after a busy answer: the access in progress is not sent again. *)
Lemma attempt_waiting d tx t a sent :
  configured d → dtm_state (m_state d) = ErrorState → t_inflight t = true → 0 ≤ t_data t < 2 ^ 32 →
  Forall request_ok (a :: sent) → incomplete_actions tx = a :: sent →
  length (outs tx) = length (ins tx) → had_allocation_failure tx = false →
  ∃ status c c' t' j,
    Attempt (chain_run perform config) d tx MyBusy t = Some (status, cur_dtm c', cur_tx c', t')
    ∧ cur_dtm c = with_dtm_state d Operating ∧ cur_tx c = tx
    ∧ answered (mkTarget (t_mem t) (dmi_ir_value config) 0 (t_data t) true (t_answers t) (t_log t))
        t' c c' (m_first_incomplete tx) a sent status j.
Proof.
  intros (Hc1 & Hc2 & Hn) Hst Hf Hdata Hok Hinc Houts Halloc. apply Forall_cons in Hok as Hok'. destruct Hok' as [Ha Hsent].
  unfold Attempt, AttemptBegin. rewrite Hst, Hinc, max_address_eq, build_ok by done.
  rewrite !bool_decide_eq_true_2 by done. cbn [app tail].
  unfold chain_run. cbn [acts_run act t_ir]. rewrite Hc1, Hc2, Hn, Z.eqb_refl.
  change (Z.testbit (bits_z (zbits 32 dmireset)) 16) with true.
  cbn [andb with_sticky t_mem t_ir t_sticky t_data t_inflight t_answers t_log]. rewrite Hf.
  change ([shift_dr 0 n; go_to UpdateDR 0]) with final_scan.
  set (l := accesses d sent ++ final_scan). set (t1 := mkTarget (t_mem t) (dmi_ir_value config) 0 _ _ _ _).
  destruct (acts_run perform config t1 l) as [os t'] eqn:Hrun.
  unfold AttemptEnd.
  cbn [m_error_buffer m_first_incomplete ins outs length zip zip_with take check_fail_inc jit cur_dtm cur_tx].
  rewrite Hst, !bool_decide_eq_true_2 by congruence.
  cbn [negb check_fail_inc2 check_fail_inc jit cur_dtm cur_tx]. rewrite Hinc.
  destruct (interpret_answers d sent a t1 (mkCursor (with_dtm_state d Operating) tx (take (length l) (zip l os)))
    (m_first_incomplete tx) os t') as (st & c' & j & He & Han); try done.
  { apply complete_all. pose proof (acts_run_length l t1) as Hll. by rewrite Hrun in Hll. }
  cbn [cur_dtm with_dtm_state with_state m_state num_errors] in He. rewrite He. cbn.
  eexists st, (mkCursor (with_dtm_state d Operating) tx (take (length l) (zip l os))), c', t', j. split_and!; done.
Qed.

(** *** The loop *)

Lemma perform_all_app l1 l2 mem :
  perform_all perform mem (l1 ++ l2) =
    let '(mem1, xs1) := perform_all perform mem l1 in
    let '(mem2, xs2) := perform_all perform mem1 l2 in (mem2, xs1 ++ xs2).
Proof.
  revert mem. induction l1 as [|r l1 IH]; intros mem; cbn.
  - by destruct (perform_all perform mem l2).
  - destruct (perform mem r) as [mem' x]. rewrite IH. destruct (perform_all perform mem' l1) as [mem1 xs1].
    by destruct (perform_all perform mem1 l2).
Qed.

Lemma perform_all_app1 l1 l2 mem :
  (perform_all perform mem (l1 ++ l2)).1 = (perform_all perform (perform_all perform mem l1).1 l2).1.
Proof.
  rewrite perform_all_app. destruct (perform_all perform mem l1) as [mem1 xs1]. cbn. by destruct (perform_all perform mem1 l2).
Qed.

Lemma perform_all_app2 l1 l2 mem :
  (perform_all perform mem (l1 ++ l2)).2
  = (perform_all perform mem l1).2 ++ (perform_all perform (perform_all perform mem l1).1 l2).2.
Proof.
  rewrite perform_all_app. destruct (perform_all perform mem l1) as [mem1 xs1]. cbn. by destruct (perform_all perform mem1 l2).
Qed.

(** The results of the requests, and of those from the [k]th on. *)
Lemma results_from mem (reqs : list RVDTMAction) (k : nat) a sent :
  drop k reqs = a :: sent →
  drop k (perform_all perform mem reqs).2
  = (perform (perform_all perform mem (take k reqs)).1 a).2
      :: (perform_all perform (perform_all perform mem (take (S k) reqs)).1 sent).2.
Proof.
  intros Hd. assert (Hat : reqs !! k = Some a) by (rewrite <-(Nat.add_0_r k), <-lookup_drop, Hd; done).
  rewrite (take_S_r _ _ _ Hat), perform_all_app1. rewrite <-(take_drop k reqs) at 1.
  rewrite perform_all_app2, Hd, drop_app_length'
    by (rewrite perform_all_length, length_take; apply lookup_lt_Some in Hat; lia).
  cbn. destruct (perform _ a) as [mem1 x]. cbn. by destruct (perform_all perform mem1 sent).
Qed.

(** A transaction with [k] accesses done and [p] performed. *)
Record progress (mem0 : M) (log0 reqs : list RVDTMAction) tx t (k p : nat) : Prop := {
  p_ins : ins tx = reqs;
  p_outs : length (outs tx) = length reqs;
  p_alloc : had_allocation_failure tx = false;
  p_done : m_first_incomplete tx = k;
  p_le : (k ≤ length reqs)%nat;
  p_log : t_log t = log0 ++ take p reqs;
  p_mem : t_mem t = (perform_all perform mem0 (take p reqs)).1;
  p_read : ∀ i address x, (i < k)%nat → reqs !! i = Some (RVReadDMI address) →
    (perform_all perform mem0 reqs).2 !! i = Some x → outs tx !! i = Some (RVReadOut x);
}.

Lemma progress_answered mem0 log0 reqs tx t t' c c' k a sent status j :
  progress mem0 log0 reqs tx t k (S k) → cur_tx c = tx → drop k reqs = a :: sent →
  t_data t = (perform (perform_all perform mem0 (take k reqs)).1 a).2 →
  answered t t' c c' k a sent status j →
  progress mem0 log0 reqs (cur_tx c') t' (k + j) (S (k + j)).
Proof.
  intros [P1 P2 P3 P4 P5 P6 P7 P8] Hc Hd Hdata [A1 A2 A3 A4 A5 A6 A7 A8 A9 A10 A11]. subst tx.
  assert (Hat : reqs !! k = Some a) by (rewrite <-(Nat.add_0_r k), <-lookup_drop, Hd; done).
  assert (Htake : take (S (k + j)) reqs = take (S k) reqs ++ take j sent).
  { replace (S (k + j)) with (S k + j)%nat by lia. rewrite <-take_take_drop. f_equal.
    rewrite (drop_S _ _ _ Hat) in Hd. injection Hd as ->. done. }
  assert (Hlen1 : length reqs = (k + S (length sent))%nat).
  { apply (f_equal length) in Hd. rewrite length_drop in Hd. apply lookup_lt_Some in Hat. cbn in Hd. lia. }
  split.
  - by rewrite A4.
  - by rewrite A6.
  - by rewrite A5.
  - done.
  - assert (j ≤ S (length sent))%nat by (destruct status; try done; lia). lia.
  - by rewrite A2, P6, Htake, <-app_assoc.
  - by rewrite A3, P7, Htake, perform_all_app1.
  - intros i address x Hi Hr Hx. destruct (decide (i < k)%nat) as [Hik|Hik].
    + rewrite <-(lookup_take_lt _ k), A7, lookup_take_lt by done. by eapply P8.
    + replace i with (k + (i - k))%nat by lia. apply (A8 _ address); [lia| |].
      * rewrite <-Hd, lookup_drop. by replace (k + (i - k))%nat with i by lia.
      * rewrite Hdata, P7, <-results_from, lookup_drop by done. by replace (k + (i - k))%nat with i by lia.
Qed.

(** How the execution of a transaction ends: with [k] accesses done and one more
    performed, or all of them. *)
Definition ended (mem0 : M) (log0 reqs : list RVDTMAction) (r : option (DTM * RVTx * @target M)) : Prop :=
  ∃ d' tx' t' k, r = Some (d', tx', t') ∧ progress mem0 log0 reqs tx' t' k (S k)
    ∧ (k = length reqs ∨ (k < length reqs)%nat ∧ is_Some (m_error_buffer tx')).

(** What the driver waits for between two attempts. *)
Record waiting (mem0 : M) (log0 reqs : list RVDTMAction) d tx t (k : nat) : Prop := {
  w_configured : configured d;
  w_state : dtm_state (m_state d) = ErrorState;
  w_latency : LatencyCalibrator.inv (latency (m_config d));
  w_progress : progress mem0 log0 reqs tx t k (S k);
  w_inflight : t_inflight t = true;
  w_data : ∃ a sent, drop k reqs = a :: sent ∧ t_data t = (perform (perform_all perform mem0 (take k reqs)).1 a).2;
}.

Lemma progress_fail mem0 log0 reqs tx t k p cause :
  progress mem0 log0 reqs tx t k p → (k < length reqs)%nat →
  progress mem0 log0 reqs (fail tx cause) t k p ∧ is_Some (m_error_buffer (fail tx cause)).
Proof.
  intros [P1 P2 P3 P4 P5 P6 P7 P8] Hk.
  assert (Hok : status_ok tx = false).
  { unfold status_ok, End. rewrite P1, P3, P4. apply Nat.eqb_neq. lia. }
  unfold fail, Fail. rewrite Hok. split; [by split|by eexists].
Qed.

(** After an attempt. *)
Lemma loop_continue fuel mem0 log0 reqs d tx t t' c c' k a sent status j :
  (∀ d tx t k, waiting mem0 log0 reqs d tx t k →
     (Z.to_nat (m_max_latency (latency (m_config d)) - m_current_latency (latency (m_config d))) < fuel)%nat →
     ended mem0 log0 reqs (AttemptLoop (chain_run perform config) fuel d tx MyBusy t)) →
  configured d → LatencyCalibrator.inv (latency (m_config d)) →
  (Z.to_nat (m_max_latency (latency (m_config d)) - m_current_latency (latency (m_config d))) < S fuel)%nat →
  progress mem0 log0 reqs tx t k (S k) → cur_tx c = tx → m_config (cur_dtm c) = m_config d →
  m_dmi_size (cur_dtm c) = m_dmi_size d → drop k reqs = a :: sent →
  t_data t = (perform (perform_all perform mem0 (take k reqs)).1 a).2 →
  answered t t' c c' k a sent status j →
  ended mem0 log0 reqs
    (match status with
     | Success => Some (with_latency (cur_dtm c') (Enough (latency (m_config (cur_dtm c')))), cur_tx c', t')
     | MyFailure => Some (cur_dtm c', cur_tx c', t')
     | MyBusy =>
         if IsMax (latency (m_config (cur_dtm c'))) then
           Some (with_dtm_state (cur_dtm c') Invalid,
                 fail (cur_tx c') (CauseMaxLatencyReached (Get (latency (m_config (cur_dtm c'))))), t')
         else AttemptLoop (chain_run perform config) fuel
                (with_latency (cur_dtm c') (TooLow (latency (m_config (cur_dtm c'))))) (cur_tx c') MyBusy t'
     | _ => AttemptLoop (chain_run perform config) fuel (cur_dtm c') (cur_tx c') status t'
     end).
Proof.
  intros IH (Hc1 & Hc2 & Hn) Hinv Hfuel Hprog Hc Hcfg Hsize Hd Hdata Han.
  pose proof (progress_answered _ _ _ _ _ _ _ _ _ _ _ _ _ Hprog Hc Hd Hdata Han) as Hp'.
  assert (Hlen1 : length reqs = (k + S (length sent))%nat).
  { apply (f_equal length) in Hd. rewrite length_drop in Hd. cbn in Hd. lia. }
  destruct Han as [_ _ _ _ _ _ _ _ _ [Hm Hs] Hst]. rewrite Hcfg in Hm. rewrite Hsize in Hs.
  destruct status; try done.
  - destruct Hst as (-> & _). eexists _, _, t', _. split; [done|]. split; [exact Hp'|]. left. lia.
  - destruct Hst as (Hj & He). eexists _, _, t', _. split; [done|]. split; [exact Hp'|]. right. split; [lia|done].
  - destruct Hst as (Hj & _ & Hf & Hrange & Hx & Herr). rewrite Hm.
    destruct (IsMax (latency (m_config d))) eqn:Hmax.
    { destruct (progress_fail _ _ _ _ _ _ _ (CauseMaxLatencyReached (Get (latency (m_config d)))) Hp' ltac:(lia)).
      eexists _, _, t', _. split; [done|]. split; [done|]. right. split; [lia|done]. }
    destruct (TooLow_spec _ Hinv Hmax) as (Hinv' & Hmx & _ & Hcur).
    apply (IH _ _ _ (k + j)%nat).
    + split; try done.
      * unfold configured, with_latency. cbn. rewrite Hm, Hs. done.
      * destruct (drop (k + j) reqs) as [|b sent'] eqn:Hd'.
        { apply (f_equal length) in Hd'. rewrite length_drop in Hd'. cbn in Hd'. lia. }
        exists b, sent'. split; [done|].
        rewrite Hdata in Hx. rewrite (p_mem _ _ _ _ _ _ _ Hprog), <-results_from, lookup_drop in Hx by done.
        pose proof (results_from mem0 reqs (k + j) b sent' Hd') as Hr.
        rewrite <-(Nat.add_0_r (k + j)), <-lookup_drop, Hr in Hx. by injection Hx.
    + cbn [m_config latency with_latency]. rewrite Hmx, Hcur. unfold IsMax in Hmax. bool_to_prop.
      destruct Hinv. lia.
Qed.

Lemma loop_waiting mem0 log0 reqs fuel : ∀ d tx t k,
  Forall request_ok reqs → waiting mem0 log0 reqs d tx t k →
  (Z.to_nat (m_max_latency (latency (m_config d)) - m_current_latency (latency (m_config d))) < fuel)%nat →
  ended mem0 log0 reqs (AttemptLoop (chain_run perform config) fuel d tx MyBusy t).
Proof.
  induction fuel as [|fuel IH]; intros d tx t k Hok Hw Hfuel; [lia|].
  destruct Hw as [Hconf Hst Hinv Hprog Hf (a & sent & Hd & Hdata)].
  destruct (attempt_waiting d tx t a sent) as (st & c & c' & t' & j & He & Hc1 & Hc2 & Han); try done.
  { rewrite Hdata. apply Hperform. }
  { rewrite <-Hd. by apply Forall_drop. }
  { unfold incomplete_actions. by rewrite (p_ins _ _ _ _ _ _ _ Hprog), (p_done _ _ _ _ _ _ _ Hprog). }
  { by rewrite (p_outs _ _ _ _ _ _ _ Hprog), (p_ins _ _ _ _ _ _ _ Hprog). }
  { apply Hprog. }
  cbn [AttemptLoop]. rewrite He. cbn [mbind option_bind]. rewrite (p_done _ _ _ _ _ _ _ Hprog) in Han.
  set (t1 := mkTarget (t_mem t) (dmi_ir_value config) 0 (t_data t) true (t_answers t) (t_log t)) in Han.
  apply (loop_continue fuel mem0 log0 reqs d tx t1 t' c c' k a sent st j); try done; try (by rewrite Hc1).
  - intros. by eapply IH.
  - destruct Hprog. by split.
Qed.

(** *** The whole execution *)

Lemma loop_fresh fuel d tx t :
  configured d → dtm_state (m_state d) = Operating → LatencyCalibrator.inv (latency (m_config d)) →
  t_sticky t = 0 → t_inflight t = false →
  ins tx ≠ [] → Forall request_ok (ins tx) → length (outs tx) = length (ins tx) →
  m_first_incomplete tx = 0%nat → had_allocation_failure tx = false →
  (Z.to_nat (m_max_latency (latency (m_config d)) - m_current_latency (latency (m_config d))) < fuel)%nat →
  ended (t_mem t) (t_log t) (ins tx) (AttemptLoop (chain_run perform config) (S fuel) d tx Success t).
Proof.
  intros Hconf Hst Hinv Hs Hf Hne Hok Houts H0 Halloc Hfuel.
  destruct (ins tx) as [|a sent] eqn:Hins; [done|].
  destruct (attempt_fresh d tx t a sent) as (st & c & c' & t' & j & He & Hc1 & Hc2 & Han); try done.
  { unfold incomplete_actions. by rewrite H0, Hins. } { by rewrite Hins. }
  cbn [AttemptLoop]. rewrite He. cbn [mbind option_bind]. rewrite H0 in Han.
  apply (loop_continue fuel (t_mem t) (t_log t) (a :: sent) d tx (begun t a) t' c c' 0 a sent st j);
    try done; try (by rewrite Hc1); try lia.
  - intros. by eapply loop_waiting.
  - split; try done; try (cbn; lia); try (intros; lia). cbn. by destruct (perform (t_mem t) a).
Qed.
End attempt.

(** C2: with the transport alone on a working chain, and whenever the target is
    found busy or fails, executing a transaction of accesses ends within as many
    attempts as the latency has steps.  The debug module then has performed the
    accesses in order and none of them twice: all of them if the transaction
    succeeds, and otherwise those reported as done and the one that was in
    progress, with an error reported.  Every completed read holds what its
    request returned. *)
Theorem accesses_performed_once {M : Type} (perform : M → RVDTMAction → M * Z) (config : Configuration)
    (abits fuel : nat) (d : DTM) (tx : RVTx) (t : @target M)
    (Hperform : ∀ mem r, 0 ≤ (perform mem r).2 < 2 ^ 32)
    (Habits : (abits ≤ 30)%nat) (Hsize : m_dmi_size d = (34 + abits)%nat)
    (Hconfig : dtmcs_ir_value (m_config d) = dtmcs_ir_value config ∧ dmi_ir_value (m_config d) = dmi_ir_value config)
    (Hstate : dtm_state (m_state d) = Operating) (Hlatency : LatencyCalibrator.inv (latency (m_config d)))
    (Htarget : t_sticky t = 0 ∧ t_inflight t = false)
    (Hne : ins tx ≠ []) (Hreqs : Forall (request_ok abits) (ins tx)) (Houts : length (outs tx) = length (ins tx))
    (Htx : m_first_incomplete tx = 0%nat ∧ had_allocation_failure tx = false)
    (Hfuel : (Z.to_nat (m_max_latency (latency (m_config d)) - m_current_latency (latency (m_config d))) < fuel)%nat) :
  ∃ d' tx' t', AttemptLoop (chain_run perform config) (S fuel) d tx Success t = Some (d', tx', t')
    ∧ let k := m_first_incomplete tx' in
      t_log t' = t_log t ++ take (S k) (ins tx)
      ∧ (status_ok tx' = true ∧ k = length (ins tx)
         ∨ (k < length (ins tx))%nat ∧ is_Some (m_error_buffer tx'))
      ∧ (∀ i address x, (i < k)%nat → ins tx !! i = Some (RVReadDMI address) →
           (perform_all perform (t_mem t) (ins tx)).2 !! i = Some x → outs tx' !! i = Some (RVReadOut x)).
Proof.
  destruct Hconfig as [Hc1 Hc2], Htarget as [Hs Hf], Htx as [H0 Ha].
  destruct (loop_fresh perform Hperform config abits Habits (34 + abits) eq_refl fuel d tx t)
    as (d' & tx' & t' & k & He & Hp & Hend); try done.
  exists d', tx', t'. split; [exact He|]. destruct Hp as [P1 P2 P3 P4 P5 P6 P7 P8]. rewrite P4.
  split_and!; [done| |done].
  destruct Hend as [Hk|[Hk Herr]]; [left|by right]. split; [|done].
  unfold status_ok, End. rewrite P1, P3, P4, Hk. apply Nat.eqb_refl.
Qed.

(** Waiting between accesses does not work: when [SkipCycles] follows an
    access, the result of the waiting stands where the driver expects that of the
    next scan, and once the chain has completed the transaction the driver uses a
    null pointer. *)
Theorem skip_after_access_fails (d : DTM) (tx : RVTx) (a : RVDTMAction) (num_cycles : Z) (abits : nat)
    (Hsize : m_dmi_size d = (34 + abits)%nat) (Hstate : dtm_state (m_state d) = Operating)
    (Hok : request_ok abits a) (Hins : ins tx = [a; RVSkipCycles num_cycles])
    (H0 : m_first_incomplete tx = 0%nat) :
  ∃ xact d', AttemptBegin d tx Success = inr (xact, d')
    ∧ ∀ os, length os = length xact →
        (∀ i st k, xact !! i = Some (JCGoToState st k) → os !! i = Some JCDone) →
        AttemptEnd d' (m_state d) Success tx (mkTx xact os false (length xact) None) = None.
Proof.
  unfold AttemptBegin, incomplete_actions. rewrite H0, Hins, drop_0, Hstate.
  rewrite !bool_decide_eq_false_2 by done. rewrite (max_address_eq abits (34 + abits)%nat eq_refl) by done.
  assert (Hb : build d (2 ^ Z.of_nat abits - 1) false 0 [a; RVSkipCycles num_cycles]
    = inr [shift_dr (register a) (m_dmi_size d); go_to RunTestIdle (Get (latency (m_config d)));
           go_to RunTestIdle num_cycles]).
  { destruct a as [address data|address|]; cbn in Hok; [| |done]; cbn [build access];
      (destruct (Z.ltb_spec (2 ^ Z.of_nat abits - 1) address); [lia|]); done. }
  rewrite Hb. eexists _, _. split; [done|]. intros os Hl Hdone.
  cbn [app] in Hl, Hdone. specialize (Hdone 4%nat _ _ eq_refl).
  destruct os as [|o1 [|o2 [|o3 [|o4 [|o5 os]]]]]; try done. cbn in Hdone. injection Hdone as ->.
  unfold AttemptEnd, incomplete_actions. cbn [app m_first_incomplete m_error_buffer ins outs length zip zip_with take].
  rewrite H0, Hins, Hstate, drop_0, !bool_decide_eq_false_2 by done.
  destruct a; try done.
Qed.

(** *** Witnesses *)

(** A memory of words as debug module. *)
Definition demo_perform (mem : gmap Z Z) (r : RVDTMAction) : gmap Z Z * Z :=
  match r with
  | RVWriteDMI address data => (<[address := u32[data]]> mem, 0)
  | RVReadDMI address => (mem, u32[default 0 (mem !! address)])
  | RVSkipCycles _ => (mem, 0)
  end.

Lemma demo_perform_range mem r : 0 ≤ (demo_perform mem r).2 < 2 ^ 32.
Proof. destruct r; cbn [demo_perform snd]; [lia|apply wrap_range|lia]. Qed.

Definition demo_config : Configuration := mkConfiguration 0 16 17 (mkLatencyCalibrator 0 7 0).

Definition demo_dtm : DTM := mkDTM demo_config (mkState Operating 0) 41.

Definition demo_tx : RVTx := mkTx [RVWriteDMI 4 9; RVReadDMI 4] [RVOk; RVReadOut 0] false 0 None.

(** The target is found busy twice. *)
Definition demo_target : @target (gmap Z Z) := mkTarget ∅ 0 0 0 false [Busy; Ready; Busy] [].

Lemma accesses_performed_once_witness :
  ∃ d' tx' t', AttemptLoop (chain_run demo_perform demo_config) 9 demo_dtm demo_tx Success demo_target = Some (d', tx', t')
    ∧ t_log t' = [RVWriteDMI 4 9; RVReadDMI 4] ∧ outs tx' = [RVOk; RVReadOut 9].
Proof.
  destruct (accesses_performed_once demo_perform demo_config 7 8 demo_dtm demo_tx demo_target) as (d' & tx' & t' & He & Hlog & _ & _);
    [apply demo_perform_range|lia|done|done|done|split; cbn; lia|done|done|repeat constructor; cbn; lia|done|done|cbn; lia|].
  exists d', tx', t'. split; [exact He|]. vm_compute in He. injection He as <- <- <-. done.
Defined.

Lemma skip_after_access_fails_witness :
  ∃ xact d', AttemptBegin demo_dtm (mkTx [RVReadDMI 4; RVSkipCycles 3] [RVReadOut 0; RVOk] false 0 None) Success
      = inr (xact, d')
    ∧ AttemptEnd d' (m_state demo_dtm) Success (mkTx [RVReadDMI 4; RVSkipCycles 3] [RVReadOut 0; RVOk] false 0 None)
        (mkTx xact [JCDone; JCDone; JCShiftOut 1 [true]; JCDone; JCDone; JCShiftOut 1 [true]; JCDone]
           false (length xact) None) = None.
Proof.
  destruct (skip_after_access_fails demo_dtm (mkTx [RVReadDMI 4; RVSkipCycles 3] [RVReadOut 0; RVOk] false 0 None)
    (RVReadDMI 4) 3 7) as (xact & d' & Hb & He); [done|done|cbn; lia|done|done|].
  exists xact, d'. split; [exact Hb|]. vm_compute in Hb. injection Hb as <- <-. apply He; [done|].
  intros i st k Hi. do 7 (destruct i as [|i]; [by vm_compute in Hi |- *; simplify_eq|]). done.
Defined.
