(* ===== verification/AsyncGate.v ===== *)
(** * AsyncGate: the gate in front of a discovery
    ([src/src/libedr/util/asynchronicity/AsyncGate.hpp],
    [src/src/libedr/driver/riscv/RVJtagDTM.cpp]).

    The first transaction of an [RVJtagDTM] discovers the debug module; it closes a
    gate behind which other transactions queue up, and opens it in the end.
    [RVJtagDTM] has what a single transaction does; here any number of them run
    [Execute] and interleave wherever one releases the mutex.  The item that a
    transaction queues with lives in its frame and is named like it; it stays in the
    heap of the model when the frame is gone, so that the write of the next start to
    an item just resolved, which [Endpoint] and [ResolutionQueue] show, is not a
    fault here. *)
From S2P Require Import Prelude ResolutionQueue RVJtagDTM.

(** ** The gate *)

Record AsyncGate := mkGate { m_is_open : bool; heap : store; m_queue : ResolutionQueue }.

Definition new_gate : AsyncGate := mkGate true ∅ empty_queue.

(** [Pass]: whether the caller goes on at once. *)
Definition Pass (g : AsyncGate) (item : addr) : option (bool * AsyncGate) :=
  if m_is_open g then Some (true, g) else
  '(h, q) ← Enqueue (<[item := None]> (heap g)) (m_queue g) item;
  Some (false, mkGate (m_is_open g) h q).

Definition Close (g : AsyncGate) : option AsyncGate :=
  check (m_is_open g);; Some (mkGate false (heap g) (m_queue g)).

(** The loop of [Open], up to the release of the mutex for the item that is
    resolved next, or to the end. *)
Definition OpenLoop (g : AsyncGate) : option (option addr * AsyncGate) :=
  if NoScheduled (m_queue g) then Some (None, mkGate true (heap g) (m_queue g)) else
  '(_, h, q) ← StartNextScheduled (heap g) (m_queue g);
  '(item, q) ← PrepareToResolve h q;
  Some (Some item, mkGate (m_is_open g) h q).

Definition Open (g : AsyncGate) : option (option addr * AsyncGate) :=
  check (negb (m_is_open g));; OpenLoop g.

(** ** Transactions *)

(** Where a transaction is when the mutex is free: it has not started, is suspended
    at the gate, was resumed there, waits for the answer to its discovery or to an
    attempt, or is resolving the items of others in [Open]. *)
Inductive Phase :=
| Starting
| Suspended
| Resumed
| Discovering
| Attempting (i_closed_the_gate : bool)
| Resolving (item : addr)
| Reopening
| Finished.

Record System := mkSystem {
  m_discovery_gate : AsyncGate;
  state : DTMState;
  phases : gmap nat Phase;
  (** the transactions that entered [Discover] and those queued at the gate *)
  discoveries : list nat;
  queued : list nat;
}.

Definition start : System := mkSystem new_gate Initial ∅ [] [].

Definition set_phase (s : System) (g : AsyncGate) (d : DTMState) (i : nat) (p : Phase) : System :=
  mkSystem g d (<[i := p]> (phases s)) (discoveries s) (queued s).

(** [Execute] behind [Pass]. *)
Definition passed (s : System) (i : nat) : option System :=
  let g := m_discovery_gate s in
  match state s with
  | Invalid => Some (set_phase s g (state s) i Finished)
  | Initial =>
      g ← Close g;
      Some (mkSystem g (state s) (<[i := Discovering]> (phases s)) (discoveries s ++ [i]) (queued s))
  | _ => Some (set_phase s g (state s) i (Attempting false))
  end.

(** [Open] from its beginning or from behind a [Resolve], and the end of [Execute]. *)
Definition opening (s : System) (d : DTMState) (i : nat) (r : option (option addr * AsyncGate))
    : option System :=
  '(mb, g) ← r;
  Some (set_phase s g d i (match mb with Some item => Resolving item | None => Finished end)).

(** The answers of the environment: whether the discovery succeeds, and the state
    that the attempts of a transaction leave. *)
Record Answer := mkAnswer { discovered : bool; left_state : DTMState }.

(** One step of transaction [i], from one release of the mutex to the next. *)
Definition move (s : System) (i : nat) (a : Answer) : option System :=
  let g := m_discovery_gate s in
  p ← phases s !! i;
  match p with
  | Starting =>
      '(ok, g) ← Pass g i;
      if (ok : bool) then passed s i
      else Some (mkSystem g (state s) (<[i := Suspended]> (phases s)) (discoveries s) (queued s ++ [i]))
  | Resumed => passed s i
  | Discovering =>
      if discovered a then Some (set_phase s g Operating i (Attempting true))
      else opening s Invalid i (Open g)
  | Attempting true => opening s (left_state a) i (Open g)
  | Attempting false => Some (set_phase s g (left_state a) i Finished)
  | Resolving item =>
      Some (mkSystem g (state s) (<[i := Reopening]> (<[item := Resumed]> (phases s)))
              (discoveries s) (queued s))
  | Reopening => opening s (state s) i (OpenLoop g)
  | Suspended | Finished => None
  end.

Inductive sys_step : System → System → Prop :=
| StepArrive s i :
    phases s !! i = None →
    sys_step s (mkSystem (m_discovery_gate s) (state s) (<[i := Starting]> (phases s)) (discoveries s) (queued s))
| StepMove s i a s' :
    left_state a ≠ Initial → move s i a = Some s' → sys_step s s'.

Definition reachable : System → Prop := rtc sys_step start.

(** Whether a transaction can go on by itself. *)
Definition active (p : Phase) : bool :=
  match p with Suspended | Finished => false | _ => true end.

(** ** Invariant *)

(** A transaction that has the gate closed. *)
Definition closes (p : Phase) : bool :=
  match p with Discovering | Attempting true | Resolving _ | Reopening => true | _ => false end.

(** A transaction that has not got behind the discovery. *)
Definition early (p : Phase) : bool :=
  match p with Starting | Suspended | Discovering => true | _ => false end.

(** Phases that say nothing about the queue. *)
Definition plain (p : Phase) : bool := match p with Suspended | Resolving _ => false | _ => true end.

(** [co] has the gate closed, the transactions of [sched] are in the queue. *)
Record phases_inv (ps : gmap nat Phase) (co : option nat) (sched : list nat) : Prop := {
  pi_closer : ∀ j p, ps !! j = Some p → closes p = bool_decide (co = Some j);
  pi_some : ∀ j, co = Some j → is_Some (ps !! j);
  pi_suspended : ∀ j, ps !! j = Some Suspended → j ∈ sched ∨ ∃ i, ps !! i = Some (Resolving j);
  pi_sched : ∀ j, j ∈ sched → ps !! j = Some Suspended;
  pi_resolving : ∀ i j, ps !! i = Some (Resolving j) → ps !! j = Some Suspended ∧ j ∉ sched;
}.

Record inv_at (s : System) (co : option nat) (sched : list nat) : Prop := {
  inv_queue : idle (heap (m_discovery_gate s)) (m_queue (m_discovery_gate s)) (queued s) sched;
  inv_phases : phases_inv (phases s) co sched;
  inv_open : m_is_open (m_discovery_gate s) = bool_decide (co = None);
  inv_empty : co = None → sched = [];
  inv_queued : ∀ j, j ∈ queued s → ∃ p, phases s !! j = Some p ∧ p ≠ Starting;
  inv_early : state s = Initial → ∀ j p, phases s !! j = Some p → early p = true;
  inv_discovering : ∀ j, phases s !! j = Some Discovering → state s = Initial;
  inv_discoveries : discoveries s = [] ∧ state s = Initial ∧ co = None ∨ length (discoveries s) = 1 ∧ (state s = Initial → co ≠ None);
}.

Definition inv (s : System) : Prop := ∃ co sched, inv_at s co sched.

(** *** Changes of phase *)

Section phases.
Implicit Types (ps : gmap nat Phase) (i j : nat) (p : Phase).

(** A transaction changes to a phase that says nothing about the queue. *)
Lemma phases_set ps co sched i p' :
  phases_inv ps co sched → (∀ p, ps !! i = Some p → plain p = true) → plain p' = true →
  (closes p' = true → co = None ∨ co = Some i) →
  phases_inv (<[i := p']> ps)
    (if closes p' then Some i else if decide (co = Some i) then None else co) sched.
Proof.
  intros [Hc Hs Hsu Hsc Hr] Hp Hp' Hco. split.
  - intros j p Hj. apply lookup_insert_Some in Hj as [[<- <-]|[Hij Hj]].
    + destruct (closes p'); symmetry; [by apply bool_decide_eq_true_2|].
      apply bool_decide_eq_false_2. case_decide; congruence.
    + rewrite (Hc j p Hj). apply bool_decide_ext. destruct (closes p') eqn:E.
      * destruct (Hco eq_refl) as [->| ->]; split; congruence.
      * case_decide; [subst; split; congruence|done].
  - intros j Hj. apply lookup_insert_is_Some'. destruct (closes p'); [left; congruence|].
    case_decide; [done|]. right. by apply Hs.
  - intros j Hj. apply lookup_insert_Some in Hj as [[<- ->]|[Hij Hj]]; [done|].
    destruct (Hsu j Hj) as [?|[k Hk]]; [by left|]. right. exists k. rewrite lookup_insert_ne; [done|].
    intros ->. by apply Hp in Hk.
  - intros j Hj. apply Hsc in Hj. rewrite lookup_insert_ne; [done|]. intros ->. by apply Hp in Hj.
  - intros k j Hk. apply lookup_insert_Some in Hk as [[<- ->]|[Hik Hk]]; [done|].
    destruct (Hr k j Hk) as [Hj ?]. split; [|done]. rewrite lookup_insert_ne; [done|].
    intros ->. by apply Hp in Hj.
Qed.

(** A transaction is queued. *)
Lemma phases_suspend ps co sched i :
  phases_inv ps co sched → ps !! i = Some Starting →
  phases_inv (<[i := Suspended]> ps) co (sched ++ [i]).
Proof.
  intros [Hc Hs Hsu Hsc Hr] Hi. split.
  - intros j p Hj. apply lookup_insert_Some in Hj as [[<- <-]|[Hij Hj]]; [|by apply Hc].
    by rewrite <-(Hc i Starting Hi).
  - intros j Hj. apply lookup_insert_is_Some'. right. by apply Hs.
  - intros j Hj. rewrite elem_of_app, list_elem_of_singleton.
    apply lookup_insert_Some in Hj as [[<- _]|[Hij Hj]]; [left; by right|].
    destruct (Hsu j Hj) as [?|[k Hk]]; [left; by left|]. right. exists k.
    rewrite lookup_insert_ne by congruence. done.
  - intros j. rewrite elem_of_app, list_elem_of_singleton. intros [Hj| ->]; [|by rewrite lookup_insert_eq].
    apply Hsc in Hj. rewrite lookup_insert_ne; congruence.
  - intros k j Hk. apply lookup_insert_Some in Hk as [[<- ?]|[Hik Hk]]; [done|].
    destruct (Hr k j Hk) as [Hj Hn]. assert (i ≠ j) by congruence.
    rewrite lookup_insert_ne, elem_of_app, list_elem_of_singleton by done. naive_solver.
Qed.

(** The closer takes the first one out of the queue ... *)
Lemma phases_take ps x sched i p :
  phases_inv ps (Some i) (x :: sched) → NoDup (x :: sched) → ps !! i = Some p → plain p = true →
  phases_inv (<[i := Resolving x]> ps) (Some i) sched.
Proof.
  intros [Hc Hs Hsu Hsc Hr] [Hx _]%NoDup_cons Hi Hp.
  assert (Hsx : ps !! x = Some Suspended) by (apply Hsc, list_elem_of_here).
  assert (i ≠ x) by (intros ->; rewrite Hi in Hsx; by simplify_eq).
  assert (Hno : ∀ k j, ps !! k ≠ Some (Resolving j)).
  { intros k j Hk. pose proof (Hc k _ Hk) as Hck. cbn in Hck. symmetry in Hck.
    apply bool_decide_eq_true in Hck as [= ->]. rewrite Hi in Hk. by simplify_eq. }
  split.
  - intros j q Hj. apply lookup_insert_Some in Hj as [[<- <-]|[Hij Hj]]; [|by apply Hc].
    by rewrite bool_decide_eq_true_2.
  - intros j Hj. apply lookup_insert_is_Some'. right. by apply Hs.
  - intros j Hj. apply lookup_insert_Some in Hj as [[<- ?]|[Hij Hj]]; [done|].
    destruct (Hsu j Hj) as [[->|?]%elem_of_cons|[k Hk]]; [|by left|by destruct (Hno k j)].
    right. exists i. by rewrite lookup_insert_eq.
  - intros j Hj. assert (ps !! j = Some Suspended) by (apply Hsc; by right).
    rewrite lookup_insert_ne; [done|]. intros ->. simplify_eq.
  - intros k j Hk. apply lookup_insert_Some in Hk as [[<- [= ->]]|[Hik Hk]]; [|by destruct (Hno k j)].
    by rewrite lookup_insert_ne.
Qed.

(** ... and resumes it. *)
Lemma phases_resume ps co sched i x :
  phases_inv ps co sched → ps !! i = Some (Resolving x) →
  phases_inv (<[i := Reopening]> (<[x := Resumed]> ps)) co sched.
Proof.
  intros [Hc Hs Hsu Hsc Hr] Hi. destruct (Hr i x Hi) as [Hx Hxs]. assert (i ≠ x) by congruence.
  assert (Hno : ∀ k j, ps !! k = Some (Resolving j) → k = i ∧ j = x).
  { intros k j Hk. pose proof (Hc k _ Hk) as Hck. pose proof (Hc i _ Hi) as Hci. cbn in Hck, Hci.
    symmetry in Hck, Hci. apply bool_decide_eq_true in Hck, Hci. by simplify_eq. }
  split.
  - intros j p Hj. apply lookup_insert_Some in Hj as [[<- <-]|[Hij Hj]]; [by rewrite <-(Hc i _ Hi)|].
    apply lookup_insert_Some in Hj as [[<- <-]|[Hxj Hj]]; [by rewrite <-(Hc x _ Hx)|by apply Hc].
  - intros j Hj. apply lookup_insert_is_Some'. right. apply lookup_insert_is_Some'. right. by apply Hs.
  - intros j Hj. apply lookup_insert_Some in Hj as [[<- ?]|[Hij Hj]]; [done|].
    apply lookup_insert_Some in Hj as [[<- ?]|[Hxj Hj]]; [done|].
    destruct (Hsu j Hj) as [?|[k Hk]]; [by left|]. by destruct (Hno k j Hk) as [_ ->].
  - intros j Hj. pose proof (Hsc j Hj). rewrite !lookup_insert_ne; [done|congruence|congruence].
  - intros k j Hk. apply lookup_insert_Some in Hk as [[<- ?]|[Hik Hk]]; [done|].
    apply lookup_insert_Some in Hk as [[<- ?]|[Hxk Hk]]; [done|]. by destruct (Hno k j Hk) as [-> _].
Qed.
End phases.

(** ** Every step keeps the invariant *)

Definition closer_after (co : option nat) (i : nat) (p : Phase) : option nat :=
  if closes p then Some i else if decide (co = Some i) then None else co.

Lemma gate_eta g : mkGate (m_is_open g) (heap g) (m_queue g) = g.
Proof. by destruct g. Qed.

(** A transaction moves on without touching the queue. *)
Lemma set_inv s co sched i p' st' disc' open' :
  inv_at s co sched → (∀ p, phases s !! i = Some p → plain p = true) → plain p' = true →
  (closes p' = true → co = None ∨ co = Some i) →
  let co' := closer_after co i p' in
  open' = bool_decide (co' = None) → (co' = None → sched = []) →
  (p' = Starting → phases s !! i = None) →
  (st' = Initial → state s = Initial ∧ early p' = true) → (p' = Discovering → st' = Initial) →
  (st' = state s ∨ ∀ j, j ≠ i → phases s !! j ≠ Some Discovering) →
  (disc' = [] ∧ st' = Initial ∧ co' = None ∨ length disc' = 1 ∧ (st' = Initial → co' ≠ None)) →
  inv (mkSystem (mkGate open' (heap (m_discovery_gate s)) (m_queue (m_discovery_gate s))) st'
         (<[i := p']> (phases s)) disc' (queued s)).
Proof.
  intros [Hq Hp Ho He Hqd Hea Hdi Hdc] Hpl Hpl' Hcl co' Hop Hem Hst Hst' Hdis Hoth Hdisc.
  exists co', sched. split; cbn; try done.
  - by apply phases_set.
  - intros j Hj. destruct (Hqd j Hj) as (p & Hjp & Hns). destruct (decide (i = j)) as [->|Hij].
    + exists p'. rewrite lookup_insert_eq. split; [done|]. intros Hs. rewrite (Hst Hs) in Hjp. done.
    + exists p. by rewrite lookup_insert_ne.
  - intros Hi j p Hj. destruct (Hst' Hi) as [Hs Hep].
    apply lookup_insert_Some in Hj as [[<- <-]|[Hij Hj]]; [done|]. by eapply Hea.
  - intros j Hj. apply lookup_insert_Some in Hj as [[<- ->]|[Hij Hj]]; [by apply Hdis|].
    destruct Hoth as [->|Hoth]; [by eapply Hdi|]. by destruct (Hoth j).
Qed.

Lemma closer_phase s co sched i p :
  inv_at s co sched → phases s !! i = Some p → closes p = bool_decide (co = Some i).
Proof. intros Hi. apply (pi_closer _ _ _ (inv_phases _ _ _ Hi)). Qed.

Lemma one_discovering s co sched i p j :
  inv_at s co sched → phases s !! i = Some p → closes p = true → j ≠ i → phases s !! j ≠ Some Discovering.
Proof.
  intros Hi Hp Hc Hji Hj. pose proof (closer_phase s co sched i p Hi Hp) as H1.
  pose proof (closer_phase s co sched j _ Hi Hj) as H2. rewrite Hc in H1. symmetry in H1, H2.
  apply bool_decide_eq_true in H1, H2. congruence.
Qed.

(** The loop of [Open], by the transaction that has the gate closed. *)
Lemma opening_inv s co sched i p st' :
  inv_at s co sched → phases s !! i = Some p → closes p = true → plain p = true →
  st' ≠ Initial → length (discoveries s) = 1 →
  ∃ s', opening s st' i (OpenLoop (m_discovery_gate s)) = Some s' ∧ inv s'.
Proof.
  intros Hinv Hi Hc Hp Hst Hdc. pose proof (closer_phase s co sched i p Hinv Hi) as Hco.
  rewrite Hc in Hco. symmetry in Hco. apply bool_decide_eq_true in Hco as ->.
  pose proof Hinv as [Hq Hph Ho He Hqd Hea Hdi _]. unfold opening, OpenLoop.
  rewrite (idle_NoScheduled _ _ _ _ Hq). destruct sched as [|x sched].
  - rewrite bool_decide_eq_true_2 by done. eexists. split; [done|].
    eapply set_inv; try done.
    + intros q Hq'. simplify_eq. done.
    + unfold closer_after. cbn. by rewrite decide_True.
    + right. intros j Hj. by eapply one_discovering.
    + by right.
  - rewrite bool_decide_eq_false_2 by done.
    destruct (idle_serve _ _ _ _ _ Hq) as (y & h & q & q' & -> & HP & Hq'). cbn [mbind option_bind].
    rewrite HP. eexists. split; [done|]. exists (Some i), sched. split; cbn; try done.
    + eapply phases_take; try done. destruct Hq as (seen & _ & Hr). by apply repr_nodup in Hr.
    + intros j Hj. destruct (Hqd j Hj) as (p1 & Hj1 & Hns). destruct (decide (i = j)) as [->|Hij].
      * exists (Resolving x). by rewrite lookup_insert_eq.
      * exists p1. by rewrite lookup_insert_ne.
    + intros j Hj. apply lookup_insert_Some in Hj as [[<- ?]|[Hij Hj]]; [done|].
      by destruct (one_discovering s (Some i) (x :: sched) i p j).
    + by right.
Qed.

(** What follows the gate. *)
Lemma passed_inv s co sched i p :
  inv_at s co sched → phases s !! i = Some p → plain p = true → closes p = false →
  (state s = Initial → co = None) → ∃ s', passed s i = Some s' ∧ inv s'.
Proof.
  intros Hinv Hi Hp Hc Hst. pose proof (closer_phase s co sched i p Hinv Hi) as Hco.
  rewrite Hc in Hco. symmetry in Hco. apply bool_decide_eq_false in Hco.
  assert (Hpl : ∀ q, phases s !! i = Some q → plain q = true) by (intros q Hq; by simplify_eq).
  pose proof (inv_open _ _ _ Hinv) as Ho. pose proof (inv_discoveries _ _ _ Hinv) as Hd.
  assert (Hsame : ∀ p', plain p' = true → closes p' = false → p' ≠ Starting → state s ≠ Initial →
    inv (set_phase s (m_discovery_gate s) (state s) i p')).
  { intros p' Hp' Hc' Hns Hs. unfold set_phase. rewrite <-(gate_eta (m_discovery_gate s)) at 1.
    assert (Hca : closer_after co i p' = co) by (unfold closer_after; by rewrite Hc', decide_False).
    eapply set_inv; try done; rewrite ?Hca; try done.
    - congruence.
    - by apply Hinv.
    - by intros ->.
    - by left. }
  unfold passed. destruct (state s) eqn:Es; 
    try (eexists; split; [done|]; by apply Hsame).
  pose proof (Hst eq_refl) as ->. unfold Close. rewrite Ho, bool_decide_eq_true_2 by done. cbn.
  eexists. split; [done|]. eapply set_inv; try done; try (by left).
  right. destruct Hd as [(-> & _)|[_ Hd]]; [done|]. by destruct (Hd eq_refl).
Qed.

Lemma late_discovered s co sched i p :
  inv_at s co sched → phases s !! i = Some p → early p = false →
  state s ≠ Initial ∧ length (discoveries s) = 1.
Proof.
  intros Hinv Hi He.
  assert (Hs : state s ≠ Initial) by (intros Hs; by rewrite (inv_early _ _ _ Hinv Hs i p Hi) in He).
  split; [done|]. by destruct (inv_discoveries _ _ _ Hinv) as [(_ & ? & _)|[? _]].
Qed.

(** The transaction that has the gate closed may open it. *)
Lemma closer_closed s co sched i p :
  inv_at s co sched → phases s !! i = Some p → closes p = true →
  co = Some i ∧ m_is_open (m_discovery_gate s) = false.
Proof.
  intros Hinv Hi Hc. pose proof (closer_phase s co sched i p Hinv Hi) as Hco. rewrite Hc in Hco.
  symmetry in Hco. apply bool_decide_eq_true in Hco. split; [done|].
  rewrite (inv_open _ _ _ Hinv). apply bool_decide_eq_false_2. congruence.
Qed.

Lemma suspend_inv s co sched i :
  inv_at s co sched → phases s !! i = Some Starting → m_is_open (m_discovery_gate s) = false →
  ∃ h q, Pass (m_discovery_gate s) i = Some (false, mkGate false h q)
    ∧ inv (mkSystem (mkGate false h q) (state s) (<[i := Suspended]> (phases s)) (discoveries s) (queued s ++ [i])).
Proof.
  intros Hinv Hi Ho. pose proof Hinv as [Hq Hph Hop He Hqd Hea Hdi Hdc].
  destruct (idle_enqueue _ _ _ _ i Hq) as (h & q & HE & Hq').
  { intros Hin. destruct (Hqd i Hin) as (p & Hp & Hn). rewrite Hi in Hp. by simplify_eq. }
  exists h, q. unfold Pass. rewrite Ho, HE. split; [done|]. exists co, (sched ++ [i]). split; cbn; try done.
  - by apply phases_suspend.
  - by rewrite <-Ho.
  - intros ->. by rewrite Ho in Hop.
  - intros j. rewrite elem_of_app, list_elem_of_singleton. intros [Hj| ->].
    + destruct (Hqd j Hj) as (p & Hp & Hn). exists p. rewrite lookup_insert_ne; [done|]. congruence.
    + exists Suspended. by rewrite lookup_insert_eq.
  - intros Hs j p Hj. apply lookup_insert_Some in Hj as [[<- <-]|[_ Hj]]; [done|]. by eapply Hea.
  - intros j Hj. apply lookup_insert_Some in Hj as [[<- ?]|[_ Hj]]; [done|]. by eapply Hdi.
Qed.

Lemma resume_inv s co sched i x :
  inv_at s co sched → phases s !! i = Some (Resolving x) →
  inv (mkSystem (m_discovery_gate s) (state s) (<[i := Reopening]> (<[x := Resumed]> (phases s)))
         (discoveries s) (queued s)).
Proof.
  intros Hinv Hi. pose proof Hinv as [Hq Hph Hop He Hqd Hea Hdi Hdc].
  destruct (late_discovered s co sched i _ Hinv Hi eq_refl) as [Hs _].
  exists co, sched. split; cbn; try done.
  - by apply phases_resume.
  - intros j Hj. destruct (Hqd j Hj) as (p & Hp & Hn). destruct (decide (i = j)) as [->|Hij].
    { exists Reopening. by rewrite lookup_insert_eq. }
    rewrite lookup_insert_ne by done. destruct (decide (x = j)) as [->|Hxj].
    { exists Resumed. by rewrite lookup_insert_eq. }
    rewrite lookup_insert_ne by done. eauto.
  - intros j Hj. apply lookup_insert_Some in Hj as [[<- ?]|[_ Hj]]; [done|].
    apply lookup_insert_Some in Hj as [[<- ?]|[_ Hj]]; [done|]. by eapply Hdi.
Qed.

Lemma phase_move_inv s i p a :
  inv s → phases s !! i = Some p → active p = true → left_state a ≠ Initial →
  ∃ s', move s i a = Some s' ∧ inv s'.
Proof.
  intros (co & sched & Hinv) Hi Hact Ha. unfold move. rewrite Hi. cbn [mbind option_bind].
  assert (Hopen : closes p = true → plain p = true → length (discoveries s) = 1 → ∀ st', st' ≠ Initial →
    ∃ s', opening s st' i (Open (m_discovery_gate s)) = Some s' ∧ inv s').
  { intros Hc Hp Hd st' Hst. unfold Open. destruct (closer_closed s co sched i p Hinv Hi Hc) as [_ ->].
    cbn [negb check mbind option_bind]. by eapply opening_inv. }
  destruct p as [| | | |[]|x| |]; try done.
  - destruct (m_is_open (m_discovery_gate s)) eqn:Ho.
    + unfold Pass. rewrite Ho. cbn [mbind option_bind]. eapply passed_inv; try done.
      intros _. rewrite (inv_open _ _ _ Hinv) in Ho. by apply bool_decide_eq_true in Ho.
    + destruct (suspend_inv s co sched i Hinv Hi Ho) as (h & q & -> & Hinv'). eauto.
  - destruct (late_discovered s co sched i _ Hinv Hi eq_refl) as [Hs _]. by eapply passed_inv.
  - assert (Hd : length (discoveries s) = 1).
    { destruct (closer_closed s co sched i _ Hinv Hi eq_refl) as [-> _].
      by destruct (inv_discoveries _ _ _ Hinv) as [(_ & _ & ?)|[? _]]. }
    destruct (discovered a); [|by apply Hopen].
    eexists. split; [done|]. unfold set_phase. rewrite <-(gate_eta (m_discovery_gate s)) at 1.
    destruct (closer_closed s co sched i _ Hinv Hi eq_refl) as [-> Ho]. eapply set_inv; try done.
    + intros q Hq. by simplify_eq.
    + by right.
    + right. intros j Hj. by eapply one_discovering.
    + by right.
  - destruct (late_discovered s co sched i _ Hinv Hi eq_refl) as [Hs Hd]. by apply Hopen.
  - destruct (late_discovered s co sched i _ Hinv Hi eq_refl) as [Hs Hd]. eexists. split; [done|].
    unfold set_phase. rewrite <-(gate_eta (m_discovery_gate s)) at 1.
    pose proof (closer_phase s co sched i _ Hinv Hi) as Hco. symmetry in Hco. apply bool_decide_eq_false in Hco.
    assert (Hca : closer_after co i Finished = co) by (unfold closer_after; by rewrite decide_False).
    eapply set_inv; try done; rewrite ?Hca; try done.
    + intros q Hq. by simplify_eq.
    + apply Hinv.
    + apply Hinv.
    + right. intros j _ Hj. by apply (inv_discovering _ _ _ Hinv) in Hj.
    + by right.
  - eexists. split; [done|]. by eapply resume_inv.
  - destruct (late_discovered s co sched i _ Hinv Hi eq_refl) as [Hs Hd]. by eapply opening_inv.
Qed.

Lemma gate_step_inv s s' : inv s → sys_step s s' → inv s'.
Proof.
  intros Hinv Hstep. destruct Hstep as [s i Hi|s i a s' Ha Hm].
  - destruct Hinv as (co & sched & Hinv). rewrite <-(gate_eta (m_discovery_gate s)).
    assert (Hco : co ≠ Some i).
    { intros ->. destruct (pi_some _ _ _ (inv_phases _ _ _ Hinv) i eq_refl) as [? Hn]. congruence. }
    assert (Hca : closer_after co i Starting = co) by (unfold closer_after; by rewrite decide_False).
    eapply set_inv; try done; rewrite ?Hca; try done; try apply Hinv; try (by left). congruence.
  - destruct (phases s !! i) as [p|] eqn:Hi; [|by unfold move in Hm; rewrite Hi in Hm].
    destruct (phase_move_inv s i p a Hinv Hi) as (s1 & Hm1 & Hinv1); [|done|congruence].
    unfold move in Hm. rewrite Hi in Hm. by destruct p.
Qed.

Lemma gate_inv s : reachable s → inv s.
Proof.
  assert (Hall : ∀ s0, rtc sys_step s0 s → inv s0 → inv s).
  { intros s0 Hr. induction Hr; eauto using gate_step_inv. }
  intros Hr. apply (Hall start Hr). exists None, [].
  split; cbn; try done; try (by intros j ?%elem_of_nil); [apply empty_idle| |by left].
  split; try done; by intros j ?%elem_of_nil.
Qed.


(** ** An example *)

(** [inl i]: transaction [i] arrives; [inr (i, d)]: it moves, with a discovery that
    succeeds if [d] says so. *)
Fixpoint run (s : System) (l : list (nat + nat * bool)) : option System :=
  match l with
  | [] => Some s
  | inl i :: l =>
      check (bool_decide (phases s !! i = None));;
      run (mkSystem (m_discovery_gate s) (state s) (<[i := Starting]> (phases s)) (discoveries s) (queued s)) l
  | inr (i, d) :: l => s ← move s i (mkAnswer d Operating); run s l
  end.

Lemma run_reachable l s s' : reachable s → run s l = Some s' → reachable s'.
Proof.
  revert s. induction l as [|[i|[i d]] l IH]; intros s Hr; cbn [run]; [by intros [= <-]| |].
  - case_bool_decide; [|done]. cbn [check mbind option_bind]. intros Hrun. eapply IH; [|exact Hrun].
    eapply rtc_r; [exact Hr|]. by apply StepArrive.
  - destruct (move s i _) as [s1|] eqn:E; [|done]. cbn [mbind option_bind]. intros Hrun.
    eapply IH; [|exact Hrun]. eapply rtc_r; [exact Hr|]. by eapply (StepMove _ i (mkAnswer d Operating)).
Qed.

(** Transaction 1 discovers, 2 and 3 queue up behind it. *)
Definition demo : System :=
  default start (run start [inl 1; inr (1, true); inl 2; inr (2, true); inl 3; inr (3, true);
                            inr (1, true); inr (1, true); inr (1, true)]).

Lemma demo_reachable : reachable demo.
Proof.
  unfold demo. destruct (run start _) as [s|] eqn:E; [|by vm_compute in E].
  eapply run_reachable; [apply rtc_refl|exact E].
Qed.

