(* ===== verification/Sockets.v ===== *)
(** * Sockets: streams over the sockets of the operating system
    ([src/src/libedr/driver/bytestream/TCPSocket.cpp], [NamedPipe.cpp],
    [util/miscellaneous/ScopeGuard.hpp]).

    The operating system is a parameter: it answers every call with the value
    that the call returns, [errno] after it and what it stores through pointers.
    The model follows the descriptors that are open and the lists of addresses
    that are allocated; closing a descriptor that is not open, or freeing a list
    twice, is a fault.  Errors come with their cause; errors that could not be
    allocated are left out. *)
From S2P Require Import Prelude Actions Transaction ByteStream.
From stdpp Require Import strings pretty.
Local Open Scope Z_scope.

(** ** The operating system *)

Inductive syscall :=
| SGetAddrInfo (hostname port : string)
| SFreeAddrInfo
| SSocket
| SConnect (fd : Z)
| SConnectUnix (fd : Z) (sun_path : list Z)
| SBind (fd : Z) (port : Z)
| SBindUnix (fd : Z) (sun_path : list Z)
| SListen (fd : Z) (max_num_queued_clients : Z)
| SGetSockName (fd : Z)
| SAccept (fd : Z)
| SSetNoDelay (fd : Z)
| SSend (fd : Z) (source : list Z)
| SRecv (fd : Z) (size : nat)
| SClose (fd : Z).

Record answer := mkAnswer {
  ret : Z;
  errno : Z;
  (** [*res] of [getaddrinfo] is not null. *)
  found : bool;
  (** [sin_port] of [getsockname], in the byte order of the host. *)
  port_of : Z;
  (** What [recv] stored. *)
  received : list Z;
}.

(** What the documentation of the calls says: new descriptors are not in use,
    [send] and [recv] return [-1] or how much was transferred. *)
Class OS := {
  answer_of : nat → gset Z → syscall → answer;
  os_fresh n fds c :
    (c = SSocket ∨ ∃ fd, c = SAccept fd) →
    ret (answer_of n fds c) = -1 ∨ 0 ≤ ret (answer_of n fds c) ∧ ret (answer_of n fds c) ∉ fds;
  os_send n fds fd source : -1 ≤ ret (answer_of n fds (SSend fd source)) ≤ Z.of_nat (length source);
  os_recv n fds fd size :
    -1 ≤ ret (answer_of n fds (SRecv fd size)) ≤ Z.of_nat size
    ∧ Z.of_nat (length (received (answer_of n fds (SRecv fd size))))
      = Z.max 0 (ret (answer_of n fds (SRecv fd size)));
}.

(** The calls made so far, the open descriptors and the allocated lists. *)
Record System := mkSystem { calls : nat; fds : gset Z; addrinfos : nat }.

Definition M (A : Type) : Type := System → option (A * System).

#[export] Instance M_ret : MRet M := λ A a w, Some (a, w).
#[export] Instance M_bind : MBind M := λ A B k m w, '(a, w) ← m w; k a w.

Section programs.
Context `{OS}.

Definition call (c : syscall) : M answer := λ w,
  let a := answer_of (calls w) (fds w) c in
  let next fds infos := Some (a, mkSystem (S (calls w)) fds infos) in
  match c with
  | SSocket | SAccept _ => next (if ret a =? -1 then fds w else {[ret a]} ∪ fds w) (addrinfos w)
  | SClose fd => check (bool_decide (fd ∈ fds w));; next (fds w ∖ {[fd]}) (addrinfos w)
  | SGetAddrInfo _ _ =>
      next (fds w) (if (ret a =? 0) && found a then S (addrinfos w) else addrinfos w)
  | SFreeAddrInfo => check (0 <? addrinfos w)%nat;; next (fds w) (addrinfos w - 1)%nat
  | _ => next (fds w) (addrinfos w)
  end.

(** [MakeScopeGuard]: [body] says with its result whether the guard is still
    engaged when the scope ends, that is whether [Release] was not called. *)
Definition scope_guard {A : Type} (func : M ()) (body : M (A * bool)) : M A :=
  '(r, engaged) ← body;
  if (engaged : bool) then func;; mret r else mret r.

Definition close (fd : Z) : M () := call (SClose fd);; mret ().

(** [std::expected<T, Error>]. *)
Definition expected (T : Type) : Type := T + Cause.

Definition failed {T : Type} (function : string) (a : answer) : expected T :=
  inr (CauseErrno function (ret a) (errno a)).

Definition g_invalid_socket : Z := -1.

(** ** TCP sockets *)

(** The members of [TCPSocket] and [TCPServer], and of [NamedPipe] and
    [NamedPipeServer]. *)
Record TCPSocket := mkTCPSocket { m_socket : Z }.
Record TCPServer := mkTCPServer { m_server_socket : Z; m_port : Z }.

Definition no_delay : string := "setsockopt(..., IPPROTO_TCP, TCP_NODELAY, 1, ...)".

(** The part of [Connect] under [socket_guard]. *)
Definition connect_socket (client_socket_fd : Z) : M (expected TCPSocket) :=
  scope_guard (close client_socket_fd)
   (a ← call (SConnect client_socket_fd);
    if negb (ret a =? 0) then mret (failed "connect" a, true) else
    a ← call (SSetNoDelay client_socket_fd);
    if negb (ret a =? 0) then mret (failed no_delay a, true) else
    mret (inl (mkTCPSocket client_socket_fd), false)).

Definition Connect (hostname : string) (port : Z) : M (expected TCPSocket) :=
  info ← call (SGetAddrInfo hostname (pretty port));
  if negb (ret info =? 0) then mret (failed "getaddrinfo" info) else
  if negb (found info) then
    mret (inr (CauseStringMessage ("No addresses found by host name '" +:+ hostname +:+ "'")))
  else
  scope_guard (call SFreeAddrInfo;; mret ())
   (a ← call SSocket;
    if ret a =? g_invalid_socket then mret (failed "socket" a, true) else
    r ← connect_socket (ret a);
    mret (r, true)).

(** [Write]: how many bytes were written, and the error. *)
Definition Write (s : TCPSocket) (source : list Z) : M (nat * option Cause) :=
  a ← call (SSend (m_socket s) source);
  if 0 <? ret a then mret (Z.to_nat (ret a), None)
  else mret (0%nat, Some (CauseErrno "send" (ret a) (errno a))).

(** [Read]: the bytes read, and the error. *)
Definition Read_as (entity : string) (fd : Z) (size : nat) : M (list Z * option Cause) :=
  a ← call (SRecv fd size);
  if 0 <? ret a then mret (received a, None) else
  if ret a =? 0 then mret ([], Some (CauseTerminated entity)) else
  mret ([], Some (CauseErrno "recv" (ret a) (errno a))).

Definition Read (s : TCPSocket) : nat → M (list Z * option Cause) := Read_as "TCP socket" (m_socket s).

Definition Terminate (s : TCPSocket) : M TCPSocket :=
  if negb (m_socket s =? g_invalid_socket)
  then close (m_socket s);; mret (mkTCPSocket g_invalid_socket)
  else mret s.

Definition Create (port max_num_queued_clients : Z) : M (expected TCPServer) :=
  a ← call SSocket;
  let server_socket_fd := ret a in
  if server_socket_fd =? g_invalid_socket then mret (failed "socket" a) else
  scope_guard (close server_socket_fd)
   (a ← call (SBind server_socket_fd port);
    if negb (ret a =? 0) then mret (failed "bind" a, true) else
    a ← call (SListen server_socket_fd max_num_queued_clients);
    if negb (ret a =? 0) then mret (failed "listen" a, true) else
    a ← call (SGetSockName server_socket_fd);
    if negb (ret a =? 0) then mret (failed "getsockname" a, true) else
    mret (inl (mkTCPServer server_socket_fd (port_of a)), false)).

Definition destroy_server (s : TCPServer) : M () :=
  if negb (m_server_socket s =? g_invalid_socket) then close (m_server_socket s) else mret ().

Definition Accept (s : TCPServer) : M (expected TCPSocket) :=
  a ← call (SAccept (m_server_socket s));
  let client_socket_fd := ret a in
  if client_socket_fd =? g_invalid_socket then mret (failed "accept" a) else
  a ← call (SSetNoDelay client_socket_fd);
  if negb (ret a =? 0) then mret (failed no_delay a) else
  mret (inl (mkTCPSocket client_socket_fd)).

(** ** Named pipes *)

Record NamedPipe := mkNamedPipe { m_pipe : Z }.
Record NamedPipeServer := mkNamedPipeServer { m_pipe_server : Z }.

Definition g_invalid_named_pipe : Z := -1.

(** [sizeof(sockaddr_un::sun_path)]. *)
Definition sun_path_size : nat := 108.

(** [format_to_n] into the zeroed array: what is in it then, and the size that
    the whole path would have. *)
Definition format_path (pipe_name : string) : list Z * nat :=
  let path := string_bytes ("/tmp/" +:+ pipe_name) in
  (take sun_path_size path ++ replicate (sun_path_size - length path) 0, length path).

Definition too_long : Cause := CauseStringMessage "The pipe name is too long".

Definition ConnectPipe (pipe_name : string) : M (expected NamedPipe) :=
  a ← call SSocket;
  let client_named_pipe_fd := ret a in
  if client_named_pipe_fd =? g_invalid_named_pipe then mret (failed "socket" a) else
  scope_guard (close client_named_pipe_fd)
   (let '(sun_path, size) := format_path pipe_name in
    if (sun_path_size <=? size)%nat then mret (inr too_long, true) else
    a ← call (SConnectUnix client_named_pipe_fd sun_path);
    if negb (ret a =? 0) then mret (failed "connect" a, true) else
    mret (inl (mkNamedPipe client_named_pipe_fd), false)).

Definition WritePipe (p : NamedPipe) (source : list Z) : M (nat * option Cause) :=
  a ← call (SSend (m_pipe p) source);
  if 0 <? ret a then mret (Z.to_nat (ret a), None)
  else mret (0%nat, Some (CauseErrno "send" (ret a) (errno a))).

Definition ReadPipe (p : NamedPipe) : nat → M (list Z * option Cause) := Read_as "Named pipe" (m_pipe p).

Definition TerminatePipe (p : NamedPipe) : M NamedPipe :=
  if negb (m_pipe p =? g_invalid_named_pipe)
  then close (m_pipe p);; mret (mkNamedPipe g_invalid_named_pipe)
  else mret p.

Definition CreatePipe (pipe_name : string) (max_num_queued_clients : Z) : M (expected NamedPipeServer) :=
  a ← call SSocket;
  let pipe_server_fd := ret a in
  if pipe_server_fd =? g_invalid_named_pipe then mret (failed "socket" a) else
  scope_guard (close pipe_server_fd)
   (let '(sun_path, size) := format_path pipe_name in
    if (sun_path_size <=? size)%nat then mret (inr too_long, true) else
    a ← call (SBindUnix pipe_server_fd sun_path);
    if negb (ret a =? 0) then mret (failed "bind" a, true) else
    a ← call (SListen pipe_server_fd max_num_queued_clients);
    if negb (ret a =? 0) then mret (failed "listen" a, true) else
    mret (inl (mkNamedPipeServer pipe_server_fd), false)).

Definition destroy_pipe_server (s : NamedPipeServer) : M () :=
  if negb (m_pipe_server s =? g_invalid_named_pipe) then close (m_pipe_server s) else mret ().

Definition AcceptPipe (s : NamedPipeServer) : M (expected NamedPipe) :=
  a ← call (SAccept (m_pipe_server s));
  let client_named_pipe_fd := ret a in
  if client_named_pipe_fd =? g_invalid_named_pipe then mret (failed "accept" a) else
  mret (inl (mkNamedPipe client_named_pipe_fd)).
End programs.

(** ** Programs with sockets *)

(** The objects of a program: their destructors, and what is left of those that
    were moved from.  The type systems of both kinds of streams are the same. *)
Inductive Object :=
| ASocket (s : TCPSocket)
| AServer (s : TCPServer)
| APipe (p : NamedPipe)
| APipeServer (s : NamedPipeServer).

Definition descriptor (o : Object) : Z :=
  match o with
  | ASocket s => m_socket s
  | AServer s => m_server_socket s
  | APipe p => m_pipe p
  | APipeServer s => m_pipe_server s
  end.

(** The move constructors, in [TCPSocket.h] and [NamedPipe.h]. *)
Definition moved_from (o : Object) : Object :=
  match o with
  | ASocket _ => ASocket (mkTCPSocket g_invalid_socket)
  | AServer s => AServer (mkTCPServer g_invalid_socket (m_port s))
  | APipe _ => APipe (mkNamedPipe g_invalid_named_pipe)
  | APipeServer _ => APipeServer (mkNamedPipeServer g_invalid_named_pipe)
  end.

Inductive operation :=
| DoConnect (hostname : string) (port : Z)
| DoCreate (port max_num_queued_clients : Z)
| DoConnectPipe (pipe_name : string)
| DoCreatePipe (pipe_name : string) (max_num_queued_clients : Z)
| DoAccept (i : nat)
| DoWrite (i : nat) (source : list Z)
| DoRead (i : nat) (size : nat)
| DoTerminate (i : nat)
| DoMove (i : nat)
| DoDestroy (i : nat).

(** An object that was destroyed stays as [None]. *)
Abbreviation Objects := (list (option Object)).

Section running.
Context `{OS}.

Definition destroy (o : Object) : M () :=
  match o with
  | ASocket s => Terminate s;; mret ()
  | AServer s => destroy_server s
  | APipe p => TerminatePipe p;; mret ()
  | APipeServer s => destroy_pipe_server s
  end.

(** The new object or the error. *)
Definition store_new {T : Type} (wrap : T → Object) (objs : Objects) (r : expected T) : Objects * option Cause :=
  match r with
  | inl t => (objs ++ [Some (wrap t)], None)
  | inr c => (objs, Some c)
  end.

(** One operation of the program.  Operations on objects that are not there, or
    of another type, cannot be written down; they do nothing. *)
Definition run_op (o : operation) (objs : Objects) : M (Objects * option Cause) :=
  match o with
  | DoConnect hostname port => r ← Connect hostname port; mret (store_new ASocket objs r)
  | DoCreate port n => r ← Create port n; mret (store_new AServer objs r)
  | DoConnectPipe name => r ← ConnectPipe name; mret (store_new APipe objs r)
  | DoCreatePipe name n => r ← CreatePipe name n; mret (store_new APipeServer objs r)
  | DoAccept i =>
      match mjoin (objs !! i) with
      | Some (AServer s) => r ← Accept s; mret (store_new ASocket objs r)
      | Some (APipeServer s) => r ← AcceptPipe s; mret (store_new APipe objs r)
      | _ => mret (objs, None)
      end
  | DoWrite i source =>
      match mjoin (objs !! i) with
      | Some (ASocket s) => '(_, e) ← Write s source; mret (objs, e)
      | Some (APipe p) => '(_, e) ← WritePipe p source; mret (objs, e)
      | _ => mret (objs, None)
      end
  | DoRead i size =>
      match mjoin (objs !! i) with
      | Some (ASocket s) => '(_, e) ← Read s size; mret (objs, e)
      | Some (APipe p) => '(_, e) ← ReadPipe p size; mret (objs, e)
      | _ => mret (objs, None)
      end
  | DoTerminate i =>
      match mjoin (objs !! i) with
      | Some (ASocket s) => s ← Terminate s; mret (<[i := Some (ASocket s)]> objs, None)
      | Some (APipe p) => p ← TerminatePipe p; mret (<[i := Some (APipe p)]> objs, None)
      | _ => mret (objs, None)
      end
  | DoMove i =>
      match mjoin (objs !! i) with
      | Some o => mret (<[i := Some (moved_from o)]> objs ++ [Some o], None)
      | None => mret (objs, None)
      end
  | DoDestroy i =>
      match mjoin (objs !! i) with
      | Some o => destroy o;; mret (<[i := None]> objs, None)
      | None => mret (objs, None)
      end
  end.

Fixpoint run_all (ops : list operation) (objs : Objects) : M (Objects * list (option Cause)) :=
  match ops with
  | [] => mret (objs, [])
  | o :: ops =>
      '(objs, e) ← run_op o objs;
      '(objs, es) ← run_all ops objs;
      mret (objs, e :: es)
  end.
End running.

(** The descriptors that the objects own. *)
Definition own (o : option Object) : list Z :=
  match o with
  | Some o => if descriptor o =? -1 then [] else [descriptor o]
  | None => []
  end.

Definition owned (objs : Objects) : list Z := objs ≫= own.

(** An [Accept] that failed with the new socket already there. *)
Definition leaks (o : operation) (e : option Cause) : nat :=
  match o, e with
  | DoAccept _, Some (CauseErrno f _ _) => if bool_decide (f = no_delay) then 1%nat else 0%nat
  | _, _ => 0%nat
  end.

(** ** Descriptors are accounted for *)

Section descriptors.
Context `{OS}.

(** The effect of a call on descriptors. *)
Definition adds (w w' : System) (fd : option Z) : Prop :=
  addrinfos w' = addrinfos w ∧
  match fd with
  | Some fd => 0 ≤ fd ∧ (fd ∉ fds w) ∧ fds w' = ({[fd]} ∪ fds w)
  | None => fds w' = fds w
  end.

Definition new_descriptor {T} (wrap : T → Object) (r : expected T) : option Z :=
  match r with inl t => Some (descriptor (wrap t)) | inr _ => None end.

Lemma call_opens c w : (c = SSocket ∨ ∃ fd, c = SAccept fd) →
  ∃ a w', call c w = Some (a, w') ∧ adds w w' (if ret a =? -1 then None else Some (ret a)).
Proof.
  intros Hc. pose proof (os_fresh (calls w) (fds w) c Hc) as Hf.
  unfold call. set (a := answer_of (calls w) (fds w) c) in *. exists a.
  exists (mkSystem (S (calls w)) (if ret a =? -1 then fds w else {[ret a]} ∪ fds w) (addrinfos w)).
  split; [by destruct Hc as [->|[fd ->]]|].
  destruct (Z.eqb_spec (ret a) (-1)) as [Heq|Hne]; split; cbn; try done. naive_solver lia.
Qed.

(** A call that has nothing to do with descriptors. *)
Definition neutral (c : syscall) : bool :=
  match c with
  | SSocket | SAccept _ | SClose _ | SGetAddrInfo _ _ | SFreeAddrInfo => false
  | _ => true
  end.

Lemma call_neutral c w : neutral c = true →
  ∃ a w', call c w = Some (a, w') ∧ adds w w' None.
Proof. intros Hc. destruct c; try done; eexists _, _; (split; [reflexivity|done]). Qed.

Lemma close_takes fd w : fd ∈ fds w →
  ∃ w', close fd w = Some ((), w') ∧ fds w' = fds w ∖ {[fd]} ∧ addrinfos w' = addrinfos w.
Proof.
  intros Hfd. unfold close, call, mbind, M_bind. cbn. rewrite bool_decide_eq_true_2 by done. cbn.
  eexists. split; [reflexivity|done].
Qed.

Lemma adds_trans w1 w2 w3 fd : adds w1 w2 fd → adds w2 w3 None → adds w1 w3 fd.
Proof. intros [Hi Hf] [Hi' Hf']. split; [congruence|]. destruct fd; cbn in *; rewrite Hf'; done. Qed.

Lemma adds_refl w : adds w w None.
Proof. done. Qed.

(** What a guarded body does that has a new descriptor: it gives the descriptor
    away when it releases the guard and fails when it does not. *)
Definition gives {T} (wrap : T → Object) (fd : Z) (body : M (expected T * bool)) : Prop :=
  ∀ w, ∃ r engaged w', body w = Some ((r, engaged), w') ∧ adds w w' None
    ∧ match r with
      | inl t => engaged = false ∧ descriptor (wrap t) = fd
      | inr _ => engaged = true
      end.

Lemma guard_closes {T} (wrap : T → Object) fd (body : M (expected T * bool)) w0 w :
  adds w0 w (Some fd) → gives wrap fd body →
  ∃ r w', scope_guard (close fd) body w = Some (r, w') ∧ adds w0 w' (new_descriptor wrap r).
Proof.
  intros Ha Hb. destruct (Hb w) as (r & e & w1 & Hbody & Ha1 & Hr).
  pose proof (adds_trans _ _ _ _ Ha Ha1) as Ha2.
  unfold scope_guard, mbind, M_bind. rewrite Hbody. cbn.
  destruct r as [t|c].
  - destruct Hr as [-> Hd]. exists (inl t), w1. split; [done|]. cbn. by rewrite Hd.
  - subst e. destruct Ha2 as (Hi & H0 & Hn & Hf).
    destruct (close_takes fd w1) as (w2 & Hc & Hf2 & Hi2); [set_solver|].
    exists (inr c), w2. unfold mbind, M_bind. rewrite Hc. split; [done|].
    split; [congruence|]. cbn. rewrite Hf2, Hf. set_solver.
Qed.
End descriptors.

(** Running a program call by call. *)
Ltac next_call :=
  match goal with
  | |- context [call ?c ?w] =>
      let a := fresh "a" in let w' := fresh "w" in let E := fresh "E" in
      destruct (call_neutral c w eq_refl) as (a & w' & E & ?); rewrite E; cbn beta iota zeta; clear E
  end.

Ltac end_calls :=
  eexists _, _, _; split; [reflexivity|]; split; [|first [done | by split]];
  repeat (eapply adds_trans; [|eassumption]); apply adds_refl.

Ltac run_calls :=
  unfold mbind, M_bind, mret, M_ret; unfold mbind, option_bind; cbn beta iota zeta.

Ltac returned := eexists _, _; split; [reflexivity|done].

Ltac body_calls :=
  let w := fresh "w" in intros w; run_calls;
  repeat (next_call; try match goal with |- context [negb ?b] => destruct (negb b); [end_calls|] end);
  end_calls.

Section accounting.
Context `{OS}.

Lemma Create_new port n w :
  ∃ r w', Create port n w = Some (r, w') ∧ adds w w' (new_descriptor AServer r).
Proof.
  destruct (call_opens SSocket w) as (a & w1 & Hc & Ha); [by left|].
  unfold Create. run_calls. rewrite Hc. unfold g_invalid_socket.
  destruct (ret a =? -1); [returned|].
  eapply guard_closes; [done|]. body_calls.
Qed.

Lemma ConnectPipe_new name w :
  ∃ r w', ConnectPipe name w = Some (r, w') ∧ adds w w' (new_descriptor APipe r).
Proof.
  destruct (call_opens SSocket w) as (a & w1 & Hc & Ha); [by left|].
  unfold ConnectPipe. run_calls. rewrite Hc. unfold g_invalid_named_pipe.
  destruct (ret a =? -1); [returned|].
  eapply guard_closes; [done|]. destruct (format_path name) as [path size].
  destruct (_ <=? _)%nat; body_calls.
Qed.

Lemma CreatePipe_new name n w :
  ∃ r w', CreatePipe name n w = Some (r, w') ∧ adds w w' (new_descriptor APipeServer r).
Proof.
  destruct (call_opens SSocket w) as (a & w1 & Hc & Ha); [by left|].
  unfold CreatePipe. run_calls. rewrite Hc. unfold g_invalid_named_pipe.
  destruct (ret a =? -1); [returned|].
  eapply guard_closes; [done|]. destruct (format_path name) as [path size].
  destruct (_ <=? _)%nat; body_calls.
Qed.

Lemma AcceptPipe_new s w :
  ∃ r w', AcceptPipe s w = Some (r, w') ∧ adds w w' (new_descriptor APipe r).
Proof.
  destruct (call_opens (SAccept (m_pipe_server s)) w) as (a & w1 & Hc & Ha); [by eauto|].
  unfold AcceptPipe. run_calls. rewrite Hc. unfold g_invalid_named_pipe.
  destruct (ret a =? -1); returned.
Qed.

(** [Accept] keeps the new socket open when it fails to set its option. *)
Lemma Accept_new s w :
  ∃ r w', Accept s w = Some (r, w')
    ∧ (adds w w' (new_descriptor ASocket r)
         ∧ leaks (DoAccept 0) (match r with inl _ => None | inr c => Some c end) = 0%nat
       ∨ ∃ fd rv e, r = inr (CauseErrno no_delay rv e) ∧ adds w w' (Some fd)).
Proof.
  destruct (call_opens (SAccept (m_server_socket s)) w) as (a & w1 & Hc & Ha); [by eauto|].
  unfold Accept. run_calls. rewrite Hc. unfold g_invalid_socket.
  destruct (ret a =? -1); [eexists _, _; split; [reflexivity|by left]|].
  next_call. pose proof (adds_trans _ _ _ _ Ha ltac:(eassumption)) as Ha2.
  destruct (negb _); eexists _, _; (split; [reflexivity|]); [right|by left].
  by eexists _, _, _.
Qed.

Lemma connect_socket_new fd w0 w :
  adds w0 w (Some fd) →
  ∃ r w', connect_socket fd w = Some (r, w') ∧ adds w0 w' (new_descriptor ASocket r).
Proof. intros Ha. eapply guard_closes; [done|]. body_calls. Qed.

Lemma Connect_new host port w :
  ∃ r w', Connect host port w = Some (r, w') ∧ adds w w' (new_descriptor ASocket r).
Proof.
  unfold Connect. run_calls. unfold call at 1. run_calls.
  set (info := answer_of _ _ _). destruct (ret info =? 0); [|returned].
  destruct (found info); [|returned]. cbn [negb andb].
  set (w0 := mkSystem _ _ _). unfold scope_guard at 1. run_calls.
  assert (Hfree : ∀ w', addrinfos w' = S (addrinfos w) →
    ∃ w2 a, call SFreeAddrInfo w' = Some (a, w2) ∧ fds w2 = fds w' ∧ addrinfos w2 = addrinfos w).
  { intros w' Hi. unfold call. rewrite Hi. cbn. eexists _, _. split; [reflexivity|]. cbn. split; [done|lia]. }
  destruct (call_opens SSocket w0) as (a & w1 & Hc & Ha); [by left|]. rewrite Hc. unfold g_invalid_socket.
  destruct (ret a =? -1).
  { destruct (Hfree w1) as (w2 & a2 & Hf & Hfd & Hi); [apply Ha|]. rewrite Hf.
    eexists _, _. split; [reflexivity|]. split; [done|]. cbn. rewrite Hfd. apply Ha. }
  destruct (connect_socket_new (ret a) w0 w1 Ha) as (r & w2 & -> & Ha2). cbn beta iota.
  destruct (Hfree w2) as (w3 & a3 & -> & Hfd & Hi); [apply Ha2|].
  eexists _, _. split; [reflexivity|]. split; [done|].
  destruct Ha2 as [_ Ha2]. destruct (new_descriptor ASocket r); rewrite Hfd; exact Ha2.
Qed.
End accounting.

(** Every open descriptor is owned by one object, or was leaked. *)
Record accounted (w : System) (objs : Objects) (leaked : list Z) : Prop := {
  acc_apart : NoDup (owned objs ++ leaked);
  acc_open fd : fd ∈ fds w ↔ fd ∈ owned objs ++ leaked;
  acc_valid : Forall (λ fd, 0 ≤ fd) (owned objs ++ leaked);
  acc_infos : addrinfos w = 0%nat;
}.

Lemma owned_app objs o : owned (objs ++ [o]) = owned objs ++ own o.
Proof. unfold owned. rewrite bind_app. cbn. by rewrite app_nil_r. Qed.

Lemma owned_insert objs i o o' : objs !! i = Some o →
  ∃ l1 l2, owned objs = l1 ++ own o ++ l2 ∧ owned (<[i := o']> objs) = l1 ++ own o' ++ l2.
Proof.
  intros Hi. apply list_elem_of_split_length in Hi as (l1 & l2 & -> & ->).
  exists (owned l1), (owned l2). rewrite insert_app_r_alt, Nat.sub_diag by done. unfold owned. rewrite !bind_app. cbn. done.
Qed.

Section invariant.
Context `{OS}.

(** Descriptors matter up to their order. *)
Lemma accounted_perm w objs objs' leaked leaked' :
  accounted w objs leaked → owned objs ++ leaked ≡ₚ owned objs' ++ leaked' → accounted w objs' leaked'.
Proof.
  intros [Hn Ho Hv Hi] Hp. split; [by rewrite <-Hp| |by rewrite <-Hp|done].
  intros fd. rewrite (Ho fd). by rewrite Hp.
Qed.

Lemma accounted_adds_none w w' objs leaked :
  accounted w objs leaked → adds w w' None → accounted w' objs leaked.
Proof. intros [Hn Ho Hv Hi] [Hi' Hf]. cbn in Hf. split; rewrite ?Hf; try done. congruence. Qed.

(** A new descriptor is owned or leaked. *)
Lemma accounted_adds w w' objs leaked objs' leaked' fd :
  accounted w objs leaked → adds w w' (Some fd) →
  owned objs' ++ leaked' ≡ₚ fd :: owned objs ++ leaked → accounted w' objs' leaked'.
Proof.
  intros [Hn Ho Hv Hi] (Hi' & H0 & Hfd & Hf) Hp. split.
  - rewrite Hp. constructor; [|done]. by rewrite <-Ho.
  - intros fd'. rewrite Hf, Hp, elem_of_union, elem_of_singleton, elem_of_cons. by rewrite Ho.
  - rewrite Hp. by constructor.
  - congruence.
Qed.

Lemma store_new_accounted {T} (wrap : T → Object) r w w' objs leaked :
  accounted w objs leaked → adds w w' (new_descriptor wrap r) →
  accounted w' (store_new wrap objs r).1 leaked.
Proof.
  intros Hacc Ha. destruct r as [t|c]; cbn in *; [|by eapply accounted_adds_none].
  eapply accounted_adds; [done|exact Ha|]. rewrite owned_app. cbn.
  destruct Ha as (_ & H0 & _). destruct (Z.eqb_spec (descriptor (wrap t)) (-1)); [lia|].
  rewrite <-!app_assoc. cbn. symmetry. apply Permutation_middle.
Qed.

(** An object gives up its descriptor. *)
Lemma release_accounted w objs leaked i o o' :
  accounted w objs leaked → objs !! i = Some (Some o) → own o' = [] →
  ∃ w', (if negb (descriptor o =? -1) then close (descriptor o) else mret ()) w = Some ((), w')
    ∧ accounted w' (<[i := o']> objs) leaked.
Proof.
  intros Hacc Hi Ho'. pose proof (owned_insert objs i (Some o) o' Hi) as (l1 & l2 & Hown & Hown').
  rewrite Ho' in Hown'. cbn [own app] in Hown, Hown'. destruct (descriptor o =? -1); cbn [negb].
  - eexists. split; [reflexivity|]. eapply accounted_perm; [done|]. by rewrite Hown, Hown'.
  - pose proof Hacc as [Hn Ho Hv Hinf].
    assert (Hp : owned objs ++ leaked ≡ₚ descriptor o :: owned (<[i := o']> objs) ++ leaked).
    { rewrite Hown, Hown', <-!app_assoc. cbn. symmetry. apply Permutation_middle. }
    destruct (close_takes (descriptor o) w) as (w' & Hc & Hf & Hi').
    { apply Ho. rewrite Hp. by left. }
    exists w'. split; [done|]. rewrite Hp in Hn, Hv. apply NoDup_cons in Hn as [Hnot Hn].
    apply Forall_cons in Hv as [_ Hv]. split; try done; [|congruence].
    intros fd. rewrite Hf, elem_of_difference, elem_of_singleton, (Ho fd), Hp, elem_of_cons.
    split; [naive_solver|]. intros Hin. split; [by right|]. by intros ->.
Qed.

(** What an operation does to the descriptors, with what it leaks. *)
Definition accounts (o : operation) (objs : Objects) (leaked : list Z) (m : M (Objects * option Cause)) (w : System)
    : Prop :=
  ∃ objs' e w' leaked', m w = Some ((objs', e), w') ∧ accounted w' objs' (leaked' ++ leaked)
    ∧ length leaked' = leaks o e.

Lemma accounts_same o objs leaked w : accounted w objs leaked → accounts o objs leaked (mret (objs, None)) w.
Proof. intros Hacc. exists objs, None, w, []. split_and!; [done|done|by destruct o]. Qed.

Lemma accounts_new {T} (wrap : T → Object) (m : M (expected T)) o objs leaked w :
  accounted w objs leaked →
  (∃ r w', m w = Some (r, w') ∧ adds w w' (new_descriptor wrap r)
     ∧ leaks o (store_new wrap objs r).2 = 0%nat) →
  accounts o objs leaked (r ← m; mret (store_new wrap objs r)) w.
Proof.
  intros Hacc (r & w' & Hm & Ha & Hl). unfold accounts. run_calls. rewrite Hm.
  exists (store_new wrap objs r).1, (store_new wrap objs r).2, w', [].
  split; [by destruct (store_new wrap objs r)|]. split; [|done]. by eapply store_new_accounted.
Qed.

(** [Terminate] and the destructors. *)
Lemma accounts_release o objs leaked i x (y : option Object) m w :
  accounted w objs leaked → objs !! i = Some (Some x) → own y = [] →
  (∀ u, (if negb (descriptor x =? -1) then close (descriptor x) else mret ()) w = Some ((), u) →
     m w = Some ((<[i := y]> objs, None), u)) →
  accounts o objs leaked m w.
Proof.
  intros Hacc Hi Hy Hm. destruct (release_accounted w objs leaked i x y Hacc Hi Hy) as (u & Hu & Hacc').
  exists (<[i := y]> objs), None, u, []. split_and!; [by apply Hm|done|by destruct o].
Qed.

(** A transfer: one call that has nothing to do with descriptors. *)
Lemma accounts_transfer {A} c (m : M (A * option Cause)) o objs leaked w :
  accounted w objs leaked → neutral c = true → (∀ e, leaks o e = 0%nat) →
  (∀ a u, call c w = Some (a, u) → ∃ x e, m w = Some ((x, e), u)) →
  accounts o objs leaked ('(_, e) ← m; mret (objs, e)) w.
Proof.
  intros Hacc Hc Ho Hm. destruct (call_neutral c w Hc) as (a & u & Hcall & Ha).
  destruct (Hm a u Hcall) as (x & e & Hx). unfold accounts. run_calls. rewrite Hx.
  exists objs, e, u, []. split_and!; [done|by eapply accounted_adds_none|by rewrite Ho].
Qed.

Lemma accounts_Accept i s objs leaked w :
  accounted w objs leaked →
  accounts (DoAccept i) objs leaked (r ← Accept s; mret (store_new ASocket objs r)) w.
Proof.
  intros Hacc. destruct (Accept_new s w) as (r & w' & Hm & [[Ha Hl]|(fd & rv & e & -> & Ha)]).
  - apply accounts_new; [done|]. exists r, w'. split_and!; [done|done|]. by destruct r.
  - exists objs, (Some (CauseErrno no_delay rv e)), w', [fd]. run_calls. rewrite Hm.
    split_and!; [done| |by cbn; rewrite bool_decide_eq_true_2].
    eapply accounted_adds; [done|done|]. symmetry. apply Permutation_middle.
Qed.

Lemma accounts_AcceptPipe i s objs leaked w :
  accounted w objs leaked →
  accounts (DoAccept i) objs leaked (r ← AcceptPipe s; mret (store_new APipe objs r)) w.
Proof.
  intros Hacc. apply accounts_new; [done|]. destruct (AcceptPipe_new s w) as (r & w' & Hm & Ha).
  exists r, w'. split_and!; [done|done|]. destruct r as [t|c]; [done|]. cbn.
  unfold AcceptPipe in Hm. revert Hm. run_calls.
  destruct (call _ _) as [[a u]|]; [|done]. destruct (_ =? _); by intros [= <- _].
Qed.

(** Moving an object moves its descriptor. *)
Lemma accounts_move objs leaked i x w :
  accounted w objs leaked → objs !! i = Some (Some x) →
  accounts (DoMove i) objs leaked (mret (<[i := Some (moved_from x)]> objs ++ [Some x], None)) w.
Proof.
  intros Hacc Hi. eexists _, _, w, []. split_and!; [reflexivity| |done].
  eapply accounted_perm; [done|].
  destruct (owned_insert objs i (Some x) (Some (moved_from x)) Hi) as (l1 & l2 & Hown & Hown').
  rewrite owned_app, Hown, Hown'. replace (own (Some (moved_from x))) with (@nil Z) by (by destruct x).
  cbn [app]. apply Permutation_app_tail. rewrite <-app_assoc. apply Permutation_app_head, Permutation_app_comm.
Qed.

(** Each operation of a program. *)
Lemma run_op_accounted o objs w leaked :
  accounted w objs leaked → accounts o objs leaked (run_op o objs) w.
Proof.
  intros Hacc. destruct o as [host port|port n|name|name n|i|i source|i size|i|i|i]; cbn [run_op].
  - apply accounts_new; [done|]. destruct (Connect_new host port w) as (r & w' & ? & ?). eauto.
  - apply accounts_new; [done|]. destruct (Create_new port n w) as (r & w' & ? & ?). eauto.
  - apply accounts_new; [done|]. destruct (ConnectPipe_new name w) as (r & w' & ? & ?). eauto.
  - apply accounts_new; [done|]. destruct (CreatePipe_new name n w) as (r & w' & ? & ?). eauto.
  - destruct (mjoin (objs !! i)) as [[s|s|p|s]|];
      (by apply accounts_same) || (by apply accounts_Accept) || by apply accounts_AcceptPipe.
  - destruct (mjoin (objs !! i)) as [[s|s|p|s]|]; try by apply accounts_same.
    + apply (accounts_transfer (SSend (m_socket s) source)); try done. intros a u Hc.
      unfold Write. run_calls. rewrite Hc. destruct (0 <? ret a); eauto.
    + apply (accounts_transfer (SSend (m_pipe p) source)); try done. intros a u Hc.
      unfold WritePipe. run_calls. rewrite Hc. destruct (0 <? ret a); eauto.
  - destruct (mjoin (objs !! i)) as [[s|s|p|s]|]; try by apply accounts_same.
    + apply (accounts_transfer (SRecv (m_socket s) size)); try done. intros a u Hc.
      unfold Read, Read_as. run_calls. rewrite Hc. destruct (0 <? ret a), (ret a =? 0); eauto.
    + apply (accounts_transfer (SRecv (m_pipe p) size)); try done. intros a u Hc.
      unfold ReadPipe, Read_as. run_calls. rewrite Hc. destruct (0 <? ret a), (ret a =? 0); eauto.
  - destruct (objs !! i) as [[x|]|] eqn:Hi; cbn [mjoin option_join]; [|by apply accounts_same..].
    destruct x as [s|s|p|s]; try by apply accounts_same.
    + apply (accounts_release _ _ _ i (ASocket s) (Some (ASocket (mkTCPSocket (-1))))); try done.
      intros u. cbn [descriptor]. unfold Terminate. run_calls. change g_invalid_socket with (-1).
      destruct s as [fd]; cbn [m_socket]. destruct (Z.eqb_spec fd (-1)) as [->|]; cbn [negb]; by intros [= ->] || by intros ->.
    + apply (accounts_release _ _ _ i (APipe p) (Some (APipe (mkNamedPipe (-1))))); try done.
      intros u. cbn [descriptor]. unfold TerminatePipe. run_calls. change g_invalid_named_pipe with (-1).
      destruct p as [fd]; cbn [m_pipe]. destruct (Z.eqb_spec fd (-1)) as [->|]; cbn [negb]; by intros [= ->] || by intros ->.
  - destruct (objs !! i) as [[x|]|] eqn:Hi; cbn [mjoin option_join]; [|by apply accounts_same..].
    by apply accounts_move.
  - destruct (objs !! i) as [[x|]|] eqn:Hi; cbn [mjoin option_join]; [|by apply accounts_same..].
    apply (accounts_release _ _ _ i x None); try done. intros u.
    destruct x as [s|s|p|s]; cbn [descriptor destroy]; unfold Terminate, TerminatePipe, destroy_server, destroy_pipe_server;
      run_calls; unfold g_invalid_socket, g_invalid_named_pipe; destruct (negb _);
      by intros [= ->] || by intros ->.
Qed.
End invariant.

(** The failures of [Accept] that leak. *)
Fixpoint count_leaks (ops : list operation) (es : list (option Cause)) : nat :=
  match ops, es with
  | o :: ops, e :: es => leaks o e + count_leaks ops es
  | _, _ => 0
  end.

Lemma run_all_accounted `{OS} ops objs w leaked :
  accounted w objs leaked →
  ∃ objs' es w' leaked', run_all ops objs w = Some ((objs', es), w') ∧ accounted w' objs' (leaked' ++ leaked)
    ∧ length leaked' = count_leaks ops es.
Proof.
  revert objs w leaked. induction ops as [|o ops IH]; intros objs w leaked Hacc; cbn [run_all].
  { exists objs, [], w, []. by split_and!. }
  destruct (run_op_accounted o objs w leaked Hacc) as (objs1 & e & w1 & leaked1 & Hop & Hacc1 & Hl1).
  destruct (IH objs1 w1 (leaked1 ++ leaked) Hacc1) as (objs2 & es & w2 & leaked2 & Hops & Hacc2 & Hl2).
  run_calls. rewrite Hop, Hops. eexists _, _, w2, (leaked2 ++ leaked1). split_and!; [reflexivity| |].
  - by rewrite <-app_assoc.
  - rewrite length_app. cbn. lia.
Qed.

Definition no_system : System := mkSystem 0 ∅ 0.

(** C25: descriptors are accounted for.  Whatever a program does with TCP sockets,
    named pipes and their servers, and whatever the calls to the operating system
    answer, every operation ends, none closes a descriptor that is not open or
    frees addresses twice, no list of addresses stays allocated, and the
    descriptors that are open at the end are owned by one object each - but for
    those of the calls of [TCPServer::Accept] that failed to set an option of the
    new socket, which are never closed. *)
Theorem descriptors_accounted `{OS} (ops : list operation) :
  ∃ objs es w leaked, run_all ops [] no_system = Some ((objs, es), w)
    ∧ NoDup (owned objs ++ leaked) ∧ fds w = list_to_set (owned objs ++ leaked)
    ∧ length leaked = count_leaks ops es ∧ addrinfos w = 0%nat.
Proof.
  destruct (run_all_accounted ops [] no_system []) as (objs & es & w & leaked & Hrun & [Hn Ho Hv Hi] & Hl).
  { split; [constructor| |constructor|done]. cbn. set_solver. }
  rewrite app_nil_r in Hn, Ho. exists objs, es, w, leaked. split_and!; try done.
  apply set_eq. intros fd. by rewrite (Ho fd), elem_of_list_to_set.
Qed.

(** ** Paths of named pipes *)

(** A path that is given to the operating system ends within its array. *)
Lemma pipe_path_terminated pipe_name sun_path size :
  format_path pipe_name = (sun_path, size) → (sun_path_size <=? size)%nat = false →
  length sun_path = sun_path_size ∧ take size sun_path = string_bytes ("/tmp/" +:+ pipe_name)
  ∧ sun_path !! size = Some 0.
Proof.
  unfold format_path. generalize (string_bytes ("/tmp/" +:+ pipe_name)). intros path [= <- <-] Hs. bool_to_prop.
  rewrite (take_ge path) by lia. split_and!.
  - rewrite length_app, length_replicate. lia.
  - by rewrite take_app_length.
  - rewrite lookup_app_r, Nat.sub_diag by lia. apply lookup_replicate. split; [done|]. unfold sun_path_size in *. lia.
Qed.

(** ** Reading nothing *)

(** A stream over a socket cannot read nothing.  [recv] returns 0 when it is
    asked for 0 bytes, which [Read] takes for the end of the connection, so a
    transaction that reads 0 bytes fails with the connection intact. *)
Theorem empty_read_fails `{OS} (s : TCPSocket) (w : System) :
  ∃ cause w' tx, Read s 0 w = Some (([], Some cause), w')
    ∧ (ret (answer_of (calls w) (fds w) (SRecv (m_socket s) 0)) ≠ -1 → cause = CauseTerminated "TCP socket")
    ∧ DoReads (begin_tx ([ReadBytes 0], [ReadOut 0 []]) false) [([], Some cause)] = Some (tx, [])
    ∧ Transaction.status_ok tx = false
    ∧ m_error_buffer tx = Some (mkActionError (Some (AnyByteStream (ReadBytes 0))) cause).
Proof.
  pose proof (os_recv (calls w) (fds w) (m_socket s) 0) as [Hr _].
  unfold Read, Read_as, call. run_calls. set (a := answer_of _ _ _) in *.
  destruct (Z.ltb_spec 0 (ret a)); [simpl in Hr; lia|].
  destruct (Z.eqb_spec (ret a) 0) as [Heq|Hne]; eexists _, _, _;
    (split; [reflexivity|]); (split; [|split; [reflexivity|done]]); [done|]. simpl in Hr. lia.
Qed.

(** ** Examples *)

(** An operating system that gives out a descriptor that is free and answers every
    call with success, but for setting options. *)
Definition free_descriptor (fds : gset Z) : Z := Z.of_nat (fresh (set_map Z.to_nat fds : gset nat)).

Definition demo_answer (no_delay_works : bool) (fds : gset Z) (c : syscall) : answer :=
  match c with
  | SSocket | SAccept _ => mkAnswer (free_descriptor fds) 0 true 80 []
  | SSetNoDelay _ => mkAnswer (if no_delay_works then 0 else -1) 92 true 80 []
  | SSend _ source => mkAnswer (Z.of_nat (length source)) 0 true 80 []
  | SRecv _ size => mkAnswer (Z.of_nat size) 0 true 80 (replicate size 7)
  | _ => mkAnswer 0 0 true 80 []
  end.

Lemma free_descriptor_free fds : 0 ≤ free_descriptor fds ∧ free_descriptor fds ∉ fds.
Proof.
  unfold free_descriptor. split; [lia|]. intros Hin.
  apply (is_fresh (set_map Z.to_nat fds : gset nat)).
  apply elem_of_map. eexists. split; [|exact Hin]. by rewrite Nat2Z.id.
Qed.

Definition demo_os (no_delay_works : bool) : OS.
Proof.
  refine {| answer_of := λ _, demo_answer no_delay_works |}.
  - intros _ fds c Hc. right. destruct Hc as [->|[fd ->]]; apply free_descriptor_free.
  - intros. cbn. lia.
  - intros. cbn. rewrite length_replicate. lia.
Defined.

Definition demo_ops : list operation :=
  [DoCreate 80 1; DoAccept 0; DoConnect "localhost" 80; DoMove 1; DoDestroy 1; DoTerminate 2; DoDestroy 0].

(** With options that work the accepted socket is still open at the end; without,
    one that no object owns. *)
Example demo_sockets :
  (λ r, (owned r.1.1, elements (fds r.2))) <$> @run_all (demo_os true) demo_ops [] no_system
    = Some ([1], [1])
  ∧ (λ r, (owned r.1.1, elements (fds r.2))) <$> @run_all (demo_os false) demo_ops [] no_system
    = Some ([], [1]).
Proof. split; vm_compute; reflexivity. Qed.
