(* ===== verification/Printing.v ===== *)
(** * Printing: the texts of actions, results, errors and transactions
    ([src/src/libedr/util/miscellaneous/Formatting.hpp], the [Format] functions in
    [driver/*Action.hpp] and [driver/Error.hpp], the formatters of
    [util/adt/BitStream.hpp], [driver/Action.hpp] and [driver/Driver.hpp]).

    Texts are strings; [std::format] replaces the fields of its format by the
    texts of its arguments, which is written out here.  [strerror] is a
    parameter. *)
From S2P Require Import Prelude BitStream Actions JtagTap VSS ActionLayout.
From stdpp Require Import strings pretty.
From Stdlib Require Import Ascii.
Local Open Scope string_scope.
Local Open Scope Z_scope.
Local Open Scope list_scope.

(** ** Numbers *)

(** ["{}"]. *)
Definition dec (z : Z) : string := pretty z.

Definition hex_digit (z : Z) : ascii :=
  default "0"%char (String.get (Z.to_nat z) "0123456789abcdef").

(** The digits of a number of at most [n] digits, without leading zeros. *)
Fixpoint hex_digits (n : nat) (z : Z) : list ascii :=
  match n with
  | O => []
  | S n => (if z <? 16 then [] else hex_digits n (z / 16)) ++ [hex_digit (z mod 16)]
  end.

(** ["{:#x}"], of numbers of up to 64 bits. *)
Definition hex (z : Z) : string := "0x" +:+ String.string_of_list_ascii (hex_digits 16 z).

(** ["{:02x}"] of a byte. *)
Definition hex_byte (b : Z) : string := String.string_of_list_ascii [hex_digit (b / 16); hex_digit (b mod 16)].

(** ** Bits and bytes *)

Definition bit_char (b : bool) : ascii := if b then "1"%char else "0"%char.

(** The characters of a chunk of [this_time] bits. *)
Definition chunk_chars (wT : nat) (reverse : bool) (chunk : Z) (this_time : nat) : list ascii :=
  (λ i : nat,
     let bit := if reverse then (this_time - i - 1)%nat else i in
     bit_char (negb (Z.land chunk (wrap wT (Z.shiftl 1 (Z.of_nat bit))) =? 0)))
  <$> seq 0 this_time.

(** The loops of the formatter of [BitStream]. *)
Fixpoint format_bits_forward (fuel wT : nat) (mem : list Z) (s : BitStream) (num_bits : nat)
    (out : list ascii) : option (list ascii) :=
  match fuel with
  | O => None
  | S fuel =>
      if (num_bits =? 0)%nat then Some out else
      let this_time := Nat.min wT num_bits in
      '(chunk, s) ← Read wT wT mem s this_time;
      format_bits_forward fuel wT mem s (num_bits - this_time)
        (out ++ chunk_chars wT false chunk this_time)
  end.

Fixpoint format_bits_reverse (fuel wT : nat) (mem : list Z) (s : BitStream) (num_bits : nat)
    (out : list ascii) : option (list ascii) :=
  match fuel with
  | O => None
  | S fuel =>
      if (num_bits =? 0)%nat then Some out else
      let this_time := Nat.min wT num_bits in
      let chunk_stream := (Skip wT s (num_bits - this_time)).2 in
      '(chunk, _) ← Read wT wT mem chunk_stream this_time;
      format_bits_reverse fuel wT mem s (num_bits - this_time)
        (out ++ chunk_chars wT true chunk this_time)
  end.

Definition bits_prefix (num_bits : nat) (reverse : bool) : string :=
  "(" +:+ pretty num_bits +:+ " " +:+ (if reverse then "lsb-right" else "lsb-left") +:+ ") ".

Definition format_bits (wT : nat) (reverse : bool) (mem : list Z) (s : BitStream) : option string :=
  let num_bits := GetNumBits s in
  let loop := if reverse then format_bits_reverse else format_bits_forward in
  chars ← loop (S num_bits) wT mem s num_bits [];
  Some (bits_prefix num_bits reverse +:+ String.string_of_list_ascii chars).

(** The text of bits, bit by bit. *)
Definition print_bits (is_reverse : bool) (bits : list bool) : string :=
  bits_prefix (length bits) is_reverse
  +:+ String.string_of_list_ascii (bit_char <$> (if is_reverse then reverse bits else bits)).

(** The loop over the bytes of a [std::span]. *)
Fixpoint format_bytes_loop (bytes : list Z) : string :=
  match bytes with
  | [] => EmptyString
  | [b] => hex_byte b
  | b :: bytes => hex_byte b +:+ " " +:+ format_bytes_loop bytes
  end.

Definition format_bytes (bytes : list Z) : string :=
  pretty (length bytes) +:+ " [" +:+ format_bytes_loop bytes +:+ "]".

(** A [std::span] of anything else, with the formatter of its elements. *)
Fixpoint format_span_loop {T : Type} (format : T → string) (objs : list T) : string :=
  match objs with
  | [] => EmptyString
  | obj :: objs => format obj +:+ (if (length objs =? 0)%nat then EmptyString else " ") +:+ format_span_loop format objs
  end.

Definition format_span {T : Type} (format : T → string) (objs : list T) : string :=
  pretty (length objs) +:+ " [" +:+ format_span_loop format objs +:+ "]".

(** ** [PrintingStructureFormatter] *)

Record Formatter := mkFormatter { m_out : string; first : bool }.

Definition Name (name : string) (fmt : Formatter) : Formatter :=
  mkFormatter (m_out fmt +:+ (if first fmt then name else " " +:+ name)) false.

Definition Value (text : string) (fmt : Formatter) : Formatter :=
  let out := if first fmt then m_out fmt else m_out fmt +:+ " " in
  mkFormatter (out +:+ text) false.

Definition Field (name text : string) (fmt : Formatter) : Formatter :=
  let out := if first fmt then m_out fmt +:+ name +:+ "=" else m_out fmt +:+ " " +:+ name +:+ "=" in
  mkFormatter (out +:+ text) false.

(** The formatter of a [StructurallyFormattable]. *)
Definition formatted (format : Formatter → Formatter) : string := m_out (format (mkFormatter EmptyString true)).

(** ** Actions *)

Definition print_state (state : nat) : string :=
  match state with
  | 0 => "TestLogicReset" | 1 => "RunTestIdle"
  | 2 => "SelectDR" | 3 => "CaptureDR" | 4 => "ShiftDR" | 5 => "Exit1DR"
  | 6 => "PauseDR" | 7 => "Exit2DR" | 8 => "UpdateDR"
  | 9 => "SelectIR" | 10 => "CaptureIR" | 11 => "ShiftIR" | 12 => "Exit1IR"
  | 13 => "PauseIR" | 14 => "Exit2IR" | 15 => "UpdateIR"
  | _ => "<unknown>"
  end%nat.

Definition print_mode (mode : Z) : string :=
  match mode with
  | 1 => "Always stall if no pending requests"
  | 2 => "Force stall"
  | 3 => "No stall"
  | 4 => "Terminated"
  | _ => "Stall if no pending requests and the target is idle"
  end.

(** The [Format] functions of the actions, driver by driver. *)
Definition Format_ByteStream (a : ByteStreamAction) (fmt : Formatter) : Formatter :=
  match a with
  | WriteBytes data => Value (format_bytes data) (Name "WRITE" fmt)
  | ReadBytes size => Value (pretty size) (Name "READ" fmt)
  end.

Definition Format_Jtag (a : JtagAction) (fmt : Formatter) : Formatter :=
  match a with
  | PutTMS bits => Value (print_bits false bits) (Name "TMS <-" fmt)
  | PutTDI bits _ => Value (print_bits true bits) (Name "TDI <-" fmt)
  | PutTDIGetTDO bits _ => Value (print_bits true bits) (Name "TDI-TDO <-" fmt)
  end.

Definition Format_ExecutionGate (a : ExecutionGateAction) (fmt : Formatter) : Formatter :=
  match a with SetExecutionGateMode mode => Value (print_mode mode) (Name "SET-MODE" fmt) end.

(** [SkipCycles::Format]. *)
Definition Format_SkipCycles (n : Z) (fmt : Formatter) : Formatter := Value (dec n) (Name "Skip-C" fmt).

Definition Format_APB (a : APBAction) (fmt : Formatter) : Formatter :=
  match a with
  | APBSkipCycles n => Format_SkipCycles n fmt
  | APBWrite address data => Value (hex data) (Value (hex address +:+ " <-") (Name "APB-W" fmt))
  | APBRead address => Value (hex address) (Name "APB-R" fmt)
  | APBSetPSEL psel => Value (hex psel) (Name "APB-Set-PSEL" fmt)
  end.

Definition Format_JtagChain (a : JtagChainAction) (fmt : Formatter) : Formatter :=
  match a with
  | JCForgetChainStructure => Name "Forget-Chain-Structure" fmt
  | JCSetIRLength tap_id length =>
      Field "length" (pretty length) (Field "TAP" (pretty tap_id) (Name "Set-IR-Length" fmt))
  | JCGoToState state cycles =>
      let fmt := Value (print_state state) (Name "->" fmt) in
      if (cycles =? 0)%nat then fmt else Value ("+ wait " +:+ pretty cycles) fmt
  | JCSelectTAP tap_id => Value (pretty tap_id) (Name "Select-TAP" fmt)
  | JCWriteIR value => Value (dec value) (Name "IR <-" fmt)
  | JCWriteDR bits => Value (print_bits true bits) (Name "DR <-" fmt)
  | JCShiftDR bits => Value (print_bits true bits) (Name "DR <->" fmt)
  end.

Definition Format_RVDTM (a : RVDTMAction) (fmt : Formatter) : Formatter :=
  match a with
  | RVSkipCycles n => Format_SkipCycles n fmt
  | RVWriteDMI address data => Value (hex data) (Value (hex address +:+ " <-") (Name "DMI-W" fmt))
  | RVReadDMI address => Value (hex address) (Name "DMI-R" fmt)
  end.

(** The formatter of an [Action]. *)
Definition FormatAction (a : AnyAction) (fmt : Formatter) : Formatter :=
  match a with
  | AnyByteStream a => Format_ByteStream a fmt
  | AnyJtag a => Format_Jtag a fmt
  | AnyExecutionGate a => Format_ExecutionGate a fmt
  | AnyAPB a => Format_APB a fmt
  | AnyJtagChain a => Format_JtagChain a fmt
  | AnyRVDTM a => Format_RVDTM a fmt
  end.

Definition print_action (a : AnyAction) : string := formatted (FormatAction a).

(** The [Format] functions of the results; a length that a driver wrote into a
    result may not exceed the payload. *)
Definition out_ByteStream (a : ByteStreamAction) (x : tree) (fmt : Formatter) : option Formatter :=
  match a, x with
  | ReadBytes _, TStruct h [TArray data] =>
      let n := Z.to_nat (word_at h 0) in
      check (n <=? length data)%nat;; Some (Value (format_bytes (take n data)) fmt)
  | WriteBytes _, TPlain b => Some (Value (dec (word_at b 0)) fmt)
  | _, _ => None
  end.

(** [Out::Bits()] of both results that hold bits. *)
Definition out_bits (x : tree) (fmt : Formatter) : option Formatter :=
  match x with
  | TStruct h [TBits bits] =>
      let n := Z.to_nat (word_at h 0) in
      check (n <=? length bits)%nat;; Some (Value (print_bits true (take n bits)) fmt)
  | _ => None
  end.

Definition out_Jtag (a : JtagAction) (x : tree) (fmt : Formatter) : option Formatter :=
  match a, x with
  | PutTDIGetTDO _ _, _ => out_bits x fmt
  | PutTMS _, TPlain b | PutTDI _ _, TPlain b => Some (Value (dec (word_at b 0)) fmt)
  | _, _ => None
  end.

Definition out_ExecutionGate (x : tree) (fmt : Formatter) : option Formatter :=
  match x with TPlain b => Some (Value (print_mode (word_at b 0)) fmt) | _ => None end.

Definition out_APB (a : APBAction) (x : tree) (fmt : Formatter) : option Formatter :=
  match a, x with
  | APBRead _, TPlain b => Some (Value (hex (word_at b 0)) fmt)
  | _, TPlain _ => Some (Value "OK" fmt)
  | _, _ => None
  end.

Definition out_JtagChain (a : JtagChainAction) (x : tree) (fmt : Formatter) : option Formatter :=
  match a, x with
  | JCShiftDR _, _ => out_bits x fmt
  | _, TPlain _ => Some (Value "OK" fmt)
  | _, _ => None
  end.

Definition out_RVDTM (a : RVDTMAction) (x : tree) (fmt : Formatter) : option Formatter :=
  match a, x with
  | RVReadDMI _, TPlain b => Some (Value (hex (word_at b 0)) fmt)
  | _, TPlain _ => Some (Value "OK" fmt)
  | _, _ => None
  end.

Definition print_out (a : AnyAction) (x : tree) : option string :=
  let fmt := mkFormatter EmptyString true in
  m_out <$> match a with
            | AnyByteStream a => out_ByteStream a x fmt
            | AnyJtag a => out_Jtag a x fmt
            | AnyExecutionGate _ => out_ExecutionGate x fmt
            | AnyAPB a => out_APB a x fmt
            | AnyJtagChain a => out_JtagChain a x fmt
            | AnyRVDTM a => out_RVDTM a x fmt
            end.

(** ** Errors *)

(** The causes that belong to [JtagChain]. *)
Definition Format_InvalidTapID (requested_id max_id : nat) (fmt : Formatter) : Formatter :=
  Value ("Invalid TAP ID " +:+ pretty requested_id +:+ ", max valid ID is " +:+ pretty max_id) fmt.

Definition Format_InvalidState (state_id : nat) (fmt : Formatter) : Formatter :=
  Value ("Invalid JTAG state " +:+ pretty state_id) fmt.

Definition Format_UnstableState (state : nat) (fmt : Formatter) : Formatter :=
  Value ("Cannot wait in " +:+ print_state state +:+ " state - it is unstable") fmt.

Definition Format_IRLengthTooBig (requested max_length : nat) (fmt : Formatter) : Formatter :=
  Value ("The specified IR length " +:+ pretty requested
         +:+ " is greater than the maximum supported length " +:+ pretty max_length) fmt.

(** The causes that drivers report about their targets. *)
Definition Format_TargetCause (c : Cause) (fmt : Formatter) : Formatter :=
  match c with
  | CauseTimeoutInCycles num_cycles => Value ("Timeout after " +:+ dec num_cycles +:+ " cycles") fmt
  | CauseTargetError => Value "The target indicated an error without details" fmt
  | CauseFailedToClearErrorFlag flag_name stuck_value =>
      Field "value" (hex stuck_value) (Value ("Failed to clear '" +:+ flag_name +:+ "'") fmt)
  | CauseInvalidVersion component_name version =>
      Value ("Invalid " +:+ component_name +:+ " version '" +:+ dec version +:+ "'") fmt
  | CauseValueOutOfRange value_name value min_value max_value =>
      Value (value_name +:+ " = " +:+ hex value +:+ " is out of supported range ["
             +:+ hex min_value +:+ " : " +:+ hex max_value +:+ "]") fmt
  | CauseMaxLatencyReached max_latency =>
      Value ("Reached the maximum allowed latency of " +:+ dec max_latency +:+ " during the calibration") fmt
  | _ => fmt
  end.

Section errors.
Context (strerror : Z → string) (FailedActionID : ActionError → Z).

(** The [Format] functions of the causes, and the formatter of [ActionError]; the
    model of an error does not keep the identifier of an action that is not known,
    which is a parameter. *)
Fixpoint FormatCause (c : Cause) (fmt : Formatter) : Formatter :=
  match c with
  | CauseUnsupportedAction => Name "Unsupported action" fmt
  | CauseAllocationFailure => Name "Allocation failure" fmt
  | CauseStringMessage message => Value message fmt
  | CauseNestedError (Some e) => Value (print_error e) fmt
  | CauseNestedError None => Value (formatted (Name "Allocation failure")) fmt
  | CauseTerminated entity => Value (entity +:+ " is already terminated") fmt
  | CauseErrno function return_value errno_value =>
      Field "errno" (dec errno_value +:+ " (" +:+ strerror errno_value +:+ ")")
        (Value ("'" +:+ function +:+ "' returned " +:+ dec return_value +:+ ",") fmt)
  | CauseInvalidArgument name => Value ("Invalid value of argument '" +:+ name +:+ "'") fmt
  | CauseInvalidJtagTapID requested_id max_id => Format_InvalidTapID requested_id max_id fmt
  | CauseInvalidJtagState state_id => Format_InvalidState state_id fmt
  | CauseUnstableJtagState state => Format_UnstableState state fmt
  | CauseIRLengthTooBig requested max_length => Format_IRLengthTooBig requested max_length fmt
  | _ => Format_TargetCause c fmt
  end
with print_error (e : ActionError) : string :=
  match e with
  | mkActionError None cause =>
      "Action " +:+ dec (FailedActionID e) +:+ " => FAILED: " +:+ formatted (FormatCause cause)
  | mkActionError (Some action) cause =>
      print_action action +:+ " => FAILED, cause: " +:+ formatted (FormatCause cause)
  end.

Definition print_cause (c : Cause) : string := formatted (FormatCause c).

(** The formatter of [Error]: no error, an error whose cause was lost, or its
    cause. *)
Definition print_Error (error : option (option Cause)) : string :=
  match error with
  | None => "Success"
  | Some None => "Unknown error: The cause is lost due to an allocation failure"
  | Some (Some cause) => print_cause cause
  end.
End errors.

(** ** Transactions *)

(** [DependentTransactions]: what a transaction is done for, by the pointers
    [prev]. *)
Record DependentTransactions := mkDependent {
  prev : list (string * string);
  length_ : nat;
  driver_name : string;
  tx_description : string;
}.

(** The chain that starts at a transaction, itself first. *)
Definition chain_of (deps : DependentTransactions) : list (string * string) :=
  (driver_name deps, tx_description deps) :: prev deps.

(** [Initiate]: the description of a new transaction. *)
Definition including_self (m_name tx_description : string) (dependent : option DependentTransactions)
    : DependentTransactions :=
  mkDependent (match dependent with Some d => chain_of d | None => [] end)
    (match dependent with Some d => 1 + length_ d | None => 0 end) m_name tx_description.

(** ["{:i<n>}"]. *)
Fixpoint indentation (n : nat) : string :=
  match n with O => EmptyString | S n => "| " +:+ indentation n end.

Definition print_indentation (additional : nat) (deps : DependentTransactions) : string :=
  indentation (length_ deps + additional).

(** ["{}"]: the one that everything is done for comes first. *)
Fixpoint print_chain (driver tx : string) (prev : list (string * string)) : string :=
  match prev with
  | [] => "(" +:+ driver +:+ ") " +:+ tx
  | (d, t) :: prev => print_chain d t prev +:+ " -> (" +:+ driver +:+ ") " +:+ tx
  end.

Definition print_dependent (deps : DependentTransactions) : string :=
  print_chain (driver_name deps) (tx_description deps) (prev deps).

(** ** Bits are printed one by one *)

Local Open Scope nat_scope.

Section bits.
Context (wT : nat).

Lemma chunk_bit (bits : list bool) i : i < wT →
  negb (Z.land (bits_z bits) (wrap wT (Z.shiftl 1 (Z.of_nat i))) =? 0)%Z = default false (bits !! i).
Proof.
  intros Hi. rewrite <-testbit_bits_z. set (c := bits_z bits).
  rewrite Z.shiftl_1_l, (wrap_small wT).
  2: { split; [apply Z.pow_nonneg; lia|apply Z.pow_lt_mono_r; lia]. }
  assert (Hland : (Z.land c (2 ^ Z.of_nat i) = if Z.testbit c (Z.of_nat i) then 2 ^ Z.of_nat i else 0)%Z).
  { apply Z.bits_inj'. intros j Hj. rewrite Z.land_spec, Z.pow2_bits_eqb by lia.
    destruct (Z.eqb_spec (Z.of_nat i) j) as [->|Hne].
    - rewrite andb_true_r. destruct (Z.testbit c j) eqn:E; rewrite ?E, ?Z.bits_0; [|done].
      by rewrite Z.pow2_bits_true.
    - rewrite andb_false_r. destruct (Z.testbit c (Z.of_nat i)); [by rewrite Z.pow2_bits_false|by rewrite Z.bits_0]. }
  rewrite Hland. destruct (Z.testbit c (Z.of_nat i)); [|done].
  destruct (Z.eqb_spec (2 ^ Z.of_nat i) 0)%Z; [lia|done].
Qed.

Lemma chunk_chars_spec is_reverse (bits : list bool) : length bits ≤ wT →
  chunk_chars wT is_reverse (bits_z bits) (length bits)
  = bit_char <$> (if is_reverse then reverse bits else bits).
Proof.
  intros Hl. apply list_eq. intros i. unfold chunk_chars. rewrite !list_lookup_fmap.
  destruct (decide (i < length bits)) as [Hi|Hi].
  - rewrite lookup_seq_lt by done. cbn [fmap option_fmap option_map Nat.add].
    rewrite chunk_bit by (destruct is_reverse; lia).
    destruct is_reverse.
    + rewrite reverse_lookup by done. replace (length bits - S i) with (length bits - i - 1) by lia.
      destruct (lookup_lt_is_Some_2 bits (length bits - i - 1)) as [b ->]; [lia|done].
    + by destruct (lookup_lt_is_Some_2 bits i Hi) as [b ->].
  - rewrite lookup_seq_ge by lia. cbn. symmetry. apply fmap_None, lookup_ge_None.
    destruct is_reverse; rewrite ?length_reverse; lia.
Qed.

Lemma format_bits_forward_spec fuel mem s out :
  wf wT mem s → m_remaining s < fuel →
  format_bits_forward fuel wT mem s (m_remaining s) out = Some (out ++ (bit_char <$> contents wT mem s)).
Proof.
  revert s out. induction fuel as [|fuel IH]; intros s out Hwf Hf; [lia|]. cbn [format_bits_forward].
  pose proof (length_contents wT mem s) as Hlc.
  destruct (Nat.eqb_spec (m_remaining s) 0) as [Hz|Hnz].
  { rewrite Hz in Hlc. apply nil_length_inv in Hlc as ->. by rewrite app_nil_r. }
  set (n := wT `min` m_remaining s). assert (Hn : n ≤ m_remaining s ∧ n ≤ wT) by lia.
  unfold Read. destruct (Nat.leb_spec n wT); [|lia]. cbn [check mbind option_bind].
  rewrite Nat.min_l by lia.
  destruct (ReadUnsafe_spec wT wT mem s n Hwf) as (s' & -> & Hwf' & _ & Hc); [lia|lia|].
  cbn [mbind option_bind]. pose proof (length_contents wT mem s') as Hlc'.
  rewrite Hc, length_drop, Hlc in Hlc'. rewrite Hlc'.
  pose proof Hwf as [Hw _ _]. rewrite (IH s') by (done || lia).
  replace n with (length (take n (contents wT mem s))) at 2 by (rewrite length_take; lia).
  rewrite chunk_chars_spec by (rewrite length_take; lia).
  rewrite Hc, <-app_assoc, <-fmap_app, take_drop. done.
Qed.

Lemma format_bits_reverse_spec fuel mem s num_bits out :
  wf wT mem s → num_bits ≤ m_remaining s → num_bits < fuel →
  format_bits_reverse fuel wT mem s num_bits out
  = Some (out ++ (bit_char <$> reverse (take num_bits (contents wT mem s)))).
Proof.
  intros Hwf. revert num_bits out. induction fuel as [|fuel IH]; intros num_bits out Hr Hf; [lia|].
  cbn [format_bits_reverse]. pose proof (length_contents wT mem s) as Hlc.
  destruct (Nat.eqb_spec num_bits 0) as [->|Hnz]; [by rewrite take_0, app_nil_r|].
  pose proof Hwf as [Hw _ _]. set (n := wT `min` num_bits).
  destruct (Skip_wf wT mem s (num_bits - n) Hwf) as [Hwf' _].
  pose proof (Skip_contents wT mem s (num_bits - n) Hwf) as Hc.
  set (s' := (Skip wT s (num_bits - n)).2) in *.
  assert (Hrem : m_remaining s' = m_remaining s - (num_bits - n)).
  { rewrite <-(length_contents wT mem s'), Hc, length_drop, Hlc. done. }
  unfold Read. destruct (Nat.leb_spec n wT); [|lia]. cbn [check mbind option_bind].
  rewrite Nat.min_l by lia.
  destruct (ReadUnsafe_spec wT wT mem s' n Hwf') as (s2 & -> & _); [lia|lia|].
  cbn [mbind option_bind]. rewrite IH by lia.
  replace n with (length (take n (contents wT mem s'))) at 2 by (rewrite length_take, Hc, length_drop; lia).
  rewrite chunk_chars_spec by (rewrite length_take; lia).
  rewrite <-app_assoc, <-fmap_app, <-reverse_app. do 3 f_equal. rewrite Hc.
  rewrite take_drop_commute, <-(take_drop (num_bits - n) (take num_bits (contents wT mem s))).
  rewrite take_take, Nat.min_l by lia. by replace (num_bits - n + n) with num_bits by lia.
Qed.
End bits.

(** The text of a bit stream is that of its bits: the formatter reads the
    stream chunk by chunk, from its beginning or, with the least significant bit
    on the right, from copies of the stream that skip to the last chunk, and it
    prints every bit once, in the order asked for. *)
Theorem bits_printed (wT : nat) (is_reverse : bool) (mem : list Z) (s : BitStream) (Hwf : wf wT mem s) :
  format_bits wT is_reverse mem s = Some (print_bits is_reverse (contents wT mem s)).
Proof.
  unfold format_bits, print_bits, GetNumBits. rewrite length_contents. destruct is_reverse.
  - rewrite format_bits_reverse_spec by (done || lia). cbn [mbind option_bind app].
    by rewrite take_ge by (by rewrite length_contents).
  - by rewrite format_bits_forward_spec by (done || lia).
Qed.

(** ** Examples *)

Lemma bits_printed_witness :
  wf 8 demo_mem demo_stream
  ∧ format_bits 8 true demo_mem demo_stream = Some (print_bits true (contents 8 demo_mem demo_stream)).
Proof. split; [apply demo_wf|]. apply (bits_printed 8 true demo_mem demo_stream). apply demo_wf. Defined.

Local Open Scope Z_scope.

(** Bytes are printed as any other elements are, in hexadecimal. *)
Lemma format_bytes_span bytes : format_bytes bytes = format_span hex_byte bytes.
Proof.
  unfold format_bytes, format_span. do 3 f_equal.
  induction bytes as [|b [|b' bytes] IH]; [done| |].
  - reflexivity.
  - change (format_bytes_loop (b :: b' :: bytes)) with (hex_byte b +:+ " " +:+ format_bytes_loop (b' :: bytes)).
    by rewrite IH.
Qed.

Example demo_texts :
  print_action (AnyJtagChain (JCGoToState 4 2)) = "-> ShiftDR + wait 2"
  ∧ print_action (AnyAPB (APBWrite 0x10 0xff)) = "APB-W 0x10 <- 0xff"
  ∧ print_action (AnyByteStream (WriteBytes [7; 255])) = "WRITE 2 [07 ff]"
  ∧ print_action (AnyJtag (PutTDI [true; true; false] true)) = "TDI <- (3 lsb-right) 011"
  ∧ print_error (λ _, EmptyString) (λ _, 0) (mkActionError (Some (AnyJtagChain (JCSelectTAP 3))) (CauseInvalidJtagTapID 3 1))
    = "Select-TAP 3 => FAILED, cause: Invalid TAP ID 3, max valid ID is 1"
  ∧ print_dependent (including_self "jtag" "scan" (Some (including_self "chain" "read" None)))
    = "(chain) read -> (jtag) scan".
Proof. split_and!; vm_compute; reflexivity. Qed.
