(* ===== verification/Logger.v ===== *)
(** * Logger: lines from many threads ([src/src/libedr/driver/Logger.hpp],
    [util/miscellaneous/Spinlock.hpp], [src/src/api/Context.h]).

    The drivers of a context share one logger.  A line is put together in a
    buffer that the logger keeps, and goes to the outputs in several writes; a
    spinlock guards both.  The model runs threads against each other: a schedule
    says which thread makes its next step, a step is one access to the shared
    state.  The memory resource answers an allocation with memory, with a null
    pointer or by an exception.  A write to memory that the logger does not own and
    giving memory back a second time are undefined behaviour, [None]. *)
From S2P Require Import Prelude Actions.
From stdpp Require Import strings.
Local Open Scope nat_scope.

(** ** Levels *)

Inductive LogLevel := ERROR | WARNING | INFO | DEBUG | TRACE.

#[export] Instance LogLevel_eq_dec : EqDecision LogLevel.
Proof. solve_decision. Defined.

Definition level_value (level : LogLevel) : nat :=
  match level with ERROR => 0 | WARNING => 1 | INFO => 2 | DEBUG => 3 | TRACE => 4 end.

Definition GetPrefix (level : LogLevel) : string :=
  match level with
  | ERROR => "[ERROR] "
  | INFO => "[INFO] "
  | DEBUG => "[DEBUG] "
  | TRACE => "[TRACE] "
  | WARNING => "[WARNING] "
  end.

Definition prefix_bytes (level : LogLevel) : list Z := string_bytes (GetPrefix level).

(** ** Outputs *)

Inductive stream := Stderr | Stdout | File.

#[export] Instance stream_eq_dec : EqDecision stream.
Proof. solve_decision. Defined.

Definition newline : list Z := [10%Z].

(** What a call of [fwrite] reads: the buffer of the logger, or a constant. *)
Inductive source := FromBuffer (size : nat) | Literal (bytes : list Z).

(** The [fwrite] calls of [StdStreamsLoggerOutput::AddLine] ... *)
Definition StdStreams_AddLine (level : LogLevel) (message : source) : list (stream * source) :=
  match level with
  | ERROR | WARNING => [(Stderr, message); (Stderr, Literal newline)]
  | _ => [(Stdout, message); (Stdout, Literal newline)]
  end.

(** ... of [FileLoggerOutput::AddLine] ([opened]: [fopen] returned a file) ... *)
Definition File_AddLine (opened : bool) (message : source) : list (stream * source) :=
  if opened then [(File, message); (File, Literal newline)] else [].

(** ... and of [Context::LoggerOutput], which hands a line to both. *)
Record LoggerOutput := mkLoggerOutput { m_std_output : bool; m_file_output : option bool }.

Definition AddStdStreams (out : LoggerOutput) : LoggerOutput := mkLoggerOutput true (m_file_output out).

Definition AddFile (opened : bool) (out : LoggerOutput) : LoggerOutput :=
  mkLoggerOutput (m_std_output out) (Some opened).

Definition AddLine (out : LoggerOutput) (level : LogLevel) (message : source) : list (stream * source) :=
  (if m_std_output out then StdStreams_AddLine level message else [])
  ++ match m_file_output out with Some opened => File_AddLine opened message | None => [] end.

(** ** The logger *)

(** What [m_buffer] points to. *)
Inductive block := Null | Live (bytes : list Z) | Freed.

Record Logger := mkLogger {
  m_log_level : LogLevel;
  flag : bool;                (** [m_spinlock] *)
  m_buffer : block;
  m_size : nat;
}.

Definition set_buffer (buffer : block) (size : nat) (l : Logger) : Logger :=
  mkLogger (m_log_level l) (flag l) buffer size.
Definition set_flag (f : bool) (l : Logger) : Logger :=
  mkLogger (m_log_level l) f (m_buffer l) (m_size l).
Definition SetLevel (level : LogLevel) (l : Logger) : Logger :=
  mkLogger level (flag l) (m_buffer l) (m_size l).

(** An answer of the memory resource: memory with arbitrary contents, a null
    pointer, or an exception. *)
Inductive answer := Allocated (garbage : nat → Z) | NullPointer | Throws.

Inductive allocated := AOk | AFailed | AThrown.

(** [Allocate]; the line about a failure is added by the caller below.  The old
    buffer is gone before the new one is there, and an exception leaves the pointer
    to it in place. *)
Definition Allocate (r : answer) (size : nat) (l : Logger) : option (Logger * allocated) :=
  if size <=? m_size l then Some (l, AOk)
  else match m_buffer l, r with
       | Freed, _ => None                       (* deallocated again *)
       | _, Allocated garbage => Some (set_buffer (Live (garbage <$> seq 0 size)) size l, AOk)
       | _, NullPointer => Some (set_buffer Null 0 l, AFailed)
       | Null, Throws => Some (l, AThrown)
       | Live _, Throws => Some (set_buffer Freed (m_size l) l, AThrown)
       end.

Definition failure_message : list Z := string_bytes "Failed to allocate a log line buffer!".
#[global] Arguments failure_message : simpl never.
#[global] Arguments prefix_bytes : simpl never.

(** [std::format_to_n(m_buffer + offset, bytes.size(), ...)]. *)
Definition format_to (offset : nat) (bytes : list Z) (b : block) : option block :=
  match b with
  | Live mem => check (offset + length bytes <=? length mem);; Some (Live (splice offset bytes mem))
  | _ => None
  end.

Definition read_source (b : block) (src : source) : option (list Z) :=
  match src, b with
  | Literal bytes, _ => Some bytes
  | FromBuffer size, Live mem => check (size <=? length mem);; Some (take size mem)
  | FromBuffer _, _ => None
  end.

(** ** Threads *)

(** A thread calls [Error], [Warning], [Info], [Debug] and [Trace], by the level
    and the bytes that the arguments are formatted to, and [SetLevel]. *)
Inductive call := CLog (level : LogLevel) (message : list Z) | CSetLevel (level : LogLevel).

Inductive outcome := Filtered | Written | NoMemory | Thrown.

(** Where a thread is in its first call: before the level is compared, spinning
    in the constructor of [SpinlockGuard], in [Allocate], at the two
    [format_to_n], inside of [AddLine], before the destructor of the guard. *)
Inductive pc :=
| PStart
| PLock
| PAllocate
| PPrefix
| PMessage
| PAdd (writes : list (stream * source)) (o : outcome)
| PUnlock (o : outcome).

Record Thread := mkThread { at_ : pc; calls : list call }.

(** [history] lists the calls that have ended, with their threads; no step
    looks at it. *)
Record State := mkState {
  logger : Logger;
  streams : stream → list Z;
  threads : list Thread;
  history : list (nat * call * outcome);
}.

Definition total (level : LogLevel) (message : list Z) : nat :=
  length (prefix_bytes level) + length message.

Definition append_to (st : stream) (bytes : list Z) (out : stream → list Z) : stream → list Z :=
  λ st', if decide (st' = st) then out st' ++ bytes else out st'.

Section threads.
Context (out : LoggerOutput).

Definition goto (t : nat) (p : pc) (l : Logger) (s : State) : State :=
  mkState l (streams s) (alter (λ th, mkThread p (calls th)) t (threads s)) (history s).

(** The call ends and the thread goes on to its next one. *)
Definition finish (t : nat) (c : call) (o : outcome) (l : Logger) (s : State) : State :=
  mkState l (streams s) (alter (λ th, mkThread PStart (tail (calls th))) t (threads s))
    (history s ++ [(t, c, o)]).

Definition log_step (t : nat) (r : answer) (level : LogLevel) (message : list Z) (p : pc) (s : State)
    : option State :=
  let l := logger s in
  match p with
  | PStart =>
      if level_value level <=? level_value (m_log_level l) then Some (goto t PLock l s)
      else Some (finish t (CLog level message) Filtered l s)
  | PLock =>                                    (* test_and_set *)
      if flag l then Some s else Some (goto t PAllocate (set_flag true l) s)
  | PAllocate =>
      '(l, res) ← Allocate r (total level message) l;
      Some (goto t (match res with
                    | AOk => PPrefix
                    | AFailed => PAdd (AddLine out ERROR (Literal failure_message)) NoMemory
                    | AThrown => PUnlock Thrown
                    end) l s)
  | PPrefix =>
      b ← format_to 0 (prefix_bytes level) (m_buffer l);
      Some (goto t PMessage (set_buffer b (m_size l) l) s)
  | PMessage =>
      b ← format_to (length (prefix_bytes level)) message (m_buffer l);
      Some (goto t (PAdd (AddLine out level (FromBuffer (total level message))) Written)
              (set_buffer b (m_size l) l) s)
  | PAdd [] o => Some (goto t (PUnlock o) l s)
  | PAdd ((st, src) :: writes) o =>
      bytes ← read_source (m_buffer l) src;
      Some (goto t (PAdd writes o) l
              (mkState l (append_to st bytes (streams s)) (threads s) (history s)))
  | PUnlock o => Some (finish t (CLog level message) o (set_flag false l) s)
  end.

Definition step (t : nat) (r : answer) (s : State) : option State :=
  match threads s !! t with
  | Some (mkThread p (CLog level message :: _)) => log_step t r level message p s
  | Some (mkThread _ (CSetLevel level :: _)) =>
      Some (finish t (CSetLevel level) Written (SetLevel level (logger s)) s)
  | _ => Some s
  end.

Fixpoint run (schedule : list (nat * answer)) (s : State) : option State :=
  match schedule with
  | [] => Some s
  | (t, r) :: schedule => s ← step t r s; run schedule s
  end.
End threads.

(** The constructor of [Logger], and threads that have not begun. *)
Definition initial (level : LogLevel) (scripts : list (list call)) : State :=
  mkState (mkLogger level false Null 0) (λ _, []) (mkThread PStart <$> scripts) [].

(** ** What the streams should hold *)

(** The streams that a line of a level goes to. *)
Definition listens (out : LoggerOutput) (level : LogLevel) (st : stream) : bool :=
  match st with
  | Stderr => m_std_output out && (level_value level <=? 1)
  | Stdout => m_std_output out && (2 <=? level_value level)
  | File => match m_file_output out with Some opened => opened | None => false end
  end.

Definition line (out : LoggerOutput) (level : LogLevel) (bytes : list Z) (st : stream) : list Z :=
  if listens out level st then bytes ++ newline else [].

(** What a call leaves in a stream. *)
Definition text_of (out : LoggerOutput) (st : stream) (c : call) (o : outcome) : list Z :=
  match c, o with
  | CLog level message, Written => line out level (prefix_bytes level ++ message) st
  | CLog _ _, NoMemory => line out ERROR failure_message st
  | _, _ => []
  end.

Definition contents (out : LoggerOutput) (h : list (nat * call * outcome)) (st : stream) : list Z :=
  concat ((λ e, text_of out st e.1.2 e.2) <$> h).
#[global] Arguments contents : simpl never.

(** The calls of a thread that have ended. *)
Definition ended (t : nat) (h : list (nat * call * outcome)) : list call :=
  (λ e, e.1.2) <$> filter (λ e, e.1.1 = t) h.
#[global] Arguments ended : simpl never.

Definition never_throws (schedule : list (nat * answer)) : Prop :=
  Forall (λ e, e.2 ≠ Throws) schedule.

(** ** Only the holder of the lock is inside *)

Definition holds (p : pc) : bool :=
  match p with PStart | PLock => false | _ => true end.

(** What [fwrite] calls that are still to come will add to a stream. *)
Definition pending (b : block) (st : stream) (writes : list (stream * source)) : list Z :=
  concat ((λ w, if decide (st = w.1) then default [] (read_source b w.2) else []) <$> writes).

Definition readable (b : block) (writes : list (stream * source)) : Prop :=
  Forall (λ w, is_Some (read_source b w.2)) writes.

Definition wf_buffer (l : Logger) : Prop :=
  match m_buffer l with Null => m_size l = 0 | Live mem => length mem = m_size l | Freed => True end.

Section proofs.
Context (out : LoggerOutput).

(** The work of the holder so far, over the lines that are complete. *)
Definition critical (l : Logger) (now base : stream → list Z) (level : LogLevel) (message : list Z) (p : pc)
    : Prop :=
  match p with
  | PStart | PLock => False
  | PAllocate => ∀ st, now st = base st
  | PPrefix => (∀ st, now st = base st) ∧ total level message ≤ m_size l
  | PMessage =>
      (∀ st, now st = base st) ∧ total level message ≤ m_size l
      ∧ ∃ mem, m_buffer l = Live mem ∧ take (length (prefix_bytes level)) mem = prefix_bytes level
  | PAdd writes o =>
      o ≠ Filtered ∧ readable (m_buffer l) writes
      ∧ ∀ st, now st ++ pending (m_buffer l) st writes = base st ++ text_of out st (CLog level message) o
  | PUnlock o =>
      o ≠ Filtered ∧ ∀ st, now st = base st ++ text_of out st (CLog level message) o
  end.

Definition outside (t : nat) (ths : list Thread) : Prop :=
  ∀ t' th, t' ≠ t → ths !! t' = Some th → holds (at_ th) = false.

Definition inv (s : State) : Prop :=
  wf_buffer (logger s)
  ∧ if flag (logger s)
    then ∃ t p level message rest,
      threads s !! t = Some (mkThread p (CLog level message :: rest)) ∧ outside t (threads s)
      ∧ critical (logger s) (streams s) (contents out (history s)) level message p
    else (∀ t, outside t (threads s)) ∧ ∀ st, streams s st = contents out (history s) st.

Lemma pending_AddLine b bytes src level st :
  read_source b src = Some bytes → pending b st (AddLine out level src) = line out level bytes st.
Proof.
  intros Hr. destruct out as [std file]. unfold line, AddLine, pending, File_AddLine.
  assert (read_source b (Literal newline) = Some newline) as Hn by done.
  destruct level, st, std, file as [[]|]; cbn -[read_source]; rewrite ?Hr, ?Hn; cbn; by rewrite ?app_nil_r.
Qed.

Lemma readable_AddLine b bytes src level :
  read_source b src = Some bytes → readable b (AddLine out level src).
Proof.
  intros Hr. destruct out as [std file]. unfold readable, AddLine, File_AddLine.
  destruct level, std, file as [[]|]; cbn -[read_source]; repeat constructor; cbn -[read_source]; rewrite ?Hr; eauto.
Qed.

Lemma contents_snoc h t c o st : contents out (h ++ [(t, c, o)]) st = contents out h st ++ text_of out st c o.
Proof. unfold contents. rewrite fmap_app, concat_app. cbn. by rewrite app_nil_r. Qed.

Lemma outside_alter t t' f ths :
  outside t ths → (∀ th, ths !! t' = Some th → t' ≠ t → holds (at_ (f th)) = false) →
  outside t (alter f t' ths).
Proof.
  intros Ho Hf u th Hu. rewrite list_lookup_alter. case_decide as Ht; [|by apply Ho].
  subst u. destruct (ths !! t') as [th0|] eqn:E; [|done]. cbn. intros [= <-]. by apply Hf.
Qed.

Lemma critical_base l now base base' level message p :
  (∀ st, base' st = base st) → critical l now base level message p → critical l now base' level message p.
Proof.
  intros Hb. destruct p; cbn; try done.
  - intros H st. by rewrite Hb.
  - intros [H ?]. split; [|done]. intros st. by rewrite Hb.
  - intros [H ?]. split; [|done]. intros st. by rewrite Hb.
  - intros (? & ? & H). split_and!; [done..|]. intros st. by rewrite Hb.
  - intros [? H]. split; [done|]. intros st. by rewrite Hb.
Qed.

(** A thread that is outside stays outside of a state that is held or not. *)
Lemma inv_outside t p cs f s h' level' :
  inv s → threads s !! t = Some (mkThread p cs) → holds p = false →
  holds (at_ (f (mkThread p cs))) = false →
  (∀ st, contents out h' st = contents out (history s) st) →
  inv (mkState (SetLevel level' (logger s)) (streams s) (alter f t (threads s)) h').
Proof.
  intros [Hb Hi] Ht Hp Hf Hh. split; [done|]. cbn [flag SetLevel logger streams threads history].
  assert (∀ u, outside u (threads s) → outside u (alter f t (threads s))) as Hout.
  { intros u Hu. apply outside_alter; [done|]. intros th Hth _. congruence. }
  destruct (flag (logger s)) eqn:Ef.
  - destruct Hi as (u & q & level & message & rest & Hu & Ho & Hc).
    exists u, q, level, message, rest. split_and!; [|by apply Hout|].
    + rewrite list_lookup_alter_ne; [done|]. intros ->. destruct q; simplify_eq; done.
    + by apply (critical_base _ _ (contents out (history s))).
  - destruct Hi as [Ho Hs]. split; [by auto|]. intros st. by rewrite Hh.
Qed.

Lemma SetLevel_same l : SetLevel (m_log_level l) l = l.
Proof. by destruct l. Qed.

(** Who is inside is the holder. *)
Lemma inv_holder s t p c cs :
  inv s → threads s !! t = Some (mkThread p (c :: cs)) → holds p = true →
  flag (logger s) = true ∧ outside t (threads s)
  ∧ ∃ level message, c = CLog level message
    ∧ critical (logger s) (streams s) (contents out (history s)) level message p.
Proof.
  intros [_ Hi] Ht Hp. destruct (flag (logger s)) eqn:Ef.
  - destruct Hi as (u & q & level & message & rest & Hu & Ho & Hc).
    destruct (decide (t = u)) as [->|Hne].
    + rewrite Hu in Ht. simplify_eq. eauto 6.
    + specialize (Ho t _ Hne Ht). cbn in Ho. congruence.
  - destruct Hi as [Ho _]. specialize (Ho (S t) t _ ltac:(lia) Ht). cbn in Ho. congruence.
Qed.

(** The holder makes a step inside. *)
Lemma inv_inside t p p' level message rest l' now' s :
  threads s !! t = Some (mkThread p (CLog level message :: rest)) → outside t (threads s) →
  flag l' = true → wf_buffer l' →
  critical l' now' (contents out (history s)) level message p' →
  inv (goto t p' l' (mkState l' now' (threads s) (history s))).
Proof.
  intros Ht Ho Hf Hb Hc. split; [done|]. cbn. rewrite Hf.
  exists t, p', level, message, rest. split_and!; [|apply outside_alter; done|done].
  rewrite list_lookup_alter, decide_True, Ht by done. done.
Qed.

Lemma Allocate_inv r size l :
  wf_buffer l →
  m_buffer l = Freed ∧ Allocate r size l = None
  ∨ ∃ l' res, Allocate r size l = Some (l', res) ∧ wf_buffer l' ∧ flag l' = flag l
      ∧ m_log_level l' = m_log_level l ∧ (res = AOk → size ≤ m_size l').
Proof.
  intros Hb. unfold Allocate. destruct (Nat.leb_spec size (m_size l)) as [Hle|Hlt]; [right; by eexists _, _|].
  destruct (m_buffer l) as [|mem|] eqn:Hm; [right..|by left]; destruct r; eexists _, _;
    (split; [done|]); split_and!; try done; unfold wf_buffer; cbn; by rewrite ?length_fmap, ?length_seq, ?Hm.
Qed.

Lemma format_to_inv offset bytes l :
  wf_buffer l → offset + length bytes ≤ m_size l → 0 < offset + length bytes →
  m_buffer l = Freed ∧ format_to offset bytes (m_buffer l) = None
  ∨ ∃ mem, m_buffer l = Live mem ∧ length mem = m_size l
    ∧ format_to offset bytes (m_buffer l) = Some (Live (splice offset bytes mem))
    ∧ length (splice offset bytes mem) = m_size l.
Proof.
  intros Hl Hle Hpos. unfold wf_buffer, format_to in *.
  destruct (m_buffer l) as [|mem|]; [lia|right|by left]. exists mem. rewrite (proj2 (Nat.leb_le _ _)) by lia. split_and!; try done. rewrite length_splice; lia.
Qed.

Lemma prefix_pos level : 0 < length (prefix_bytes level).
Proof. destruct level; vm_compute; lia. Qed.

Lemma outside_all t ths f :
  outside t ths → (∀ th, holds (at_ (f th)) = false) → ∀ u, outside u (alter f t ths).
Proof.
  intros Ho Hf u t' th _. rewrite list_lookup_alter. case_decide as Ht.
  - destruct (ths !! t) as [th0|]; cbn; [|done]. intros [= <-]. apply Hf.
  - apply Ho. congruence.
Qed.

(** ** Each step keeps the lines whole *)

(** A step keeps the invariant, or stumbles over memory that was given back. *)
Definition goes_on (b : block) (r : option State) : Prop :=
  match r with Some s' => inv s' | None => b = Freed end.

Section holder.
Context (s : State) (t : nat) (level : LogLevel) (message : list Z) (rest : list call).
Context (Hb : wf_buffer (logger s)) (Hf : flag (logger s) = true) (Ho : outside t (threads s)).

Local Abbreviation step_to p :=
  (threads s !! t = Some (mkThread p (CLog level message :: rest)) →
   critical (logger s) (streams s) (contents out (history s)) level message p →
   ∀ r, goes_on (m_buffer (logger s)) (log_step out t r level message p s)).

Lemma Allocate_step : step_to PAllocate.
Proof.
  intros Ht Hc r. cbn. destruct (Allocate_inv r (total level message) (logger s) Hb)
    as [[Hfr ->]|(l' & res & -> & Hb' & Hf' & _ & Hok)]; [done|].
  eapply (inv_inside _ _ _ _ _ _ l' (streams s) s Ht Ho); [congruence|done|].
  destruct res; [split; auto| |].
  - split_and!; [done|by eapply readable_AddLine|]. intros st. by erewrite Hc, pending_AddLine by done.
  - split; [done|]. intros st. by rewrite Hc, app_nil_r.
Qed.

Lemma Prefix_step : step_to PPrefix.
Proof.
  intros Ht [Hs Hle] r. cbn. pose proof (prefix_pos level). unfold total in *.
  destruct (format_to_inv 0 (prefix_bytes level) (logger s) Hb) as [[Hfr ->]|(mem & Hm & Hl & -> & Hl')];
    [cbn; lia..|done|].
  eapply (inv_inside _ _ _ _ _ _ _ (streams s) s Ht Ho); [done|done|].
  split_and!; [done|done|]. eexists. split; [done|]. apply (take_splice 0). lia.
Qed.

Lemma Message_step : step_to PMessage.
Proof.
  intros Ht (Hs & Hle & mem & Hm & Hpre) r. cbn. pose proof (prefix_pos level). unfold total in *.
  destruct (format_to_inv (length (prefix_bytes level)) message (logger s) Hb)
    as [[Hfr ->]|(mem' & Hm' & Hl & -> & Hl')]; [lia..|done|].
  rewrite Hm in Hm'. injection Hm' as <-.
  eapply (inv_inside _ _ _ _ _ _ _ (streams s) s Ht Ho); [done|done|].
  assert (read_source (Live (splice (length (prefix_bytes level)) message mem)) (FromBuffer (total level message))
          = Some (prefix_bytes level ++ message)) as Hread.
  { cbn. unfold total. rewrite Hl', (proj2 (Nat.leb_le _ _)) by done. cbn.
    rewrite take_splice by lia. by rewrite Hpre. }
  split_and!; [done|by eapply readable_AddLine|]. intros st.
  cbn [set_buffer m_buffer]. by rewrite Hs, (pending_AddLine _ _ _ _ _ Hread).
Qed.

Lemma Add_step writes o : step_to (PAdd writes o).
Proof.
  intros Ht (Ho' & Hreads & Hs) r. destruct writes as [|[st src] writes]; cbn.
  - eapply (inv_inside _ _ _ _ _ _ _ (streams s) s Ht Ho); [done|done|].
    split; [done|]. intros st. by rewrite <-Hs, app_nil_r.
  - apply Forall_cons in Hreads as [[bytes Hread] Hrest]. cbn in Hread. rewrite Hread.
    eapply (inv_inside _ _ _ _ _ _ _ _ s Ht Ho); [done|done|].
    split_and!; [done|done|]. intros st'. rewrite <-Hs. unfold append_to, pending.
    cbn [fmap list_fmap concat fst snd]. case_decide; [|done]. rewrite Hread. cbn. by rewrite <-app_assoc.
Qed.

Lemma Unlock_step o : step_to (PUnlock o).
Proof.
  intros Ht (Ho' & Hs) r. split; [done|]. split.
  - by apply outside_all.
  - intros st. cbn. by rewrite contents_snoc, Hs.
Qed.
End holder.

Lemma inside_step s t r p level message rest :
  threads s !! t = Some (mkThread p (CLog level message :: rest)) → holds p = true →
  inv s → goes_on (m_buffer (logger s)) (log_step out t r level message p s).
Proof.
  intros Ht Hp Hi. destruct (inv_holder s t p _ _ Hi Ht Hp) as (Hf & Ho & ? & ? & [= <- <-] & Hc).
  pose proof (proj1 Hi) as Hb. destruct p; try done.
  - by eapply Allocate_step.
  - by eapply Prefix_step.
  - by eapply Message_step.
  - by eapply Add_step.
  - by eapply Unlock_step.
Qed.

(** The steps outside: the comparison of levels, and the lock. *)
Lemma outside_step s t r p level message rest :
  threads s !! t = Some (mkThread p (CLog level message :: rest)) → holds p = false →
  inv s → goes_on (m_buffer (logger s)) (log_step out t r level message p s).
Proof.
  intros Ht Hp Hi. destruct p; try done; cbn.
  - case_match; cbn; rewrite <-(SetLevel_same (logger s));
      eapply inv_outside; try done. intros st. by rewrite contents_snoc, app_nil_r.
  - destruct (flag (logger s)) eqn:Ef; [done|]. cbn.
    destruct Hi as [Hb Hi]. rewrite Ef in Hi. destruct Hi as [Ho Hs].
    by eapply (inv_inside t PLock _ _ _ _ _ (streams s) s).
Qed.

Lemma step_inv s t r : inv s → goes_on (m_buffer (logger s)) (step out t r s).
Proof.
  intros Hi. unfold step. destruct (threads s !! t) as [[p [|[level message|level] rest]]|] eqn:Ht; [done| | |done].
  - destruct (holds p) eqn:Hp; [by eapply inside_step|by eapply outside_step].
  - cbn. eapply inv_outside; [done|done| |done|].
    + destruct (holds p) eqn:Hp; [|done]. by destruct (inv_holder s t p _ _ Hi Ht Hp) as (_ & _ & ? & ? & [=] & _).
    + intros st. by rewrite contents_snoc, app_nil_r.
Qed.

(** The allocation for a longer line throws while the logger has a buffer: thread
    [t] is about to make it. *)
Definition loses_buffer (t : nat) (r : answer) (s : State) : Prop :=
  r = Throws ∧ ∃ level message rest mem,
    threads s !! t = Some (mkThread PAllocate (CLog level message :: rest))
    ∧ m_buffer (logger s) = Live mem ∧ m_size (logger s) < total level message.

(** Nothing else leaves a pointer to memory that was given back. *)
Lemma step_freed s t r s' :
  step out t r s = Some s' → m_buffer (logger s') = Freed →
  m_buffer (logger s) = Freed ∨ loses_buffer t r s.
Proof.
  unfold step. destruct (threads s !! t) as [[p [|[level message|level] rest]]|] eqn:Ht;
    [by intros [= <-]; left| |by intros [= <-]; left|by intros [= <-]; left].
  destruct p as [| | | | |[|[st src] writes] o|o]; cbn.
  - case_match; intros [= <-]; by left.
  - case_match; intros [= <-]; by left.
  - unfold Allocate. destruct (Nat.leb_spec (total level message) (m_size (logger s))) as [Hle|Hlt];
      [by intros [= <-]; left|].
    destruct (m_buffer (logger s)) as [|mem|] eqn:Hm; [| |done]; destruct r; intros [= <-]; cbn; try done.
    + by rewrite Hm.
    + intros _. right. split; [done|]. by eexists _, _, _, mem.
  - destruct (m_buffer (logger s)); cbn; try done. destruct (_ <=? _); [|done]. by intros [= <-].
  - destruct (m_buffer (logger s)); cbn; try done. destruct (_ <=? _); [|done]. by intros [= <-].
  - intros [= <-]. by left.
  - destruct (read_source _ _); [|done]. intros [= <-]. by left.
  - intros [= <-]. by left.
Qed.
End proofs.

(** ** The calls of a thread end in their order *)

Definition calls_of (ths : list Thread) (t : nat) : list call := from_option calls [] (ths !! t).

Definition book (scripts : list (list call)) (s : State) : Prop :=
  ∀ t, ended t (history s) ++ calls_of (threads s) t = default [] (scripts !! t).

(** The levels that may be in force: the first one and those that are set. *)
Definition in_force (level : LogLevel) (scripts : list (list call)) (seen : LogLevel) : Prop :=
  seen = level ∨ ∃ t, CSetLevel seen ∈ default [] (scripts !! t).

(** The outcome of a call goes by a level that was in force. *)
Definition judged (ok : LogLevel → Prop) (level : LogLevel) (o : outcome) : Prop :=
  ∃ seen, ok seen ∧ (o = Filtered ↔ level_value seen < level_value level).

Definition decided (p : pc) : option outcome :=
  match p with
  | PStart => None
  | PAdd _ o | PUnlock o => Some o
  | _ => Some Written
  end.

Definition filtered_by (ok : LogLevel → Prop) (s : State) : Prop :=
  ok (m_log_level (logger s))
  ∧ (∀ t p level message rest o, threads s !! t = Some (mkThread p (CLog level message :: rest)) →
       decided p = Some o → judged ok level o)
  ∧ ∀ t level message o, (t, CLog level message, o) ∈ history s → judged ok level o.

Lemma lookup_alter_inv {A} (f : A → A) (l : list A) i j y :
  alter f i l !! j = Some y → (i = j ∧ ∃ x, l !! i = Some x ∧ y = f x) ∨ (i ≠ j ∧ l !! j = Some y).
Proof.
  rewrite list_lookup_alter. case_decide as E; [|by auto]. subst.
  destruct (l !! j); cbn; [|done]. intros [= <-]. eauto.
Qed.

(** The outcome that a step settles for the call of its thread. *)
Definition settles (l : Logger) (level : LogLevel) (p : pc) (o : outcome) : Prop :=
  match decided p with
  | Some o' => o' = Filtered ↔ o = Filtered
  | None => o = Filtered ↔ level_value (m_log_level l) < level_value level
  end.

(** A step spins, moves its thread on within the call, or ends the call. *)
Lemma log_step_shape out t r level message p s s' :
  log_step out t r level message p s = Some s' →
  s' = s
  ∨ (∃ p' l now, s' = goto t p' l (mkState l now (threads s) (history s))
      ∧ m_log_level l = m_log_level (logger s) ∧ ∀ o, decided p' = Some o → settles (logger s) level p o)
  ∨ ∃ o l, s' = finish t (CLog level message) o l s
      ∧ m_log_level l = m_log_level (logger s) ∧ settles (logger s) level p o.
Proof.
  unfold settles. destruct p as [| | | | |[|[st src] writes] o|o]; cbn; intros Hs.
  - destruct (Nat.leb_spec (level_value level) (level_value (m_log_level (logger s)))); simplify_eq; right.
    + left. exists PLock, (logger s), (streams s). split_and!; [done..|]. intros o [= <-]. split; [done|lia].
    + right. exists Filtered, (logger s). done.
  - destruct (flag (logger s)); simplify_eq; [by left|]. right. left.
    exists PAllocate, (set_flag true (logger s)), (streams s). split_and!; [done..|]. by intros o [= <-].
  - right. left. destruct (Allocate _ _ _) as [[l res]|] eqn:Ha; [|done]. cbn in Hs. simplify_eq.
    eexists _, l, (streams s). split_and!; [done| |by destruct res; intros o [= <-]].
    unfold Allocate in Ha. repeat case_match; by simplify_eq.
  - destruct (format_to _ _ _) as [b|]; [|done]. cbn in Hs. simplify_eq. right. left.
    eexists PMessage, _, (streams s). split_and!; [done..|]. by intros o [= <-].
  - destruct (format_to _ _ _) as [b|]; [|done]. cbn in Hs. simplify_eq. right. left.
    eexists _, _, (streams s). split_and!; [done..|]. by intros o [= <-].
  - simplify_eq. right. left. eexists _, _, (streams s). split_and!; [done..|]. by intros o' [= <-].
  - destruct (read_source _ _); [|done]. cbn in Hs. simplify_eq. right. left. eexists _, _, _.
    split_and!; [done..|]. by intros o' [= <-].
  - simplify_eq. right. right. eexists _, _. done.
Qed.

Section bookkeeping.
Context (out : LoggerOutput) (level0 : LogLevel) (scripts : list (list call)).

Lemma ended_snoc t h u c o : ended t (h ++ [(u, c, o)]) = ended t h ++ (if decide (u = t) then [c] else []).
Proof.
  unfold ended. rewrite filter_app, fmap_app. f_equal. cbn. by repeat case_decide.
Qed.

Lemma book_goto t p l now s : book scripts s → book scripts (goto t p l (mkState l now (threads s) (history s))).
Proof.
  intros Hbk u. rewrite <-Hbk. f_equal. unfold calls_of. cbn. rewrite list_lookup_alter.
  case_decide; [subst|done]. by destruct (threads s !! u) as [[]|].
Qed.

Lemma book_finish t p c rest o l s :
  threads s !! t = Some (mkThread p (c :: rest)) → book scripts s → book scripts (finish t c o l s).
Proof.
  intros Ht Hbk u. rewrite <-Hbk. unfold calls_of. cbn. rewrite ended_snoc, list_lookup_alter.
  case_decide; [subst|by rewrite app_nil_r]. by rewrite Ht, <-app_assoc.
Qed.

Lemma step_book t r s s' : step out t r s = Some s' → book scripts s → book scripts s'.
Proof.
  unfold step. intros Hs Hbk. destruct (threads s !! t) as [[p [|[level message|level] rest]]|] eqn:Ht;
    simplify_eq; [done| |by eapply book_finish|done].
  destruct (log_step_shape _ _ _ _ _ _ _ _ Hs) as [->|[(p' & l & now & -> & _)|(o & l & -> & _)]].
  - done.
  - by apply book_goto.
  - by eapply book_finish.
Qed.

Local Abbreviation ok := (in_force level0 scripts).

Lemma filtered_goto t p0 p l now level message rest s :
  threads s !! t = Some (mkThread p0 (CLog level message :: rest)) → filtered_by ok s →
  m_log_level l = m_log_level (logger s) →
  (∀ o, decided p = Some o → judged ok level o) →
  filtered_by ok (goto t p l (mkState l now (threads s) (history s))).
Proof.
  intros Ht (Hl & Hp & Hh) Hsame Hnew. split_and!; [cbn; congruence| |done].
  intros u q level' message' rest' o [(-> & [p1 cs1] & Hx & Heq)|[Hne Hu]]%lookup_alter_inv Hd; [|by eauto].
  cbn in Hx, Heq. rewrite Ht in Hx. simplify_eq. eauto.
Qed.

Lemma filtered_finish t p c rest o l s :
  threads s !! t = Some (mkThread p (c :: rest)) → filtered_by ok s → ok (m_log_level l) →
  (∀ level message, c = CLog level message → judged ok level o) →
  filtered_by ok (finish t c o l s).
Proof.
  intros Ht (Hl & Hp & Hh) Hok Hnew. split_and!; [done| |].
  - intros u q level' message' rest' o' [(-> & x & Hx & Heq)|[Hne Hu]]%lookup_alter_inv Hd; [|by eauto].
    by simplify_eq.
  - intros u level message o' [?|[= -> <- ->]%list_elem_of_singleton]%elem_of_app; eauto.
Qed.

Lemma settles_judged l level p o :
  settles l level p o → ok (m_log_level l) → (∀ o', decided p = Some o' → judged ok level o') →
  judged ok level o.
Proof.
  unfold settles. destruct (decided p) as [o'|]; intros Hs Hl Hp; [|by exists (m_log_level l)].
  destruct (Hp o' eq_refl) as (seen & ? & Hseen). exists seen. split; [done|]. by rewrite <-Hs.
Qed.

Lemma step_filtered t r s s' :
  step out t r s = Some s' → book scripts s → filtered_by ok s → filtered_by ok s'.
Proof.
  unfold step. intros Hs Hbk Hfl. pose proof Hfl as (Hl & Hp & Hh).
  destruct (threads s !! t) as [[p [|[level message|level] rest]]|] eqn:Ht; simplify_eq; [done| | |done].
  - assert (∀ o, settles (logger s) level p o → judged ok level o) as Hj by eauto using settles_judged.
    destruct (log_step_shape _ _ _ _ _ _ _ _ Hs) as [->|[(p' & l & now & -> & Hsame & Hd)|(o & l & -> & Hsame & Hd)]].
    + done.
    + eapply filtered_goto; eauto.
    + eapply filtered_finish; [done..|by rewrite Hsame|]. intros ? ? [= <- <-]. eauto.
  - eapply filtered_finish; [done..| |by intros ? ? [=]]. right. exists t. rewrite <-(Hbk t).
    apply elem_of_app. right. unfold calls_of. rewrite Ht. cbn. by left.
Qed.
End bookkeeping.

(** ** Every call comes to its end *)

(** The steps that a thread has left. *)
Definition weight (p : pc) : nat :=
  match p with
  | PStart => 11 | PLock => 10 | PAllocate => 9 | PPrefix => 8 | PMessage => 7
  | PAdd writes _ => 2 + length writes | PUnlock _ => 1
  end.

Definition thread_left (th : Thread) : nat :=
  match calls th with [] => 0 | _ :: rest => weight (at_ th) + 11 * length rest end.

Definition steps_left (s : State) : nat := sum_list_with thread_left (threads s).

Definition idle (s : State) : Prop := Forall (λ th, calls th = []) (threads s).

Lemma sum_alter_lt f t th (ths : list Thread) :
  ths !! t = Some th → thread_left (f th) < thread_left th →
  sum_list_with thread_left (alter f t ths) < sum_list_with thread_left ths.
Proof.
  revert t. induction ths as [|x ths IH]; intros [|t] Ht Hlt; simplify_eq/=; [lia|].
  specialize (IH t Ht Hlt). lia.
Qed.

Lemma AddLine_length out level src : length (AddLine out level src) ≤ 4.
Proof. destruct out as [std file]. unfold AddLine. destruct level, std, file as [[]|]; cbn; lia. Qed.

Section progress.
Context (out : LoggerOutput).

Lemma finish_left t p c rest o l s :
  threads s !! t = Some (mkThread p (c :: rest)) → steps_left (finish t c o l s) < steps_left s.
Proof.
  intros Ht. eapply sum_alter_lt; [done|]. cbn.
  assert (1 ≤ weight p) by (destruct p; cbn; lia). destruct rest; cbn; lia.
Qed.

Lemma goto_left t p p' c rest l now s :
  threads s !! t = Some (mkThread p (c :: rest)) → weight p' < weight p →
  steps_left (goto t p' l (mkState l now (threads s) (history s))) < steps_left s.
Proof. intros Ht Hw. eapply sum_alter_lt; [done|]. cbn. lia. Qed.

(** A step that does not spin leaves fewer to do. *)
Lemma log_step_left t r level message p rest s s' :
  threads s !! t = Some (mkThread p (CLog level message :: rest)) →
  log_step out t r level message p s = Some s' → ¬ (p = PLock ∧ flag (logger s) = true) →
  steps_left s' < steps_left s.
Proof.
  intros Ht Hs Hsp. destruct p as [| | | | |[|[st src] writes] o|o]; cbn in Hs.
  - case_match; simplify_eq; [|by eapply finish_left]. eapply (goto_left _ _ _ _ _ _ (streams s)); [done|cbn; lia].
  - destruct (flag (logger s)); [naive_solver|]. simplify_eq.
    eapply (goto_left _ _ _ _ _ _ (streams s)); [done|cbn; lia].
  - destruct (Allocate _ _ _) as [[l res]|]; [|done]. cbn in Hs. simplify_eq. eapply (goto_left _ _ _ _ _ _ (streams s)); [done|].
    pose proof (AddLine_length out ERROR (Literal failure_message)). destruct res; unfold weight; lia.
  - destruct (format_to _ _ _) as [b|]; [|done]. cbn in Hs. simplify_eq.
    eapply (goto_left _ _ _ _ _ _ (streams s)); [done|cbn; lia].
  - destruct (format_to _ _ _) as [b|]; [|done]. cbn in Hs. simplify_eq.
    eapply (goto_left _ _ _ _ _ _ (streams s)); [done|unfold weight].
    pose proof (AddLine_length out level (FromBuffer (total level message))). lia.
  - simplify_eq. eapply (goto_left _ _ _ _ _ _ (streams s)); [done|cbn; lia].
  - destruct (read_source _ _); [|done]. cbn in Hs. simplify_eq. eapply goto_left; [done|cbn; lia].
  - simplify_eq. by eapply finish_left.
Qed.

(** Some thread can always move: the holder of the lock, or any. *)
Lemma progress s : inv out s → ¬ idle s → ∃ t, ∀ r s', step out t r s = Some s' → steps_left s' < steps_left s.
Proof.
  intros Hi Hn. destruct (flag (logger s)) eqn:Ef.
  - pose proof Hi as [_ Hh]. rewrite Ef in Hh. destruct Hh as (t & p & level & message & rest & Ht & _ & Hc).
    exists t. intros r s'. unfold step. rewrite Ht. intros Hs. eapply log_step_left; [done..|].
    intros [-> _]. done.
  - apply not_Forall_Exists in Hn; [|tc_solve]. apply Exists_exists in Hn as ([p cs] & [t Ht]%list_elem_of_lookup & Hcs).
    exists t. intros r s'. unfold step. rewrite Ht. cbn in Hcs. destruct cs as [|[level message|level] rest]; [done| |].
    + intros Hs. eapply log_step_left; [done..|]. rewrite Ef. by intros [_ [=]].
    + intros [= <-]. by eapply finish_left.
Qed.

(** A schedule that lets them, whatever the memory resource answers. *)
Lemma drains (r : answer) n s :
  r ≠ Throws → m_buffer (logger s) ≠ Freed → steps_left s ≤ n → inv out s →
  ∃ ts s', run out (map (λ t, (t, r)) ts) s = Some s' ∧ inv out s' ∧ idle s' ∧ length ts ≤ n.
Proof.
  intros Hr. revert s. induction n as [|n IH]; intros s Hb Hn Hi.
  all: destruct (decide (idle s)) as [Hd|Hd]; [exists [], s; split_and!; [done..|cbn; lia]|].
  all: destruct (progress s Hi Hd) as [t Ht]; pose proof (step_inv out s t r Hi) as Hs;
    destruct (step out t r s) as [s1|] eqn:Hs1; [|done]; cbn in Hs; specialize (Ht r s1 Hs1); try lia.
  destruct (IH s1) as (ts & s' & Hrun & Hi' & Hidle & Hlen); [|lia|done|].
  { intros Hf. destruct (step_freed out s t r s1 Hs1 Hf) as [|[]]; done. }
  exists (t :: ts), s'. cbn. rewrite Hs1. cbn. split_and!; [done..|lia].
Qed.
End progress.

(** ** Properties *)

Section reachable.
Context (out : LoggerOutput) (level : LogLevel) (scripts : list (list call)).

Definition reached (s : State) : Prop :=
  inv out s ∧ book scripts s ∧ filtered_by (in_force level scripts) s.

Lemma initial_reached : reached (initial level scripts).
Proof.
  split_and!.
  - split; [done|]. split; [|done]. intros t t' th _ Ht.
    apply list_lookup_fmap_Some in Ht as (cs & -> & _). done.
  - intros t. unfold calls_of. cbn. rewrite list_lookup_fmap. by destruct (scripts !! t).
  - split_and!; [by left| |by intros ? ? ? ? []%not_elem_of_nil].
    intros t p level' message rest o Ht. apply list_lookup_fmap_Some in Ht as (cs & [= -> _] & _). done.
Qed.

(** Somewhere in the schedule the buffer is lost. *)
Definition buffer_lost (schedule : list (nat * answer)) (s : State) : Prop :=
  ∃ pre t r post s1, schedule = pre ++ (t, r) :: post ∧ run out pre s = Some s1 ∧ loses_buffer t r s1.

Lemma run_reached schedule s :
  reached s →
  match run out schedule s with
  | Some s' => reached s'
      ∧ (m_buffer (logger s') = Freed → m_buffer (logger s) = Freed ∨ buffer_lost schedule s)
  | None => m_buffer (logger s) = Freed ∨ buffer_lost schedule s
  end.
Proof.
  revert s. induction schedule as [|[t r] schedule IH]; intros s Hs; [cbn; auto|].
  pose proof Hs as (Hi & Hb & Hf). pose proof (step_inv out s t r Hi) as Hgo. cbn [run].
  destruct (step out t r s) as [s1|] eqn:Hs1; cbn in Hgo |- *; [|by left].
  assert (Hlost : m_buffer (logger s1) = Freed ∨ buffer_lost schedule s1 →
    m_buffer (logger s) = Freed ∨ buffer_lost ((t, r) :: schedule) s).
  { intros [Hfr|(pre & t' & r' & post & s2 & -> & Hrun & Hl)].
    - destruct (step_freed out s t r s1 Hs1 Hfr); [by left|right]. by exists [], t, r, schedule, s.
    - right. exists ((t, r) :: pre), t', r', post, s2. cbn. by rewrite Hs1. }
  specialize (IH s1). destruct (run out schedule s1) as [s'|]; [|apply Hlost, IH].
  - destruct IH as [Hr Hfr]; [|by auto]. split_and!; eauto using step_book, step_filtered.
  - split_and!; eauto using step_book, step_filtered.
Qed.

Lemma not_lost schedule s : never_throws schedule → ¬ buffer_lost schedule s.
Proof.
  intros Hn (pre & t & r & post & s1 & -> & _ & [-> _]). apply Forall_app in Hn as [_ Hn].
  inversion_clear Hn. naive_solver.
Qed.

Lemma runs_without_throw schedule :
  never_throws schedule →
  ∃ s, run out schedule (initial level scripts) = Some s ∧ reached s ∧ m_buffer (logger s) ≠ Freed.
Proof.
  intros Hn. pose proof (run_reached schedule _ initial_reached) as Hr.
  destruct (run out schedule _) as [s|].
  - destruct Hr as [Hr Hf]. exists s. split_and!; [done..|]. intros E. destruct (Hf E); [done|].
    by eapply not_lost.
  - destruct Hr; [done|]. by exfalso; eapply not_lost.
Qed.

Lemma released s st :
  inv out s → flag (logger s) = false → streams s st = contents out (history s) st.
Proof. intros [_ Hi] Hf. rewrite Hf in Hi. apply Hi. Qed.

Lemma idle_released s : inv out s → idle s → flag (logger s) = false.
Proof.
  intros [_ Hi] Hd. destruct (flag (logger s)); [|done].
  destruct Hi as (t & p & level' & message & rest & Ht & _).
  unfold idle in Hd. rewrite Forall_lookup in Hd. by specialize (Hd t _ Ht).
Qed.

Lemma idle_ended s t : book scripts s → idle s → ended t (history s) = default [] (scripts !! t).
Proof.
  intros Hb Hd. rewrite <-Hb. unfold calls_of. destruct (threads s !! t) as [th|] eqn:Ht; cbn.
  - unfold idle in Hd. rewrite Forall_lookup in Hd. by rewrite (Hd t th Ht), app_nil_r.
  - by rewrite app_nil_r.
Qed.
End reachable.

(** C22: lines that threads log at the same time are written whole, unless the
    logger loses its buffer.  However the steps of the threads interleave and
    whatever the memory resource answers, the logger stays within its buffer, and
    while nobody holds its lock every stream holds the lines of the calls that have
    ended, one after the other, each with its prefix and its end of line; a line is
    left out when its level is above one that was in force or when its allocation
    throws, and replaced by a complaint when the allocation returns a null pointer;
    when all the calls have ended, they have ended in the order of their threads.
    The one exception: once the allocation for a longer line has thrown while the
    logger has a buffer, it keeps the pointer to the buffer it has given back;
    memory is then used after its end, and only then. *)
Theorem log_lines_whole out level scripts schedule :
  match run out schedule (initial level scripts) with
  | Some s =>
      (flag (logger s) = false → ∀ st, streams s st = contents out (history s) st)
      ∧ (∀ t, ended t (history s) `prefix_of` default [] (scripts !! t))
      ∧ (∀ t level' message o, (t, CLog level' message, o) ∈ history s →
           judged (in_force level scripts) level' o)
      ∧ (idle s → flag (logger s) = false ∧ ∀ t, ended t (history s) = default [] (scripts !! t))
      ∧ (m_buffer (logger s) = Freed → buffer_lost out schedule (initial level scripts))
  | None => buffer_lost out schedule (initial level scripts)
  end.
Proof.
  pose proof (run_reached out level scripts schedule _ (initial_reached _ _ _)) as Hr.
  destruct (run out schedule _) as [s|]; [destruct Hr as [(Hi & Hb & Hf) Hl]|by destruct Hr].
  split_and!; [by eauto using released| |apply Hf| |by intros E; destruct (Hl E)].
  - intros t. exists (calls_of (threads s) t). by rewrite Hb.
  - eauto using idle_released, idle_ended.
Qed.

Definition demo_output : LoggerOutput := AddFile true (AddStdStreams (mkLoggerOutput false None)).

Definition demo_scripts : list (list call) :=
  [[CLog ERROR [65; 66]; CLog TRACE [67]]; [CLog DEBUG [68]; CSetLevel ERROR]]%Z.

(** The second thread spins until the first one has written its line; the
    third line is filtered. *)
Definition demo_schedule : list (nat * answer) :=
  (λ t, (t, Allocated (λ _, 0%Z))) <$>
    [0; 1; 0; 1; 0; 1; 0; 0; 0; 1; 0; 0; 1; 0; 0; 0; 0; 1; 1; 1; 1; 1; 1; 1; 1; 1; 1; 1; 1].

Definition demo_final : option State := run demo_output demo_schedule (initial DEBUG demo_scripts).

Example demo_streams :
  (λ s, (streams s <$> [Stderr; Stdout; File], history s)) <$> demo_final
  = Some ([string_bytes "[ERROR] AB" ++ newline; string_bytes "[DEBUG] D" ++ newline;
           string_bytes "[ERROR] AB" ++ newline ++ string_bytes "[DEBUG] D" ++ newline],
          [(0, CLog ERROR [65; 66]%Z, Written); (0, CLog TRACE [67]%Z, Filtered);
           (1, CLog DEBUG [68]%Z, Written); (1, CSetLevel ERROR, Written)]).
Proof. vm_compute. reflexivity. Qed.

(** The logger never gets stuck: whatever happened before, as long as the memory
    resource does not throw, some order of the steps brings every call to its end,
    in no more than the [steps_left], eleven at most for each call; the lines are
    then all in their streams. *)
Theorem logger_drains out level scripts schedule r :
  never_throws schedule → r ≠ Throws →
  ∃ s ts s', run out schedule (initial level scripts) = Some s
  ∧ run out (map (λ t, (t, r)) ts) s = Some s' ∧ idle s' ∧ length ts ≤ steps_left s
  ∧ ∀ st, streams s' st = contents out (history s') st.
Proof.
  intros Hs Hr. destruct (runs_without_throw out level scripts schedule Hs) as (s & Hrun & (Hi & Hb & Hf) & Hne).
  destruct (drains out r (steps_left s) s Hr Hne (le_n _) Hi) as (ts & s' & Hrun' & Hi' & Hd & Hl).
  exists s, ts, s'. split_and!; eauto using released, idle_released.
Qed.

Lemma logger_drains_witness :
  ∃ s ts s', run demo_output (take 12 demo_schedule) (initial DEBUG demo_scripts) = Some s
  ∧ run demo_output (map (λ t, (t, NullPointer)) ts) s = Some s' ∧ idle s'.
Proof.
  destruct (logger_drains demo_output DEBUG demo_scripts (take 12 demo_schedule) NullPointer)
    as (s & ts & s' & Hrun & Hrun' & Hd & _).
  - unfold never_throws. vm_compute. repeat constructor; intros [=].
  - intros [=].
  - exists s, ts, s'. split; [exact Hrun|]. split; [exact Hrun'|exact Hd].
Defined.

(** Without memory for a longer line the old buffer is kept although it was given
    back: the next line is written to it, or it is given back again. *)
Example freed_buffer_is_used :
  let after message := run demo_output
    ((λ r, (0, r)) <$> repeat (Allocated (λ _, 0%Z)) 11 ++ repeat Throws 4 ++ repeat (Allocated (λ _, 0%Z)) 4)
    (initial TRACE [[CLog INFO [65]; CLog INFO [65; 66]; CLog INFO message]%Z]) in
  after [67]%Z = None ∧ after [67; 68; 69]%Z = None.
Proof. split; vm_compute; reflexivity. Qed.
