(* ===== verification/ApiTransaction.v ===== *)
(** * ApiTransaction: transactions as the bindings see them
    ([src/src/api/Common.h], [Context.h], and the transactions of [ByteStream.h],
    [Jtag.h], [JtagChain.h], [APB.h], [RVDTM.h], [ExecutionGate.h]).

    Languages other than C++ use a transaction through an object that is built,
    scheduled, waited for and then walked action by action.  The object holds a
    builder, the task of a scheduled transaction, and an iterator; which of them
    are there is the state machine of this file.  Names of transactions live in
    slots of the context.  A null pointer that is followed, and a result that is
    read before it is there, are [None]. *)
From S2P Require Import Prelude BitStream Actions FreeList Transaction TransactionBuffer VSS ActionLayout Storage Errors Driver Printing.
From stdpp Require Import strings.
Local Open Scope nat_scope.

(** ** Names, [TransactionNameGuard] *)

(** The strings are in memory that the vector [m_slots] moves when it grows;
    [m_block] counts the moves.  The vector [m_free_slots] has its back first. *)
Record NameGuard := mkNames {
  m_slots : list string;
  m_free_slots : list nat;
  m_capacity : nat;
  m_block : nat;
}.

(** A [std::string_view] of a name: the characters of a small string are inside of
    the string itself, and so in the memory of the vector. *)
Record NameView := mkView { v_slot : nat; v_block : nat }.

Section names.
Context (grow : nat → nat) (small : string → bool).

(** [m_slots.emplace_back]. *)
Definition emplace_back (name : string) (g : NameGuard) : NameGuard :=
  if length (m_slots g) <? m_capacity g
  then mkNames (m_slots g ++ [name]) (m_free_slots g) (m_capacity g) (m_block g)
  else mkNames (m_slots g ++ [name]) (m_free_slots g) (grow (m_capacity g)) (S (m_block g)).

Definition AllocateName (name : string) (g : NameGuard) : NameView * NameGuard :=
  match m_free_slots g with
  | slot :: rest =>
      (mkView slot (m_block g), mkNames (<[slot := name]> (m_slots g)) rest (m_capacity g) (m_block g))
  | [] =>
      let g' := emplace_back name g in (mkView (length (m_slots g)) (m_block g'), g')
  end.

(** The end of the coroutine [TransactionNameGuard::Schedule]. *)
Definition FreeName (slot : nat) (g : NameGuard) : NameGuard :=
  mkNames (m_slots g) (slot :: m_free_slots g) (m_capacity g) (m_block g).

(** The characters behind a view: gone if they were moved. *)
Definition read_name (v : NameView) (g : NameGuard) : option string :=
  name ← m_slots g !! v_slot v;
  check (negb (small name) || (v_block v =? m_block g));;
  Some name.
End names.

(** ** The object *)

(** What [m_task] holds: a null task if its frame was not allocated, a coroutine that
    is running, or the result. *)
Inductive Task := TaskNull | TaskPending (frame : nat) | TaskDone (st : Status).

(** [m_valid]: [m_context_sp] and [m_driver] are not null. *)
Record ApiTx := mkApiTx {
  m_valid : bool;
  m_name_cookie : nat;
  m_builder : option (OwnedStorage * NameView);
  m_task : option Task;
  m_iterator : option ActionPosition;
}.

(** The default constructor. *)
Definition no_transaction : ApiTx := mkApiTx false 0 None None None.

Definition set_task (task : option Task) (tx : ApiTx) : ApiTx :=
  mkApiTx (m_valid tx) (m_name_cookie tx) (m_builder tx) task (m_iterator tx).
Definition set_iterator (it : option ActionPosition) (tx : ApiTx) : ApiTx :=
  mkApiTx (m_valid tx) (m_name_cookie tx) (m_builder tx) (m_task tx) it.
Definition set_builder (b : option (OwnedStorage * NameView)) (tx : ApiTx) : ApiTx :=
  mkApiTx (m_valid tx) (m_name_cookie tx) b (m_task tx) (m_iterator tx).

Definition Done (tx : ApiTx) : bool :=
  match m_task tx with Some (TaskPending _) => false | _ => true end.

(** [**m_task] of a task that runs is not there. *)
Definition Success (tx : ApiTx) : option bool :=
  match m_task tx with
  | None | Some TaskNull => Some false
  | Some (TaskPending _) => None
  | Some (TaskDone st) => Some (status_ok st)
  end.

Definition storage_of (st : Status) : TransactionStorage := buffers (m_storage st).

(** [ActionSuccess] makes the iterator on first use. *)
Definition ActionSuccess (tx : ApiTx) : bool * ApiTx :=
  match m_task tx with
  | Some (TaskDone st) =>
      let it := default (begin_pos (storage_of st)) (m_iterator tx) in
      (negb (bool_decide (it.1 = (m_first_incomplete st).1)), set_iterator (Some it) tx)
  | _ => (false, tx)
  end.

Section transaction.
Context `{ShiftUB} (d : DriverID).

(** [ErrorMessage]. *)
Definition ErrorMessage (strerror : Z → string) (unknown_id : ActionError → Z) (tx : ApiTx)
    : option string :=
  match m_task tx with
  | None => Some "Not scheduled"
  | Some TaskNull => Some "Failed to schedule due to allocation failure"
  | Some (TaskPending _) => None
  | Some (TaskDone st) =>
      mb ← GetError (m_error_buffer st);
      match mb with
      | None => Some (if status_ok st then EmptyString else "Unknown or corrupted error")
      | Some mem =>
          x ← view ActionError_ty mem []; e ← decode_error x; Some (print_error strerror unknown_id e)
      end
  end.

(** [*m_iterator]: the action and its result. *)
Definition current (tx : ApiTx) : option (AnyAction * tree) :=
  match m_task tx, m_iterator tx with
  | Some (TaskDone st), Some pos => act ← deref d (storage_of st) pos; visit d act
  | _, _ => None
  end.

Definition Next (tx : ApiTx) : option ApiTx :=
  let '(ok, tx) := ActionSuccess tx in
  if ok then
    match m_task tx, m_iterator tx with
    | Some (TaskDone st), Some pos =>
        pos ← incr d (storage_of st) pos; Some (set_iterator (Some pos) tx)
    | _, _ => None
    end
  else Some tx.

Fixpoint NextN (num : nat) (tx : ApiTx) : option ApiTx :=
  match num with O => Some tx | S num => tx ← Next tx; NextN num tx end.

(** The shape of every [Get...]: nothing without a complete action. *)
Definition getter {A : Type} (none : A) (get : AnyAction * tree → option A) (tx : ApiTx) : option (A * ApiTx) :=
  let '(ok, tx) := ActionSuccess tx in
  if ok then ax ← current tx; x ← get ax; Some (x, tx) else Some (none, tx).
End transaction.

(** ** Results *)

(** [ByteStreamTransaction]. *)
Definition num_written (ax : AnyAction * tree) : option Z :=
  match ax with
  | (AnyByteStream (WriteBytes _), TPlain b) => Some (word_at b 0)
  | _ => Some 0%Z
  end.

(** [GetReadBytes]: what is copied to [dest]; the span is as long as the driver
    says, the memory behind it as long as the request was. *)
Definition read_bytes (size : nat) (ax : AnyAction * tree) : option (list Z) :=
  match ax with
  | (AnyByteStream (ReadBytes _), TStruct h [TArray data]) =>
      let n := Z.to_nat (word_at h 0) in
      let to_copy := size `min` n in
      check (to_copy <=? length data);; Some (take to_copy data)
  | _ => Some []
  end.

(** [JtagTransaction]. *)
Definition num_bits_put (ax : AnyAction * tree) : option Z :=
  match ax with
  | (AnyJtag (PutTMS _), TPlain b) | (AnyJtag (PutTDI _ _), TPlain b)
  | (AnyJtag (PutTDIGetTDO _ _), TStruct b _) => Some (word_at b 0)
  | _ => None
  end.

(** The words that hold the bits of a result. *)
Definition bit_words (bits : list bool) : list Z :=
  (λ i, bits_z (take 32 (drop (32 * i) bits))) <$> seq 0 ((length bits + 31) / 32).

Section bits.
Context `{ShiftUB}.

(** [GetTDO]: the number of bits, and [dest_bits] after it. *)
Definition tdo (dest : list Z) (max_num_bits : nat) (ax : AnyAction * tree) : option (nat * list Z) :=
  match ax with
  | (AnyJtag (PutTDIGetTDO _ _), TStruct h [TBits bits]) =>
      src_stream ← make 32 0 (Z.to_nat (word_at h 0)) 0;
      dest_stream ← make 8 0 max_num_bits 0;
      '(n, dest, _, _) ← WriteStream 8 32 dest dest_stream (bit_words bits) src_stream max_num_bits;
      Some (n, dest)
  | _ => Some (0, dest)
  end.

(** [JtagChainTransaction::GetShiftedData]. *)
Definition shifted_data (ax : AnyAction * tree) : option Z :=
  match ax with
  | (AnyJtagChain (JCShiftDR _), TStruct h [TBits bits]) =>
      dest_stream ← make 64 0 64 0;
      src_stream ← make 32 0 (Z.to_nat (word_at h 0)) 0;
      '(_, output, _, _) ← WriteStream 64 32 [0%Z] dest_stream (bit_words bits) src_stream (GetNumBits src_stream);
      output !! 0
  | _ => Some 0%Z
  end.
End bits.

(** [APBTransaction] and [RVDTMTransaction]. *)
Definition read_data (ax : AnyAction * tree) : option Z :=
  match ax with
  | (AnyAPB (APBRead _), TPlain b) | (AnyRVDTM (RVReadDMI _), TPlain b) => Some (word_at b 0)
  | _ => Some 0%Z
  end.

(** [ExecutionGateTransaction]. *)
Definition effective_mode (ax : AnyAction * tree) : option Z :=
  match ax with
  | (AnyExecutionGate (SetExecutionGateMode _), TPlain b) => Some (word_at b 0)
  | _ => Some 0%Z
  end.

Section getters.
Context `{ShiftUB}.

Definition GetNumWrittenBytes : ApiTx → option (Z * ApiTx) := getter IDByteStream 0%Z num_written.
Definition GetReadBytes (size : nat) : ApiTx → option (list Z * ApiTx) :=
  getter IDByteStream [] (read_bytes size).
Definition GetNumBitsPut : ApiTx → option (Z * ApiTx) := getter IDJtag 0%Z num_bits_put.
Definition GetTDO (dest : list Z) (max_num_bits : nat) : ApiTx → option (nat * list Z * ApiTx) :=
  getter IDJtag (0, dest) (tdo dest max_num_bits).
Definition GetShiftedData : ApiTx → option (Z * ApiTx) := getter IDJtagChain 0%Z shifted_data.
Definition GetReadData (d : DriverID) : ApiTx → option (Z * ApiTx) := getter d 0%Z read_data.
Definition GetEffectiveMode : ApiTx → option (Z * ApiTx) := getter IDExecutionGate 0%Z effective_mode.
End getters.

(** ** Building *)

(** The functions that add actions, with their arguments; bits come from bytes or
    from a 64-bit number. *)
Inductive ByteStreamCall :=
| CallWriteBytes (src : list Z)
| CallReadBytes (num_bytes : nat).

Inductive JtagCall :=
| CallPutTMS (src : list Z) (num_bits : nat)
| CallPutTDI (src : list Z) (num_bits : nat) (last_tms : Z)
| CallPutTDIGetTDO (src : list Z) (num_bits : nat) (last_tms : Z).

Inductive ExecutionGateCall := CallSetMode (mode : Z).

Inductive APBCall :=
| CallAPBSkipCycles (num_cycles : Z)
| CallAPBWrite (address data : Z)
| CallAPBRead (address : Z)
| CallSetPSEL (psel : Z).

Inductive JtagChainCall :=
| CallForgetChainStructure
| CallSetIRLength (tap_id ir_length : nat)
| CallGoToState (state wait_for_cycles : nat)
| CallSelectTAP (tap_id : nat)
| CallWriteIR (value : Z)
| CallWriteDR (data : Z) (num_data_bits : nat)
| CallShiftDR (data : Z) (num_data_bits : nat).

Inductive RVDTMCall :=
| CallDMISkipCycles (num_cycles : Z)
| CallDMIWrite (address data : Z)
| CallDMIRead (address : Z).

Inductive api_call :=
| OnByteStream (c : ByteStreamCall)
| OnJtag (c : JtagCall)
| OnExecutionGate (c : ExecutionGateCall)
| OnAPB (c : APBCall)
| OnJtagChain (c : JtagChainCall)
| OnRVDTM (c : RVDTMCall).

Section calls.
(** The fields of a result are whatever was in the memory. *)
Context (garbage : list Z).

Definition bits_value (header : Z) (wU : nat) (src : list Z) (num_bits : nat) : val :=
  VStruct (word header) [VBits wU src (mkBitStream 0 0 num_bits)].

Definition bits_of (wU : nat) (src : list Z) (num_bits : nat) : list bool :=
  contents wU src (mkBitStream 0 0 num_bits).
#[global] Arguments bits_of : simpl never.

Definition no_field : val := VPlain [].
Definition one_field : val := VPlain garbage.
Definition field_and (n : nat) : val := VStruct garbage [VReserve (Z.of_nat n)].

(** The bit-field [last_tms] keeps the lowest bit. *)
Definition tdi_header (num_bits : nat) (last_tms : Z) : Z :=
  (wrap 31 (Z.of_nat num_bits) + 2 ^ 31 * Z.b2z (Z.odd last_tms))%Z.

(** The action, and what its constructor and that of its result are given. *)
Definition request_ByteStream (c : ByteStreamCall) : Request :=
  match c with
  | CallWriteBytes src =>
      (AnyByteStream (WriteBytes src), VStruct (word (Z.of_nat (length src))) [VBytes src], one_field)
  | CallReadBytes n => (AnyByteStream (ReadBytes n), VPlain (word (Z.of_nat n)), field_and n)
  end.

Definition request_Jtag (c : JtagCall) : Request :=
  match c with
  | CallPutTMS src n =>
      (AnyJtag (PutTMS (bits_of 8 src n)), bits_value (Z.of_nat n) 8 src n, one_field)
  | CallPutTDI src n last_tms =>
      (AnyJtag (PutTDI (bits_of 8 src n) (Z.odd last_tms)), bits_value (tdi_header n last_tms) 8 src n,
       one_field)
  | CallPutTDIGetTDO src n last_tms =>
      (AnyJtag (PutTDIGetTDO (bits_of 8 src n) (Z.odd last_tms)),
       bits_value (tdi_header n last_tms) 8 src n, field_and n)
  end.

Definition request_ExecutionGate (c : ExecutionGateCall) : Request :=
  match c with
  | CallSetMode mode => (AnyExecutionGate (SetExecutionGateMode mode), VPlain (word mode), one_field)
  end.

Definition request_APB (c : APBCall) : Request :=
  match c with
  | CallAPBSkipCycles n => (AnyAPB (APBSkipCycles n), VPlain (word n), no_field)
  | CallAPBWrite address data =>
      (AnyAPB (APBWrite address data), VPlain (word address ++ word data), no_field)
  | CallAPBRead address => (AnyAPB (APBRead address), VPlain (word address), one_field)
  | CallSetPSEL psel => (AnyAPB (APBSetPSEL psel), VPlain (word psel), no_field)
  end.

Definition request_JtagChain (c : JtagChainCall) : Request :=
  match c with
  | CallForgetChainStructure => (AnyJtagChain JCForgetChainStructure, no_field, no_field)
  | CallSetIRLength tap_id n =>
      (AnyJtagChain (JCSetIRLength tap_id n), VPlain (word (Z.of_nat tap_id) ++ word (Z.of_nat n)), no_field)
  | CallGoToState state n =>
      (AnyJtagChain (JCGoToState state n), VPlain (word (Z.of_nat state) ++ word (Z.of_nat n)), no_field)
  | CallSelectTAP tap_id => (AnyJtagChain (JCSelectTAP tap_id), VPlain (word (Z.of_nat tap_id)), no_field)
  | CallWriteIR value => (AnyJtagChain (JCWriteIR value), VPlain (word value), no_field)
  | CallWriteDR data n =>
      (AnyJtagChain (JCWriteDR (bits_of 64 [data] n)), bits_value (Z.of_nat n) 64 [data] n, no_field)
  | CallShiftDR data n =>
      (AnyJtagChain (JCShiftDR (bits_of 64 [data] n)), bits_value (Z.of_nat n) 64 [data] n, field_and n)
  end.

Definition request_RVDTM (c : RVDTMCall) : Request :=
  match c with
  | CallDMISkipCycles n => (AnyRVDTM (RVSkipCycles n), VPlain (word n), no_field)
  | CallDMIWrite address data =>
      (AnyRVDTM (RVWriteDMI address data), VPlain (word address ++ word data), no_field)
  | CallDMIRead address => (AnyRVDTM (RVReadDMI address), VPlain (word address), one_field)
  end.

Definition request_of (c : api_call) : Request :=
  match c with
  | OnByteStream c => request_ByteStream c
  | OnJtag c => request_Jtag c
  | OnExecutionGate c => request_ExecutionGate c
  | OnAPB c => request_APB c
  | OnJtagChain c => request_JtagChain c
  | OnRVDTM c => request_RVDTM c
  end.

(** The arguments are within their types, bits are there to be read, and fit the
    field for their number. *)
Definition call_fits (c : api_call) : Prop :=
  match c with
  | OnByteStream (CallWriteBytes src) => small (Z.of_nat (length src))
  | OnByteStream (CallReadBytes n) | OnJtagChain (CallSelectTAP n) => small (Z.of_nat n)
  | OnJtag (CallPutTMS src n) => small (Z.of_nat n) ∧ n ≤ 8 * length src
  | OnJtag (CallPutTDI src n _) | OnJtag (CallPutTDIGetTDO src n _) =>
      (Z.of_nat n < 2 ^ 31)%Z ∧ n ≤ 8 * length src
  | OnExecutionGate (CallSetMode x) | OnAPB (CallAPBSkipCycles x) | OnAPB (CallAPBRead x)
  | OnAPB (CallSetPSEL x) | OnJtagChain (CallWriteIR x) | OnRVDTM (CallDMISkipCycles x)
  | OnRVDTM (CallDMIRead x) => small x
  | OnAPB (CallAPBWrite x y) | OnRVDTM (CallDMIWrite x y) => small x ∧ small y
  | OnJtagChain CallForgetChainStructure => True
  | OnJtagChain (CallSetIRLength x y) | OnJtagChain (CallGoToState x y) =>
      small (Z.of_nat x) ∧ small (Z.of_nat y)
  | OnJtagChain (CallWriteDR _ n) | OnJtagChain (CallShiftDR _ n) => n ≤ 64
  end.

Definition call_driver (c : api_call) : DriverID := action_driver (request_of c).1.1.

Lemma bits_value_ok header wU src n :
  0 < wU → n ≤ wU * length src →
  bits_args header (bits_of wU src n) (bits_value header wU src n).
Proof.
  intros Hw Hn. exists wU, src, (mkBitStream 0 0 n). split; [|done].
  split; [done|done|]. unfold pos. cbn. lia.
Qed.

Lemma num_bits_of wU src n : num_bits (bits_of wU src n) = Z.of_nat n.
Proof. unfold num_bits, bits_of. by rewrite length_contents. Qed.

(** What the functions add is what the constructors expect. *)
Lemma request_of_ok d c :
  length garbage = 4 → call_fits c → call_driver c = d → request_ok d (request_of c).
Proof.
  intros Hg Hc Hd. unfold request_ok, call_driver in *.
  destruct c as [[]|[]|[]|[]|[]|[]]; cbn in Hc, Hd |- *; unfold out_args; cbn; rewrite ?num_bits_of; unfold small in *;
    split_and!; try done; try lia; try (by eexists); apply bits_value_ok; cbn; lia.
Qed.
End calls.

(** ** The life of the object *)

Section life.
Context `{ShiftUB} `{FreshBytes} (t_min_chunk_size : nat) (alloc : nat → bool) (garbage : list Z).

(** [Initiate], with a name that was allocated and a builder of the driver. *)
Definition initiated (name : NameView) (builder : OwnedStorage) : ApiTx :=
  mkApiTx true (v_slot name) (Some (builder, name)) None None.

(** [m_builder->Add<T>(...)]. *)
Definition AddCall (c : api_call) (o : ApiTx) : option ApiTx :=
  match m_builder o with
  | None => Some o
  | Some (b, name) =>
      let '(id, args, out_args) := add_args (request_of garbage c) in
      '(_, s) ← Storage.Add t_min_chunk_size alloc (buffers b) id args out_args;
      Some (set_builder (Some (mkOwned (owner b) s, name)) o)
  end.

Fixpoint AddCalls (cs : list api_call) (o : ApiTx) : option ApiTx :=
  match cs with [] => Some o | c :: cs => o ← AddCall c o; AddCalls cs o end.

(** [Schedule]: what is handed to the driver, under the number of the coroutine
    frame if there was memory for it. *)
Definition Schedule (frame : option nat) (o : ApiTx) : bool * option (OwnedStorage * NameView) * ApiTx :=
  match m_builder o with
  | None => (false, None, o)
  | Some b =>
      let task := match frame with Some f => TaskPending f | None => TaskNull end in
      (true, Some b, set_builder None (set_task (Some task) o))
  end.

(** The coroutine returns. *)
Definition resolved (frame : nat) (st : Status) (o : ApiTx) : ApiTx :=
  match m_task o with
  | Some (TaskPending f) => if f =? frame then set_task (Some (TaskDone st)) o else o
  | _ => o
  end.

(** The calls append to the buffers of the builder. *)
Lemma AddCalls_builder cs b name slot valid task it ps s :
  add_all t_min_chunk_size alloc (buffers b) (add_args ∘ request_of garbage <$> cs) = Some (ps, s) →
  AddCalls cs (mkApiTx valid slot (Some (b, name)) task it)
  = Some (mkApiTx valid slot (Some (mkOwned (owner b) s, name)) task it).
Proof.
  revert b ps. induction cs as [|c cs IH]; intros b ps; cbn [fmap list_fmap add_all AddCalls].
  { intros [= _ <-]. by destruct b. }
  unfold AddCall. cbn [m_builder compose]. destruct (add_args (request_of garbage c)) as [[id args] oargs].
  destruct (Storage.Add _ _ (buffers b) id args oargs) as [[p s1]|]; [|done]. cbn [mbind option_bind].
  destruct (add_all _ _ s1 _) as [[ps1 s2]|] eqn:Hrest; [|done]. cbn [mbind option_bind]. intros [= _ <-].
  by apply (IH (mkOwned (owner b) s1) ps1).
Qed.
End life.

(** ** Walking a transaction *)

Section walking.
Context `{ShiftUB} (d : DriverID) (rs : list Request) (Hne : rs ≠ []) (Hsize : (total_request_size rs < 2 ^ 62)%Z).
Context (s : TransactionStorage) (gi go : list (list (list Z))) (l : list (AnyAction * tree)).
Context (st : Status) (tx : Tx AnyAction tree) (Hr : refines d rs s gi go l st tx).

Local Abbreviation last := (Transaction.m_first_incomplete tx).

(** The object stands at the [k]th action. *)
Definition walks (k : nat) (o : ApiTx) : Prop :=
  m_task o = Some (TaskDone st) ∧ iterator d s k = Some (default (begin_pos s) (m_iterator o)).

Lemma last_in_l : last ≤ length l.
Proof. pose proof (ref_wf _ _ _ _ _ _ _ _ Hr) as Hw. unfold tx_wf in Hw. by rewrite (ref_End _ _ _ _ _ _ _ _ Hr) in Hw. Qed.

Lemma storage_is : storage_of st = s.
Proof. unfold storage_of. by rewrite (ref_storage _ _ _ _ _ _ _ _ Hr). Qed.

Lemma ActionSuccess_at k o : walks k o → k ≤ last →
  ∃ pos, iterator d s k = Some pos ∧ ActionSuccess o = (k <? last, set_iterator (Some pos) o).
Proof.
  intros [Ht Hit] Hk. exists (default (begin_pos s) (m_iterator o)). split; [done|].
  unfold ActionSuccess. rewrite Ht, storage_is. f_equal.
  pose proof (ref_first _ _ _ _ _ _ _ _ Hr) as Hf. pose proof last_in_l.
  destruct (Nat.ltb_spec k last) as [Hlt|Hge].
  - rewrite bool_decide_eq_false_2; [done|].
    eapply iterator_apart; [done|done|apply Hr|exact Hit|exact Hf|lia..].
  - replace k with last in Hit by lia. rewrite Hit in Hf. injection Hf as ->. by rewrite bool_decide_eq_true_2.
Qed.

Lemma current_at k o pos a x :
  m_task o = Some (TaskDone st) → iterator d s k = Some pos → l !! k = Some (a, x) →
  current d (set_iterator (Some pos) o) = Some (a, x).
Proof.
  intros Ht Hpos Hl. pose proof (ref_held _ _ _ _ _ _ _ _ Hr) as Hh.
  destruct (iterator_at d rs Hne Hsize s gi go l Hh k) as (pos' & Hpos' & Hst);
    [apply lookup_lt_Some in Hl; lia|]. simplify_eq.
  destruct (step_at d rs Hsize s gi go l Hh k pos a x Hl Hst) as (act & _ & Hde & Hv & _).
  unfold current. cbn [m_task set_iterator m_iterator]. rewrite Ht, storage_is, Hde. done.
Qed.

Lemma Next_at k o : walks k o → k ≤ last → ∃ o', Next d o = Some o' ∧ walks (S k `min` last) o'.
Proof.
  intros Hw Hk. destruct (ActionSuccess_at k o Hw Hk) as (pos & Hpos & Ha). destruct Hw as [Ht _].
  unfold Next. rewrite Ha. destruct (Nat.ltb_spec k last) as [Hlt|Hge].
  - cbn [m_task set_iterator m_iterator]. rewrite Ht, storage_is. destruct (iterator_at d rs Hne Hsize s gi go l (ref_held _ _ _ _ _ _ _ _ Hr) (S k))
      as (next & Hnext & _); [pose proof last_in_l; lia|].
    pose proof Hnext as Hincr. cbn [iterator] in Hincr. rewrite Hpos in Hincr. cbn [mbind option_bind] in Hincr.
    rewrite Hincr. cbn [mbind option_bind].
    eexists. split; [done|]. split; [done|]. cbn [m_iterator set_iterator default from_option id]. by rewrite Nat.min_l by lia.
  - eexists. split; [done|]. split; [done|].
    cbn [m_iterator set_iterator default from_option id]. by replace (S k `min` last) with k by lia.
Qed.

Lemma NextN_at n k o : walks k o → k ≤ last → ∃ o', NextN d n o = Some o' ∧ walks ((k + n) `min` last) o'.
Proof.
  revert k o. induction n as [|n IH]; intros k o Hw Hk; cbn.
  - exists o. by rewrite Nat.add_0_r, Nat.min_l by lia.
  - destruct (Next_at k o Hw Hk) as (o1 & -> & Hw1). cbn.
    destruct (IH _ o1 Hw1) as (o2 & -> & Hw2); [lia|]. exists o2. split; [done|].
    by replace ((k + S n) `min` last) with ((S k `min` last + n) `min` last) by lia.
Qed.

Lemma getter_at {A} k o (none : A) get : walks k o → k ≤ last →
  ∃ o', walks k o' ∧ getter d none get o
    = (x ← (if k <? last then ax ← seen tx k; get ax else Some none); Some (x, o')).
Proof.
  intros Hw Hk. destruct (ActionSuccess_at k o Hw Hk) as (pos & Hpos & Ha). destruct Hw as [Ht _].
  exists (set_iterator (Some pos) o). split; [by split|]. unfold getter. rewrite Ha.
  destruct (Nat.ltb_spec k last) as [Hlt|Hge]; [|done].
  destruct (lookup_lt_is_Some_2 l k) as [[a x] Hl]; [pose proof last_in_l; lia|].
  rewrite (current_at k o pos a x Ht Hpos Hl).
  assert (seen tx k = Some (a, x)) as ->; [|done]. unfold seen.
  by rewrite (ref_ins _ _ _ _ _ _ _ _ Hr), (ref_outs _ _ _ _ _ _ _ _ Hr), !list_lookup_fmap, Hl.
Qed.

(** What is said about the outcome. *)
Lemma Success_at k o : walks k o → Success o = Some (Transaction.status_ok tx).
Proof. intros [Ht _]. unfold Success. rewrite Ht. f_equal. by eapply refines_ok. Qed.

Definition message (strerror : Z → string) (unknown_id : ActionError → Z) : string :=
  match Transaction.m_error_buffer tx with
  | Some e => print_error strerror unknown_id e
  | None => if Transaction.status_ok tx then EmptyString else "Unknown or corrupted error"
  end.

Lemma ErrorMessage_at k o strerror unknown_id : walks k o →
  ErrorMessage strerror unknown_id o = Some (message strerror unknown_id).
Proof.
  intros [Ht _]. unfold ErrorMessage, message. rewrite Ht.
  pose proof (error_kept_seen _ _ (ref_error _ _ _ _ _ _ _ _ Hr)) as He. unfold error_seen in He.
  destruct (m_error_buffer st) as [eb|], (Transaction.m_error_buffer tx) as [e|]; try done.
  - destruct He as (mem & x & -> & Hv & Hd). cbn. by rewrite Hv; cbn; rewrite Hd.
  - cbn. by rewrite (refines_ok d rs Hne Hsize _ _ _ _ _ _ Hr).
Qed.
End walking.

(** ** Results made of bits *)

Lemma bit_words_at bits p : p < length bits → bit_at 32 (bit_words bits) p = default false (bits !! p).
Proof.
  intros Hp. unfold bit_at, bit_words. rewrite list_lookup_fmap, lookup_seq_lt.
  2: { pose proof (Nat.div_mod p 32 ltac:(done)). pose proof (Nat.div_mod (length bits + 31) 32 ltac:(done)).
       pose proof (Nat.mod_upper_bound (length bits + 31) 32 ltac:(done)). lia. }
  cbn [fmap option_map option_fmap]. rewrite testbit_bits_z, lookup_take_lt, lookup_drop
    by (apply Nat.mod_upper_bound; done).
  by rewrite Nat.add_0_l, <-(Nat.div_mod p 32) by done.
Qed.

Lemma bit_words_stream bits n : n ≤ length bits →
  wf 32 (bit_words bits) (mkBitStream 0 0 n) ∧ contents 32 (bit_words bits) (mkBitStream 0 0 n) = take n bits.
Proof.
  intros Hn. split.
  - split; [lia|cbn; lia|]. unfold bit_words, pos. cbn [BitStream.m_storage BitStream.m_offset m_remaining].
    rewrite length_fmap, length_seq.
    pose proof (Nat.div_mod (length bits + 31) 32 ltac:(done)).
    pose proof (Nat.mod_upper_bound (length bits + 31) 32 ltac:(done)). lia.
  - apply list_eq. intros i. rewrite lookup_contents. cbn [m_remaining]. destruct (Nat.ltb_spec i n) as [Hi|Hi].
    + rewrite lookup_take_lt by done. change (pos 32 (mkBitStream 0 0 n) + i) with i.
      rewrite bit_words_at by lia. destruct (lookup_lt_is_Some_2 bits i) as [b ->]; [lia|done].
    + by rewrite lookup_take_ge.
Qed.

Lemma make_start `{ShiftUB} w n : 0 < w → make w 0 n 0 = Some (mkBitStream 0 0 n).
Proof. intros. unfold make. cbn. by rewrite Nat.Div0.div_0_l, Nat.Div0.mod_0_l, Nat.sub_0_r. Qed.

(** ** Properties *)

Section properties.
Context `{ShiftUB} `{FreshBytes}.

(** C19: what a client of the bindings sees of a transaction.  The calls that it
    made are the actions that the driver gets, in order; after the driver has
    written results, completed and failed actions in any order, the object tells
    the outcome and the text of the error, and after any number of [Next]s a
    [Get...] function gives what it makes of the action and the result at that
    index while the action is complete, and its default value afterwards. *)
Theorem api_sees_results (min_size : nat) (garbage : list Z) (d : DriverID) (pool : Pool) (name : NameView)
    (cs : list api_call) (ops : list tx_op) (frame : nat)
    (Hfresh : ∀ n, length (fresh_bytes n) = n) (Hgarbage : length garbage = 4)
    (Hpool : Forall reusable (full pool)) (Hcs : Forall call_fits cs)
    (Hd : Forall (λ c, call_driver garbage c = d) cs) (Hne : cs ≠ [])
    (Hsize : (total_request_size (request_of garbage <$> cs) < 2 ^ 62)%Z)
    (Hops : Forall (legal (request_of garbage <$> cs)) ops) :
  let '(b, pool1, _) := Initiate pool None in
  ∃ o builder scheduled st pool' l,
    AddCalls min_size (λ _, true) garbage cs (initiated name b) = Some o
    ∧ Schedule (Some frame) o = (true, Some (builder, name), scheduled) ∧ Done scheduled = false
    ∧ Driver.Schedule min_size (λ _, true) d (S (length cs)) true
        (λ st pool w, '(st, pool) ← run_ops min_size (λ _, true) d st pool ops; Some (st, pool, w))
        pool1 builder tt = Some (st, pool', tt)
    ∧ Forall2 shown (request_of garbage <$> cs) l
    ∧ let tx := foldl tx_step (begin_tx (l.*1, l.*2) false) ops in
      let result := resolved frame st scheduled in
      Done result = true ∧ Success result = Some (Transaction.status_ok tx)
      ∧ (∀ strerror unknown_id, ErrorMessage strerror unknown_id result = Some (message tx strerror unknown_id))
      ∧ ∀ n, ∃ o', NextN d n result = Some o'
        ∧ ∀ (A : Type) (none : A) get, ∃ o'', getter d none get o'
            = (x ← (if n <? Transaction.m_first_incomplete tx then ax ← seen tx n; get ax else Some none);
               Some (x, o'')).
Proof.
  set (rs := request_of garbage <$> cs).
  assert (Hok : Forall (request_ok d) rs).
  { apply Forall_fmap, Forall_forall. intros c Hc. rewrite Forall_forall in Hcs, Hd.
    apply request_of_ok; auto. }
  assert (Hrs : rs ≠ []) by (by destruct cs).
  destruct (Do_refines min_size d pool rs ops Hfresh Hpool Hok Hrs Hsize Hops)
    as (l & ps & st & pool' & s & gi & go & l' & Hshown & Hdo & Hr).
  unfold Do, Initiate in *. destruct (take_storage pool) as [b pool1].
  destruct (add_all _ _ (buffers b) (add_args <$> rs)) as [[ps' s']|] eqn:Hadd; [|done].
  cbn [mbind option_bind] in Hdo. subst rs. rewrite length_fmap in Hdo.
  destruct (Driver.Schedule _ _ _ _ _ _ _ _ _) as [[[st' pool2] []]|] eqn:Hsch; [|done].
  injection Hdo as -> -> ->. rewrite <-list_fmap_compose in Hadd.
  eexists _, (mkOwned (owner b) s'), _, st, pool', l.
  split; [eapply AddCalls_builder; exact Hadd|]. do 2 (split; [reflexivity|]). do 2 (split; [done|]).
  cbv zeta. unfold resolved. cbn [m_task set_builder set_task]. rewrite Nat.eqb_refl.
  set (o := set_task _ _). assert (Hw : walks d s st 0 o) by done.
  split; [done|]. split; [by eapply Success_at|]. split; [by intros; eapply ErrorMessage_at|].
  intros n. destruct (NextN_at d _ Hrs Hsize s gi go l' st _ Hr n 0 o Hw) as (o' & Ho' & Hw'); [lia|].
  exists o'. split; [done|]. intros A none get.
  destruct (getter_at d _ Hrs Hsize s gi go l' st _ Hr _ o' none get Hw') as (o'' & _ & ->); [lia|].
  exists o''. rewrite Nat.add_0_l. set (F := Transaction.m_first_incomplete _).
  destruct (Nat.ltb_spec n F); [by rewrite Nat.min_l, (proj2 (Nat.ltb_lt _ _)) by lia|].
  by rewrite Nat.min_r, (proj2 (Nat.ltb_ge _ _)) by lia.
Qed.

(** Bits that a driver received come out of the bindings as they are: [GetTDO]
    stores the first of them into the bytes of the caller, as many as fit, and
    leaves the other bits there alone; [GetShiftedData] gives the number they
    stand for, cut to 64 bits. *)
Theorem bits_come_out (bits : list bool) (h dest : list Z) (max_num_bits : nat)
    (Hh : Z.to_nat (word_at h 0) ≤ length bits) (Hdest : max_num_bits ≤ 8 * length dest) :
  let n := Z.to_nat (word_at h 0) in
  (∀ src last_tms, ∃ dest', tdo dest max_num_bits (AnyJtag (PutTDIGetTDO src last_tms), TStruct h [TBits bits])
     = Some (max_num_bits `min` n, dest')
     ∧ bits_of 8 dest' max_num_bits
       = take max_num_bits (take n bits) ++ drop (max_num_bits `min` n) (bits_of 8 dest max_num_bits)
     ∧ ∀ p, max_num_bits ≤ p → bit_at 8 dest' p = bit_at 8 dest p)
  ∧ ∀ src, ∃ output, shifted_data (AnyJtagChain (JCShiftDR src), TStruct h [TBits bits]) = Some output
     ∧ zbits 64 output = take 64 (take n bits) ++ replicate (64 - n) false.
Proof.
  intros n. destruct (bit_words_stream bits n Hh) as [Hwf Hc]. split.
  - intros src last_tms. cbn [tdo]. rewrite !make_start by lia. cbn [mbind option_bind]. fold n.
    destruct (WriteStream_copies_bits 8 32 dest (mkBitStream 0 0 max_num_bits) (bit_words bits)
                (mkBitStream 0 0 n) max_num_bits) as (dest' & d' & s' & -> & _ & _ & _ & Hd & _ & _ & Hrest).
    { split; unfold pos; cbn; lia. } { done. }
    cbn [m_remaining] in *. rewrite Nat.min_id in *. exists dest'. split; [done|]. split.
    + unfold bits_of. rewrite Hd, Hc, take_take. f_equal. rewrite !take_take. f_equal. lia.
    + intros p Hp. apply Hrest. right. unfold pos. cbn. lia.
  - intros src. cbn [shifted_data]. rewrite !make_start by lia. cbn [mbind option_bind GetNumBits m_remaining]. fold n.
    destruct (WriteStream_copies_bits 64 32 [0%Z] (mkBitStream 0 0 64) (bit_words bits) (mkBitStream 0 0 n) n)
      as (out' & d' & s' & -> & _ & _ & Hl & Hd & _).
    { split; unfold pos; cbn; lia. } { done. }
    destruct out' as [|output [|? ?]]; try done. exists output. split; [done|].
    cbn [m_remaining] in Hd.
    assert (Hz : contents 64 [output] (mkBitStream 0 0 64) = zbits 64 output) by done.
    rewrite Hc, Hz, take_take in Hd. rewrite Hd. f_equal; [by rewrite take_take; f_equal; lia|].
    replace (contents 64 [0%Z] (mkBitStream 0 0 64)) with (replicate 64 false) by (vm_compute; reflexivity).
    rewrite drop_replicate. f_equal. lia.
Qed.
End properties.

(** ** An example *)

#[local] Existing Instance ub_ones.
#[local] Existing Instance zero_bytes.

(** Two reads of a debug module; the first one is done, the second one fails. *)
Definition demo_calls : list api_call := [OnRVDTM (CallDMIRead 5); OnRVDTM (CallDMIRead 6)].

Definition demo_object : option ApiTx :=
  let '(b, pool, _) := Initiate demo_pool None in
  o ← AddCalls 40 (λ _, true) (word 0) demo_calls (initiated (mkView 0 0) b);
  let '(_, mb, o) := Schedule (Some 0) o in
  '(b, _) ← mb;
  '(st, _, _) ← Driver.Schedule 40 (λ _, true) IDRVDTM 3 true
    (λ st pool w, '(st, pool) ← run_ops 40 (λ _, true) IDRVDTM st pool demo_ops; Some (st, pool, w))
    pool b tt;
  Some (resolved 0 st o).

Example demo_walk :
  (o ← demo_object;
   '(x, o) ← GetReadData IDRVDTM o;
   o ← Next IDRVDTM o;
   '(y, o) ← GetReadData IDRVDTM o;
   text ← ErrorMessage (λ _, EmptyString) (λ _, 0%Z) o;
   Some (x, y, Success o, text))
  = Some (7%Z, 0%Z, Some false,
          "DMI-R 0x6 => FAILED, cause: The target indicated an error without details").
Proof. vm_compute. reflexivity. Qed.

(** Asking a transaction that still runs whether it succeeded reads a result that
    is not there. *)
Example running_has_no_outcome :
  Success (Schedule (Some 0) (initiated (mkView 0 0) (mkOwned true (mkStorage empty_buffer empty_buffer)))).2 = None.
Proof. reflexivity. Qed.

Lemma api_sees_results_witness :
  Forall call_fits demo_calls
  ∧ let '(b, pool1, _) := Initiate demo_pool None in
    ∃ o, AddCalls 40 (λ _, true) (word 0) demo_calls (initiated (mkView 0 0) b) = Some o
      ∧ (Schedule (Some 0) o).1.1 = true.
Proof.
  assert (Hcs : Forall call_fits demo_calls) by (repeat constructor; cbn; unfold small; lia).
  split; [exact Hcs|].
  destruct (api_sees_results 40 (word 0) IDRVDTM demo_pool (mkView 0 0) demo_calls demo_ops 0
              zero_bytes_length eq_refl) as (o & builder & scheduled & st & pool' & l & Ho & Hs & _).
  - repeat (constructor || done).
  - exact Hcs.
  - repeat constructor.
  - intros [=].
  - vm_compute. reflexivity.
  - apply Forall_cons; split; [by eexists|]. apply Forall_cons; split; [cbn; lia|].
    apply Forall_singleton. split; [split_and!; [done|done|vm_compute; reflexivity]|by repeat constructor].
  - exists o. split; [exact Ho|]. by rewrite Hs.
Defined.

Lemma bits_come_out_witness :
  ∃ output, shifted_data (AnyJtagChain (JCShiftDR []), TStruct (word 3) [TBits [true; true; false; true]])
    = Some output ∧ zbits 64 output = [true; true; false] ++ replicate 61 false.
Proof.
  apply (bits_come_out [true; true; false; true] (word 3) [0%Z] 8); vm_compute; lia.
Defined.
