(* ===== verification/ApiContext.v ===== *)
(** * ApiContext: the context that the objects of the bindings share
    ([src/src/api/Context.h], [Common.h]).

    Clients initiate, schedule, reuse and drop transactions in any order while
    scheduled ones run to their end.  The model follows one driver: its pool, the
    objects that clients hold, and the coroutines of [TransactionNameGuard] that
    run, each with the slot of its name, also when nobody holds their object any
    more. *)
From S2P Require Import Prelude Actions FreeList TransactionBuffer Storage Driver Logger ApiTransaction.
From stdpp Require Import strings.
Local Open Scope nat_scope.

(** ** Log levels *)

(** The bindings may pass any number. *)
Definition ToEDRLogLevel (log_level : Z) : LogLevel :=
  match log_level with
  | 0 => ERROR | 1 => WARNING | 2 => INFO | 3 => DEBUG | 4 => TRACE
  | _ => TRACE
  end%Z.

(** ** Transactions of a context *)

Record Context := mkContext {
  names : NameGuard;
  pool : Pool;
  txs : list ApiTx;
  frames : list (nat * NameView);    (** coroutines that run, with their names *)
  next_frame : nat;
}.

Definition set_txs (l : list ApiTx) (c : Context) : Context :=
  mkContext (names c) (pool c) l (frames c) (next_frame c).

Inductive api_op :=
| OpInitiate (driver : bool) (name : option string)
| OpSchedule (i : nat) (allocated : bool)
| OpFinish (k : nat) (st : Status) (pool : Pool)
| OpReuse (i : nat) (name : string)
| OpDestroy (i : nat).

Section context.
Context (grow : nat → nat).
(** Whether the free lists get the memory to take something back. *)
Context (item : bool) (items : bool * bool).

(** The end of a builder and of a task: a task that runs goes on by itself. *)
Definition drop_builder (b : option (OwnedStorage * NameView)) (p : Pool) : Pool :=
  match b with Some (b, _) => destroy_builder p items b | None => p end.

Definition drop_task (t : option Task) (p : Pool) : Pool :=
  match t with Some (TaskDone st) => destroy_status p item items st | _ => p end.

(** [Initiate]: an object without a transaction if there is no driver or no name. *)
Definition run_Initiate (driver : bool) (name : option string) (c : Context) : Context :=
  match driver, name with
  | true, Some name =>
      let '(view, g) := AllocateName grow name (names c) in
      let '(builder, p, _) := Initiate (pool c) None in
      mkContext g p (txs c ++ [initiated view builder]) (frames c) (next_frame c)
  | _, _ => set_txs (txs c ++ [no_transaction]) c
  end.

(** [Schedule]: the coroutine has the slot of the object; without a frame the
    builder is destroyed in its place. *)
Definition run_Schedule (i : nat) (allocated : bool) (c : Context) : option Context :=
  o ← txs c !! i;
  let '(_, handed, o') := Schedule (if allocated then Some (next_frame c) else None) o in
  let c := set_txs (<[i := o']> (txs c)) c in
  match handed, allocated with
  | None, _ => Some c
  | Some (_, view), true =>
      Some (mkContext (names c) (pool c) (txs c)
              (frames c ++ [(next_frame c, mkView (m_name_cookie o) (v_block view))]) (S (next_frame c)))
  | Some b, false =>
      Some (mkContext (names c) (drop_builder (Some b) (pool c)) (txs c) (frames c) (next_frame c))
  end.

(** A coroutine ends: its slot is free again, and the status goes to the object
    that waits for it, if any. *)
Definition run_Finish (k : nat) (st : Status) (p : Pool) (c : Context) : option Context :=
  '(frame, view) ← frames c !! k;
  Some (mkContext (FreeName (v_slot view) (names c)) p (resolved frame st <$> txs c)
          (delete k (frames c)) (next_frame c)).

(** [Reuse]; the null pointers of an object without a transaction are followed. *)
Definition run_Reuse (i : nat) (name : string) (c : Context) : option Context :=
  o ← txs c !! i;
  check (m_valid o);;
  let '(view, g) := AllocateName grow name (names c) in
  let reuse := match m_task o with Some (TaskDone st) => Some st | _ => None end in
  let '(builder, p, remains) := Initiate (pool c) reuse in
  let p := drop_builder (m_builder o) p in
  let p := drop_task (option_map TaskDone remains) p in
  Some (mkContext g p (<[i := mkApiTx true (v_slot view) (Some (builder, view)) None None]> (txs c))
          (frames c) (next_frame c)).

Definition run_Destroy (i : nat) (c : Context) : option Context :=
  o ← txs c !! i;
  Some (mkContext (names c) (drop_task (m_task o) (drop_builder (m_builder o) (pool c)))
          (delete i (txs c)) (frames c) (next_frame c)).

Definition run_op (o : api_op) (c : Context) : option Context :=
  match o with
  | OpInitiate driver name => Some (run_Initiate driver name c)
  | OpSchedule i allocated => run_Schedule i allocated c
  | OpFinish k st p => run_Finish k st p c
  | OpReuse i name => run_Reuse i name c
  | OpDestroy i => run_Destroy i c
  end.

Fixpoint run_ops (ops : list api_op) (c : Context) : option Context :=
  match ops with [] => Some c | o :: ops => c ← run_op o c; run_ops ops c end.
End context.

Definition start : Context := mkContext (mkNames [] [] 0 0) (mkFreeList [] 0) [] [] 0.

(** ** Names in use *)

Definition builder_name (o : ApiTx) : list NameView :=
  match m_builder o with Some (_, view) => [view] | None => [] end.

(** The names of transactions that are built or run. *)
Definition used (c : Context) : list NameView := (txs c ≫= builder_name) ++ (frames c).*2.

Definition slots (c : Context) : list nat := (v_slot <$> used c) ++ m_free_slots (names c).

Record names_ok (c : Context) : Prop := {
  slots_apart : NoDup (slots c);
  slots_there : Forall (λ k, k < length (m_slots (names c))) (slots c);
  cookies : Forall (λ o, ∀ view, view ∈ builder_name o → m_name_cookie o = v_slot view) (txs c);
}.

Section lists.
Context {A B : Type} (f : A → list B).

Lemma bind_insert l i o o' :
  l !! i = Some o → f o' ++ (l ≫= f) ≡ₚ f o ++ (<[i := o']> l ≫= f).
Proof.
  revert i. induction l as [|x l IH]; intros [|i] Hi; simplify_eq/=.
  - by rewrite !(assoc_L (++)), (comm (++) (f o')).
  - rewrite !(assoc_L (++)), (comm (++) (f o') (f x)), (comm (++) (f o) (f x)), <-!(assoc_L (++)).
    f_equiv. by apply IH.
Qed.

Lemma bind_delete l i o : l !! i = Some o → l ≫= f ≡ₚ f o ++ (delete i l ≫= f).
Proof.
  revert i. induction l as [|x l IH]; intros [|i] Hi; simplify_eq/=; [done|].
  rewrite (IH i Hi). by rewrite !(assoc_L (++)), (comm (++) (f x) (f o)).
Qed.
End lists.

Lemma slots_split c : slots c = (v_slot <$> (txs c ≫= builder_name)) ++ (v_slot <$> (frames c).*2) ++ m_free_slots (names c).
Proof. unfold slots, used. by rewrite fmap_app, <-(assoc_L (++)). Qed.

(** Some slots may get lost, some may be new. *)
Lemma names_ok_by lost fresh c c' :
  names_ok c → lost ++ slots c' ≡ₚ fresh ++ slots c →
  NoDup fresh → (∀ k, k ∈ fresh → length (m_slots (names c)) ≤ k < length (m_slots (names c'))) →
  length (m_slots (names c)) ≤ length (m_slots (names c')) →
  Forall (λ o, ∀ view, view ∈ builder_name o → m_name_cookie o = v_slot view) (txs c') → names_ok c'.
Proof.
  intros [Hn Ht _] Hp Hf Hfr Hlen Hc. rewrite Forall_forall in Ht. split; [| |done].
  - assert (NoDup (lost ++ slots c')) as Hnd; [|by apply NoDup_app in Hnd as (_ & _ & ?)].
    rewrite Hp. apply NoDup_app. split_and!; [done| |done].
    intros k Hk Hs. specialize (Ht k Hs). apply Hfr in Hk. lia.
  - apply Forall_forall. intros k Hk.
    assert (k ∈ fresh ++ slots c) as [Hk'|Hk']%elem_of_app by (rewrite <-Hp; set_solver).
    + by apply Hfr.
    + specialize (Ht k Hk'). lia.
Qed.

(** A slot goes from the free ones to those in use. *)
Lemma put_in_use (x : nat) (B F R R' fresh : list nat) :
  x :: R' ≡ₚ fresh ++ R → (B ++ [x]) ++ F ++ R' ≡ₚ fresh ++ B ++ F ++ R.
Proof.
  intros Hp. rewrite <-(assoc_L (++)). cbn. rewrite (Permutation_middle F R' x), Hp.
  by rewrite (Permutation_app_swap_app F), (Permutation_app_swap_app B).
Qed.

Section names.
Context (grow : nat → nat) (small : string → bool) (item : bool) (items : bool * bool).

(** A new name gets a free slot or a new one. *)
Lemma AllocateName_slots name g view g' :
  AllocateName grow name g = (view, g') → Forall (λ k, k < length (m_slots g)) (m_free_slots g) →
  ∃ fresh, v_slot view :: m_free_slots g' ≡ₚ fresh ++ m_free_slots g
    ∧ NoDup fresh ∧ (∀ k, k ∈ fresh → length (m_slots g) ≤ k < length (m_slots g'))
    ∧ length (m_slots g) ≤ length (m_slots g')
    ∧ read_name small view g' = Some name
    ∧ ∀ k, k ≠ v_slot view → k < length (m_slots g) → m_slots g' !! k = m_slots g !! k.
Proof.
  unfold AllocateName, read_name. destruct (m_free_slots g) as [|slot rest] eqn:Hfree.
  - intros [= <- <-] _. exists [length (m_slots g)]. unfold emplace_back.
    case_match; cbn [m_slots m_block m_free_slots v_slot v_block];
      rewrite Hfree, length_app, lookup_app_r, Nat.sub_diag by lia; cbn [lookup list_lookup mbind option_bind];
      rewrite Nat.eqb_refl, orb_true_r;
      (split_and!; [done|apply NoDup_singleton|set_solver by lia|cbn; lia|done|]);
      intros k _ Hk; by rewrite lookup_app_l.
  - intros [= <- <-] [Hs _]%Forall_cons. exists [].
    cbn [m_slots m_block m_free_slots v_slot v_block]. rewrite length_insert, list_lookup_insert_eq by done.
    cbn [mbind option_bind]. rewrite Nat.eqb_refl, orb_true_r. split_and!; [done|apply NoDup_nil_2|set_solver|lia|done|].
    intros k Hk _. by rewrite list_lookup_insert_ne.
Qed.

(** The slot of a new name is nobody else's. *)
Lemma AllocateName_apart c name view g' :
  names_ok c → AllocateName grow name (names c) = (view, g') →
  ∀ v, v ∈ used c → v_slot v ≠ v_slot view ∧ m_slots g' !! v_slot v = m_slots (names c) !! v_slot v.
Proof.
  intros [Hn Ht _] Ha v Hv. unfold slots in *.
  apply Forall_app in Ht as [Hu Hfree]. apply NoDup_app in Hn as (_ & Hn & _).
  destruct (AllocateName_slots _ _ _ _ Ha Hfree) as (fresh & Hp & _ & Hfr & _ & _ & Hkeep).
  assert (v_slot v ∈ v_slot <$> used c) as Hin by (apply list_elem_of_fmap; eauto).
  rewrite Forall_forall in Hu. pose proof (Hu _ Hin) as Hlt.
  assert (v_slot v ≠ v_slot view) as Hne; [|by auto]. intros Heq.
  assert (v_slot v ∈ fresh ++ m_free_slots (names c)) as [Hk|Hk]%elem_of_app by (rewrite <-Hp, Heq; by left).
  - apply Hfr in Hk. lia.
  - by eapply Hn.
Qed.

Lemma cookies_insert c i o :
  names_ok c → (∀ view, view ∈ builder_name o → m_name_cookie o = v_slot view) →
  Forall (λ o, ∀ view, view ∈ builder_name o → m_name_cookie o = v_slot view) (<[i := o]> (txs c)).
Proof. intros Hok Ho. apply Forall_insert; [apply Hok|done]. Qed.

Lemma Initiate_names driver name c :
  names_ok c → let c' := run_Initiate grow driver name c in
  names_ok c' ∧ ∀ v, v ∈ used c → m_slots (names c') !! v_slot v = m_slots (names c) !! v_slot v.
Proof.
  intros Hok. unfold run_Initiate. pose proof Hok as [Hn Ht Hc].
  assert (∀ o, builder_name o = [] → names_ok (set_txs (txs c ++ [o]) c)) as Hnone.
  { intros o Ho. assert (slots (set_txs (txs c ++ [o]) c) = slots c) as Hs.
    { rewrite !slots_split. cbn. rewrite bind_app. cbn. by rewrite Ho, app_nil_r. }
    apply (names_ok_by [] [] c); rewrite ?Hs; try done; [apply NoDup_nil_2|set_solver|].
    cbn. apply Forall_app. split; [done|]. apply Forall_singleton. rewrite Ho. set_solver. }
  destruct driver, name as [name|]; cbn zeta; try (split; [by apply Hnone|done]).
  destruct (AllocateName grow name (names c)) as [view g'] eqn:Ha. cbn [Initiate].
  destruct (take_storage (pool c)) as [b p]. split; [|intros v Hv; by apply (AllocateName_apart c name view g')].
  apply Forall_app in Ht as [_ Hfree].
  destruct (AllocateName_slots _ _ _ _ Ha Hfree) as (fresh & Hp & Hnd & Hfr & Hlen & _).
  apply (names_ok_by [] fresh c); [done| |done|done|done|].
  - rewrite !slots_split. cbn. rewrite bind_app. cbn. rewrite fmap_app. cbn. by apply put_in_use.
  - cbn. apply Forall_app. split; [done|]. apply Forall_singleton. intros v. cbn. set_solver.
Qed.

(** A step that takes no new name may lose one. *)
Lemma names_ok_lose lost c c' :
  names_ok c → lost ++ slots c' ≡ₚ slots c → m_slots (names c') = m_slots (names c) →
  Forall (λ o, ∀ view, view ∈ builder_name o → m_name_cookie o = v_slot view) (txs c') → names_ok c'.
Proof.
  intros Hok Hp Hm Hc. apply (names_ok_by lost [] c); rewrite ?Hm; try done; [apply NoDup_nil_2|set_solver].
Qed.

Lemma Schedule_names i allocated c c' :
  names_ok c → run_Schedule items i allocated c = Some c' →
  names_ok c' ∧ m_slots (names c') = m_slots (names c).
Proof.
  intros Hok. unfold run_Schedule. destruct (txs c !! i) as [o|] eqn:Hi; [|done]. cbn [mbind option_bind].
  pose proof (Forall_lookup_1 _ _ _ _ (cookies _ Hok) Hi) as Hcookie.
  unfold Schedule. destruct (m_builder o) as [[b view]|] eqn:Hb.
  - assert (Hname : builder_name o = [view]) by (unfold builder_name; by rewrite Hb).
    set (task := match _ with Some _ => _ | None => _ end). set (o' := set_builder None (set_task (Some task) o)).
    assert (Hempty : builder_name o' = []) by done.
    pose proof (bind_insert builder_name (txs c) i o o' Hi) as Hbind. rewrite Hempty, Hname in Hbind. cbn in Hbind.
    assert (Hck : Forall (λ o, ∀ v, v ∈ builder_name o → m_name_cookie o = v_slot v) (<[i := o']> (txs c))).
    { apply cookies_insert; [done|]. rewrite Hempty. set_solver. }
    destruct allocated; intros [= <-]; (split; [|done]).
    + apply (names_ok_lose [] c); [done| |done|done]. rewrite !slots_split. cbn.
      rewrite Hbind, !fmap_app. cbn. rewrite (Hcookie view) by (rewrite Hname; by left).
      rewrite <-(assoc_L (++)). cbn. by rewrite <-!Permutation_middle.
    + apply (names_ok_lose [v_slot view] c); [done| |done|done]. rewrite !slots_split. cbn. by rewrite Hbind.
  - intros [= <-]. split; [|done]. cbn. rewrite list_insert_id by done. by destruct c.
Qed.

Lemma resolved_names frame st o :
  builder_name (resolved frame st o) = builder_name o ∧ m_name_cookie (resolved frame st o) = m_name_cookie o.
Proof. unfold resolved. repeat case_match; done. Qed.

Lemma resolved_bind frame st l : (resolved frame st <$> l) ≫= builder_name = l ≫= builder_name.
Proof. induction l as [|o l IH]; cbn; [done|]. by rewrite IH, (proj1 (resolved_names frame st o)). Qed.

Lemma Finish_names k st p c c' :
  names_ok c → run_Finish k st p c = Some c' → names_ok c' ∧ m_slots (names c') = m_slots (names c).
Proof.
  intros Hok. unfold run_Finish. destruct (frames c !! k) as [[f view]|] eqn:Hk; [|done]. intros [= <-].
  split; [|done]. apply (names_ok_lose [] c); [done| |done|].
  - assert (v_slot <$> (frames c).*2 ≡ₚ v_slot <$> ((f, view) :: delete k (frames c)).*2) as Hd
      by (do 2 f_equiv; by apply delete_Permutation).
    rewrite !slots_split. cbn. rewrite resolved_bind, Hd. cbn. by rewrite <-!Permutation_middle.
  - cbn. apply Forall_fmap. eapply Forall_impl; [apply Hok|]. intros o Ho v.
    destruct (resolved_names f st o) as [-> ->]. apply Ho.
Qed.

Lemma Destroy_names i c c' :
  names_ok c → run_Destroy item items i c = Some c' → names_ok c' ∧ m_slots (names c') = m_slots (names c).
Proof.
  intros Hok. unfold run_Destroy. destruct (txs c !! i) as [o|] eqn:Hi; [|done]. intros [= <-].
  split; [|done]. apply (names_ok_lose (v_slot <$> builder_name o) c); [done| |done|].
  - rewrite !slots_split. cbn. rewrite (assoc_L (++)), <-fmap_app.
    by rewrite <-(bind_delete builder_name _ _ _ Hi).
  - cbn. apply Forall_delete, Hok.
Qed.

Lemma Reuse_names i name c c' :
  names_ok c → run_Reuse grow item items i name c = Some c' →
  names_ok c' ∧ ∀ v, v ∈ used c → m_slots (names c') !! v_slot v = m_slots (names c) !! v_slot v.
Proof.
  intros Hok. unfold run_Reuse. destruct (txs c !! i) as [o|] eqn:Hi; [|done]. cbn [mbind option_bind].
  destruct (m_valid o); [|done]. cbn [check mbind option_bind].
  destruct (AllocateName grow name (names c)) as [view g'] eqn:Ha.
  destruct (Initiate _ _) as [[b p] remains]. set (o' := mkApiTx _ _ _ _ _). intros [= <-].
  split; [|intros v Hv; by apply (AllocateName_apart c name view g')].
  pose proof (slots_there _ Hok) as Ht. apply Forall_app in Ht as [_ Hfree].
  destruct (AllocateName_slots _ _ _ _ Ha Hfree) as (fresh & Hp & Hnd & Hfr & Hlen & _).
  apply (names_ok_by (v_slot <$> builder_name o) fresh c); [done| |done|done|done|].
  - rewrite !slots_split. cbn [txs frames names]. pose proof (bind_insert builder_name (txs c) i o o' Hi) as Hbind.
    rewrite (assoc_L (++)), <-fmap_app, <-Hbind, fmap_app. cbn. rewrite <-put_in_use by done.
    rewrite <-(assoc_L (++)). apply Permutation_middle.
  - apply cookies_insert; [done|]. intros v Hv%list_elem_of_singleton. by subst.
Qed.

Lemma op_names o c c' :
  names_ok c → run_op grow item items o c = Some c' →
  names_ok c' ∧ ∀ v, v ∈ used c → m_slots (names c') !! v_slot v = m_slots (names c) !! v_slot v.
Proof.
  intros Hok Hrun. destruct o as [driver name|i allocated|k st p|i name|i]; cbn in Hrun.
  - injection Hrun as <-. by apply Initiate_names.
  - by destruct (Schedule_names i allocated c c' Hok Hrun) as [? ->].
  - by destruct (Finish_names k st p c c' Hok Hrun) as [? ->].
  - by eapply Reuse_names.
  - by destruct (Destroy_names i c c' Hok Hrun) as [? ->].
Qed.

Lemma start_names : names_ok start.
Proof. split; cbn; [apply NoDup_nil_2|done|done]. Qed.

Lemma ops_names ops c c' : names_ok c → run_ops grow item items ops c = Some c' → names_ok c'.
Proof.
  revert c. induction ops as [|o ops IH]; intros c Hok Hrun; cbn in Hrun; [by simplify_eq|].
  destruct (run_op grow item items o c) as [c1|] eqn:H1; [|done]. cbn in Hrun.
  eapply IH; [|done]. by eapply op_names.
Qed.
End names.

(** ** Properties *)

(** C23: names of transactions do not get mixed up.  Whatever clients did, the
    transactions that are built or run have slots of their own, none of which is
    free; a new name takes another slot and reads back, and no operation writes to
    the slot of a transaction that still uses it, so that its view keeps showing
    the same name; only the view of a small string is lost, when the vector of the
    slots has moved. *)
Theorem names_kept (grow : nat → nat) (small : string → bool) (item : bool) (items : bool * bool)
    (ops : list api_op) (c : Context) (Hrun : run_ops grow item items ops start = Some c) :
  NoDup (slots c)
  ∧ (∀ name, let '(view, g) := AllocateName grow name (names c) in
       read_name small view g = Some name ∧ ∀ v, v ∈ used c → v_slot v ≠ v_slot view)
  ∧ ∀ o c', run_op grow item items o c = Some c' →
      ∀ v, v ∈ used c → ∃ name, m_slots (names c) !! v_slot v = Some name
        ∧ m_slots (names c') !! v_slot v = Some name
        ∧ (small name = false → read_name small v (names c') = Some name)
        ∧ (m_block (names c') = m_block (names c) → read_name small v (names c') = read_name small v (names c)).
Proof.
  pose proof (ops_names grow small item items ops start c start_names Hrun) as Hok.
  split; [apply Hok|]. split.
  - intros name. destruct (AllocateName grow name (names c)) as [view g] eqn:Ha.
    pose proof (slots_there _ Hok) as Ht. apply Forall_app in Ht as [_ Hfree].
    destruct (AllocateName_slots grow small _ _ _ _ Ha Hfree) as (_ & _ & _ & _ & _ & Hread & _).
    split; [done|]. intros v Hv. by apply (AllocateName_apart grow small c name view g).
  - intros o c' Ho v Hv. destruct (op_names grow small item items o c c' Hok Ho) as [_ Hkeep].
    destruct (lookup_lt_is_Some_2 (m_slots (names c)) (v_slot v)) as [name Hname].
    { pose proof (slots_there _ Hok) as Ht. rewrite Forall_forall in Ht. apply Ht, elem_of_app. left.
      apply list_elem_of_fmap. eauto. }
    exists name. specialize (Hkeep v Hv). rewrite Hname in Hkeep. unfold read_name. rewrite Hkeep, Hname. cbn.
    split_and!; [done|done|by intros ->|by intros ->].
Qed.

(** A vector doubles, strings of up to 15 characters are small. *)
Definition doubling (n : nat) : nat := if n =? 0 then 1 else 2 * n.
Definition up_to_15 (name : string) : bool := String.length name <=? 15.

Definition demo_ops : list api_op :=
  [OpInitiate true (Some "read the identification registers"); OpSchedule 0 true;
   OpInitiate true (Some "reset"); OpReuse 0 "the next one"].

Lemma names_kept_witness :
  ∃ c, run_ops doubling true (true, true) demo_ops start = Some c ∧ NoDup (slots c) ∧ length (used c) = 3.
Proof.
  eexists. split; [vm_compute; reflexivity|]. split; [|reflexivity].
  apply (names_kept doubling up_to_15 true (true, true) demo_ops). vm_compute. reflexivity.
Defined.

(** The second name moves the first one, whose transaction is then scheduled with
    a view of memory that is gone. *)
Example small_name_dangles :
  (c ← run_ops doubling true (true, true) [OpInitiate true (Some "reset"); OpInitiate true (Some "read")] start;
   Some ((λ v, read_name up_to_15 v (names c)) <$> used c))
  = Some [None; Some "read"].
Proof. vm_compute. reflexivity. Qed.

(** A transaction that is never scheduled keeps its slot for good, and one without a
    driver cannot be reused. *)
Example slot_is_lost :
  (c ← run_ops doubling true (true, true) [OpInitiate true (Some "reset"); OpDestroy 0] start;
   Some (length (m_slots (names c)), slots c)) = Some (1, [])
  ∧ run_ops doubling true (true, true) [OpInitiate false (Some "reset"); OpReuse 0 "read"] start = None.
Proof. vm_compute. done. Qed.
