(* ===== verification/ApiStreams.v ===== *)
(** * ApiStreams: streams that live in a context
    ([src/src/api/ByteStream.h], [Context.h], [Error.h]).

    What clients of the bindings connect or accept is stored in the context with
    its name and the driver that uses it, and lives until the context ends, which
    destroys its entities from the last one to the first.  Streams are those of
    [Sockets], and so is the operating system. *)
From S2P Require Import Prelude Actions Printing Sockets.
From stdpp Require Import strings pretty.
Local Open Scope nat_scope.

(** ** Errors *)

(** [Error] of the bindings: no error, an error whose cause is lost, or a cause,
    with the text that was asked for. *)
Record Error := mkError { m_error : option (option Cause); m_string : string }.

Definition no_error : Error := mkError None EmptyString.

(** [operator=(edr::Error &&)]. *)
Definition assign (e : option (option Cause)) (_ : Error) : Error := mkError e EmptyString.

Definition Fail (e : Error) : bool := bool_decide (is_Some (m_error e)).

(** [Message]: the text is made once. *)
Definition Message (strerror : Z → string) (unknown_id : ActionError → Z) (e : Error) : string * Error :=
  match m_string e with
  | EmptyString =>
      let text := print_Error strerror unknown_id (m_error e) in (text, mkError (m_error e) text)
  | text => (text, e)
  end.

Lemma Message_again strerror unknown_id e :
  Message strerror unknown_id (Message strerror unknown_id e).2 = Message strerror unknown_id e.
Proof.
  unfold Message. destruct (m_string e) eqn:He; cbn; [|by rewrite He].
  by destruct (print_Error strerror unknown_id (m_error e)).
Qed.

(** ** Entities of a context *)

(** A stream or a server, a text, or a driver by the number of its stream. *)
Inductive Entity :=
| EObject (o : Object)
| EText (text : string)
| EDriver (name : string) (stream : nat).

(** Entities that were destroyed are [None]. *)
Abbreviation Entities := (list (option Entity)).

(** [Make]: the number of the entity, by which it is referred to. *)
Definition Make (e : Entity) (es : Entities) : nat * Entities := (length es, es ++ [Some e]).

(** What the constructors of the bindings give: the new driver if there is one, and
    the error. *)
Definition outcome : Type := Entities * option nat * Error.

(** The driver over a stream that was stored, after its persistent name. *)
Definition make_driver (stream : nat) (name : string) (es : Entities) : nat * Entities :=
  let '(_, es) := Make (EText name) es in Make (EDriver name stream) es.

Definition store_driver (o : Object) (name : string) (error : Error) (es : Entities) : outcome :=
  let '(stream, es) := Make (EObject o) es in
  let '(driver, es) := make_driver stream name es in
  (es, Some driver, error).

Inductive api_op :=
| ConnectTCP (hostname : option string) (port : Z)
| ConnectNamedPipe (pipe_name : option string)
| NewTCPServer (port max_num_queued_clients : Z)
| NewNamedPipeServer (pipe_name : string) (max_num_queued_clients : Z)
| AcceptOn (server : nat) (pipe_name : string)
| TerminateDriver (driver : nat).

Section api.
Context `{OS}.

(** A null pointer for a name gives no driver and no error. *)
Definition run_ConnectTCP (hostname : option string) (port : Z) (error : Error) (es : Entities) : M outcome :=
  match hostname with
  | None => mret (es, None, error)
  | Some hostname =>
      r ← Connect hostname port;
      match r with
      | inr c => mret (es, None, assign (Some (Some c)) error)
      | inl s => mret (store_driver (ASocket s) ("TCP -> " +:+ hostname +:+ ":" +:+ pretty port) error es)
      end
  end.

Definition run_ConnectNamedPipe (pipe_name : option string) (error : Error) (es : Entities) : M outcome :=
  match pipe_name with
  | None => mret (es, None, error)
  | Some pipe_name =>
      r ← ConnectPipe pipe_name;
      match r with
      | inr c => mret (es, None, assign (Some (Some c)) error)
      | inl p => mret (store_driver (APipe p) ("NamedPipe -> " +:+ pipe_name) error es)
      end
  end.

Definition run_NewTCPServer (port n : Z) (error : Error) (es : Entities) : M outcome :=
  r ← Create port n;
  match r with
  | inr c => mret (es, None, assign (Some (Some c)) error)
  | inl s => let '(server, es) := Make (EObject (AServer s)) es in mret (es, Some server, error)
  end.

(** The name is stored also when there is no server. *)
Definition run_NewNamedPipeServer (pipe_name : string) (n : Z) (error : Error) (es : Entities) : M outcome :=
  r ← CreatePipe pipe_name n;
  match r with
  | inr c => mret ((Make (EText pipe_name) es).2, None, assign (Some (Some c)) error)
  | inl s =>
      let '(server, es) := Make (EObject (APipeServer s)) es in
      mret ((Make (EText pipe_name) es).2, Some server, error)
  end.

(** [TCPServer::Accept] and [NamedPipeServer::Accept]. *)
Definition run_Accept (server : nat) (pipe_name : string) (error : Error) (es : Entities) : M outcome :=
  match mjoin (es !! server) with
  | Some (EObject (AServer s)) =>
      r ← Accept s;
      match r with
      | inr c => mret (es, None, assign (Some (Some c)) error)
      | inl x => mret (store_driver (ASocket x) ("TCP <- " +:+ pretty (m_port s)) error es)
      end
  | Some (EObject (APipeServer s)) =>
      r ← AcceptPipe s;
      match r with
      | inr c => mret (es, None, assign (Some (Some c)) error)
      | inl x => mret (store_driver (APipe x) ("NamedPipe <- " +:+ pipe_name) error es)
      end
  | _ => mret (es, None, error)
  end.

(** [DeferredByteStream::Terminate], also from its destructor, ends the stream,
    which must still be there; ending a stream twice is no different. *)
Definition end_stream (stream : nat) (es : Entities) : M Entities :=
  match mjoin (es !! stream) with
  | Some (EObject (ASocket s)) => s ← Terminate s; mret (<[stream := Some (EObject (ASocket s))]> es)
  | Some (EObject (APipe p)) => p ← TerminatePipe p; mret (<[stream := Some (EObject (APipe p))]> es)
  | _ => λ _, None
  end.

Definition run_Terminate (driver : nat) (error : Error) (es : Entities) : M outcome :=
  match mjoin (es !! driver) with
  | Some (EDriver _ stream) => es ← end_stream stream es; mret (es, None, error)
  | _ => mret (es, None, error)
  end.

Definition run_op (o : api_op) (error : Error) (es : Entities) : M outcome :=
  match o with
  | ConnectTCP hostname port => run_ConnectTCP hostname port error es
  | ConnectNamedPipe pipe_name => run_ConnectNamedPipe pipe_name error es
  | NewTCPServer port n => run_NewTCPServer port n error es
  | NewNamedPipeServer pipe_name n => run_NewNamedPipeServer pipe_name n error es
  | AcceptOn server pipe_name => run_Accept server pipe_name error es
  | TerminateDriver driver => run_Terminate driver error es
  end.

(** A program; every call gets an error of its own. *)
Fixpoint run_ops (ops : list api_op) (es : Entities) : M (Entities * list (option nat * Error)) :=
  match ops with
  | [] => mret (es, [])
  | o :: ops =>
      '(es, r, e) ← run_op o no_error es;
      '(es, rs) ← run_ops ops es;
      mret (es, (r, e) :: rs)
  end.

(** [it->reset()]. *)
Definition reset (k : nat) (es : Entities) : M Entities :=
  match mjoin (es !! k) with
  | Some (EObject o) => destroy o;; mret (<[k := None]> es)
  | Some (EDriver _ stream) => es ← end_stream stream es; mret (<[k := None]> es)
  | _ => mret (<[k := None]> es)
  end.

(** [~Context]. *)
Fixpoint destroy_down (k : nat) (es : Entities) : M Entities :=
  match k with O => mret es | S k => es ← reset k es; destroy_down k es end.

Definition destroy_context (es : Entities) : M Entities := destroy_down (length es) es.
End api.

(** ** Descriptors of a context *)

Definition object_of (e : option Entity) : option Object :=
  match e with Some (EObject o) => Some o | _ => None end.

Definition objects (es : Entities) : Objects := object_of <$> es.

Definition is_stream (o : Object) : bool :=
  match o with ASocket _ | APipe _ => true | _ => false end.

(** Drivers come after the streams that they use. *)
Definition ordered (es : Entities) : Prop :=
  ∀ k name s, es !! k = Some (Some (EDriver name s)) →
    s < k ∧ ∃ o, es !! s = Some (Some (EObject o)) ∧ is_stream o = true.

(** The failures of [Accept] that leak a socket. *)
Definition lost (o : api_op) (e : Error) : nat :=
  match o, m_error e with
  | AcceptOn _ _, Some (Some (CauseErrno f _ _)) => if bool_decide (f = no_delay) then 1 else 0
  | _, _ => 0
  end.

Fixpoint count_lost (ops : list api_op) (rs : list (option nat * Error)) : nat :=
  match ops, rs with
  | o :: ops, r :: rs => lost o r.2 + count_lost ops rs
  | _, _ => 0
  end.

Lemma ordered_snoc es e :
  ordered es → (∀ name s, e = Some (EDriver name s) → s < length es ∧
    ∃ o, es !! s = Some (Some (EObject o)) ∧ is_stream o = true) → ordered (es ++ [e]).
Proof.
  intros Hes He k name s Hk. apply lookup_app_Some in Hk as [Hk|[Hge Hk]].
  - destruct (Hes k name s Hk) as (Hlt & o & Ho & Hs). split; [done|]. exists o.
    by rewrite lookup_app_l by (by eapply lookup_lt_Some).
  - apply list_lookup_singleton_Some in Hk as [Heq ->]. destruct (He name s eq_refl) as (Hlt & o & Ho & Hs).
    split; [lia|]. exists o. by rewrite lookup_app_l by (by eapply lookup_lt_Some).
Qed.

Lemma store_driver_ordered o name error es :
  ordered es → is_stream o = true → ordered (store_driver o name error es).1.1.
Proof.
  intros Hes Ho. cbn. apply ordered_snoc; [apply ordered_snoc; [by apply ordered_snoc|done]|].
  intros name' s [= _ <-]. rewrite !length_app. cbn. split; [lia|]. exists o. split; [|done].
  by rewrite lookup_app_l, lookup_app_r, Nat.sub_diag by (rewrite ?length_app; cbn; lia).
Qed.

Lemma owned_objects_app es es' : owned (objects (es ++ es')) = owned (objects es) ++ owned (objects es').
Proof. unfold owned, objects. by rewrite fmap_app, bind_app. Qed.

Section accounting.
Context `{OS}.

(** What an operation promises. *)
Definition keeps (o : api_op) (es : Entities) (leaked : list Z) (m : M outcome) (w : System) : Prop :=
  ∃ es' r e w' leaked', m w = Some ((es', r, e), w') ∧ ordered es'
    ∧ accounted w' (objects es') (leaked' ++ leaked) ∧ length leaked' = lost o e.

Lemma keeps_same o es leaked w r :
  ordered es → accounted w (objects es) leaked → keeps o es leaked (mret (es, r, no_error)) w.
Proof. intros Ho Ha. exists es, r, no_error, w, []. split_and!; [done..|by destruct o]. Qed.

(** An operation that may make one object. *)
Lemma keeps_new {T} (wrap : T → Object) (m : M (expected T)) (k : expected T → outcome) o es leaked p w :
  accounted w (objects es) leaked →
  (∃ r w', m w = Some (r, w') ∧ adds w w' (new_descriptor wrap r)) →
  (∀ r w', m w = Some (r, w') → p w = Some (k r, w')) →
  (∀ t, ordered (k (inl t)).1.1 ∧ owned (objects (k (inl t)).1.1) = owned (objects es) ++ own (Some (wrap t))
     ∧ lost o (k (inl t)).2 = 0) →
  (∀ c w', m w = Some (inr c, w') →
     ordered (k (inr c)).1.1 ∧ owned (objects (k (inr c)).1.1) = owned (objects es) ∧ lost o (k (inr c)).2 = 0) →
  keeps o es leaked p w.
Proof.
  intros Hacc (r & w' & Hm & Ha) Hp Hl Hr. pose proof (store_new_accounted wrap r w w' _ _ Hacc Ha) as Hacc'.
  specialize (Hp r w' Hm). destruct (k r) as [[es' d] e] eqn:Ek. exists es', d, e, w', []. split; [done|].
  destruct r as [t|c].
  - destruct (Hl t) as (Ho & Hown & Hlost). rewrite Ek in *. split_and!; [done| |done].
    eapply accounted_perm; [done|]. cbn [fst snd store_new app] in *. by rewrite Hown, owned_app.
  - destruct (Hr c w' Hm) as (Ho & Hown & Hlost). rewrite Ek in *. split_and!; [done| |done].
    eapply accounted_perm; [done|]. cbn [fst snd store_new app] in *. by rewrite Hown.
Qed.

Lemma owned_store_driver o name error es :
  owned (objects (store_driver o name error es).1.1) = owned (objects es) ++ own (Some o).
Proof. cbn. rewrite !owned_objects_app. cbn. by rewrite !app_nil_r. Qed.

(** Drivers over a new stream. *)
Lemma keeps_driver {T} (wrap : T → Object) (m : M (expected T)) (name : T → string) o es leaked w :
  ordered es → accounted w (objects es) leaked → (∀ t, is_stream (wrap t) = true) →
  (∃ r w', m w = Some (r, w') ∧ adds w w' (new_descriptor wrap r)) →
  (∀ c w', m w = Some (inr c, w') → lost o (assign (Some (Some c)) no_error) = 0) →
  keeps o es leaked (r ← m; match r with
                            | inr c => mret (es, None, assign (Some (Some c)) no_error)
                            | inl t => mret (store_driver (wrap t) (name t) no_error es)
                            end) w.
Proof.
  intros Hes Hacc Hs Hm Hl.
  apply (keeps_new wrap m (λ r, match r with
                                | inr c => (es, None, assign (Some (Some c)) no_error)
                                | inl t => store_driver (wrap t) (name t) no_error es
                                end)); [done|done| | |].
  - intros r w' Hr. run_calls. rewrite Hr. by destruct r.
  - intros t. split; [by apply store_driver_ordered|]. split; [apply owned_store_driver|by destruct o].
  - intros c w' Hc. split_and!; [done|done|by eapply Hl].
Qed.

(** A stream is ended. *)
Lemma end_stream_keeps stream o es leaked w :
  accounted w (objects es) leaked → es !! stream = Some (Some (EObject o)) → is_stream o = true →
  ∃ o' w', end_stream stream es w = Some (<[stream := Some (EObject o')]> es, w')
    ∧ is_stream o' = true ∧ accounted w' (objects (<[stream := Some (EObject o')]> es)) leaked.
Proof.
  intros Hacc Hs Ho. set (o' := moved_from o).
  destruct (release_accounted w (objects es) leaked stream o (Some o') Hacc) as (w' & Hclose & Hacc').
  { unfold objects. by rewrite list_lookup_fmap, Hs. } { by destruct o. }
  exists o', w'. split_and!; [|by destruct o|by unfold objects; rewrite list_fmap_insert].
  unfold end_stream. rewrite Hs. cbn [mjoin option_join].
  destruct o as [[fd]| |[fd]|]; try done; cbn [descriptor m_socket m_pipe] in Hclose;
    unfold Terminate, TerminatePipe; cbn [m_socket m_pipe]; revert Hclose; run_calls;
    unfold g_invalid_socket, g_invalid_named_pipe;
    destruct (Z.eqb_spec fd (-1)) as [->|]; cbn [negb]; by intros [= ->] || by intros ->.
Qed.

Lemma ordered_insert_stream stream o o' es :
  ordered es → es !! stream = Some (Some (EObject o)) → is_stream o' = true →
  ordered (<[stream := Some (EObject o')]> es).
Proof.
  intros Hes Hs Ho' k name s Hk. destruct (decide (k = stream)) as [->|Hne].
  - rewrite list_lookup_insert_eq in Hk by (by eapply lookup_lt_Some). done.
  - rewrite list_lookup_insert_ne in Hk by done. destruct (Hes k name s Hk) as (Hlt & x & Hx & Hsx).
    split; [done|]. destruct (decide (s = stream)) as [->|Hne'].
    + exists o'. by rewrite list_lookup_insert_eq by (by eapply lookup_lt_Some).
    + exists x. by rewrite list_lookup_insert_ne.
Qed.

(** Servers. *)
Lemma keeps_server port n es leaked w :
  ordered es → accounted w (objects es) leaked →
  keeps (NewTCPServer port n) es leaked (run_NewTCPServer port n no_error es) w.
Proof.
  intros Hes Hacc.
  apply (keeps_new AServer (Create port n)
    (λ r, match r with
          | inr c => (es, None, assign (Some (Some c)) no_error)
          | inl s => (es ++ [Some (EObject (AServer s))], Some (length es), no_error)
          end)); [done|apply Create_new| | |done].
  - intros r w' Hr. unfold run_NewTCPServer. run_calls. rewrite Hr. by destruct r.
  - intros t. split_and!; [by apply ordered_snoc| |done]. cbn. by rewrite owned_objects_app; cbn; rewrite app_nil_r.
Qed.

Lemma keeps_pipe_server name n es leaked w :
  ordered es → accounted w (objects es) leaked →
  keeps (NewNamedPipeServer name n) es leaked (run_NewNamedPipeServer name n no_error es) w.
Proof.
  intros Hes Hacc.
  apply (keeps_new APipeServer (CreatePipe name n)
    (λ r, match r with
          | inr c => (es ++ [Some (EText name)], None, assign (Some (Some c)) no_error)
          | inl s => ((es ++ [Some (EObject (APipeServer s))]) ++ [Some (EText name)], Some (length es), no_error)
          end)); [done|apply CreatePipe_new| | |].
  - intros r w' Hr. unfold run_NewNamedPipeServer. run_calls. rewrite Hr. by destruct r.
  - intros t. split_and!; [by apply ordered_snoc; [apply ordered_snoc|]| |done].
    cbn. by rewrite !owned_objects_app; cbn; rewrite !app_nil_r.
  - intros c w' _. split_and!; [by apply ordered_snoc| |done]. cbn. by rewrite owned_objects_app, app_nil_r.
Qed.

(** [Accept] may leak. *)
Lemma keeps_Accept server name s es leaked w :
  ordered es → accounted w (objects es) leaked →
  keeps (AcceptOn server name) es leaked
    (r ← Accept s;
     match r with
     | inr c => mret (es, None, assign (Some (Some c)) no_error)
     | inl x => mret (store_driver (ASocket x) ("TCP <- " +:+ pretty (m_port s)) no_error es)
     end) w.
Proof.
  intros Hes Hacc. destruct (Accept_new s w) as (r & w' & Hm & [[Ha Hl]|(fd & rv & e & -> & Ha)]).
  - apply (keeps_driver ASocket); eauto. intros c w'' Hc. rewrite Hc in Hm. by simplify_eq.
  - eexists es, None, _, w', [fd]. run_calls. rewrite Hm. split; [done|]. split; [done|].
    split; [|by cbn; rewrite bool_decide_eq_true_2].
    eapply accounted_adds; [done|done|]. symmetry. apply Permutation_middle.
Qed.

Lemma run_op_keeps o es leaked w :
  ordered es → accounted w (objects es) leaked → keeps o es leaked (run_op o no_error es) w.
Proof.
  intros Hes Hacc. destruct o as [[host|] port|[name|]|port n|name n|server name|driver]; cbn [run_op].
  - apply (keeps_driver ASocket); try done. destruct (Connect_new host port w) as (r & w' & ? & ?). eauto.
  - by apply keeps_same.
  - apply (keeps_driver APipe); try done. destruct (ConnectPipe_new name w) as (r & w' & ? & ?). eauto.
  - by apply keeps_same.
  - by apply keeps_server.
  - by apply keeps_pipe_server.
  - unfold run_Accept. destruct (mjoin (es !! server)) as [[[| s| |s]| |]|]; try by apply keeps_same.
    + by apply keeps_Accept.
    + apply (keeps_driver APipe); try done; [by apply AcceptPipe_new|]. intros c w'. unfold AcceptPipe. run_calls.
      destruct (call _ _) as [[a u]|]; [|done]. destruct (_ =? _)%Z; by intros [= <- _].
  - unfold run_Terminate. destruct (es !! driver) as [[[| |name stream]|]|] eqn:Hd; cbn [mjoin option_join]; try by apply keeps_same.
    destruct (Hes driver name stream Hd) as (_ & o & Ho & Hs).
    destruct (end_stream_keeps stream o es leaked w Hacc Ho Hs) as (o' & w' & Hend & Hs' & Hacc').
    eexists _, _, _, w', []. run_calls. rewrite Hend. split_and!; [done|by eapply ordered_insert_stream|done|done].
Qed.

Lemma run_ops_keeps ops es leaked w :
  ordered es → accounted w (objects es) leaked →
  ∃ es' rs w' leaked', run_ops ops es w = Some ((es', rs), w') ∧ ordered es'
    ∧ accounted w' (objects es') (leaked' ++ leaked) ∧ length leaked' = count_lost ops rs.
Proof.
  revert es leaked w. induction ops as [|o ops IH]; intros es leaked w Hes Hacc; cbn [run_ops].
  { exists es, [], w, []. by split_and!. }
  destruct (run_op_keeps o es leaked w Hes Hacc) as (es1 & r & e & w1 & l1 & Hop & Hes1 & Hacc1 & Hl1).
  destruct (IH es1 (l1 ++ leaked) w1 Hes1 Hacc1) as (es2 & rs & w2 & l2 & Hops & Hes2 & Hacc2 & Hl2).
  run_calls. rewrite Hop, Hops. eexists _, _, w2, (l2 ++ l1). split_and!; [reflexivity|done| |].
  - by rewrite <-app_assoc.
  - rewrite length_app. cbn. lia.
Qed.

(** Only entities below [k] are left. *)
Definition left_below (k : nat) (es : Entities) : Prop := ∀ j e, es !! j = Some (Some e) → j < k.

Lemma cleared_step k es : ordered es → left_below (S k) es → ordered (<[k := None]> es) ∧ left_below k (<[k := None]> es).
Proof.
  intros Hes Hb.
  assert (∀ j e, <[k := None]> es !! j = Some (Some e) → es !! j = Some (Some e) ∧ j < k) as Hj.
  { intros j e Hj. destruct (decide (j = k)) as [->|Hne].
    - destruct (decide (k < length es)); [by rewrite list_lookup_insert_eq in Hj|].
      rewrite list_insert_ge in Hj by lia. apply lookup_lt_Some in Hj. lia.
    - rewrite list_lookup_insert_ne in Hj by done. split; [done|]. specialize (Hb j e Hj). lia. }
  split; [|intros j e He; by apply Hj in He as [_ ?]].
  intros j name s [Hk Hlt]%Hj. destruct (Hes j name s Hk) as (Hs & o & Ho & Hso). split; [done|]. exists o.
  by rewrite list_lookup_insert_ne by lia.
Qed.

Lemma destroy_keeps k o es leaked w :
  accounted w (objects es) leaked → es !! k = Some (Some (EObject o)) →
  ∃ w', destroy o w = Some ((), w') ∧ accounted w' (objects (<[k := None]> es)) leaked.
Proof.
  intros Hacc Hk. destruct (release_accounted w (objects es) leaked k o None Hacc) as (w' & Hclose & Hacc').
  { unfold objects. by rewrite list_lookup_fmap, Hk. } { done. }
  exists w'. split; [|by unfold objects; rewrite list_fmap_insert].
  revert Hclose. destruct o as [s|s|p|s]; cbn [descriptor destroy];
    unfold Terminate, TerminatePipe, destroy_server, destroy_pipe_server; run_calls;
    unfold g_invalid_socket, g_invalid_named_pipe; destruct (negb _); by intros [= ->] || by intros ->.
Qed.

(** One entity is destroyed, with the stream of a driver still there. *)
Lemma reset_keeps k es leaked w :
  ordered es → left_below (S k) es → accounted w (objects es) leaked →
  ∃ es' w', reset k es w = Some (es', w') ∧ ordered es' ∧ left_below k es' ∧ length es' = length es
    ∧ accounted w' (objects es') leaked.
Proof.
  intros Hes Hb Hacc. unfold reset. destruct (cleared_step k es Hes Hb) as [Hes' Hb'].
  assert (object_of (mjoin (es !! k)) = None → accounted w (objects (<[k := None]> es)) leaked) as Hno.
  { intros Hn. eapply accounted_perm; [done|]. unfold objects. rewrite list_fmap_insert.
    destruct (es !! k) as [e|] eqn:Hk.
    - rewrite list_insert_id; [done|]. rewrite list_lookup_fmap, Hk. cbn in *. by rewrite Hn.
    - rewrite list_insert_ge; [done|]. rewrite length_fmap. by apply lookup_ge_None. }
  destruct (es !! k) as [[[o|text|name stream]|]|] eqn:Hk; cbn [mjoin option_join] in *.
  - destruct (destroy_keeps k o es leaked w Hacc Hk) as (w' & Hd & Hacc'). run_calls. rewrite Hd.
    eexists _, _. split_and!; [reflexivity|done|done|apply length_insert|done].
  - eexists _, _. split_and!; [reflexivity|done|done|apply length_insert|auto].
  - destruct (Hes k name stream Hk) as (Hlt & o & Ho & Hs).
    destruct (end_stream_keeps stream o es leaked w Hacc Ho Hs) as (o' & w' & Hend & Hs' & Hacc').
    run_calls. rewrite Hend. eexists _, _. split; [reflexivity|].
    destruct (cleared_step k (<[stream := Some (EObject o')]> es)) as [Hes2 Hb2].
    { by eapply ordered_insert_stream. }
    { intros j e Hj. apply (Hb j (default e (mjoin (es !! j)))). destruct (decide (j = stream)) as [->|];
        [by rewrite Ho|]. rewrite list_lookup_insert_ne in Hj by done. by rewrite Hj. }
    split_and!; [done|done|by rewrite !length_insert|].
    eapply accounted_perm; [done|]. unfold objects. rewrite !list_fmap_insert.
    rewrite (list_insert_id _ k); [done|]. rewrite list_lookup_insert_ne, list_lookup_fmap, Hk by lia. done.
  - eexists _, _. split_and!; [reflexivity|done|done|apply length_insert|auto].
  - eexists _, _. split_and!; [reflexivity|done|done|apply length_insert|auto].
Qed.

Lemma destroy_down_keeps k es leaked w :
  ordered es → left_below k es → accounted w (objects es) leaked →
  ∃ es' w', destroy_down k es w = Some (es', w') ∧ left_below 0 es' ∧ accounted w' (objects es') leaked.
Proof.
  revert es w. induction k as [|k IH]; intros es w Hes Hb Hacc; cbn [destroy_down]; [by eexists _, _|].
  destruct (reset_keeps k es leaked w Hes Hb Hacc) as (es1 & w1 & Hr & Hes1 & Hb1 & _ & Hacc1).
  run_calls. rewrite Hr. by apply IH.
Qed.

(** C24: a context cleans up after itself.  Whatever clients connect, serve, accept
    and terminate, and whatever the operating system answers, the end of the
    context destroys every driver while its stream is still there, no descriptor
    is closed twice, and none stays open but those that failing calls of [Accept]
    had leaked. *)
Theorem context_cleans_up (ops : list api_op) :
  ∃ es rs w es' w' leaked, run_ops ops [] no_system = Some ((es, rs), w)
    ∧ destroy_context es w = Some (es', w')
    ∧ fds w' = list_to_set leaked ∧ NoDup leaked ∧ length leaked = count_lost ops rs ∧ addrinfos w' = 0.
Proof.
  destruct (run_ops_keeps ops [] [] no_system) as (es & rs & w & leaked & Hrun & Hes & Hacc & Hl).
  { intros k name s Hk. by rewrite lookup_nil in Hk. }
  { split; [constructor| |constructor|done]. cbn. set_solver. }
  rewrite app_nil_r in Hacc.
  destruct (destroy_down_keeps (length es) es leaked w Hes) as (es' & w' & Hd & Hb & [Hn Ho _ Hi]); [|done|].
  { intros j e Hj. by eapply lookup_lt_Some. }
  assert (owned (objects es') = []) as Hnone.
  { clear -Hb. unfold owned, objects. induction es' as [|[e|] es' IH]; [done| |].
    - specialize (Hb 0 e eq_refl). lia.
    - cbn. apply IH. intros j e He. specialize (Hb (S j) e He). lia. }
  rewrite Hnone in Hn, Ho. exists es, rs, w, es', w', leaked. split_and!; try done.
  apply set_eq. intros fd. by rewrite (Ho fd), elem_of_list_to_set.
Qed.
End accounting.

(** A server and a client of it; the socket that the server accepts is leaked if
    its option cannot be set. *)
Definition demo_program : list api_op :=
  [NewTCPServer 80 1; ConnectTCP (Some "localhost") 80; AcceptOn 0 EmptyString; TerminateDriver 3; ConnectTCP None 80].

Definition demo_end (no_delay_works : bool) : option (list (option nat) * list Z) :=
  '(es, rs, w) ← @run_ops (demo_os no_delay_works) demo_program [] no_system;
  '(_, w) ← @destroy_context (demo_os no_delay_works) es w;
  Some (rs.*1, elements (fds w)).

Example demo_context :
  demo_end true = Some ([Some 0; Some 3; Some 6; None; None], [])
  ∧ demo_end false = Some ([Some 0; None; None; None; None], [1%Z]).
Proof. split; vm_compute; reflexivity. Qed.
