(* ===== verification/Generator.v ===== *)
(** * Generator: coroutines that answer calls
    ([src/src/libedr/util/asynchronicity/Asynchronicity.hpp]:
    [GeneratorArguments], [GeneratorPromise], [OwnedGenerator]).

    [PullJtag] and [PullAPB] keep their place in the transactions inside of
    coroutines.  A call stores its arguments in the promise of the coroutine,
    resumes it, and takes the result that it has yielded.  The body of a coroutine
    is a function from its place and the arguments it gets to what it does until
    it is suspended again. *)
From S2P Require Import Prelude.

Section generator.
Context {S A R : Type}.

(** The body up to its next suspension: [co_yield] with a value, or the end. *)
Inductive effect := Yields (value : R) (place : S) | Returns (place : S).

Inductive place := At (s : S) | Finished (s : S).

(** [GeneratorPromise] with its [GeneratorArguments]. *)
Record Promise := mkPromise { args : option A; result : option R; where_ : place }.

(** [m_handle] is null if there was no memory for the frame. *)
Definition Generator : Type := option Promise.

Context (body : S → A → effect).

(** [yield_value] hands out the arguments, whose [await_ready] says whether the
    coroutine goes on at once; [await_resume] takes them. *)
Definition Set_ (a : A) (p : Promise) : Promise := mkPromise (Some a) (result p) (where_ p).

Definition await_resume (p : Promise) : option (A * Promise) :=
  a ← args p; Some (a, mkPromise None (result p) (where_ p)).

(** The coroutine runs with the arguments it was given until it yields with none
    left, or ends; a coroutine that has ended cannot be resumed. *)
Definition resume (p : Promise) : option Promise :=
  match where_ p with
  | Finished _ => None
  | At s =>
      '(a, p) ← await_resume p;
      Some (match body s a with
            | Yields r s => mkPromise (args p) (Some r) (At s)
            | Returns s => mkPromise (args p) (result p) (Finished s)
            end)
  end.

(** The call of a coroutine function: [initial_suspend] lets it run to its first
    [co_yield]. *)
Definition create (memory : bool) (first : effect) : Generator :=
  if memory then
    Some (match first with
          | Yields r s => mkPromise None (Some r) (At s)
          | Returns s => mkPromise None None (Finished s)
          end)
  else None.

(** [operator bool]. *)
Definition alive (g : Generator) : bool :=
  match g with Some (mkPromise _ _ (At _)) => true | _ => false end.

(** [operator()]. *)
Definition call (a : A) (g : Generator) : option (R * Generator) :=
  p ← g;
  p ← resume (Set_ a p);
  r ← result p;
  Some (r, Some p).

Fixpoint calls (l : list A) (g : Generator) : option (list R * Generator) :=
  match l with
  | [] => Some ([], g)
  | a :: l => '(r, g) ← call a g; '(rs, g) ← calls l g; Some (r :: rs, g)
  end.

(** The body as a function that is called: its results until it ends, and where it is then. *)
Fixpoint runs (s : S) (l : list A) : list R * place * list A :=
  match l with
  | [] => ([], At s, [])
  | a :: l =>
      match body s a with
      | Yields r s => let '(rs, p, rest) := runs s l in (r :: rs, p, rest)
      | Returns s => ([], Finished s, a :: l)
      end
  end.

(** A generator gives for each call what its body yields for the arguments of this
    call at the place where it was left, as long as the body does not end; the
    call with which it ends gets the last result again, and a later one is a
    fault. *)
Theorem generator_runs_body (s : S) (r0 : R) (l : list A) :
  let g := create true (Yields r0 s) in
  let '(rs, p, rest) := runs s l in
  match rest with
  | [] => ∃ r, calls l g = Some (rs, Some (mkPromise None (Some r) p)) ∧ last (r0 :: rs) = Some r
  | [_] => ∃ r, calls l g = Some (rs ++ [r], Some (mkPromise None (Some r) p)) ∧ last (r0 :: rs) = Some r
  | _ => calls l g = None
  end.
Proof.
  cbn. revert s r0. induction l as [|a l IH]; intros s r0; cbn; [by exists r0|].
  destruct (body s a) as [r s'|s'] eqn:E; cbn.
  - specialize (IH s' r). destruct (runs s' l) as [[rs p] rest].
    destruct rest as [|x [|y rest]].
    + destruct IH as (r' & -> & Hl). by exists r'.
    + destruct IH as (r' & -> & Hl). by exists r'.
    + by rewrite IH.
  - destruct l as [|b l]; cbn; [by exists r0|done].
Qed.
End generator.

Arguments effect : clear implicits.
Arguments Promise : clear implicits.
Arguments Generator : clear implicits.

(** A coroutine that adds up what it is given and ends at 0. *)
Definition adder (s a : nat) : effect nat nat := if a =? 0 then Returns s else Yields (s + a) (s + a).

Example demo_adder :
  fst <$> calls adder [3; 4] (create true (Yields 0 0)) = Some [3; 7]
  ∧ (λ r, (r.1, alive r.2)) <$> calls adder [3; 4; 0] (create true (Yields 0 0)) = Some ([3; 7; 7], false)
  ∧ calls adder [3; 0; 4] (create true (Yields 0 0)) = None
  ∧ calls adder [3] (create false (Yields 0 0)) = None.
Proof. done. Qed.
