(* ===== verification/ResolutionMap.v ===== *)
(** * ResolutionMap
    ([src/src/libedr/util/asynchronicity/ResolutionMap.hpp], over
    [BucketArrayMap.hpp] and the awaiting side of [Asynchronicity.hpp]).

    Items that wait under an index until somebody resolves them, as the pending
    transactions of the tunnel do.  The item lives in the map, not in the coroutine
    that awaits it: an awaiter holds a pointer into a bucket, and whoever resolves
    the item erases it.  Any number of awaiters and resolvers take atomic steps in
    any order; touching an item that is no longer there, or another one that was
    constructed in its place, is [None]. *)
From S2P Require Import Prelude Asynchronicity BucketArrayMap.

Section resolution_map.
Context {T R : Type} (no_result : R) (n : nat).

(** [m_continuation]: the marks, or the coroutine of an awaiter. *)
Inductive continuation :=
| Initial
| ResultReady
| AwaitableDestroyed
| Awaiter (k : nat).

(** [made_for] tells objects at the same place apart: it is the number of the
    awaiter that the item was constructed for. *)
Record Item := mkItem {
  m_continuation : continuation;
  m_result : option R;
  data : T;
  made_for : nat;
}.

Abbreviation pointer := (nat * nat)%type.

(** An [Awaitable] in a coroutine: the pointer, how far the coroutine is (as in
    [Asynchronicity]), and what its [co_await] gave. *)
Record Awaitable := mkAwaitable {
  m_item : option pointer;
  pc : owner_pc;
  taken : option R;
}.

(** The map, all awaitables so far, and the indices that are being resolved, with
    the awaiter inside of whose [resume] the resolver is. *)
Record World := mkWorld {
  m_map : Map Item;
  awaitables : list Awaitable;
  resolving : gmap nat (option nat);
}.

Definition set_map (w : World) (m : Map Item) : World := mkWorld m (awaitables w) (resolving w).

Definition set_awaitable (w : World) (k : nat) (a : Awaitable) : World :=
  mkWorld (m_map w) (<[k := a]> (awaitables w)) (resolving w).

(** ** Operations of the map *)

Definition Get (w : World) (index : nat) : option Item := Get n (λ _, false) (m_map w) index.

Definition Erase (w : World) (index : nat) : World := set_map w (Erase n (λ _, false) (m_map w) index).

(** The awaitable holds the emplaced item, or nothing without memory. *)
Definition Emplace (alloc : nat → bool) (w : World) (index : nat) (x : T) : World :=
  let '(ok, m) :=
    Emplace n alloc (m_map w) index (mkItem Initial None x (length (awaitables w))) in
  let emplaced := if ok : bool then (GetBucketAndOffset n alloc m index false).1 else None in
  mkWorld m (awaitables w ++ [mkAwaitable emplaced OHolding None]) (resolving w).

(** ** The awaiter *)

(** [ForResolver] of awaitable [k]. *)
Definition for_resolver (w : World) (k : nat) (p : pointer) : option Item :=
  x ← item (m_map w) p;
  check (made_for x =? k)%nat;;
  Some x.

Definition is_initial (c : continuation) : bool := if c is Initial then true else false.

Definition await_ready (w : World) (k : nat) : option World :=
  a ← awaitables w !! k;
  match m_item a with
  | None => Some (set_awaitable w k (mkAwaitable None OResumed (taken a)))
  | Some p =>
      x ← for_resolver w k p;
      let next := if is_initial (m_continuation x) then OChecked else OResumed in
      Some (set_awaitable w k (mkAwaitable (Some p) next (taken a)))
  end.

(** The compare-and-exchange. *)
Definition await_suspend (w : World) (k : nat) : option World :=
  a ← awaitables w !! k;
  p ← m_item a;
  x ← for_resolver w k p;
  if is_initial (m_continuation x) then
    let x := mkItem (Awaiter k) (m_result x) (data x) (made_for x) in
    Some (set_awaitable (set_map w (set_item (m_map w) p (Some x))) k
            (mkAwaitable (Some p) OSuspended (taken a)))
  else Some (set_awaitable w k (mkAwaitable (Some p) OResumed (taken a))).

(** Without an item the result is the default one. *)
Definition TakeResult (w : World) (k : nat) : option World :=
  a ← awaitables w !! k;
  match m_item a with
  | None => Some (set_awaitable w k (mkAwaitable None OTaken (Some no_result)))
  | Some p =>
      x ← for_resolver w k p;
      r ← m_result x;
      Some (set_awaitable w k (mkAwaitable (Some p) OTaken (Some r)))
  end.

(** [~Awaitable]. *)
Definition destroy (w : World) (k : nat) : option World :=
  a ← awaitables w !! k;
  match m_item a with
  | None => Some (set_awaitable w k (mkAwaitable None OGone (taken a)))
  | Some p =>
      x ← for_resolver w k p;
      let x := mkItem AwaitableDestroyed (m_result x) (data x) (made_for x) in
      Some (set_awaitable (set_map w (set_item (m_map w) p (Some x))) k
              (mkAwaitable (Some p) OGone (taken a)))
  end.

(** ** The resolver *)

(** [item->resolver.return_value(r)] as [Resolve] calls it: the result, the exchange,
    and the awaiter that was found and is resumed. *)
Definition return_value (x : Item) (r : R) : Item * option nat :=
  let next c := mkItem c (Some r) (data x) (made_for x) in
  match m_continuation x with
  | Initial => (next ResultReady, None)
  | AwaitableDestroyed => (next AwaitableDestroyed, None)
  | ResultReady => (next ResultReady, None)
  | Awaiter k => (next ResultReady, Some k)
  end.

Definition resume (w : World) (k : nat) : option World :=
  a ← awaitables w !! k;
  check (bool_decide (pc a = OSuspended));;
  Some (set_awaitable w k (mkAwaitable (m_item a) OResumed (taken a))).

(** [Resolve] up to the point where the awaiter runs; nothing happens if there is no
    item under the index.  (A second resolution would resume the mark of the
    first.) *)
Definition Resolve_begin (w : World) (index : nat) (r : R) : option World :=
  match Get w index with
  | None => Some w
  | Some x =>
      p ← (GetBucketAndOffset n (λ _, false) (m_map w) index false).1;
      check (match m_continuation x with ResultReady => false | _ => true end);;
      let '(x, resumed) := return_value x r in
      let w := mkWorld (set_item (m_map w) p (Some x)) (awaitables w)
                 (<[index := resumed]> (resolving w)) in
      match resumed with Some k => resume w k | None => Some w end
  end.

(** [Resolve] behind it. *)
Definition Resolve_end (w : World) (index : nat) : World :=
  Erase (mkWorld (m_map w) (awaitables w) (delete index (resolving w))) index.

(** ** Steps *)

Inductive op :=
| OpEmplace (alloc : nat → bool) (index : nat) (x : T)
| OpAwaitReady (k : nat)
| OpAwaitSuspend (k : nat)
| OpTakeResult (k : nat)
| OpDestroy (k : nat)
| OpResolve (index : nat) (r : R)
| OpErase (index : nat).

Definition exec (w : World) (o : op) : option World :=
  match o with
  | OpEmplace alloc index x => Some (Emplace alloc w index x)
  | OpAwaitReady k => await_ready w k
  | OpAwaitSuspend k => await_suspend w k
  | OpTakeResult k => TakeResult w k
  | OpDestroy k => destroy w k
  | OpResolve index r => Resolve_begin w index r
  | OpErase index => Some (Resolve_end w index)
  end.

Definition pc_of (w : World) (k : nat) : option owner_pc := pc <$> awaitables w !! k.

(** Who does what: an index is not given twice at a time, a coroutine goes through
    its [co_await] and drops the awaitable before it suspends again, and an item is
    resolved by one thread, not before the coroutine awaits it or has dropped it. *)
Definition legal (w : World) (o : op) : Prop :=
  match o with
  | OpEmplace _ index _ => Get w index = None
  | OpAwaitReady k => pc_of w k = Some OHolding
  | OpAwaitSuspend k => pc_of w k = Some OChecked
  | OpTakeResult k => pc_of w k = Some OResumed
  | OpDestroy k => pc_of w k = Some OHolding ∨ pc_of w k = Some OResumed ∨ pc_of w k = Some OTaken
  | OpResolve index _ => resolving w !! index = None
      ∧ ∀ x, Get w index = Some x → m_continuation x ≠ Initial
  | OpErase index => ∃ r, resolving w !! index = Some r
      ∧ ∀ k, r = Some k → pc_of w k = Some OGone
  end.

Definition start : World := mkWorld [] [] ∅.

(** Legal sequences, with the world they lead to; [exec] may fail only if it
    faults. *)
Inductive legal_run : list op → World → Prop :=
| run_nil : legal_run [] start
| run_snoc ops w o w' : legal_run ops w → legal w o → exec w o = Some w' → legal_run (ops ++ [o]) w'.

Fixpoint run (w : World) (ops : list op) : option World :=
  match ops with
  | [] => Some w
  | o :: ops => w ← exec w o; run w ops
  end.
End resolution_map.

Arguments op : clear implicits.
Arguments World : clear implicits.
Arguments Item : clear implicits.
Arguments Awaitable : clear implicits.
Arguments start {T R}.

(** ** Invariant *)

Section proofs.
Context {T R : Type} (no_result : R) (n : nat) (Hn : 0 < n).
Implicit Types (w : World T R) (x : Item T R) (a : Awaitable R) (m : Map (Item T R)).

Definition ptr (i : nat) : nat * nat := (i / n, i mod n).

Lemma ptr_inj i j : ptr i = ptr j → i = j.
Proof. intros [= Hd Hm]. by rewrite (Nat.div_mod_eq i n), (Nat.div_mod_eq j n), Hd, Hm. Qed.

(** How an item and its awaiter [k] stand: [r] is the resolver at work on it. *)
Definition agrees (p : owner_pc) (k : nat) x (r : option (option nat)) : Prop :=
  match p with
  | OHolding | OChecked => m_continuation x = Initial ∧ r = None
  | OSuspended => m_continuation x = Awaiter k ∧ r = None
  | OResumed | OTaken =>
      m_continuation x = ResultReady ∧ is_Some (m_result x) ∧ r = Some (Some k)
  | OGone => m_continuation x = AwaitableDestroyed ∧ ∀ k', r = Some (Some k') → k' = k
  end.

Record Inv w : Prop := {
  inv_wf : wf n (m_map w);
  inv_held : ∀ k a p, awaitables w !! k = Some a → m_item a = Some p → pc a ≠ OGone →
    ∃ i x, p = ptr i ∧ abs n (m_map w) i = Some x ∧ made_for x = k;
  inv_null : ∀ k a, awaitables w !! k = Some a → m_item a = None →
    pc a ≠ OChecked ∧ pc a ≠ OSuspended;
  inv_item : ∀ i x, abs n (m_map w) i = Some x → ∃ a, awaitables w !! made_for x = Some a
    ∧ m_item a = Some (ptr i) ∧ agrees (pc a) (made_for x) x (resolving w !! i);
  inv_resolving : ∀ i r, resolving w !! i = Some r → is_Some (abs n (m_map w) i);
}.

Lemma Inv_start : Inv start.
Proof. split; [constructor|done|done|done|done]. Qed.

Lemma Get_abs' w i : Inv w → Get n w i = abs n (m_map w) i.
Proof. intros Hw. apply Get_abs; [done|apply Hw]. Qed.

Lemma existing_ptr alloc w i x :
  Inv w → abs n (m_map w) i = Some x → (GetBucketAndOffset n alloc (m_map w) i false).1 = Some (ptr i).
Proof.
  intros Hw Hx. rewrite find_existing by (done || apply Hw). case_decide as Hi; [done|].
  revert Hx. unfold abs, item. cbn [fst]. by rewrite lookup_ge_None_2 by lia.
Qed.

Lemma abs_set_ptr m i x x' :
  wf n m → abs n m i = Some x → wf n (set_item m (ptr i) (Some x'))
  ∧ ∀ j, abs n (set_item m (ptr i) (Some x')) j = if decide (j = i) then Some x' else abs n m j.
Proof.
  intros Hm Hx. split; [by apply wf_set_item|]. intros j. apply abs_set_item; [done|done|].
  apply not_ge. intros Hge. revert Hx. unfold abs, item. cbn [fst].
  by rewrite lookup_ge_None_2 by lia.
Qed.

(** One item, its awaiter and its resolver change. *)
Lemma Inv_update w i x a m x' a' res :
  Inv w → abs n (m_map w) i = Some x → awaitables w !! made_for x = Some a →
  wf n m → (∀ j, abs n m j = if decide (j = i) then Some x' else abs n (m_map w) j) →
  made_for x' = made_for x → m_item a' = Some (ptr i) →
  (∀ j, j ≠ i → res !! j = resolving w !! j) →
  agrees (pc a') (made_for x) x' (res !! i) →
  Inv (mkWorld m (<[made_for x := a']> (awaitables w)) res).
Proof.
  intros Hw Hx Ha Hm Habs Hmade Hp Hres Hag.
  assert (Hlt : made_for x < length (awaitables w)) by (by eapply lookup_lt_Some).
  split; cbn [m_map awaitables resolving]; [done| | | |].
  - intros k b p Hb Hbp Hpc. destruct (decide (k = made_for x)) as [->|Hne].
    + rewrite list_lookup_insert_eq in Hb by done. injection Hb as <-. rewrite Hp in Hbp.
      injection Hbp as <-. exists i, x'. by rewrite Habs, decide_True.
    + rewrite list_lookup_insert_ne in Hb by done.
      destruct (inv_held _ Hw _ _ _ Hb Hbp Hpc) as (j & y & -> & Hy & <-). exists j, y.
      rewrite Habs, decide_False by (intros ->; congruence). done.
  - intros k b Hb Hbp. destruct (decide (k = made_for x)) as [->|Hne].
    + rewrite list_lookup_insert_eq in Hb by done. congruence.
    + rewrite list_lookup_insert_ne in Hb by done. by eapply inv_null.
  - intros j y Hy. rewrite Habs in Hy. destruct (decide (j = i)) as [->|Hji].
    + injection Hy as <-. exists a'. rewrite Hmade, list_lookup_insert_eq by done. done.
    + destruct (inv_item _ Hw _ _ Hy) as (b & Hb & Hbp & Hbag). exists b.
      rewrite list_lookup_insert_ne, Hres by (done || (intros He; apply Hji, ptr_inj;
        destruct (inv_item _ Hw _ _ Hx) as (? & ? & ? & _); congruence)). done.
  - intros j r Hr. rewrite Habs. case_decide; [done|]. rewrite Hres in Hr by done.
    by eapply inv_resolving.
Qed.

(** An awaiter without an item goes on. *)
Lemma Inv_null w k a a' :
  Inv w → awaitables w !! k = Some a → m_item a = None → m_item a' = None →
  pc a' ≠ OChecked → pc a' ≠ OSuspended → Inv (set_awaitable w k a').
Proof.
  intros Hw Ha Hp Hp' Hc Hs. assert (Hlt : k < length (awaitables w)) by (by eapply lookup_lt_Some).
  split; cbn [set_awaitable m_map awaitables resolving]; [apply Hw| | | |apply Hw].
  - intros j b p Hb Hbp Hpc. destruct (decide (j = k)) as [->|Hne].
    + rewrite list_lookup_insert_eq in Hb by done. congruence.
    + rewrite list_lookup_insert_ne in Hb by done. by eapply inv_held.
  - intros j b Hb Hbp. destruct (decide (j = k)) as [->|Hne].
    + rewrite list_lookup_insert_eq in Hb by done. by injection Hb as <-.
    + rewrite list_lookup_insert_ne in Hb by done. by eapply inv_null.
  - intros i x Hx. destruct (inv_item _ Hw _ _ Hx) as (b & Hb & Hbp & Hag). exists b.
    rewrite list_lookup_insert_ne by congruence. done.
Qed.

(** What an awaiter that is not gone finds when it follows its pointer. *)
Lemma touch w k a p :
  Inv w → awaitables w !! k = Some a → m_item a = Some p → pc a ≠ OGone →
  ∃ i x, p = ptr i ∧ abs n (m_map w) i = Some x ∧ made_for x = k
    ∧ for_resolver w k p = Some x ∧ agrees (pc a) k x (resolving w !! i).
Proof.
  intros Hw Ha Hp Hpc. destruct (inv_held _ Hw _ _ _ Ha Hp Hpc) as (i & x & -> & Hx & Hk).
  exists i, x. split_and!; try done.
  - unfold for_resolver. change (item (m_map w) (ptr i)) with (abs n (m_map w) i). rewrite Hx.
    cbn [mbind option_bind]. by rewrite Hk, Nat.eqb_refl.
  - destruct (inv_item _ Hw _ _ Hx) as (b & Hb & _ & Hag). rewrite Hk in Hb, Hag.
    by simplify_eq.
Qed.

Lemma pc_of_Some w k p : pc_of w k = Some p → ∃ a, awaitables w !! k = Some a ∧ pc a = p.
Proof. unfold pc_of. intros (a & -> & ?)%fmap_Some. eauto. Qed.

(** Nothing changes in the map when an awaiter only looks. *)
Lemma Inv_look w i x a' :
  Inv w → abs n (m_map w) i = Some x → m_item a' = Some (ptr i) →
  agrees (pc a') (made_for x) x (resolving w !! i) → Inv (set_awaitable w (made_for x) a').
Proof.
  intros Hw Hx Hp Hag. destruct (inv_item _ Hw _ _ Hx) as (a & Ha & _).
  apply (Inv_update w i x a _ x); try done; [apply Hw|]. intros j. by case_decide; subst.
Qed.

Lemma await_ready_ok w k :
  Inv w → pc_of w k = Some OHolding → ∃ w', await_ready w k = Some w' ∧ Inv w'.
Proof.
  intros Hw (a & Ha & Hpc)%pc_of_Some. unfold await_ready. rewrite Ha. cbn [mbind option_bind].
  destruct (m_item a) as [p|] eqn:Hp.
  - destruct (touch w k a p) as (i & x & -> & Hx & <- & -> & Hag); [done..|congruence|].
    rewrite Hpc in Hag. destruct Hag as [Hc Hr]. cbn [mbind option_bind]. rewrite Hc.
    cbn [is_initial]. eexists; split; [done|]. by apply (Inv_look w i).
  - eexists; split; [done|]. by apply (Inv_null w k a).
Qed.

Lemma await_suspend_ok w k :
  Inv w → pc_of w k = Some OChecked → ∃ w', await_suspend w k = Some w' ∧ Inv w'.
Proof.
  intros Hw (a & Ha & Hpc)%pc_of_Some. unfold await_suspend. rewrite Ha. cbn [mbind option_bind].
  destruct (m_item a) as [p|] eqn:Hp; [|by destruct (inv_null w Hw k a)].
  destruct (touch w k a p) as (i & x & -> & Hx & <- & Hf & Hag); [done..|congruence|].
  rewrite Hpc in Hag. destruct Hag as [Hc Hr]. cbn [mbind option_bind]. rewrite Hf.
  cbn [mbind option_bind]. rewrite Hc. cbn [is_initial]. eexists; split; [done|].
  destruct (abs_set_ptr (m_map w) i x (mkItem (Awaiter (made_for x)) (m_result x) (data x) (made_for x)))
    as [Hwf Habs]; [apply Hw|done|].
  by eapply (Inv_update w i x a).
Qed.

Lemma TakeResult_ok w k :
  Inv w → pc_of w k = Some OResumed → ∃ w', TakeResult no_result w k = Some w' ∧ Inv w'.
Proof.
  intros Hw (a & Ha & Hpc)%pc_of_Some. unfold TakeResult. rewrite Ha. cbn [mbind option_bind].
  destruct (m_item a) as [p|] eqn:Hp.
  - destruct (touch w k a p) as (i & x & -> & Hx & <- & -> & Hag); [done..|congruence|].
    rewrite Hpc in Hag. pose proof Hag as (_ & [r Hr] & _). cbn [mbind option_bind]. rewrite Hr.
    cbn [mbind option_bind]. eexists; split; [done|]. by apply (Inv_look w i).
  - eexists; split; [done|]. by apply (Inv_null w k a).
Qed.

Lemma destroy_ok w k :
  Inv w → legal n w (OpDestroy k) → ∃ w', destroy w k = Some w' ∧ Inv w'.
Proof.
  intros Hw Hl. assert (Ha : ∃ a, awaitables w !! k = Some a ∧ pc a ≠ OGone ∧ pc a ≠ OSuspended).
  { destruct Hl as [Hl|[Hl|Hl]]; apply pc_of_Some in Hl as (a & ? & ?); exists a; split_and!; congruence. }
  destruct Ha as (a & Ha & Hpc & Hns). unfold destroy. rewrite Ha. cbn [mbind option_bind].
  destruct (m_item a) as [p|] eqn:Hp.
  - destruct (touch w k a p) as (i & x & -> & Hx & <- & Hf & Hag); [done..|]. rewrite Hf.
    cbn [mbind option_bind]. eexists; split; [done|].
    destruct (abs_set_ptr (m_map w) i x (mkItem AwaitableDestroyed (m_result x) (data x) (made_for x)))
      as [Hwf Habs]; [apply Hw|done|].
    eapply (Inv_update w i x a); try done. cbn [pc agrees m_continuation set_map resolving].
    split; [done|]. intros k' Hk. destruct (pc a); cbn in Hag; try done; destruct_and?; congruence.
  - eexists; split; [done|]. by apply (Inv_null w k a).
Qed.

Lemma Emplace_ok alloc w i v :
  Inv w → Get n w i = None → Inv (Emplace n alloc w i v).
Proof.
  intros Hw Hg. rewrite Get_abs' in Hg by done. unfold Emplace.
  destruct (BucketArrayMap.Emplace n alloc (m_map w) i _) as [ok m] eqn:He.
  pose proof (abs_Emplace n Hn _ _ _ _ _ _ (inv_wf _ Hw) He) as [Hm Habs].
  set (k := length (awaitables w)) in *.
  assert (Hnew : ok = true → (GetBucketAndOffset n alloc m i false).1 = Some (ptr i)).
  { intros ->. rewrite find_existing by done. case_decide as Hi; [done|]. specialize (Habs i).
    rewrite decide_True in Habs by done. revert Habs. unfold abs, item. cbn [fst].
    by rewrite lookup_ge_None_2 by lia. }
  assert (Hres : resolving w !! i = None).
  { destruct (resolving w !! i) eqn:Hr; [|done]. apply (inv_resolving _ Hw) in Hr as [? ?]. congruence. }
  assert (Hkeep : ∀ j y, abs n (m_map w) j = Some y → abs n m j = Some y).
  { intros j y Hy. rewrite Habs. by case_decide; [congruence|]. }
  split; cbn [m_map awaitables resolving]; [done| | | |].
  - intros k' a p [Ha|[-> [= <-]]]%lookup_snoc_Some Hp Hpc.
    + destruct Ha as [_ Ha]. destruct (inv_held _ Hw _ _ _ Ha Hp Hpc) as (j & y & -> & Hy & <-). eauto 6.
    + cbn [m_item] in Hp. destruct ok; [|done]. rewrite Hnew in Hp by done. injection Hp as <-.
      eexists i, _. rewrite Habs, decide_True by done. done.
  - intros k' a [[_ Ha]|[-> [= <-]]]%lookup_snoc_Some Hp; [by eapply inv_null|done].
  - intros j y Hy. rewrite Habs in Hy. case_decide as Hj; [subst j|].
    + destruct ok; [|congruence]. injection Hy as <-. cbn [made_for]. eexists.
      rewrite lookup_app_r, Nat.sub_diag by done. split; [done|]. cbn [m_item]. by rewrite Hnew.
    + destruct (inv_item _ Hw _ _ Hy) as (a & Ha & ?). exists a. by rewrite (lookup_app_l_Some _ _ _ _ Ha).
  - intros j r Hr. destruct (inv_resolving _ Hw _ _ Hr) as [y Hy]. eauto.
Qed.

Lemma Resolve_begin_ok w i r :
  Inv w → legal n w (OpResolve i r) → ∃ w', Resolve_begin n w i r = Some w' ∧ Inv w'.
Proof.
  intros Hw [Hres Hc]. unfold Resolve_begin. rewrite Get_abs' in * by done.
  destruct (abs n (m_map w) i) as [x|] eqn:Hx; [|by eauto].
  rewrite (existing_ptr _ w i x) by done. cbn [mbind option_bind]. specialize (Hc x eq_refl).
  destruct (inv_item _ Hw _ _ Hx) as (a & Ha & Hp & Hag). rewrite Hres in Hag.
  assert (Hupd : ∀ c a' res, m_item a' = Some (ptr i) →
    agrees (pc a') (made_for x) (mkItem c (Some r) (data x) (made_for x)) (Some res) →
    Inv (mkWorld (set_item (m_map w) (ptr i) (Some (mkItem c (Some r) (data x) (made_for x))))
           (<[made_for x := a']> (awaitables w)) (<[i := res]> (resolving w)))).
  { intros c a' res Hp' Hag'.
    destruct (abs_set_ptr (m_map w) i x (mkItem c (Some r) (data x) (made_for x)))
      as [Hwf Habs]; [apply Hw|done|]. eapply (Inv_update w i x a); try done.
    - intros j Hj. by rewrite lookup_insert_ne.
    - by rewrite lookup_insert_eq. }
  unfold return_value. destruct (pc a) eqn:Hpc; cbn in Hag; destruct Hag as [Hcx Hag]; try congruence.
  - rewrite Hcx. cbn [check mbind option_bind]. unfold resume. cbn [awaitables].
    rewrite Ha. cbn [mbind option_bind]. rewrite bool_decide_eq_true_2 by done. cbn.
    eexists; split; [done|]. by apply Hupd.
  - by destruct Hag as [_ ?].
  - by destruct Hag as [_ ?].
  - rewrite Hcx. cbn. eexists; split; [done|]. rewrite <-(list_insert_id (awaitables w) (made_for x) a) by done.
    apply Hupd; [done|]. rewrite Hpc. by split.
Qed.

Lemma Resolve_end_ok w i : Inv w → legal n w (OpErase i) → Inv (Resolve_end n w i).
Proof.
  intros Hw (r & Hr & Hgone). unfold Resolve_end, Erase. cbn [set_map m_map awaitables resolving].
  destruct (abs_Take n Hn (λ _, false) (m_map w) i (inv_wf _ Hw)) as (m & _ & -> & Hm & _ & Habs).
  destruct (inv_resolving _ Hw _ _ Hr) as [x Hx].
  destruct (inv_item _ Hw _ _ Hx) as (a & Ha & Hp & Hag). rewrite Hr in Hag.
  assert (Hpc : pc a = OGone).
  { destruct (pc a) eqn:Hpc; cbn in Hag; destruct_and?; simplify_eq; try done.
    all: destruct (pc_of_Some _ _ _ (Hgone _ eq_refl)) as (? & ? & ?); congruence. }
  split; cbn [set_map m_map awaitables resolving]; [done| |apply Hw| |].
  - intros k b p Hb Hbp Hbpc. destruct (inv_held _ Hw _ _ _ Hb Hbp Hbpc) as (j & y & -> & Hy & <-).
    exists j, y. rewrite Habs, decide_False by (intros ->; congruence). done.
  - intros j y Hy. rewrite Habs in Hy. case_decide; [done|].
    destruct (inv_item _ Hw _ _ Hy) as (b & ? & ? & ?). exists b. by rewrite lookup_delete_ne.
  - intros j r' Hr'. destruct (decide (j = i)) as [->|Hj]; [by rewrite lookup_delete_eq in Hr'|].
    rewrite lookup_delete_ne in Hr' by done. rewrite Habs, decide_False by done. by eapply inv_resolving.
Qed.

Lemma map_step_ok w o : Inv w → legal n w o → ∃ w', exec no_result n w o = Some w' ∧ Inv w'.
Proof.
  intros Hw Hl. destruct o; cbn [exec].
  - eexists; split; [done|]. by apply Emplace_ok.
  - by apply await_ready_ok.
  - by apply await_suspend_ok.
  - by apply TakeResult_ok.
  - by apply destroy_ok.
  - by apply Resolve_begin_ok.
  - eexists; split; [done|]. by apply Resolve_end_ok.
Qed.

Lemma legal_run_Inv ops w : legal_run no_result n ops w → Inv w.
Proof.
  induction 1 as [|ops w o w' _ Hw Hl He]; [apply Inv_start|].
  destruct (map_step_ok w o Hw Hl) as (w2 & ? & ?). congruence.
Qed.

(** ** Results *)

(** Somebody resolved with [r] the index under which the item of awaiter [k] was. *)
Definition delivered (ops : list (op T R)) (k : nat) (r : R) : Prop :=
  ∃ ops1 ops2 w1 i x, ops = ops1 ++ OpResolve i r :: ops2 ∧ legal_run no_result n ops1 w1
    ∧ Get n w1 i = Some x ∧ made_for x = k.

Record Results ops w : Prop := {
  stored : ∀ i x r, abs n (m_map w) i = Some x → m_result x = Some r → delivered ops (made_for x) r;
  received : ∀ k a r, awaitables w !! k = Some a → taken a = Some r →
    match m_item a with None => r = no_result | Some _ => delivered ops k r end;
}.

Lemma delivered_snoc ops k r o : delivered ops k r → delivered (ops ++ [o]) k r.
Proof.
  intros (ops1 & ops2 & w1 & i & x & -> & ?). exists ops1, (ops2 ++ [o]), w1, i, x.
  by rewrite <-app_assoc.
Qed.

(** Results stay where they are while items and awaitables keep theirs. *)
Lemma Results_keep ops o w w' :
  Results ops w →
  (∀ i x r, abs n (m_map w') i = Some x → m_result x = Some r →
    (∃ y, abs n (m_map w) i = Some y ∧ m_result y = Some r ∧ made_for y = made_for x)
    ∨ delivered (ops ++ [o]) (made_for x) r) →
  (∀ k a r, awaitables w' !! k = Some a → taken a = Some r →
    (∃ b, awaitables w !! k = Some b ∧ taken b = Some r ∧ m_item b = m_item a)
    ∨ match m_item a with None => r = no_result | Some _ => delivered (ops ++ [o]) k r end) →
  Results (ops ++ [o]) w'.
Proof.
  intros Hr Hi Ha. split.
  - intros i x r Hx Hxr. destruct (Hi i x r Hx Hxr) as [(y & Hy & Hyr & <-)|]; [|done].
    apply delivered_snoc. by eapply stored.
  - intros k a r Hk Har. destruct (Ha k a r Hk Har) as [(b & Hb & Hbr & <-)|]; [|done].
    pose proof (received _ _ Hr _ _ _ Hb Hbr) as Hd. destruct (m_item b); [|done].
    by apply delivered_snoc.
Qed.

Lemma awaitable_keeps (l : list (Awaitable R)) k a a' :
  l !! k = Some a → m_item a' = m_item a → taken a' = taken a →
  ∀ j b r, <[k := a']> l !! j = Some b → taken b = Some r →
    ∃ c, l !! j = Some c ∧ taken c = Some r ∧ m_item c = m_item b.
Proof.
  intros Ha Hp Ht j b r Hb Hr. destruct (decide (j = k)) as [->|Hj].
  - rewrite list_lookup_insert_eq in Hb by (by eapply lookup_lt_Some). injection Hb as <-.
    exists a. split_and!; congruence.
  - rewrite list_lookup_insert_ne in Hb by done. eauto.
Qed.

Lemma item_keeps m i x x' :
  wf n m → abs n m i = Some x → m_result x' = m_result x → made_for x' = made_for x →
  ∀ j y r, abs n (set_item m (ptr i) (Some x')) j = Some y → m_result y = Some r →
    ∃ z, abs n m j = Some z ∧ m_result z = Some r ∧ made_for z = made_for y.
Proof.
  intros Hm Hx Hr Hk j y r Hy Hyr. destruct (abs_set_ptr m i x x' Hm Hx) as [_ Habs].
  rewrite Habs in Hy. case_decide; [|by eauto]. injection Hy as <-. subst j. exists x.
  split_and!; congruence.
Qed.

(** The steps of an awaiter before it takes the result. *)
Lemma await_Results ops o w w' k :
  Inv w → Results ops w → legal n w o →
  o = OpAwaitReady k ∨ o = OpAwaitSuspend k ∨ o = OpDestroy k →
  exec no_result n w o = Some w' → Results (ops ++ [o]) w'.
Proof.
  intros Hw Hr Hl Ho He.
  assert (Ha : ∃ a, awaitables w !! k = Some a ∧ pc a ≠ OGone).
  { destruct Ho as [->|[->| ->]]; cbn in Hl; destruct_or?;
      match goal with H : pc_of _ _ = _ |- _ => apply pc_of_Some in H as (a & ? & ?) end;
      exists a; split; congruence. }
  destruct Ha as (a & Ha & Hpc).
  assert (Hf : ∀ p x, m_item a = Some p → for_resolver w k p = Some x → ∃ i, p = ptr i ∧ abs n (m_map w) i = Some x).
  { intros p x Hp Hx. destruct (touch w k a p) as (i & y & -> & Hy & _ & Hfy & _); [done..|].
    exists i. split; congruence. }
  destruct Ho as [->|[->| ->]]; cbn [exec] in He; revert He;
    unfold await_ready, await_suspend, destroy; rewrite Ha; cbn [mbind option_bind];
    destruct (m_item a) as [p|] eqn:Hp; try done; cbn [mbind option_bind];
    try (destruct (for_resolver w k p) as [x|] eqn:Hx; [|done]; cbn [mbind option_bind];
         destruct (Hf p x eq_refl Hx) as (i & -> & Hi)).
  all: try case_match; intros [= <-]; apply (Results_keep _ _ w); cbn [set_awaitable set_map m_map awaitables].
  all: try done; try (intros; left; by eauto).
  all: try (intros ? ? ? ? ?; left; eapply (awaitable_keeps (awaitables w) k a);
    [exact Ha| | |eassumption|eassumption]; by rewrite ?Hp).
  all: intros ? ? ? ? ?; left; eapply (item_keeps (m_map w) i x);
    [apply Hw|exact Hi| | |eassumption|eassumption]; done.
Qed.

Lemma TakeResult_Results ops w w' k :
  Inv w → Results ops w → pc_of w k = Some OResumed →
  TakeResult no_result w k = Some w' → Results (ops ++ [OpTakeResult k]) w'.
Proof.
  intros Hw Hr (a & Ha & Hpc)%pc_of_Some. unfold TakeResult. rewrite Ha. cbn [mbind option_bind].
  assert (Hset : ∀ a', match taken a' with
      | Some r => match m_item a' with None => r = no_result | Some _ => delivered (ops ++ [OpTakeResult k]) k r end
      | None => True end → Results (ops ++ [OpTakeResult k]) (set_awaitable w k a')).
  { intros a' Ha'. apply (Results_keep _ _ w); [done|by eauto|]. intros j b r Hb Hbr.
    destruct (decide (j = k)) as [->|Hj].
    - cbn in Hb. rewrite list_lookup_insert_eq in Hb by (by eapply lookup_lt_Some).
      injection Hb as <-. rewrite Hbr in Ha'. by right.
    - cbn in Hb. rewrite list_lookup_insert_ne in Hb by done. left. eauto. }
  destruct (m_item a) as [p|] eqn:Hp; [|intros [= <-]; by apply Hset].
  destruct (touch w k a p) as (i & x & -> & Hx & Hk & -> & _); [done..|congruence|].
  cbn [mbind option_bind]. destruct (m_result x) as [r|] eqn:Hxr; [|done]. intros [= <-].
  apply Hset. cbn. apply delivered_snoc. rewrite <-Hk. by eapply stored.
Qed.

Lemma Emplace_Results ops alloc w i v :
  Inv w → Results ops w → Get n w i = None →
  Results (ops ++ [OpEmplace alloc i v]) (Emplace n alloc w i v).
Proof.
  intros Hw Hr Hg. rewrite Get_abs' in Hg by done. unfold Emplace.
  destruct (BucketArrayMap.Emplace n alloc (m_map w) i _) as [ok m] eqn:He.
  pose proof (abs_Emplace n Hn _ _ _ _ _ _ (inv_wf _ Hw) He) as [Hm Habs].
  apply (Results_keep _ _ w); [done|..]; cbn [m_map awaitables].
  - intros j x r Hx Hxr. left. rewrite Habs in Hx. case_decide; [|by eauto].
    destruct ok; [|congruence]. by injection Hx as <-.
  - intros k a r [[_ Ha]|[-> [= <-]]]%lookup_snoc_Some Har; [left; by eauto|done].
Qed.

Lemma Resolve_Results ops w w' i r :
  Inv w → legal_run no_result n ops w → Results ops w →
  Resolve_begin n w i r = Some w' → Results (ops ++ [OpResolve i r]) w'.
Proof.
  intros Hw Hrun Hr. unfold Resolve_begin. destruct (Get n w i) as [x|] eqn:Hg.
  2: { intros [= <-]. apply (Results_keep _ _ w); by eauto. }
  pose proof Hg as Hx. rewrite Get_abs' in Hx by done. rewrite (existing_ptr _ w i x) by done.
  cbn [mbind option_bind]. destruct (return_value x r) as [x' resumed] eqn:Hret.
  assert (Hx' : m_result x' = Some r ∧ made_for x' = made_for x).
  { revert Hret. unfold return_value. by destruct (m_continuation x); intros [= <- <-]. }
  destruct Hx' as [Hxr Hxk]. destruct (check _) eqn:Hch; [|done]. cbn [mbind option_bind].
  assert (Hitem : ∀ j y s, abs n (set_item (m_map w) (ptr i) (Some x')) j = Some y → m_result y = Some s →
    (∃ z, abs n (m_map w) j = Some z ∧ m_result z = Some s ∧ made_for z = made_for y)
    ∨ delivered (ops ++ [OpResolve i r]) (made_for y) s).
  { intros j y s Hy Hys. destruct (abs_set_ptr (m_map w) i x x' (inv_wf _ Hw) Hx) as [_ Habs].
    rewrite Habs in Hy. case_decide; [|by eauto]. injection Hy as <-. right.
    rewrite Hxr in Hys. injection Hys as <-. exists ops, [], w, i, x. done. }
  destruct resumed as [k|].
  - unfold resume. cbn [awaitables]. destruct (awaitables w !! k) as [a|] eqn:Ha; [|done].
    cbn [mbind option_bind]. case_bool_decide; [|done]. cbn. intros [= <-].
    apply (Results_keep _ _ w); [done|done|]. cbn. intros ?????. left.
    eapply (awaitable_keeps _ k a); [exact Ha| | |eassumption|eassumption]; done.
  - intros [= <-]. apply (Results_keep _ _ w); by eauto.
Qed.

Lemma legal_run_Results ops w : legal_run no_result n ops w → Results ops w.
Proof.
  induction 1 as [|ops w o w' Hrun IH Hl He]; [by split|].
  pose proof (legal_run_Inv _ _ Hrun) as Hw. destruct o; try (eapply await_Results; by eauto).
  - injection He as <-. by apply Emplace_Results.
  - by eapply TakeResult_Results.
  - by eapply Resolve_Results.
  - injection He as <-. apply (Results_keep _ _ w); [done| |by eauto]. intros i x r Hx Hxr. left.
    revert Hx. unfold Resolve_end, Erase. cbn [set_map m_map].
    destruct (abs_Take n Hn (λ _, false) (m_map w) index (inv_wf _ Hw)) as (m & _ & -> & _ & _ & Habs).
    rewrite Habs. case_decide; [done|]. eauto.
Qed.
End proofs.

(** C20: items resolved under their index reach the coroutine that awaits them.
    Whatever the order in which awaiters and resolvers take their steps, as long as
    an index is not given twice at a time, an item is not resolved before it is
    awaited, and a coroutine drops its awaitable before it waits for something else:
    no step touches an item that is gone or that belongs to another; what a
    [co_await] gives is what somebody resolved its item with, or the default if
    there was no memory for it; and an awaiter that is not done either can go on, or
    is suspended with its item still in the map, found under its index and free to be
    resolved. *)
Theorem resolution_map_safe {T R} (no_result : R) (n : nat) (ops : list (op T R)) (w : World T R)
    (Hn : 0 < n) (Hrun : legal_run no_result n ops w) :
  (∀ o, legal n w o → is_Some (exec no_result n w o))
  ∧ (∀ k a r, awaitables w !! k = Some a → taken a = Some r →
      match m_item a with None => r = no_result | Some _ => delivered no_result n ops k r end)
  ∧ (∀ k a, awaitables w !! k = Some a → pc a ≠ OGone →
      legal n w (OpAwaitReady k) ∨ legal n w (OpAwaitSuspend k) ∨ legal n w (OpDestroy k)
      ∨ ∃ i x, Get n w i = Some x ∧ made_for x = k ∧ m_continuation x = Awaiter k
          ∧ ∀ r, legal n w (OpResolve i r)).
Proof.
  pose proof (legal_run_Inv no_result n Hn _ _ Hrun) as Hw. split_and!.
  - intros o Ho. destruct (map_step_ok no_result n Hn w o Hw Ho) as (w' & -> & _). done.
  - apply (legal_run_Results no_result n Hn _ _ Hrun).
  - intros k a Ha Hpc. cbn [legal]. unfold pc_of. rewrite Ha. cbn [fmap option_fmap option_map].
    destruct (pc a) eqn:Hp; try done; try tauto. do 3 right.
    destruct (m_item a) as [p|] eqn:Hi; [|by destruct (inv_null n w Hw k a)].
    destruct (touch n w k a p) as (i & x & -> & Hx & Hk & _ & Hag); [done..|congruence|].
    rewrite Hp in Hag. destruct Hag as [Hc Hr]. exists i, x. rewrite Get_abs' by done.
    split_and!; try done. intros r. split; [done|]. intros y. rewrite Hx. intros [= <-]. by rewrite Hc.
Qed.

(** A coroutine awaits index 3, which is then resolved with 7. *)
Definition demo_ops : list (op nat nat) :=
  [OpEmplace (λ _, true) 3 30; OpAwaitReady 0; OpAwaitSuspend 0; OpResolve 3 7; OpTakeResult 0].

(** Steps one by one, each evaluated. *)
Ltac legal_steps :=
  first
  [ apply run_nil
  | eapply run_snoc;
    [legal_steps
    |cbn [legal]; first [vm_compute; reflexivity
                        |split; [vm_compute; reflexivity|vm_compute; by intros x [= <-]]]
    |vm_compute; reflexivity]].

Lemma resolution_map_safe_witness :
  ∃ w, legal_run 0 8 demo_ops w ∧ delivered 0 8 demo_ops 0 7.
Proof.
  set (o1 := OpEmplace (λ _, true) 3 30 : op nat nat). set (o2 := OpAwaitReady 0 : op nat nat).
  set (o3 := OpAwaitSuspend 0 : op nat nat). set (o4 := OpResolve 3 7 : op nat nat).
  set (o5 := OpTakeResult 0 : op nat nat).
  assert (Hrun : ∃ w, legal_run 0 8 ((((([] ++ [o1]) ++ [o2]) ++ [o3]) ++ [o4]) ++ [o5]) w
    ∧ taken <$> awaitables w !! 0 = Some (Some 7) ∧ is_Some (awaitables w !! 0 ≫= m_item)).
  { eexists. split.
    - legal_steps.
    - vm_compute. eauto. }
  destruct Hrun as (w & Hrun & Ht & Hp). exists w. split; [exact Hrun|].
  destruct (resolution_map_safe 0 8 _ w ltac:(lia) Hrun) as (_ & Hres & _).
  destruct (awaitables w !! 0) as [a|] eqn:Ha; [|done]. injection Ht as Ht.
  specialize (Hres 0 a 7 Ha Ht). cbn in Hp. destruct Hp as [p Hp]. rewrite Hp in Hres. exact Hres.
Defined.

(** An item that is resolved before its coroutine awaits it is erased, and the
    coroutine looks at what is not there: the answer to a request of the tunnel may
    come between the end of the write and the [co_await]. *)
Example resolved_too_early :
  (w ← run 0 8 start [OpEmplace (λ _, true) 3 30; OpResolve 3 7; OpErase 3];
   Some (length (awaitables w), exec 0 8 w (OpAwaitReady 0) : option (World nat nat)))
  = Some (1, None).
Proof. vm_compute. reflexivity. Qed.

(** If the index was given again in between, it is the item of somebody else. *)
Example resolved_too_early_reused :
  (w ← run 0 8 start [OpEmplace (λ _, true) 3 30; OpResolve 3 7; OpErase 3; OpEmplace (λ _, true) 3 31];
   Some (made_for <$> (a ← awaitables w !! 0; p ← m_item a; item (m_map w) p)))
  = Some (Some 1).
Proof. vm_compute. reflexivity. Qed.
