(* ===== verification/Frames.v ===== *)
(** * Frames of coroutines and the tasks that own them
    ([src/src/libedr/util/asynchronicity/Asynchronicity.hpp], [OwnedFrame],
    [OwnedTask], [FallbackStorage]; [src/src/libedr/util/memory/FreeListAllocator.hpp],
    [FreeListAllocator], [FreeListAsynchronous]).

    A coroutine of a driver gets its frame from the allocator of that driver.  The
    frame stands behind a pointer to the owner, by which [operator delete] finds the
    allocator again.  A task without a frame, because there was no memory or because
    it was made resolved, answers from its fallback. *)
From S2P Require Import Prelude FreeList.

(** ** FreeListAllocator *)

(** [allocate(num)] and [deallocate(ptr, num)] for elements of [size_of] bytes. *)
Definition typed_allocate (size_of : nat) (r : Resource) (num : nat) (answer : option block)
    : option block * Resource := allocate r (num * size_of) answer.

Definition typed_deallocate (size_of : nat) (r : Resource) (b : block) (num : nat) : option Resource :=
  deallocate r b (num * size_of).

(** [~FreeListAllocatorResource]: the blocks given back, with the sizes that the
    memory resource is told; reading the header of a block that is not there is
    [None]. *)
Fixpoint give_back (blocks : gmap block nat) (head : list block) : option (list (block * nat)) :=
  match head with
  | [] => Some []
  | to_delete :: next =>
      total_size ← blocks !! to_delete;
      rest ← give_back (delete to_delete blocks) next;
      Some ((to_delete, total_size) :: rest)
  end.

Definition destroy_resource (r : Resource) : option (list (block * nat)) :=
  give_back (blocks r) (free_blocks r).

(** ** Owners and frames *)

(** The owners by their address, and the first word of every block. *)
Record World := mkWorld { owners : gmap nat Resource; first_word : gmap block nat }.

(** The size of the pointer to the owner. *)
Definition this_ptr_size : nat := 8.

(** [OwnedFrame::operator new]: the frame, named by its block, or null. *)
Definition operator_new (w : World) (size self : nat) (answer : option block)
    : option (option block * World) :=
  r ← owners w !! self;
  match typed_allocate 1 r (this_ptr_size + size) answer with
  | (None, r) => Some (None, mkWorld (<[self := r]> (owners w)) (first_word w))
  | (Some ptr, r) =>
      Some (Some ptr, mkWorld (<[self := r]> (owners w)) (<[ptr := self]> (first_word w)))
  end.

(** [OwnedFrame::operator delete]: the owner is read from the block. *)
Definition operator_delete (w : World) (ptr : block) (size : nat) : option World :=
  self ← first_word w !! ptr;
  r ← owners w !! self;
  r ← typed_deallocate 1 r ptr (this_ptr_size + size);
  Some (mkWorld (<[self := r]> (owners w)) (first_word w)).

(** ** Tasks *)

Section task.
Context {R : Type} (default_result : R) (t_def_init : bool).

Record OwnedTask := mkTask { handle : option block; m_fallback : option R }.

Definition MakeResolved (r : R) : OwnedTask := mkTask None (Some r).

Definition get_return_object_on_allocation_failure : OwnedTask := mkTask None None.

Definition get_return_object (promise : block) : OwnedTask := mkTask (Some promise) None.

(** The move constructor: the new task and what is left of the old one. *)
Definition move_task (from : OwnedTask) : OwnedTask * OwnedTask :=
  (mkTask (handle from) (m_fallback from), mkTask None None).

(** [FallbackStorage::GetResult]: dereferencing an empty optional is [None]. *)
Definition GetResult (fallback : option R) : option R :=
  match fallback with
  | Some r => Some r
  | None => if t_def_init then Some default_result else None
  end.

(** [done] and [await_ready] of a task, given what the frame says. *)
Definition task_done (t : OwnedTask) (frame_done : block → bool) : bool :=
  match handle t with None => true | Some b => frame_done b end.

(** [TakeResult], given the result in the frame. *)
Definition take_result (t : OwnedTask) (frame_result : block → option R) : option R :=
  match handle t with
  | None => GetResult (m_fallback t)
  | Some b => frame_result b
  end.

(** A call of a coroutine of [self] up to its first suspension. *)
Definition call_coroutine (w : World) (size self : nat) (answer : option block)
    : option (OwnedTask * World) :=
  '(ptr, w) ← operator_new w size self answer;
  match ptr with
  | None => Some (get_return_object_on_allocation_failure, w)
  | Some b => Some (get_return_object b, w)
  end.
End task.

(** ** Runs *)

Inductive op :=
| OpCreate (self : nat)
| OpCall (size self : nat) (answer : option block)
| OpEnd (ptr : block) (size : nat)
| OpDestroy (self : nat).

(** The frames that exist, by owner, with the sizes that the compiler knows. *)
Abbreviation Live := (gmap nat (gmap block nat)).

Definition exec (s : World * Live) (o : op) : option (World * Live) :=
  let '(w, live) := s in
  match o with
  | OpCreate self =>
      Some (mkWorld (<[self := empty_resource]> (owners w)) (first_word w), <[self := ∅]> live)
  | OpCall size self answer =>
      '(t, w) ← call_coroutine (R := unit) w size self answer;
      Some (w, match handle t with
               | None => live
               | Some b => alter (<[b := size]>) self live
               end)
  | OpEnd ptr size =>
      self ← first_word w !! ptr;
      w ← operator_delete w ptr size;
      Some (w, alter (delete ptr) self live)
  | OpDestroy self =>
      r ← owners w !! self;
      _ ← destroy_resource r;
      Some (mkWorld (delete self (owners w)) (first_word w), delete self live)
  end.

(** Memory that the resource gives is not in use; a frame ends once, with its own
    size; an owner outlives its frames. *)
Definition legal (s : World * Live) (o : op) : Prop :=
  let '(w, live) := s in
  match o with
  | OpCreate self => owners w !! self = None
  | OpCall _ self answer => is_Some (owners w !! self)
      ∧ ∀ a other r, answer = Some a → owners w !! other = Some r → blocks r !! a = None
  | OpEnd ptr size => ∃ self frames, live !! self = Some frames ∧ frames !! ptr = Some size
  | OpDestroy self => live !! self = Some ∅
  end.

Inductive reachable : World * Live → Prop :=
| reach_start : reachable (mkWorld ∅ ∅, ∅)
| reach_step s o s' : reachable s → legal s o → exec s o = Some s' → reachable s'.

(** ** Invariant *)

(** What a frame of [size] bytes asks of the allocator. *)
Definition asked_for (size : nat) : nat := (this_ptr_size + size) * 1.

(** One owner: its blocks are free or hold a frame that points back to it. *)
Record owner_ok (words : gmap block nat) (self : nat) (r : Resource) (frames : gmap block nat) : Prop := {
  ok_use : in_use_ok r (asked_for <$> frames);
  ok_kept : ∀ b, is_Some (blocks r !! b) → b ∈ free_blocks r ∨ is_Some (frames !! b);
  ok_word : ∀ b, is_Some (frames !! b) → words !! b = Some self;
}.

Record Inv (s : World * Live) : Prop := {
  inv_live : ∀ self, is_Some (owners s.1 !! self) ↔ is_Some (s.2 !! self);
  inv_owner : ∀ self r frames, owners s.1 !! self = Some r → s.2 !! self = Some frames →
    owner_ok (first_word s.1) self r frames;
  inv_disjoint : ∀ self other r r' b, owners s.1 !! self = Some r → owners s.1 !! other = Some r' →
    is_Some (blocks r !! b) → is_Some (blocks r' !! b) → self = other;
}.

(** Which blocks an allocation leaves. *)
Lemma allocate_blocks r n answer res r' b :
  allocate r n answer = (res, r') → is_Some (blocks r' !! b) →
  is_Some (blocks r !! b) ∨ answer = Some b.
Proof.
  assert (Hnew : ∀ bl fr, allocate_new (mkResource bl fr) (header_size + n) answer = (res, r') →
    is_Some (blocks r' !! b) → is_Some (bl !! b) ∨ answer = Some b).
  { intros bl fr. unfold allocate_new. destruct answer as [a|]; intros [= <- <-]; cbn; [|by left].
    destruct (decide (a = b)) as [->|Hne]; [by right|]. rewrite lookup_insert_ne by done. by left. }
  unfold allocate. destruct r as [bl [|t fr]]; cbn [free_blocks blocks]; [by apply Hnew|].
  destruct (bl !! t) as [size|]; [|intros [= <- <-]; by left].
  destruct (size <? _)%nat; [|intros [= <- <-]; by left].
  intros Ha Hb. destruct (Hnew _ _ Ha Hb) as [Hd|]; [|by right]. left.
  destruct Hd as [x Hd]. apply lookup_delete_Some in Hd as [_ Hd]. eauto.
Qed.

(** No block is forgotten: all but the one handed out are free or were in use. *)
Lemma allocate_keeps r n answer res r' b :
  allocate r n answer = (res, r') → is_Some (blocks r' !! b) →
  (is_Some (blocks r !! b) ∧ b ∉ free_blocks r) ∨ b ∈ free_blocks r' ∨ res = Some b.
Proof.
  unfold allocate. destruct r as [bl [|t fr]]; cbn [free_blocks blocks].
  - unfold allocate_new. destruct answer as [a|]; intros [= <- <-]; cbn; [|set_solver].
    destruct (decide (a = b)) as [->|Hne]; [by do 2 right|].
    rewrite lookup_insert_ne by done. set_solver.
  - destruct (decide (b ∈ fr)) as [Hin|Hin].
    { intros Ha _. right; left. revert Ha. unfold allocate_new.
      destruct (bl !! t); [destruct (_ <? _)%nat, answer|]; by intros [= <- <-]. }
    assert (Hnot : b ≠ t → b ∉ t :: fr) by (intros ? [->|?]%elem_of_cons; done).
    destruct (decide (b = t)) as [->|Hbt].
    { destruct (bl !! t) as [size|] eqn:Ht; [destruct (_ <? _)%nat|]; unfold allocate_new.
      - destruct answer as [a|]; intros [= <- <-]; cbn; intros Hb.
        + destruct (decide (a = t)) as [->|Hne]; [by do 2 right|].
          rewrite lookup_insert_ne, lookup_delete_eq in Hb by done. by destruct Hb.
        + rewrite lookup_delete_eq in Hb. by destruct Hb.
      - intros [= <- <-] _. by do 2 right.
      - intros [= <- <-] Hb. cbn in Hb. rewrite Ht in Hb. by destruct Hb. }
    intros Ha Hb. destruct (allocate_blocks (mkResource bl (t :: fr)) n answer res r' b Ha Hb) as [?|Han].
    { left. split; [done|by apply Hnot]. }
    revert Ha Hb. unfold allocate, allocate_new. rewrite Han. cbn [free_blocks blocks].
    destruct (bl !! t); [destruct (_ <? _)%nat|]; intros [= <- <-] Hb; [by do 2 right|..].
    all: left; by split; [|apply Hnot].
Qed.

Lemma owner_ok_call words self r frames size answer res r' :
  owner_ok words self r frames → (∀ a, answer = Some a → blocks r !! a = None) →
  typed_allocate 1 r (this_ptr_size + size) answer = (res, r') →
  match res with
  | None => owner_ok words self r' frames
  | Some b => frames !! b = None ∧ owner_ok (<[b := self]> words) self r' (<[b := size]> frames)
  end.
Proof.
  intros [Huse Hkept Hword] Hans Ha. change (allocate r (asked_for size) answer = (res, r')) in Ha.
  pose proof (allocate_ok r _ (asked_for size) answer Huse Hans) as Hok. rewrite Ha in Hok.
  assert (Hkeep : ∀ b, is_Some (blocks r' !! b) →
    b ∈ free_blocks r' ∨ is_Some (frames !! b) ∨ res = Some b).
  { intros b Hb. destruct (allocate_keeps r _ answer res r' b Ha Hb) as [[Hr Hf]|[?|?]]; [|tauto..].
    destruct (Hkept b Hr); [done|tauto]. }
  destruct res as [b|].
  - destruct Hok as (Hnone & Hok & _). rewrite lookup_fmap, fmap_None in Hnone. split; [done|]. split.
    + rewrite fmap_insert. exact Hok.
    + intros c Hc. destruct (decide (c = b)) as [->|Hne]; [rewrite lookup_insert_eq; eauto|].
      rewrite lookup_insert_ne by done. destruct (Hkeep c Hc) as [?|[?|?]]; [tauto..|congruence].
    + intros c Hc. destruct (decide (c = b)) as [->|Hne]; [by rewrite lookup_insert_eq|].
      rewrite lookup_insert_ne in Hc |- * by done. by apply Hword.
  - destruct Hok as [_ Hok]. split; [exact Hok| |done].
    intros c Hc. destruct (Hkeep c Hc) as [?|[?|?]]; [tauto..|done].
Qed.

Lemma owner_ok_end words self r frames ptr size :
  owner_ok words self r frames → frames !! ptr = Some size →
  ∃ r', typed_deallocate 1 r ptr (this_ptr_size + size) = Some r' ∧ blocks r' = blocks r
    ∧ owner_ok words self r' (delete ptr frames).
Proof.
  intros [Huse Hkept Hword] Hp.
  destruct (deallocate_ok r _ ptr (asked_for size) Huse) as (r' & Hd & Hok).
  { by rewrite lookup_fmap, Hp. }
  assert (Hr' : blocks r' = blocks r ∧ free_blocks r' = ptr :: free_blocks r).
  { revert Hd. unfold deallocate. destruct (blocks r !! ptr); [|done]. cbn [mbind option_bind].
    destruct (check _); [|done]. by intros [= <-]. }
  destruct Hr' as [Hb Hf]. exists r'. split_and!; [done|done|]. split.
  - rewrite fmap_delete. exact Hok.
  - intros c Hc. rewrite Hb in Hc. rewrite Hf. destruct (decide (c = ptr)) as [->|Hne]; [left; by constructor|].
    rewrite lookup_delete_ne by done. destruct (Hkept c Hc); [left; by constructor|by right].
  - intros c [x [_ Hc]%lookup_delete_Some]. apply Hword. eauto.
Qed.

(** Another frame that is written to does not matter. *)
Lemma owner_ok_words words self other r frames b :
  owner_ok words other r frames → blocks r !! b = None →
  owner_ok (<[b := self]> words) other r frames.
Proof.
  intros [Huse Hkept Hword] Hb. split; [done..|].
  intros c [n Hc]. rewrite lookup_insert_ne; [apply Hword; eauto|]. intros ->.
  destruct (use_live _ _ Huse c (asked_for n)) as (size & ? & _); [by rewrite lookup_fmap, Hc|congruence].
Qed.

Lemma give_back_all (bl : gmap block nat) (head : list block) :
  NoDup head → (∀ b, b ∈ head ↔ is_Some (bl !! b)) →
  ∃ l, give_back bl head = Some l ∧ l ≡ₚ map_to_list bl.
Proof.
  revert bl. induction head as [|b head IH]; intros bl Hnd Hin.
  - exists []. split; [done|]. assert (bl = ∅) as ->; [|by rewrite map_to_list_empty].
    apply map_empty. intros c. apply eq_None_not_Some. intros Hc. by apply Hin, elem_of_nil in Hc.
  - apply NoDup_cons in Hnd as [Hb Hnd]. destruct (proj1 (Hin b)) as [size Hs]; [by constructor|].
    destruct (IH (delete b bl)) as (l & Hl & Hperm); [done| |].
    + intros c. destruct (decide (c = b)) as [->|Hne]; [rewrite lookup_delete_eq; split; [done|by intros [? ?]]|].
      rewrite lookup_delete_ne, <-Hin, elem_of_cons by done. tauto.
    + exists ((b, size) :: l). cbn [give_back]. rewrite Hs. cbn [mbind option_bind]. rewrite Hl. split; [done|].
      by rewrite Hperm, map_to_list_delete.
Qed.

(** An owner without frames gives all of its memory back. *)
Lemma destroy_resource_all words self r :
  owner_ok words self r ∅ → ∃ l, destroy_resource r = Some l ∧ l ≡ₚ map_to_list (blocks r).
Proof.
  intros [[Hnd Hown _] Hkept _]. apply give_back_all; [done|]. intros b. split; [by apply Hown|].
  intros Hb. destruct (Hkept b Hb) as [?|[? H]]; [done|by rewrite lookup_empty in H].
Qed.

(** One owner changes; the blocks that it gained are nobody else's. *)
Lemma Inv_set w (live : Live) self r r' frames frames' words :
  Inv (w, live) → owners w !! self = Some r → live !! self = Some frames →
  owner_ok words self r' frames' →
  (∀ other q f, other ≠ self → owners w !! other = Some q → live !! other = Some f →
    owner_ok words other q f) →
  (∀ other q b, other ≠ self → owners w !! other = Some q → is_Some (blocks r' !! b) →
    blocks q !! b = None) →
  Inv (mkWorld (<[self := r']> (owners w)) words, <[self := frames']> live).
Proof.
  intros Hinv Hr Hl Hok Hothers Hnew. split; cbn [fst snd owners first_word].
  - intros other. destruct (decide (other = self)) as [->|Hne]; [by rewrite !lookup_insert_eq|].
    rewrite !lookup_insert_ne by done. apply Hinv.
  - intros other q f. destruct (decide (other = self)) as [->|Hne].
    + rewrite !lookup_insert_eq. by intros [= <-] [= <-].
    + rewrite !lookup_insert_ne by done. by apply Hothers.
  - intros s1 s2 q1 q2 b H1 H2 Hb1 Hb2.
    destruct (decide (s1 = self)) as [->|Hne1], (decide (s2 = self)) as [->|Hne2]; [done|..].
    + rewrite lookup_insert_eq in H1. rewrite lookup_insert_ne in H2 by done. injection H1 as <-.
      rewrite (Hnew s2 q2 b) in Hb2 by done. by destruct Hb2.
    + rewrite lookup_insert_eq in H2. rewrite lookup_insert_ne in H1 by done. injection H2 as <-.
      rewrite (Hnew s1 q1 b) in Hb1 by done. by destruct Hb1.
    + rewrite lookup_insert_ne in H1, H2 by done. by eapply (inv_disjoint _ Hinv s1 s2).
Qed.

Lemma inv_frames w live self r : Inv (w, live) → owners w !! self = Some r →
  ∃ frames, live !! self = Some frames ∧ owner_ok (first_word w) self r frames.
Proof.
  intros Hinv Hr. destruct (proj1 (inv_live _ Hinv self)) as [frames Hf]; [by eauto|].
  exists frames. split; [done|]. by eapply (inv_owner _ Hinv).
Qed.

Lemma exec_call w live size self answer :
  Inv (w, live) → legal (w, live) (OpCall size self answer) →
  ∃ s', exec (w, live) (OpCall size self answer) = Some s' ∧ Inv s'.
Proof.
  intros Hinv [[r Hr] Hans]. destruct (inv_frames _ _ _ _ Hinv Hr) as (frames & Hf & Hok).
  cbn [exec]. unfold call_coroutine, operator_new. rewrite Hr. cbn [mbind option_bind].
  destruct (typed_allocate 1 r (this_ptr_size + size) answer) as [res r'] eqn:Ha.
  pose proof (owner_ok_call _ self r frames size answer res r' Hok (λ a, λ H, Hans a self r H Hr) Ha) as Hok'.
  assert (Hfresh : ∀ other q b, other ≠ self → owners w !! other = Some q →
    is_Some (blocks r' !! b) → blocks q !! b = None).
  { intros other q b Hne Hq Hb. destruct (allocate_blocks _ _ _ _ _ _ Ha Hb) as [Hrb|Hab].
    - apply eq_None_not_Some. intros Hqb. by apply Hne, (inv_disjoint _ Hinv other self q r b).
    - by apply (Hans b other q). }
  destruct res as [b|]; cbn [mbind option_bind handle get_return_object
    get_return_object_on_allocation_failure]; eexists; (split; [done|]).
  - destruct Hok' as [Hnone Hok']. rewrite (alter_alt_Some _ live self frames Hf).
    apply (Inv_set w live self r r' frames); try done. intros other q f Hne Hq Hqf.
    apply owner_ok_words; [by eapply (inv_owner _ Hinv)|]. apply (Hfresh other); [done..|].
    destruct (use_live _ _ (ok_use _ _ _ _ Hok') b (asked_for size)) as (total & ? & _); [|eauto].
    by rewrite lookup_fmap, lookup_insert_eq.
  - rewrite <-(insert_id live self frames Hf).
    apply (Inv_set w live self r r' frames); try done. intros other q f _ Hq Hqf.
    by eapply (inv_owner _ Hinv).
Qed.

Lemma exec_end w live ptr size :
  Inv (w, live) → legal (w, live) (OpEnd ptr size) →
  ∃ s', exec (w, live) (OpEnd ptr size) = Some s' ∧ Inv s'.
Proof.
  intros Hinv (self & frames & Hf & Hp).
  destruct (proj2 (inv_live _ Hinv self)) as [r Hr]; [by eauto|]. cbn [fst] in Hr.
  pose proof (inv_owner _ Hinv self r frames Hr Hf) as Hok. cbn [fst] in Hok.
  cbn [exec]. unfold operator_delete. rewrite (ok_word _ _ _ _ Hok ptr) by eauto.
  cbn [mbind option_bind]. rewrite Hr. cbn [mbind option_bind].
  destruct (owner_ok_end _ self r frames ptr size Hok Hp) as (r' & Hd & Hb & Hok'). rewrite Hd.
  cbn [mbind option_bind]. eexists; split; [done|].
  rewrite (alter_alt_Some _ live self frames Hf). apply (Inv_set w live self r r' frames); try done.
  - intros other q f _ Hq Hqf. by eapply (inv_owner _ Hinv).
  - intros other q b Hne Hq. rewrite Hb. intros Hrb. apply eq_None_not_Some. intros Hqb.
    by apply Hne, (inv_disjoint _ Hinv other self q r b).
Qed.

Lemma Inv_delete w live self :
  Inv (w, live) → Inv (mkWorld (delete self (owners w)) (first_word w), delete self live).
Proof.
  intros Hinv. split; cbn [fst snd owners first_word].
  - intros other. destruct (decide (other = self)) as [->|Hne]; [by rewrite !lookup_delete_eq|].
    rewrite !lookup_delete_ne by done. apply Hinv.
  - intros other q f [_ Hq]%lookup_delete_Some [_ Hf]%lookup_delete_Some. by eapply (inv_owner _ Hinv).
  - intros s1 s2 q1 q2 b [_ H1]%lookup_delete_Some [_ H2]%lookup_delete_Some. by eapply (inv_disjoint _ Hinv).
Qed.

Lemma Inv_create w live self :
  Inv (w, live) → owners w !! self = None →
  Inv (mkWorld (<[self := empty_resource]> (owners w)) (first_word w), <[self := ∅]> live).
Proof.
  intros Hinv Hn. split; cbn [fst snd owners first_word].
  - intros other. destruct (decide (other = self)) as [->|Hne]; [by rewrite !lookup_insert_eq|].
    rewrite !lookup_insert_ne by done. apply Hinv.
  - intros other q f [[<- <-]|[Hne Hq]]%lookup_insert_Some.
    + rewrite lookup_insert_eq. intros [= <-]. split; [split| |].
      all: cbn; by intros; rewrite ?elem_of_nil, ?lookup_empty in *; naive_solver constructor.
    + rewrite lookup_insert_ne by done. intros Hf. by eapply (inv_owner _ Hinv).
  - intros s1 s2 q1 q2 b [[<- <-]|[Hne1 H1]]%lookup_insert_Some [[<- <-]|[Hne2 H2]]%lookup_insert_Some;
      try done; try (cbn; rewrite lookup_empty; by intros [? ?] || by intros ? [? ?]).
    by eapply (inv_disjoint _ Hinv).
Qed.

Lemma frames_exec_ok s o : Inv s → legal s o → ∃ s', exec s o = Some s' ∧ Inv s'.
Proof.
  destruct s as [w live]. intros Hinv Hl. destruct o as [self|size self answer|ptr size|self].
  - eexists; split; [done|]. by apply Inv_create.
  - by apply exec_call.
  - by apply exec_end.
  - cbn [exec]. destruct (proj2 (inv_live _ Hinv self)) as [r Hr]; [by eauto|]. cbn [fst] in Hr.
    rewrite Hr. cbn [mbind option_bind].
    destruct (destroy_resource_all _ self r (inv_owner _ Hinv _ _ _ Hr Hl)) as (l & -> & _).
    eexists; split; [done|]. by apply Inv_delete.
Qed.

Lemma reachable_Inv s : reachable s → Inv s.
Proof.
  induction 1 as [|s o s' _ IH Hl He].
  - split; cbn; [intros self; by rewrite !lookup_empty|intros ???; by rewrite lookup_empty..].
  - destruct (frames_exec_ok s o IH Hl) as (? & ? & ?). congruence.
Qed.

(** C21: frames of coroutines go back to where they came from.  Whatever owners are
    made and destroyed, whatever coroutines are called and end, and wherever memory
    runs out: nothing trips an assertion; the word before a frame names the owner
    that allocated it, whose block is big enough for it and not free; no two
    frames share a block, also of different owners; and an owner without frames
    gives back every block that it has, each once and with its size. *)
Theorem frames_accounted (w : World) (live : Live) (Hreach : reachable (w, live)) :
  (∀ o, legal (w, live) o → is_Some (exec (w, live) o))
  ∧ (∀ self frames b size, live !! self = Some frames → frames !! b = Some size →
      first_word w !! b = Some self ∧ ∃ r total, owners w !! self = Some r
        ∧ blocks r !! b = Some total ∧ header_size + this_ptr_size + size ≤ total ∧ b ∉ free_blocks r)
  ∧ (∀ self self' frames frames' b, live !! self = Some frames → live !! self' = Some frames' →
      is_Some (frames !! b) → is_Some (frames' !! b) → self = self')
  ∧ (∀ self r, live !! self = Some ∅ → owners w !! self = Some r →
      ∃ l, destroy_resource r = Some l ∧ l ≡ₚ map_to_list (blocks r)).
Proof.
  pose proof (reachable_Inv _ Hreach) as Hinv.
  assert (Hfr : ∀ self frames, live !! self = Some frames →
    ∃ r, owners w !! self = Some r ∧ owner_ok (first_word w) self r frames).
  { intros self frames Hf. destruct (proj2 (inv_live _ Hinv self)) as [r Hr]; [by eauto|].
    exists r. split; [done|]. by apply (inv_owner _ Hinv). }
  split_and!.
  - intros o Ho. destruct (frames_exec_ok _ _ Hinv Ho) as (s' & -> & _). done.
  - intros self frames b size Hf Hb. destruct (Hfr _ _ Hf) as (r & Hr & [Huse _ Hword]).
    split; [apply Hword; eauto|].
    destruct (use_live _ _ Huse b (asked_for size)) as (total & Ht & Hle); [by rewrite lookup_fmap, Hb|].
    exists r, total. split_and!; [done|done|unfold asked_for in Hle; lia|].
    intros Hin. apply (use_owned _ _ Huse) in Hin as [_ Hin]. by rewrite lookup_fmap, Hb in Hin.
  - intros self self' frames frames' b Hf Hf' [n Hb] [n' Hb'].
    destruct (Hfr _ _ Hf) as (r & _ & Hok), (Hfr _ _ Hf') as (r' & _ & Hok').
    pose proof (ok_word _ _ _ _ Hok b) as Hw. pose proof (ok_word _ _ _ _ Hok' b) as Hw'.
    rewrite Hw in Hw' by eauto. apply (inj Some). apply Hw'. eauto.
  - intros self r Hl Hr. apply (destroy_resource_all (first_word w) self).
    by apply (inv_owner _ Hinv).
Qed.

(** What is left of a task that was moved: its frame has one owner, and a
    resolved task is done and gives its result once moved, while what it was moved
    from has nothing. *)
Theorem moved_task {R} (d : R) (t_def_init : bool) (r : R) (frame_done : block → bool)
    (frame_result : block → option R) :
  let '(t, from) := move_task (MakeResolved r) in
  task_done t frame_done = true ∧ take_result d t_def_init t frame_result = Some r
  ∧ handle from = None
  ∧ take_result d t_def_init from frame_result = if t_def_init then Some d else None.
Proof. by destruct t_def_init. Qed.

(** A coroutine that got no frame is done at once: a [Task] then gives a default
    result, a [CheckedTask] must not be asked for one. *)
Example called_without_memory :
  (t ← fst <$> call_coroutine (mkWorld {[1 := empty_resource]} ∅) 40 1 None;
   Some (task_done t (λ _, false), take_result 0 true t (λ _, None), take_result 0 false t (λ _, None)))
  = Some (true, Some 0, None).
Proof. reflexivity. Qed.

(** One owner, with one frame of 40 bytes. *)
Definition demo_block : block := 1%positive.

Definition demo_world : World :=
  mkWorld {[7 := mkResource {[demo_block := 64]} []]} {[demo_block := 7]}.

Lemma frames_accounted_witness :
  first_word demo_world !! demo_block = Some 7
  ∧ ∃ r total, owners demo_world !! 7 = Some r
    ∧ blocks r !! demo_block = Some total ∧ header_size + this_ptr_size + 40 ≤ total
    ∧ demo_block ∉ free_blocks r.
Proof.
  assert (Hreach : reachable (demo_world, {[7 := {[demo_block := 40]}]})).
  { apply (reach_step (mkWorld {[7 := empty_resource]} ∅, {[7 := ∅]}) (OpCall 40 7 (Some demo_block))).
    - apply (reach_step (mkWorld ∅ ∅, ∅) (OpCreate 7)); [constructor|reflexivity|reflexivity].
    - split; [by eexists|]. cbn. intros a other r _ Hr. apply lookup_singleton_Some in Hr as [_ <-].
      reflexivity.
    - vm_compute. reflexivity. }
  by apply (proj1 (proj2 (frames_accounted _ _ Hreach)) 7 {[demo_block := 40]}).
Defined.
