(* ===== verification/JtagStack.v ===== *)
(** * The chain driver over PullJtag over a target
    ([src/src/libedr/driver/jtag/JtagChain.cpp], [PullJtag.cpp]).

    The drivers put together: [JtagChain] translates a transaction, [PullJtag] hands
    its clocks to a simulator, the simulator clocks a target and pushes what comes
    out of TDO, and [JtagChain] completes its transaction with the answers.  The
    target is an IEEE 1149.1 port, clock by clock: a TAP controller and the data
    registers between TDI and TDO. *)
From S2P Require Import Prelude Actions Transaction JtagTap JtagChain ExecutionGate PullJtag.

(** ** The target *)

Section stack.
(** What the data registers load in the capture state, and what TDO shows while
    nothing is shifted. *)
Context (capture : list bool → list bool) (idle_tdo : JCState → bool).

(** The state of the TAP controllers, and the registers that are scanned; the bit
    next to TDI is the first. *)
Record Target := mkTarget { tap : JCState; dr : list bool }.

(** One clock with TMS and TDI. *)
Definition tck (t : Target) (tms tdi : bool) : bool * Target :=
  let next := tap_step (tap t) tms in
  match tap t with
  | ShiftDR => (default tdi (last (dr t)), mkTarget next (take (length (dr t)) (tdi :: dr t)))
  | CaptureDR => (idle_tdo (tap t), mkTarget next (capture (dr t)))
  | _ => (idle_tdo (tap t), mkTarget next (dr t))
  end.

(** The TDO bits of a sequence of clocks, and the target behind them. *)
Fixpoint tcks (t : Target) (cs : list (bool * bool)) : list bool * Target :=
  match cs with
  | [] => ([], t)
  | (tms, tdi) :: cs =>
      let '(b, t) := tck t tms tdi in
      let '(bs, t) := tcks t cs in (b :: bs, t)
  end.

(** ** The simulator *)

(** It pulls, with room for some TMS and TDI bits each time, clocks the target and
    pushes the TDO bits; [None] if the driver does not take them all. *)
Fixpoint simulate (s : PullJtag) (t : Target) (rooms : list (nat * nat)) : option (PullJtag * Target) :=
  match rooms with
  | [] => Some (s, t)
  | (tms_room, tdi_room) :: rooms =>
      '(d, s) ← PullTMSTDI s tms_room tdi_room;
      let '(tdo, t) := tcks t (zip (tms_written d) (tdi_written d)) in
      '(consumed, s) ← PushTDO s tdo;
      check (consumed =? length tdo)%nat;;
      simulate s t rooms
  end.

(** ** Clocks *)

Lemma tcks_app t cs1 cs2 :
  tcks t (cs1 ++ cs2)
  = ((tcks t cs1).1 ++ (tcks (tcks t cs1).2 cs2).1, (tcks (tcks t cs1).2 cs2).2).
Proof.
  revert t. induction cs1 as [|[tms tdi] cs1 IH]; intros t; cbn [tcks app].
  { cbn. by destruct (tcks t cs2). }
  destruct (tck t tms tdi) as [b t1]. rewrite IH. cbn. by destruct (tcks t1 cs1).
Qed.

Lemma length_tcks t cs : length (tcks t cs).1 = length cs.
Proof.
  revert t. induction cs as [|[tms tdi] cs IH]; intros t; cbn [tcks]; [done|].
  destruct (tck t tms tdi) as [b t1]. specialize (IH t1). destruct (tcks t1 cs). cbn in *. by rewrite IH.
Qed.

Lemma tap_tck t tms tdi : tap (tck t tms tdi).2 = tap_step (tap t) tms.
Proof. unfold tck. by destruct (tap t). Qed.

(** The TAP controllers follow TMS. *)
Lemma tap_tcks t cs : tap (tcks t cs).2 = tap_run (tap t) (fst <$> cs).
Proof.
  revert t. induction cs as [|[tms tdi] cs IH]; intros t; cbn [tcks]; [done|].
  pose proof (tap_tck t tms tdi) as Ht. destruct (tck t tms tdi) as [b t1]. cbn in Ht.
  specialize (IH t1). destruct (tcks t1 cs). cbn in *. by rewrite IH, Ht.
Qed.

Lemma length_shift_in r bits : length (shift_in r bits) = length r.
Proof.
  revert r. induction bits as [|b bits IH]; intros r; [done|]. cbn. rewrite IH, length_take. cbn. lia.
Qed.

Lemma shift_out_cons r b bits :
  shift_out r (b :: bits) = default b (last r) :: shift_out (take (length r) (b :: r)) bits.
Proof.
  unfold shift_out. destruct r as [|x r _] using rev_ind; [done|].
  rewrite last_snoc, length_app. cbn [length default].
  replace (length r + 1) with (S (length r)) by lia. cbn [take]. rewrite take_app_length.
  rewrite reverse_snoc, reverse_cons, <-app_assoc. done.
Qed.

(** A scan: bits shift through the registers, and leave the shift state with the
    last one. *)
Lemma tcks_shift t bits (tms : bool) :
  tap t = ShiftDR → bits ≠ [] →
  tcks t (zip (replicate (length bits - 1) false ++ [tms]) bits)
  = (shift_out (dr t) bits, mkTarget (tap_step ShiftDR tms) (shift_in (dr t) bits)).
Proof.
  revert t. induction bits as [|b bits IH]; intros t Ht Hne; [done|].
  destruct bits as [|b' bits].
  - rewrite shift_out_cons. cbn [length Nat.sub replicate app zip_with tcks]. unfold tck. by rewrite Ht.
  - replace (length (b :: b' :: bits) - 1) with (S (length (b' :: bits) - 1)) by (cbn; lia).
    cbn [replicate app zip zip_with tcks]. unfold tck. rewrite Ht. change (tap_step ShiftDR false) with ShiftDR.
    rewrite IH by done. cbn [dr]. rewrite (shift_out_cons _ b). done.
Qed.

(** ** The simulator and the driver *)

Lemma length_scheduled_clocks (txs : list JtagTx) :
  length (txs ≫= λ tx, item_clocks (incomplete_actions tx)) = sum_list_with bits_left txs.
Proof.
  induction txs as [|tx txs IH]; [done|]. cbn [mbind list_bind sum_list_with].
  by rewrite length_app, IH, length_item_clocks.
Qed.

(** A pull that leaves no clock has taken everything from the queue. *)
Lemma GenerateTMSTDI_drained fuel : ∀ s d d' s',
  GenerateTMSTDI fuel s d = Some (d', s') → even_lanes d → clocks s' = [] →
  scheduled s' = [] ∧ segments s' = [] ∧ actions s' = [].
Proof.
  induction fuel as [|fuel IH]; intros s d d' s' H Hd Hc; [done|]. cbn [GenerateTMSTDI] in H.
  destruct (segments s) as [|seg segs] eqn:Hs.
  - destruct (actions s) as [|a acts] eqn:Ha; [|by eapply IH].
    destruct (scheduled s) as [|tx q] eqn:Hq; [|by eapply IH]. by simplify_eq.
  - destruct (try_write_spec d seg Hd) as (d1 & seg1 & Ht & Hw). rewrite Ht in H.
    destruct (Nat.leb_spec (length (seg_bits seg)) (room d)) as [Hle|Hgt].
    + eapply IH; [done|apply Hw|done].
    + injection H as <- <-. unfold clocks in Hc. cbn [segments at_place mbind list_bind] in Hc.
      apply app_nil in Hc as [Hc _]. apply app_nil in Hc as [Hc _].
      rewrite (w_rest _ _ _ _ Hw) in Hc. apply (f_equal length) in Hc. rewrite length_drop in Hc. cbn in Hc.
      assert (length (segment_clocks seg) = length (seg_bits seg))
        by (unfold segment_clocks; destruct (seg_lane seg); apply length_fmap). lia.
Qed.

(** A push that leaves a transaction in progress waits for bits of it. *)
Lemma GenerateTDO_waits fuel : ∀ s source k n s',
  GenerateTDO fuel s source k = Some (n, s') → got_ok s →
  in_progress s' = [] ∨ ∃ tx rest a, in_progress s' = tx :: rest
    ∧ ins tx !! m_first_incomplete tx = Some a ∧ length (got s') < length (action_bits a).
Proof.
  induction fuel as [|fuel IH]; intros s source k n s' H Hok; [done|]. rewrite GenerateTDO_S in H.
  cbv zeta in H. unfold got_ok in Hok. destruct (in_progress s) as [|tx rest] eqn:Hp.
  { injection H as _ <-. by left. }
  destruct (ins tx !! m_first_incomplete tx) as [a|] eqn:Ha; [|eapply IH; [done|by apply got_nil_ok]].
  destruct (Nat.eqb_spec (length (got s ++ take ((length (action_bits a) - length (got s)) `min` length source) source))
    (length (action_bits a))) as [He|He].
  - eapply IH; [done|by apply got_nil_ok].
  - injection H as _ <-. right. cbn. do 3 eexists. split; [done|]. split; [done|].
    rewrite length_app, length_take in *. lia.
Qed.

Definition unanswered (s : PullJtag) : nat := sum_list_with bits_left (in_progress s ++ scheduled s).

Lemma got_bounded s : got_ok s → length (got s) ≤ sum_list_with bits_left (in_progress s).
Proof.
  unfold got_ok. destruct (in_progress s) as [|tx rest]; [by intros ->|].
  destruct (ins tx !! m_first_incomplete tx) as [a|] eqn:Ha; [|intros ->; cbn; lia].
  cbn. rewrite (bits_left_cons _ _ Ha). lia.
Qed.

(** A pull only takes transactions from the queue. *)
Lemma GenerateTMSTDI_takes fuel : ∀ s d d' s',
  GenerateTMSTDI fuel s d = Some (d', s') →
  ∃ taken, scheduled s = taken ++ scheduled s' ∧ in_progress s' = in_progress s ++ taken.
Proof.
  induction fuel as [|fuel IH]; intros s d d' s' H; [done|]. cbn [GenerateTMSTDI] in H.
  destruct (segments s) as [|seg segs]; [destruct (actions s) as [|a acts]; [destruct (scheduled s) as [|tx q] eqn:Hq|]|].
  - injection H as _ <-. exists []. cbn. by rewrite ?Hq, app_nil_r.
  - apply IH in H as (taken & H1 & H2). exists (tx :: taken). cbn in H1, H2. rewrite H1, H2, <-app_assoc. done.
  - by apply IH in H.
  - destruct (try_write d seg) as [[[] d1] seg1]; [by apply IH in H|]. injection H as _ <-.
    exists []. by rewrite app_nil_r.
Qed.

Lemma got_ok_more s s1 taken :
  got_ok s → in_progress s1 = in_progress s ++ taken → got s1 = got s → got_ok s1.
Proof.
  unfold got_ok. intros Hok Hp Hg. rewrite Hp, Hg. destruct (in_progress s) as [|tx rest]; [|done].
  rewrite Hok. destruct taken; [done|]. cbn [app]. case_match; cbn; [lia|done].
Qed.

(** One round of the simulator: what comes of pushing all the bits to all the
    transactions is what comes of pushing those of the round, and then the rest. *)
Lemma simulate_round s t tms_room tdi_room :
  got_ok s → unanswered s = length (clocks s) + length (got s) →
  let n := Nat.min (Nat.min tms_room tdi_room) (length (clocks s)) in
  let '(tdo, t1) := tcks t (take n (clocks s)) in
  ∃ d s1 s2, PullTMSTDI s tms_room tdi_room = Some (d, s1)
    ∧ zip (tms_written d) (tdi_written d) = take n (clocks s)
    ∧ PushTDO s1 tdo = Some (length tdo, s2)
    ∧ got_ok s2 ∧ clocks s2 = drop n (clocks s) ∧ unanswered s2 = length (clocks s2) + length (got s2)
    ∧ (clocks s2 = [] → scheduled s2 = [] ∧ segments s2 = [] ∧ actions s2 = [] ∧ in_progress s2 = [])
    ∧ ∀ k rest r, (∃ fuel, GenerateTDO fuel (behind s [] (scheduled s) [] []) (tdo ++ rest) k = Some r)
        → ∃ fuel, GenerateTDO fuel (behind s2 [] (scheduled s2) [] []) rest (k + length tdo) = Some r.
Proof.
  intros Hok Hun n. destruct (tcks t (take n (clocks s))) as [tdo t1] eqn:Ht.
  assert (Htdo : length tdo = n).
  { change tdo with (tdo, t1).1. rewrite <-Ht, length_tcks, length_take. lia. }
  destruct (GenerateTMSTDI_spec (pull_fuel s) s (mkDests [] tms_room [] tdi_room 0))
    as (d & s1 & He & [[Hl1 Hl2] Hc Hr Hm Hn] & Hq & Hg & Ha & Hres); [done|done|].
  destruct (GenerateTMSTDI_takes _ _ _ _ _ He) as (taken & Hsch & Hprog).
  unfold room in *; cbn in Hc, Hr, Hm, Hn.
  rewrite <-take_min in Hc. rewrite <-drop_min in Hr. fold n in Hc, Hr.
  pose proof (got_ok_more s s1 taken Hok Hprog Hg) as Hok1.
  assert (Hun1 : sum_list_with bits_left (in_progress s1) + sum_list_with bits_left (scheduled s1)
    = length (clocks s) + length (got s1)).
  { rewrite <-sum_list_with_app, Hq, Hg. exact Hun. }
  assert (Hsc : sum_list_with bits_left (scheduled s1) ≤ length (clocks s1)).
  { unfold clocks. rewrite !length_app, length_scheduled_clocks. lia. }
  assert (Hlc : length (clocks s1) = length (clocks s) - n) by (by rewrite Hr, length_drop).
  destruct (GenerateTDO_total (push_fuel s1) s1 tdo 0) as (m & s2 & Hpush & Hok2 & Hrem & Hm' & Hd); [done|done|].
  pose proof (got_bounded _ Hok1) as Hb1. pose proof (got_bounded _ Hok2) as Hb2. unfold remaining in Hrem.
  assert (m = length tdo) as ->.
  { destruct Hd as [|Hp]; [done|]. rewrite Hp in Hrem. cbn in Hrem. lia. }
  destruct (GenerateTDO_sides _ _ _ _ _ _ Hpush) as (E1 & E2 & E3).
  assert (Hcs : clocks s2 = clocks s1) by (unfold clocks; by rewrite E1, E2, E3).
  exists d, s1, s2. split_and!; [done|done|done|done|by rewrite Hcs| | |].
  - unfold unanswered. rewrite sum_list_with_app, E1, Hcs. lia.
  - intros Hempty. rewrite Hcs in Hempty.
    destruct (GenerateTMSTDI_drained _ _ _ _ _ He ltac:(done) Hempty) as (D1 & D2 & D3).
    split_and!; [congruence..|].
    destruct (GenerateTDO_waits _ _ _ _ _ _ Hpush Hok1) as [|(tx & rest & a & Hp & Ha' & Hlt)]; [done|].
    rewrite Hempty, D1 in *. cbn in Hun1, Hlc. rewrite Hp in Hrem, Hb2. cbn in Hrem, Hb2.
    rewrite (bits_left_cons _ _ Ha') in Hrem, Hb2. lia.
  - intros k rest r [fuel Hall].
    destruct (GenerateTDO_total (push_fuel (behind s2 [] (scheduled s2) [] [])) (behind s2 [] (scheduled s2) [] [])
      rest (k + length tdo)) as (j & fin & Hfin & _); [done| |].
    { by apply (got_ok_more s2 _ (scheduled s2)). }
    eexists. rewrite Hfin.
    apply (GenerateTDO_count _ _ _ _ k) in Hpush. rewrite Nat.add_0_r, Nat.add_0_l in Hpush.
    pose proof (GenerateTDO_behind _ s1 tdo rest k (k + length tdo) s2 _ _ _ [] (scheduled s1) [] []
      Hok1 Hpush eq_refl ltac:(rewrite <-E1; exact Hfin)) as Hrun.
    assert (behind s1 [] (scheduled s1) [] [] = behind s [] (scheduled s) [] []) as Heq
      by (unfold behind; by rewrite Hq, Hg, Ha, Hres).
    rewrite Heq in Hrun. set (f := push_fuel s1 + _) in Hrun.
    apply (GenerateTDO_more _ (fuel + f)) in Hrun, Hall; [|lia..]. by rewrite Hrun in Hall.
Qed.

(** A driver with nothing to do stays as it is. *)
Lemma simulate_idle s t rooms :
  scheduled s = [] → segments s = [] → actions s = [] → in_progress s = [] →
  simulate s t rooms = Some (s, t).
Proof.
  intros H1 H2 H3 H4. induction rooms as [|[n m] rooms IH]; [done|]. cbn [simulate].
  unfold PullTMSTDI, pull_fuel. cbn [GenerateTMSTDI]. rewrite H2, H3, H1. cbn [mbind option_bind].
  cbn [tms_written tdi_written zip_with tcks]. unfold PushTDO, push_fuel. cbn [GenerateTDO]. rewrite H4.
  cbn. exact IH.
Qed.

(** All rounds: the driver ends where pushing all the bits at once would bring it,
    and the target behind all the clocks. *)
Lemma simulate_ends rooms : ∀ s t k fin,
  got_ok s → unanswered s = length (clocks s) + length (got s) →
  (∃ fuel, GenerateTDO fuel (behind s [] (scheduled s) [] []) (tcks t (clocks s)).1 k = Some fin) →
  Forall (λ r, 0 < r.1 ∧ 0 < r.2) rooms → length (clocks s) < length rooms →
  simulate s t rooms = Some (fin.2, (tcks t (clocks s)).2).
Proof.
  induction rooms as [|[a b] rooms IH]; intros s t k fin Hok Hun Hall Hpos Hlen; [cbn in Hlen; lia|].
  apply Forall_cons in Hpos as [[Ha Hb] Hpos]. cbn in Ha, Hb, Hlen.
  pose proof (simulate_round s t a b Hok Hun) as Hround. cbv zeta in Hround.
  set (n := Nat.min (Nat.min a b) (length (clocks s))) in *.
  rewrite <-(take_drop n (clocks s)), tcks_app in Hall |- *.
  destruct (tcks t (take n (clocks s))) as [tdo t1] eqn:Ht. cbn [fst snd] in *.
  destruct Hround as (d & s1 & s2 & Hpull & Hzip & Hpush & Hok2 & Hc2 & Hun2 & Hend & Hnext).
  cbn [simulate]. rewrite Hpull. cbn [mbind option_bind]. rewrite Hzip, Ht. rewrite Hpush.
  cbn [mbind option_bind]. rewrite Nat.eqb_refl. cbn [check mbind option_bind].
  apply Hnext in Hall. rewrite <-Hc2 in Hall |- *.
  destruct (decide (clocks s2 = [])) as [Hempty|Hne].
  - destruct (Hend Hempty) as (E1 & E2 & E3 & E4). rewrite Hempty in Hall |- *. cbn [tcks fst snd] in *.
    destruct Hall as [[|fuel] Hall]; [done|]. rewrite GenerateTDO_S in Hall. cbn [in_progress behind] in Hall.
    rewrite E1, E4 in Hall. cbn [app] in Hall. injection Hall as <-.
    rewrite simulate_idle by done. do 2 f_equal. cbn. unfold behind. rewrite E4.
    destruct s2; cbn in *; by subst.
  - apply (IH s2 t1 (k + length tdo)); [done|done|done|done|].
    assert (length (clocks s2) = length (clocks s) - n) by (by rewrite Hc2, length_drop).
    assert (length (clocks s2) ≠ 0) by (by destruct (clocks s2)). lia.
Qed.

(** A driver without transactions. *)
Definition idle (s : PullJtag) : Prop :=
  scheduled s = [] ∧ in_progress s = [] ∧ segments s = [] ∧ actions s = [] ∧ got s = [].

(** A transaction that is submitted to such a driver is answered with the bits that
    the target gives for its clocks, and the driver is idle again. *)
Lemma simulate_answers s t tx rooms :
  idle s → submitted tx → Forall (λ r, 0 < r.1 ∧ 0 < r.2) rooms →
  length (item_clocks (ins tx)) < length rooms →
  simulate (Execute s tx) t rooms
  = Some (mkPullJtag [] [] [] [] [] (RemovePending <$> (AddPending <$> m_exe_gate s))
            (resolved s ++ [answered tx (tcks t (item_clocks (ins tx))).1]),
          (tcks t (item_clocks (ins tx))).2).
Proof.
  intros (H1 & H2 & H3 & H4 & H5) Hsub Hpos Hlen. pose proof Hsub as (H0 & _).
  assert (Hc : clocks (Execute s tx) = item_clocks (ins tx)).
  { unfold clocks, incomplete_actions. cbn. rewrite H1, H3, H4. cbn. rewrite app_nil_r.
    unfold incomplete_actions. by rewrite H0, drop_0. }
  assert (Hi : bits_left tx = length (item_clocks (ins tx))).
  { unfold bits_left, incomplete_actions. by rewrite H0, drop_0, length_item_clocks. }
  set (b := behind (Execute s tx) [] (scheduled (Execute s tx)) [] []).
  assert (Hb : in_progress b = [tx]) by (cbn; by rewrite H1, H2).
  pose proof (GenerateTDO_all [tx] b (push_fuel b) (tcks t (item_clocks (ins tx))).1 0 Hb H5) as Hall.
  rewrite (simulate_ends rooms (Execute s tx) t 0
    (0 + sum_list_with tx_bits [tx], mkPullJtag (scheduled b) [] (segments b) (actions b) []
        (removed (length [tx]) (m_exe_gate b)) (resolved b ++ answered_all [tx] (tcks t (item_clocks (ins tx))).1))).
  - rewrite Hc. done.
  - apply got_nil_ok. exact H5.
  - rewrite Hc. unfold unanswered. cbn [Execute in_progress scheduled got]. rewrite H1, H2, H5.
    cbn [app sum_list_with length]. lia.
  - rewrite Hc. eexists. apply Hall; [by constructor| |done].
    cbn. unfold tx_bits. rewrite length_tcks, length_item_clocks. lia.
  - done.
  - by rewrite Hc.
Qed.

(** The way to the shift state. *)
Lemma puts_clocks st :
  cs_state st ≠ Unknown → tap_run (cs_state st) (tms_sequences (puts st)) = ShiftDR.
Proof.
  intros Hk. destruct (get_transition_run (cs_state st) ShiftDR Hk) as (tr & Htr & Hrun & _); [done|].
  rewrite <-Hrun. f_equal. unfold puts, to_shift_dr. rewrite Htr.
  destruct (Nat.eqb_spec (length (tms_of tr)) 0) as [Hl|_]; cbn; [|by rewrite app_nil_r].
  symmetry. by apply length_zero_iff_nil.
Qed.

Lemma answers_app l1 l2 tdo : answers (l1 ++ l2) tdo = answers l1 tdo ++ answers l2 (drop (num_bits l1) tdo).
Proof.
  revert tdo. induction l1 as [|a l1 IH]; intros tdo; [done|]. cbn [answers app]. rewrite IH, drop_drop.
  done.
Qed.

Lemma length_answers l tdo : length (answers l tdo) = length l.
Proof. revert tdo. induction l as [|a l IH]; intros tdo; [done|]. cbn. by rewrite IH. Qed.

(** The clocks of a scan that ends in the exit state. *)
Lemma scan_clocks bits :
  bits ≠ [] → action_clocks (PutTDIGetTDO bits true) = zip (replicate (length bits - 1) false ++ [true]) bits.
Proof.
  intros Hne. rewrite <-(zip_fst_snd (action_clocks _)), action_clocks_tms, action_clocks_tdi.
  cbn [tms_sequence action_bits]. destruct (length bits) as [|n] eqn:E; [by destruct bits|].
  by rewrite Nat.sub_succ, Nat.sub_0_r.
Qed.

(** ** Properties *)

(** The results of the driver of the port that a client has made room for. *)
Definition jtag_tx (jtag : list JtagAction) (room : list JtagOut) : JtagTx := begin_tx (jtag, room) false.

(** C1: a transaction of the chain driver reaches the target.  Its actions are any in
    which no scan is empty, of a data register of no bits or an instruction register
    that was given no length, and [JCSetIRLength] does not end the chain below the
    selected TAP ([plan_ok]; the driver takes such actions and loses track or fails
    an assertion, [excluded_plans_break]), and whose data register scans together,
    with 32 bits for each of 256 TAPs, stay below 2^31 bits, the width of the length
    of a scan ([bits_ok]).  The transaction is either refused with an error, or it becomes a transaction of [PullJtag] whose clocks a
    simulator pulls in pieces of any size, running the target and pushing TDO as it
    goes; [PullJtag] resolves it complete, is idle again, the TAP controllers of the
    target are in the state that the chain driver then believes in, and the chain is
    fit for the next transaction. *)
Theorem chain_drives_target `{Uninit} (chain : Chain) (tx : JCTx) (s : PullJtag) (t : Target)
    (Huninit : ∀ n, length (uninit_bits n) = n) (Hchain : chain_ok chain)
    (Hsel : cs_selected_tap (m_state chain) < m_num_taps chain)
    (Hplan : plan_ok (cs_selected_tap (m_state chain)) (m_num_taps chain)
               (drop (m_first_incomplete tx) (ins tx)) = true)
    (Hbits : bits_ok (ins tx)) (Hidle : idle s) (Ht : tap t ≠ Unknown)
    (Htrack : cs_state (m_state chain) ≠ Unknown → tap t = cs_state (m_state chain)) :
  (∃ tx' chain', ExecuteBegin chain tx = Some (Rejected tx' chain')
     ∧ is_Some (m_error_buffer tx') ∧ m_first_incomplete tx' = m_first_incomplete tx)
  ∨ ∃ chain' jtag, ExecuteBegin chain tx = Some (Scheduled tx chain' (m_state chain) jtag)
    ∧ chain_ok chain' ∧ cs_selected_tap (m_state chain') < m_num_taps chain'
    ∧ ∀ room rooms, Forall2 fits jtag room → Forall (λ r, 0 < r.1 ∧ 0 < r.2) rooms →
        length (tms_sequences jtag) < length rooms →
        ∃ s' t' jtx, simulate (Execute s (jtag_tx jtag room)) t rooms = Some (s', t')
          ∧ idle s' ∧ resolved s' = resolved s ++ [jtx] ∧ ins jtx = jtag ∧ status_ok jtx = true
          ∧ tap t' = cs_state (m_state chain').
Proof.
  destruct (ExecuteBegin_built chain tx (tap t) Huninit Hchain Hsel Hplan Hbits Ht Htrack)
    as ([tx' chain'|tx' chain' old jtag] & -> & Hb).
  - left. by exists tx', chain'.
  - right. destruct Hb as (-> & -> & Hrun & _ & Hok & Hsel'). exists chain', jtag. split; [done|].
    split; [exact Hok|]. split; [exact Hsel'|].
    intros room rooms Hfits Hpos Hlen.
    rewrite simulate_answers; [|done|by split_and!|done|].
    2: { cbn [jtag_tx begin_tx ins fst]. by rewrite <-(length_fmap fst), item_clocks_tms. }
    do 3 eexists. split; [done|]. split_and!; try done.
    + cbn. by rewrite Nat.eqb_refl.
    + cbn [jtag_tx begin_tx ins fst]. by rewrite tap_tcks, item_clocks_tms.
Qed.

(** The clocks of a scan from a known state, and the answers to it. *)
Lemma scan_run t st tdi :
  tap t = cs_state st → cs_state st ≠ Unknown → tdi ≠ [] →
  let entered := dr (tcks t (item_clocks (puts st))).2 in
  tcks t (item_clocks (puts st ++ [PutTDIGetTDO tdi true]))
  = ((tcks t (item_clocks (puts st))).1 ++ shift_out entered tdi, mkTarget Exit1DR (shift_in entered tdi)).
Proof.
  intros Htrack Hknown Hne entered. unfold item_clocks. rewrite bind_app. cbn [mbind list_bind].
  rewrite app_nil_r, tcks_app, scan_clocks by done. fold (item_clocks (puts st)).
  rewrite tcks_shift; [done| |done]. by rewrite tap_tcks, item_clocks_tms, Htrack, puts_clocks.
Qed.

Lemma scan_answers t st tdi room :
  tap t = cs_state st → cs_state st ≠ Unknown → tdi ≠ [] →
  let jtag := puts st ++ [PutTDIGetTDO tdi true] in
  let tdo := (tcks t (item_clocks jtag)).1 in
  let jtx := answered (jtag_tx jtag room) tdo in
  zip (ins jtx) (outs jtx) = zip (puts st) (answers (puts st) tdo)
    ++ [(PutTDIGetTDO tdi true, PutGetOut (length tdi) (shift_out (dr (tcks t (item_clocks (puts st))).2) tdi))].
Proof.
  intros Htrack Hknown Hne jtag tdo jtx.
  assert (Hdrop : drop (num_bits (puts st)) tdo = shift_out (dr (tcks t (item_clocks (puts st))).2) tdi).
  { unfold tdo, jtag. rewrite scan_run by done. cbn [fst]. apply drop_app_length'.
    by rewrite length_tcks, length_item_clocks. }
  cbn [jtx answered ins outs jtag_tx begin_tx fst]. unfold jtag. rewrite answers_app, Hdrop.
  rewrite zip_with_app by (by rewrite length_answers). cbn [answers action_bits zip_with].
  by rewrite take_ge by (by rewrite length_shift_out).
Qed.

(** C3: a scan reads the target.  [JtagChain] turns a scan of the data register of
    the selected TAP into JTAG actions, [PullJtag] into clocks, a simulator
    clocks the target with them in pieces of any size and pushes what TDO shows, and
    the answers complete the scan: its result is what the register of the selected
    TAP held when the target entered the shift state, captured on the way there or
    left from before; the bits written end up next to TDI.  The scan stays below 2^31
    bits, the width of its length. *)
Theorem scan_reads_target `{Uninit} (chain : Chain) (bits old : list bool) (s : PullJtag) (t : Target)
    (room : list JtagOut) (rooms : list (nat * nat))
    (Huninit : ∀ n, length (uninit_bits n) = n) (Hchain : chain_ok chain)
    (Hsel : cs_selected_tap (m_state chain) < m_num_taps chain)
    (Hknown : cs_state (m_state chain) ≠ Unknown) (Htrack : tap t = cs_state (m_state chain))
    (Hbits : bits ≠ []) (Hold : length old = length bits) (Hidle : idle s)
    (Hpos : Forall (λ r, 0 < r.1 ∧ 0 < r.2) rooms) :
  let k := cs_selected_tap (m_state chain) in
  let above := m_num_taps chain - 1 - k in
  let tx := begin_tx ([JCShiftDR bits], [JCShiftOut 0 old]) false in
  let entered := dr (tcks t (item_clocks (puts (m_state chain)))).2 in
  length entered = k + length bits + above → (Z.of_nat (above + length bits) < 2 ^ 31)%Z →
  ∃ chain' jtag, ExecuteBegin chain tx = Some (Scheduled tx chain' (m_state chain) jtag)
    ∧ (Forall2 fits jtag room → length (tms_sequences jtag) < length rooms →
       ∃ s' t' jtx tx', simulate (Execute s (jtag_tx jtag room)) t rooms = Some (s', t')
         ∧ idle s' ∧ resolved s' = resolved s ++ [jtx]
         ∧ ExecuteEnd chain' tx 0 (m_state chain) (zip (ins jtx) (outs jtx)) None = Some (tx', chain')
         ∧ status_ok tx' = true
         ∧ outs tx' = [JCShiftOut (length bits) (reverse (tap_register k (length bits) entered))]
         ∧ tap t' = cs_state (m_state chain')
         ∧ dr t' = reverse bits ++ replicate above false ++ take k entered).
Proof.
  intros k above tx entered Hr Hwidth. set (st := m_state chain) in *.
  set (scan := PutTDIGetTDO (replicate above false ++ bits) true).
  set (chain' := mkChain (mkChainState Exit1DR k None) (m_ir_lengths chain) (m_num_taps chain)).
  assert (Hchain' : chain_ok chain') by (by apply chain_ok_state).
  assert (Hscan : length (replicate above false ++ bits) = above + length bits)
    by (by rewrite length_app, length_replicate).
  assert (Hne : replicate above false ++ bits ≠ []) by (intros E%app_nil; tauto).
  exists chain', (puts st ++ [scan]). split; [by apply ShiftDR_begin|]. intros Hfits Hlen.
  set (jtag := puts st ++ [scan]) in *.
  pose proof (scan_run t st _ Htrack Hknown Hne) as Hrun. cbv zeta in Hrun. fold scan jtag entered in Hrun.
  set (jtx := answered (jtag_tx jtag room) (tcks t (item_clocks jtag)).1).
  pose proof (scan_answers t st _ room Htrack Hknown Hne) as Hans.
  cbv zeta in Hans. fold scan jtag in Hans. fold jtx entered in Hans.
  rewrite Hscan in Hans.
  destruct (ShiftDR_end chain' st bits old (shift_out entered (replicate above false ++ bits))
    (zip (ins jtx) (outs jtx)) (above + length bits)) as (tx' & Hend & Hok & Hout).
  { exact Hchain'. } { exact Hsel. } { exact Hknown. }
  { rewrite Hans, fmap_app, fst_zip by (rewrite length_answers; lia). reflexivity. }
  { rewrite Hans, last_snoc. reflexivity. }
  { exact Hold. }
  { rewrite length_take, length_shift_out, Hscan.
    change (m_num_taps chain' - 1 - cs_selected_tap st) with above. lia. }
  { exact Hwidth. }
  rewrite simulate_answers; [|exact Hidle|by split_and!|exact Hpos|].
  2: { cbn [jtag_tx begin_tx ins fst]. by rewrite <-(length_fmap fst), item_clocks_tms. }
  exists (mkPullJtag [] [] [] [] [] (RemovePending <$> (AddPending <$> m_exe_gate s)) (resolved s ++ [jtx])),
    (tcks t (item_clocks jtag)).2, jtx, tx'.
  split; [reflexivity|]. split; [repeat split|]. split; [reflexivity|]. split; [exact Hend|].
  split; [exact Hok|]. split_and!.
  - rewrite Hout. change (m_num_taps chain' - 1 - cs_selected_tap st) with above.
    rewrite (take_ge (shift_out _ _)) by (by rewrite length_shift_out, Hscan).
    by rewrite (shift_out_spec entered k).
  - rewrite Hrun. reflexivity.
  - rewrite Hrun. cbn [snd dr]. rewrite shift_in_spec by (rewrite Hscan; lia).
    rewrite Hscan, reverse_app, reverse_replicate, <-app_assoc. do 3 f_equal. lia.
Qed.
End stack.

(** ** Examples *)

#[local] Existing Instance zero_memory.

Definition demo_rooms : list (nat * nat) := concat (replicate 8 [(3, 5); (1, 1); (4, 2)]).

(** Two TAPs, the second one selected; the registers hold four bits. *)
Definition demo_target : Target := mkTarget PauseDR [false; true; false; true].

Lemma demo_rooms_pos : Forall (λ r, 0 < r.1 ∧ 0 < r.2) demo_rooms.
Proof. repeat constructor. Qed.

Definition demo_scan : JCTx := begin_tx ([JCShiftDR [true; true; false]], [JCShiftOut 0 [false; false; false]]) false.

Lemma scan_reads_target_witness :
  ∃ chain' s' t' jtag room tx' jtx,
    simulate id (λ _, false) (Execute (make_driver None) (jtag_tx jtag room)) demo_target demo_rooms = Some (s', t')
    ∧ resolved s' = [jtx]
    ∧ ExecuteEnd chain' demo_scan 0 (m_state (two_taps PauseDR 1)) (zip (ins jtx) (outs jtx)) None
      = Some (tx', chain')
    ∧ outs tx' = [JCShiftOut 3 [true; false; true]]
    ∧ dr t' = [false; true; true; false].
Proof.
  set (room := [PutOut 0; PutGetOut 0 [false; false; false]]).
  destruct (scan_reads_target id (λ _, false) (two_taps PauseDR 1) [true; true; false] [false; false; false]
    (make_driver None) demo_target room demo_rooms) as (chain' & jtag & Hbegin & Hrest).
  - exact zero_memory_length.
  - apply two_taps_ok.
  - vm_compute. lia.
  - discriminate.
  - reflexivity.
  - discriminate.
  - reflexivity.
  - repeat split.
  - apply demo_rooms_pos.
  - reflexivity.
  - reflexivity.
  - assert (Hj : jtag = [PutTMS [true; false]; PutTDIGetTDO [true; true; false] true])
      by (vm_compute in Hbegin; by injection Hbegin as <-).
    destruct Hrest as (s' & t' & jtx & tx' & Hsim & _ & Hres & Hend & _ & Hout & _ & Hdr).
    + rewrite Hj. repeat constructor.
    + rewrite Hj. vm_compute. lia.
    + exists chain', s', t', jtag, room, tx', jtx. split_and!; [exact Hsim|exact Hres|exact Hend| |].
      * rewrite Hout. reflexivity.
      * rewrite Hdr. reflexivity.
Defined.

Lemma chain_drives_target_witness :
  (∃ tx' chain', ExecuteBegin (two_taps Unknown 0) demo_tx = Some (Rejected tx' chain')
     ∧ is_Some (m_error_buffer tx') ∧ m_first_incomplete tx' = m_first_incomplete demo_tx)
  ∨ ∃ chain' jtag,
    ExecuteBegin (two_taps Unknown 0) demo_tx = Some (Scheduled demo_tx chain' (m_state (two_taps Unknown 0)) jtag)
    ∧ chain_ok chain' ∧ cs_selected_tap (m_state chain') < m_num_taps chain'
    ∧ ∀ room rooms, Forall2 fits jtag room → Forall (λ r, 0 < r.1 ∧ 0 < r.2) rooms →
        length (tms_sequences jtag) < length rooms →
        ∃ s' t' jtx, simulate id (λ _, false) (Execute (make_driver None) (jtag_tx jtag room))
            (mkTarget PauseIR [true]) rooms = Some (s', t')
          ∧ idle s' ∧ resolved s' = [jtx] ∧ ins jtx = jtag ∧ status_ok jtx = true
          ∧ tap t' = cs_state (m_state chain').
Proof.
  apply (chain_drives_target id (λ _, false) (two_taps Unknown 0) demo_tx (make_driver None)
    (mkTarget PauseIR [true])).
  - exact zero_memory_length.
  - apply two_taps_ok.
  - vm_compute. lia.
  - vm_compute. reflexivity.
  - vm_compute. reflexivity.
  - repeat split.
  - discriminate.
  - intros Hk. by destruct Hk.
Defined.
