(* ===== verification/TunnelStack.v ===== *)
(** * TunnelStack: a driver behind a tunnel
    ([src/src/libedr/tunnel/ByteStreamTunnel.cpp], [driver/DriverImpl.hpp]).

    The tunnel and the drivers put together: a client's transaction is sent as a
    request, the other end schedules it on its driver, the driver does what it does,
    and the answer completes the client's transaction.  For transactions that take
    one chunk the client sees what it would see of a driver of its own. *)
From S2P Require Import Prelude BitStream Actions Transaction TransactionBuffer VSS ActionLayout Storage Errors FreeList Tunnel TunnelTransfer Driver.
From stdpp Require Import gmap.
Local Open Scope Z_scope.
Local Open Scope list_scope.

(** ** Positions in one chunk *)

Lemma stands_one b g p k :
  stores b [g] → stands b p (drop k g) → p = at_offset (Z.of_nat (length (concat (take k g)))).
Proof.
  intros [Hch _ _ _ _] Hst. pose proof (stands_remaining _ _ _ Hst) as Hrem.
  apply Forall2_cons_inv_r in Hch as (c & cs & [Ha _ _ _] & Hnil%Forall2_nil_inv_r & Hcs). subst cs.
  destruct Hst as (i & c' & e & g1 & g2 & gs & [-> Hc Hh _ _ _ _ _]). rewrite Hcs in Hc.
  destruct i as [|i]; [|done]. injection Hc as <-.
  pose proof (holds_allocated _ _ Hh) as Ha'. rewrite concat_app, length_app in Ha'.
  unfold remaining in Hrem. cbn [fst snd] in Hrem. rewrite Hcs in Hrem. cbn in Hrem.
  rewrite <-(take_drop k g), concat_app, length_app in Ha. unfold at_offset. rewrite Nat2Z.id.
  f_equal. unfold g_initial_offset in *. lia.
Qed.

(** The results of the first [k] actions from one end, the others from the other. *)
Lemma transaction_objs_mix d k l1 l2 ios o1 o2 :
  transaction_objs d l1 ios o1 → transaction_objs d l2 ios o2 →
  transaction_objs d (take k l1 ++ drop k l2) ios (take k o1 ++ drop k o2).
Proof.
  intros H1. revert k l2 o2. induction H1 as [|a x l io ios oo oos Hi Ho H1 IH]; intros k l2 o2 H2.
  { inversion H2; subst. by rewrite !take_nil, !drop_nil. }
  inversion H2; subst. destruct k as [|k]; cbn [take drop app]; [by constructor|].
  constructor; [done|done|]. by apply IH.
Qed.

Lemma length_concat_sizes (o1 o2 : list (list Z)) :
  length <$> o1 = length <$> o2 → length (concat o1) = length (concat o2).
Proof. intros Hl. rewrite !length_concat. change (map length) with (fmap (M := list) (@length Z)). by rewrite Hl. Qed.

Lemma take_sizes k (o1 o2 : list (list Z)) :
  length <$> o1 = length <$> o2 → length <$> take k o1 = length <$> take k o2.
Proof. intros Hl. by rewrite !fmap_take, Hl. Qed.

Lemma sizes_mix k (o1 o2 : list (list Z)) :
  length <$> o1 = length <$> o2 → length <$> (take k o1 ++ drop k o2) = length <$> o2.
Proof. intros Hl. by rewrite fmap_app, fmap_take, fmap_drop, Hl, take_drop. Qed.

Lemma concat_mix k (o1 o2 : list (list Z)) :
  length <$> o1 = length <$> o2 →
  concat (take k o1 ++ drop k o2)
  = take (length (concat (take k o1))) (concat o1) ++ drop (length (concat (take k o1))) (concat o2).
Proof.
  intros Hl. rewrite concat_app. f_equal.
  - rewrite <-(take_drop k o1) at 3. by rewrite concat_app, take_app_length.
  - rewrite (length_concat_sizes _ _ (take_sizes k _ _ Hl)).
    rewrite <-(take_drop k o2) at 3. by rewrite concat_app, drop_app_length.
Qed.

Lemma mapM_seen (tx tx' : Tx AnyAction tree) (indices : list nat) :
  Forall (λ i, seen tx i = seen tx' i) indices → mapM (seen tx) indices = mapM (seen tx') indices.
Proof. induction 1 as [|i indices Hi _ IH]; [done|]. cbn -[seen]. by rewrite Hi, IH. Qed.

(** What is seen of a transaction that has the results of [l'] in front of the
    boundary and those of [l] behind it. *)
Lemma seen_list (l : list (AnyAction * tree)) f k e i : seen (mkTx l.*1 l.*2 f k e) i = l !! i.
Proof.
  unfold seen. cbn. rewrite !list_lookup_fmap. by destruct (l !! i) as [[]|].
Qed.

Lemma seen_mix (l' l : list (AnyAction * tree)) (tx : Tx AnyAction tree) k e :
  Transaction.ins tx = l'.*1 → Transaction.outs tx = l'.*2 → length l' = length l → (k ≤ length l)%nat →
  let mixed := mkTx (take k l' ++ drop k l).*1 (take k l' ++ drop k l).*2 false k e in
  mapM (seen mixed) (seq 0 k) = mapM (seen tx) (seq 0 k)
  ∧ ∀ n, mapM (seen mixed) (seq k n) = mapM (seen (begin_tx (l.*1, l.*2) false)) (seq k n).
Proof.
  intros Hi Ho Hl Hk mixed. split; [|intros n]; apply mapM_seen, Forall_seq; intros i Hi';
    unfold mixed; rewrite seen_list.
  - destruct tx as [? ? f n e']. cbn in Hi, Ho. rewrite Hi, Ho, seen_list.
    rewrite lookup_app_l by (rewrite length_take; lia). apply lookup_take_lt. lia.
  - unfold begin_tx. cbn [fst snd]. rewrite seen_list.
    rewrite lookup_app_r by (rewrite length_take; lia). rewrite length_take, Nat.min_l by lia.
    rewrite lookup_drop. f_equal. lia.
Qed.

(** ** The two ends *)

(** What [DetachRequest] gets from the driver, and what the client is left with
    when its transaction is resolved. *)
Definition as_pending (st : Status) : PendingTransaction :=
  mkPending (buffers (m_storage st)) (m_error_buffer st) (m_first_incomplete st).

Definition as_status (p : PendingTransaction) : Status :=
  mkStatus (mkOwned true (storage p)) (first_incomplete p) (error_buffer p).

Section ends.
Context `{ShiftUB} `{FreshBytes} (fresh_length : ∀ n, length (fresh_bytes n) = n) (min_size : nat).
Context (d : DriverID) (rs : list Request) (Hfits : Forall (λ r, action_fits (request_action r)) rs).
Context (Hne : rs ≠ []) (Hsize : total_request_size rs < 2 ^ 32).

Lemma small_size : total_request_size rs < 2 ^ 62.
Proof. lia. Qed.

Lemma held_fits s gi go l : held d rs s gi go l → Forall (λ ax, action_fits ax.1) l.
Proof.
  intros Hb. apply (Forall_fmap fst action_fits). rewrite (held_actions _ _ _ _ _ _ Hb).
  by apply Forall_fmap.
Qed.

Lemma held_lengths s ios oos l : held d rs s [ios] [oos] l →
  Z.of_nat (length (concat ios)) < 2 ^ 32 ∧ Z.of_nat (length (concat oos)) < 2 ^ 32.
Proof.
  intros Hb. pose proof (held_size _ _ _ _ _ _ Hb) as Hs. cbn [concat] in Hs. rewrite !app_nil_r in Hs. lia.
Qed.

(** Other memory with the same objects, but for results of the same sizes. *)
Lemma held_elsewhere s s' ios oos oos' l l' :
  held d rs s [ios] [oos] l → stores (ins s') [ios] → stores (outs s') [oos'] →
  length <$> oos' = length <$> oos → transaction_objs d l' ios oos' → l'.*1 = l.*1 →
  held d rs s' [ios] [oos'] l'.
Proof.
  intros [_ _ Hio _ _ Hacts Hsizes Hsz] Hi Ho Hlen Hobjs Hl'. cbn [concat] in *.
  rewrite !app_nil_r in *. split; cbn [concat]; rewrite ?app_nil_r; try done.
  - by rewrite Hl'.
  - apply Forall2_fmap_r with (f := length) (P := λ r n, Z.of_nat n = out_size r) in Hsizes.
    rewrite <-Hlen in Hsizes. by apply Forall2_fmap_r in Hsizes.
  - by rewrite (length_concat_sizes _ _ Hlen).
Qed.

Lemma held_one s ios oos l : held d rs s [ios] [oos] l → transaction_objs d l ios oos.
Proof. intros Hb. pose proof (held_objs _ _ _ _ _ _ Hb) as Hobjs. cbn [concat] in Hobjs. by rewrite !app_nil_r in Hobjs. Qed.

(** The transaction at the other end. *)
Lemma remote_held s ios oos l : held d rs s [ios] [oos] l →
  ∃ s' oos' l', remote_storage min_size (λ _, true) empty_buffer (concat ios)
                  (Z.of_nat (length (concat oos))) = Some s'
    ∧ held d rs s' [ios] [oos'] l' ∧ length <$> oos' = length <$> oos.
Proof.
  intros Hb. destruct (held_lengths s ios oos l Hb) as [_ Ho].
  pose proof (held_one _ _ _ _ Hb) as Hobjs.
  destruct (remote_storage_stores fresh_length min_size d l ios oos Hobjs) as (s' & oos' & l' & Hs & Hsi & Hso & Hlen & Ho' & Hl');
    [by intros ->; pose proof (l_length d rs _ _ _ _ Hb); destruct rs|by eapply held_fits|done|].
  exists s', oos', l'. split_and!; [done| |done]. by eapply held_elsewhere.
Qed.

(** Where the iterators stand, and the boundary. *)
Lemma iterator_one s ios oos l k : held d rs s [ios] [oos] l → (k ≤ length l)%nat →
  iterator d s k = Some (at_offset (Z.of_nat (length (concat (take k ios)))),
                         at_offset (Z.of_nat (length (concat (take k oos))))).
Proof.
  intros Hb Hk. destruct (iterator_at d rs Hne small_size s [ios] [oos] l Hb k Hk) as (pos & -> & [Hi Ho]).
  cbn [concat] in Hi, Ho. rewrite app_nil_r in Hi, Ho. destruct pos as [p q]. cbn [fst snd] in *.
  by rewrite (stands_one _ _ _ _ (held_ins _ _ _ _ _ _ Hb) Hi), (stands_one _ _ _ _ (held_outs _ _ _ _ _ _ Hb) Ho).
Qed.

Lemma refines_bound s gi go l st tx :
  refines d rs s gi go l st tx → (Transaction.m_first_incomplete tx ≤ length l)%nat.
Proof.
  intros Hr. pose proof (ref_wf _ _ _ _ _ _ _ _ Hr) as Hwf. unfold tx_wf in Hwf.
  by rewrite (ref_End d rs _ _ _ _ _ _ Hr) in Hwf.
Qed.

Lemma refines_first s ios oos l st tx : refines d rs s [ios] [oos] l st tx →
  let k := Transaction.m_first_incomplete tx in
  m_first_incomplete st
  = (at_offset (Z.of_nat (length (concat (take k ios)))), at_offset (Z.of_nat (length (concat (take k oos))))).
Proof.
  intros Hr k. pose proof (iterator_one _ _ _ _ k (ref_held _ _ _ _ _ _ _ _ Hr) (refines_bound _ _ _ _ _ _ Hr)) as Hk.
  pose proof (ref_first _ _ _ _ _ _ _ _ Hr) as Hf. fold k in Hf. rewrite Hf in Hk. by injection Hk.
Qed.

(** The error that is sent. *)
Lemma kept_bytes eb e :
  error_kept eb e → ∃ err, error_bytes eb err ∧ default 0 (chunks_length <$> eb) = Z.of_nat (length err)
    ∧ ∀ eb', error_bytes eb' err → error_kept eb' e.
Proof.
  destruct eb as [eb|], e as [e|]; cbn [error_kept]; try done.
  - intros (obj & Hone & Hobj). assert (Hn : obj ≠ []).
    { intros ->. destruct Hobj as (x & _ & Hr & _). destruct (Hr [] 0 eq_refl ltac:(cbn; lia)) as [_ Hv].
      vm_compute in Hv. done. }
    exists obj. split_and!; [done| |].
    + cbn. by rewrite chunks_length_eq, (one_object_ForEachChunk _ _ Hone), concat_cons, app_nil_r.
    + intros [eb'|]; cbn; [|by intros ->]. intros [Hone' _]. by exists obj.
  - intros _. exists []. split_and!; [done|done|]. intros [eb'|]; cbn; [|done]. by intros [_ []].
Qed.

Lemma held_sizes s s' gi go l ios oos l' :
  held d rs s gi go l → held d rs s' ios oos l' → length <$> concat oos = length <$> concat go.
Proof.
  intros Hb Hb'. pose proof (held_out_sizes _ _ _ _ _ _ Hb) as H1. pose proof (held_out_sizes _ _ _ _ _ _ Hb') as H2.
  apply list_eq_Forall2, Forall2_fmap. clear Hb Hb' Hfits Hne Hsize. revert H2.
  generalize (concat oos). induction H1 as [|r oo rs' oos' E _ IH]; intros o2 H2; inversion H2; subst; constructor.
  - lia.
  - by apply IH.
Qed.

Context `{WholeReads}.

(** The answer completes the transaction of the client: up to the boundary it has
    the results of the driver, behind it those of its own. *)
Lemma answered_refines client pool key s ios oos l s' oos' l' st tx rest :
  cleared pool → held d rs s [ios] [oos] l → refines d rs s' [ios] [oos'] l' st tx →
  m_pending_transactions client !! key = Some (mkPending s None (begin_pos s)) → small key →
  default 0 (chunks_length <$> m_error_buffer st) < 2 ^ 32 →
  let k := Transaction.m_first_incomplete tx in
  let mix := take k l' ++ drop k l in
  ∃ client' p', HandlePacket min_size (λ _, true) pool (λ _, true) (λ _, true) client
                  (DetachRequest key (as_pending st) ++ rest) = Some (client', [Resolved key p'], inr rest)
    ∧ m_pending_transactions client' = delete key (m_pending_transactions client)
    ∧ m_free_keys client' = key :: m_free_keys client
    ∧ refines d rs (storage p') [ios] [take k oos' ++ drop k oos] mix (as_status p')
        (mkTx mix.*1 mix.*2 false k (Transaction.m_error_buffer tx)).
Proof.
  intros Hpool Hb Hr Hp Hkey Hsmall k mix. pose proof (ref_held _ _ _ _ _ _ _ _ Hr) as Hb'.
  pose proof (held_sizes _ _ _ _ _ _ _ _ Hb Hb') as Hlen. cbn [concat] in Hlen. rewrite !app_nil_r in Hlen.
  destruct (kept_bytes _ _ (ref_error _ _ _ _ _ _ _ _ Hr)) as (err & Herr & Hle & Hkept).
  destruct (held_lengths s ios oos l Hb) as [Hli Hlo].
  pose proof (length_concat_sizes _ _ Hlen) as Hlc.
  assert (Hcut : ∀ g : list (list Z), (length (concat (take k g)) ≤ length (concat g))%nat).
  { intros g. rewrite <-(take_drop k g) at 2. rewrite concat_app, length_app. lia. }
  pose proof (Hcut ios). pose proof (Hcut oos').
  set (x := Z.of_nat (length (concat (take k ios)))). set (y := Z.of_nat (length (concat (take k oos')))).
  destruct (response_one min_size client pool key (mkPending s None (begin_pos s)) (as_pending st)
              ios oos ios oos' err x y rest)
    as (client' & p' & Hpacket & Hfi & Hins & Hout & He & Hpend & Hfree); try done; try apply Hb.
  { unfold as_pending. cbn [storage]. rewrite (ref_storage _ _ _ _ _ _ _ _ Hr). apply Hb'. }
  { unfold as_pending. cbn [storage]. rewrite (ref_storage _ _ _ _ _ _ _ _ Hr). apply Hb'. }
  { by apply (refines_first s' ios oos' l'). }
  { lia. }
  { lia. }
  { repeat constructor; lia. }
  exists client', p'. split_and!; [done|done|done|].
  cbn [storage] in Hins, Hout. pose proof (sizes_mix k _ _ Hlen) as Hmix.
  assert (Hacts : mix.*1 = l.*1).
  { unfold mix. rewrite fmap_app, fmap_take, fmap_drop, (held_actions _ _ _ _ _ _ Hb), (held_actions _ _ _ _ _ _ Hb').
    apply take_drop. }
  assert (Hoos : take k oos' ++ drop k oos ≠ []).
  { intros E. rewrite E in Hmix. apply (f_equal length) in Hmix. rewrite !length_fmap in Hmix.
    pose proof (holds_some _ _ (held_outs _ _ _ _ _ _ Hb)) as Hn. apply Forall_cons in Hn as [Hn _]. by destruct oos. }
  pose proof (refines_bound _ _ _ _ _ _ Hr) as Hk. fold k in Hk.
  pose proof (l_length d rs _ _ _ _ Hb). pose proof (l_length d rs _ _ _ _ Hb').
  assert (Hheld : held d rs (storage p') [ios] [take k oos' ++ drop k oos] mix).
  { apply (held_elsewhere s _ ios oos _ l); [done|rewrite Hins; apply Hb| |by apply sizes_mix| |].
    - rewrite Hout. unfold y. rewrite Nat2Z.id. destruct (Z.eqb_spec (Z.of_nat (length (concat (take k oos')))) 0) as [Hz|_].
      + apply (stores_regroup _ oos); [apply Hb| |done]. rewrite concat_mix by done.
        replace (length (concat (take k oos'))) with 0%nat by lia. by rewrite take_0, drop_0.
      + apply (copy_output_stores _ oos); [apply Hb| |done|rewrite concat_mix by done]; rewrite length_take, Nat.min_l by lia; [lia|done].
    - apply transaction_objs_mix; by eapply held_one.
    - done. }
  split; [done|done|done|done|done| | |by apply Hkept].
  - unfold tx_wf, Transaction.End. cbn. rewrite Hacts, length_fmap. lia.
  - cbn [Transaction.m_first_incomplete as_status m_first_incomplete]. rewrite (iterator_one _ _ _ _ k Hheld), Hfi.
    + rewrite (length_concat_sizes _ _ (take_sizes k _ _ Hmix)). unfold as_pending. cbn. symmetry.
      rewrite <-(length_concat_sizes _ _ (take_sizes k _ _ Hlen)). f_equal. by apply (refines_first s' ios oos' l').
    + rewrite <-(length_fmap fst), Hacts, length_fmap. lia.
Qed.

(** ... and what it then sees. *)
Lemma answered_view client pool key s ios oos l s' oos' l' st tx rest :
  cleared pool → held d rs s [ios] [oos] l → refines d rs s' [ios] [oos'] l' st tx →
  m_pending_transactions client !! key = Some (mkPending s None (begin_pos s)) → small key →
  default 0 (chunks_length <$> m_error_buffer st) < 2 ^ 32 →
  ∃ client' p', HandlePacket min_size (λ _, true) pool (λ _, true) (λ _, true) client
                  (DetachRequest key (as_pending st) ++ rest) = Some (client', [Resolved key p'], inr rest)
    ∧ m_pending_transactions client' = delete key (m_pending_transactions client)
    ∧ status_ok (as_status p') = Transaction.status_ok tx
    ∧ (∃ acts, Complete d (S (length rs)) (as_status p') = Some acts
         ∧ mapM (visit d) acts = mapM (seen tx) (Transaction.Complete tx))
    ∧ (∃ acts, Incomplete d (S (length rs)) (as_status p') = Some acts
         ∧ mapM (visit d) acts = mapM (seen (begin_tx (l.*1, l.*2) false)) (Transaction.Incomplete tx))
    ∧ error_seen (m_error_buffer (as_status p')) (Transaction.m_error_buffer tx).
Proof.
  intros Hpool Hb Hr Hp Hkey Hsmall.
  destruct (answered_refines client pool key s ios oos l s' oos' l' st tx rest Hpool Hb Hr Hp Hkey Hsmall)
    as (client' & p' & Hpacket & Hpend & _ & Hr').
  exists client', p'. split; [exact Hpacket|]. split; [exact Hpend|].
  pose proof (l_length d rs _ _ _ _ Hb) as Hl1.
  pose proof (l_length d rs _ _ _ _ (ref_held _ _ _ _ _ _ _ _ Hr)) as Hl2.
  pose proof (refines_bound _ _ _ _ _ _ Hr) as Hk.
  destruct (seen_mix l' l tx (Transaction.m_first_incomplete tx) (Transaction.m_error_buffer tx)) as [Hseen Hseen'];
    [apply Hr|apply Hr|lia|lia|].
  pose proof (ref_End d rs _ _ _ _ _ _ Hr') as Hend. rewrite length_app, length_take, length_drop in Hend.
  replace (_ + _)%nat with (length l') in Hend by lia. rewrite <-(ref_End d rs _ _ _ _ _ _ Hr) in Hend.
  destruct (refines_loops d rs Hne small_size _ _ _ _ _ _ Hr') as [(ca & Hca & Hcm) (ia & Hia & Him)].
  split_and!.
  - rewrite (refines_ok d rs Hne small_size _ _ _ _ _ _ Hr'). unfold Transaction.status_ok.
    rewrite Hend. cbn. by rewrite (ref_failure _ _ _ _ _ _ _ _ Hr).
  - exists ca. split; [exact Hca|]. rewrite Hcm. exact Hseen.
  - exists ia. split; [exact Hia|]. rewrite Him. unfold Transaction.Incomplete. rewrite Hend. apply Hseen'.
  - apply error_kept_seen, (ref_error _ _ _ _ _ _ _ _ Hr').
Qed.
End ends.

Lemma stores_single b gs : stores b gs → length (chunks b) = 1%nat → ∃ g, gs = [g].
Proof.
  intros [Hch _ _ _ _] Hl. apply Forall2_length in Hch. rewrite Hl in Hch.
  destruct gs as [|g [|g' gs]]; try done. by exists g.
Qed.

(** A driver adds no chunks to the results. *)
Definition out_chunks (st : Status) : nat := length (chunks (outs (buffers (m_storage st)))).

Lemma FailAt_chunks `{ShiftUB} `{FreshBytes} min_size alloc d pool st pos cause st' pool' :
  FailAt min_size alloc d pool st pos cause = Some (st', pool') → out_chunks st' = out_chunks st.
Proof.
  unfold FailAt. destruct (owner (m_storage st)); [|done]. cbn [check mbind option_bind].
  destruct (TakeOrMake pool empty_buffer) as [b pool1]. destruct (FailImpl _ _ _ _ _ _ _); [|done].
  cbn [mbind option_bind]. by intros [= <- _].
Qed.

Lemma run_op_chunks `{ShiftUB} `{FreshBytes} min_size alloc d o st pool st' pool' :
  run_op min_size alloc d st pool o = Some (st', pool') → out_chunks st' = out_chunks st.
Proof.
  destruct o as [k|k|k nested c|nested c|k bytes]; cbn [run_op].
  1, 2, 3, 5: destruct (iterator d (buffers (m_storage st)) k) as [pos|]; [cbn [mbind option_bind]|done].
  - unfold Done. destruct (incr _ _ _); [|done]. cbn [mbind option_bind]. by intros [= <- _].
  - by intros [= <- _].
  - apply FailAt_chunks.
  - unfold write_out. destruct (deref _ _ _) as [act|]; [|done]. cbn [mbind option_bind].
    destruct (m_out act); [|done]. cbn [mbind option_bind]. intros [= <- _]. unfold out_chunks. cbn.
    unfold store. destruct pos.2.1; [|done]. apply length_alter.
  - unfold Fail. destruct (status_ok st); [by intros [= <- _]|apply FailAt_chunks].
Qed.

Lemma run_ops_chunks `{ShiftUB} `{FreshBytes} min_size alloc d ops st pool st' pool' :
  run_ops min_size alloc d st pool ops = Some (st', pool') → out_chunks st' = out_chunks st.
Proof.
  revert st pool. induction ops as [|o ops IH]; intros st pool; cbn [run_ops]; [by intros [= <- _]|].
  destruct (run_op min_size alloc d st pool o) as [[st1 pool1]|] eqn:Ho; [|done]. cbn [mbind option_bind].
  intros Hrun. rewrite (IH _ _ Hrun). by eapply run_op_chunks.
Qed.

(** ** Properties *)

(** C4: a tunnel is transparent over streams whose reads deliver all they ask for.  A
    client adds actions for a driver that the other end has registered and that take
    one chunk of memory; the tunnel sends them, the other end schedules them on its
    driver, which writes results, completes, undoes and fails actions in any order,
    and the answer resolves the client's transaction, if the error fits the length
    field of the packet.  The client then sees the outcome, the completed actions
    with their results and the error of [tx], which is what the driver did to the
    list of the client's actions; behind the boundary are the client's actions with
    the results it put there itself. *)
Theorem tunnel_transparent `{ShiftUB} `{FreshBytes} `{WholeReads} (min_size : nat) (d : DriverID) (name : list Z)
    (rs : list Request) (ops : list tx_op) (client server : Tunnel) (index : nat) (remote_pool : Pool)
    (pool : Buffer) (ps : list ActionPosition) (s : TransactionStorage) (rest rest' : list Z)
    (Hfresh : ∀ n, length (fresh_bytes n) = n) (Hok : Forall (request_ok d) rs) (Hne : rs ≠ [])
    (Hsize : total_request_size rs < 2 ^ 32) (Hops : Forall (legal rs) ops)
    (Hkeys : Forall small (m_next_key client :: m_free_keys client))
    (Hindex : small (Z.of_nat index)) (Hdriver : m_my_drivers server !! index = Some (mkDriver d name))
    (Hremote : Forall cleared (full remote_pool)) (Hpool : cleared pool)
    (Hadd : add_all min_size (λ _, true) empty_storage (add_args <$> rs) = Some (ps, s))
    (Hone : length (chunks (ins s)) = 1%nat ∧ length (chunks (outs s)) = 1%nat) :
  ∃ key bytes sent s' l l' st remote_pool',
    Execute client (Z.of_nat index) (mkPending s None (begin_pos s)) true true = (inr (key, bytes), sent)
    ∧ HandlePacket min_size (λ _, true) empty_buffer (λ _, true) (λ _, true) server (bytes ++ rest)
      = Some (server, [Forwarded (mkDriver d name) key s'], inr rest)
    ∧ Schedule min_size (λ _, true) d (S (length rs)) true
        (λ st pool w, '(st, pool) ← run_ops min_size (λ _, true) d st pool ops; Some (st, pool, w))
        remote_pool (mkOwned true s') tt = Some (st, remote_pool', tt)
    ∧ Forall2 shown rs l ∧ l'.*1 = request_action <$> rs
    ∧ let tx := foldl tx_step (begin_tx (l'.*1, l'.*2) false) ops in
      default 0 (chunks_length <$> m_error_buffer st) < 2 ^ 32 →
      ∃ client' p', HandlePacket min_size (λ _, true) pool (λ _, true) (λ _, true) sent
                      (DetachRequest key (as_pending st) ++ rest') = Some (client', [Resolved key p'], inr rest')
        ∧ m_pending_transactions client' = delete key (m_pending_transactions client)
        ∧ status_ok (as_status p') = Transaction.status_ok tx
        ∧ (∃ acts, Complete d (S (length rs)) (as_status p') = Some acts
             ∧ mapM (visit d) acts = mapM (seen tx) (Transaction.Complete tx))
        ∧ (∃ acts, Incomplete d (S (length rs)) (as_status p') = Some acts
             ∧ mapM (visit d) acts = mapM (seen (begin_tx (l.*1, l.*2) false)) (Transaction.Incomplete tx))
        ∧ error_seen (m_error_buffer (as_status p')) (Transaction.m_error_buffer tx).
Proof.
  destruct (add_all_built Hfresh min_size d empty_storage [] [] [] [] rs
              (ready_built d _ empty_ready) Hok)
    as (ps' & s0 & gi & go & l & Hall & Hbuilt & _); [cbn [app]; lia|].
  rewrite Hadd in Hall. injection Hall as <- <-. cbn [app] in Hbuilt.
  pose proof (built_held d s rs gi go l Hbuilt Hne) as Hb. destruct Hone as [Hci Hco].
  destruct (stores_single _ _ (held_ins _ _ _ _ _ _ Hb) Hci) as [ios ->].
  destruct (stores_single _ _ (held_outs _ _ _ _ _ _ Hb) Hco) as [oos ->].
  assert (Hfits : Forall (λ r, action_fits (request_action r)) rs).
  { eapply Forall_impl; [exact Hok|]. by intros [[a v] vo] (_ & Hf & _). }
  destruct (remote_held Hfresh min_size d rs Hfits Hne Hsize s ios oos l Hb) as (s' & oos' & l' & Hs' & Hb' & Hlen).
  destruct (Schedule_refines Hfresh min_size d rs Hfits Hne (small_size rs Hsize) ops s' [ios] [oos'] l' remote_pool Hb')
    as (s2 & go2 & l2 & st & remote_pool' & Hrun & Hsch & Hr); [done|done|].
  pose proof (ref_held _ _ _ _ _ _ _ _ Hr) as Hb2.
  destruct (stores_single _ _ (held_outs _ _ _ _ _ _ Hb2)) as [oos2 ->].
  { apply run_ops_chunks in Hrun. unfold out_chunks in Hrun. rewrite (ref_storage _ _ _ _ _ _ _ _ Hr) in Hrun.
    cbn in Hrun. rewrite Hrun. by rewrite (Forall2_length _ _ _ (holds_chunks _ _ (held_outs _ _ _ _ _ _ Hb'))). }
  destruct (held_lengths d rs Hsize s ios oos l Hb) as [Hli Hlo].
  assert (Hci' : concat (ForEachChunk (ins s)) = concat ios).
  { rewrite (one_object_ForEachChunk _ (concat ios)); [apply app_nil_r|]. by apply stores_one, Hb. }
  assert (Hco' : concat (ForEachChunk (outs s)) = concat oos).
  { rewrite (one_object_ForEachChunk _ (concat oos)); [apply app_nil_r|]. by apply stores_one, Hb. }
  assert (Hin : small (chunks_length (ins s))) by (unfold small; rewrite chunks_length_eq, Hci'; lia).
  assert (Hout : small (chunks_length (outs s))) by (unfold small; rewrite chunks_length_eq, Hco'; lia).
  destruct (Execute_sends client (Z.of_nat index) (mkPending s None (begin_pos s)) Hin Hout Hkeys)
    as (key & sent & Hexe & Hpend & Hkey).
  exists key, (request_bytes (Z.of_nat index) key (mkPending s None (begin_pos s))), sent, s', l, l', st, remote_pool'.
  split; [done|]. split.
  { apply HandlePacket_request; [done|done|by rewrite Nat2Z.id|done|done| |].
    { rewrite chunks_length_eq. cbn [storage]. rewrite Hci', <-(app_nil_r ios).
      eapply (transaction_objs_some d l (concat [ios])); [apply Hbuilt|].
      intros ->. by pose proof (Forall2_length _ _ _ (built_shown _ _ _ _ _ _ Hbuilt)); destruct rs. }
    cbn [storage]. by rewrite Hci', chunks_length_eq, Hco'. }
  split; [done|]. split; [apply Hbuilt|]. split; [apply Hb'|]. intros tx Hsmall.
  rewrite <-(delete_insert_eq (m_pending_transactions client) key (mkPending s None (begin_pos s))), <-Hpend.
  apply (answered_view Hfresh min_size d rs Hne Hsize sent pool key s ios oos l s2 oos2 l2 st tx rest');
    [done|done|exact Hr| |done|done].
  rewrite Hpend. apply lookup_insert_eq.
Qed.

(** ** An example *)

#[local] Existing Instance ub_ones.
#[local] Existing Instance zero_bytes.
#[local] Existing Instance whole_delivery.
#[local] Existing Instance whole_delivery_whole.

(** Two accesses go to the only driver of the other end; it answers the first one
    and fails at the second one. *)
Definition dmi_server : Tunnel := mkTunnel [mkDriver IDRVDTM [65]] [] [] 0 ∅ true.

Definition dmi_storage : list ActionPosition * TransactionStorage :=
  default ([], empty_storage) (add_all 1024 (λ _, true) empty_storage (add_args <$> [read_dmi; read_dmi])).

Lemma tunnel_transparent_witness :
  let rs := [read_dmi; read_dmi] in
  let s := dmi_storage.2 in
  ∃ key bytes sent s' l l' st pool client' p',
    Execute demo_client 0 (mkPending s None (begin_pos s)) true true = (inr (key, bytes), sent)
    ∧ HandlePacket 1024 (λ _, true) empty_buffer (λ _, true) (λ _, true) dmi_server (bytes ++ [1; 2])
      = Some (dmi_server, [Forwarded (mkDriver IDRVDTM [65]) key s'], inr [1; 2])
    ∧ Schedule 1024 (λ _, true) IDRVDTM 3 true
        (λ st pool w, '(st, pool) ← run_ops 1024 (λ _, true) IDRVDTM st pool demo_ops; Some (st, pool, w))
        demo_pool (mkOwned true s') tt = Some (st, pool, tt)
    ∧ Forall2 shown rs l
    ∧ HandlePacket 1024 (λ _, true) empty_buffer (λ _, true) (λ _, true) sent
        (DetachRequest key (as_pending st) ++ []) = Some (client', [Resolved key p'], inr [])
    ∧ let tx := foldl tx_step (begin_tx (l'.*1, l'.*2) false) demo_ops in
      status_ok (as_status p') = Transaction.status_ok tx
      ∧ (∃ acts, Complete IDRVDTM 3 (as_status p') = Some acts
           ∧ mapM (visit IDRVDTM) acts = mapM (seen tx) (Transaction.Complete tx))
      ∧ error_seen (m_error_buffer (as_status p')) (Transaction.m_error_buffer tx).
Proof.
  intros rs s.
  destruct (tunnel_transparent 1024 IDRVDTM [65] rs demo_ops demo_client dmi_server 0 demo_pool empty_buffer
              dmi_storage.1 s [1; 2] [])
    as (key & bytes & sent & s' & l & l' & st & pool & Hexe & Hreq & Hsch & Hshown & Hl' & Hrest).
  - apply zero_bytes_length.
  - repeat constructor; vm_compute; congruence.
  - done.
  - vm_compute. reflexivity.
  - apply demo_ops_legal.
  - repeat constructor; done.
  - split; done.
  - reflexivity.
  - repeat (constructor || done).
  - apply empty_cleared.
  - vm_compute. reflexivity.
  - split; vm_compute; reflexivity.
  - destruct Hrest as (client' & p' & Hans & _ & Hok & Hcomplete & _ & Herr).
    { vm_compute in Hexe. injection Hexe as <- <- <-. vm_compute in Hreq. injection Hreq as <-.
      vm_compute in Hsch. injection Hsch as <- <-. vm_compute. reflexivity. }
    exists key, bytes, sent, s', l, l', st, pool, client', p'.
    split; [exact Hexe|]. split; [exact Hreq|]. split; [exact Hsch|]. split; [exact Hshown|].
    split; [exact Hans|]. split; [exact Hok|]. split; [exact Hcomplete|exact Herr].
Defined.
