(* ===== verification/ApiTunnel.v ===== *)
(** * ApiTunnel: tunnels and drivers of the bindings
    ([src/src/api/ByteStreamTunnel.h], [TunnelCommon.h], [DriverBase.h]).

    A client of the bindings registers drivers, shakes hands, finds the drivers of
    the other end by their names, and may leave the stream to a thread, which the
    destructor of the tunnel waits for.  The tunnel is that of [Tunnel]. *)
From S2P Require Import Prelude Actions Printing ApiStreams Tunnel TunnelLoop.
From stdpp Require Import gmap strings pretty.
Local Open Scope nat_scope.

(** ** Drivers *)

(** [DriverBase]: a pointer to a driver that may be null. *)
Definition DriverBase (D : Type) : Type := option D.

Definition IsValid {D : Type} (driver : DriverBase D) : bool := bool_decide (is_Some driver).

(** ** The tunnel *)

(** [std::thread]: one that runs has to be joined before the object is destroyed or
    assigned. *)
Inductive Thread := NotJoinable | Joinable.

(** [stream_alive] is whether the driver of the stream was not terminated, which is
    what ends the loop over [Serve]. *)
Record ApiTunnel := mkApiTunnel {
  m_tunnel : Tunnel;
  stream_alive : bool;
  m_server : Thread;
}.

Definition make_tunnel : ApiTunnel := mkApiTunnel empty_tunnel true NotJoinable.

(** An invalid driver is not registered; whether the map had memory is not said. *)
Definition RegisterDriver (driver : DriverBase RemoteDriver) (allocated : bool) (t : ApiTunnel) : ApiTunnel :=
  match driver with
  | None => t
  | Some d => mkApiTunnel (Tunnel.RegisterDriver (m_tunnel t) d allocated).2 (stream_alive t) (m_server t)
  end.

Section starting.
(** Memory for the definitions of the other end, and the error of the stream if
    there is one. *)
Context `{Delivery} (alloc_name alloc_driver : nat → bool) (stream_error : option ActionError).

(** The errors that [Handshake] makes; the second alternative of the outer option
    is an error whose cause could not be stored. *)
Definition handshake_error (r : TunnelError + list Z) : option (option Cause) :=
  match r with
  | inr _ => None
  | inl StreamFailed => Some (Some (CauseNestedError stream_error))
  | inl AllocationFailed => Some (Some CauseAllocationFailure)
  | inl (UnrecognizedDriver id) => Some (Some (CauseStringMessage ("Unrecognized remote driver ID " +:+ dec id)))
  | inl (UnexpectedPacket id) => Some (Some (CauseStringMessage ("Unexpected incoming packet ID " +:+ dec id)))
  end.

(** [task->Success()] is a call of the function that makes an [Error] without a
    failure, so the condition always holds: the result of the handshake is assigned
    whatever it is.  [framed] says whether the task had memory for its frame. *)
Definition Hanshake (framed written : bool) (input : list Z) (error : Error) (t : ApiTunnel)
    : option (ApiTunnel * list Z * Error) :=
  if framed then
    '(tunnel, r) ← Handshake alloc_name alloc_driver (m_tunnel t) written input;
    let unread := match r with inr unread => unread | inl _ => [] end in
    Some (mkApiTunnel tunnel (stream_alive t) (m_server t), unread, assign (handshake_error r) error)
  else Some (t, input, assign (Some None) error).

(** The assignment to a thread that is joinable ends the program. *)
Definition StartServer (framed written : bool) (input : list Z) (error : Error) (t : ApiTunnel)
    : option (ApiTunnel * list Z * Error) :=
  '(t, input, error) ← Hanshake framed written input error t;
  if Fail error then Some (t, input, error) else
  match m_server t with
  | Joinable => None
  | NotJoinable => Some (mkApiTunnel (m_tunnel t) (stream_alive t) Joinable, input, error)
  end.
End starting.

Definition Terminate (t : ApiTunnel) : ApiTunnel := mkApiTunnel (m_tunnel t) false (m_server t).

Definition IsAlive (t : ApiTunnel) : bool := m_is_alive (m_tunnel t).

(** [FindAPB] and so on: a driver by its index, or an invalid one. *)
Definition Find (id : DriverID) (name : list Z) (t : ApiTunnel) : DriverBase nat :=
  FindByName (m_tunnel t) id name.

(** [m_server.join()]: a thread whose stream still serves does not end. *)
Definition join (t : ApiTunnel) : option ApiTunnel :=
  if stream_alive t then None else Some (mkApiTunnel (m_tunnel t) false NotJoinable).

Definition destroy (t : ApiTunnel) : option ApiTunnel :=
  let t := Terminate t in
  match m_server t with
  | Joinable => join t
  | NotJoinable => Some t
  end.

(** ** Properties *)

(** The drivers that were registered. *)
Lemma registered ds t :
  m_my_drivers (m_tunnel (foldl (λ t d, RegisterDriver d true t) t ds)) = m_my_drivers (m_tunnel t) ++ omap id ds.
Proof.
  revert t. induction ds as [|[d|] ds IH]; intros t; cbn; [by rewrite app_nil_r| |apply IH].
  rewrite IH. cbn. by rewrite <-app_assoc.
Qed.

(** The two ends of a tunnel.  The other end has registered drivers, some of which
    may be invalid; a new tunnel that is started against it reports no error, gives
    the stream to a thread and is alive.  A driver that is looked for by type and
    name is valid exactly if such a driver was registered at the other end, where it
    has the index that was found; and the destructor joins the thread. *)
Theorem started_tunnel_finds `{WholeReads} (ds : list (DriverBase RemoteDriver)) (error : Error) (rest : list Z) :
  let peer := foldl (λ t d, RegisterDriver d true t) make_tunnel ds in
  Forall short_name (omap id ds) →
  ∃ t error', StartServer (λ _, true) (λ _, true) None true true (DefineMyDrivers (m_tunnel peer) ++ rest)
                error make_tunnel = Some (t, rest, error')
    ∧ Fail error' = false ∧ IsAlive t = true
    ∧ (∀ id name, IsValid (Find id name t) = true ↔ Some (mkDriver id name) ∈ ds)
    ∧ (∀ id name i, Find id name t = Some i → m_my_drivers (m_tunnel peer) !! i = Some (mkDriver id name))
    ∧ ∃ t', destroy t = Some t' ∧ m_server t' = NotJoinable.
Proof.
  intros peer Hnames. pose proof (registered ds make_tunnel) as Hreg. cbn [make_tunnel m_tunnel m_my_drivers] in Hreg.
  rewrite app_nil_l in Hreg. fold peer in Hreg. unfold StartServer, Hanshake. cbn [m_tunnel make_tunnel].
  rewrite Handshake_defined; [|done|by rewrite Hreg]. cbn. do 2 eexists. split; [done|].
  set (t := mkApiTunnel _ _ _).
  assert (Hremote : m_remote_drivers (m_tunnel t) = omap id ds) by (cbn; exact Hreg).
  split_and!; [done|done| | |by eexists].
  - intros i name. unfold IsValid, Find. rewrite bool_decide_eq_true. split.
    + intros [k Hk]. apply FindByName_known in Hk. rewrite Hremote in Hk.
      apply list_elem_of_lookup_2, list_elem_of_omap in Hk as (d & Hd & Heq). cbn in Heq. by subst.
    + intros Hd. apply (FindByName_knows _ (mkDriver i name)). rewrite Hremote.
      apply list_elem_of_omap. by eexists.
  - intros i name k Hk. apply FindByName_known in Hk. rewrite Hremote in Hk. by rewrite Hreg.
Qed.

(** A failed handshake leaves the thread as it was and tells the client, whatever the
    error object said before; the handshake does not return only if an assertion fails
    because a read delivered too little. *)
Theorem failed_start_reported `{Delivery} (alloc_name alloc_driver : nat → bool) (e : option ActionError)
    (framed written : bool) (input : list Z) (error : Error) (t : ApiTunnel) :
  match Hanshake alloc_name alloc_driver e framed written input error t with
  | Some (t', unread, error') =>
      m_server t' = m_server t
      ∧ (Fail error' = true →
           StartServer alloc_name alloc_driver e framed written input error t = Some (t', unread, error'))
      ∧ (Fail error' = false → m_is_alive (m_tunnel t') = true)
  | None => ∃ unread, unread `suffix_of` input ∧ (short_read 4 4 unread ∨ short_read 8 8 unread)
  end.
Proof.
  unfold StartServer. destruct (Hanshake _ _ _ _ _ _ _ _) as [[[t' unread] error']|] eqn:Hh; unfold Hanshake in Hh.
  - destruct framed; [|by injection Hh as <- _ <-; cbn].
    destruct (Handshake _ _ _ _ _) as [[tunnel r]|] eqn:Hr; [|done]. cbn [mbind option_bind] in Hh.
    injection Hh as <- _ <-. cbn. split_and!; [done|by intros ->|].
    destruct r as [[]|unread']; cbn; try done. intros _. unfold Handshake in Hr. destruct written; [|done].
    cbn [negb] in Hr. destruct (HandshakeLoop _ _ _ _ _) as [[remote r]|]; [|done]. cbn in Hr.
    injection Hr as <- ->. done.
  - destruct framed; [|done]. unfold Handshake in Hh. destruct written; [|done]. cbn [negb] in Hh.
    destruct (HandshakeLoop_total alloc_name alloc_driver (S (length input)) (m_remote_drivers (m_tunnel t)) input)
      as [[[remote r] Hl]|[_ Hs]]; [lia|by rewrite Hl in Hh|exact Hs].
Qed.

(** A tunnel that serves cannot be started once more: if the second handshake is
    successful, the program ends. *)
Theorem second_start_ends_program `{WholeReads} (rest : list Z) :
  let started := StartServer (λ _, true) (λ _, true) None true true
                   (ToBytes Packet.FinishedDefiningDrivers ++ rest) no_error make_tunnel in
  ∃ t error, started = Some (t, rest, error) ∧ Fail error = false
    ∧ StartServer (λ _, true) (λ _, true) None true true
        (ToBytes Packet.FinishedDefiningDrivers) no_error t = None.
Proof.
  cbn zeta. pose proof (Handshake_defined empty_tunnel empty_tunnel rest eq_refl (Forall_nil_2 _)) as Hh.
  unfold StartServer at 1, Hanshake. cbn [m_tunnel make_tunnel]. change (DefineMyDrivers empty_tunnel)
    with (ToBytes Packet.FinishedDefiningDrivers) in Hh. rewrite Hh. cbn [mbind option_bind].
  do 2 eexists. split; [done|]. split; [done|]. unfold StartServer, Hanshake. cbn [m_tunnel].
  pose proof (Handshake_defined (set_alive (set_remote empty_tunnel (m_my_drivers empty_tunnel)) true)
    empty_tunnel [] eq_refl (Forall_nil_2 _)) as Hh2. rewrite app_nil_r in Hh2.
  change (DefineMyDrivers empty_tunnel) with (ToBytes Packet.FinishedDefiningDrivers) in Hh2. by rewrite Hh2.
Qed.
