(* ===== verification/Ownership.v ===== *)
(** * Ownership: buffers as chains of chunks, and the pool that keeps them
    ([src/src/libedr/driver/TransactionBuffer.hpp], [util/adt/FreeList.hpp]).

    [TransactionBuffer] has a buffer as the list of its chunks.  Here the chunks are
    in memory and point to each other: allocation links them, moves hand the head
    over and leave the tail behind, and destructors give the chunks back one by one.
    Buffers go through the items of a [FreeList] by such moves.  The theorem says that
    buffers in memory are the buffers of [TransactionBuffer], that no chunk is used
    or given back after its end, and that in the end nothing is left. *)
From S2P Require Import Prelude TransactionBuffer.
From stdpp Require Import gmap.
Local Open Scope nat_scope.

(** ** Memory *)

(** A chunk and its pointer [next]. *)
Abbreviation Memory := (gmap nat (Chunk * option nat)).

Record PBuffer := mkPBuffer {
  m_head : option nat;
  p_tail : option nat;
  p_offset : nat;
  p_failure : bool;
}.

Definition new_buffer : PBuffer := mkPBuffer None None g_initial_offset false.

(** The loop of [DeleteFrom]; a pointer to memory that was given back is [None]. *)
Fixpoint delete_from (fuel : nat) (h : Memory) (chunk : option nat) : option Memory :=
  match fuel, chunk with
  | _, None => Some h
  | O, _ => None
  | S fuel, Some l => '(_, next) ← h !! l; delete_from fuel (delete l h) next
  end.

Definition DeleteFrom (h : Memory) (chunk : option nat) : option Memory :=
  delete_from (size h) h chunk.

Section memory.
Context `{FreshBytes} (t_min_chunk_size : nat) (alloc : nat → bool).

Definition make_chunk (h : Memory) (total : nat) : option (nat * Memory) :=
  c ← TransactionBuffer.make_chunk alloc total;
  let l := fresh (dom h) in Some (l, <[l := (c, None)]> h).

Definition reset_chunk (h : Memory) (l : nat) (c : Chunk) (next : option nat) : Memory :=
  <[l := (set_allocated c g_initial_offset, next)]> h.

(** [GoToNextChunk] *)
Definition GoToNextChunk (h : Memory) (b : PBuffer) (min_data_size : nat) : option (bool * Memory * PBuffer) :=
  let total := Nat.max (g_initial_offset + min_data_size) t_min_chunk_size in
  let at_chunk h head l := Some (true, h, mkPBuffer head (Some l) g_initial_offset (p_failure b)) in
  let failed h head := Some (false, h, mkPBuffer head (p_tail b) (p_offset b) true) in
  match p_tail b with
  | None =>
      let fresh_head h :=
        match make_chunk h total with
        | None => failed h None
        | Some (l, h) => at_chunk h (Some l) l
        end in
      match m_head b with
      | None => fresh_head h
      | Some l =>
          '(c, next) ← h !! l;
          if total <=? total_size c then at_chunk (reset_chunk h l c next) (Some l) l
          else h ← DeleteFrom h (Some l); fresh_head h
      end
  | Some tail =>
      '(tail_chunk, next) ← h !! tail;
      let fresh_next h :=
        match make_chunk h total with
        | None => failed h (m_head b)
        | Some (l, h) => '(c, _) ← h !! tail; at_chunk (<[tail := (c, Some l)]> h) (m_head b) l
        end in
      match next with
      | None => fresh_next h
      | Some l =>
          '(c, after) ← h !! l;
          if total <=? total_size c then at_chunk (reset_chunk h l c after) (m_head b) l
          else h ← DeleteFrom h (Some l); '(c, _) ← h !! tail; fresh_next (<[tail := (c, None)]> h)
      end
  end.

(** The rest of [Allocate]: the pointer to the object. *)
Definition place (h : Memory) (b : PBuffer) (size : nat) : option (option (nat * nat) * Memory * PBuffer) :=
  l ← p_tail b;
  '(c, next) ← h !! l;
  let new_offset := p_offset b + size in
  Some (Some (l, p_offset b), <[l := (set_allocated c new_offset, next)]> h,
        mkPBuffer (m_head b) (Some l) new_offset (p_failure b)).

Definition Allocate (h : Memory) (b : PBuffer) (size : nat) : option (option (nat * nat) * Memory * PBuffer) :=
  full ← (match p_tail b with
          | None => Some true
          | Some l => '(c, _) ← h !! l; Some (total_size c <? p_offset b + size)
          end);
  if (full : bool) then
    '(ok, h, b) ← GoToNextChunk h b size;
    if (ok : bool) then place h b size else Some (None, h, b)
  else place h b size.

Definition Clear (b : PBuffer) : PBuffer := mkPBuffer (m_head b) None g_initial_offset (p_failure b).

(** What is left of a buffer that was moved from. *)
Definition moved (b : PBuffer) : PBuffer := mkPBuffer None (p_tail b) (p_offset b) (p_failure b).
End memory.

(** ** Objects and the pool *)

(** What a program does with buffers, whatever they are made of: chunks in memory, or
    the lists of [TransactionBuffer], which have no memory of their own. *)
Class Buffers (M B : Type) := {
  construct : B;
  allocate : M → B → nat → option (M * B);
  clear : B → B;
  moved_from : B → B;
  (** [DeleteFrom(m_head)] *)
  delete_chunks : M → B → option M;
}.

Section instances.
Context `{FreshBytes} (t_min_chunk_size : nat) (alloc : nat → bool).

Definition in_memory : Buffers Memory PBuffer := {|
  construct := new_buffer;
  allocate h b size := '(_, h, b) ← Allocate t_min_chunk_size alloc h b size; Some (h, b);
  clear := Clear;
  moved_from := moved;
  delete_chunks h b := DeleteFrom h (m_head b);
|}.

Definition as_lists : Buffers unit Buffer := {|
  construct := empty_buffer;
  allocate _ b size := '(_, _, b) ← TransactionBuffer.Allocate t_min_chunk_size alloc b size; Some (tt, b);
  clear := TransactionBuffer.Clear;
  moved_from b := mkBuffer [] (m_tail b) (m_offset b) (m_had_allocation_failure b);
  delete_chunks _ _ := Some tt;
|}.
End instances.

(** Objects that were destroyed are [None].  [full] and [empty] are the items of a
    [FreeList]: the objects in the full ones, and how many are empty; [items] is how
    many have memory. *)
Record World (M B : Type) := mkWorld {
  memory : M;
  objects : list (option B);
  full : list nat;
  empty : nat;
  items : nat;
}.
#[global] Arguments mkWorld {M B}.
#[global] Arguments memory {M B}.
#[global] Arguments objects {M B}.
#[global] Arguments full {M B}.
#[global] Arguments empty {M B}.
#[global] Arguments items {M B}.

Inductive op :=
| ONew
| OAllocate (i size : nat)
| OClear (i : nat)
| OMove (i : nat)
| OAssign (i j : nat)
| ODestroy (i : nat)
| OTakeOrMake
| OFree (i : nat) (item : bool)
| ODestroyPool.

Section running.
Context {M B : Type} `{Buffers M B}.

Definition with_objects (w : World M B) (h : M) (l : list (option B)) : World M B :=
  mkWorld h l (full w) (empty w) (items w).

Definition object (w : World M B) (i : nat) : option B := mjoin (objects w !! i).

(** An object is changed, or made. *)
Definition set_object (i : nat) (b : option B) (h : M) (w : World M B) : World M B :=
  with_objects w h (<[i := b]> (objects w)).

Definition add_object (b : B) (w : World M B) : World M B :=
  with_objects w (memory w) (objects w ++ [Some b]).

(** The move constructor; the new object is the last one. *)
Definition move_object (i : nat) (w : World M B) : option (World M B) :=
  b ← object w i; Some (add_object b (set_object i (Some (moved_from b)) (memory w) w)).

(** [operator=(TransactionBuffer &&)], also of an object to itself. *)
Definition assign_object (i j : nat) (w : World M B) : option (World M B) :=
  to ← object w i; from ← object w j;
  h ← delete_chunks (memory w) to;
  Some (set_object j (Some (moved_from from)) h (set_object i (Some from) h w)).

Definition destroy_object (i : nat) (w : World M B) : option (World M B) :=
  b ← object w i; h ← delete_chunks (memory w) b; Some (set_object i None h w).

(** [FreeList::TakeOrMake]: the value leaves its item, which is empty then. *)
Definition TakeOrMake (w : World M B) : option (World M B) :=
  match full w with
  | [] => Some (add_object construct w)
  | i :: l =>
      w ← move_object i w; w ← destroy_object i w;
      Some (mkWorld (memory w) (objects w) l (S (empty w)) (items w))
  end.

(** [FreeList::Free]: the value is moved to an empty item or to a new one, if
    [item] says that there is memory for it. *)
Definition Free (i : nat) (item : bool) (w : World M B) : option (World M B) :=
  if (0 <? empty w) || item then
    w' ← move_object i w;
    Some (mkWorld (memory w') (objects w') (length (objects w) :: full w) (empty w - 1)
            (if 0 <? empty w then items w else S (items w)))
  else Some w.

(** [FreeList::~FreeList]: the empty items are given back, then the full ones with
    their values. *)
Fixpoint destroy_full (l : list nat) (w : World M B) : option (World M B) :=
  match l with
  | [] => Some w
  | i :: l =>
      w ← destroy_object i w;
      destroy_full l (mkWorld (memory w) (objects w) l (empty w) (items w - 1))
  end.

Definition destroy_pool (w : World M B) : option (World M B) :=
  destroy_full (full w) (mkWorld (memory w) (objects w) (full w) 0 (items w - empty w)).

(** What clients do; the values in the pool are not theirs. *)
Definition outside (w : World M B) (i : nat) : bool := bool_decide (i ∉ full w).

Definition run_op (w : World M B) (o : op) : option (World M B) :=
  match o with
  | ONew => Some (add_object construct w)
  | OAllocate i n =>
      check (outside w i);;
      b ← object w i; '(h, b) ← allocate (memory w) b n; Some (set_object i (Some b) h w)
  | OClear i =>
      check (outside w i);; b ← object w i; Some (set_object i (Some (clear b)) (memory w) w)
  | OMove i => check (outside w i);; move_object i w
  | OAssign i j => check (outside w i && outside w j);; assign_object i j w
  | ODestroy i => check (outside w i);; destroy_object i w
  | OTakeOrMake => TakeOrMake w
  | OFree i item => check (outside w i);; Free i item w
  | ODestroyPool => destroy_pool w
  end.

Fixpoint run_ops (w : World M B) (ops : list op) : option (World M B) :=
  match ops with
  | [] => Some w
  | o :: ops => w ← run_op w o; run_ops w ops
  end.
End running.

(** ** Chains *)

(** The chunks [cs] lie at the addresses [ls], each one points to the next one. *)
Definition chain (h : Memory) (ls : list nat) (cs : list Chunk) : Prop :=
  length ls = length cs ∧ ∀ i l c, ls !! i = Some l → cs !! i = Some c → h !! l = Some (c, ls !! S i).

Lemma chain_lookup h ls cs i l : chain h ls cs → ls !! i = Some l → ∃ c, cs !! i = Some c ∧ h !! l = Some (c, ls !! S i).
Proof.
  intros [Hl Hc] Hi. destruct (lookup_lt_is_Some_2 cs i) as [c Hci]; [rewrite <-Hl; by eapply lookup_lt_Some|]. eauto.
Qed.

Lemma chain_tail h l ls c cs : chain h (l :: ls) (c :: cs) → chain h ls cs.
Proof. intros [Hl Hc]. split; [by injection Hl|]. intros i l' c' Hi Hci. apply (Hc (S i)); done. Qed.

Lemma chain_frame h h' ls cs : chain h ls cs → (∀ l, l ∈ ls → h' !! l = h !! l) → chain h' ls cs.
Proof.
  intros [Hl Hc] Hh. split; [done|]. intros i l c Hi Hci. rewrite Hh by (by eapply list_elem_of_lookup_2). by eapply Hc.
Qed.

Lemma chunks_dom h ls cs : chain h ls cs → NoDup ls → length ls ≤ size h.
Proof.
  intros Hc Hn. rewrite <-(size_dom (D := gset nat) h), <-(size_list_to_set (C := gset nat) ls Hn). apply subseteq_size.
  intros l Hl. apply elem_of_list_to_set, list_elem_of_lookup in Hl as [i Hi].
  destruct (chain_lookup _ _ _ _ _ Hc Hi) as (c & _ & Hh). apply elem_of_dom. by eexists.
Qed.

Lemma delete_from_chain fuel : ∀ h ls cs, chain h ls cs → NoDup ls → length ls ≤ fuel →
  ∃ h', delete_from fuel h (ls !! 0) = Some h' ∧ ∀ l, h' !! l = if decide (l ∈ ls) then None else h !! l.
Proof.
  induction fuel as [|fuel IH]; intros h [|l ls] cs Hc Hn Hf; cbn [length] in Hf; try lia.
  - exists h. split; [done|]. intros l. by rewrite decide_False by set_solver.
  - exists h. split; [done|]. intros l. by rewrite decide_False by set_solver.
  - destruct (chain_lookup _ _ _ 0 l Hc eq_refl) as (c & Hci & Hh). destruct cs as [|c' cs]; [done|].
    change ((l :: ls) !! 0) with (Some l). change ((l :: ls) !! 1) with (ls !! 0) in Hh. cbn [delete_from].
    rewrite Hh. cbn [mbind option_bind].
    apply NoDup_cons in Hn as [Hl Hn]. apply chain_tail in Hc.
    destruct (IH (delete l h) ls cs) as (h' & -> & Hh'); [|done|lia|].
    { eapply chain_frame; [done|]. intros l' Hl'. apply lookup_delete_ne. by intros ->. }
    exists h'. split; [done|]. intros l'. rewrite Hh'. destruct (decide (l' = l)) as [->|Hne].
    + rewrite lookup_delete_eq. by repeat case_decide; set_solver.
    + rewrite lookup_delete_ne by done. repeat case_decide; set_solver.
Qed.

Lemma DeleteFrom_chain h ls cs : chain h ls cs → NoDup ls →
  ∃ h', DeleteFrom h (ls !! 0) = Some h' ∧ ∀ l, h' !! l = if decide (l ∈ ls) then None else h !! l.
Proof. intros Hc Hn. eapply delete_from_chain; [done|done|]. by eapply chunks_dom. Qed.

(** The addresses of an object change: nothing else in memory does, what is new was
    free before, and what it has given up is free. *)
Record frame (h : Memory) (ls : list nat) (h' : Memory) (ls' : list nat) : Prop := {
  frame_other l : l ∉ ls → l ∉ ls' → h' !! l = h !! l;
  frame_new l : l ∈ ls' → l ∉ ls → h !! l = None;
  frame_used l : l ∈ ls' → is_Some (h' !! l);
  frame_freed l : l ∈ ls → l ∉ ls' → h' !! l = None;
}.

Lemma frame_trans h ls h1 ls1 h2 ls2 : frame h ls h1 ls1 → frame h1 ls1 h2 ls2 → frame h ls h2 ls2.
Proof.
  intros [A1 A2 A3 A4] [B1 B2 B3 B4]. split.
  - intros l H1 H2. destruct (decide (l ∈ ls1)); [rewrite B4, A2 by done; done|]. by rewrite B1, A1.
  - intros l H1 H2. destruct (decide (l ∈ ls1)); [by apply A2|]. by rewrite <-A1, B2.
  - done.
  - intros l H1 H2. destruct (decide (l ∈ ls1)); [by apply B4|]. by rewrite B1, A4.
Qed.

Lemma chain_frame_here h ls cs h' : chain h' ls cs → (∀ l, l ∉ ls → h' !! l = h !! l) → frame h ls h' ls.
Proof.
  intros Hc Hh. split; [by intros; apply Hh|done| |done].
  intros l [i Hi]%list_elem_of_lookup. destruct (chain_lookup _ _ _ _ _ Hc Hi) as (c & _ & ->). by eexists.
Qed.

(** ** Buffers in memory and buffers as lists *)

(** The tail of a buffer that was moved from points anywhere. *)
Record repr (h : Memory) (p : PBuffer) (b : Buffer) (ls : list nat) : Prop := {
  repr_head : m_head p = ls !! 0;
  repr_chain : chain h ls (chunks b);
  repr_nodup : NoDup ls;
  repr_no_tail : m_tail b = None → p_tail p = None;
  repr_tail t : m_tail b = Some t → is_Some (p_tail p) ∧ (t < length ls → p_tail p = ls !! t);
  repr_offset : p_offset p = m_offset b;
  repr_failure : p_failure p = m_had_allocation_failure b;
}.

Lemma repr_frame h h' p b ls : repr h p b ls → (∀ l, l ∈ ls → h' !! l = h !! l) → repr h' p b ls.
Proof. intros [] Hh. split; try done. by eapply chain_frame. Qed.

(** One chunk is written. *)
Lemma chunks_insert h ls cs i l c c' :
  chain h ls cs → NoDup ls → ls !! i = Some l → cs !! i = Some c →
  chain (<[l := (c', ls !! S i)]> h) ls (<[i := c']> cs).
Proof.
  intros [Hl Hc] Hn Hi Hci. split; [by rewrite length_insert|]. intros j l' d Hj Hd.
  destruct (decide (j = i)) as [->|Hne].
  - rewrite list_lookup_insert_eq in Hd by (by eapply lookup_lt_Some). rewrite Hj in Hi. injection Hi as ->.
    injection Hd as <-. apply lookup_insert_eq.
  - rewrite list_lookup_insert_ne in Hd by done. rewrite lookup_insert_ne; [by apply Hc|].
    intros ->. apply Hne. by eapply NoDup_lookup.
Qed.

(** The end of a chain is cut off, from memory where it was deleted. *)
Lemma chain_take h h' ls cs i :
  chain h ls cs → i ≤ length ls →
  (∀ j l c, S j < i → ls !! j = Some l → cs !! j = Some c → h' !! l = h !! l) →
  (∀ l c, 0 < i → ls !! (i - 1) = Some l → cs !! (i - 1) = Some c → h' !! l = Some (c, None)) →
  chain h' (take i ls) (take i cs).
Proof.
  intros [Hl Hc] Hi Hh Hlast. split; [rewrite !length_take; lia|]. intros j l c Hj Hcj.
  assert (Hlt : j < i). { apply lookup_lt_Some in Hj. rewrite length_take in Hj. lia. }
  rewrite lookup_take_lt in Hj by lia. rewrite lookup_take_lt in Hcj by lia. destruct (decide (S j < i)) as [Hs|Hs].
  - rewrite lookup_take_lt by lia. rewrite (Hh j l c) by done. by apply Hc.
  - assert (j = i - 1) as -> by lia. rewrite lookup_take_ge by lia. apply Hlast; [lia|done|done].
Qed.

Lemma chunks_snoc h h' ls cs l c :
  chain h ls cs → NoDup (ls ++ [l]) → h' !! l = Some (c, None) →
  (∀ j l' c', S j < length ls → ls !! j = Some l' → cs !! j = Some c' → h' !! l' = h !! l') →
  (∀ l' c', 0 < length ls → ls !! (length ls - 1) = Some l' → cs !! (length ls - 1) = Some c' →
     h' !! l' = Some (c', Some l)) →
  chain h' (ls ++ [l]) (cs ++ [c]).
Proof.
  intros [Hl Hc] Hn Hnew Hh Hlast. split; [rewrite !length_app, Hl; done|]. intros j l' d Hj Hd.
  destruct (decide (j < length ls)) as [Hlt|Hge].
  - rewrite lookup_app_l in Hj by lia. rewrite lookup_app_l in Hd by lia. destruct (decide (S j < length ls)) as [Hs|Hs].
    + rewrite lookup_app_l by lia. rewrite (Hh j l' d) by done. by apply Hc.
    + assert (j = length ls - 1) as -> by lia. rewrite (Hlast l' d) by (done || lia).
      rewrite lookup_app_r by lia. by replace (S (length ls - 1) - length ls) with 0 by lia.
  - apply lookup_lt_Some in Hj as Hb. rewrite length_app in Hb. cbn in Hb.
    assert (j = length ls) as -> by lia. rewrite lookup_app_r, Nat.sub_diag in Hj by lia.
    rewrite Hl, lookup_app_r, Nat.sub_diag in Hd by lia. cbn in Hj, Hd. injection Hj as <-. injection Hd as <-.
    rewrite Hnew. rewrite lookup_ge_None_2; [done|]. rewrite length_app. cbn. lia.
Qed.

(** The pointer of the last chunk is set. *)
Definition set_next (h : Memory) (ls : list nat) (cs : list Chunk) (n : option nat) : Memory :=
  match ls !! (length ls - 1), cs !! (length ls - 1) with
  | Some t, Some c => <[t := (c, n)]> h
  | _, _ => h
  end.

Lemma set_next_last h ls cs n l c :
  ls !! (length ls - 1) = Some l → cs !! (length ls - 1) = Some c → set_next h ls cs n !! l = Some (c, n).
Proof. intros Hl Hc. unfold set_next. rewrite Hl, Hc. apply lookup_insert_eq. Qed.

Lemma set_next_eq h ls cs n x c :
  ls !! (length ls - 1) = Some x → cs !! (length ls - 1) = Some c → set_next h ls cs n = <[x := (c, n)]> h.
Proof. intros Hx Hc. unfold set_next. by rewrite Hx, Hc. Qed.

Lemma set_next_other h ls cs n l :
  (∀ t, ls !! (length ls - 1) = Some t → t ≠ l) → set_next h ls cs n !! l = h !! l.
Proof.
  intros Ht. unfold set_next. destruct (ls !! _) as [t|]; [|done]. destruct (cs !! _); [|done].
  apply lookup_insert_ne. by apply Ht.
Qed.

Lemma set_next_out h ls cs n l : l ∉ ls → set_next h ls cs n !! l = h !! l.
Proof. intros Hl. apply set_next_other. intros t Ht ->. apply Hl. by eapply list_elem_of_lookup_2. Qed.

Lemma set_next_inner h ls cs n j l :
  NoDup ls → ls !! j = Some l → S j < length ls → set_next h ls cs n !! l = h !! l.
Proof.
  intros Hn Hj Hlt. apply set_next_other. intros t Ht ->.
  assert (j = length ls - 1) by (by eapply NoDup_lookup). lia.
Qed.

(** A chunk is added at the end of a chain. *)
Lemma append_chunk h ls cs c :
  let l := fresh (dom h) in
  let h' := set_next (<[l := (c, None)]> h) ls cs (Some l) in
  chain h ls cs → NoDup ls → (l ∉ ls) ∧ chain h' (ls ++ [l]) (cs ++ [c]) ∧ NoDup (ls ++ [l]) ∧ frame h ls h' (ls ++ [l]).
Proof.
  intros l h' Hc Hn. assert (Hl : h !! l = None) by (apply not_elem_of_dom, is_fresh).
  assert (Hin : l ∉ ls).
  { intros [i Hi]%list_elem_of_lookup. destruct (chain_lookup _ _ _ _ _ Hc Hi) as (? & _ & Hh). by rewrite Hl in Hh. }
  assert (Hnd : NoDup (ls ++ [l])) by (apply NoDup_app; split_and!; [done|set_solver|apply NoDup_singleton]).
  assert (Hch : chain h' (ls ++ [l]) (cs ++ [c])).
  { apply (chunks_snoc h); [done|done| | |].
    - unfold h'. rewrite set_next_out by done. apply lookup_insert_eq.
    - intros j l' c' Hj Hjl _. unfold h'. rewrite (set_next_inner _ _ _ _ j) by done.
      apply lookup_insert_ne. intros <-. apply Hin. by eapply list_elem_of_lookup_2.
    - intros l' c' _ Hl' Hc'. by apply set_next_last. }
  split_and!; [done|done|done|]. split.
  - intros l' H1 H2. unfold h'. rewrite set_next_out by done. apply lookup_insert_ne. set_solver.
  - intros l' H1 H2. assert (l' = l) as -> by set_solver. done.
  - intros l' [i Hi]%list_elem_of_lookup. destruct (chain_lookup _ _ _ _ _ Hch Hi) as (? & _ & ->). by eexists.
  - set_solver.
Qed.

(** The chunks behind the first [i] ones are deleted. *)
Lemma cut_chain h ls cs i :
  chain h ls cs → NoDup ls → i ≤ length ls →
  ∃ h1, DeleteFrom h (ls !! i) = Some h1
    ∧ (∀ l, l ∈ take i ls → h1 !! l = h !! l)
    ∧ let h' := set_next h1 (take i ls) (take i cs) None in
      chain h' (take i ls) (take i cs) ∧ frame h ls h' (take i ls).
Proof.
  intros Hc Hn Hi. pose proof Hc as [Hl Hlk].
  assert (Hd : chain h (drop i ls) (drop i cs)).
  { split; [rewrite !length_drop; lia|]. intros j l c. rewrite !lookup_drop. intros H1 H2.
    rewrite (Hlk _ _ _ H1 H2). do 2 f_equal. f_equal. lia. }
  pose proof Hn as Hn'. rewrite <-(take_drop i ls) in Hn'. apply NoDup_app in Hn' as (Hn1 & Hdis & Hn2).
  destruct (DeleteFrom_chain h (drop i ls) (drop i cs) Hd Hn2) as (h1 & He & Hh1).
  rewrite lookup_drop, Nat.add_0_r in He. exists h1. split; [done|].
  assert (Hkeep : ∀ l, l ∈ take i ls → h1 !! l = h !! l).
  { intros l Hin. rewrite Hh1, decide_False; [done|]. by apply Hdis. }
  split; [done|]. intros h'.
  assert (Hlt : length (take i ls) = i) by (rewrite length_take; lia).
  assert (Hch : chain h' (take i ls) (take i cs)).
  { apply (chain_take h); [done|done| |].
    - intros j l c Hj Hjl _. assert (Ht : take i ls !! j = Some l) by (by rewrite lookup_take_lt by lia).
      unfold h'. rewrite (set_next_inner _ _ _ _ j); [|done|done|by rewrite Hlt].
      apply Hkeep. by eapply list_elem_of_lookup_2.
    - intros l c H0 Hil Hic. apply set_next_last; rewrite Hlt; by rewrite lookup_take_lt by lia. }
  split; [done|]. split.
  - intros l H1 H2. unfold h'. rewrite set_next_out by done. rewrite Hh1, decide_False; [done|].
    intros Hin. apply H1. rewrite <-(take_drop i ls). set_solver.
  - intros l H1 H2. exfalso. apply H2. rewrite <-(take_drop i ls). set_solver.
  - intros l [j Hj]%list_elem_of_lookup. destruct (chain_lookup _ _ _ _ _ Hch Hj) as (? & _ & ->). by eexists.
  - intros l H1 H2. unfold h'. rewrite set_next_out by done. rewrite Hh1, decide_True; [done|].
    rewrite <-(take_drop i ls) in H1. set_solver.
Qed.

Section simulation.
Context `{FreshBytes} (t_min_chunk_size : nat) (alloc : nat → bool).

Definition has_tail (b : Buffer) (ls : list nat) : Prop := ∃ t, m_tail b = Some t ∧ t < length ls.

(** A new chunk at the end: in front of it the tail, if there is one. *)
Lemma grow_sim h p b ls total :
  repr h p b ls → length ls = match m_tail b with None => 0 | Some t => S t end →
  ∃ ok h' p' ls' b',
    match make_chunk alloc h total with
    | None => (false, h, mkPBuffer (m_head p) (p_tail p) (p_offset p) true)
    | Some (l, h') =>
        (true, set_next h' ls (chunks b) (Some l),
         mkPBuffer (match p_tail p with None => Some l | Some _ => m_head p end) (Some l) g_initial_offset (p_failure p))
    end = (ok, h', p')
    ∧ match TransactionBuffer.make_chunk alloc total with
      | Some c => (true, mkBuffer (chunks b ++ [c]) (Some (length ls)) g_initial_offset (m_had_allocation_failure b))
      | None => (false, mkBuffer (chunks b) (m_tail b) (m_offset b) true)
      end = (ok, b')
    ∧ repr h' p' b' ls' ∧ frame h ls h' ls' ∧ (ok = true → has_tail b' ls').
Proof.
  intros [Hh Hc Hn Hnt Ht Ho Hf] Hlen. unfold make_chunk.
  destruct (TransactionBuffer.make_chunk alloc total) as [c|]; cbn [mbind option_bind].
  - destruct (append_chunk h ls (chunks b) c Hc Hn) as (Hl & Hch & Hnd & Hfr).
    do 5 eexists. split_and!; [done|done| |exact Hfr|intros _; exists (length ls); cbn; rewrite length_app; cbn; split; [done|lia]].
    split; cbn; try done.
    + destruct (m_tail b) as [t|].
      * destruct (Ht t eq_refl) as [[x ->] _]. rewrite Hh. destruct ls; done.
      * rewrite (Hnt eq_refl). by destruct ls.
    + intros t [= <-]. split; [by eexists|]. intros _. by rewrite lookup_app_r, Nat.sub_diag by lia.
  - do 5 eexists. split_and!; [done|done| |by eapply chain_frame_here|done]. split; cbn; done.
Qed.

Lemma make_chunk_keeps h total l h' x v :
  make_chunk alloc h total = Some (l, h') → h !! x = Some v → h' !! x = Some v.
Proof.
  unfold make_chunk. destruct (TransactionBuffer.make_chunk alloc total); [|done]. cbn. intros [= <- <-] Hx.
  rewrite lookup_insert_ne; [done|]. intros E. apply (is_fresh (dom h)). rewrite E. apply elem_of_dom. by eexists.
Qed.

(** The chunk after the first [i] ones is used again. *)
Lemma reuse_sim h p b ls i l c :
  repr h p b ls → ls !! i = Some l → chunks b !! i = Some c →
  let h' := reset_chunk h l c (ls !! S i) in
  let b' := mkBuffer (<[i := set_allocated c g_initial_offset]> (chunks b)) (Some i) g_initial_offset
              (m_had_allocation_failure b) in
  repr h' (mkPBuffer (m_head p) (Some l) g_initial_offset (p_failure p)) b' ls ∧ frame h ls h' ls ∧ has_tail b' ls.
Proof.
  intros [Hh Hc Hn Hnt Ht Ho Hf] Hl Hci h' b'.
  pose proof (chunks_insert h ls (chunks b) i l c (set_allocated c g_initial_offset) Hc Hn Hl Hci) as Hc'.
  split_and!.
  - split; cbn; try done. intros t [= <-]. split; [by eexists|]. by rewrite Hl.
  - eapply chain_frame_here; [exact Hc'|]. intros l' Hl'. apply lookup_insert_ne. intros <-.
    apply Hl'. by eapply list_elem_of_lookup_2.
  - exists i. split; [done|]. by eapply lookup_lt_Some.
Qed.

(** The chunks behind the first [i] ones are given up. *)
Lemma cut_sim h p b ls i :
  repr h p b ls → i = match m_tail b with None => 0 | Some t => S t end → i ≤ length ls →
  ∃ h1, DeleteFrom h (ls !! i) = Some h1 ∧ (∀ l, l ∈ take i ls → h1 !! l = h !! l)
    ∧ let h' := set_next h1 (take i ls) (take i (chunks b)) None in
      repr h' (mkPBuffer (take i ls !! 0) (p_tail p) (p_offset p) (p_failure p)) (TransactionBuffer.DeleteFrom b i)
        (take i ls)
      ∧ frame h ls h' (take i ls).
Proof.
  intros [Hh Hc Hn Hnt Ht Ho Hf] Hi Hle. destruct (cut_chain h ls (chunks b) i Hc Hn Hle) as (h1 & Hd & Hk & Hc' & Hfr).
  exists h1. split; [done|]. split; [done|]. intros h'. split; [|done].
  split; cbn; try done.
  - rewrite <-(take_drop i ls) in Hn. by apply NoDup_app in Hn as [? _].
  - intros t Hb. rewrite Hb in Hi. destruct (Ht t Hb) as [Hs Hat]. split; [done|]. rewrite length_take. intros Hlt.
    rewrite Hat by lia. by rewrite lookup_take_lt by lia.
Qed.

(** A chunk is made behind the first [i] ones, after the rest was given up. *)
Lemma replace_sim h p b ls i total :
  repr h p b ls → i = match m_tail b with None => 0 | Some t => S t end → i ≤ length ls →
  ∃ h1 ok h' p' ls' b', DeleteFrom h (ls !! i) = Some h1 ∧ (∀ l, l ∈ take i ls → h1 !! l = h !! l)
    ∧ match make_chunk alloc (set_next h1 (take i ls) (take i (chunks b)) None) total with
      | None => (false, set_next h1 (take i ls) (take i (chunks b)) None,
                 mkPBuffer (take i ls !! 0) (p_tail p) (p_offset p) true)
      | Some (l, h') =>
          (true, set_next h' (take i ls) (take i (chunks b)) (Some l),
           mkPBuffer (match p_tail p with None => Some l | Some _ => take i ls !! 0 end) (Some l)
             g_initial_offset (p_failure p))
      end = (ok, h', p')
    ∧ match TransactionBuffer.make_chunk alloc total with
      | Some c => (true, mkBuffer (take i (chunks b) ++ [c]) (Some i) g_initial_offset (m_had_allocation_failure b))
      | None => (false, mkBuffer (take i (chunks b)) (m_tail b) (m_offset b) true)
      end = (ok, b')
    ∧ repr h' p' b' ls' ∧ frame h ls h' ls' ∧ (ok = true → has_tail b' ls').
Proof.
  intros Hr Hi Hle. destruct (cut_sim h p b ls i Hr Hi Hle) as (h1 & Hd & Hk & Hr1 & Hf1).
  assert (Hlen : length (take i ls) = i) by (rewrite length_take; lia).
  destruct (grow_sim _ _ _ _ total Hr1) as (ok & h' & p' & ls' & b' & H1 & H2 & H3 & H4 & H5); [by rewrite Hlen|].
  exists h1, ok, h', p', ls', b'. rewrite Hlen in H2. split_and!; try done. by eapply frame_trans.
Qed.

Lemma tail_chunk h p b ls t :
  repr h p b ls → m_tail b = Some t → t < length ls →
  ∃ x c, p_tail p = Some x ∧ ls !! t = Some x ∧ chunks b !! t = Some c ∧ h !! x = Some (c, ls !! S t).
Proof.
  intros [_ Hc _ _ Ht _ _] Et Hlt. destruct (lookup_lt_is_Some_2 ls t Hlt) as [x Hx].
  destruct (Ht t Et) as [_ Hat]. rewrite Hx in Hat. destruct (chain_lookup _ _ _ _ _ Hc Hx) as (c & ? & ?).
  exists x, c. by split_and!; [apply Hat|..].
Qed.

Lemma GoToNextChunk_sim h p b ls n :
  repr h p b ls → (∀ t, m_tail b = Some t → t < length ls) →
  let '(ok, b') := TransactionBuffer.GoToNextChunk t_min_chunk_size alloc b n in
  ∃ h' p' ls', GoToNextChunk t_min_chunk_size alloc h p n = Some (ok, h', p') ∧ repr h' p' b' ls' ∧ frame h ls h' ls'
    ∧ (ok = true → has_tail b' ls').
Proof.
  intros Hr Htl. pose proof Hr as [Hh Hc Hn Hnt Ht Ho Hf].
  unfold TransactionBuffer.GoToNextChunk, GoToNextChunk, next_chunk. set (total := Nat.max _ _).
  set (i := match m_tail b with None => 0 | Some t => S t end).
  assert (Hi : i ≤ length ls) by (unfold i; destruct (m_tail b); [specialize (Htl _ eq_refl)|]; lia).
  assert (Hlast : ls !! i = None → chunks b !! i = None ∧ length ls = i).
  { intros Hl%lookup_ge_None. destruct Hc as [Hlc _]. split; [apply lookup_ge_None; lia|lia]. }
  destruct (ls !! i) as [l|] eqn:Hl.
  - destruct (chain_lookup _ _ _ _ _ Hc Hl) as (c & Hci & Hhl). rewrite Hci.
    destruct (reuse_sim h p b ls i l c Hr Hl Hci) as (Hr1 & Hf1 & Ht1).
    destruct (replace_sim h p b ls i total Hr eq_refl Hi) as (h1 & ok & h' & p' & ls' & b' & Hd & Hk & E1 & E2 & Hr2 & Hf2 & Ht2).
    rewrite Hl in Hd. destruct (total <=? total_size c) eqn:Hfits.
    + eexists _, _, ls. split; [|split; [exact Hr1|by split]]. destruct (m_tail b) as [t|] eqn:Et; subst i.
      * destruct (tail_chunk h p b ls t Hr Et Hi) as (x & c0 & Hx & Hxl & _ & Hhx).
        rewrite Hx, Hhx. cbn [mbind option_bind]. rewrite Hl, Hhl. cbn [mbind option_bind]. by rewrite Hfits.
      * rewrite (Hnt eq_refl), Hh, Hl, Hhl. cbn [mbind option_bind]. by rewrite Hfits.
    + cbn [TransactionBuffer.DeleteFrom chunks m_tail m_offset m_had_allocation_failure]. rewrite E2.
      exists h', p', ls'. split; [|done]. rewrite <-E1. destruct (m_tail b) as [t|] eqn:Et; subst i.
      * destruct (tail_chunk h p b ls t Hr Et Hi) as (x & c0 & Hx & Hxl & Hc0 & Hhx).
        assert (Hxt : take (S t) ls !! (length (take (S t) ls) - 1) = Some x
          ∧ take (S t) (chunks b) !! (length (take (S t) ls) - 1) = Some c0).
        { rewrite length_take, Nat.min_l by lia. cbn [Nat.sub]. rewrite Nat.sub_0_r, !lookup_take_lt by lia. done. }
        destruct Hxt as [Hxt Hct]. rewrite Hx, Hhx. cbn [mbind option_bind]. rewrite Hl, Hhl. cbn [mbind option_bind].
        rewrite Hfits, Hd. cbn [mbind option_bind].
        rewrite Hk, Hhx by (by eapply list_elem_of_lookup_2). cbn [mbind option_bind].
        rewrite !(set_next_eq _ _ _ _ x c0) by done. rewrite Hh, lookup_take_lt by lia.
        destruct (make_chunk alloc (<[x := (c0, None)]> h1) total) as [[l' h2]|] eqn:Hm; [|reflexivity].
        rewrite (make_chunk_keeps _ _ _ _ x (c0, None) Hm) by apply lookup_insert_eq.
        cbn [mbind option_bind]. by rewrite (set_next_eq _ _ _ _ x c0).
      * rewrite (Hnt eq_refl), Hh, Hl, Hhl. cbn [mbind option_bind]. rewrite Hfits, Hd. cbn [mbind option_bind].
        change (set_next h1 (take 0 ls) (take 0 (chunks b)) None) with h1.
        by destruct (make_chunk alloc h1 total) as [[l' h2]|].
  - destruct (Hlast eq_refl) as [-> Hlen].
    destruct (grow_sim h p b ls total Hr Hlen) as (ok & h' & p' & ls' & b' & E1 & E2 & Hr2 & Hf2 & Ht2).
    rewrite Hlen in E2. rewrite E2. exists h', p', ls'. split; [|done]. rewrite <-E1.
    destruct (m_tail b) as [t|] eqn:Et; subst i.
    + destruct (tail_chunk h p b ls t Hr Et Hi) as (x & c0 & Hx & Hxl & Hc0 & Hhx).
      assert (Hxt : ls !! (length ls - 1) = Some x ∧ chunks b !! (length ls - 1) = Some c0)
        by (rewrite Hlen; cbn [Nat.sub]; by rewrite Nat.sub_0_r).
      destruct Hxt as [Hxt Hct]. rewrite Hx, Hhx. cbn [mbind option_bind]. rewrite Hl.
      destruct (make_chunk alloc h total) as [[l' h2]|] eqn:Hm; [|done].
      rewrite (make_chunk_keeps _ _ _ _ x _ Hm Hhx). cbn [mbind option_bind]. by rewrite (set_next_eq _ _ _ _ x c0).
    + rewrite (Hnt eq_refl), Hh, Hl. destruct ls; [|done].
      destruct (make_chunk alloc h total) as [[l' h2]|]; done.
Qed.

(** An object is allocated at the tail. *)
Lemma place_sim h p b ls n :
  repr h p b ls → has_tail b ls →
  ∃ pos b' r h' p', TransactionBuffer.place b n = Some (pos, true, b') ∧ place h p n = Some (r, h', p')
    ∧ repr h' p' b' ls ∧ frame h ls h' ls.
Proof.
  intros Hr (t & Et & Hlt). destruct (tail_chunk h p b ls t Hr Et Hlt) as (x & c & Hx & Hxl & Hc0 & Hhx).
  destruct Hr as [Hh Hc Hn Hnt Ht Ho Hf]. unfold TransactionBuffer.place, place.
  rewrite Et, Hx. cbn [mbind option_bind]. rewrite Hc0, Hhx. cbn [mbind option_bind].
  pose proof (chunks_insert h ls (chunks b) t x c (set_allocated c (m_offset b + n)) Hc Hn Hxl Hc0) as Hc'.
  do 5 eexists. split; [done|]. rewrite Ho. split; [done|]. split.
  - split; cbn; try done. intros t' [= <-]. split; [by eexists|]. by rewrite Hxl.
  - eapply chain_frame_here; [exact Hc'|]. intros l' Hl'. apply lookup_insert_ne. intros <-.
    apply Hl'. by eapply list_elem_of_lookup_2.
Qed.

Lemma next_place_sim h p b ls n pos ok b' :
  repr h p b ls → (∀ t, m_tail b = Some t → t < length ls) →
  (let '(ok, b) := TransactionBuffer.GoToNextChunk t_min_chunk_size alloc b n in
   if (ok : bool) then TransactionBuffer.place b n else Some ((None, g_initial_offset), false, b))
  = Some (pos, ok, b') →
  ∃ r h' p' ls', ('(ok, h, b) ← GoToNextChunk t_min_chunk_size alloc h p n;
                  if (ok : bool) then place h b n else Some (None, h, b)) = Some (r, h', p')
    ∧ repr h' p' b' ls' ∧ frame h ls h' ls'.
Proof.
  intros Hr Htl. pose proof (GoToNextChunk_sim h p b ls n Hr Htl) as Hgo.
  destruct (TransactionBuffer.GoToNextChunk _ _ b n) as [ok1 b1].
  destruct Hgo as (h1 & p1 & ls1 & -> & Hr1 & Hf1 & Ht1). cbn [mbind option_bind]. destruct ok1.
  - destruct (place_sim h1 p1 b1 ls1 n Hr1 (Ht1 eq_refl)) as (pos' & b2 & r & h2 & p2 & -> & -> & Hr2 & Hf2).
    intros [= _ _ <-]. exists r, h2, p2, ls1. split_and!; [done|done|]. by eapply frame_trans.
  - intros [= _ _ <-]. by exists None, h1, p1, ls1.
Qed.

Lemma Allocate_sim h p b ls n pos ok b' :
  repr h p b ls → TransactionBuffer.Allocate t_min_chunk_size alloc b n = Some (pos, ok, b') →
  ∃ r h' p' ls', Allocate t_min_chunk_size alloc h p n = Some (r, h', p') ∧ repr h' p' b' ls' ∧ frame h ls h' ls'.
Proof.
  intros Hr. unfold TransactionBuffer.Allocate, Allocate. destruct (m_tail b) as [t|] eqn:Et.
  - destruct (chunks b !! t) as [c|] eqn:Hc; [|done]. cbn [mbind option_bind].
    assert (Hlt : t < length ls).
    { destruct Hr as [_ [Hlen _] _ _ _ _ _]. rewrite Hlen. by eapply lookup_lt_Some. }
    destruct (tail_chunk h p b ls t Hr Et Hlt) as (x & c' & Hx & _ & Hc0 & Hhx). simplify_eq.
    rewrite Hx, Hhx. cbn [mbind option_bind]. rewrite (repr_offset _ _ _ _ Hr).
    destruct (total_size c <? m_offset b + n).
    + apply next_place_sim; [done|]. intros t'. rewrite Et. by intros [= <-].
    + destruct (place_sim h p b ls n Hr) as (pos' & b2 & r & h2 & p2 & -> & -> & Hr2 & Hf2); [by exists t|].
      intros [= _ _ <-]. by exists r, h2, p2, ls.
  - rewrite (repr_no_tail _ _ _ _ Hr Et). cbn [mbind option_bind]. apply next_place_sim; [done|]. by rewrite Et.
Qed.
End simulation.

(** ** All objects *)

(** An object in memory, as a list, and its addresses. *)
Definition Held : Type := option PBuffer * option Buffer * list nat.

Definition own (h : Memory) (x : Held) : Prop :=
  match x with
  | (Some p, Some b, ls) => repr h p b ls
  | (None, None, ls) => ls = []
  | _ => False
  end.

Definition addresses (ts : list Held) : list nat := ts ≫= snd.

(** Every address in memory belongs to one object. *)
Record accounted (h : Memory) (ts : list Held) : Prop := {
  acc_own : Forall (own h) ts;
  acc_nodup : NoDup (addresses ts);
  acc_all l : is_Some (h !! l) ↔ l ∈ addresses ts;
}.

Lemma addresses_insert ts i x x' :
  ts !! i = Some x → x.2 ++ addresses (<[i := x']> ts) ≡ₚ x'.2 ++ addresses ts.
Proof.
  revert i. induction ts as [|y ts IH]; intros [|i] Hi; try done; cbn in Hi |- *.
  - injection Hi as ->. unfold addresses. cbn. by rewrite (Permutation_app_swap_app x.2).
  - unfold addresses in *. cbn. rewrite (Permutation_app_swap_app x.2), (IH i Hi). by rewrite Permutation_app_swap_app.
Qed.

Lemma own_nodup h x : own h x → NoDup x.2.
Proof.
  destruct x as [[[p|] [b|]] ls]; cbn; try done; [by intros []|]. intros ->. constructor.
Qed.

Lemma own_used h x l : own h x → l ∈ x.2 → is_Some (h !! l).
Proof.
  destruct x as [[[p|] [b|]] ls]; cbn; try done; [|by intros -> ?%elem_of_nil].
  intros [_ Hc _ _ _ _ _] [i Hi]%list_elem_of_lookup. destruct (chain_lookup _ _ _ _ _ Hc Hi) as (? & _ & ->). by eexists.
Qed.

Lemma own_frame h h' x : own h x → (∀ l, l ∈ x.2 → h' !! l = h !! l) → own h' x.
Proof. destruct x as [[[p|] [b|]] ls]; cbn; try done. intros Hr Hl. by eapply repr_frame. Qed.

(** One object changes. *)
Lemma accounted_update h h' ts i x x' :
  accounted h ts → ts !! i = Some x → own h' x' → frame h x.2 h' x'.2 → accounted h' (<[i := x']> ts).
Proof.
  intros [Ho Hn Ha] Hi Ho' [F1 F2 F3 F4].
  pose proof (addresses_insert ts i x x' Hi) as Hp.
  pose proof (delete_Permutation ts i x Hi) as Hd.
  set (others := addresses (delete i ts)).
  assert (Hts : addresses ts ≡ₚ x.2 ++ others) by (unfold addresses; rewrite Hd at 1; done).
  assert (Hts' : addresses (<[i := x']> ts) ≡ₚ x'.2 ++ others).
  { apply (Permutation_app_inv_l x.2). rewrite Hp, Hts. by rewrite Permutation_app_swap_app. }
  rewrite Hts in Hn. apply NoDup_app in Hn as (_ & Hdis & Hn).
  assert (Hother : ∀ l, l ∈ others → (l ∉ x.2) ∧ l ∉ x'.2).
  { intros l Hl. assert (Hx : l ∉ x.2) by (intros Hx; by apply (Hdis l Hx)). split; [done|]. intros Hx'.
    assert (Hs : is_Some (h !! l)) by (apply Ha; rewrite Hts; set_solver). rewrite (F2 l Hx' Hx) in Hs. by destruct Hs. }
  split.
  - apply Forall_lookup. intros j y Hj. destruct (decide (j = i)) as [->|Hne].
    + rewrite list_lookup_insert_eq in Hj by (by eapply lookup_lt_Some). by injection Hj as <-.
    + rewrite list_lookup_insert_ne in Hj by done. rewrite Forall_lookup in Ho.
      eapply own_frame; [by eapply Ho|]. intros l Hl. destruct (Hother l) as [H1 H2]; [|by apply F1].
      apply list_elem_of_bind. exists y. split; [done|].
      assert (Hy : y ∈ delete i ts).
      { destruct (decide (j < i)); apply list_elem_of_lookup.
        - exists j. by rewrite list_lookup_delete_lt.
        - exists (j - 1). rewrite list_lookup_delete_ge by lia. by replace (S (j - 1)) with j by lia. }
      done.
  - rewrite Hts'. apply NoDup_app. split_and!; [by eapply own_nodup| |done].
    intros l Hl Hl'. by destruct (Hother l Hl') as [_ ?].
  - intros l. rewrite Hts', elem_of_app. split.
    + intros Hs. destruct (decide (l ∈ x'.2)); [by left|right]. destruct (decide (l ∈ x.2)) as [Hx|Hx].
      { rewrite F4 in Hs by done. by destruct Hs. }
      rewrite F1 in Hs by done. apply Ha in Hs. rewrite Hts in Hs. set_solver.
    + intros [Hl|Hl]; [by apply F3|]. destruct (Hother l Hl). rewrite F1 by done. apply Ha. rewrite Hts. set_solver.
Qed.

Lemma owned_perm h ts ts' :
  accounted h ts → Forall (own h) ts' → addresses ts' ≡ₚ addresses ts → accounted h ts'.
Proof. intros [_ Hn Ha] Ho Hp. split; [done|by rewrite Hp|]. intros l. by rewrite Hp. Qed.

(** ** The two worlds *)

Definition related_objects (h : Memory) (objs : list (option PBuffer)) (lists : list (option Buffer)) : Prop :=
  ∃ ts, accounted h ts ∧ objs = (λ x : Held, x.1.1) <$> ts ∧ lists = (λ x : Held, x.1.2) <$> ts.

Record related (w : World Memory PBuffer) (a : World unit Buffer) : Prop := {
  rel_objects : related_objects (memory w) (objects w) (objects a);
  rel_full : full w = full a;
  rel_empty : empty w = empty a;
  rel_items : items w = items a;
}.

Section worlds.
Context `{FreshBytes} (t_min_chunk_size : nat) (alloc : nat → bool).
#[local] Instance memory_buffers : Buffers Memory PBuffer := in_memory t_min_chunk_size alloc.
#[local] Instance list_buffers : Buffers unit Buffer := as_lists t_min_chunk_size alloc.
Abbreviation as_moved b := (mkBuffer [] (m_tail b) (m_offset b) (m_had_allocation_failure b)).

Lemma repr_new h : repr h new_buffer empty_buffer [].
Proof. split; try done. constructor. Qed.

Lemma repr_moved h p b ls : repr h p b ls → repr h (moved p) (as_moved b) [].
Proof.
  intros [Hh Hc Hn Hnt Ht Ho Hf]. split; cbn; try done; [constructor|].
  intros t Et. destruct (Ht t Et). split; [done|lia].
Qed.

Lemma repr_clear h p b ls : repr h p b ls → repr h (Clear p) (TransactionBuffer.Clear b) ls.
Proof. intros []. split; cbn; done. Qed.

Lemma related_add h objs lists :
  related_objects h objs lists → related_objects h (objs ++ [Some new_buffer]) (lists ++ [Some empty_buffer]).
Proof.
  intros (ts & Ha & -> & ->). exists (ts ++ [(Some new_buffer, Some empty_buffer, [])]).
  split; [|by rewrite !fmap_app]. eapply owned_perm; [done| |].
  - apply Forall_app. split; [apply Ha|]. constructor; [apply repr_new|done].
  - unfold addresses. rewrite bind_app. cbn. by rewrite !app_nil_r.
Qed.

(** An object and its chunks. *)
Lemma related_lookup h objs lists i b :
  related_objects h objs lists → lists !! i = Some (Some b) →
  ∃ ts p ls, accounted h ts ∧ objs = (λ x : Held, x.1.1) <$> ts ∧ lists = (λ x : Held, x.1.2) <$> ts
    ∧ ts !! i = Some (Some p, Some b, ls) ∧ repr h p b ls ∧ objs !! i = Some (Some p).
Proof.
  intros (ts & Ha & -> & ->) Hi. rewrite list_lookup_fmap in Hi.
  destruct (ts !! i) as [[[o a] ls]|] eqn:Hts; [|done]. cbn in Hi. injection Hi as ->.
  pose proof (acc_own _ _ Ha) as Ho. rewrite Forall_lookup in Ho. specialize (Ho i _ Hts). cbn in Ho.
  destruct o as [p|]; [|done]. exists ts, p, ls. split_and!; try done. by rewrite list_lookup_fmap, Hts.
Qed.

Lemma related_update h h' ts i x x' :
  accounted h ts → ts !! i = Some x → own h' x' → frame h x.2 h' x'.2 →
  related_objects h' (<[i := x'.1.1]> ((λ x : Held, x.1.1) <$> ts)) (<[i := x'.1.2]> ((λ x : Held, x.1.2) <$> ts)).
Proof.
  intros Ha Hi Ho Hf. exists (<[i := x']> ts). split; [by eapply accounted_update|]. by rewrite !list_fmap_insert.
Qed.

Lemma related_move h objs lists i b :
  related_objects h objs lists → lists !! i = Some (Some b) →
  ∃ p, objs !! i = Some (Some p)
    ∧ related_objects h (<[i := Some (moved p)]> objs ++ [Some p]) (<[i := Some (as_moved b)]> lists ++ [Some b]).
Proof.
  intros Hr Hi. destruct (related_lookup h objs lists i b Hr Hi) as (ts & p & ls & Ha & -> & -> & Hts & Hrep & Hp).
  exists p. split; [done|]. set (x := (Some (moved p), Some (as_moved b), []) : Held).
  exists (<[i := x]> ts ++ [(Some p, Some b, ls)]). split.
  - eapply owned_perm; [done| |].
    + apply Forall_app. split; [|by constructor]. apply Forall_insert; [apply Ha|]. by apply (repr_moved _ _ _ ls).
    + pose proof (addresses_insert ts i _ x Hts) as Hperm. cbn in Hperm. unfold addresses in *. rewrite bind_app. cbn.
      by rewrite app_nil_r, Permutation_app_comm.
  - rewrite !fmap_app, !list_fmap_insert. done.
Qed.

(** The chunks of an object are deleted. *)
Lemma related_delete h objs lists i b :
  related_objects h objs lists → lists !! i = Some (Some b) →
  ∃ p h', objs !! i = Some (Some p) ∧ DeleteFrom h (m_head p) = Some h'
    ∧ related_objects h' (<[i := None]> objs) (<[i := None]> lists)
    ∧ related_objects h' (<[i := Some (moved p)]> objs) (<[i := Some (as_moved b)]> lists).
Proof.
  intros Hr Hi. destruct (related_lookup h objs lists i b Hr Hi) as (ts & p & ls & Ha & -> & -> & Hts & Hrep & Hp).
  destruct (DeleteFrom_chain h ls (chunks b)) as (h' & Hd & Hh'); [apply Hrep..|].
  assert (Hf : frame h ls h' []).
  { split; try set_solver.
    - intros l H1 _. by rewrite Hh', decide_False.
    - intros l H1 _. by rewrite Hh', decide_True. }
  exists p, h'. split; [done|]. split; [by rewrite (repr_head _ _ _ _ Hrep)|]. split.
  - apply (related_update h h' ts i _ (None, None, []) Ha Hts); done.
  - apply (related_update h h' ts i _ (Some (moved p), Some (as_moved b), []) Ha Hts); [|done].
    cbn. destruct (repr_moved _ _ _ _ Hrep). by split.
Qed.

(** The contents of one object go to a destroyed one. *)
Lemma related_transfer h objs lists i j b :
  related_objects h objs lists → i ≠ j → lists !! j = Some (Some b) → lists !! i = Some None →
  ∃ p, objs !! j = Some (Some p)
    ∧ related_objects h (<[j := Some (moved p)]> (<[i := Some p]> objs))
        (<[j := Some (as_moved b)]> (<[i := Some b]> lists)).
Proof.
  intros Hr Hij Hj Hi. destruct (related_lookup h objs lists j b Hr Hj) as (ts & p & ls & Ha & -> & -> & Hts & Hrep & Hp).
  exists p. split; [done|]. rewrite list_lookup_fmap in Hi.
  destruct (ts !! i) as [[[o a] ls']|] eqn:Hti; [|done]. cbn in Hi. injection Hi as ->.
  pose proof (acc_own _ _ Ha) as Ho. rewrite Forall_lookup in Ho. pose proof (Ho i _ Hti) as Hoi. cbn in Hoi.
  destruct o; [done|]. subst ls'.
  set (x := (Some p, Some b, ls) : Held). set (y := (Some (moved p), Some (as_moved b), []) : Held).
  exists (<[j := y]> (<[i := x]> ts)). split; [|by rewrite !list_fmap_insert].
  eapply owned_perm; [done| |].
  - apply Forall_insert; [apply Forall_insert; [apply Ha|done]|]. by apply (repr_moved _ _ _ ls).
  - pose proof (addresses_insert ts i _ x Hti) as H1.
    pose proof (addresses_insert (<[i := x]> ts) j x y) as H2. rewrite list_lookup_insert_ne in H2 by done.
    specialize (H2 Hts). cbn in H1, H2. apply (Permutation_app_inv_l ls). by rewrite H2, H1.
Qed.

(** ** Operations *)

(** Programs that are meaningful on lists run in memory, in step. *)
Abbreviation simulated r r' := (∀ a', r = Some a' → ∃ w', r' = Some w' ∧ related w' a').

Lemma object_Some {M B} (w : World M B) i b : object w i = Some b → objects w !! i = Some (Some b).
Proof. unfold object. destruct (objects w !! i) as [[]|]; cbn; congruence. Qed.

Lemma Some_object {M B} (w : World M B) i b : objects w !! i = Some (Some b) → object w i = Some b.
Proof. unfold object. by intros ->. Qed.

Lemma move_sim w a i : related w a → simulated (move_object i a) (move_object i w).
Proof.
  intros [Ho Hf He Hi] a'. unfold move_object. destruct (object a i) as [b|] eqn:Hb; [|done].
  apply object_Some in Hb. cbn [mbind option_bind]. intros [= <-].
  destruct (related_move _ _ _ _ _ Ho Hb) as (p & Hp & Hr). rewrite (Some_object _ _ _ Hp).
  eexists. split; [done|]. by split.
Qed.

Lemma destroy_sim w a i : related w a → simulated (destroy_object i a) (destroy_object i w).
Proof.
  intros [Ho Hf He Hi] a'. unfold destroy_object. destruct (object a i) as [b|] eqn:Hb; [|done].
  apply object_Some in Hb. cbn [mbind option_bind delete_chunks list_buffers as_lists]. intros [= <-].
  destruct (related_delete _ _ _ _ _ Ho Hb) as (p & h' & Hp & Hd & Hr & _). rewrite (Some_object _ _ _ Hp).
  cbn [mbind option_bind delete_chunks memory_buffers in_memory]. rewrite Hd. eexists. split; [done|]. by split.
Qed.

Lemma assign_sim w a i j : related w a → simulated (assign_object i j a) (assign_object i j w).
Proof.
  intros [Ho Hf He Hi] a'. unfold assign_object.
  destruct (object a i) as [b|] eqn:Hb; [|done]. destruct (object a j) as [c|] eqn:Hc; [|done].
  apply object_Some in Hb, Hc. cbn [mbind option_bind delete_chunks list_buffers as_lists]. intros [= <-].
  destruct (related_delete _ _ _ _ _ Ho Hb) as (p & h' & Hp & Hd & Hr & Hrm). rewrite (Some_object _ _ _ Hp).
  cbn [mbind option_bind]. destruct (decide (i = j)) as [<-|Hij].
  - rewrite (Some_object _ _ _ Hp). cbn [mbind option_bind delete_chunks memory_buffers in_memory]. rewrite Hd.
    rewrite Hb in Hc. injection Hc as <-. eexists. split; [done|]. split; [|done..]. cbn.
    by rewrite !list_insert_insert_eq.
  - destruct (related_transfer _ _ _ i j c Hr Hij) as (q & Hq & Hrt).
    { by rewrite list_lookup_insert_ne. }
    { apply list_lookup_insert_eq. by eapply lookup_lt_Some. }
    rewrite list_lookup_insert_ne in Hq by done. rewrite (Some_object _ _ _ Hq).
    cbn [mbind option_bind delete_chunks memory_buffers in_memory]. rewrite Hd. eexists. split; [done|]. split; [|done..]. cbn.
    by rewrite !list_insert_insert_eq in Hrt.
Qed.

Lemma destroy_full_sim l : ∀ w a, related w a → simulated (destroy_full l a) (destroy_full l w).
Proof.
  induction l as [|i l IH]; intros w a Hr a'; cbn [destroy_full]; [intros [= <-]; eauto|].
  destruct (destroy_object i a) as [a1|] eqn:Ha; [|done]. cbn [mbind option_bind].
  destruct (destroy_sim w a i Hr a1 Ha) as (w1 & -> & [Ho Hf He Hi]). cbn [mbind option_bind].
  apply IH. split; cbn; [done|done|done|]. by rewrite Hi.
Qed.

Lemma add_sim w a : related w a → related (add_object construct w) (add_object construct a).
Proof. intros [Ho Hf He Hi]. split; cbn; try done. by apply related_add. Qed.

Lemma allocate_sim w a i n :
  related w a →
  simulated (b ← object a i; '(h, b) ← allocate (memory a) b n; Some (set_object i (Some b) h a))
    (b ← object w i; '(h, b) ← allocate (memory w) b n; Some (set_object i (Some b) h w)).
Proof.
  intros [Ho Hf He Hi] a'. destruct (object a i) as [b|] eqn:Hb; [|done]. apply object_Some in Hb.
  cbn [mbind option_bind allocate list_buffers as_lists].
  destruct (TransactionBuffer.Allocate t_min_chunk_size alloc b n) as [[[pos ok] b']|] eqn:Hall; [|done].
  cbn [mbind option_bind]. intros [= <-].
  destruct (related_lookup _ _ _ i b Ho Hb) as (ts & p & ls & Ha & Ew & Ea & Hts & Hrep & Hp).
  destruct (Allocate_sim t_min_chunk_size alloc _ _ _ _ _ _ _ _ Hrep Hall) as (r & h' & p' & ls' & Hal & Hrep' & Hfr).
  rewrite (Some_object _ _ _ Hp). cbn [mbind option_bind allocate memory_buffers in_memory]. rewrite Hal.
  cbn [mbind option_bind]. eexists. split; [done|]. split; [|done..]. cbn. rewrite Ew, Ea.
  by apply (related_update _ _ ts i _ (Some p', Some b', ls') Ha Hts).
Qed.

Lemma clear_sim w a i :
  related w a →
  simulated (b ← object a i; Some (set_object i (Some (clear b)) (memory a) a))
    (b ← object w i; Some (set_object i (Some (clear b)) (memory w) w)).
Proof.
  intros [Ho Hf He Hi] a'. destruct (object a i) as [b|] eqn:Hb; [|done]. apply object_Some in Hb.
  cbn [mbind option_bind]. intros [= <-].
  destruct (related_lookup _ _ _ i b Ho Hb) as (ts & p & ls & Ha & Ew & Ea & Hts & Hrep & Hp).
  rewrite (Some_object _ _ _ Hp). cbn [mbind option_bind]. eexists. split; [done|]. split; [|done..]. cbn. rewrite Ew, Ea.
  apply (related_update _ _ ts i _ (Some (Clear p), Some (TransactionBuffer.Clear b), ls) Ha Hts).
  - by apply repr_clear.
  - eapply chain_frame_here; [apply Hrep|done].
Qed.

Lemma TakeOrMake_sim w a : related w a → simulated (TakeOrMake a) (TakeOrMake w).
Proof.
  intros Hr a'. unfold TakeOrMake. rewrite (rel_full _ _ Hr). destruct (full a) as [|i l].
  { intros [= <-]. eexists. split; [done|]. by apply add_sim. }
  destruct (move_object i a) as [a1|] eqn:H1; [|done]. destruct (move_sim w a i Hr a1 H1) as (w1 & -> & Hr1).
  cbn [mbind option_bind]. destruct (destroy_object i a1) as [a2|] eqn:H2; [|done].
  destruct (destroy_sim w1 a1 i Hr1 a2 H2) as (w2 & -> & [Ho Hf He Hi]). cbn [mbind option_bind]. intros [= <-].
  eexists. split; [done|]. split; cbn; [done|done|by rewrite He|done].
Qed.

Lemma Free_sim w a i item : related w a → simulated (Free i item a) (Free i item w).
Proof.
  intros Hr a'. unfold Free. rewrite (rel_empty _ _ Hr), (rel_items _ _ Hr), (rel_full _ _ Hr).
  assert (Hlen : length (objects w) = length (objects a)).
  { destruct (rel_objects _ _ Hr) as (ts & _ & -> & ->). by rewrite !length_fmap. }
  rewrite Hlen. destruct (_ || _); [|intros [= <-]; eauto].
  destruct (move_object i a) as [a1|] eqn:H1; [|done]. destruct (move_sim w a i Hr a1 H1) as (w1 & -> & [Ho Hf He Hi]).
  cbn [mbind option_bind]. intros [= <-]. eexists. split; [done|]. by split.
Qed.

Lemma run_op_sim w a o : related w a → simulated (run_op a o) (run_op w o).
Proof.
  intros Hr. assert (Hout : ∀ i, outside w i = outside a i) by (intros i; unfold outside; by rewrite (rel_full _ _ Hr)).
  destruct o; cbn [run_op]; rewrite ?Hout; try (destruct (outside a i); [cbn [check mbind option_bind andb]|done]).
  - intros a' [= <-]. eexists. split; [done|]. by apply add_sim.
  - by apply allocate_sim.
  - by apply clear_sim.
  - by apply move_sim.
  - destruct (outside a j); [cbn [check mbind option_bind]|done]. by apply assign_sim.
  - by apply destroy_sim.
  - by apply TakeOrMake_sim.
  - by apply Free_sim.
  - intros a'. unfold destroy_pool. rewrite (rel_full _ _ Hr). apply destroy_full_sim.
    destruct Hr as [Ho Hf He Hi]. split; cbn; [done|done|done|]. by rewrite He, Hi.
Qed.

Lemma run_ops_sim ops : ∀ w a, related w a → simulated (run_ops a ops) (run_ops w ops).
Proof.
  induction ops as [|o ops IH]; intros w a Hr a'; cbn [run_ops]; [intros [= <-]; eauto|].
  destruct (run_op a o) as [a1|] eqn:Ho; [|done]. cbn [mbind option_bind].
  destruct (run_op_sim w a o Hr a1 Ho) as (w1 & -> & Hr1). cbn [mbind option_bind]. by apply IH.
Qed.
End worlds.

(** The items of the pool are those that have memory. *)
Section items.
Context {M B : Type} `{Buffers M B}.

Definition items_ok (w : World M B) : Prop := items w = length (full w) + empty w.

Lemma same_items i (w w' : World M B) :
  move_object i w = Some w' ∨ destroy_object i w = Some w' →
  full w' = full w ∧ empty w' = empty w ∧ items w' = items w.
Proof.
  unfold move_object, destroy_object. destruct (object w i) as [b|]; [|by intros []]. cbn [mbind option_bind].
  intros [Hw|Hw]; [by injection Hw as <-|]. destruct (delete_chunks _ _); [|done]. cbn in Hw. by injection Hw as <-.
Qed.

Lemma destroy_full_items l : ∀ w w' : World M B, full w = l → empty w = 0 → items_ok w →
  destroy_full l w = Some w' → full w' = [] ∧ empty w' = 0 ∧ items w' = 0.
Proof.
  unfold items_ok. induction l as [|i l IH]; intros w w' Hf He Hi; cbn [destroy_full].
  { intros [= <-]. rewrite Hf, He in Hi. done. }
  destruct (destroy_object i w) as [w1|] eqn:Hd; [|done]. cbn [mbind option_bind].
  destruct (same_items i w w1) as (F & E & I); [by right|]. apply IH; cbn; [done|congruence|].
  rewrite I, E, Hi, Hf, He. cbn. lia.
Qed.

Lemma run_op_items (w w' : World M B) o : items_ok w → run_op w o = Some w' → items_ok w'.
Proof.
  unfold items_ok. intros Hi. destruct o; cbn [run_op]; try (destruct (outside w i); [cbn [check mbind option_bind andb]|done]).
  - by intros [= <-].
  - destruct (object w i) as [b|]; [|done]. cbn. destruct (allocate _ _ _) as [[h b']|]; [|done]. cbn. by intros [= <-].
  - destruct (object w i) as [b|]; [|done]. cbn. by intros [= <-].
  - intros Hm. destruct (same_items i w w') as (-> & -> & ->); [by left|done].
  - destruct (outside w j); [cbn [check mbind option_bind]|done]. unfold assign_object.
    destruct (object w i); [|done]. destruct (object w j); [|done]. cbn. destruct (delete_chunks _ _); [|done]. cbn. by intros [= <-].
  - intros Hd. destruct (same_items i w w') as (-> & -> & ->); [by right|done].
  - unfold TakeOrMake. destruct (full w) as [|i l] eqn:Hf; [by intros [= <-]; cbn; rewrite Hf|].
    destruct (move_object i w) as [w1|] eqn:H1; [|done]. cbn [mbind option_bind].
    destruct (destroy_object i w1) as [w2|] eqn:H2; [|done]. cbn [mbind option_bind]. intros [= <-]. cbn.
    destruct (same_items i w w1) as (F1 & E1 & I1); [by left|]. destruct (same_items i w1 w2) as (F2 & E2 & I2); [by right|].
    rewrite I2, I1, E2, E1, Hi. cbn. lia.
  - unfold Free. destruct (Nat.ltb_spec 0 (empty w)); cbn [orb]; [|destruct item; [|by intros [= <-]]].
    all: destruct (move_object i w) as [w1|]; [|done]; cbn [mbind option_bind]; intros [= <-]; cbn; lia.
  - intros Hd. apply destroy_full_items in Hd as (-> & -> & ->); cbn; [done..|]. unfold items_ok. cbn. lia.
Qed.

Lemma run_ops_items ops (w w' : World M B) : items_ok w → run_ops w ops = Some w' → items_ok w'.
Proof.
  revert w. induction ops as [|o ops IH]; intros w Hi; cbn [run_ops]; [by intros [= <-]|].
  destruct (run_op w o) as [w1|] eqn:Ho; [|done]. cbn [mbind option_bind]. apply IH. by eapply run_op_items.
Qed.
End items.

(** ** Properties *)

Definition no_objects {M B : Type} (h : M) : World M B := mkWorld h [] [] 0 0.

(** C28: buffers in memory are buffers as lists.  Any program that makes, fills, clears,
    moves, assigns (also to themselves) and destroys buffers, and keeps them in a
    pool, runs in memory as it does on lists, if it does so there: it never uses or
    gives back a chunk after its end, and every object that is left has the chunks
    of its list.  The items of the pool have memory, and once all objects are
    destroyed no chunk is left.  Where a program has no meaning on lists, it uses an
    object after its end, or the tail of a buffer that was moved from. *)
Theorem buffers_accounted `{FreshBytes} (t_min_chunk_size : nat) (alloc : nat → bool) (ops : list op)
    (a : World unit Buffer)
    (Hrun : run_ops (H := as_lists t_min_chunk_size alloc) (no_objects tt) ops = Some a) :
  ∃ w, run_ops (H := in_memory t_min_chunk_size alloc) (no_objects ∅) ops = Some w
    ∧ (∀ i b, object a i = Some b → ∃ p ls, object w i = Some p ∧ repr (memory w) p b ls)
    ∧ items w = length (full w) + empty w
    ∧ (Forall (λ o, o = None) (objects a) → memory w = ∅).
Proof.
  destruct (run_ops_sim t_min_chunk_size alloc ops (no_objects ∅) (no_objects tt)) with (a' := a) as (w & Hw & Hr); [|done|].
  { split; try done. exists []. split; [|done]. split; [done|constructor|]. intros l. cbn [memory no_objects]. rewrite lookup_empty.
    split; [by intros []|by intros ?%elem_of_nil]. }
  exists w. split; [done|]. split_and!.
  - intros i b Hb%object_Some. destruct (related_lookup _ _ _ i b (rel_objects _ _ Hr) Hb) as (ts & p & ls & _ & _ & _ & _ & Hrep & Hp).
    exists p, ls. split; [by apply Some_object|done].
  - by eapply run_ops_items; [|exact Hw].
  - intros Hall. destruct (rel_objects _ _ Hr) as (ts & [Ho _ Ha] & _ & Ea). apply map_eq. intros l. rewrite lookup_empty.
    apply eq_None_not_Some. intros Hs. apply Ha in Hs. apply list_elem_of_bind in Hs as (x & Hl & [k Hk]%list_elem_of_lookup).
    rewrite Forall_lookup in Ho. rewrite Forall_lookup in Hall. specialize (Ho k x Hk).
    assert (Hx : x.1.2 = None). { apply (Hall k). rewrite Ea, list_lookup_fmap.
    exact (f_equal (fmap (λ x : Held, x.1.2)) Hk). }
    destruct x as [[[p|] [b|]] ls]; cbn in *; try done. subst. by apply elem_of_nil in Hl.
Qed.

(** ** Examples *)

Definition zero_chunks : FreshBytes := λ n, replicate n 0%Z.
#[local] Existing Instance zero_chunks.

(** Two buffers of two chunks and one; the first one goes through the pool, is
    assigned to the second one, and all are destroyed. *)
Definition demo_program : list op :=
  [ONew; ONew; OAllocate 0 20; OAllocate 0 30; OAllocate 1 4; OFree 0 true; ODestroy 0; OTakeOrMake;
   OAllocate 3 40; OAssign 1 3; OClear 1; OAllocate 1 8; OAssign 1 1; ODestroy 1; ODestroy 3; ODestroyPool].

Lemma buffers_accounted_witness :
  ∃ a w, run_ops (H := as_lists 64 (λ _, true)) (no_objects tt) demo_program = Some a
    ∧ run_ops (H := in_memory 64 (λ _, true)) (no_objects ∅) demo_program = Some w
    ∧ memory w = ∅ ∧ items w = 0.
Proof.
  destruct (run_ops (H := as_lists 64 (λ _, true)) (no_objects tt) demo_program) as [a|] eqn:Ha.
  - destruct (buffers_accounted 64 (λ _, true) demo_program a Ha) as (w & Hw & _ & Hi & Hall).
    exists a, w. split_and!; [done|done| |].
    + apply Hall. vm_compute in Ha. injection Ha as <-. repeat constructor.
    + vm_compute in Hw. by injection Hw as <-.
  - exfalso. vm_compute in Ha. discriminate.
Defined.

(** A buffer that was moved from still has its tail: what is put in there lands in a
    chunk of another buffer, and in one that was given back if that is destroyed. *)
Lemma moved_buffer_used :
  let moved := [ONew; OAllocate 0 8; OMove 0; OAllocate 0 8] in
  run_ops (H := as_lists 64 (λ _, true)) (no_objects tt) moved = None
  ∧ (∃ w l h, run_ops (H := in_memory 64 (λ _, true)) (no_objects ∅) moved = Some w
      ∧ p_tail <$> object w 0 = Some (Some l) ∧ m_head <$> object w 1 = Some (Some l)
      ∧ memory w !! l = Some h ∧ allocated h.1 = 48)
  ∧ run_ops (H := in_memory 64 (λ _, true)) (no_objects ∅) [ONew; OAllocate 0 8; OMove 0; ODestroy 1; OAllocate 0 8] = None.
Proof.
  split; [reflexivity|]. split; [|vm_compute; reflexivity].
  eexists _, _, _. split; [vm_compute; reflexivity|]. split; [vm_compute; reflexivity|].
  split; [vm_compute; reflexivity|]. split; vm_compute; reflexivity.
Qed.
